(* ===== verification/_CoqProject ===== *)
-Q . S2P
Prelude.v
WireUtils.v
StdMap.v
Messages.v
WireSpec.v
Connection.v
Worklist.v
LocalStore.v
Statistics.v
TapThread.v
TapSync.v
TapInterleave.v
Resync.v
Backend.v
Replication.v
Proxy.v
Control.v
Process.v
GetOpt.v
RogersMain.v
AstaireMain.v
