(* ===== verification/Prelude.v ===== *)
(** * Astaire and Rogers: a verification development

    The repository holds two programs that keep a cluster of memcached servers
    usable as one replicated store.  Keys are spread over 128 vbuckets; each
    vbucket has a list of replicas.

    - Astaire (src/astaire.cpp, src/resync_main.cpp) runs beside each memcached.
      When the cluster is resized or its memcached restarts it streams the
      vbuckets it should own from their replicas into the local memcached, over
      the TAP protocol, keeping whichever version of a record is newer.
    - Rogers (src/proxy_server.cpp, src/proxy_main.cpp) is a proxy that speaks
      the memcached binary protocol to clients and reads, writes and deletes on
      the replicas of each key through libmemcached (src/memcached_backend.cpp).

    Both use the binary-protocol client of src/memcached_tap_client.cpp.

    ** The files

    - [Prelude] (this file): outcomes of C++ code (a value, an uncaught
      exception, undefined behaviour, blocking for ever, exit), machine
      integers, bytes and byte orders, shared lemmas and the hint database.
    - [WireUtils]: the namespace Utils, MsgHdr and the enumerations of
      include/memcached_tap_client.hpp.
    - [StdMap]: std::map as a sorted association list, with operator[] and
      iteration order, over a class of key orders.
    - [Messages]: the message classes, their constructors, virtual functions,
      to_wire, the parsing constructors, is_msg_complete and from_wire.
    - [WireSpec]: the binary protocol's packet format as the specification of
      the codec, and the theorems that to_wire and from_wire implement it.
    - [Connection]: Connection, ClientConnection and ServerConnection: connect,
      send, recv, disconnect.  The other end is a class [Peer]; system calls
      and the chunks a stream arrives in are inputs.
    - [Worklist]: calculate_worklist, calculate_taps, blacklist_server,
      owl_empty, owl_total_buckets, complete_single_tap and process_worklist of
      src/astaire.cpp, whatever the tap threads do.
    - [LocalStore]: the interface that a memcached offers to Astaire (records,
      CAS values, GET/ADD/REPLACE/SET/DELETE, other clients acting in between)
      as a class with laws, and a reference server that has them.
    - [Statistics]: src/astaire_statistics.cpp and its header.
    - [TapThread]: Astaire::tap_buckets_thread and vbucket_for_key.
    - [TapSync]: what a tap thread does to a local memcached, proved against
      the interface of [LocalStore].
    - [TapInterleave]: the loops of the tap threads of one round, interleaved
      request by request.
    - [Resync]: process_worklist with perform_single_tap and the tap threads:
      what a whole resync does to the local memcached.
    - [Backend]: class MemcachedBackend, over an interface for libmemcached.
    - [Replication]: what reads and writes through the backend mean for a
      cluster of replicas some of which are down, and a reference cluster.
    - [Proxy]: class ProxyServer, over an interface that [Backend] implements.
    - [Control]: the control thread of class Astaire, do_resync, the tag in the
      local memcached, update_view and the signal handlers, as a step relation.
    - [Process]: what the main programs share: a monad of effects, the problem
      determination logs of include/astaire_pd_definitions.hpp and
      include/rogers_pd_definitions.hpp, signals and the crash handler.
    - [GetOpt]: getopt_long and atoi as the C library documents them, and a
      reference parser of command lines.
    - [RogersMain], [AstaireMain]: src/proxy_main.cpp and src/resync_main.cpp.

    Code and model have the same names where Rocq allows; a record field carries
    a prefix (for instance [gs_], [ps_], [br_] in [Statistics]).

    ** How the code is modelled

    Pure code is a function; code that can throw, crash or block returns [res].
    A variable that the code may read before it is written, or a pointer that
    may be NULL, is an [option] whose use is [Undefined] when absent; so is
    signed overflow.  Integers are kept at their width by [u8] ... [u64] and
    [i32].  Objects a function changes are passed in and returned.  Calls out of
    the process (sockets, clocks, threads, libmemcached, configuration) take
    their results from an environment the theorems quantify over.  Locks are
    not modelled as such: Astaire's public methods and its control thread hold
    the object's lock for a whole step, so the system is a sequence of steps
    ([Control]); the statistics' counters are atomic, and their theorem is over
    every order of the threads' updates; a tap thread runs between arbitrary
    actions of other clients of the local memcached ([lm_foreign]); and the
    threads of one round, which never share a vbucket
    ([Worklist.process_worklist_order]), run in the order they are joined in
    [Resync], while [TapInterleave] shows that without other clients every order
    of their requests leaves the same store.  A tapped server may close its
    stream, reset it or fall silent at any byte, and the request to it may fail
    to be sent; what it sends is finite (a server that streams without end keeps
    the real tap thread running, and is not expressed).  A main program leaves a
    trace of its effects: objects created and deleted, threads joined, logs,
    files, signals.  printf's conversions are modelled as far as the one format
    that is not a literal needs them (a command line, without arguments).

    Code that is not in the repository is a parameter: libmemcached's hash and
    operations, Utils::split_host_port and parse_ip_target, MemcachedStoreView
    and its configuration reader, the level from which the trace log is on,
    alarms and the communication monitor (their calls are logged).  The laws assumed of libmemcached and of memcached are
    classes with instances ([ref_cluster], [ref_memcached]) that satisfy them.

    ** What the theorems show

    - The codec: the bytes of a message are the packet that the protocol
      prescribes for it (a relation with a rule per command), parse back to the
      message, and are never parsed before they are complete; when parsing
      throws; that the downcasts on parsed messages are safe; the 64-bit swap.
    - Connections: messages come out of a stream in order however it is cut;
      a failed connection stays failed; a connected one has a read timeout.
    - Planning a resync: the work list is what this node must stream and does
      not have; each vbucket is streamed from its replicas in order, one at a
      time, never from this node, never again from a failed server; the loop
      ends, and reports exactly the vbuckets nobody streamed; the resynced
      bucket count of the statistics stays within the announced total.
    - Tap threads: they finish on every finite stream; the timestamp comparison; a stream, or as
      much of it as arrives, is merged newest-wins; nothing is lost or aged while
      others write; the threads of a round do not depend on their interleaving.
    - A resync and a turn of the control thread as a whole: every record that
      arrived from a replica whose tap did not fail is held, at least as new, and
      every vbucket not reported was streamed from a replica; resyncs happen
      exactly when they must; triggers are not lost; the tag protocol.  The code
      takes a stream that is closed early, or that was never asked for because
      the request could not be sent, for a completed tap
      ([Resync.early_close_counts_as_success], [TapSync.tap_thread_unsent]), so
      all records of a replica are held only if it sends them all before it
      closes ([Resync.sends_all]).
    - Statistics: counts are exact, reports decode, a change of a gauge of a
      registered connection is reported at once, no NULL record is used, and the
      collation of the bandwidth never divides by zero.
    - The backend: the calls each operation makes on the replicas, in order and
      with their arguments, and no others; its result, status and communication
      state on every branch; the alarm; a write that a replica accepts and keeps
      is read back; both programs place keys alike.
    - The proxy: every request is answered once, in order, with the backend's
      result; what makes it close; exactly when a turn has undefined behaviour.
    - The main programs: the two passes over the command line amount to one
      reading of it, and printed options are read back; how a run ends, with
      which exit code and logs, and in which order its objects are deleted, the
      runs that hang at shutdown and those without defined behaviour included
      (the traced command line is a format; objects are deleted in use); a crash
      always kills the process.

    ** Bounds

    [Connection.recv] needs no fuel: each pass of its loop uses up one result
    of the system call, and running out of them is blocking (or a timeout).
    [TapThread.tap_loop] has the bytes still to come as fuel (a finite stream),
    since each message uses up a header; [Worklist.process_loop] the longest replica list, since
    each round shortens every list; both are proved to be enough.
    [Proxy.connection_loop] has a fuel argument and its theorem asks for more
    than the number of requests.  A buffer is assumed shorter than 2^32 bytes
    where the code counts it in 32 bits.  [LocalStore.lm_ok] bounds the requests
    a memcached serves before its 64-bit CAS counter would wrap.  Timestamps are
    32 bits of milliseconds; where records are compared the theorems ask for
    timestamps within one window of [lm_epoch], and
    [TapThread.choose_action_serial_order] says what happens outside it.

    In [GetOpt] the scan has the characters of the command line as fuel; in
    [TapInterleave] a schedule is bounded by the messages of its streams.

    ** What is not modelled

    Trace logs (of rogers' and astaire's start only the command line is kept),
    the messages that getopt_long itself prints, problem determination logs of
    the other components, memory ownership other than of the objects that main
    creates, the interleaving of single instructions of two threads, and memory
    exhaustion.  The messages' debug output is left out.  POSIXLY_CORRECT is not
    set, and the host is little-endian.  The unit tests, the packaging and the
    scripts carry no logic of the programs; the libraries of the submodules are
    parameters because their sources are not in the repository.

    Worth adding next: writes and deletes through the proxy while a resync runs;
    other clients of the local memcached in [TapInterleave], and the statistics
    of interleaved taps; the problem determination logs of do_resync. *)

From Stdlib Require Import ZArith Lia Strings.Byte.
From Stdlib Require String.
From stdpp Require Import prelude.

Open Scope Z_scope.

(** ** Outcomes

    A C++ computation either delivers a value or ends abnormally. *)

Inductive failure : Type :=
| Out_of_range        (* std::out_of_range left uncaught: the process aborts *)
| Undefined           (* the C++ program has no defined behaviour here *)
| Blocked             (* a system call that never returns *)
| Exited (code : Z)   (* exit(code) *)
| Out_of_fuel.        (* the model's loop bound was too small *)

Inductive res (A : Type) : Type :=
| Val (a : A)
| Fail (f : failure).
Arguments Val {A} a.
Arguments Fail {A} f.

#[export] Instance failure_eq_dec : EqDecision failure.
Proof. solve_decision. Defined.

#[export] Instance res_ret : MRet res := fun A a => Val a.
#[export] Instance res_bind : MBind res :=
  fun A B k m => match m with Val a => k a | Fail f => Fail f end.

#[export] Instance res_fmap : FMap res :=
  fun A B f m => match m with Val a => Val (f a) | Fail e => Fail e end.

(** Lift a possibly indeterminate value: using it is undefined behaviour. *)
Definition use {A} (o : option A) : res A :=
  match o with Some a => Val a | None => Fail Undefined end.

Lemma bind_Val {A B} (k : A -> res B) a : (Val a ≫= k) = k a.
Proof. reflexivity. Qed.

Lemma bind_Fail {A B} (k : A -> res B) f : (Fail f ≫= k) = Fail f.
Proof. reflexivity. Qed.

Lemma bind_Val_inv {A B} (k : A -> res B) m b :
  (m ≫= k) = Val b -> exists a, m = Val a /\ k a = Val b.
Proof. destruct m; simpl; [eauto | discriminate]. Qed.

Lemma bind_Fail_inv {A B} (k : A -> res B) m f :
  (m ≫= k) = Fail f -> m = Fail f \/ exists a, m = Val a /\ k a = Fail f.
Proof. destruct m; cbn; intros H; [eauto | left; congruence]. Qed.

(** [outcome E P r]: a computation yields a value in [P] or fails in [E]. *)
Definition outcome {A} (E : failure -> Prop) (P : A -> Prop) (r : res A) : Prop :=
  match r with Val a => P a | Fail f => E f end.

Lemma outcome_bind {A B} E (P : A -> Prop) (Q : B -> Prop) (r : res A) (k : A -> res B) :
  outcome E P r -> (forall a, P a -> outcome E Q (k a)) -> outcome E Q (r ≫= k).
Proof. destruct r as [a|f]; cbn; auto. Qed.

Lemma outcome_mono {A} E (P Q : A -> Prop) (r : res A) :
  outcome E P r -> (forall a, P a -> Q a) -> outcome E Q r.
Proof. destruct r; cbn; auto. Qed.

Lemma outcome_use {A} (E : failure -> Prop) (o : option A) :
  E Undefined -> outcome E (fun a => o = Some a) (use o).
Proof. by destruct o. Qed.

(** ** Machine integers *)

Definition u8 (z : Z) : Z := z mod 2 ^ 8.
Definition u16 (z : Z) : Z := z mod 2 ^ 16.
Definition u32 (z : Z) : Z := z mod 2 ^ 32.
Definition u64 (z : Z) : Z := z mod 2 ^ 64.
(** Conversion to a signed 32-bit integer. *)
Definition i32 (z : Z) : Z := (z + 2 ^ 31) mod 2 ^ 32 - 2 ^ 31.

Definition in_u8 (z : Z) : Prop := 0 <= z < 2 ^ 8.
Definition in_u16 (z : Z) : Prop := 0 <= z < 2 ^ 16.
Definition in_u32 (z : Z) : Prop := 0 <= z < 2 ^ 32.
Definition in_u64 (z : Z) : Prop := 0 <= z < 2 ^ 64.
Definition in_i32 (z : Z) : Prop := - 2 ^ 31 <= z < 2 ^ 31.

Lemma u8_range z : in_u8 (u8 z).
Proof. unfold in_u8, u8. apply Z.mod_pos_bound. lia. Qed.
Lemma u16_range z : in_u16 (u16 z).
Proof. unfold in_u16, u16. apply Z.mod_pos_bound. lia. Qed.
Lemma u32_range z : in_u32 (u32 z).
Proof. unfold in_u32, u32. apply Z.mod_pos_bound. lia. Qed.
Lemma u64_range z : in_u64 (u64 z).
Proof. unfold in_u64, u64. apply Z.mod_pos_bound. lia. Qed.
Lemma i32_range z : in_i32 (i32 z).
Proof.
  unfold in_i32, i32.
  pose proof (Z.mod_pos_bound (z + 2 ^ 31) (2 ^ 32)). lia.
Qed.

Lemma u8_small z : in_u8 z -> u8 z = z.
Proof. unfold in_u8, u8. apply Z.mod_small. Qed.
Lemma u16_small z : in_u16 z -> u16 z = z.
Proof. unfold in_u16, u16. apply Z.mod_small. Qed.
Lemma u32_small z : in_u32 z -> u32 z = z.
Proof. unfold in_u32, u32. apply Z.mod_small. Qed.
Lemma u64_small z : in_u64 z -> u64 z = z.
Proof. unfold in_u64, u64. apply Z.mod_small. Qed.

Lemma i32_small z : in_i32 z -> i32 z = z.
Proof. unfold in_i32, i32. intros ?. rewrite Z.mod_small; lia. Qed.

Create HintDb astaire.
Create Rewrite HintDb wire.
#[export] Hint Resolve u8_range u16_range u32_range u64_range i32_range : astaire.

(** ** Bytes and byte strings

    A std::string is a list of bytes; nothing in the sources depends on an
    encoding. *)

Abbreviation bytes := (list byte) (only parsing).

#[export] Instance byte_eq_dec : EqDecision byte := Byte.byte_eq_dec.

Definition Z_of_byte (b : byte) : Z := Z.of_N (Byte.to_N b).

Definition byte_of_Z (z : Z) : byte :=
  match Byte.of_N (Z.to_N (z mod 256)) with
  | Some b => b
  | None => x00
  end.

(** A string literal of the sources. *)
Export String.StringSyntax.
Definition lit (s : String.string) : bytes := String.list_byte_of_string s.
Arguments lit s%_string_scope.

Definition len (s : bytes) : Z := Z.of_nat (length s).

Lemma Z_of_byte_range b : 0 <= Z_of_byte b < 256.
Proof. unfold Z_of_byte. pose proof (Byte.to_N_bounded b). lia. Qed.

Lemma Z_of_byte_of_Z z : Z_of_byte (byte_of_Z z) = z mod 256.
Proof.
  unfold byte_of_Z, Z_of_byte.
  pose proof (Z.mod_pos_bound z 256 ltac:(lia)).
  destruct (Byte.of_N (Z.to_N (z mod 256))) as [b|] eqn:E.
  - rewrite (Byte.to_of_N _ E). lia.
  - apply Byte.of_N_None_iff in E. lia.
Qed.

Lemma byte_of_Z_of_byte b : byte_of_Z (Z_of_byte b) = b.
Proof.
  unfold byte_of_Z. pose proof (Z_of_byte_range b).
  rewrite Z.mod_small by lia. unfold Z_of_byte.
  by rewrite N2Z.id, Byte.of_to_N.
Qed.

Lemma Z_of_byte_inj b c : Z_of_byte b = Z_of_byte c -> b = c.
Proof.
  intros H. rewrite <- (byte_of_Z_of_byte b), <- (byte_of_Z_of_byte c).
  by rewrite H.
Qed.

Lemma byte_of_Z_mod z : byte_of_Z (z mod 256) = byte_of_Z z.
Proof. unfold byte_of_Z. by rewrite Z.mod_mod by lia. Qed.

Lemma len_app s t : len (s ++ t) = len s + len t.
Proof. unfold len. rewrite length_app. lia. Qed.
Lemma len_nonneg s : 0 <= len s.
Proof. unfold len. lia. Qed.
Lemma len_to_nat s : Z.to_nat (len s) = length s.
Proof. unfold len. lia. Qed.
Lemma len_nil : len [] = 0.
Proof. reflexivity. Qed.
#[export] Hint Resolve len_nonneg Z_of_byte_range : astaire.

(** ** Little- and big-endian images *)

(** The memory image of an [n]-byte unsigned integer on a little-endian host. *)
Fixpoint le_bytes (n : nat) (v : Z) : bytes :=
  match n with
  | O => []
  | S n => byte_of_Z v :: le_bytes n (v / 256)
  end.

(** The integer a little-endian host reads from a memory image. *)
Fixpoint le_value (bs : bytes) : Z :=
  match bs with
  | [] => 0
  | b :: bs => Z_of_byte b + 256 * le_value bs
  end.

(** Network (big-endian) order, the reference both directions are compared to. *)
Definition be_bytes (n : nat) (v : Z) : bytes := reverse (le_bytes n v).
Definition be_value (bs : bytes) : Z := le_value (reverse bs).

Lemma le_bytes_length n v : length (le_bytes n v) = n.
Proof. revert v. induction n as [|n IH]; intros v; simpl; [done | by rewrite IH]. Qed.

Lemma be_bytes_length n v : length (be_bytes n v) = n.
Proof. unfold be_bytes. by rewrite length_reverse, le_bytes_length. Qed.

Lemma le_value_bytes n v : le_value (le_bytes n v) = v mod 256 ^ Z.of_nat n.
Proof.
  revert v. induction n as [|n IH]; intros v.
  { simpl. by rewrite Z.mod_1_r. }
  cbn [le_bytes le_value]. rewrite Z_of_byte_of_Z, IH, Nat2Z.inj_succ, Z.pow_succ_r by lia.
  rewrite Z.rem_mul_r by (try lia; apply Z.pow_nonzero; lia). lia.
Qed.

Lemma le_bytes_value bs : le_bytes (length bs) (le_value bs) = bs.
Proof.
  induction bs as [|b bs IH]; [done|].
  cbn [length le_value le_bytes]. pose proof (Z_of_byte_range b).
  f_equal.
  - rewrite <- byte_of_Z_mod.
    replace (Z_of_byte b + 256 * le_value bs) with (Z_of_byte b + le_value bs * 256) by lia.
    rewrite Z_mod_plus_full, byte_of_Z_mod. apply byte_of_Z_of_byte.
  - replace (Z_of_byte b + 256 * le_value bs) with (Z_of_byte b + le_value bs * 256) by lia.
    rewrite Z_div_plus_full, Z.div_small by lia. apply IH.
Qed.

Lemma le_bytes_value_n n bs : length bs = n -> le_bytes n (le_value bs) = bs.
Proof. intros <-. apply le_bytes_value. Qed.

Lemma le_value_range bs : 0 <= le_value bs < 256 ^ Z.of_nat (length bs).
Proof.
  rewrite <- (le_bytes_value bs) at 1 2. rewrite le_value_bytes.
  apply Z.mod_pos_bound. apply Z.pow_pos_nonneg; lia.
Qed.

Lemma le_value_app xs ys :
  le_value (xs ++ ys) = le_value xs + 256 ^ Z.of_nat (length xs) * le_value ys.
Proof.
  induction xs as [|x xs IH]; simpl length; simpl app.
  - cbn [le_value]. rewrite Z.pow_0_r. lia.
  - cbn [le_value]. rewrite IH, Nat2Z.inj_succ, Z.pow_succ_r by lia. ring.
Qed.

Lemma le_bytes_mod n v : le_bytes n (v mod 256 ^ Z.of_nat n) = le_bytes n v.
Proof.
  rewrite <- (le_value_bytes n v). apply le_bytes_value_n, le_bytes_length.
Qed.

Lemma le_bytes_add n m v :
  le_bytes (n + m) v = le_bytes n v ++ le_bytes m (v / 256 ^ Z.of_nat n).
Proof.
  revert v. induction n as [|n IH]; intros v.
  { simpl. by rewrite Z.div_1_r. }
  cbn [Nat.add le_bytes app]. rewrite IH. do 3 f_equal.
  rewrite Nat2Z.inj_succ, Z.pow_succ_r by lia. rewrite Z.div_div; [done|lia|].
  apply Z.pow_pos_nonneg; lia.
Qed.

Lemma be_value_bytes n v : be_value (be_bytes n v) = v mod 256 ^ Z.of_nat n.
Proof. unfold be_value, be_bytes. by rewrite reverse_involutive, le_value_bytes. Qed.

Lemma be_bytes_value n bs : length bs = n -> be_bytes n (be_value bs) = bs.
Proof.
  intros Hn. unfold be_value, be_bytes.
  rewrite le_bytes_value_n by (by rewrite length_reverse). apply reverse_involutive.
Qed.

Lemma be_value_range bs : 0 <= be_value bs < 256 ^ Z.of_nat (length bs).
Proof. unfold be_value. rewrite <- length_reverse. apply le_value_range. Qed.
