(* ===== verification/WireUtils.v ===== *)
(** * Byte order, the fixed header and the enumerations of the protocol

    Models [namespace Memcached::Utils], [struct MsgHdr], the [HDR_GET] macro
    and the [enum struct]s of include/memcached_tap_client.hpp.  The host is
    little-endian (the BOOST_LITTLE_ENDIAN branch, which is the one an x86
    build takes): an integer in memory is [le_bytes] of its value. *)

From Stdlib Require Import ZArith Lia Strings.Byte.
From stdpp Require Import prelude.
From S2P Require Import Prelude.

Open Scope Z_scope.

(** ** Byte order conversion *)

(** htons/htonl on a little-endian host: the memory image is reversed. *)
Definition htons (v : Z) : Z := le_value (reverse (le_bytes 2 v)).
Definition htonl (v : Z) : Z := le_value (reverse (le_bytes 4 v)).

Definition host_to_network8 (v : Z) : Z := v.
Definition host_to_network16 (v : Z) : Z := htons v.
Definition host_to_network32 (v : Z) : Z := htonl v.

(** There is no htonll: the source swaps the two halves itself. *)
Definition host_to_network64 (v : Z) : Z :=
  let low := htonl (u32 (Z.shiftr v 32)) in
  let high := htonl (u32 (Z.land v 4294967295)) in
  u64 (Z.lor low (u64 (Z.shiftl high 32))).

Definition network_to_host8 (v : Z) : Z := v.
Definition network_to_host16 (v : Z) : Z := htons v.
Definition network_to_host32 (v : Z) : Z := htonl v.
Definition network_to_host64 (v : Z) : Z := host_to_network64 v.

(** ** [Utils::write]: append the memory image of the converted value *)

Definition write8 (v : Z) (ss : bytes) : bytes := ss ++ le_bytes 1 (host_to_network8 v).
Definition write16 (v : Z) (ss : bytes) : bytes := ss ++ le_bytes 2 (host_to_network16 v).
Definition write32 (v : Z) (ss : bytes) : bytes := ss ++ le_bytes 4 (host_to_network32 v).
Definition write64 (v : Z) (ss : bytes) : bytes := ss ++ le_bytes 8 (host_to_network64 v).
Definition write_string (s ss : bytes) : bytes := ss ++ s.

(** ** The fixed-length header *)

Module MsgHdr.
Inductive MsgHdr_field : Type :=
| magic | op_code | key_length | extra_length | data_type
| vbucket_or_status | body_length | opaque | cas.

(** Offset of a field in the (unpadded) struct, and its width in bytes. *)
Definition MsgHdr_offset (f : MsgHdr_field) : nat :=
  match f with
  | magic => 0 | op_code => 1 | key_length => 2 | extra_length => 4
  | data_type => 5 | vbucket_or_status => 6 | body_length => 8
  | opaque => 12 | cas => 16
  end.

Definition MsgHdr_width (f : MsgHdr_field) : nat :=
  match f with
  | magic | op_code | extra_length | data_type => 1
  | key_length | vbucket_or_status => 2
  | body_length | opaque => 4
  | cas => 8
  end.
End MsgHdr.
Abbreviation MsgHdr_offset := MsgHdr.MsgHdr_offset.
Abbreviation MsgHdr_width := MsgHdr.MsgHdr_width.

Definition sizeof_MsgHdr : Z := 24.

Definition network_to_host (width : nat) (v : Z) : Z :=
  match width with
  | 1%nat => network_to_host8 v
  | 2%nat => network_to_host16 v
  | 4%nat => network_to_host32 v
  | _ => network_to_host64 v
  end.

(** Overlay the raw bytes with the struct and convert the field. *)
Definition HDR_GET (raw : bytes) (f : MsgHdr.MsgHdr_field) : Z :=
  network_to_host (MsgHdr_width f)
    (le_value (take (MsgHdr_width f) (drop (MsgHdr_offset f) raw))).

(** std::string::substr: throws when [pos] is past the end, otherwise takes at
    most what is there. *)
Definition substr (s : bytes) (pos n : Z) : res bytes :=
  if len s <? pos then Fail Out_of_range
  else Val (take (Z.to_nat (Z.min n (len s - pos))) (drop (Z.to_nat pos) s)).

(** [((uint32_t* )extra.data())[i]]: determinate only when the four bytes lie in
    the string or its terminating NUL. *)
Definition extra_word (extra : bytes) (i : nat) : option Z :=
  let mem := extra ++ [x00] in
  if decide (4 * i + 4 <= length mem)%nat
  then Some (network_to_host32 (le_value (take 4 (drop (4 * i) mem))))
  else None.

(** ** Enumerations *)

Module OpCode.
Inductive OpCode : Type :=
| GET | SET | ADD | REPLACE | DELETE | QUIT | VERSION | GETK
| TAP_CONNECT | TAP_MUTATE | SET_VBUCKET.

Definition OpCode_value (o : OpCode) : Z :=
  match o with
  | GET => 0x00 | SET => 0x01 | ADD => 0x02 | REPLACE => 0x03 | DELETE => 0x04
  | QUIT => 0x07 | VERSION => 0x0b | GETK => 0x0c
  | TAP_CONNECT => 0x40 | TAP_MUTATE => 0x41 | SET_VBUCKET => 0x3d
  end.
End OpCode.
Abbreviation OpCode := OpCode.OpCode.
Abbreviation OpCode_value := OpCode.OpCode_value.

Module ResultCode.
Inductive ResultCode : Type :=
| NO_ERROR | KEY_NOT_FOUND | KEY_EXISTS | VALUE_TOO_LARGE | INVALID_ARGUMENTS
| ITEM_NOT_STORED | INCR_DECR_ON_NON_NUMERIC_VALUE
| THE_VBUCKET_BELONGS_TO_ANOTHER_SERVER | AUTHENTICATION_ERROR
| AUTHENTICATION_CONTINUE | UNKNOWN_COMMAND | OUT_OF_MEMORY | NOT_SUPPORTED
| INTERNAL_ERROR | BUSY | TEMPORARY_FAILURE.

Definition ResultCode_value (r : ResultCode) : Z :=
  match r with
  | NO_ERROR => 0x0000 | KEY_NOT_FOUND => 0x0001 | KEY_EXISTS => 0x0002
  | VALUE_TOO_LARGE => 0x0003 | INVALID_ARGUMENTS => 0x0004
  | ITEM_NOT_STORED => 0x0005 | INCR_DECR_ON_NON_NUMERIC_VALUE => 0x0006
  | THE_VBUCKET_BELONGS_TO_ANOTHER_SERVER => 0x0007
  | AUTHENTICATION_ERROR => 0x0008 | AUTHENTICATION_CONTINUE => 0x0009
  | UNKNOWN_COMMAND => 0x0081 | OUT_OF_MEMORY => 0x0082 | NOT_SUPPORTED => 0x0083
  | INTERNAL_ERROR => 0x0084 | BUSY => 0x0085 | TEMPORARY_FAILURE => 0x0086
  end.
End ResultCode.
Abbreviation ResultCode := ResultCode.ResultCode.
Abbreviation ResultCode_value := ResultCode.ResultCode_value.

Module VBucketStatus.
Inductive VBucketStatus : Type := ACTIVE | REPLICA | PENDING | DEAD.

Definition VBucketStatus_value (s : VBucketStatus) : Z :=
  match s with ACTIVE => 1 | REPLICA => 2 | PENDING => 3 | DEAD => 4 end.
End VBucketStatus.
Abbreviation VBucketStatus := VBucketStatus.VBucketStatus.
Abbreviation VBucketStatus_value := VBucketStatus.VBucketStatus_value.

(** The result of Connection::recv. *)
Module Status.
Inductive Status : Type := OK | DISCONNECTED | ERROR.
End Status.
Abbreviation Status := Status.Status.

#[export] Instance OpCode_eq_dec : EqDecision OpCode.OpCode.
Proof. solve_decision. Defined.
#[export] Instance ResultCode_eq_dec : EqDecision ResultCode.ResultCode.
Proof. solve_decision. Defined.
#[export] Instance Status_eq_dec : EqDecision Status.Status.
Proof. solve_decision. Defined.

(** ** The conversions produce network order *)

Lemma htons_image v : le_bytes 2 (htons v) = be_bytes 2 v.
Proof. apply le_bytes_value_n, be_bytes_length. Qed.

Lemma htonl_image v : le_bytes 4 (htonl v) = be_bytes 4 v.
Proof. apply le_bytes_value_n, be_bytes_length. Qed.

Lemma htons_load bs : length bs = 2%nat -> htons (le_value bs) = be_value bs.
Proof. intros H. unfold htons, be_value. by rewrite le_bytes_value_n. Qed.

Lemma htonl_load bs : length bs = 4%nat -> htonl (le_value bs) = be_value bs.
Proof. intros H. unfold htonl, be_value. by rewrite le_bytes_value_n. Qed.

Lemma htonl_range v : in_u32 (htonl v).
Proof.
  pose proof (le_value_range (reverse (le_bytes 4 v))) as H.
  rewrite length_reverse, le_bytes_length in H. exact H.
Qed.

(** Or-ing two halves that do not overlap is adding them. *)
Lemma lor_halves lo hi :
  in_u32 lo -> Z.lor lo (Z.shiftl hi 32) = lo + hi * 2 ^ 32.
Proof.
  unfold in_u32. intros Hlo. rewrite <- Z.add_nocarry_lor.
  - by rewrite Z.shiftl_mul_pow2 by lia.
  - apply Z.bits_inj'. intros i Hi. rewrite Z.land_spec, Z.bits_0.
    destruct (decide (i < 32)).
    + by rewrite Z.shiftl_spec_low, andb_false_r.
    + rewrite <- (Z.mod_small lo (2 ^ 32)) by lia.
      by rewrite Z.mod_pow2_bits_high by lia.
Qed.

Lemma host_to_network64_sum v :
  host_to_network64 v = htonl (v / 2 ^ 32) + htonl v * 2 ^ 32.
Proof.
  assert (Hm : forall w, htonl (u32 w) = htonl w).
  { intros w. unfold htonl, u32. f_equal. f_equal. apply (le_bytes_mod 4). }
  unfold host_to_network64.
  change 4294967295 with (Z.ones 32). rewrite Z.land_ones by lia.
  change (v mod 2 ^ 32) with (u32 v).
  assert (u32 (u32 v) = u32 v) as -> by (apply u32_small; auto with astaire).
  rewrite !Hm, Z.shiftr_div_pow2 by lia.
  pose proof (htonl_range (v / 2 ^ 32)) as Hl. pose proof (htonl_range v) as Hh.
  unfold in_u32 in *.
  rewrite (u64_small (Z.shiftl _ _))
    by (unfold in_u64; rewrite Z.shiftl_mul_pow2 by lia; lia).
  rewrite lor_halves by done. apply u64_small. unfold in_u64. lia.
Qed.

(** The two-half swap of the source is the 8-byte network order. *)
Lemma host_to_network64_image v : le_bytes 8 (host_to_network64 v) = be_bytes 8 v.
Proof.
  rewrite host_to_network64_sum.
  pose proof (htonl_range (v / 2 ^ 32)) as Hl. unfold in_u32 in Hl.
  rewrite (le_bytes_add 4 4). change (256 ^ Z.of_nat 4) with (2 ^ 32).
  rewrite Z_div_plus_full, (Z.div_small (htonl _)), Z.add_0_l by lia.
  rewrite <- (le_bytes_mod 4 (_ + _)). change (256 ^ Z.of_nat 4) with (2 ^ 32).
  rewrite Z_mod_plus_full, (Z.mod_small (htonl _)), !htonl_image by lia.
  unfold be_bytes. change 8%nat with (4 + 4)%nat. by rewrite le_bytes_add, reverse_app.
Qed.

Lemma host_to_network64_load bs :
  length bs = 8%nat -> host_to_network64 (le_value bs) = be_value bs.
Proof.
  intros H. assert (le_bytes 8 (host_to_network64 (le_value bs)) = le_bytes 8 (be_value bs)) as E.
  { rewrite host_to_network64_image. unfold be_bytes. rewrite le_bytes_value_n by done.
    symmetry. apply le_bytes_value_n. by rewrite length_reverse. }
  apply (f_equal le_value) in E. rewrite !le_value_bytes in E.
  pose proof (be_value_range bs) as Hb. rewrite H in Hb.
  change (256 ^ Z.of_nat 8) with (2 ^ 64) in *.
  rewrite (Z.mod_small (be_value bs)) in E by done.
  rewrite Z.mod_small in E; [done|]. rewrite host_to_network64_sum.
  pose proof (htonl_range (le_value bs / 2 ^ 32)) as Hl.
  pose proof (htonl_range (le_value bs)) as Hh. unfold in_u32 in *. lia.
Qed.

(** Each [Utils::write] appends the value in network order. *)
Lemma write8_be v ss : write8 v ss = ss ++ be_bytes 1 v.
Proof. reflexivity. Qed.
Lemma write16_be v ss : write16 v ss = ss ++ be_bytes 2 v.
Proof. unfold write16, host_to_network16. by rewrite htons_image. Qed.
Lemma write32_be v ss : write32 v ss = ss ++ be_bytes 4 v.
Proof. unfold write32, host_to_network32. by rewrite htonl_image. Qed.
Lemma write64_be v ss : write64 v ss = ss ++ be_bytes 8 v.
Proof. unfold write64. by rewrite host_to_network64_image. Qed.
#[export] Hint Rewrite write8_be write16_be write32_be write64_be : wire.

(** The header overlay reads the field's bytes in network order. *)
Lemma HDR_GET_be raw f :
  (24 <= length raw)%nat ->
  HDR_GET raw f = be_value (take (MsgHdr_width f) (drop (MsgHdr_offset f) raw)).
Proof.
  intros Hr. unfold HDR_GET.
  assert (length (take (MsgHdr_width f) (drop (MsgHdr_offset f) raw)) = MsgHdr_width f) as Hl.
  { rewrite length_take, length_drop. destruct f; cbn [MsgHdr_width MsgHdr_offset]; lia. }
  destruct f; cbn [MsgHdr_width MsgHdr_offset network_to_host] in *;
    first [ by apply host_to_network64_load | by apply htonl_load
          | by apply htons_load | idtac ].
  all: unfold network_to_host8, be_value;
    destruct (take 1 _) as [|b [|]] eqn:E; try discriminate; reflexivity.
Qed.

Lemma HDR_GET_range raw f :
  (24 <= length raw)%nat -> 0 <= HDR_GET raw f < 256 ^ Z.of_nat (MsgHdr_width f).
Proof.
  intros Hr. rewrite HDR_GET_be by done.
  pose proof (be_value_range (take (MsgHdr_width f) (drop (MsgHdr_offset f) raw))) as H.
  rewrite length_take, length_drop in H.
  rewrite Nat.min_l in H by (destruct f; cbn [MsgHdr_width MsgHdr_offset]; lia). exact H.
Qed.

(** Only the first 24 bytes matter to the overlay. *)
Lemma HDR_GET_app raw tail f :
  (24 <= length raw)%nat -> HDR_GET (raw ++ tail) f = HDR_GET raw f.
Proof.
  intros Hr. unfold HDR_GET. do 2 f_equal.
  rewrite drop_app_le by (destruct f; cbn [MsgHdr_width MsgHdr_offset]; lia).
  apply take_app_le. rewrite length_drop. destruct f; cbn [MsgHdr_width MsgHdr_offset]; lia.
Qed.

(** [substr] at a known split point. *)
Lemma substr_mid a b c n :
  n = len b -> substr (a ++ b ++ c) (len a) n = Val b.
Proof.
  intros ->. unfold substr.
  destruct (Z.ltb_spec (len (a ++ b ++ c)) (len a)) as [H|H].
  { rewrite !len_app in H. pose proof (len_nonneg b). pose proof (len_nonneg c). lia. }
  rewrite !len_app. unfold len. rewrite Nat2Z.id, drop_app_length.
  rewrite Z.min_l, Nat2Z.id by lia. by rewrite take_app_length.
Qed.
