(* ===== verification/StdMap.v ===== *)
(** * std::map as a sorted association list

    The sources iterate over std::map in key order and the order is visible
    (which vbucket is pushed first, which tap is started first), so a map is
    the list of its entries in increasing key order.  The keys used are
    integers and strings; [KeyOrder] is their strict order. *)

From Stdlib Require Import ZArith Lia Strings.Byte Sorting.Sorted.
From stdpp Require Import prelude.
From S2P Require Import Prelude.

Open Scope Z_scope.

(** ** Key orders *)

Class KeyOrder (K : Type) := key_lt : K -> K -> bool.

Class KeyOrderLaws (K : Type) `{KeyOrder K} : Prop := {
  key_lt_irrefl : forall k, key_lt k k = false;
  key_lt_trans : forall k1 k2 k3,
    key_lt k1 k2 = true -> key_lt k2 k3 = true -> key_lt k1 k3 = true;
  key_lt_total : forall k1 k2, key_lt k1 k2 = false -> key_lt k2 k1 = false -> k1 = k2
}.

#[export] Instance Z_order : KeyOrder Z := Z.ltb.

(** std::string compares byte by byte, as unsigned values. *)
Fixpoint bytes_lt (a b : bytes) : bool :=
  match a, b with
  | _, [] => false
  | [], _ => true
  | x :: a, y :: b =>
      if Z_of_byte x <? Z_of_byte y then true
      else if Z_of_byte y <? Z_of_byte x then false
      else bytes_lt a b
  end.
#[export] Instance bytes_order : KeyOrder (list byte) := bytes_lt.

(** ** Operations *)

Section stdmap.
Context {K V : Type} `{KeyOrder K}.

Definition stdmap : Type := list (K * V).

Fixpoint map_find (k : K) (m : stdmap) : option V :=
  match m with
  | [] => None
  | (k', v) :: m =>
      if key_lt k k' then None
      else if key_lt k' k then map_find k m
      else Some v
  end.

(** [m[k] = v] *)
Fixpoint map_set (k : K) (v : V) (m : stdmap) : stdmap :=
  match m with
  | [] => [(k, v)]
  | (k', v') :: m' =>
      if key_lt k k' then (k, v) :: m
      else if key_lt k' k then (k', v') :: map_set k v m'
      else (k, v) :: m'
  end.

(** [m[k]] as a value: a missing key is inserted with [d] first. *)
Definition map_index (d : V) (k : K) (m : stdmap) : V * stdmap :=
  match map_find k m with
  | Some v => (v, m)
  | None => (d, map_set k d m)
  end.

Definition map_keys (m : stdmap) : list K := map fst m.

(** The representation invariant. *)
Definition key_sorted (m : stdmap) : Prop :=
  StronglySorted (fun a b => key_lt a b = true) (map_keys m).
End stdmap.
Arguments stdmap : clear implicits.

(** ** Instances of the laws *)

#[export] Instance Z_order_laws : KeyOrderLaws Z.
Proof. split; unfold key_lt, Z_order; intros; rewrite ?Z.ltb_ge, ?Z.ltb_lt in *; lia. Qed.

#[export] Instance bytes_order_laws : KeyOrderLaws (list byte).
Proof.
  split; unfold key_lt, bytes_order.
  - induction k as [|x k IH]; cbn; [done|]. by rewrite Z.ltb_irrefl.
  - induction k1 as [|x k1 IH]; intros [|y k2] [|z k3]; cbn; try discriminate; [done|].
    intros H1 H2. repeat case_match; rewrite ?Z.ltb_lt, ?Z.ltb_ge in *;
      first [done | lia | by eapply IH].
  - induction k1 as [|x k1 IH]; intros [|y k2]; cbn; try discriminate; [done|].
    destruct (Z.ltb_spec (Z_of_byte x) (Z_of_byte y)); [discriminate|].
    destruct (Z.ltb_spec (Z_of_byte y) (Z_of_byte x)); [discriminate|].
    intros H1 H2. f_equal; [apply Z_of_byte_inj; lia | by apply IH].
Qed.

(** ** Lemmas *)

Section stdmap_facts.
Context {K V : Type} `{KeyOrderLaws K}.
Implicit Types (m : list (K * V)) (k : K).

Lemma key_lt_asym k1 k2 : key_lt k1 k2 = true -> key_lt k2 k1 = false.
Proof.
  intros H1. destruct (key_lt k2 k1) eqn:E; [|done].
  pose proof (key_lt_trans _ _ _ H1 E) as H2. by rewrite key_lt_irrefl in H2.
Qed.

(** The three-way comparison the operations make. *)
Lemma key_cases k k' :
  (key_lt k k' = true /\ key_lt k' k = false /\ k <> k') \/
  (key_lt k k' = false /\ key_lt k' k = true /\ k <> k') \/
  (key_lt k k' = false /\ key_lt k' k = false /\ k = k').
Proof.
  destruct (key_lt k k') eqn:E1.
  - left. split; [done|]. split; [by apply key_lt_asym|]. intros ->.
    by rewrite key_lt_irrefl in E1.
  - right. destruct (key_lt k' k) eqn:E2.
    + left. repeat split. intros ->. by rewrite key_lt_irrefl in E2.
    + right. repeat split. by apply key_lt_total.
Qed.

(** Use what is known of key comparisons; split on one. *)
Ltac key_simp :=
  cbn; rewrite ?key_lt_irrefl;
  repeat match goal with
  | H : key_lt ?a ?b = _ |- context [key_lt ?a ?b] => rewrite H
  end.
Ltac key_case k k' :=
  destruct (key_cases k k') as [(? & ? & ?) | [(? & ? & ?) | (? & ? & ->)]]; key_simp.

Lemma key_sorted_cons k v m :
  key_sorted ((k, v) :: m) <->
  key_sorted m /\ Forall (fun k' => key_lt k k' = true) (map_keys m).
Proof.
  unfold key_sorted. cbn. split.
  - intros Hs. inversion Hs; auto.
  - intros [? ?]. by constructor.
Qed.

Lemma map_find_set_eq k v m : map_find k (map_set k v m) = Some v.
Proof.
  induction m as [|[k0 v0] m IH]; key_simp; [done|]. key_case k k0; key_simp; done.
Qed.

Lemma map_find_set_ne k k' v m :
  k' <> k -> map_find k' (map_set k v m) = map_find k' m.
Proof.
  intros Hne. induction m as [|[k0 v0] m IH]; key_simp.
  - key_case k' k; done.
  - key_case k k0; key_simp.
    + key_case k' k; [|done|done]. by rewrite (key_lt_trans k' k k0).
    + key_case k' k0; done.
    + key_case k' k0; done.
Qed.

Lemma map_keys_set k v m :
  key_sorted m -> forall k', k' ∈ map_keys (map_set k v m) <-> k' = k \/ k' ∈ map_keys m.
Proof.
  intros Hs k'. induction m as [|[k0 v0] m IH]; key_simp.
  - rewrite list_elem_of_singleton, elem_of_nil. tauto.
  - apply key_sorted_cons in Hs as [Hs _]. specialize (IH Hs).
    key_case k k0; cbn; rewrite ?elem_of_cons, ?IH; tauto.
Qed.

Lemma map_set_sorted k v m : key_sorted m -> key_sorted (map_set k v m).
Proof.
  induction m as [|[k0 v0] m IH]; intros Hs; key_simp; [by repeat constructor|].
  pose proof Hs as Hs'. apply key_sorted_cons in Hs as [Hs Hf].
  key_case k k0.
  - apply key_sorted_cons. split; [done|]. cbn. constructor; [done|].
    eapply Forall_impl; [exact Hf|]. cbn. intros x Hx. by eapply key_lt_trans.
  - apply key_sorted_cons. split; [by apply IH|].
    apply Forall_forall. intros x Hx. apply map_keys_set in Hx as [->|Hx]; [done| |done].
    by apply (proj1 (Forall_forall _ _) Hf).
  - by apply key_sorted_cons.
Qed.

Lemma map_find_not_key k m : k ∉ map_keys m -> map_find k m = None.
Proof.
  induction m as [|[k0 v0] m IH]; key_simp; [done|]. intros Hk.
  rewrite not_elem_of_cons in Hk. destruct Hk as [Hk Hm]. key_case k k0; auto. done.
Qed.

(** Lookup in a sorted map, key by key. *)
Lemma map_find_cons `{EqDecision K} k k0 v m :
  key_sorted ((k0, v) :: m) ->
  map_find k ((k0, v) :: m) = if decide (k = k0) then Some v else map_find k m.
Proof.
  intros Hs. apply key_sorted_cons in Hs as [_ Hlt]. key_case k k0.
  - rewrite decide_False by done. symmetry. apply map_find_not_key. intros Hin.
    apply (proj1 (Forall_forall _ _) Hlt) in Hin. congruence.
  - by rewrite decide_False.
  - by rewrite decide_True.
Qed.

(** In a sorted map, looking up and being an entry agree. *)
Lemma map_find_elem k v m : key_sorted m -> map_find k m = Some v <-> (k, v) ∈ m.
Proof.
  intros Hs. induction m as [|[k0 v0] m IH]; key_simp; [rewrite elem_of_nil; by split|].
  apply key_sorted_cons in Hs as [Hs Hf]. specialize (IH Hs).
  assert (Hin : forall k' v', (k', v') ∈ m -> key_lt k0 k' = true).
  { intros k' v' Hkv. apply (proj1 (Forall_forall _ _) Hf).
    apply list_elem_of_In, in_map_iff. exists (k', v'). by rewrite <- list_elem_of_In. }
  rewrite elem_of_cons. key_case k k0.
  - split; [done|]. intros [[= -> ->]|Hm]; [congruence|].
    apply Hin in Hm. apply key_lt_asym in Hm. congruence.
  - rewrite IH. split; [auto|]. intros [[= -> ->]|?]; [congruence|done].
  - split; [intros [= ->]; auto|]. intros [[= ->]|Hm]; [done|].
    apply Hin in Hm. by rewrite key_lt_irrefl in Hm.
Qed.

Lemma key_sorted_NoDup m : key_sorted m -> NoDup (map_keys m).
Proof.
  induction m as [|[k0 v0] m IH]; intros Hs; cbn; [constructor|].
  apply key_sorted_cons in Hs as [Hs Hf]. constructor; [|by apply IH].
  intros Hin. apply (proj1 (Forall_forall _ _) Hf) in Hin. by rewrite key_lt_irrefl in Hin.
Qed.

Lemma map_index_find (d : V) k k' m :
  default d (map_find k' (map_index d k m).2) = default d (map_find k' m).
Proof.
  unfold map_index. destruct (map_find k m) as [v|] eqn:E; [done|]. cbn.
  key_case k' k; rewrite ?map_find_set_ne, ?map_find_set_eq by done; try done.
  by rewrite E.
Qed.

Lemma map_index_value (d : V) k m : (map_index d k m).1 = default d (map_find k m).
Proof. unfold map_index. by destruct (map_find k m). Qed.
End stdmap_facts.
