(* ===== verification/Messages.v ===== *)
(** * Messages of the memcached binary protocol

    Models the class hierarchy of include/memcached_tap_client.hpp and
    src/memcached_tap_client.cpp: one record per class (its data members, the
    base class as a field), one constructor of [message] per dynamic type a
    [BaseMessage*] can have, and the virtual functions by case on it.

    A field a constructor fills from bytes that are not there is
    indeterminate: it is [None], and using it is undefined behaviour. *)

From Stdlib Require Import ZArith Lia Strings.Byte.
From stdpp Require Import prelude.
From S2P Require Import Prelude WireUtils.

Open Scope Z_scope.

(** ** Data members *)

Record BaseMessage : Type := mkBaseMessage {
  bm_op_code : Z;      (* uint8_t *)
  bm_key : bytes;
  bm_opaque : Z;       (* uint32_t *)
  bm_cas : Z           (* uint64_t *)
}.

Record BaseReq : Type := mkBaseReq {
  brq_base : BaseMessage;
  brq_vbucket : Z      (* uint16_t *)
}.

Record BaseRsp : Type := mkBaseRsp {
  brs_base : BaseMessage;
  brs_status : Z       (* uint16_t *)
}.

Record GetRsp : Type := mkGetRsp {
  gr_rsp : BaseRsp;
  gr_value : bytes;
  gr_flags : option Z  (* uint32_t *)
}.

Record SetAddReplaceReq : Type := mkSetAddReplaceReq {
  sar_req : BaseReq;
  sar_value : bytes;
  sar_flags : option Z;   (* uint32_t *)
  sar_expiry : option Z   (* uint32_t *)
}.

Record TapMutateReq : Type := mkTapMutateReq {
  tm_req : BaseReq;
  tm_value : bytes;
  tm_flags : option Z;    (* uint32_t *)
  tm_expiry : option Z    (* uint32_t *)
}.

Record TapConnectReq : Type := mkTapConnectReq {
  tc_req : BaseReq;
  tc_buckets : list Z     (* std::vector<uint16_t> *)
}.

Record SetVBucketReq : Type := mkSetVBucketReq {
  sv_req : BaseReq;
  sv_status : VBucketStatus
}.

Record VersionRsp : Type := mkVersionRsp {
  vr_rsp : BaseRsp;
  vr_version : bytes
}.

(** The dynamic type of a [BaseMessage*]. *)
Inductive message : Type :=
| M_BaseReq (r : BaseReq)
| M_GetReq (r : BaseReq)
| M_DeleteReq (r : BaseReq)
| M_VersionReq (r : BaseReq)
| M_SetReq (r : SetAddReplaceReq)
| M_AddReq (r : SetAddReplaceReq)
| M_ReplaceReq (r : SetAddReplaceReq)
| M_TapMutateReq (r : TapMutateReq)
| M_TapConnectReq (r : TapConnectReq)
| M_SetVBucketReq (r : SetVBucketReq)
| M_BaseRsp (r : BaseRsp)
| M_GetRsp (r : GetRsp)
| M_SetAddReplaceRsp (r : BaseRsp)
| M_DeleteRsp (r : BaseRsp)
| M_VersionRsp (r : VersionRsp).

(** ** Constructors that build a message to send *)

Definition GetReq_new (key : bytes) (opaque : Z) : message :=
  M_GetReq (mkBaseReq (mkBaseMessage (OpCode_value OpCode.GET) key opaque 0) 0).

Definition DeleteReq_new (key : bytes) (opaque : Z) : message :=
  M_DeleteReq (mkBaseReq (mkBaseMessage (OpCode_value OpCode.DELETE) key opaque 0) 0).

Definition SetAddReplaceReq_new (command : Z) (key : bytes) (vbucket : Z)
    (value : bytes) (cas flags expiry : Z) : SetAddReplaceReq :=
  mkSetAddReplaceReq (mkBaseReq (mkBaseMessage command key 0 cas) vbucket)
    value (Some flags) (Some expiry).

Definition SetReq_new (key : bytes) (vbucket : Z) (value : bytes)
    (flags expiry : Z) : message :=
  M_SetReq (SetAddReplaceReq_new (OpCode_value OpCode.SET) key vbucket value 0 flags expiry).

Definition AddReq_new (key : bytes) (vbucket : Z) (value : bytes)
    (flags expiry : Z) : message :=
  M_AddReq (SetAddReplaceReq_new (OpCode_value OpCode.ADD) key vbucket value 0 flags expiry).

Definition ReplaceReq_new (key : bytes) (vbucket : Z) (value : bytes)
    (cas flags expiry : Z) : message :=
  M_ReplaceReq
    (SetAddReplaceReq_new (OpCode_value OpCode.REPLACE) key vbucket value cas flags expiry).

Definition TapConnectReq_new (buckets : list Z) : message :=
  M_TapConnectReq (mkTapConnectReq
    (mkBaseReq (mkBaseMessage (OpCode_value OpCode.TAP_CONNECT) [] 0 0) 0) buckets).

Definition SetVBucketReq_new (vbucket : Z) (status : VBucketStatus) : message :=
  M_SetVBucketReq (mkSetVBucketReq
    (mkBaseReq (mkBaseMessage (OpCode_value OpCode.SET_VBUCKET) [] 0 0) vbucket) status).

(** A GETK response when a key is given, a GET response otherwise. *)
Definition GetRsp_new (status opaque cas : Z) (value : bytes) (flags : Z)
    (key : bytes) : message :=
  let op := match key with
            | [] => OpCode_value OpCode.GET
            | _ => OpCode_value OpCode.GETK
            end in
  M_GetRsp (mkGetRsp (mkBaseRsp (mkBaseMessage op key opaque cas) status)
              value (Some flags)).

(** The status parameter of these two is a uint8_t. *)
Definition SetAddReplaceRsp_new (command status opaque cas : Z) : message :=
  M_SetAddReplaceRsp (mkBaseRsp (mkBaseMessage command [] opaque cas) (u8 status)).

Definition DeleteRsp_new (status opaque : Z) : message :=
  M_DeleteRsp
    (mkBaseRsp (mkBaseMessage (OpCode_value OpCode.DELETE) [] opaque 0) (u8 status)).

Definition VersionRsp_new (status opaque : Z) (version : bytes) : message :=
  M_VersionRsp (mkVersionRsp
    (mkBaseRsp (mkBaseMessage (OpCode_value OpCode.VERSION) [] opaque 0) status) version).

(** ** Accessors and virtual functions *)

(** The base-class part: the request or the response it is. *)
Definition message_base (m : message) : BaseReq + BaseRsp :=
  match m with
  | M_BaseReq r | M_GetReq r | M_DeleteReq r | M_VersionReq r => inl r
  | M_SetReq r | M_AddReq r | M_ReplaceReq r => inl (sar_req r)
  | M_TapMutateReq r => inl (tm_req r)
  | M_TapConnectReq r => inl (tc_req r)
  | M_SetVBucketReq r => inl (sv_req r)
  | M_BaseRsp r | M_SetAddReplaceRsp r | M_DeleteRsp r => inr r
  | M_GetRsp r => inr (gr_rsp r)
  | M_VersionRsp r => inr (vr_rsp r)
  end.

Definition base_of (m : message) : BaseMessage :=
  match message_base m with inl r => brq_base r | inr r => brs_base r end.

Definition is_request (m : message) : bool :=
  match message_base m with inl _ => true | inr _ => false end.
Definition is_response (m : message) : bool := negb (is_request m).

Definition generate_vbucket_or_status (m : message) : Z :=
  match message_base m with inl r => brq_vbucket r | inr r => brs_status r end.

(** GetRsp: only add the flags if a result has been found. *)
Definition GetRsp_generate_extra (r : GetRsp) : res bytes :=
  if brs_status (gr_rsp r) =? ResultCode_value ResultCode.NO_ERROR then
    flags ← use (gr_flags r);
    mret (write32 flags [])
  else mret [].

Definition SetAddReplaceReq_generate_extra (r : SetAddReplaceReq) : res bytes :=
  flags ← use (sar_flags r);
  expiry ← use (sar_expiry r);
  mret (write32 expiry (write32 flags [])).

Definition TapConnectReq_generate_extra (r : TapConnectReq) : bytes :=
  let extra := 0x00000002 in
  let extra := match tc_buckets r with [] => extra | _ => Z.lor extra 0x00000004 end in
  write32 extra [].

Definition TapConnectReq_generate_value (r : TapConnectReq) : bytes :=
  match tc_buckets r with
  | [] => []
  | bs => foldl (fun ss b => write16 b ss) (write16 (u16 (Z.of_nat (length bs))) []) bs
  end.

Definition SetVBucketReq_generate_extra (r : SetVBucketReq) : bytes :=
  write32 (VBucketStatus_value (sv_status r)) [].

(** A class with no override inherits the empty extras and value. *)
Definition generate_extra (m : message) : res bytes :=
  match m with
  | M_GetRsp r => GetRsp_generate_extra r
  | M_SetReq r | M_AddReq r | M_ReplaceReq r => SetAddReplaceReq_generate_extra r
  | M_TapConnectReq r => mret (TapConnectReq_generate_extra r)
  | M_SetVBucketReq r => mret (SetVBucketReq_generate_extra r)
  | _ => mret []
  end.

Definition generate_value (m : message) : bytes :=
  match m with
  | M_GetRsp r => gr_value r
  | M_SetReq r | M_AddReq r | M_ReplaceReq r => sar_value r
  | M_TapConnectReq r => TapConnectReq_generate_value r
  | M_VersionRsp r => vr_version r
  | _ => []
  end.

(** GetReq::response_needs_key *)
Definition response_needs_key (r : BaseReq) : bool :=
  bm_op_code (brq_base r) =? OpCode_value OpCode.GETK.

(** ** Serialisation *)

Definition to_wire (m : message) : res bytes :=
  extra ← generate_extra m;
  let value := generate_value m in
  let vbucket_or_status := generate_vbucket_or_status m in
  let b := base_of m in
  let body_size := u32 (len extra + len (bm_key b) + len value) in
  let magic_byte := if is_request m then 0x80 else 0x81 in
  let ss := write8 magic_byte [] in
  let ss := write8 (bm_op_code b) ss in
  let ss := write16 (u16 (len (bm_key b))) ss in
  let ss := write8 (u8 (len extra)) ss in
  let ss := write8 0x00 ss in
  let ss := write16 vbucket_or_status ss in
  let ss := write32 body_size ss in
  let ss := write32 (bm_opaque b) ss in
  let ss := write64 (bm_cas b) ss in
  let ss := write_string extra ss in
  let ss := write_string (bm_key b) ss in
  let ss := write_string value ss in
  mret ss.

(** ** Parsing: one function per constructor taking the raw message *)

Definition BaseMessage_parse (msg : bytes) : res BaseMessage :=
  key ← substr msg (sizeof_MsgHdr + HDR_GET msg MsgHdr.extra_length)
                   (HDR_GET msg MsgHdr.key_length);
  mret (mkBaseMessage (HDR_GET msg MsgHdr.op_code) key
          (HDR_GET msg MsgHdr.opaque) (HDR_GET msg MsgHdr.cas)).

Definition BaseReq_parse (msg : bytes) : res BaseReq :=
  b ← BaseMessage_parse msg;
  mret (mkBaseReq b (HDR_GET msg MsgHdr.vbucket_or_status)).

Definition BaseRsp_parse (msg : bytes) : res BaseRsp :=
  b ← BaseMessage_parse msg;
  mret (mkBaseRsp b (HDR_GET msg MsgHdr.vbucket_or_status)).

Definition GetRsp_parse (msg : bytes) : res GetRsp :=
  rsp ← BaseRsp_parse msg;
  let key_length := HDR_GET msg MsgHdr.key_length in
  let extra_length := HDR_GET msg MsgHdr.extra_length in
  let body_length := HDR_GET msg MsgHdr.body_length in
  extra ← substr msg sizeof_MsgHdr extra_length;
  value ← substr msg (sizeof_MsgHdr + extra_length + key_length)
                     (u32 (body_length - (extra_length + key_length)));
  mret (mkGetRsp rsp value (extra_word extra 0)).

Definition SetAddReplaceReq_parse (msg : bytes) : res SetAddReplaceReq :=
  req ← BaseReq_parse msg;
  let key_length := HDR_GET msg MsgHdr.key_length in
  let extra_length := HDR_GET msg MsgHdr.extra_length in
  let body_length := HDR_GET msg MsgHdr.body_length in
  extra ← substr msg sizeof_MsgHdr extra_length;
  value ← substr msg (sizeof_MsgHdr + (extra_length + key_length))
                     (u32 (body_length - (extra_length + key_length)));
  mret (mkSetAddReplaceReq req value (extra_word extra 0) (extra_word extra 1)).

Definition TapMutateReq_parse (msg : bytes) : res TapMutateReq :=
  req ← BaseReq_parse msg;
  let key_length := HDR_GET msg MsgHdr.key_length in
  let extra_length := HDR_GET msg MsgHdr.extra_length in
  let body_length := HDR_GET msg MsgHdr.body_length in
  extra ← substr msg sizeof_MsgHdr extra_length;
  value ← substr msg (sizeof_MsgHdr + extra_length + key_length)
                     (u32 (body_length - (extra_length + key_length)));
  mret (mkTapMutateReq req value (extra_word extra 2) (extra_word extra 3)).

(** ** Framing *)

(** The out-parameters [request], [body_length] and [op_code] when the message
    is complete; [None] when more data is needed.  [raw_length] is a uint32_t. *)
Definition is_msg_complete (msg : bytes) : option (bool * Z * Z) :=
  let raw_length := u32 (len msg) in
  if raw_length <? sizeof_MsgHdr then None
  else
    let request := bool_decide (head msg = Some x80) in
    let body_length := HDR_GET msg MsgHdr.body_length in
    if raw_length <? sizeof_MsgHdr + body_length then None
    else Some (request, body_length, HDR_GET msg MsgHdr.op_code).

Definition from_wire_request (op_code : Z) (msg : bytes) : res message :=
  if op_code =? OpCode_value OpCode.TAP_MUTATE then M_TapMutateReq <$> TapMutateReq_parse msg
  else if (op_code =? OpCode_value OpCode.GET) || (op_code =? OpCode_value OpCode.GETK)
       then M_GetReq <$> BaseReq_parse msg
  else if op_code =? OpCode_value OpCode.SET then M_SetReq <$> SetAddReplaceReq_parse msg
  else if op_code =? OpCode_value OpCode.ADD then M_AddReq <$> SetAddReplaceReq_parse msg
  else if op_code =? OpCode_value OpCode.REPLACE
       then M_ReplaceReq <$> SetAddReplaceReq_parse msg
  else if op_code =? OpCode_value OpCode.DELETE then M_DeleteReq <$> BaseReq_parse msg
  else if op_code =? OpCode_value OpCode.VERSION then M_VersionReq <$> BaseReq_parse msg
  else M_BaseReq <$> BaseReq_parse msg.

Definition from_wire_response (op_code : Z) (msg : bytes) : res message :=
  if op_code =? OpCode_value OpCode.GET then M_GetRsp <$> GetRsp_parse msg
  else if op_code =? OpCode_value OpCode.ADD then M_SetAddReplaceRsp <$> BaseRsp_parse msg
  else if op_code =? OpCode_value OpCode.REPLACE
       then M_SetAddReplaceRsp <$> BaseRsp_parse msg
  else M_BaseRsp <$> BaseRsp_parse msg.

(** [None]: incomplete, the buffer is left alone.  [Some (m, rest)]: [m] was
    parsed and trimmed off the front of the buffer. *)
Definition from_wire (msg : bytes) : res (option (message * bytes)) :=
  match is_msg_complete msg with
  | None => mret None
  | Some (request, body_length, op_code) =>
      output ← (if request then from_wire_request op_code msg
                else from_wire_response op_code msg);
      rest ← substr msg (sizeof_MsgHdr + body_length) (2 ^ 64 - 1);
      mret (Some (output, rest))
  end.
