(* ===== verification/WireSpec.v ===== *)
(** * The wire format as a specification, and the codec's correctness

    [packet] is the protocol's own view of a message (header fields, extras,
    key, value) and [encode_packet] its byte layout in network order, written
    from the protocol and not from the code; [prescribed] says which packet the
    protocol has for each message.  [to_wire] refines [prescribed] and
    [encode_packet], [from_wire] refines [message_of_packet], and round trips,
    prefix behaviour and the exact failure cases follow. *)

From Stdlib Require Import ZArith Lia Strings.Byte.
From stdpp Require Import prelude.
From S2P Require Import Prelude WireUtils Messages.

Open Scope Z_scope.

(** ** Specification *)

Record packet : Type := mkPacket {
  p_request : bool;
  p_op : Z;
  p_extra : bytes;
  p_key : bytes;
  p_value : bytes;
  p_vbs : Z;
  p_opaque : Z;
  p_cas : Z
}.

Definition p_body (p : packet) : Z := len (p_extra p) + len (p_key p) + len (p_value p).

Definition packet_header (p : packet) : bytes :=
  [if p_request p then x80 else x81] ++ be_bytes 1 (p_op p) ++
  be_bytes 2 (len (p_key p)) ++ be_bytes 1 (len (p_extra p)) ++ [x00] ++
  be_bytes 2 (p_vbs p) ++ be_bytes 4 (p_body p) ++ be_bytes 4 (p_opaque p) ++
  be_bytes 8 (p_cas p).

Definition encode_packet (p : packet) : bytes :=
  packet_header p ++ p_extra p ++ p_key p ++ p_value p.

Definition wf_packet (p : packet) : Prop :=
  in_u8 (p_op p) /\ len (p_key p) < 2 ^ 16 /\ len (p_extra p) < 2 ^ 8 /\
  in_u16 (p_vbs p) /\ in_u32 (p_opaque p) /\ in_u64 (p_cas p) /\
  sizeof_MsgHdr + p_body p < 2 ^ 32.

(** The fields that a message's own functions put into a packet: the layout that
    to_wire gives them is that of [encode_packet].  What the fields ought to be
    is [prescribed]. *)
Definition packet_of (m : message) : res packet :=
  extra ← generate_extra m;
  mret (mkPacket (is_request m) (bm_op_code (base_of m)) extra (bm_key (base_of m))
          (generate_value m) (generate_vbucket_or_status m)
          (bm_opaque (base_of m)) (bm_cas (base_of m))).

(** The flags of a TAP_CONNECT, and its list of vbuckets with its length. *)
Definition TAP_FLAG_DUMP : Z := 2.
Definition TAP_FLAG_LIST_VBUCKETS : Z := 4.
Definition tap_connect_flags (vbuckets : list Z) : Z :=
  if bool_decide (vbuckets = []) then TAP_FLAG_DUMP else TAP_FLAG_DUMP + TAP_FLAG_LIST_VBUCKETS.
Definition tap_vbucket_list (vbuckets : list Z) : bytes :=
  if bool_decide (vbuckets = []) then []
  else be_bytes 2 (Z.of_nat (length vbuckets)) ++ mjoin (be_bytes 2 <$> vbuckets).

(** The packet that the binary protocol prescribes for each message the program
    sends, by number: op code, extras, key, value, vbucket or status, opaque
    value and CAS. *)
Inductive prescribed : message -> packet -> Prop :=
| P_get key opaque :
    prescribed (GetReq_new key opaque) (mkPacket true 0x00 [] key [] 0 opaque 0)
| P_set key vbucket value flags expiry :
    prescribed (SetReq_new key vbucket value flags expiry)
      (mkPacket true 0x01 (be_bytes 4 flags ++ be_bytes 4 expiry) key value vbucket 0 0)
| P_add key vbucket value flags expiry :
    prescribed (AddReq_new key vbucket value flags expiry)
      (mkPacket true 0x02 (be_bytes 4 flags ++ be_bytes 4 expiry) key value vbucket 0 0)
| P_replace key vbucket value cas flags expiry :
    prescribed (ReplaceReq_new key vbucket value cas flags expiry)
      (mkPacket true 0x03 (be_bytes 4 flags ++ be_bytes 4 expiry) key value vbucket 0 cas)
| P_delete key opaque :
    prescribed (DeleteReq_new key opaque) (mkPacket true 0x04 [] key [] 0 opaque 0)
| P_tap_connect vbuckets :
    prescribed (TapConnectReq_new vbuckets)
      (mkPacket true 0x40 (be_bytes 4 (tap_connect_flags vbuckets)) []
         (tap_vbucket_list vbuckets) 0 0 0)
| P_set_vbucket vbucket status code :
    (status, code) ∈ [(VBucketStatus.ACTIVE, 1); (VBucketStatus.REPLICA, 2);
                      (VBucketStatus.PENDING, 3); (VBucketStatus.DEAD, 4)] ->
    prescribed (SetVBucketReq_new vbucket status)
      (mkPacket true 0x3d (be_bytes 4 code) [] [] vbucket 0 0)
| P_get_found opaque cas value flags :
    prescribed (GetRsp_new 0 opaque cas value flags [])
      (mkPacket false 0x00 (be_bytes 4 flags) [] value 0 opaque cas)
| P_getk_found opaque cas value flags key : key <> [] ->
    prescribed (GetRsp_new 0 opaque cas value flags key)
      (mkPacket false 0x0c (be_bytes 4 flags) key value 0 opaque cas)
| P_get_not_found status opaque cas value flags : status <> 0 ->
    prescribed (GetRsp_new status opaque cas value flags [])
      (mkPacket false 0x00 [] [] value status opaque cas)
| P_getk_not_found status opaque cas value flags key : status <> 0 -> key <> [] ->
    prescribed (GetRsp_new status opaque cas value flags key)
      (mkPacket false 0x0c [] key value status opaque cas)
| P_set_add_replace_rsp op status opaque cas : in_u8 status ->
    prescribed (SetAddReplaceRsp_new op status opaque cas)
      (mkPacket false op [] [] [] status opaque cas)
| P_delete_rsp status opaque : in_u8 status ->
    prescribed (DeleteRsp_new status opaque) (mkPacket false 0x04 [] [] [] status opaque 0)
| P_version_rsp status opaque version :
    prescribed (VersionRsp_new status opaque version)
      (mkPacket false 0x0b [] [] version status opaque 0).

Definition packet_base (p : packet) : BaseMessage :=
  mkBaseMessage (p_op p) (p_key p) (p_opaque p) (p_cas p).
Definition packet_req (p : packet) : BaseReq := mkBaseReq (packet_base p) (p_vbs p).
Definition packet_rsp (p : packet) : BaseRsp := mkBaseRsp (packet_base p) (p_vbs p).
Definition packet_sar (p : packet) : SetAddReplaceReq :=
  mkSetAddReplaceReq (packet_req p) (p_value p)
    (extra_word (p_extra p) 0) (extra_word (p_extra p) 1).

(** The object a received packet becomes. *)
Definition message_of_packet (p : packet) : message :=
  if p_request p then
    if p_op p =? OpCode_value OpCode.TAP_MUTATE then
      M_TapMutateReq (mkTapMutateReq (packet_req p) (p_value p)
                        (extra_word (p_extra p) 2) (extra_word (p_extra p) 3))
    else if (p_op p =? OpCode_value OpCode.GET) || (p_op p =? OpCode_value OpCode.GETK)
         then M_GetReq (packet_req p)
    else if p_op p =? OpCode_value OpCode.SET then M_SetReq (packet_sar p)
    else if p_op p =? OpCode_value OpCode.ADD then M_AddReq (packet_sar p)
    else if p_op p =? OpCode_value OpCode.REPLACE then M_ReplaceReq (packet_sar p)
    else if p_op p =? OpCode_value OpCode.DELETE then M_DeleteReq (packet_req p)
    else if p_op p =? OpCode_value OpCode.VERSION then M_VersionReq (packet_req p)
    else M_BaseReq (packet_req p)
  else
    if p_op p =? OpCode_value OpCode.GET then
      M_GetRsp (mkGetRsp (packet_rsp p) (p_value p) (extra_word (p_extra p) 0))
    else if (p_op p =? OpCode_value OpCode.ADD) || (p_op p =? OpCode_value OpCode.REPLACE)
         then M_SetAddReplaceRsp (packet_rsp p)
    else M_BaseRsp (packet_rsp p).

(** The byte images stay folded under simplification. *)
Arguments be_bytes : simpl never.
Arguments write8 : simpl never.
Arguments write16 : simpl never.
Arguments write32 : simpl never.
Arguments write64 : simpl never.
Arguments extra_word : simpl never.

(** ** Header layout *)

Lemma packet_header_length p : length (packet_header p) = 24%nat.
Proof. reflexivity. Qed.

Lemma packet_header_len p : len (packet_header p) = sizeof_MsgHdr.
Proof. reflexivity. Qed.

Lemma encode_packet_len p : len (encode_packet p) = sizeof_MsgHdr + p_body p.
Proof. unfold encode_packet, p_body. rewrite !len_app, packet_header_len. lia. Qed.

Lemma p_body_nonneg p : 0 <= p_body p.
Proof.
  unfold p_body. pose proof (len_nonneg (p_extra p)).
  pose proof (len_nonneg (p_key p)). pose proof (len_nonneg (p_value p)). lia.
Qed.

(** The value of each header field of an encoded packet. *)
Definition packet_field (p : packet) (f : MsgHdr.MsgHdr_field) : Z :=
  match f with
  | MsgHdr.magic => if p_request p then 128 else 129
  | MsgHdr.op_code => p_op p
  | MsgHdr.key_length => len (p_key p)
  | MsgHdr.extra_length => len (p_extra p)
  | MsgHdr.data_type => 0
  | MsgHdr.vbucket_or_status => p_vbs p
  | MsgHdr.body_length => p_body p
  | MsgHdr.opaque => p_opaque p
  | MsgHdr.cas => p_cas p
  end.

Lemma packet_header_slice p f tail :
  take (MsgHdr_width f) (drop (MsgHdr_offset f) (packet_header p ++ tail)) =
  be_bytes (MsgHdr_width f) (packet_field p f).
Proof. destruct f; try reflexivity. simpl. by destruct (p_request p). Qed.

Lemma packet_field_range p f :
  wf_packet p -> 0 <= packet_field p f < 256 ^ Z.of_nat (MsgHdr_width f).
Proof.
  intros (Hop & Hk & He & Hv & Ho & Hc & Hb).
  pose proof (len_nonneg (p_key p)). pose proof (len_nonneg (p_extra p)).
  pose proof (p_body_nonneg p).
  unfold in_u8, in_u16, in_u32, in_u64, sizeof_MsgHdr in *.
  destruct f; cbn -[Z.pow]; try lia. destruct (p_request p); lia.
Qed.

Lemma HDR_GET_packet p tail f :
  wf_packet p -> HDR_GET (encode_packet p ++ tail) f = packet_field p f.
Proof.
  intros Hwf. unfold encode_packet. rewrite <- app_assoc.
  rewrite HDR_GET_be by (rewrite length_app, packet_header_length; lia).
  rewrite packet_header_slice, be_value_bytes.
  apply Z.mod_small, packet_field_range, Hwf.
Qed.

(** ** [to_wire] refines [encode_packet] *)

Lemma be_bytes_u8 v : be_bytes 1 (u8 v) = be_bytes 1 v.
Proof. unfold be_bytes. f_equal. apply (le_bytes_mod 1). Qed.
Lemma be_bytes_u16 v : be_bytes 2 (u16 v) = be_bytes 2 v.
Proof. unfold be_bytes. f_equal. apply (le_bytes_mod 2). Qed.
Lemma be_bytes_u32 v : be_bytes 4 (u32 v) = be_bytes 4 v.
Proof. unfold be_bytes. f_equal. apply (le_bytes_mod 4). Qed.
#[export] Hint Rewrite be_bytes_u8 be_bytes_u16 be_bytes_u32 : wire.

Lemma to_wire_packet m : to_wire m = encode_packet <$> packet_of m.
Proof.
  unfold to_wire, packet_of. destruct (generate_extra m) as [extra|]; [|done].
  cbn [mbind res_bind fmap res_fmap mret res_ret]. f_equal.
  autorewrite with wire. unfold write_string, encode_packet, packet_header, p_body.
  cbn [p_request p_op p_extra p_key p_value p_vbs p_opaque p_cas].
  rewrite <- !app_assoc. cbn [app]. by destruct (is_request m).
Qed.

Lemma write_list_be bs : forall ss,
  foldl (fun ss b => write16 b ss) ss bs = ss ++ mjoin (be_bytes 2 <$> bs).
Proof.
  induction bs as [|b bs IH]; intros ss; cbn [foldl]; [by rewrite app_nil_r|].
  rewrite IH, write16_be, <- app_assoc. done.
Qed.

(** The fields of a message are the prescribed ones. *)
Lemma prescribed_packet m p : prescribed m p -> packet_of m = Val p.
Proof.
  unfold packet_of. intros Hp.
  destruct Hp as [| | | | |bs|vb st code Hst| | ? ? ? ? [|? ?] ?| |? ? ? ? ? [|? ?] ?| | |]; try done;
    cbn -[Z.eqb be_bytes]; autorewrite with wire; try done.
  - do 2 f_equal; [destruct bs; unfold TapConnectReq_generate_extra; cbn [tc_buckets]; by rewrite write32_be|].
    unfold TapConnectReq_generate_value, tap_vbucket_list.
    cbn [tc_buckets]. destruct bs as [|b bs]; [done|].
    by rewrite write_list_be, write16_be, be_bytes_u16.
  - unfold SetVBucketReq_generate_extra. cbn [sv_status]. rewrite write32_be.
    rewrite !elem_of_cons in Hst. by destruct Hst as [[= -> ->]|[[= -> ->]|[[= -> ->]|[[= -> ->]|?%elem_of_nil]]]].
  - unfold GetRsp_generate_extra. cbn. by rewrite write32_be.
  - unfold GetRsp_generate_extra. cbn. by rewrite write32_be.
  - unfold GetRsp_generate_extra. cbn [gr_rsp brs_status]. by rewrite (proj2 (Z.eqb_neq _ _)).
  - unfold GetRsp_generate_extra. cbn [gr_rsp brs_status]. by rewrite (proj2 (Z.eqb_neq _ _)).
  - by rewrite u8_small.
  - by rewrite u8_small.
Qed.

(** ** [from_wire] refines [message_of_packet] *)

Lemma encode_packet_split p tail :
  encode_packet p ++ tail = packet_header p ++ p_extra p ++ p_key p ++ p_value p ++ tail.
Proof. unfold encode_packet. by rewrite <- !app_assoc. Qed.

Lemma substr_extra p tail n :
  n = len (p_extra p) -> substr (encode_packet p ++ tail) sizeof_MsgHdr n = Val (p_extra p).
Proof.
  intros ->. rewrite encode_packet_split, <- (packet_header_len p). by apply substr_mid.
Qed.

Lemma substr_key p tail pos n :
  pos = sizeof_MsgHdr + len (p_extra p) -> n = len (p_key p) ->
  substr (encode_packet p ++ tail) pos n = Val (p_key p).
Proof.
  intros -> ->. rewrite encode_packet_split, <- (packet_header_len p), <- len_app, app_assoc.
  by apply substr_mid.
Qed.

Lemma substr_value p tail pos n :
  pos = sizeof_MsgHdr + len (p_extra p) + len (p_key p) -> n = len (p_value p) ->
  substr (encode_packet p ++ tail) pos n = Val (p_value p).
Proof.
  intros -> ->. rewrite encode_packet_split, <- (packet_header_len p), <- !len_app.
  rewrite (app_assoc (packet_header p)), (app_assoc _ (p_key p)). by apply substr_mid.
Qed.

Lemma substr_rest p tail pos :
  pos = sizeof_MsgHdr + p_body p -> len (encode_packet p ++ tail) < 2 ^ 64 ->
  substr (encode_packet p ++ tail) pos (2 ^ 64 - 1) = Val tail.
Proof.
  intros -> Hl. rewrite <- encode_packet_len. unfold substr.
  rewrite len_app in *. pose proof (len_nonneg tail). pose proof (len_nonneg (encode_packet p)).
  destruct (Z.ltb_spec (len (encode_packet p) + len tail) (len (encode_packet p))); [lia|].
  f_equal. rewrite Z.min_r by lia. rewrite (len_to_nat (encode_packet p)), drop_app_length.
  apply take_ge. unfold len. lia.
Qed.

Section parse_packet.
Context (p : packet) (tail : bytes) (Hwf : wf_packet p).
Let msg := encode_packet p ++ tail.

Lemma BaseMessage_parse_packet : BaseMessage_parse msg = Val (packet_base p).
Proof.
  unfold BaseMessage_parse, msg. rewrite !HDR_GET_packet by done.
  by rewrite substr_key.
Qed.

Lemma BaseReq_parse_packet : BaseReq_parse msg = Val (packet_req p).
Proof.
  unfold BaseReq_parse. rewrite BaseMessage_parse_packet. cbn [mbind res_bind].
  unfold msg. by rewrite HDR_GET_packet.
Qed.

Lemma BaseRsp_parse_packet : BaseRsp_parse msg = Val (packet_rsp p).
Proof.
  unfold BaseRsp_parse. rewrite BaseMessage_parse_packet. cbn [mbind res_bind].
  unfold msg. by rewrite HDR_GET_packet.
Qed.

(** The value is what the body holds beyond the extras and the key. *)
Lemma packet_value_length :
  u32 (p_body p - (len (p_extra p) + len (p_key p))) = len (p_value p).
Proof.
  unfold p_body. replace (_ - _) with (len (p_value p)) by lia. apply u32_small.
  destruct Hwf as (_ & _ & _ & _ & _ & _ & Hb). unfold in_u32, p_body, sizeof_MsgHdr in *.
  pose proof (len_nonneg (p_extra p)). pose proof (len_nonneg (p_key p)).
  pose proof (len_nonneg (p_value p)). lia.
Qed.

Lemma GetRsp_parse_packet :
  GetRsp_parse msg = Val (mkGetRsp (packet_rsp p) (p_value p) (extra_word (p_extra p) 0)).
Proof.
  unfold GetRsp_parse. rewrite BaseRsp_parse_packet. cbn [mbind res_bind].
  unfold msg. rewrite !HDR_GET_packet by done. cbn [packet_field].
  rewrite substr_extra by done. rewrite packet_value_length. cbn [mbind res_bind].
  by rewrite substr_value.
Qed.

Lemma SetAddReplaceReq_parse_packet : SetAddReplaceReq_parse msg = Val (packet_sar p).
Proof.
  unfold SetAddReplaceReq_parse. rewrite BaseReq_parse_packet. cbn [mbind res_bind].
  unfold msg. rewrite !HDR_GET_packet by done. cbn [packet_field].
  rewrite substr_extra by done. rewrite packet_value_length. cbn [mbind res_bind].
  rewrite substr_value; [done|lia|done].
Qed.

Lemma TapMutateReq_parse_packet :
  TapMutateReq_parse msg = Val (mkTapMutateReq (packet_req p) (p_value p)
                                  (extra_word (p_extra p) 2) (extra_word (p_extra p) 3)).
Proof.
  unfold TapMutateReq_parse. rewrite BaseReq_parse_packet. cbn [mbind res_bind].
  unfold msg. rewrite !HDR_GET_packet by done. cbn [packet_field].
  rewrite substr_extra by done. rewrite packet_value_length. cbn [mbind res_bind].
  by rewrite substr_value.
Qed.

Lemma is_msg_complete_packet :
  len msg < 2 ^ 32 -> is_msg_complete msg = Some (p_request p, p_body p, p_op p).
Proof.
  intros Hl. unfold is_msg_complete, msg in *.
  rewrite u32_small by (unfold in_u32; pose proof (len_nonneg (encode_packet p ++ tail)); lia).
  rewrite !HDR_GET_packet by done. cbn [packet_field].
  rewrite len_app, encode_packet_len. pose proof (p_body_nonneg p). pose proof (len_nonneg tail).
  destruct (Z.ltb_spec (sizeof_MsgHdr + p_body p + len tail) sizeof_MsgHdr); [lia|].
  destruct (Z.ltb_spec (sizeof_MsgHdr + p_body p + len tail) (sizeof_MsgHdr + p_body p)); [lia|].
  repeat f_equal. cbn. by destruct (p_request p).
Qed.

Lemma from_wire_packet :
  len msg < 2 ^ 32 -> from_wire msg = Val (Some (message_of_packet p, tail)).
Proof.
  intros Hl. unfold from_wire. rewrite is_msg_complete_packet by done.
  assert ((if p_request p then from_wire_request (p_op p) msg
           else from_wire_response (p_op p) msg) = Val (message_of_packet p)) as ->.
  { unfold from_wire_request, from_wire_response, message_of_packet.
    rewrite TapMutateReq_parse_packet, BaseReq_parse_packet, BaseRsp_parse_packet,
      SetAddReplaceReq_parse_packet, GetRsp_parse_packet.
    destruct (p_request p); repeat (case_match; simpl; try done). }
  cbn [mbind res_bind]. unfold msg in *. rewrite substr_rest; [done|done|lia].
Qed.
End parse_packet.

(** ** Round trip *)

Definition op_is (m : message) (o : OpCode) : bool :=
  bm_op_code (base_of m) =? OpCode_value o.

(** The class is the one the receiver's dispatch picks for the op code. *)
Definition dispatched (m : message) : bool :=
  match m with
  | M_TapMutateReq _ => op_is m OpCode.TAP_MUTATE
  | M_GetReq _ => op_is m OpCode.GET || op_is m OpCode.GETK
  | M_SetReq _ => op_is m OpCode.SET
  | M_AddReq _ => op_is m OpCode.ADD
  | M_ReplaceReq _ => op_is m OpCode.REPLACE
  | M_DeleteReq _ => op_is m OpCode.DELETE
  | M_VersionReq _ => op_is m OpCode.VERSION
  | M_BaseReq _ =>
      negb (op_is m OpCode.TAP_MUTATE || op_is m OpCode.GET || op_is m OpCode.GETK ||
            op_is m OpCode.SET || op_is m OpCode.ADD || op_is m OpCode.REPLACE ||
            op_is m OpCode.DELETE || op_is m OpCode.VERSION)
  | M_GetRsp _ => op_is m OpCode.GET
  | M_SetAddReplaceRsp _ => op_is m OpCode.ADD || op_is m OpCode.REPLACE
  | M_BaseRsp _ => negb (op_is m OpCode.GET || op_is m OpCode.ADD || op_is m OpCode.REPLACE)
  | _ => false
  end.

(** The messages all of whose fields are transmitted, and whose class the
    receiver rebuilds. *)
Definition self_describing (m : message) : bool :=
  dispatched m &&
  match m with
  | M_TapMutateReq _ => false
  | M_GetRsp r =>
      match gr_flags r with
      | Some _ => brs_status (gr_rsp r) =? ResultCode_value ResultCode.NO_ERROR
      | None => negb (brs_status (gr_rsp r) =? ResultCode_value ResultCode.NO_ERROR)
      end
  | _ => true
  end.

(** The 32-bit fields carried in the extras. *)
Definition extra_fields (m : message) : list Z :=
  match m with
  | M_GetRsp r => option_list (gr_flags r)
  | M_SetReq r | M_AddReq r | M_ReplaceReq r =>
      option_list (sar_flags r) ++ option_list (sar_expiry r)
  | _ => []
  end.

(** Every field is in the range of its C++ type and the lengths fit the header. *)
Definition wf_message (m : message) : Prop :=
  Forall in_u32 (extra_fields m) /\ exists p, packet_of m = Val p /\ wf_packet p.

Lemma extra_word_be v rest :
  in_u32 v -> extra_word (be_bytes 4 v ++ rest) 0 = Some v.
Proof.
  intros Hv. unfold extra_word. rewrite <- app_assoc.
  rewrite decide_True by (rewrite length_app, be_bytes_length; lia).
  rewrite Nat.mul_0_r, drop_0, take_app_length' by (by rewrite be_bytes_length).
  unfold network_to_host32. rewrite htonl_load, be_value_bytes by apply be_bytes_length.
  f_equal. by apply Z.mod_small.
Qed.

Lemma extra_word_skip v rest i :
  extra_word (be_bytes 4 v ++ rest) (S i) = extra_word rest i.
Proof.
  unfold extra_word. rewrite <- app_assoc.
  rewrite (length_app (be_bytes 4 v)), be_bytes_length.
  replace (4 * S i)%nat with (4 + 4 * i)%nat by lia.
  replace (drop (4 + 4 * i) (be_bytes 4 v ++ rest ++ [x00])) with (drop (4 * i) (rest ++ [x00])).
  - destruct (decide (4 * i + 4 <= length (rest ++ [x00]))%nat);
      [rewrite decide_True by lia | rewrite decide_False by lia]; done.
  - rewrite (drop_app_ge (be_bytes 4 v)) by (rewrite be_bytes_length; lia).
    f_equal. rewrite be_bytes_length. lia.
Qed.

Lemma sar_extra_words r extra :
  SetAddReplaceReq_generate_extra r = Val extra ->
  Forall in_u32 (option_list (sar_flags r) ++ option_list (sar_expiry r)) ->
  extra_word extra 0 = sar_flags r /\ extra_word extra 1 = sar_expiry r.
Proof.
  unfold SetAddReplaceReq_generate_extra.
  destruct (sar_flags r) as [f|], (sar_expiry r) as [e|]; cbn; try discriminate.
  intros [= <-]. rewrite !Forall_cons. intros (Hf & He & _).
  autorewrite with wire. cbn [app]. split.
  - by apply extra_word_be.
  - rewrite extra_word_skip. rewrite <- (app_nil_r (be_bytes 4 e)). by apply extra_word_be.
Qed.

Lemma getrsp_extra_word r extra :
  GetRsp_generate_extra r = Val extra -> Forall in_u32 (option_list (gr_flags r)) ->
  self_describing (M_GetRsp r) = true -> extra_word extra 0 = gr_flags r.
Proof.
  unfold GetRsp_generate_extra, self_describing.
  destruct (gr_flags r) as [f|], (_ =? ResultCode_value _); cbn; try discriminate;
    intros [= <-] Hf; rewrite ?andb_false_r; try discriminate; intros _.
  - inversion Hf. autorewrite with wire. cbn [app]. rewrite <- (app_nil_r (be_bytes 4 f)).
    by apply extra_word_be.
  - reflexivity.
Qed.

(** Resolve an op code dispatch from what is known of the op code. *)
Ltac dispatch_op :=
  repeat match goal with
  | H : negb _ = true |- _ => apply negb_true_iff in H
  | H : (_ || _) = false |- _ => apply orb_false_iff in H as [? ?]
  | H : (_ || _) = true |- _ => apply orb_true_iff in H as [?|?]
  | H : (_ && _) = true |- _ => apply andb_true_iff in H as [? ?]
  | H : (?x =? ?y) = true |- _ => apply Z.eqb_eq in H; rewrite H in *
  | H : (?x =? ?y) = false |- _ => rewrite H in *; clear H
  end.

Lemma message_of_packet_of m p :
  self_describing m = true -> Forall in_u32 (extra_fields m) -> packet_of m = Val p ->
  message_of_packet p = m.
Proof.
  intros Hsd Hx Hp. unfold packet_of in Hp.
  apply bind_Val_inv in Hp as (extra & He & [= <-]).
  pose proof Hsd as Hsd'. unfold self_describing in Hsd.
  destruct m as [r|r|r|r|r|r|r|r|r|r|r|r|r|r|r]; try discriminate;
    rewrite ?andb_true_r, ?andb_false_r in Hsd; try discriminate;
    unfold message_of_packet, packet_sar, packet_req, packet_rsp, packet_base;
    try (apply sar_extra_words in He as [Hf He]; [|done]);
    try (apply getrsp_extra_word in He; [|done|done]);
    cbn in Hsd, He |- *; unfold op_is in Hsd; cbn in Hsd;
    dispatch_op; cbn; rewrite ?He, ?Hf.
  all: repeat match goal with r : BaseReq |- _ => destruct r
         | r : BaseRsp |- _ => destruct r | r : SetAddReplaceReq |- _ => destruct r
         | r : GetRsp |- _ => destruct r | b : BaseMessage |- _ => destruct b end;
    cbn in *; subst; try reflexivity.
Qed.

Lemma wf_message_packet m :
  wf_message m -> exists p, to_wire m = Val (encode_packet p) /\ packet_of m = Val p /\ wf_packet p.
Proof.
  intros (_ & p & Hp & Hwf). exists p. by rewrite to_wire_packet, Hp.
Qed.

(** ** Incomplete data *)

Lemma u32_len_le msg : u32 (len msg) <= len msg.
Proof. unfold u32. apply Z.mod_le; [apply len_nonneg | lia]. Qed.

Lemma from_wire_incomplete pk p q :
  wf_packet pk -> encode_packet pk = p ++ q -> q <> [] -> from_wire p = Val None.
Proof.
  intros Hwf E Hq.
  assert (0 < len q) as Hq' by (destruct q; [done | unfold len; simpl; lia]).
  pose proof (encode_packet_len pk) as Hl. rewrite E, len_app in Hl.
  pose proof (len_nonneg p). destruct (Hwf) as (_ & _ & _ & _ & _ & _ & Hb).
  assert (u32 (len p) = len p) as Hu by (apply u32_small; unfold in_u32; lia).
  unfold from_wire, is_msg_complete. rewrite Hu.
  destruct (Z.ltb_spec (len p) sizeof_MsgHdr) as [|Hs]; [done|].
  assert (HDR_GET p MsgHdr.body_length = p_body pk) as ->.
  { rewrite <- (HDR_GET_app p q) by (unfold len, sizeof_MsgHdr in Hs; lia).
    rewrite <- E, <- (app_nil_r (encode_packet pk)). by apply HDR_GET_packet. }
  destruct (Z.ltb_spec (len p) (sizeof_MsgHdr + p_body pk)); [done|lia].
Qed.

(** ** When the parser throws *)

(** The classes whose constructor also cuts out a value. *)
Definition carries_value (request : bool) (op : Z) : bool :=
  if request then
    (op =? OpCode_value OpCode.TAP_MUTATE) || (op =? OpCode_value OpCode.SET) ||
    (op =? OpCode_value OpCode.ADD) || (op =? OpCode_value OpCode.REPLACE)
  else op =? OpCode_value OpCode.GET.

(** The lengths the header claims, against the bytes in the buffer. *)
Definition overruns (msg : bytes) (request : bool) (op : Z) : Prop :=
  len msg < sizeof_MsgHdr + HDR_GET msg MsgHdr.extra_length \/
  carries_value request op = true /\
  len msg < sizeof_MsgHdr + HDR_GET msg MsgHdr.extra_length + HDR_GET msg MsgHdr.key_length.

Lemma substr_cases s pos n :
  (len s < pos /\ substr s pos n = Fail Out_of_range) \/
  (pos <= len s /\ exists t, substr s pos n = Val t).
Proof. unfold substr. destruct (Z.ltb_spec (len s) pos); eauto. Qed.

Lemma is_msg_complete_inv msg request body op :
  is_msg_complete msg = Some (request, body, op) ->
  (24 <= length msg)%nat /\ sizeof_MsgHdr + body <= len msg /\ 0 <= body /\
  body = HDR_GET msg MsgHdr.body_length /\ op = HDR_GET msg MsgHdr.op_code /\
  request = bool_decide (head msg = Some x80).
Proof.
  unfold is_msg_complete. pose proof (u32_len_le msg).
  destruct (Z.ltb_spec (u32 (len msg)) sizeof_MsgHdr); [done|].
  destruct (Z.ltb_spec (u32 (len msg)) (sizeof_MsgHdr + HDR_GET msg MsgHdr.body_length)); [done|].
  intros [= <- <- <-].
  assert (24 <= length msg)%nat by (unfold len, sizeof_MsgHdr in *; lia).
  pose proof (HDR_GET_range msg MsgHdr.body_length ltac:(done)). repeat split; lia.
Qed.

(** Case analysis of every [substr] of a parser, in the order it runs them. *)
Ltac substr_step :=
  match goal with
  | |- context [substr ?s ?pos ?n] =>
      destruct (substr_cases s pos n) as [[? ->] | [? [? ->]]]; cbn [mbind res_bind mret res_ret]
  end.

Section parse_fail.
Context (msg : bytes) (Hlen : (24 <= length msg)%nat).
Let extra := HDR_GET msg MsgHdr.extra_length.
Let key := HDR_GET msg MsgHdr.key_length.

(** A parser either overruns or delivers its object with the header's op code
    and vbucket/status. *)
Lemma BaseMessage_parse_cases :
  (len msg < sizeof_MsgHdr + extra /\ BaseMessage_parse msg = Fail Out_of_range) \/
  (sizeof_MsgHdr + extra <= len msg /\
   exists b, BaseMessage_parse msg = Val b /\ bm_op_code b = HDR_GET msg MsgHdr.op_code).
Proof using msg. unfold BaseMessage_parse. substr_step; eauto 6. Qed.

Lemma BaseReq_parse_cases :
  (len msg < sizeof_MsgHdr + extra /\ BaseReq_parse msg = Fail Out_of_range) \/
  (sizeof_MsgHdr + extra <= len msg /\
   exists r, BaseReq_parse msg = Val r /\ bm_op_code (brq_base r) = HDR_GET msg MsgHdr.op_code).
Proof using msg.
  unfold BaseReq_parse.
  destruct BaseMessage_parse_cases as [[? ->] | [? (b & -> & Hb)]]; cbn; eauto 6.
Qed.

Lemma BaseRsp_parse_cases :
  (len msg < sizeof_MsgHdr + extra /\ BaseRsp_parse msg = Fail Out_of_range) \/
  (sizeof_MsgHdr + extra <= len msg /\
   exists r, BaseRsp_parse msg = Val r /\ bm_op_code (brs_base r) = HDR_GET msg MsgHdr.op_code).
Proof using msg.
  unfold BaseRsp_parse.
  destruct BaseMessage_parse_cases as [[? ->] | [? (b & -> & Hb)]]; cbn; eauto 6.
Qed.

Lemma hdr_extra_key_nonneg : 0 <= extra /\ 0 <= key.
Proof using Hlen.
  pose proof (HDR_GET_range msg MsgHdr.extra_length Hlen).
  pose proof (HDR_GET_range msg MsgHdr.key_length Hlen). unfold extra, key. lia.
Qed.

Lemma substr_extra_total :
  substr msg sizeof_MsgHdr extra =
  Val (take (Z.to_nat (Z.min extra (len msg - sizeof_MsgHdr))) (drop 24 msg)).
Proof using Hlen.
  unfold substr. destruct (Z.ltb_spec (len msg) sizeof_MsgHdr); [|done].
  unfold len, sizeof_MsgHdr in *. lia.
Qed.

Lemma SetAddReplaceReq_parse_cases :
  (len msg < sizeof_MsgHdr + extra + key /\ SetAddReplaceReq_parse msg = Fail Out_of_range) \/
  (sizeof_MsgHdr + extra + key <= len msg /\ exists r, SetAddReplaceReq_parse msg = Val r /\
   bm_op_code (brq_base (sar_req r)) = HDR_GET msg MsgHdr.op_code).
Proof using Hlen.
  pose proof hdr_extra_key_nonneg. unfold SetAddReplaceReq_parse.
  destruct BaseReq_parse_cases as [[? ->] | [? (b & -> & Hb)]]; cbn [mbind res_bind];
    [left; split; [lia | done] |].
  cbv zeta. fold extra key. rewrite substr_extra_total. cbn [mbind res_bind].
  substr_step; [left; split; [lia | done] |]. right. split; [lia|]. eauto.
Qed.

Lemma TapMutateReq_parse_cases :
  (len msg < sizeof_MsgHdr + extra + key /\ TapMutateReq_parse msg = Fail Out_of_range) \/
  (sizeof_MsgHdr + extra + key <= len msg /\ exists r, TapMutateReq_parse msg = Val r /\
   bm_op_code (brq_base (tm_req r)) = HDR_GET msg MsgHdr.op_code).
Proof using Hlen.
  pose proof hdr_extra_key_nonneg. unfold TapMutateReq_parse.
  destruct BaseReq_parse_cases as [[? ->] | [? (b & -> & Hb)]]; cbn [mbind res_bind];
    [left; split; [lia | done] |].
  cbv zeta. fold extra key. rewrite substr_extra_total. cbn [mbind res_bind].
  substr_step; [left; split; [lia | done] |]. right. split; [lia|]. eauto.
Qed.

Lemma GetRsp_parse_cases :
  (len msg < sizeof_MsgHdr + extra + key /\ GetRsp_parse msg = Fail Out_of_range) \/
  (sizeof_MsgHdr + extra + key <= len msg /\ exists r, GetRsp_parse msg = Val r /\
   bm_op_code (brs_base (gr_rsp r)) = HDR_GET msg MsgHdr.op_code).
Proof using Hlen.
  pose proof hdr_extra_key_nonneg. unfold GetRsp_parse.
  destruct BaseRsp_parse_cases as [[? ->] | [? (b & -> & Hb)]]; cbn [mbind res_bind];
    [left; split; [lia | done] |].
  cbv zeta. fold extra key. rewrite substr_extra_total. cbn [mbind res_bind].
  substr_step; [left; split; [lia | done] |]. right. split; [lia|]. eauto.
Qed.
End parse_fail.

(** ** What [from_wire] returns *)

(** One branch of the dispatch, from the case lemma of its parser. *)
Ltac parse_branch cases :=
  destruct cases as [[? ->] | [? (? & -> & Hop)]]; cbn [fmap res_fmap];
  [ left; split; [first [left; lia | right; split; [done | lia]] | done]
  | right; split; [intros [?|[? ?]]; first [discriminate | lia] |];
    eexists; split; [reflexivity|]; unfold dispatched, op_is, is_request, base_of;
    cbn [message_base]; rewrite Hop; repeat split ].

Section dispatch.
Context (msg : bytes) (Hlen : (24 <= length msg)%nat).
Let op := HDR_GET msg MsgHdr.op_code.

Lemma from_wire_request_cases :
  (overruns msg true op /\ from_wire_request op msg = Fail Out_of_range) \/
  (~ overruns msg true op /\ exists m, from_wire_request op msg = Val m /\
     dispatched m = true /\ is_request m = true /\ bm_op_code (base_of m) = op).
Proof using Hlen.
  pose proof (hdr_extra_key_nonneg msg Hlen) as [He Hk].
  unfold from_wire_request, overruns, carries_value. subst op.
  destruct (HDR_GET msg MsgHdr.op_code =? OpCode_value OpCode.TAP_MUTATE) eqn:E1; cbn [orb].
  { parse_branch (TapMutateReq_parse_cases msg Hlen). by rewrite E1. }
  destruct (HDR_GET msg MsgHdr.op_code =? OpCode_value OpCode.GET) eqn:E2; cbn [orb].
  { apply Z.eqb_eq in E2. rewrite E2. cbn [OpCode_value Z.eqb orb].
    parse_branch (BaseReq_parse_cases msg); by rewrite E2. }
  destruct (HDR_GET msg MsgHdr.op_code =? OpCode_value OpCode.GETK) eqn:E3; cbn [orb].
  { apply Z.eqb_eq in E3. rewrite E3. cbn [OpCode_value Z.eqb orb].
    parse_branch (BaseReq_parse_cases msg); by rewrite E3. }
  destruct (HDR_GET msg MsgHdr.op_code =? OpCode_value OpCode.SET) eqn:E4; cbn [orb].
  { parse_branch (SetAddReplaceReq_parse_cases msg Hlen). by rewrite E4. }
  destruct (HDR_GET msg MsgHdr.op_code =? OpCode_value OpCode.ADD) eqn:E5; cbn [orb].
  { parse_branch (SetAddReplaceReq_parse_cases msg Hlen). by rewrite E5. }
  destruct (HDR_GET msg MsgHdr.op_code =? OpCode_value OpCode.REPLACE) eqn:E6; cbn [orb].
  { parse_branch (SetAddReplaceReq_parse_cases msg Hlen). by rewrite E6. }
  destruct (HDR_GET msg MsgHdr.op_code =? OpCode_value OpCode.DELETE) eqn:E7; cbn [orb].
  { parse_branch (BaseReq_parse_cases msg). by rewrite E7. }
  destruct (HDR_GET msg MsgHdr.op_code =? OpCode_value OpCode.VERSION) eqn:E8; cbn [orb].
  { parse_branch (BaseReq_parse_cases msg). by rewrite E8. }
  parse_branch (BaseReq_parse_cases msg). by rewrite E1, E2, E3, E4, E5, E6, E7, E8.
Qed.

Lemma from_wire_response_cases :
  (overruns msg false op /\ from_wire_response op msg = Fail Out_of_range) \/
  (~ overruns msg false op /\ exists m, from_wire_response op msg = Val m /\
     dispatched m = true /\ is_request m = false /\ bm_op_code (base_of m) = op).
Proof using Hlen.
  pose proof (hdr_extra_key_nonneg msg Hlen) as [He Hk].
  unfold from_wire_response, overruns, carries_value. subst op.
  destruct (HDR_GET msg MsgHdr.op_code =? OpCode_value OpCode.GET) eqn:E1.
  { parse_branch (GetRsp_parse_cases msg Hlen). by rewrite E1. }
  destruct (HDR_GET msg MsgHdr.op_code =? OpCode_value OpCode.ADD) eqn:E2.
  { parse_branch (BaseRsp_parse_cases msg). by rewrite E2. }
  destruct (HDR_GET msg MsgHdr.op_code =? OpCode_value OpCode.REPLACE) eqn:E3.
  { parse_branch (BaseRsp_parse_cases msg). by rewrite E3, orb_true_r. }
  parse_branch (BaseRsp_parse_cases msg). by rewrite E1, E2, E3.
Qed.
End dispatch.

Lemma from_wire_cases msg :
  match is_msg_complete msg with
  | None => from_wire msg = Val None
  | Some (request, body, op) =>
      (overruns msg request op /\ from_wire msg = Fail Out_of_range) \/
      (~ overruns msg request op /\ exists m rest,
         from_wire msg = Val (Some (m, rest)) /\ dispatched m = true /\
         is_request m = request /\ bm_op_code (base_of m) = op /\
         (length rest + 24 <= length msg)%nat)
  end.
Proof.
  unfold from_wire. destruct (is_msg_complete msg) as [[[request body] op]|] eqn:E; [|done].
  apply is_msg_complete_inv in E as (Hlen & Hb & Hb0 & _ & -> & _).
  assert (Hrest : exists rest, substr msg (sizeof_MsgHdr + body) (2 ^ 64 - 1) = Val rest /\
            (length rest + 24 <= length msg)%nat).
  { unfold substr. destruct (Z.ltb_spec (len msg) (sizeof_MsgHdr + body)); [lia|].
    eexists. split; [done|]. rewrite length_take, length_drop.
    unfold len, sizeof_MsgHdr in *. lia. }
  destruct Hrest as (rest & -> & Hr).
  destruct request; [destruct (from_wire_request_cases msg Hlen) as [[? ->] | (? & m & -> & ? & ? & ?)]
                    | destruct (from_wire_response_cases msg Hlen) as [[? ->] | (? & m & -> & ? & ? & ?)]];
    cbn; eauto 10.
Qed.

(** A message taken off the buffer has the class of its op code, and consumed
    at least a header. *)
Lemma from_wire_some msg m rest :
  from_wire msg = Val (Some (m, rest)) ->
  dispatched m = true /\ (length rest + 24 <= length msg)%nat.
Proof.
  intros H. pose proof (from_wire_cases msg) as C.
  destruct (is_msg_complete msg) as [[[request body] op]|]; [|congruence].
  destruct C as [[_ ?] | (_ & m' & rest' & E & ? & _ & _ & ?)]; [congruence|].
  rewrite H in E. by injection E as -> ->.
Qed.

(** ** Cast safety: a dispatched message's class from its op code *)

Ltac cast_safety :=
  intros m; destruct m; unfold dispatched, is_response, is_request, op_is, base_of;
  cbn; try discriminate; intros Hd Hr Ho; rewrite ?Ho in Hd; cbn in Hd;
  try discriminate; eauto.

Lemma dispatched_GetRsp :
  forall m, dispatched m = true -> is_response m = true ->
  bm_op_code (base_of m) = OpCode_value OpCode.GET -> exists r, m = M_GetRsp r.
Proof. cast_safety. Qed.

Lemma dispatched_TapMutateReq :
  forall m, dispatched m = true -> is_request m = true ->
  bm_op_code (base_of m) = OpCode_value OpCode.TAP_MUTATE -> exists r, m = M_TapMutateReq r.
Proof. cast_safety. Qed.

(** ** Properties *)

(** C6: encode/decode round trip.  Every well-formed message whose class the
    receiver's op code dispatch rebuilds is serialised, and parsing the bytes,
    whatever follows them in the buffer, gives the message back and leaves
    exactly what follows. *)
Theorem wire_roundtrip m tail :
  self_describing m = true -> wf_message m ->
  exists w, to_wire m = Val w /\
    (len w + len tail < 2 ^ 32 -> from_wire (w ++ tail) = Val (Some (m, tail))).
Proof.
  intros Hsd Hwf. destruct (wf_message_packet m Hwf) as (p & Hw & Hp & Hpk).
  exists (encode_packet p). split; [done|]. intros Hl.
  rewrite from_wire_packet by (rewrite ?len_app; done).
  do 3 f_equal. apply message_of_packet_of; [done | apply Hwf | done].
Qed.

(** C16: [to_wire] is the binary protocol: each message the program sends, however
    its fields are chosen, becomes the packet that the protocol prescribes for
    it: the 24-byte header with all fields in network order and the op code of
    the command, then its extras (flags and expiry of a store, flags of a
    TAP_CONNECT and of a record found, state of a vbucket), key and value (the
    counted vbucket list of a TAP_CONNECT). *)
Theorem to_wire_refines_packet (m : message) (p : packet) (Hp : prescribed m p) :
  to_wire m = Val (encode_packet p).
Proof. rewrite to_wire_packet. by rewrite (prescribed_packet m p Hp). Qed.

(** C21: no message is delivered early: on every strict prefix of an encoded
    message [from_wire] asks for more data. *)
Theorem from_wire_strict_prefix m w p q :
  wf_message m -> to_wire m = Val w -> w = p ++ q -> q <> [] -> from_wire p = Val None.
Proof.
  intros Hwf Hw -> Hq. destruct (wf_message_packet m Hwf) as (pk & Hw' & _ & Hpk).
  rewrite Hw in Hw'. injection Hw' as Hw'. by apply (from_wire_incomplete pk p q).
Qed.

(** C20: exactly when parsing throws.  [from_wire] fails iff the buffer holds a
    complete message whose header claims extras (or, for a class that carries a
    value, extras and key) reaching past the end of the buffer, and then it is
    an uncaught std::out_of_range. *)
Theorem from_wire_fails_iff msg f :
  from_wire msg = Fail f <->
  f = Out_of_range /\ exists request body op,
    is_msg_complete msg = Some (request, body, op) /\ overruns msg request op.
Proof.
  pose proof (from_wire_cases msg) as C.
  destruct (is_msg_complete msg) as [[[request body] op]|].
  - destruct C as [[Ho ->] | (Ho & m & rest & -> & _)]; split.
    + intros [= <-]. eauto 6.
    + by intros [-> _].
    + discriminate.
    + intros (_ & ? & ? & ? & [= <- <- <-] & ?). contradiction.
  - rewrite C. split; [discriminate|]. by intros (_ & ? & ? & ? & [=] & _).
Qed.

(** C22: type safety of the casts.  Whatever bytes arrive, a parsed message has
    the class of its op code: a response with op code GET is a GetRsp, a
    TAP_MUTATE request is a TapMutateReq, a GET/GETK request a GetReq, a
    SET/ADD/REPLACE request a SetAddReplaceReq and a DELETE request a
    DeleteReq, so the casts of the callers are valid. *)
Theorem from_wire_casts msg m rest :
  from_wire msg = Val (Some (m, rest)) ->
  let op := bm_op_code (base_of m) in
  (is_response m = true -> op = OpCode_value OpCode.GET -> exists r, m = M_GetRsp r) /\
  (is_request m = true -> op = OpCode_value OpCode.TAP_MUTATE -> exists r, m = M_TapMutateReq r) /\
  (is_request m = true -> op = OpCode_value OpCode.GET \/ op = OpCode_value OpCode.GETK ->
     exists r, m = M_GetReq r) /\
  (is_request m = true -> op = OpCode_value OpCode.SET -> exists r, m = M_SetReq r) /\
  (is_request m = true -> op = OpCode_value OpCode.ADD -> exists r, m = M_AddReq r) /\
  (is_request m = true -> op = OpCode_value OpCode.REPLACE -> exists r, m = M_ReplaceReq r) /\
  (is_request m = true -> op = OpCode_value OpCode.DELETE -> exists r, m = M_DeleteReq r).
Proof.
  intros H op. apply from_wire_some in H as [Hd _]. subst op. revert Hd.
  destruct m; unfold dispatched, is_response, is_request, op_is, base_of; cbn;
    intros Hd; repeat split; try discriminate; eauto;
    intros _; try (intros [Ho|Ho]); try intros Ho; rewrite ?Ho in Hd; discriminate.
Qed.

(** the 64-bit byte swap assembled from two 32-bit ones is the network
    order of the value, and it is its own inverse on 64-bit values. *)
Theorem host_to_network64_correct v :
  in_u64 v ->
  le_bytes 8 (host_to_network64 v) = be_bytes 8 v /\
  network_to_host64 (host_to_network64 v) = v.
Proof.
  intros Hv. split; [apply host_to_network64_image|]. unfold network_to_host64.
  assert (host_to_network64 v = le_value (be_bytes 8 v)) as ->.
  { rewrite <- host_to_network64_image, le_value_bytes. symmetry. apply Z.mod_small.
    rewrite host_to_network64_sum.
    pose proof (htonl_range (v / 2 ^ 32)). pose proof (htonl_range v).
    unfold in_u32 in *. change (256 ^ Z.of_nat 8) with (2 ^ 64). lia. }
  rewrite host_to_network64_load by apply be_bytes_length.
  rewrite be_value_bytes. by apply Z.mod_small.
Qed.

(** C39: the byte count credited for a resynced record.  Serialising a received
    TAP_MUTATE gives its header and key only, never its value: the size added
    to the statistics is 24 plus the key's length whatever the value is. *)
Theorem tap_mutate_wire_size r :
  exists w, to_wire (M_TapMutateReq r) = Val w /\
    len w = sizeof_MsgHdr + len (bm_key (brq_base (tm_req r))).
Proof.
  rewrite to_wire_packet. eexists. split; [reflexivity|].
  rewrite encode_packet_len. unfold p_body.
  cbn [p_extra p_key p_value generate_value base_of message_base]. rewrite !len_nil. lia.
Qed.

(** ** Witnesses *)

Definition example_add : message :=
  AddReq_new (lit "impi\\alice") 17 (lit "{'nonce':1}") 0x89abcdef 300.

(** Decide a closed range or length condition by evaluation. *)
Ltac decide_wf :=
  unfold wf_packet, in_u8, in_u16, in_u32, in_u64; repeat split;
  vm_compute; try reflexivity; try discriminate.

Lemma example_add_wf : wf_message example_add.
Proof.
  split; [repeat constructor; vm_compute; (reflexivity || discriminate)|].
  eexists. split; [reflexivity|]. decide_wf.
Qed.

Lemma wire_roundtrip_witness :
  self_describing example_add = true /\ wf_message example_add /\
  exists w, to_wire example_add = Val w /\
    (len w + len (lit "next") < 2 ^ 32 ->
     from_wire (w ++ lit "next") = Val (Some (example_add, lit "next"))).
Proof.
  split; [reflexivity|]. split; [exact example_add_wf|].
  apply (wire_roundtrip example_add (lit "next")); [reflexivity | exact example_add_wf].
Defined.

(** A tap of vbuckets 3 and 127. *)
Lemma to_wire_refines_packet_witness :
  to_wire (TapConnectReq_new [3; 127]) =
  Val ([x80; x40; x00; x00; x04; x00; x00; x00; x00; x00; x00; x0a] ++ replicate 12 x00 ++
       [x00; x00; x00; x06; x00; x02; x00; x03; x00; x7f]).
Proof. exact (to_wire_refines_packet _ _ (P_tap_connect [3; 127])). Defined.

Lemma from_wire_strict_prefix_witness :
  exists w, to_wire example_add = Val w /\ w <> [] /\ from_wire (take 30 w) = Val None.
Proof.
  eexists. split; [reflexivity|]. split; [discriminate|].
  eapply (from_wire_strict_prefix example_add _ _ _ example_add_wf); [reflexivity | | ].
  - symmetry. apply (take_drop 30).
  - vm_compute. discriminate.
Defined.

(** A header that announces 255 bytes of extras and no body. *)
Definition overrun_header : bytes :=
  [x80; x00; x00; x00; xff] ++ replicate 19 x00.

Lemma from_wire_fails_iff_witness : from_wire overrun_header = Fail Out_of_range.
Proof.
  apply (from_wire_fails_iff overrun_header Out_of_range). split; [reflexivity|].
  exists true, 0, 0. split; [reflexivity|]. left. vm_compute. reflexivity.
Defined.

(** A GET response carrying one byte. *)
Definition example_getrsp : bytes :=
  encode_packet (mkPacket false 0 (be_bytes 4 9) [] [x2a] 0 1 5).

Lemma from_wire_casts_witness :
  exists m rest, from_wire example_getrsp = Val (Some (m, rest)) /\ exists r, m = M_GetRsp r.
Proof.
  do 2 eexists. split; [vm_compute; reflexivity|].
  eapply (proj1 (from_wire_casts example_getrsp _ _ ltac:(vm_compute; reflexivity)));
    reflexivity.
Defined.

Lemma host_to_network64_correct_witness :
  network_to_host64 (host_to_network64 0x0102030405060708) = 0x0102030405060708.
Proof. apply host_to_network64_correct. split; vm_compute; [discriminate | reflexivity]. Defined.
