(* ===== verification/Connection.v ===== *)
(** * Connections

    Models class Connection and its two subclasses (include and
    src/memcached_tap_client).  The kernel and the remote end are the
    environment: [c_in] lists the results the successive ::recv calls on the
    socket will give, and the peer reacts to what is sent by adding to it
    (class [Peer]).  A blocking ::recv with nothing left to return times out
    when SO_RCVTIMEO was set (ClientConnection) and never returns otherwise. *)

From Stdlib Require Import ZArith Lia Strings.Byte.
From stdpp Require Import prelude.
From S2P Require Import Prelude WireUtils Messages WireSpec.

Open Scope Z_scope.

(** The result of one ::recv: data (no bytes: the peer closed), or a negative
    return value. *)
Inductive recv_result : Type :=
| R_data (bs : bytes)
| R_error.

(** The remote end: [None] when ::send fails, otherwise its new state and the
    data that will become readable because of what it got: finitely many reads,
    as many as one likes.  A remote end that never stops sending is not one of
    these. *)
Class Peer (S : Type) := on_send : S -> bytes -> option (S * list recv_result).

Record Connection (S : Type) : Type := mkConnection {
  c_address : bytes;
  c_sock : Z;
  c_buffer : bytes;
  c_rcvtimeo : bool;
  c_in : list recv_result;
  c_peer : S
}.
Arguments mkConnection {S}.
Arguments c_address {S}.
Arguments c_sock {S}.
Arguments c_buffer {S}.
Arguments c_rcvtimeo {S}.
Arguments c_in {S}.
Arguments c_peer {S}.

(** What a connection attempt depends on outside this program. *)
Record net_env : Type := mkNetEnv {
  split_host_port : bytes -> option (bytes * Z);   (* ::Utils::split_host_port *)
  os_getaddrinfo : bytes -> Z -> Z;                (* return code *)
  os_socket : Z * Z;                               (* file descriptor, errno *)
  os_connect : Z * Z;                              (* return code, errno *)
  os_setsockopt : Z * Z                            (* return code, errno *)
}.

Section connection.
Context {S : Type} `{Peer S}.
Implicit Types (c : Connection S).

Definition set_sock c (sock : Z) : Connection S :=
  mkConnection (c_address c) sock (c_buffer c) (c_rcvtimeo c) (c_in c) (c_peer c).

(** Connection::disconnect *)
Definition disconnect c : Connection S :=
  if 0 <? c_sock c then set_sock c (-1) else c.

(** Connection::send: whether the message was handed to the socket. *)
Definition send c (req : message) : res (Connection S * bool) :=
  if c_sock c <? 0 then mret (c, false)
  else
    bin ← to_wire req;
    match on_send (c_peer c) bin with
    | None => mret (set_sock c (-1), false)
    | Some (peer, more) =>
        mret (mkConnection (c_address c) (c_sock c) (c_buffer c) (c_rcvtimeo c)
                (c_in c ++ more) peer, true)
    end.

(** The loop of Connection::recv: parse, and read more until it succeeds. *)
Fixpoint recv_loop (rcvtimeo : bool) (buffer : bytes) (inq : list recv_result) :
    res (Status * option message * bytes * list recv_result) :=
  r ← from_wire buffer;
  match r with
  | Some (m, rest) => mret (Status.OK, Some m, rest, inq)
  | None =>
      match inq with
      | [] => if rcvtimeo then mret (Status.ERROR, None, buffer, []) else Fail Blocked
      | R_data [] :: inq => mret (Status.DISCONNECTED, None, buffer, inq)
      | R_data bs :: inq => recv_loop rcvtimeo (buffer ++ bs) inq
      | R_error :: inq => mret (Status.ERROR, None, buffer, inq)
      end
  end.

Definition recv c : res (Connection S * Status * option message) :=
  if c_sock c =? -1 then mret (c, Status.DISCONNECTED, None)
  else
    '(status, msg, buffer, inq) ← recv_loop (c_rcvtimeo c) (c_buffer c) (c_in c);
    let sock := if decide (status = Status.OK) then c_sock c else -1 in
    mret (mkConnection (c_address c) sock buffer (c_rcvtimeo c) inq (c_peer c), status, msg).

(** ClientConnection::ClientConnection; the peer and its queue are the
    environment's. *)
Definition ClientConnection_new (address : bytes) (peer : S) (inq : list recv_result) :
    Connection S :=
  mkConnection address (-1) [] false inq peer.

(** ServerConnection::ServerConnection *)
Definition ServerConnection_new (sock : Z) (address : bytes) (peer : S)
    (inq : list recv_result) : Connection S :=
  mkConnection address sock [] false inq peer.

(** ClientConnection::connect: 0, or an error code. *)
Definition connect (env : net_env) c : Connection S * Z :=
  match split_host_port env (c_address c) with
  | None => (c, -1)
  | Some (host, port) =>
      let rc := os_getaddrinfo env host port in
      if rc <? 0 then (c, rc)
      else
        let '(fd, err) := os_socket env in
        let c := set_sock c fd in
        if fd <? 0 then (c, err)
        else
          let '(rc, err) := os_connect env in
          if rc <? 0 then (set_sock c (-1), err)
          else
            let '(rc, err) := os_setsockopt env in
            if rc <? 0 then (set_sock c (-1), err)
            else (mkConnection (c_address c) fd (c_buffer c) true (c_in c) (c_peer c), 0)
  end.

(** The bytes not yet consumed: buffered or still to be read. *)
Definition queued (inq : list recv_result) : nat :=
  sum_list_with (fun r => match r with R_data bs => length bs | R_error => O end) inq.
Definition pending c : nat := (length (c_buffer c) + queued (c_in c))%nat.

(** ** Lemmas *)

Lemma recv_loop_eq timeo buffer inq :
  recv_loop timeo buffer inq =
  r ← from_wire buffer;
  match r with
  | Some (m, rest) => mret (Status.OK, Some m, rest, inq)
  | None =>
      match inq with
      | [] => if timeo then mret (Status.ERROR, None, buffer, []) else Fail Blocked
      | R_data [] :: inq => mret (Status.DISCONNECTED, None, buffer, inq)
      | R_data bs :: inq => recv_loop timeo (buffer ++ bs) inq
      | R_error :: inq => mret (Status.ERROR, None, buffer, inq)
      end
  end.
Proof. by destruct inq. Qed.

Lemma queued_data bs inq : queued (R_data bs :: inq) = (length bs + queued inq)%nat.
Proof. reflexivity. Qed.

(** A received message has the class of its op code, a non-OK status comes
    without one, and only an OK leaves the socket open. *)
Lemma recv_loop_inv timeo inq : forall buffer status msg buffer' inq',
  recv_loop timeo buffer inq = Val (status, msg, buffer', inq') ->
  (status = Status.OK /\ exists m, msg = Some m /\ dispatched m = true /\
     (length buffer' + queued inq' + 24 <= length buffer + queued inq)%nat) \/
  (status <> Status.OK /\ msg = None).
Proof using.
  induction inq as [|[bs|] inq IH]; intros buffer status msg buffer' inq' Hr;
    rewrite recv_loop_eq in Hr; apply bind_Val_inv in Hr as ([[m rest]|] & Hf & Hr).
  all: try (apply from_wire_some in Hf as [Hd Hl]; injection Hr as <- <- <- <-; left;
            split; [done|]; eexists; split; [done|]; split; [done|]; cbn in *; lia).
  - destruct timeo; [|discriminate]. injection Hr as <- <- <- <-. by right.
  - destruct bs as [|b bs]; [injection Hr as <- <- <- <-; by right|].
    apply IH in Hr as [(-> & m & -> & Hd & Hl) | [? ->]]; [left | by right].
    split; [done|]. exists m. split; [done|]. split; [done|].
    rewrite length_app in Hl. rewrite queued_data. lia.
  - injection Hr as <- <- <- <-. by right.
Qed.

Lemma recv_inv c c' status msg :
  recv c = Val (c', status, msg) ->
  (status = Status.OK /\ exists m, msg = Some m /\ dispatched m = true /\
     c_sock c' = c_sock c /\ (pending c' + 24 <= pending c)%nat) \/
  (status <> Status.OK /\ msg = None /\ c_sock c' = -1).
Proof using.
  unfold recv. destruct (Z.eqb_spec (c_sock c) (-1)) as [E|E].
  - intros [= <- <- <-]. by right.
  - intros Hr. apply bind_Val_inv in Hr as ([[[st m] buf] inq] & Hl & Hr).
    injection Hr as <- <- <-. apply recv_loop_inv in Hl as [(-> & m' & -> & ? & ?) | [? ->]].
    + left. split; [done|]. exists m'. rewrite decide_True by done. auto.
    + right. by rewrite decide_False by done.
Qed.

(** [recv] fails by a throwing parse, or by blocking when there is no timeout. *)
Lemma recv_loop_fail timeo inq : forall buffer f,
  recv_loop timeo buffer inq = Fail f -> f = Out_of_range \/ f = Blocked /\ timeo = false.
Proof using.
  induction inq as [|[bs|] inq IH]; intros buffer f Hr; rewrite recv_loop_eq in Hr;
    apply bind_Fail_inv in Hr as [Hr | ([[m rest]|] & _ & Hr)]; try discriminate.
  all: try (pose proof (from_wire_cases buffer) as C; rewrite Hr in C;
    destruct (is_msg_complete buffer) as [[[? ?] ?]|]; [|discriminate];
    destruct C as [[_ C] | (_ & ? & ? & C & _)]; [injection C as ->; by left | discriminate]).
  - destruct timeo; [discriminate|]. injection Hr as <-. by right.
  - destruct bs; [discriminate | eauto].
Qed.

(** One packet, split into chunks in any way, is reassembled, and what follows
    it is kept. *)
Lemma recv_loop_packet timeo p chunks more : forall buffer tail,
  wf_packet p -> Forall (fun bs => bs <> []) chunks ->
  buffer ++ mjoin chunks = encode_packet p ++ tail ->
  len (encode_packet p ++ tail) < 2 ^ 32 ->
  exists rest chunks', recv_loop timeo buffer (map R_data chunks ++ more) =
      Val (Status.OK, Some (message_of_packet p), rest, map R_data chunks' ++ more) /\
    Forall (fun bs => bs <> []) chunks' /\ rest ++ mjoin chunks' = tail.
Proof using.
  induction chunks as [|bs chunks IH]; intros buffer tail Hwf Hne E Hl.
  - change (mjoin []) with (@nil byte) in E. rewrite app_nil_r in E. subst buffer.
    exists tail, []. rewrite recv_loop_eq, from_wire_packet by done.
    cbn. rewrite app_nil_r. auto.
  - apply Forall_cons in Hne as [Hbs Hne].
    destruct (decide (length (encode_packet p) <= length buffer)%nat) as [Hc|Hc].
    + (* the packet is already complete in the buffer *)
      assert (buffer = encode_packet p ++ drop (length (encode_packet p)) buffer) as Hb.
      { apply (f_equal (take (length (encode_packet p)))) in E.
        rewrite take_app_le, take_app_length in E by done. rewrite <- E at 1.
        by rewrite take_drop. }
      exists (drop (length (encode_packet p)) buffer), (bs :: chunks).
      rewrite recv_loop_eq, Hb at 1. rewrite from_wire_packet; [|done|].
      * cbn. split; [done|]. split; [by constructor|].
        rewrite Hb, <- app_assoc in E. by apply app_inv_head in E.
      * rewrite <- Hb. apply (f_equal len) in E. rewrite len_app in E.
        pose proof (len_nonneg (mjoin (bs :: chunks))). lia.
    + (* a strict prefix: read the next chunk *)
      assert (encode_packet p = buffer ++ drop (length buffer) (encode_packet p)) as Hb.
      { apply (f_equal (take (length buffer))) in E.
        rewrite take_app_length, take_app_le in E by lia. rewrite E at 1. by rewrite take_drop. }
      cbn [map app]. rewrite recv_loop_eq.
      rewrite (from_wire_incomplete p buffer _ Hwf Hb)
        by (intros E'; apply (f_equal length) in E'; rewrite length_drop in E'; change (length []) with O in E'; lia).
      cbn [mbind res_bind]. destruct bs as [|b bs]; [done|].
      apply IH; [done|done| |done]. rewrite <- app_assoc. exact E.
Qed.

(** ** Receiving a stream *)

(** [n] successive calls of [recv], each of which must deliver a message. *)
Fixpoint recv_n (n : nat) c : res (Connection S * list message) :=
  match n with
  | O => mret (c, [])
  | Datatypes.S n =>
      '(c, _, msg) ← recv c;
      m ← use msg;
      '(c, ms) ← recv_n n c;
      mret (c, m :: ms)
  end.

(** What is buffered and queued is a byte stream [tail] followed by [more]. *)
Definition holds_stream c (tail : bytes) (more : list recv_result) : Prop :=
  exists chunks, Forall (fun bs => bs <> []) chunks /\
    c_in c = map R_data chunks ++ more /\ c_buffer c ++ mjoin chunks = tail.

Lemma recv_packet c p tail more :
  c_sock c <> -1 -> wf_packet p -> holds_stream c (encode_packet p ++ tail) more ->
  len (encode_packet p ++ tail) < 2 ^ 32 ->
  exists c', recv c = Val (c', Status.OK, Some (message_of_packet p)) /\
    c_sock c' = c_sock c /\ c_peer c' = c_peer c /\ c_rcvtimeo c' = c_rcvtimeo c /\
    holds_stream c' tail more.
Proof using.
  intros Hs Hwf (chunks & Hne & Hin & Hb) Hl. unfold recv.
  rewrite (proj2 (Z.eqb_neq _ _) Hs), Hin.
  destruct (recv_loop_packet (c_rcvtimeo c) p chunks more (c_buffer c) tail Hwf Hne Hb Hl)
    as (rest & chunks' & -> & Hne' & Ht).
  eexists. split; [reflexivity|]. cbn. repeat split. exists chunks'. auto.
Qed.

Lemma recv_packets ps : forall c tail more,
  c_sock c <> -1 -> Forall wf_packet ps ->
  holds_stream c (mjoin (encode_packet <$> ps) ++ tail) more ->
  len (mjoin (encode_packet <$> ps) ++ tail) < 2 ^ 32 ->
  exists c', recv_n (length ps) c = Val (c', message_of_packet <$> ps) /\
    c_sock c' = c_sock c /\ holds_stream c' tail more.
Proof using.
  induction ps as [|p ps IH]; intros c tail more Hs Hwf Hh Hl.
  - exists c. auto.
  - apply Forall_cons in Hwf as [Hp Hwf].
    change (mjoin (encode_packet <$> p :: ps))
      with (encode_packet p ++ mjoin (encode_packet <$> ps)) in Hh, Hl.
    rewrite <- app_assoc in Hh, Hl.
    destruct (recv_packet c p _ more Hs Hp Hh Hl) as (c1 & Hr & Hs1 & _ & _ & Hh1).
    destruct (IH c1 tail more) as (c2 & Hr2 & Hs2 & Hh2); [congruence|done|done| |].
    { rewrite len_app in Hl. pose proof (len_nonneg (encode_packet p)). lia. }
    exists c2. split; [|split; [congruence|done]].
    cbn [length recv_n]. rewrite Hr. cbn [mbind res_bind use]. by rewrite Hr2.
Qed.

(** How a stream ends: the peer closes it, it is reset, or nothing more comes
    until the read times out. *)
Inductive stream_end : Type := End_closed | End_reset | End_silent.
#[export] Instance stream_end_eq_dec : EqDecision stream_end.
Proof using. solve_decision. Defined.
Definition end_results (e : stream_end) : list recv_result :=
  match e with End_closed => [R_data []] | End_reset => [R_error] | End_silent => [] end.
Definition end_status (e : stream_end) : Status :=
  match e with End_closed => Status.DISCONNECTED | _ => Status.ERROR end.

(** The beginning of a packet, possibly nothing of it. *)
Definition partial_packet (b : bytes) : Prop :=
  exists p rest, wf_packet p /\ encode_packet p = b ++ rest /\ rest <> [].

Lemma recv_loop_ends e chunks : forall buffer b,
  partial_packet b -> Forall (fun bs => bs <> []) chunks -> buffer ++ mjoin chunks = b ->
  exists buffer' inq, recv_loop true buffer (map R_data chunks ++ end_results e) =
    Val (end_status e, None, buffer', inq).
Proof using.
  induction chunks as [|bs chunks IH]; intros buffer b (p & rest & Hwf & Hp & Hr) Hne <-;
    rewrite recv_loop_eq.
  - rewrite (from_wire_incomplete p buffer rest Hwf); [|by rewrite app_nil_r in Hp|done].
    by destruct e; do 2 eexists.
  - apply Forall_cons in Hne as [Hbs Hne].
    rewrite (from_wire_incomplete p buffer (mjoin (bs :: chunks) ++ rest) Hwf);
      [|by rewrite <- app_assoc in Hp|by intros [_ ?]%app_eq_nil].
    cbn [map app mbind res_bind]. destruct bs as [|c bs]; [done|].
    apply (IH _ (buffer ++ mjoin ((c :: bs) :: chunks))); [by exists p, rest|done|].
    by rewrite <- app_assoc.
Qed.

(** A stream that ends, be it in the middle of a packet. *)
Lemma recv_ends c b e :
  c_sock c <> -1 -> c_rcvtimeo c = true -> partial_packet b -> holds_stream c b (end_results e) ->
  exists c', recv c = Val (c', end_status e, None) /\ c_sock c' = -1 /\ c_peer c' = c_peer c.
Proof using.
  intros Hs Ht Hpp (chunks & Hne & Hin & Hb). unfold recv.
  rewrite (proj2 (Z.eqb_neq _ _) Hs), Ht, Hin.
  destruct (recv_loop_ends e chunks _ _ Hpp Hne Hb) as (buffer' & inq & ->).
  rewrite bind_Val. eexists. split; [reflexivity|]. by destruct e.
Qed.

(** The peer closed and nothing is left to read. *)
Lemma recv_closed c :
  c_sock c <> -1 -> holds_stream c [] [R_data []] ->
  exists c', recv c = Val (c', Status.DISCONNECTED, None) /\ c_sock c' = -1 /\ c_peer c' = c_peer c.
Proof using.
  intros Hs (chunks & Hne & Hin & Hb). apply app_eq_nil in Hb as [Hb Hj].
  destruct chunks as [|b chunks];
    [|apply Forall_cons in Hne as [Hne _]; by apply app_eq_nil in Hj as [-> _]].
  unfold recv. rewrite (proj2 (Z.eqb_neq _ _) Hs), Hb, Hin. by eexists.
Qed.
End connection.

(** ** Properties *)

(** C17: a stream of messages survives any fragmentation.  If the bytes of the
    messages [ms], in order and followed by [tail], reach the socket cut into
    non-empty chunks in any way (partly already buffered), then the successive
    [recv] calls deliver exactly [ms], in order, the connection stays open, and
    what is left to read is exactly [tail]. *)
Theorem recv_stream_in_order {S} (c : Connection S) ms ws tail more :
  c_sock c <> -1 ->
  Forall2 (fun m w => self_describing m = true /\ wf_message m /\ to_wire m = Val w) ms ws ->
  holds_stream c (mjoin ws ++ tail) more ->
  len (mjoin ws ++ tail) < 2 ^ 32 ->
  exists c', recv_n (length ms) c = Val (c', ms) /\ c_sock c' = c_sock c /\
    holds_stream c' tail more.
Proof.
  intros Hs Hms Hh Hl.
  assert (exists ps, Forall wf_packet ps /\ ws = encode_packet <$> ps /\
            message_of_packet <$> ps = ms) as (ps & Hwf & -> & <-).
  { clear Hh Hl. induction Hms as [|m w ms ws (Hd & Hwf & Hw) _ (ps & Hps & -> & <-)].
    - exists []. auto.
    - destruct (wf_message_packet m Hwf) as (p & Hw' & Hp & Hpk). rewrite Hw in Hw'.
      injection Hw' as ->. exists (p :: ps). split; [by constructor|]. split; [done|].
      cbn. f_equal. apply message_of_packet_of; [done | apply Hwf | done]. }
  rewrite length_fmap. by apply recv_packets.
Qed.

(** C37: a failed operation closes the connection for good.  When [recv] reports
    anything but OK, or [send] fails, there is no message and the socket is
    closed; from then on [recv] reports DISCONNECTED and [send] fails, without
    reaching the peer or changing the connection. *)
Theorem connection_failure_is_final {S} `{Peer S} (c : Connection S) :
  (forall c' st msg, recv c = Val (c', st, msg) -> st <> Status.OK ->
     msg = None /\ c_sock c' = -1) /\
  (forall c' m, 0 <= c_sock c -> send c m = Val (c', false) -> c_sock c' = -1) /\
  (c_sock c = -1 -> recv c = Val (c, Status.DISCONNECTED, None) /\
     forall m, send c m = Val (c, false)).
Proof.
  split; [|split].
  - intros c' st msg Hr Hst. apply recv_inv in Hr as [[? _]|(_ & ? & ?)]; [done|auto].
  - intros c' m Hs. unfold send. destruct (Z.ltb_spec (c_sock c) 0); [lia|].
    intros Hr. apply bind_Val_inv in Hr as (w & _ & Hr).
    destruct (on_send (c_peer c) w) as [[peer more]|]; [discriminate|].
    by injection Hr as <-.
  - intros E. unfold recv, send. rewrite E. cbn. auto.
Qed.

(** [connect] returns 0 exactly when it leaves an open socket with the read
    timeout set, leaves the socket closed otherwise, and a [recv] on a
    connection it opened never blocks: it can only fail by a throwing parse. *)
Theorem connect_opens_with_timeout {S} (env : net_env) (c c' : Connection S) rc :
  c_sock c = -1 -> -1 <= fst (os_socket env) ->
  snd (os_socket env) <> 0 -> snd (os_connect env) <> 0 -> snd (os_setsockopt env) <> 0 ->
  connect env c = (c', rc) ->
  (rc = 0 <-> 0 <= c_sock c' /\ c_rcvtimeo c' = true) /\ (rc <> 0 -> c_sock c' = -1) /\
  (rc = 0 -> forall f, recv c' = Fail f -> f = Out_of_range).
Proof.
  intros Hc Hfd He1 He2 He3. unfold connect.
  assert (Hno : forall r, r <> 0 -> forall x : Connection S, c_sock x = -1 ->
    (r = 0 <-> 0 <= c_sock x /\ c_rcvtimeo x = true) /\ (r <> 0 -> c_sock x = -1) /\
    (r = 0 -> forall f, recv x = Fail f -> f = Out_of_range)).
  { intros r Hr x Hx. rewrite Hx. repeat split; intros; lia. }
  destruct (split_host_port env (c_address c)) as [[host port]|];
    [|intros [= <- <-]; apply Hno; [lia|done]].
  destruct (Z.ltb_spec (os_getaddrinfo env host port) 0);
    [intros [= <- <-]; apply Hno; [lia|done]|].
  destruct (os_socket env) as [fd err1]. cbn in Hfd, He1.
  destruct (Z.ltb_spec fd 0); [intros [= <- <-]; apply Hno; cbn; lia|].
  destruct (os_connect env) as [rc2 err2]. destruct (Z.ltb_spec rc2 0);
    [intros [= <- <-]; apply Hno; [done|reflexivity]|].
  destruct (os_setsockopt env) as [rc3 err3]. destruct (Z.ltb_spec rc3 0);
    [intros [= <- <-]; apply Hno; [done|reflexivity]|].
  intros [= <- <-]. cbn. repeat split; [lia|done|]. intros _ f Hr.
  unfold recv in Hr. cbn in Hr. destruct (fd =? -1); [discriminate|].
  apply bind_Fail_inv in Hr as [Hr|([[[? ?] ?] ?] & _ & Hr)]; [|discriminate].
  apply recv_loop_fail in Hr as [?|[_ ?]]; [done|discriminate].
Qed.

(** ** Witnesses *)

(** A peer that records what it is sent and never answers. *)
#[export] Instance recorder : Peer (list bytes) := fun sent bin => Some (sent ++ [bin], []).

Definition example_get : message := GetReq_new (lit "impi\\bob") 3.

Lemma example_get_wf : wf_message example_get.
Proof. split; [constructor|]. eexists. split; [reflexivity|]. decide_wf. Qed.

Definition example_stream : bytes :=
  match to_wire example_add, to_wire example_get with
  | Val a, Val b => a ++ b
  | _, _ => []
  end.

(** The two messages, cut inside the first header and inside the second. *)
Definition example_chunks : list bytes :=
  [take 7 example_stream; take 60 (drop 7 example_stream); drop 67 example_stream ++ [x80]].

Definition example_connection : Connection (list bytes) :=
  ServerConnection_new 5 (lit "10.0.0.1:40000") [] (map R_data example_chunks).

Lemma recv_stream_in_order_witness :
  exists c', recv_n 2 example_connection = Val (c', [example_add; example_get]) /\
    c_sock c' = 5 /\ holds_stream c' [x80] [].
Proof.
  eapply (recv_stream_in_order example_connection [example_add; example_get] _ [x80] []).
  - discriminate.
  - constructor; [split; [reflexivity | split; [exact example_add_wf | reflexivity]] |].
    constructor; [split; [reflexivity | split; [exact example_get_wf | reflexivity]] |].
    constructor.
  - exists example_chunks. split; [|split; [reflexivity | vm_compute; reflexivity]].
    repeat constructor; vm_compute; discriminate.
  - vm_compute. reflexivity.
Defined.

(** An environment in which every system call succeeds. *)
Definition example_env : net_env :=
  mkNetEnv (fun _ => Some (lit "10.0.0.2", 11211)) (fun _ _ => 0) (7, 1) (0, 1) (0, 1).

Lemma connect_opens_with_timeout_witness :
  let '(c', rc) := connect example_env (ClientConnection_new (lit "10.0.0.2:11211") (@nil bytes) []) in
  rc = 0 /\ 0 <= c_sock c' /\ c_rcvtimeo c' = true.
Proof.
  pose proof (connect_opens_with_timeout example_env
    (ClientConnection_new (lit "10.0.0.2:11211") (@nil bytes) []) _ _
    eq_refl ltac:(discriminate) ltac:(discriminate) ltac:(discriminate) ltac:(discriminate)
    eq_refl) as [[H _] _].
  cbn. split; [reflexivity|]. exact (H eq_refl).
Defined.
