(* ===== verification/Worklist.v ===== *)
(** * The outstanding work list

    Models the part of src/astaire.cpp that decides what to stream from where:
    calculate_worklist, calculate_taps, blacklist_server, the two OWL helpers
    and process_worklist with complete_single_tap.  The cluster view is
    MemcachedStoreView's (not in this repository): two maps from vbucket to
    replica list.  Creating and joining a tap thread are functions on a state
    [W], so that the theorems here hold however the taps fare; Resync.v
    instantiates them with perform_single_tap and tap_buckets_thread. *)

From Stdlib Require Import ZArith Lia Strings.Byte Sorting.Sorted.
From stdpp Require Import prelude.
From S2P Require Import Prelude StdMap.

Open Scope Z_scope.

Abbreviation server := (list byte) (only parsing).
Abbreviation ReplicaList := (list (list byte)) (only parsing).

Abbreviation OutstandingWorkList := (stdmap Z (list (list byte))).
Abbreviation TapList := (stdmap (list byte) (list Z)).

Record view : Type := mkView {
  v_current_replicas : stdmap Z (list (list byte));
  v_new_replicas : stdmap Z (list (list byte))
}.

Definition is_in_vector (vec : list server) (item : server) : bool := bool_decide (item ∈ vec).

(** std::find followed by erase of the iterator, when found. *)
Fixpoint erase_first (x : server) (l : list server) : list server :=
  match l with
  | [] => []
  | y :: l => if decide (y = x) then l else y :: erase_first x l
  end.

(** ** calculate_worklist *)

(** The loop body; [current_replicas[vbucket]] may insert into the local copy. *)
Definition worklist_step (full_resync : bool) (self : server)
    (st : stdmap Z (list (list byte)) * OutstandingWorkList) (it : Z * list server) :
    stdmap Z (list (list byte)) * OutstandingWorkList :=
  let '(current_replicas, owl) := st in
  let '(vbucket, replicas) := it in
  if is_in_vector replicas self then
    let '(source_replicas, current_replicas) := map_index [] vbucket current_replicas in
    let source_replicas :=
      if full_resync then erase_first self source_replicas else source_replicas in
    if bool_decide (source_replicas <> []) && negb (is_in_vector source_replicas self)
    then (current_replicas, map_set (u16 vbucket) source_replicas owl)
    else (current_replicas, owl)
  else (current_replicas, owl).

Definition calculate_worklist (v : view) (self : server) (full_resync : bool) :
    OutstandingWorkList :=
  let current_replicas := v_current_replicas v in
  let new_replicas :=
    match v_new_replicas v with [] => current_replicas | nr => nr end in
  (foldl (worklist_step full_resync self) (current_replicas, []) new_replicas).2.

(** ** calculate_taps, blacklist_server and the helpers *)

(** The loop body: the first available replica of the vbucket gets it, and is
    removed from the OWL. *)
Definition taps_step (st : TapList * OutstandingWorkList) (it : Z * list server) :
    TapList * OutstandingWorkList :=
  let '(tl, owl) := st in
  let '(vbucket, replica_list) := it in
  match replica_list with
  | [] => (tl, owl ++ [(vbucket, [])])
  | replica :: rest =>
      let '(buckets, tl) := map_index [] replica tl in
      (map_set replica (buckets ++ [u16 vbucket]) tl, owl ++ [(vbucket, rest)])
  end.

(** The returned taps, and the OWL it modified in place. *)
Definition calculate_taps (owl : OutstandingWorkList) : TapList * OutstandingWorkList :=
  foldl taps_step ([], []) owl.

Definition blacklist_server (owl : OutstandingWorkList) (srv : server) : OutstandingWorkList :=
  map (fun it => (it.1, filter (fun s => s <> srv) it.2)) owl.

Definition owl_total_buckets (owl : OutstandingWorkList) : Z :=
  foldl (fun buckets it => i32 (buckets + Z.of_nat (length it.2))) 0 owl.

Definition owl_empty (owl : OutstandingWorkList) : bool :=
  forallb (fun it => bool_decide (it.2 = [])) owl.

(** ** process_worklist *)

(** How a started tap thread was joined. *)
Inductive join_result : Type :=
| Join_failed                  (* pthread_join failed *)
| Joined (success : bool).     (* the success field of its thread data *)

Inductive tap_result : Type := Not_started | Join_lost | Tap_failed | Tap_succeeded.

(** One tap: the server, its vbuckets, and what became of it. *)
Record tap_event : Type := mkTapEvent {
  te_server : server;
  te_buckets : list Z;
  te_result : tap_result
}.

#[export] Instance join_result_eq_dec : EqDecision join_result.
Proof. solve_decision. Defined.
#[export] Instance tap_result_eq_dec : EqDecision tap_result.
Proof. solve_decision. Defined.

(** complete_single_tap: success, and the tapped server when the join worked
    (the caller's string stays empty otherwise).  A joined thread returns the
    data it was given, so its exit(2) on NULL data does not arise. *)
Definition complete_single_tap (srv : server) (j : join_result) : bool * server :=
  match j with
  | Join_failed => (false, [])
  | Joined success => (success, srv)
  end.

Definition join_tap_result (j : join_result) : tap_result :=
  match j with
  | Join_failed => Join_lost
  | Joined true => Tap_succeeded
  | Joined false => Tap_failed
  end.

Section process.
Context {W : Type}.
(** Create the tap thread for a server and its vbuckets; join it. *)
Context (pthread_create : W -> server -> list Z -> W * bool).
Context (pthread_join : W -> server -> list Z -> W * join_result).

(** The first inner loop: the taps whose thread was started, and the events of
    those that were not. *)
Fixpoint perform_taps (w : W) (taps : TapList) : W * list (server * list Z) * list tap_event :=
  match taps with
  | [] => (w, [], [])
  | (srv, buckets) :: taps =>
      let '(w, rc) := pthread_create w srv buckets in
      let '(w, handles, log) := perform_taps w taps in
      if rc then (w, (srv, buckets) :: handles, log)
      else (w, handles, mkTapEvent srv buckets Not_started :: log)
  end.

(** The second inner loop: join each started tap in turn. *)
Fixpoint complete_taps (w : W) (taps : TapList) (handles : list (server * list Z))
    (owl : OutstandingWorkList) (unstreamed : list Z) :
    W * OutstandingWorkList * list Z * list tap_event :=
  match handles with
  | [] => (w, owl, unstreamed, [])
  | (srv, buckets) :: handles =>
      let '(w, j) := pthread_join w srv buckets in
      let '(success, name) := complete_single_tap srv j in
      let '(owl, unstreamed) :=
        if success
        then (owl, filter (fun b => b ∉ default [] (map_find name taps)) unstreamed)
        else (blacklist_server owl name, unstreamed) in
      let '(w, owl, unstreamed, log) := complete_taps w taps handles owl unstreamed in
      (w, owl, unstreamed,
       mkTapEvent srv buckets (join_tap_result j) :: log)
  end.

Definition process_round (w : W) (owl : OutstandingWorkList) (unstreamed : list Z) :
    W * OutstandingWorkList * list Z * list tap_event :=
  let '(taps, owl) := calculate_taps owl in
  let '(w, handles, log1) := perform_taps w taps in
  let '(w, owl, unstreamed, log2) := complete_taps w taps handles owl unstreamed in
  (w, owl, unstreamed, log1 ++ log2).

(** The while loop; the log has one entry per round. *)
Fixpoint process_loop (fuel : nat) (w : W) (owl : OutstandingWorkList) (unstreamed : list Z) :
    res (W * OutstandingWorkList * list Z * list (list tap_event)) :=
  if owl_empty owl then mret (w, owl, unstreamed, [])
  else match fuel with
  | O => Fail Out_of_fuel
  | S fuel =>
      let '(w, owl, unstreamed, round) := process_round w owl unstreamed in
      '(w, owl, unstreamed, log) ← process_loop fuel w owl unstreamed;
      mret (w, owl, unstreamed, round :: log)
  end.

(** Enough rounds: one per entry left in the longest replica list. *)
Definition owl_depth (owl : OutstandingWorkList) : nat :=
  foldr (fun it d => Nat.max (length it.2) d) O owl.

(** The world, the vbuckets that no tap streamed (the resync failed if there
    are any), and the log. *)
Definition process_worklist (w : W) (owl : OutstandingWorkList) :
    res (W * list Z * list (list tap_event)) :=
  '(w, _, unstreamed, log) ← process_loop (owl_depth owl) w owl (map_keys owl);
  mret (w, unstreamed, log).
End process.

(** ** Lemmas on the OWL operations *)

(** The vbuckets whose next replica is [s], in order. *)
Definition buckets_for (s : server) (owl : OutstandingWorkList) : list Z :=
  map fst (filter (fun it => head it.2 = Some s) owl).

Definition owl_tails (owl : OutstandingWorkList) : OutstandingWorkList :=
  map (fun it => (it.1, tail it.2)) owl.

(** The names in [bl] removed from every entry. *)
Definition owl_without (bl : list server) (owl : OutstandingWorkList) : OutstandingWorkList :=
  map (fun it => (it.1, filter (fun s => s ∉ bl) it.2)) owl.

Definition taps_of (owl : OutstandingWorkList) : TapList := (calculate_taps owl).1.

Lemma owl_empty_depth owl : owl_empty owl = true <-> owl_depth owl = O.
Proof.
  induction owl as [|[vb l] owl IH]; cbn; [done|].
  rewrite andb_true_iff, IH, bool_decide_eq_true. fold (owl_depth owl).
  destruct l; cbn [length]; (split; [intros [? ?] | intros ?; split]); first [done | lia].
Qed.

Lemma owl_depth_tails owl : owl_depth (owl_tails owl) = pred (owl_depth owl).
Proof.
  unfold owl_depth, owl_tails in *. induction owl as [|[vb l] owl IH]; cbn; [done|].
  rewrite IH. destruct l; cbn; lia.
Qed.

Lemma owl_depth_without bl owl : (owl_depth (owl_without bl owl) <= owl_depth owl)%nat.
Proof.
  unfold owl_depth, owl_without in *. induction owl as [|[vb l] owl IH]; cbn; [done|].
  pose proof (length_filter (fun s => s ∉ bl) l). lia.
Qed.

Lemma blacklist_without bl s owl :
  blacklist_server (owl_without bl owl) s = owl_without (s :: bl) owl.
Proof.
  unfold blacklist_server, owl_without. rewrite map_map. apply map_ext. intros [vb l]. cbn.
  f_equal. rewrite list_filter_filter. apply list_filter_iff. intros x.
  rewrite not_elem_of_cons. tauto.
Qed.

Lemma owl_without_nil owl : owl_without [] owl = owl.
Proof.
  unfold owl_without. rewrite <- (map_id owl) at 2. apply map_ext. intros [vb l]. cbn.
  f_equal. induction l as [|x l IH]; [done|].
  by rewrite filter_cons_True, IH by apply not_elem_of_nil.
Qed.

(** Pushing a vbucket on a server's list. *)
Lemma push_find (tl : TapList) r b s :
  let '(bs, tl') := map_index [] r tl in
  default [] (map_find s (map_set r (bs ++ [b]) tl')) =
  default [] (map_find s tl) ++ (if decide (r = s) then [b] else []).
Proof.
  pose proof (map_index_value [] r tl) as Hv. pose proof (map_index_find [] r s tl) as Hf.
  destruct (map_index [] r tl) as [bs tl']. cbn in Hv, Hf. case_decide as E.
  - subst s. by rewrite map_find_set_eq, Hv.
  - rewrite map_find_set_ne by done. by rewrite Hf, app_nil_r.
Qed.

Lemma push_sorted (tl : TapList) r b :
  key_sorted tl ->
  let '(bs, tl') := map_index [] r tl in
  key_sorted (map_set r (bs ++ [b]) tl') /\
  forall s, s ∈ map_keys (map_set r (bs ++ [b]) tl') <-> s = r \/ s ∈ map_keys tl.
Proof.
  intros Hs. unfold map_index. destruct (map_find r tl) as [bs|].
  - split; [by apply map_set_sorted | by apply map_keys_set].
  - pose proof (map_set_sorted r [] tl Hs). split; [by apply map_set_sorted|].
    intros s. rewrite !map_keys_set by done. tauto.
Qed.

(** What the loop of calculate_taps adds to the taps [tl] it started from. *)
Lemma taps_fold owl : forall (tl : TapList) acc,
  key_sorted tl ->
  let '(tl', owl') := foldl taps_step (tl, acc) owl in
  owl' = acc ++ owl_tails owl /\ key_sorted tl' /\
  (forall s, default [] (map_find s tl') = default [] (map_find s tl) ++ map u16 (buckets_for s owl)) /\
  (forall s, s ∈ map_keys tl' <-> s ∈ map_keys tl \/ buckets_for s owl <> []).
Proof.
  induction owl as [|[vb l] owl IH]; intros tl acc Hs.
  { cbn. rewrite app_nil_r. split; [done|]. split; [done|].
    split; intros s; [by rewrite app_nil_r | tauto]. }
  cbn [foldl taps_step]. destruct l as [|r l].
  - specialize (IH tl (acc ++ [(vb, [])]) Hs).
    destruct (foldl taps_step _ owl) as [tl' owl']. destruct IH as (-> & Hs' & Hf & Hk).
    rewrite <- app_assoc. split; [done|]. split; [done|]. split; intros s.
    + by rewrite Hf.
    + by rewrite Hk.
  - pose proof (push_sorted tl r (u16 vb) Hs) as Hp.
    assert (Hq := push_find tl r (u16 vb)). cbn beta in Hq.
    destruct (map_index [] r tl) as [bs tl1]. destruct Hp as [Hs1 Hk1].
    specialize (IH _ (acc ++ [(vb, l)]) Hs1).
    destruct (foldl taps_step _ owl) as [tl' owl']. destruct IH as (-> & Hs' & Hf & Hk).
    rewrite <- app_assoc. split; [done|]. split; [done|].
    unfold buckets_for. cbn [filter list_filter]. split; intros s.
    + rewrite Hf, Hq, <- app_assoc. f_equal. unfold buckets_for. cbn.
      repeat case_decide; congruence || done.
    + rewrite Hk, Hk1. unfold buckets_for. cbn.
      case_decide as E; cbn.
      * injection E as ->. split; [intros; by right | tauto].
      * split; [intros [[->|?]|?]; [done|auto|auto] | tauto].
Qed.

Lemma calculate_taps_spec owl :
  (calculate_taps owl).2 = owl_tails owl /\ key_sorted (taps_of owl) /\
  (forall s, default [] (map_find s (taps_of owl)) = map u16 (buckets_for s owl)) /\
  (forall s, s ∈ map_keys (taps_of owl) <-> buckets_for s owl <> []).
Proof.
  pose proof (taps_fold owl [] [] ltac:(constructor)) as H.
  unfold taps_of, calculate_taps. destruct (foldl taps_step _ owl) as [tl owl'].
  destruct H as (-> & Hs & Hf & Hk). cbn. repeat split; try done; intros.
  - apply Hk in H as [H|H]; [|done]. by apply elem_of_nil in H.
  - apply Hk. by right.
Qed.

(** The OWL's representation invariant: keys in order, and uint16_t. *)
Definition owl_ok (owl : OutstandingWorkList) : Prop :=
  key_sorted owl /\ Forall in_u16 (map_keys owl).

Lemma owl_tails_ok owl : owl_ok owl -> owl_ok (owl_tails owl).
Proof.
  unfold owl_ok, key_sorted, map_keys, owl_tails. by rewrite map_map.
Qed.

Lemma owl_without_ok bl owl : owl_ok owl -> owl_ok (owl_without bl owl).
Proof.
  unfold owl_ok, key_sorted, map_keys, owl_without. by rewrite map_map.
Qed.

Lemma buckets_for_elem s owl vb :
  vb ∈ buckets_for s owl <-> exists l, (vb, s :: l) ∈ owl.
Proof.
  unfold buckets_for. rewrite list_elem_of_In, in_map_iff. split.
  - intros ([vb' l] & <- & Hin). apply list_elem_of_In, list_elem_of_filter in Hin as [Hh Hin].
    cbn in *. destruct l as [|s' l]; [done|]. injection Hh as ->. by exists l.
  - intros (l & Hin). exists (vb, s :: l). split; [done|].
    apply list_elem_of_In, list_elem_of_filter. done.
Qed.

Lemma buckets_for_u16 s owl : owl_ok owl -> map u16 (buckets_for s owl) = buckets_for s owl.
Proof.
  intros [_ Hk]. rewrite <- (map_id (buckets_for s owl)) at 2.
  apply map_ext_in. intros vb Hvb. apply u16_small.
  apply list_elem_of_In, buckets_for_elem in Hvb as (l & Hin).
  apply (proj1 (Forall_forall _ _) Hk). apply list_elem_of_In, in_map_iff.
  exists (vb, s :: l). by rewrite <- list_elem_of_In.
Qed.

(** A tap is a server with exactly the vbuckets that have it as next replica. *)
Lemma taps_of_elem owl s bs :
  owl_ok owl -> (s, bs) ∈ taps_of owl <-> bs = buckets_for s owl /\ bs <> [].
Proof.
  intros Hok. destruct (calculate_taps_spec owl) as (_ & Hs & Hf & Hk).
  rewrite <- (map_find_elem s bs _ Hs). specialize (Hf s). specialize (Hk s).
  rewrite buckets_for_u16 in Hf by done.
  destruct (map_find s (taps_of owl)) as [bs'|] eqn:E; cbn in Hf.
  - subst bs'. assert (buckets_for s owl <> []).
    { apply Hk. apply map_find_elem in E; [|done]. apply list_elem_of_In, in_map_iff.
      exists (s, buckets_for s owl). by rewrite <- list_elem_of_In. }
    split; [intros [= <-]; done | intros [-> _]; done].
  - split; [done|]. intros [-> ?]. congruence.
Qed.

(** Each vbucket belongs to at most one tap of a round. *)
Lemma taps_of_disjoint owl s1 bs1 s2 bs2 vb :
  owl_ok owl -> (s1, bs1) ∈ taps_of owl -> (s2, bs2) ∈ taps_of owl ->
  vb ∈ bs1 -> vb ∈ bs2 -> s1 = s2 /\ bs1 = bs2.
Proof.
  intros Hok H1 H2 Hv1 Hv2. apply taps_of_elem in H1 as [-> _]; [|done].
  apply taps_of_elem in H2 as [-> _]; [|done].
  apply buckets_for_elem in Hv1 as (l1 & H1). apply buckets_for_elem in Hv2 as (l2 & H2).
  destruct Hok as [Hs _]. apply map_find_elem in H1, H2; [|done|done].
  rewrite H1 in H2. injection H2 as -> _. done.
Qed.

(** ** Lemmas on a round *)

(** The name a joined tap puts on the blacklist. *)
Definition blacklisted (e : tap_event) : option server :=
  match te_result e with
  | Tap_failed => Some (te_server e)
  | Join_lost => Some []
  | _ => None
  end.

Definition streamed_by (vb : Z) (e : tap_event) : Prop :=
  te_result e = Tap_succeeded /\ vb ∈ te_buckets e.

Definition te_pair (e : tap_event) : server * list Z := (te_server e, te_buckets e).

Section process_facts.
Context {W : Type}.
Context (pthread_create : W -> server -> list Z -> W * bool).
Context (pthread_join : W -> server -> list Z -> W * join_result).

Lemma perform_taps_spec taps : forall w,
  let '(_, handles, log) := perform_taps pthread_create w taps in
  handles ++ map te_pair log ≡ₚ taps /\ Forall (fun e => te_result e = Not_started) log.
Proof.
  induction taps as [|[s bs] taps IH]; intros w; cbn; [done|].
  destruct (pthread_create w s bs) as [w1 rc]. specialize (IH w1).
  destruct (perform_taps pthread_create w1 taps) as [[w2 handles] log].
  destruct IH as [Hp Hf]. destruct rc; cbn.
  - split; [by rewrite Hp | done].
  - split; [|by constructor]. rewrite <- Permutation_middle. by rewrite Hp.
Qed.

(** The effect of a list of joined taps on the blacklist and on the vbuckets
    still to be streamed. *)
Definition blacklist_grows (bl bl' : list server) (log : list tap_event) : Prop :=
  forall s, s ∈ bl' <-> s ∈ bl \/ exists e, e ∈ log /\ blacklisted e = Some s.
Definition unstreamed_shrinks (un un' : list Z) (log : list tap_event) : Prop :=
  forall vb, vb ∈ un' <-> vb ∈ un /\ ~ exists e, e ∈ log /\ streamed_by vb e.

Lemma blacklist_grows_cons bl bl' e log :
  blacklist_grows (option_list (blacklisted e) ++ bl) bl' log -> blacklist_grows bl bl' (e :: log).
Proof.
  intros H s. rewrite (H s), elem_of_app. setoid_rewrite elem_of_cons.
  assert (s ∈ option_list (blacklisted e) <-> blacklisted e = Some s) as ->.
  { destruct (blacklisted e); cbn; [rewrite list_elem_of_singleton; split; congruence|].
    rewrite elem_of_nil. split; [done|discriminate]. }
  split.
  - intros [[?|?]|(e' & ? & ?)]; eauto.
  - intros [?|(e' & [->|?] & ?)]; eauto.
Qed.

Lemma unstreamed_shrinks_cons un un1 un' e log :
  (forall vb, vb ∈ un1 <-> vb ∈ un /\ ~ streamed_by vb e) ->
  unstreamed_shrinks un1 un' log -> unstreamed_shrinks un un' (e :: log).
Proof.
  intros H1 H vb. rewrite (H vb), H1. setoid_rewrite elem_of_cons. split.
  - intros [[? He] Hne]. split; [done|]. intros (e' & [->|?] & ?); eauto.
  - intros [? Hne]. split; [split; [done|]|].
    + intros ?. apply Hne. eauto.
    + intros (e' & ? & ?). apply Hne. eauto.
Qed.

Lemma complete_taps_spec taps handles : forall w owl bl un,
  key_sorted taps -> Forall (fun h => h ∈ taps) handles ->
  let '(_, owl', un', log) :=
    complete_taps pthread_join w taps handles (owl_without bl owl) un in
  map te_pair log = handles /\
  (exists bl', owl' = owl_without bl' owl /\ blacklist_grows bl bl' log) /\
  unstreamed_shrinks un un' log.
Proof.
  induction handles as [|[s bs] handles IH]; intros w owl bl un Hs Hh.
  { cbn. split; [done|]. split.
    - exists bl. split; [done|]. intros x. split; [by left|].
      intros [?|(e & He & _)]; [done | by apply elem_of_nil in He].
    - intros vb. split; [|by intros [? _]]. intros ?. split; [done|].
      intros (e & He & _). by apply elem_of_nil in He. }
  apply Forall_cons in Hh as [Hin Hh]. cbn.
  destruct (pthread_join w s bs) as [w1 j].
  apply map_find_elem in Hin; [|done]. set (e := mkTapEvent s bs (join_tap_result j)).
  set (un1 := match j with Joined true => filter (fun b => b ∉ bs) un | _ => un end).
  assert (Hun1 : forall vb, vb ∈ un1 <-> vb ∈ un /\ ~ streamed_by vb e).
  { intros vb. unfold un1, streamed_by, e. destruct j as [|[]]; cbn; [|rewrite list_elem_of_filter|];
      split; naive_solver. }
  specialize (IH w1 owl (option_list (blacklisted e) ++ bl) un1 Hs Hh).
  destruct j as [|[]]; cbn in IH |- *; rewrite ?Hin, ?blacklist_without; cbn;
    destruct (complete_taps pthread_join w1 taps handles _ _) as [[[w2 owl2] un2] log];
    destruct IH as (<- & (bl' & -> & Hb) & Hu);
    (split; [done|]; split; [exists bl'; split; [done|]; by apply (blacklist_grows_cons _ _ e)
                            | by apply (unstreamed_shrinks_cons _ un1 _ e)]).
Qed.

Lemma blacklist_grows_idle bl log1 log2 bl' :
  Forall (fun e => te_result e = Not_started) log1 ->
  blacklist_grows bl bl' log2 -> blacklist_grows bl bl' (log1 ++ log2).
Proof using.
  intros Hi Hb. induction Hi as [|e log1 He _ IH]; [done|]. cbn.
  apply blacklist_grows_cons. unfold blacklisted. by rewrite He.
Qed.

Lemma unstreamed_shrinks_idle un log1 log2 un' :
  Forall (fun e => te_result e = Not_started) log1 ->
  unstreamed_shrinks un un' log2 -> unstreamed_shrinks un un' (log1 ++ log2).
Proof using.
  intros Hi Hb. induction Hi as [|e log1 He _ IH]; [done|]. cbn.
  apply (unstreamed_shrinks_cons _ un); [|done]. intros vb. unfold streamed_by.
  rewrite He. split; [intros ?; split; [done|by intros [? _]] | by intros [? _]].
Qed.

Lemma process_round_spec w owl un :
  let '(_, owl', un', round) := process_round pthread_create pthread_join w owl un in
  map te_pair round ≡ₚ taps_of owl /\
  (exists bl, owl' = owl_without bl (owl_tails owl) /\ blacklist_grows [] bl round) /\
  unstreamed_shrinks un un' round.
Proof.
  unfold process_round. destruct (calculate_taps_spec owl) as (Ho & Hs & _ & _).
  unfold taps_of in *. destruct (calculate_taps owl) as [taps owl1]. cbn in *. subst owl1.
  pose proof (perform_taps_spec taps w) as Hp.
  destruct (perform_taps pthread_create w taps) as [[w1 handles] log1]. destruct Hp as [Hp Hn].
  assert (Forall (fun h => h ∈ taps) handles) as Hh.
  { apply Forall_forall. intros h Hin. rewrite <- Hp. apply elem_of_app. by left. }
  pose proof (complete_taps_spec taps handles w1 (owl_tails owl) [] un Hs Hh) as Hc.
  rewrite owl_without_nil in Hc.
  destruct (complete_taps pthread_join w1 taps handles _ un) as [[[w2 owl2] un2] log2].
  destruct Hc as (Hh2 & (bl & -> & Hb) & Hu). split; [|split].
  - rewrite map_app, Hh2, <- Hp. apply Permutation_app_comm.
  - exists bl. split; [done|]. by apply blacklist_grows_idle.
  - by apply unstreamed_shrinks_idle.
Qed.
End process_facts.

(** ** Lemmas on the log of a resync *)

(** The servers a vbucket was tapped from, in order. *)
Definition tapped_from (vb : Z) (evs : list tap_event) : list server :=
  map te_server (filter (fun e => vb ∈ te_buckets e) evs).

Lemma singleton_of_NoDup {A} (l : list A) (x : A) :
  NoDup l -> x ∈ l -> (forall y, y ∈ l -> y = x) -> l = [x].
Proof.
  intros Hn Hx Ha. destruct l as [|y [|z l]]; [by apply elem_of_nil in Hx| |].
  - by rewrite (Ha y) by apply list_elem_of_here.
  - apply NoDup_cons in Hn as [Hn _]. exfalso. apply Hn.
    rewrite (Ha y), <- (Ha z) by (rewrite ?elem_of_cons; auto). apply list_elem_of_here.
Qed.

Lemma taps_of_NoDup owl : NoDup (taps_of owl).
Proof.
  destruct (calculate_taps_spec owl) as (_ & Hs & _ & _).
  apply key_sorted_NoDup in Hs. by apply (NoDup_fmap_1 fst).
Qed.

Lemma map_filter {A B} (f : A -> B) (P : B -> Prop) `{forall x, Decision (P x)} l :
  map f (filter (fun x => P (f x)) l) = filter P (map f l).
Proof.
  induction l as [|x l IH]; [done|]. cbn [map]. rewrite !filter_cons.
  case_decide; cbn [map]; by rewrite IH.
Qed.

(** In one round a vbucket is tapped from its next replica, and only there. *)
Lemma round_tapped owl round vb l :
  owl_ok owl -> map te_pair round ≡ₚ taps_of owl -> (vb, l) ∈ owl ->
  tapped_from vb round = option_list (head l).
Proof.
  intros Hok Hp Hin. set (P := fun p : server * list Z => vb ∈ p.2).
  assert (map te_pair (filter (fun e => vb ∈ te_buckets e) round) =
          filter P (map te_pair round)) as Hm.
  { by rewrite <- (map_filter te_pair P). }
  assert (filter P (taps_of owl) =
          match l with [] => [] | s :: _ => [(s, buckets_for s owl)] end) as Hf.
  { assert (Hall : forall s bs, (s, bs) ∈ filter P (taps_of owl) ->
              bs = buckets_for s owl /\ exists l', l = s :: l').
    { intros s bs Hs. apply list_elem_of_filter in Hs as [Hv Hs]. cbn in Hv.
      apply taps_of_elem in Hs as [-> _]; [|done]. split; [done|].
      apply buckets_for_elem in Hv as (l' & Hv). destruct Hok as [Hks _].
      apply map_find_elem in Hin, Hv; [|done..]. exists l'. congruence. }
    destruct l as [|s l].
    - destruct (filter P (taps_of owl)) as [|[s bs] fs]; [done|].
      destruct (Hall s bs) as [_ [? ?]]; [apply list_elem_of_here | discriminate].
    - assert (vb ∈ buckets_for s owl) as Hv by (apply buckets_for_elem; eauto).
      apply singleton_of_NoDup.
      + apply NoDup_filter, taps_of_NoDup.
      + apply list_elem_of_filter. split; [done|]. apply taps_of_elem; [done|].
        split; [done|]. intros E. rewrite E in Hv. by apply elem_of_nil in Hv.
      + intros [s' bs'] Hs. apply Hall in Hs as [-> [l' E]]. by injection E as -> _. }
  assert (filter P (map te_pair round) ≡ₚ filter P (taps_of owl)) as Hp' by (by rewrite Hp).
  rewrite <- Hm, Hf in Hp'. unfold tapped_from.
  assert (map te_server (filter (fun e => vb ∈ te_buckets e) round) =
          map fst (map te_pair (filter (fun e => vb ∈ te_buckets e) round))) as ->
    by (by rewrite map_map).
  destruct l as [|s l].
  - apply Permutation_nil_r in Hp'. by rewrite Hp'.
  - apply Permutation_singleton_r in Hp'. by rewrite Hp'.
Qed.

(** Taps of one round never share a vbucket. *)
Definition round_disjoint (round : list tap_event) : Prop :=
  NoDup round /\ forall e1 e2 vb, e1 ∈ round -> e2 ∈ round ->
    vb ∈ te_buckets e1 -> vb ∈ te_buckets e2 -> e1 = e2.

(** A blacklisted name is not tapped in any later round. *)
Fixpoint never_retapped (log : list (list tap_event)) : Prop :=
  match log with
  | [] => True
  | round :: log =>
      (forall e e' s, e ∈ round -> blacklisted e = Some s -> e' ∈ mjoin log -> te_server e' <> s) /\
      never_retapped log
  end.

Record log_ok (owl : OutstandingWorkList) (log : list (list tap_event)) : Prop := {
  lo_order : forall vb l, (vb, l) ∈ owl -> tapped_from vb (mjoin log) `sublist_of` l;
  lo_cover : forall vb l s, (vb, l) ∈ owl -> s ∈ l ->
    s ∈ tapped_from vb (mjoin log) \/ exists e, e ∈ mjoin log /\ blacklisted e = Some s;
  lo_source : forall e, e ∈ mjoin log -> exists vb l, (vb, l) ∈ owl /\ te_server e ∈ l;
  lo_retap : never_retapped log;
  lo_disjoint : Forall round_disjoint log
}.

Lemma owl_after_elem bl owl vb l :
  (vb, l) ∈ owl_without bl (owl_tails owl) <->
  exists l0, (vb, l0) ∈ owl /\ l = filter (fun s => s ∉ bl) (tail l0).
Proof.
  unfold owl_without, owl_tails. rewrite map_map. rewrite list_elem_of_In, in_map_iff. split.
  - intros ([vb' l0] & [= <- <-] & Hin). exists l0. by rewrite list_elem_of_In.
  - intros (l0 & Hin & ->). exists (vb, l0). by rewrite <- list_elem_of_In.
Qed.

Lemma tapped_from_app vb evs evs' :
  tapped_from vb (evs ++ evs') = tapped_from vb evs ++ tapped_from vb evs'.
Proof. unfold tapped_from. by rewrite filter_app, map_app. Qed.

Lemma round_elem owl round e :
  map te_pair round ≡ₚ taps_of owl -> e ∈ round -> (te_server e, te_buckets e) ∈ taps_of owl.
Proof.
  intros Hp He. rewrite <- Hp. by apply (list_elem_of_fmap_2 te_pair).
Qed.

Lemma round_is_disjoint owl round :
  owl_ok owl -> map te_pair round ≡ₚ taps_of owl -> round_disjoint round.
Proof.
  intros Hok Hp. assert (NoDup (map te_pair round)) as Hn by (rewrite Hp; apply taps_of_NoDup).
  split; [by apply (NoDup_fmap_1 te_pair)|]. intros e1 e2 vb H1 H2 V1 V2.
  destruct (taps_of_disjoint owl _ _ _ _ vb Hok (round_elem _ _ _ Hp H1) (round_elem _ _ _ Hp H2)
              V1 V2) as [Es Eb].
  apply list_elem_of_lookup in H1 as [i H1], H2 as [j H2].
  assert (i = j) as ->; [|congruence].
  eapply (NoDup_lookup _ i j (te_pair e1) Hn); rewrite list_lookup_fmap.
  - by rewrite H1.
  - rewrite H2. cbn. unfold te_pair. by rewrite Es, Eb.
Qed.

Lemma log_ok_cons owl owl' round log bl :
  owl_ok owl -> map te_pair round ≡ₚ taps_of owl -> owl' = owl_without bl (owl_tails owl) ->
  blacklist_grows [] bl round -> log_ok owl' log -> log_ok owl (round :: log).
Proof.
  intros Hok Hp -> Hb Hlog. change (mjoin (round :: log)) with (round ++ mjoin log) in *.
  assert (Hbl : forall s, s ∈ bl <-> exists e, e ∈ round /\ blacklisted e = Some s).
  { intros s. rewrite (Hb s), elem_of_nil. tauto. }
  split; change (mjoin (round :: log)) with (round ++ mjoin log).
  - intros vb l Hin. rewrite tapped_from_app, (round_tapped owl _ _ l) by done.
    assert (tapped_from vb (mjoin log) `sublist_of` tail l) as Hs.
    { etrans; [apply (lo_order _ _ Hlog vb (filter (fun s => s ∉ bl) (tail l)))|].
      - apply owl_after_elem. eauto.
      - apply sublist_filter. }
    destruct l as [|s l]; cbn in *; [done | by apply sublist_skip].
  - intros vb l s Hin Hs. rewrite tapped_from_app, (round_tapped owl _ _ l) by done.
    destruct l as [|s0 l]; [by apply elem_of_nil in Hs|]. cbn.
    apply elem_of_cons in Hs as [->|Hs]; [left; apply list_elem_of_here|].
    destruct (decide (s ∈ bl)) as [Hsb|Hsb].
    { right. apply Hbl in Hsb as (e & ? & ?). exists e. rewrite elem_of_app. auto. }
    destruct (lo_cover _ _ Hlog vb (filter (fun s => s ∉ bl) l) s) as [?|(e & ? & ?)].
    + apply owl_after_elem. exists (s0 :: l). auto.
    + by apply list_elem_of_filter.
    + left. rewrite elem_of_cons. auto.
    + right. exists e. rewrite elem_of_app. auto.
  - intros e He. apply elem_of_app in He as [He|He].
    + apply (round_elem _ _ _ Hp) in He. apply taps_of_elem in He as [E Hne]; [|done].
      destruct (te_buckets e) as [|vb bs]; [done|].
      assert (vb ∈ buckets_for (te_server e) owl) as Hv by (rewrite <- E; apply list_elem_of_here).
      apply buckets_for_elem in Hv as (l & Hv). do 2 eexists. split; [exact Hv|].
      apply list_elem_of_here.
    + apply (lo_source _ _ Hlog) in He as (vb & l & Hin & Hs).
      apply owl_after_elem in Hin as (l0 & Hin & ->). exists vb, l0. split; [done|].
      apply list_elem_of_filter in Hs as [_ Hs]. destruct l0; [done|]. cbn in Hs.
      rewrite elem_of_cons. auto.
  - split; [|apply (lo_retap _ _ Hlog)]. intros e e' s He Hbe He' Hs.
    apply (lo_source _ _ Hlog) in He' as (vb & l & Hin & Hl).
    apply owl_after_elem in Hin as (l0 & _ & ->). apply list_elem_of_filter in Hl as [Hl _].
    apply Hl, Hbl. exists e. by rewrite Hs.
  - constructor; [by eapply round_is_disjoint | apply (lo_disjoint _ _ Hlog)].
Qed.

Lemma log_ok_nil owl : owl_empty owl = true -> log_ok owl [].
Proof.
  intros He. assert (Hn : forall vb l, (vb, l) ∈ owl -> l = []).
  { intros vb l Hin. unfold owl_empty in He. rewrite forallb_forall in He.
    apply list_elem_of_In, He in Hin. by apply bool_decide_eq_true in Hin. }
  split; cbn; [| | |done|constructor].
  - intros. apply sublist_nil_l.
  - intros vb l s Hin Hs. rewrite (Hn _ _ Hin) in Hs. by apply elem_of_nil in Hs.
  - intros e H. by apply elem_of_nil in H.
Qed.

Lemma unstreamed_shrinks_trans un un1 un2 log1 log2 :
  unstreamed_shrinks un un1 log1 -> unstreamed_shrinks un1 un2 log2 ->
  unstreamed_shrinks un un2 (log1 ++ log2).
Proof.
  intros H1 H2 vb. rewrite (H2 vb), (H1 vb). setoid_rewrite elem_of_app. split.
  - intros [[? Hn1] Hn2]. split; [done|]. intros (e & [?|?] & ?); eauto.
  - intros [? Hn]. repeat split; [done| |]; intros (e & ? & ?); apply Hn; eauto.
Qed.

Lemma unstreamed_shrinks_nil un : unstreamed_shrinks un un [].
Proof.
  intros vb. split; [|by intros [? _]]. intros Hvb. split; [done|].
  intros (e & He & _). by apply elem_of_nil in He.
Qed.

Section process_loop_facts.
Context {W : Type}.
Context (pthread_create : W -> server -> list Z -> W * bool).
Context (pthread_join : W -> server -> list Z -> W * join_result).

Lemma process_loop_spec fuel : forall w owl un,
  owl_ok owl -> (owl_depth owl <= fuel)%nat ->
  exists w' owl' un' log,
    process_loop pthread_create pthread_join fuel w owl un = Val (w', owl', un', log) /\
    (length log <= owl_depth owl)%nat /\ unstreamed_shrinks un un' (mjoin log) /\
    log_ok owl log.
Proof.
  induction fuel as [|fuel IH]; intros w owl un Hok Hd; cbn [process_loop];
    destruct (owl_empty owl) eqn:He.
  1,3: exists w, owl, un, []; split; [done|]; split; [cbn; lia|]; split; [|by apply log_ok_nil];
    by apply unstreamed_shrinks_nil.
  { apply not_true_iff_false in He. exfalso. apply He, owl_empty_depth. lia. }
  pose proof (process_round_spec pthread_create pthread_join w owl un) as Hr.
  destruct (process_round _ _ w owl un) as [[[w1 owl1] un1] round].
  destruct Hr as (Hp & (bl & -> & Hb) & Hu).
  assert (owl_depth owl <> O) by (intros E; apply owl_empty_depth in E; congruence).
  pose proof (owl_depth_without bl (owl_tails owl)) as Hd1. rewrite owl_depth_tails in Hd1.
  destruct (IH w1 (owl_without bl (owl_tails owl)) un1) as (w2 & owl2 & un2 & log & -> & Hl & Hu2 & Hlog).
  { by apply owl_without_ok, owl_tails_ok. }
  { lia. }
  exists w2, owl2, un2, (round :: log). split; [done|]. split; [cbn; lia|]. split.
  - by apply (unstreamed_shrinks_trans _ un1).
  - by eapply log_ok_cons.
Qed.
End process_loop_facts.

(** ** Invariants of a resync

    What holds of the world between the steps of process_worklist, given an
    invariant [Inv] that creating and joining threads keep, a preorder [R] along
    which the world moves, and what a created thread ([Started]) and the outcome
    of a tap ([Outcome]) establish for good. *)
Section process_invariant.
Context {W : Type}.
Context (pthread_create : W -> server -> list Z -> W * bool).
Context (pthread_join : W -> server -> list Z -> W * join_result).
Context (Inv : W -> Prop) (R : W -> W -> Prop) `{!PreOrder R}.
Context (Started : server -> list Z -> W -> Prop) (Outcome : tap_event -> W -> Prop).
Context (Hcreate : forall w s bs, Inv w -> bs <> [] ->
  let '(w', rc) := pthread_create w s bs in
  Inv w' /\ R w w' /\ if rc then Started s bs w' else Outcome (mkTapEvent s bs Not_started) w').
Context (Hjoin : forall w s bs, Inv w -> Started s bs w ->
  let '(w', j) := pthread_join w s bs in
  Inv w' /\ R w w' /\ Outcome (mkTapEvent s bs (join_tap_result j)) w').
Context (Hstarted : forall s bs w w', R w w' -> Started s bs w -> Started s bs w').
Context (Houtcome : forall e w w', R w w' -> Outcome e w -> Outcome e w').

Definition log_outcome (log : list tap_event) (w : W) : Prop := Forall (fun e => Outcome e w) log.

Lemma log_outcome_mono log w w' : R w w' -> log_outcome log w -> log_outcome log w'.
Proof using Houtcome.
  intros HR Hl. eapply Forall_impl; [exact Hl|]. intros e. by apply Houtcome.
Qed.

Lemma perform_taps_inv taps : forall w,
  Inv w -> Forall (fun t => t.2 <> []) taps ->
  let '(w', handles, log) := perform_taps pthread_create w taps in
  Inv w' /\ R w w' /\ Forall (fun h => Started h.1 h.2 w') handles /\ log_outcome log w'.
Proof using All.
  induction taps as [|[s bs] taps IH]; intros w Hw Ht; cbn.
  { split; [done|]. split; [reflexivity|]. split; constructor. }
  apply Forall_cons in Ht as [Hbs Ht]. pose proof (Hcreate w s bs Hw Hbs) as Hc.
  destruct (pthread_create w s bs) as [w1 rc]. destruct Hc as (Hw1 & HR1 & Hs1).
  specialize (IH w1 Hw1 Ht). destruct (perform_taps pthread_create w1 taps) as [[w2 handles] log].
  destruct IH as (Hw2 & HR2 & Hh & Hl). assert (R w w2) by (by etrans).
  destruct rc; (split; [done|]; split; [done|]).
  - split; [|done]. constructor; [|done]. cbn. eauto.
  - split; [done|]. constructor; [by apply (Houtcome _ w1)|done].
Qed.

Lemma complete_taps_inv taps handles : forall w owl un,
  Inv w -> Forall (fun h => Started h.1 h.2 w) handles ->
  let '(w', _, _, log) := complete_taps pthread_join w taps handles owl un in
  Inv w' /\ R w w' /\ log_outcome log w'.
Proof using Hjoin Hstarted Houtcome PreOrder0.
  induction handles as [|[s bs] handles IH]; intros w owl un Hw Hh; cbn.
  { split; [done|]. split; [reflexivity|]. constructor. }
  apply Forall_cons in Hh as [Hs Hh]. cbn in Hs. pose proof (Hjoin w s bs Hw Hs) as Hj.
  destruct (pthread_join w s bs) as [w1 j]. destruct Hj as (Hw1 & HR1 & Hs1).
  destruct (complete_single_tap s j) as [success name].
  assert (Hh1 : Forall (fun h => Started h.1 h.2 w1) handles).
  { eapply Forall_impl; [exact Hh|]. intros h. by apply Hstarted. }
  destruct (if success then _ else _) as [owl1 un1]. specialize (IH w1 owl1 un1 Hw1 Hh1).
  destruct (complete_taps pthread_join w1 taps handles owl1 un1) as [[[w2 owl2] un2] log].
  destruct IH as (Hw2 & HR2 & Hl). split; [done|]. split; [by etrans|]. constructor; [|done].
  by apply (Houtcome _ w1).
Qed.

Lemma process_loop_inv fuel : forall w owl un w' owl' un' log,
  Inv w -> owl_ok owl ->
  process_loop pthread_create pthread_join fuel w owl un = Val (w', owl', un', log) ->
  Inv w' /\ R w w' /\ log_outcome (mjoin log) w'.
Proof using All.
  induction fuel as [|fuel IH]; intros w owl un w' owl' un' log Hw Hok; cbn [process_loop];
    destruct (owl_empty owl).
  1,3: intros [= <- <- <- <-]; split; [done|]; split; [reflexivity|]; constructor.
  { done. }
  pose proof (process_round_spec pthread_create pthread_join w owl un) as Hr.
  destruct (process_round _ _ w owl un) as [[[w1 owl1] un1] round] eqn:Er.
  destruct Hr as (_ & (bl & -> & _) & _).
  assert (Inv w1 /\ R w w1 /\ log_outcome round w1) as (Hw1 & HR1 & Hl1).
  { unfold process_round in Er. pose proof (taps_of_elem owl) as Ht. unfold taps_of in Ht.
    destruct (calculate_taps owl) as [taps owl0]. cbn in Ht.
    pose proof (perform_taps_inv taps w Hw) as Hp.
    destruct (perform_taps pthread_create w taps) as [[wa handles] log1].
    destruct Hp as (Hwa & HRa & Hh & Hla).
    { apply Forall_forall. intros [s bs] Hin. by apply Ht in Hin as [_ ?]. }
    pose proof (complete_taps_inv taps handles wa owl0 un Hwa Hh) as Hc.
    destruct (complete_taps pthread_join wa taps handles owl0 un) as [[[wb owlb] unb] log2].
    destruct Hc as (Hwb & HRb & Hlb). injection Er as <- _ _ <-. split; [done|].
    split; [by etrans|]. apply Forall_app. split; [by eapply log_outcome_mono | done]. }
  intros Hrun. apply bind_Val_inv in Hrun as ([[[w2 owl2] un2] log2] & E & [= <- <- <- <-]).
  apply IH in E as (Hw2 & HR2 & Hl2); [|done|by apply owl_without_ok, owl_tails_ok].
  split; [done|]. split; [by etrans|].
  apply Forall_app. split; [by eapply log_outcome_mono | done].
Qed.
End process_invariant.

(** ** Lemmas on calculate_worklist *)

(** Where a vbucket is streamed from, given its current replicas. *)
Definition source_list (full_resync : bool) (self : server) (replicas : list server) : list server :=
  if full_resync then erase_first self replicas else replicas.

(** What calculate_worklist decides for one vbucket that [owners] will own and
    [current] own now: nothing to do, or the replicas to stream it from. *)
Definition worklist_entry (full_resync : bool) (self : server) (owners current : list server) :
    option (list server) :=
  let sources := source_list full_resync self current in
  if bool_decide (self ∈ owners /\ sources <> [] /\ self ∉ sources) then Some sources else None.

Lemma worklist_step_find full self cur owl vb owners :
  in_u16 vb ->
  let '(cur', owl') := worklist_step full self (cur, owl) (vb, owners) in
  (forall k, default [] (map_find k cur') = default [] (map_find k cur)) /\
  owl' = match worklist_entry full self owners (default [] (map_find vb cur)) with
         | Some l => map_set vb l owl
         | None => owl
         end.
Proof.
  intros Hvb. cbn. unfold is_in_vector, worklist_entry, source_list.
  pose proof (map_index_value [] vb cur) as Hv.
  pose proof (fun k => map_index_find [] vb k cur) as Hf.
  destruct (map_index [] vb cur) as [src cur']. cbn in Hv, Hf. subst src.
  rewrite u16_small by done. set (src := if full then _ else _).
  repeat case_bool_decide; cbn; try (split; [done|]); tauto || naive_solver.
Qed.

Lemma worklist_fold full self items : forall cur owl,
  key_sorted items -> Forall in_u16 (map_keys items) -> owl_ok owl ->
  let '(_, owl') := foldl (worklist_step full self) (cur, owl) items in
  owl_ok owl' /\
  forall vb, map_find vb owl' =
    match map_find vb items ≫= fun owners =>
            worklist_entry full self owners (default [] (map_find vb cur)) with
    | Some l => Some l
    | None => map_find vb owl
    end.
Proof.
  induction items as [|[k owners] items IH]; intros cur owl Hs Hk Hok; [done|].
  pose proof (fun vb => map_find_cons vb k owners items Hs) as Hc.
  apply key_sorted_cons in Hs as [Hs Hlt]. apply Forall_cons in Hk as [Hk0 Hk]. cbn in Hk0.
  cbn [foldl]. pose proof (worklist_step_find full self cur owl k owners Hk0) as Hst.
  destruct (worklist_step full self (cur, owl) (k, owners)) as [cur1 owl1].
  destruct Hst as [Hcur Howl].
  assert (Hok1 : owl_ok owl1).
  { subst owl1. destruct (worklist_entry _ _ _ _); [|done]. destruct Hok as [Ho1 Ho2].
    split; [by apply map_set_sorted|]. apply Forall_forall. intros x Hx.
    apply map_keys_set in Hx as [->|Hx]; [done | |done]. by apply (proj1 (Forall_forall _ _) Ho2). }
  specialize (IH cur1 owl1 Hs Hk Hok1).
  destruct (foldl (worklist_step full self) (cur1, owl1) items) as [cur2 owl2].
  destruct IH as [Hok2 Hf]. split; [done|]. intros vb. rewrite Hf, Hcur, Hc. subst owl1.
  case_decide as E; [subst vb|].
  - rewrite (map_find_not_key k items).
    + cbn. destruct (worklist_entry _ _ _ _); [apply map_find_set_eq | done].
    + intros Hin. apply (proj1 (Forall_forall _ _) Hlt) in Hin. by rewrite key_lt_irrefl in Hin.
  - destruct (map_find vb items ≫= _); [done|].
    destruct (worklist_entry _ _ _ _); [by rewrite map_find_set_ne | done].
Qed.

(** ** The resync progress total *)

Definition owl_entries (owl : OutstandingWorkList) : nat :=
  sum_list_with (fun it => length it.2) owl.
Definition tap_entries (taps : list (server * list Z)) : nat :=
  sum_list_with (fun t => length t.2) taps.
(** The vbuckets of the taps that succeeded, counted per tap: what the tap
    threads add to the resynced bucket count. *)
Definition streamed_entries (evs : list tap_event) : nat :=
  tap_entries (map te_pair (filter (fun e => te_result e = Tap_succeeded) evs)).

Lemma map_set_entries s bs (tl : TapList) :
  (tap_entries (map_set s bs tl) + length (default [] (map_find s tl)) =
   length bs + tap_entries tl)%nat.
Proof.
  unfold tap_entries. induction tl as [|[s0 b0] tl IH]; [cbn; lia|].
  cbn [map_set map_find]. destruct (key_lt s s0), (key_lt s0 s);
    cbn [sum_list_with snd from_option id length] in *; unfold id in *; lia.
Qed.

Lemma taps_entries owl : forall (tl : TapList) acc,
  (tap_entries (foldl taps_step (tl, acc) owl).1 + owl_entries (owl_tails owl) =
   tap_entries tl + owl_entries owl)%nat.
Proof.
  unfold owl_entries, owl_tails. induction owl as [|[vb l] owl IH]; intros tl acc; [done|].
  cbn [foldl taps_step]. destruct l as [|r l]; [cbn; by rewrite IH|].
  unfold map_index. destruct (map_find r tl) as [bs|] eqn:E; cbn [map sum_list_with tail length fst snd].
  - pose proof (map_set_entries r (bs ++ [u16 vb]) tl) as Hm. rewrite E, length_app in Hm.
    cbn [from_option length] in Hm. unfold id in Hm.
    specialize (IH (map_set r (bs ++ [u16 vb]) tl) (acc ++ [(vb, l)])).
    unfold stdmap in *. lia.
  - pose proof (map_set_entries r [] tl) as H0. rewrite E in H0.
    cbn [from_option length] in H0.
    pose proof (map_set_entries r ([] ++ [u16 vb]) (map_set r [] tl)) as Hm.
    rewrite map_find_set_eq in Hm. cbn [app from_option length] in Hm. unfold id in Hm. cbn [length] in Hm.
    specialize (IH (map_set r ([] ++ [u16 vb]) (map_set r [] tl)) (acc ++ [(vb, l)])).
    cbn [app] in IH |- *. unfold stdmap in *. lia.
Qed.

Lemma owl_without_entries bl owl : (owl_entries (owl_without bl owl) <= owl_entries owl)%nat.
Proof.
  unfold owl_entries, owl_without. induction owl as [|[vb l] owl IH]; cbn; [lia|].
  pose proof (length_filter (fun s => s ∉ bl) l). lia.
Qed.

Lemma sum_list_perm {A} (f : A -> nat) (l l' : list A) :
  l ≡ₚ l' -> sum_list_with f l = sum_list_with f l'.
Proof. induction 1; cbn; lia. Qed.

Lemma streamed_entries_app evs evs' :
  streamed_entries (evs ++ evs') = (streamed_entries evs + streamed_entries evs')%nat.
Proof.
  unfold streamed_entries, tap_entries. by rewrite filter_app, map_app, sum_list_with_app.
Qed.

Lemma streamed_entries_le evs : (streamed_entries evs <= tap_entries (map te_pair evs))%nat.
Proof.
  unfold streamed_entries, tap_entries. induction evs as [|e evs IH]; [cbn; lia|].
  rewrite filter_cons. case_decide; cbn; lia.
Qed.

Lemma tap_entries_elem (t : server * list Z) taps :
  t ∈ taps -> (length t.2 <= tap_entries taps)%nat.
Proof. unfold tap_entries. induction 1; cbn; lia. Qed.

(** What a run adds to a count that only joining a tap advances: at most the
    tap's vbuckets, and exactly those when it is joined as successful. *)
Section process_count.
Context {W : Type} (pc : W -> server -> list Z -> W * bool).
Context (pj : W -> server -> list Z -> W * join_result).
(** [counted w k w']: from [w] to [w'] the count went up by [k]. *)
Context (counted : W -> nat -> W -> Prop).
Context (Hrefl : forall w, counted w 0 w).
Context (Htrans : forall w1 w2 w3 k k', counted w1 k w2 -> counted w2 k' w3 -> counted w1 (k + k') w3).
Context (Hcreate : forall w s bs, counted w 0 (pc w s bs).1).
Context (Hjoin : forall w s bs, Z.of_nat (length bs) < 2 ^ 31 ->
  exists k, counted w k (pj w s bs).1 /\ (k <= length bs)%nat /\
    ((pj w s bs).2 = Joined true -> k = length bs)).

Lemma perform_taps_count taps : forall w,
  let '(w', handles, log) := perform_taps pc w taps in
  counted w 0 w' /\ streamed_entries log = O /\ (tap_entries handles <= tap_entries taps)%nat.
Proof using Hrefl Htrans Hcreate.
  induction taps as [|[s bs] taps IH]; intros w; cbn [perform_taps]; [done|].
  pose proof (Hcreate w s bs) as Hc. destruct (pc w s bs) as [w1 rc]. specialize (IH w1).
  destruct (perform_taps pc w1 taps) as [[w2 handles] log]. destruct IH as (H2 & Hl & Hh).
  pose proof (Htrans _ _ _ _ _ Hc H2). unfold tap_entries, streamed_entries in *.
  destruct rc; (split; [done|]); cbn; split; try done; lia.
Qed.

Lemma complete_taps_count taps handles : forall w owl un,
  Z.of_nat (tap_entries handles) < 2 ^ 31 ->
  let '(w', _, _, log) := complete_taps pj w taps handles owl un in
  exists k, counted w k w' /\ (streamed_entries log <= k <= tap_entries handles)%nat.
Proof using Hrefl Htrans Hjoin.
  induction handles as [|[s bs] handles IH]; intros w owl un Hs; cbn [complete_taps].
  { exists O. split; [done|]. cbn. lia. }
  change (tap_entries ((s, bs) :: handles)) with (length bs + tap_entries handles)%nat in *.
  destruct (Hjoin w s bs ltac:(lia)) as (k & Hk & Hle & Hex). destruct (pj w s bs) as [w1 j].
  destruct (complete_single_tap s j) as [success name].
  destruct (if success then _ else _) as [owl1 un1]. specialize (IH w1 owl1 un1 ltac:(lia)).
  destruct (complete_taps pj w1 taps handles owl1 un1) as [[[w2 owl2] un2] log].
  destruct IH as (k' & Hk' & Hb). exists (k + k')%nat. split; [by eapply Htrans|]. cbn in Hex.
  unfold streamed_entries, tap_entries in *. rewrite filter_cons. case_decide as E; cbn; [|lia].
  rewrite Hex; [lia|]. by destruct j as [|[]].
Qed.

Lemma process_loop_count fuel : forall w owl un w' owl' un' log,
  Z.of_nat (owl_entries owl) < 2 ^ 31 ->
  process_loop pc pj fuel w owl un = Val (w', owl', un', log) ->
  exists k, counted w k w' /\ (streamed_entries (mjoin log) <= k <= owl_entries owl)%nat.
Proof using All.
  induction fuel as [|fuel IH]; intros w owl un w' owl' un' log Hs; cbn [process_loop];
    destruct (owl_empty owl).
  1,3: intros [= <- <- <- <-]; exists O; split; [done|]; cbn; lia.
  { done. }
  pose proof (process_round_spec pc pj w owl un) as Hr.
  destruct (process_round pc pj w owl un) as [[[w1 owl1] un1] round] eqn:Er.
  destruct Hr as (_ & (bl & -> & _) & _). intros Hl.
  apply bind_Val_inv in Hl as ([[[w2 owl2] un2] log2] & Hl & [= <- <- <- <-]).
  pose proof (taps_entries owl [] []) as He. change (tap_entries []) with O in He.
  pose proof (owl_without_entries bl (owl_tails owl)) as Hw.
  change (foldl taps_step ([], []) owl) with (calculate_taps owl) in He.
  apply IH in Hl as (k2 & Hk2 & Hb2); [|unfold stdmap in *; lia].
  change (mjoin (round :: log2)) with (round ++ mjoin log2). rewrite streamed_entries_app.
  unfold process_round in Er. destruct (calculate_taps owl) as [taps owl0]. cbn [fst] in He.
  pose proof (perform_taps_count taps w) as Hp.
  destruct (perform_taps pc w taps) as [[wa handles] log1]. destruct Hp as (Ha & Hl1 & Hh).
  pose proof (complete_taps_count taps handles wa owl0 un ltac:(unfold stdmap in *; lia)) as Hc.
  destruct (complete_taps pj wa taps handles owl0 un) as [[[wb owlb] unb] log3].
  destruct Hc as (k1 & Hk1 & Hb1). injection Er as <- _ _ <-.
  exists (k1 + k2)%nat. split; [eapply Htrans; [|done]; by apply (Htrans _ _ _ 0 k1 Ha)|].
  rewrite streamed_entries_app, Hl1. unfold stdmap in *. lia.
Qed.
End process_count.

Lemma owl_total_fold owl : forall acc,
  0 <= acc -> acc + Z.of_nat (owl_entries owl) < 2 ^ 31 ->
  foldl (fun buckets it => i32 (buckets + Z.of_nat (length it.2))) acc owl =
  acc + Z.of_nat (owl_entries owl).
Proof.
  unfold owl_entries. induction owl as [|[vb l] owl IH]; intros acc Ha Hb; cbn in *; [lia|].
  rewrite i32_small by (unfold in_i32; lia). rewrite IH; lia.
Qed.

(** ** Properties *)

(** What is relied on of a MemcachedStoreView: its two maps are std::maps whose
    keys are vbuckets (it numbers them from 0 to 127). *)
Definition view_ok (v : view) : Prop := owl_ok (v_current_replicas v) /\ owl_ok (v_new_replicas v).

(** The replicas each vbucket is to have. *)
Definition target_replicas (v : view) : stdmap Z (list (list byte)) :=
  match v_new_replicas v with [] => v_current_replicas v | nr => nr end.

Lemma calculate_worklist_find v self full :
  view_ok v ->
  owl_ok (calculate_worklist v self full) /\
  forall vb, map_find vb (calculate_worklist v self full) =
    map_find vb (target_replicas v) ≫= fun owners =>
      worklist_entry full self owners (default [] (map_find vb (v_current_replicas v))).
Proof.
  intros [Hc Hn]. assert (Ht : owl_ok (target_replicas v)).
  { unfold target_replicas. by destruct (v_new_replicas v). }
  unfold calculate_worklist. fold (target_replicas v).
  pose proof (worklist_fold full self (target_replicas v) (v_current_replicas v) []
    (proj1 Ht) (proj2 Ht) ltac:(split; constructor)) as Hf.
  destruct (foldl _ _ _) as [cur owl]. destruct Hf as [Hok Hf]. split; [done|].
  intros vb. cbn. rewrite Hf. by destruct (map_find vb (target_replicas v) ≫= _).
Qed.

(** Failing servers, by name, as an environment for [process_worklist]: threads
    always start, and the tap of a listed server fails. *)
Definition start_always (w : list server) (_ : server) (_ : list Z) : list server * bool := (w, true).
Definition join_failing (w : list server) (s : server) (_ : list Z) : list server * join_result :=
  (w, Joined (negb (is_in_vector w s))).

Definition srv_a : server := lit "10.0.0.1:11211".
Definition srv_b : server := lit "10.0.0.2:11211".
Definition srv_c : server := lit "10.0.0.3:11211".
Definition example_view : view :=
  mkView [(0, [srv_a; srv_b]); (1, [srv_b; srv_a]); (2, [srv_b; srv_c])]
         [(0, [srv_a; srv_c]); (1, [srv_b; srv_a]); (2, [srv_c; srv_b])].
Definition example_owl : OutstandingWorkList :=
  [(0, [srv_a; srv_b]); (1, [srv_b; srv_a]); (2, [srv_b])].

Ltac decide_owl_ok :=
  split; [repeat (constructor || (cbn; done)) | apply (bool_decide_unpack _); vm_compute; exact I].

#[export] Instance owl_keys_dec (l : list Z) : Decision (Forall in_u16 l).
Proof. unfold in_u16. apply _. Defined.

Lemma example_owl_ok : owl_ok example_owl.
Proof. decide_owl_ok. Defined.
Lemma example_view_ok : view_ok example_view.
Proof. split; decide_owl_ok. Defined.

(** C14: calculate_worklist lists exactly the vbuckets this node is to own and
    does not have, each with its current replicas in order (less this node in a
    full resync), and only when there is a replica to stream from. *)
Theorem calculate_worklist_correct (v : view) (self : server) (full_resync : bool)
    (vb : Z) (l : list server) (Hv : view_ok v) :
  owl_ok (calculate_worklist v self full_resync) /\
  (map_find vb (calculate_worklist v self full_resync) = Some l <->
   (exists owners, map_find vb (target_replicas v) = Some owners /\ self ∈ owners) /\
   l = source_list full_resync self (default [] (map_find vb (v_current_replicas v))) /\
   l <> [] /\ self ∉ l).
Proof.
  destruct (calculate_worklist_find v self full_resync Hv) as [Hok Hf]. split; [done|].
  rewrite Hf. destruct (map_find vb (target_replicas v)) as [owners|]; cbn.
  - unfold worklist_entry. case_bool_decide; naive_solver.
  - naive_solver.
Qed.

(** In a resize srv_c takes over vbucket 0; it has vbucket 2 already. *)
Lemma calculate_worklist_correct_witness :
  calculate_worklist example_view srv_c false = [(0, [srv_a; srv_b])] /\
  owl_ok (calculate_worklist example_view srv_c false).
Proof.
  split; [vm_compute; reflexivity|].
  exact (proj1 (calculate_worklist_correct example_view srv_c false 0 [srv_a; srv_b] example_view_ok)).
Defined.

(** C35: calculate_taps taps each server for exactly the vbuckets whose next
    replica it is, in order, and takes that replica off the work list. *)
Theorem calculate_taps_correct (owl : OutstandingWorkList) (Hok : owl_ok owl) :
  (calculate_taps owl).2 = owl_tails owl /\
  key_sorted (calculate_taps owl).1 /\
  forall s bs, (s, bs) ∈ (calculate_taps owl).1 <-> bs = buckets_for s owl /\ bs <> [].
Proof.
  destruct (calculate_taps_spec owl) as (Ho & Hs & _ & _). split; [done|]. split; [done|].
  intros s bs. by apply taps_of_elem.
Qed.

Lemma calculate_taps_correct_witness :
  (srv_b, [1; 2]) ∈ (calculate_taps example_owl).1.
Proof.
  apply (proj2 (proj2 (calculate_taps_correct example_owl example_owl_ok)) srv_b [1; 2]).
  split; [vm_compute; reflexivity | discriminate].
Defined.

(** C13: process_worklist terminates however the taps fare, after at most as
    many rounds as the longest replica list, and the vbuckets it reports as
    not streamed are exactly those no tap streamed successfully. *)
Theorem process_worklist_terminates {W : Type}
    (pthread_create : W -> server -> list Z -> W * bool)
    (pthread_join : W -> server -> list Z -> W * join_result)
    (w : W) (owl : OutstandingWorkList) (Hok : owl_ok owl) :
  exists w' unstreamed log,
    process_worklist pthread_create pthread_join w owl = Val (w', unstreamed, log) /\
    (length log <= owl_depth owl)%nat /\
    forall vb, vb ∈ unstreamed <->
      vb ∈ map_keys owl /\ ~ exists e, e ∈ mjoin log /\ streamed_by vb e.
Proof.
  destruct (process_loop_spec pthread_create pthread_join (owl_depth owl) w owl (map_keys owl) Hok)
    as (w' & owl' & un & log & E & Hl & Hu & _); [done|].
  exists w', un, log. unfold process_worklist. by rewrite E.
Qed.

(** With srv_b down, vbucket 2 (which only srv_b has) is reported. *)
Lemma process_worklist_terminates_witness :
  owl_ok example_owl /\
  exists w' unstreamed log,
    process_worklist start_always join_failing [srv_b] example_owl = Val (w', unstreamed, log) /\
    (length log <= 2)%nat /\ 2 ∈ unstreamed.
Proof.
  split; [exact example_owl_ok|].
  destruct (process_worklist_terminates start_always join_failing [srv_b] example_owl
              example_owl_ok) as (w' & un & log & E & Hl & Hu).
  exists w', un, log. split; [exact E|]. split; [exact Hl|].
  vm_compute in E. injection E as <- <- <-. apply list_elem_of_here.
Defined.

(** C4: each vbucket is streamed from its replicas one after another, in the
    order of its replica list, skipping only blacklisted servers; in one round
    no vbucket is streamed from two servers; a server whose tap failed is never
    tapped again. *)
Theorem process_worklist_order {W : Type}
    (pthread_create : W -> server -> list Z -> W * bool)
    (pthread_join : W -> server -> list Z -> W * join_result)
    (w w' : W) (owl : OutstandingWorkList) (unstreamed : list Z) (log : list (list tap_event))
    (Hok : owl_ok owl)
    (Hrun : process_worklist pthread_create pthread_join w owl = Val (w', unstreamed, log)) :
  (forall vb l, (vb, l) ∈ owl -> tapped_from vb (mjoin log) `sublist_of` l) /\
  (forall vb l s, (vb, l) ∈ owl -> s ∈ l ->
     s ∈ tapped_from vb (mjoin log) \/ exists e, e ∈ mjoin log /\ blacklisted e = Some s) /\
  Forall round_disjoint log /\ never_retapped log.
Proof.
  destruct (process_loop_spec pthread_create pthread_join (owl_depth owl) w owl (map_keys owl) Hok)
    as (w1 & owl1 & un1 & log1 & E & _ & _ & Hlog); [done|].
  unfold process_worklist in Hrun. rewrite E in Hrun. injection Hrun as <- <- <-.
  split; [apply Hlog|]. split; [apply Hlog|]. split; apply Hlog.
Qed.

Definition example_run : list (list tap_event) :=
  match process_worklist start_always join_failing [srv_b] example_owl with
  | Val (_, _, log) => log
  | Fail _ => []
  end.

Lemma process_worklist_order_witness :
  tapped_from 1 (mjoin example_run) `sublist_of` [srv_b; srv_a] /\
  tapped_from 1 (mjoin example_run) = [srv_b; srv_a].
Proof.
  split; [|vm_compute; reflexivity].
  assert (E : process_worklist start_always join_failing [srv_b] example_owl =
              Val ([srv_b], [2], example_run)) by (vm_compute; reflexivity).
  apply (proj1 (process_worklist_order _ _ _ _ _ _ _ example_owl_ok E)).
  repeat constructor.
Defined.

(** C31: a resync never taps this node itself: every server tapped for the work
    list of a view is another node, and a current replica of some vbucket this
    node is to own. *)
Theorem resync_taps_only_peers {W : Type}
    (pthread_create : W -> server -> list Z -> W * bool)
    (pthread_join : W -> server -> list Z -> W * join_result)
    (w w' : W) (v : view) (self : server) (full_resync : bool)
    (unstreamed : list Z) (log : list (list tap_event)) (e : tap_event)
    (Hv : view_ok v)
    (Hrun : process_worklist pthread_create pthread_join w (calculate_worklist v self full_resync) =
            Val (w', unstreamed, log))
    (He : e ∈ mjoin log) :
  te_server e <> self /\
  exists vb owners, map_find vb (target_replicas v) = Some owners /\ self ∈ owners /\
    te_server e ∈ source_list full_resync self (default [] (map_find vb (v_current_replicas v))).
Proof.
  destruct (calculate_worklist_find v self full_resync Hv) as [Hok Hf].
  set (owl := calculate_worklist v self full_resync) in *.
  destruct (process_loop_spec pthread_create pthread_join (owl_depth owl) w owl (map_keys owl) Hok)
    as (w1 & owl1 & un1 & log1 & E & _ & _ & Hlog); [done|].
  unfold process_worklist in Hrun. rewrite E in Hrun. injection Hrun as <- <- <-.
  destruct (lo_source _ _ Hlog e He) as (vb & l & Hin & Hl).
  apply (map_find_elem vb l owl (proj1 Hok)) in Hin. rewrite Hf in Hin.
  destruct (map_find vb (target_replicas v)) as [owners|] eqn:Et; [|done]. cbn in Hin.
  unfold worklist_entry in Hin. case_bool_decide as Hb; [|done]. injection Hin as <-.
  destruct Hb as (Ho & _ & Hs). split; [intros Heq; rewrite Heq in Hl; done|]. eauto.
Qed.

Lemma resync_taps_only_peers_witness :
  exists log, process_worklist start_always join_failing [] (calculate_worklist example_view srv_c false) =
    Val ([], [], log) /\ forall e, e ∈ mjoin log -> te_server e <> srv_c.
Proof.
  eexists. split; [vm_compute; reflexivity|]. intros e He.
  exact (proj1 (resync_taps_only_peers start_always join_failing [] [] example_view srv_c false [] _ e
    example_view_ok ltac:(vm_compute; reflexivity) He)).
Defined.
