(* ===== verification/LocalStore.v ===== *)
(** * The local memcached

    memcached itself is not part of the repository.  This file states, as a
    class, what Astaire relies on of it: the documented behaviour of the binary
    protocol's GET, SET, ADD, REPLACE and DELETE, including compare-and-swap
    (a record's CAS value changes whenever the record does).  Other clients may
    act between any two requests ([lm_foreign]).  A small reference server
    satisfies the laws, so that theorems proved against the class are not
    vacuous and can be run. *)

From Stdlib Require Import ZArith Lia Strings.Byte.
From stdpp Require Import prelude.
From S2P Require Import Prelude WireUtils Messages WireSpec Connection.

Open Scope Z_scope.

(** ** Requests and replies as packets *)

Record record : Type := mkRecord {
  r_value : bytes;
  r_flags : Z;
  r_cas : Z
}.

(** memcached's limits: keys of at most 250 bytes, items of at most 1MB. *)
Definition item_max : Z := 2 ^ 20.
Definition key_ok (key : bytes) : Prop := 0 < len key <= 250.
Definition value_ok (value : bytes) : Prop := len value <= item_max.
(** Flags hold a timestamp, milliseconds modulo 2^32, and are compared as
    int32_t.  The timestamps in use at one time span less than 2^31 (24 days)
    from [epoch], the oldest of them as an int32_t. *)
Definition stamp_ok (epoch flags : Z) : Prop :=
  in_u32 flags /\ epoch <= i32 flags < epoch + 2 ^ 31.
Definition record_ok (epoch : Z) (r : record) : Prop :=
  value_ok (r_value r) /\ stamp_ok epoch (r_flags r) /\ 0 < r_cas r < 2 ^ 64.

Definition get_packet (key : bytes) : packet :=
  mkPacket true (OpCode_value OpCode.GET) [] key [] 0 0 0.
Definition delete_packet (key : bytes) : packet :=
  mkPacket true (OpCode_value OpCode.DELETE) [] key [] 0 0 0.
Definition set_packet (op : OpCode) (key : bytes) (vb : Z) (value : bytes) (cas flags expiry : Z) :
    packet :=
  mkPacket true (OpCode_value op) (be_bytes 4 flags ++ be_bytes 4 expiry) key value vb 0 cas.

Lemma GetReq_new_wire key : to_wire (GetReq_new key 0) = Val (encode_packet (get_packet key)).
Proof. by rewrite to_wire_packet. Qed.
Lemma DeleteReq_new_wire key : to_wire (DeleteReq_new key 0) = Val (encode_packet (delete_packet key)).
Proof. by rewrite to_wire_packet. Qed.
Lemma set_extra flags expiry :
  write32 expiry (write32 flags []) = be_bytes 4 flags ++ be_bytes 4 expiry.
Proof. by autorewrite with wire. Qed.

Lemma SetReq_new_wire key vb value flags expiry :
  to_wire (SetReq_new key vb value flags expiry) =
  Val (encode_packet (set_packet OpCode.SET key vb value 0 flags expiry)).
Proof. rewrite to_wire_packet. cbn -[encode_packet write32]. by rewrite set_extra. Qed.
Lemma AddReq_new_wire key vb value flags expiry :
  to_wire (AddReq_new key vb value flags expiry) =
  Val (encode_packet (set_packet OpCode.ADD key vb value 0 flags expiry)).
Proof. rewrite to_wire_packet. cbn -[encode_packet write32]. by rewrite set_extra. Qed.
Lemma ReplaceReq_new_wire key vb value cas flags expiry :
  to_wire (ReplaceReq_new key vb value cas flags expiry) =
  Val (encode_packet (set_packet OpCode.REPLACE key vb value cas flags expiry)).
Proof. rewrite to_wire_packet. cbn -[encode_packet write32]. by rewrite set_extra. Qed.

(** Does a store request take effect on a key that holds [old]? *)
Definition accepts (op : OpCode) (cas : Z) (old : option record) : bool :=
  match op, old with
  | OpCode.SET, None => cas =? 0
  | OpCode.SET, Some r => (cas =? 0) || (r_cas r =? cas)
  | OpCode.ADD, None => true
  | OpCode.REPLACE, Some r => (cas =? 0) || (r_cas r =? cas)
  | _, _ => false
  end.
Definition is_store_op (op : OpCode) : bool :=
  match op with OpCode.SET | OpCode.ADD | OpCode.REPLACE => true | _ => false end.

(** The reply to a GET. *)
Definition get_answer (r : option record) (p : packet) : Prop :=
  p_request p = false /\ p_op p = OpCode_value OpCode.GET /\ p_key p = [] /\
  match r with
  | Some r => p_vbs p = ResultCode_value ResultCode.NO_ERROR /\
      p_extra p = be_bytes 4 (r_flags r) /\ p_value p = r_value r /\ p_cas p = r_cas r
  | None => p_vbs p = ResultCode_value ResultCode.KEY_NOT_FOUND
  end.

(** [update s key v]: the map [s] with [key] changed to [v]. *)
Definition update (s : bytes -> option record) (key : bytes) (v : option record) :
    bytes -> option record :=
  fun k => if decide (k = key) then v else s k.

(** A peer that gets [req] answers with [p], cut into any chunks. *)
Definition replies {L} `{Peer L} (l : L) (req : packet) (l' : L) (p : packet) : Prop :=
  exists chunks, on_send l (encode_packet req) = Some (l', map R_data chunks) /\
    Forall (fun bs => bs <> []) chunks /\ mjoin chunks = encode_packet p /\ wf_packet p.

#[export] Instance record_eq_dec : EqDecision record.
Proof. solve_decision. Defined.

(** ** The interface *)

Class LocalMemcached (L : Type) `{Peer L} := {
  lm_store : L -> bytes -> option record;   (* the records it holds *)
  lm_epoch : Z;                             (* the oldest timestamp in use *)
  lm_foreign : L -> L;                      (* what others do before the next request *)
  lm_ok : nat -> L -> Prop                  (* fit to serve that many more requests *)
}.

Class LocalMemcachedLaws (L : Type) `{LocalMemcached L} : Prop := {
  lm_ok_weaken n l : lm_ok (S n) l -> lm_ok n l;
  lm_record_ok n l k r : lm_ok n l -> lm_store l k = Some r -> record_ok lm_epoch r;
  lm_foreign_record_ok n l k r : lm_ok (S n) l -> lm_store (lm_foreign l) k = Some r -> record_ok lm_epoch r;
  lm_foreign_cas n l k r r' :
    lm_ok (S n) l -> lm_store l k = Some r -> lm_store (lm_foreign l) k = Some r' ->
    r_cas r = r_cas r' -> r = r';
  lm_get n l key :
    lm_ok (S n) l -> key_ok key ->
    exists l' p, replies l (get_packet key) l' p /\ lm_ok n l' /\
      (forall k, lm_store l' k = lm_store (lm_foreign l) k) /\
      get_answer (lm_store (lm_foreign l) key) p;
  lm_set n l op key vb value cas flags expiry :
    lm_ok (S n) l -> key_ok key -> is_store_op op = true -> in_u16 vb -> value_ok value ->
    in_u64 cas -> stamp_ok lm_epoch flags -> in_u32 expiry ->
    exists l' p c, replies l (set_packet op key vb value cas flags expiry) l' p /\ lm_ok n l' /\
      p_request p = false /\ p_op p = OpCode_value op /\
      forall k, lm_store l' k =
        if accepts op cas (lm_store (lm_foreign l) key)
        then update (lm_store (lm_foreign l)) key (Some (mkRecord value flags c)) k
        else lm_store (lm_foreign l) k;
  lm_delete n l key :
    lm_ok (S n) l -> key_ok key ->
    exists l' p, replies l (delete_packet key) l' p /\ lm_ok n l' /\
      p_request p = false /\ p_op p = OpCode_value OpCode.DELETE /\
      forall k, lm_store l' k = update (lm_store (lm_foreign l)) key None k
}.

(** ** One request and its response on a connection *)

Section exchange.
Context {L : Type} `{Peer L}.
Implicit Types (c : Connection L).

(** Open, with nothing buffered or on its way. *)
Definition idle c : Prop := 0 <= c_sock c /\ c_buffer c = [] /\ c_in c = [].

Lemma exchange c m req l' p :
  idle c -> to_wire m = Val (encode_packet req) -> replies (c_peer c) req l' p ->
  exists c1 c2, send c m = Val (c1, true) /\
    recv c1 = Val (c2, Status.OK, Some (message_of_packet p)) /\
    idle c2 /\ c_peer c2 = l' /\ c_rcvtimeo c2 = c_rcvtimeo c.
Proof.
  intros (Hs & Hb & Hi) Hw (chunks & Hon & Hne & Hj & Hwf).
  assert (send c m = Val (mkConnection (c_address c) (c_sock c) [] (c_rcvtimeo c)
            (map R_data chunks) l', true)) as Es.
  { unfold send. destruct (Z.ltb_spec (c_sock c) 0); [lia|].
    rewrite Hw, bind_Val, Hon, Hb, Hi. done. }
  set (c1 := mkConnection _ _ _ _ _ _) in Es.
  destruct (recv_packet c1 p [] []) as (c2 & Hr & Hs2 & Hp2 & Ht2 & Hh2).
  - cbn. lia.
  - done.
  - exists chunks. split; [done|]. cbn. rewrite app_nil_r. split; [done|]. by rewrite Hj, app_nil_r.
  - rewrite app_nil_r, encode_packet_len. apply Hwf.
  - exists c1, c2. split; [done|]. split; [done|]. destruct Hh2 as (ch & Hne2 & Hin2 & Hb2).
    apply app_eq_nil in Hb2 as [Hb2 Hj2]. destruct ch as [|b ch].
    + split; [|done]. split; [rewrite Hs2; done|]. done.
    + apply Forall_cons in Hne2 as [Hne2 _]. by apply app_eq_nil in Hj2 as [-> _].
Qed.
End exchange.

(** ** A reference server *)

Record ref_server : Type := mkRefServer {
  rs_store : bytes -> option record;
  rs_next_cas : Z;
  rs_foreign : list (bytes * bytes * Z)   (* writes other clients will make: key, value, flags *)
}.

Definition rs_write (key value : bytes) (flags : Z) (s : ref_server) : ref_server :=
  mkRefServer (update (rs_store s) key (Some (mkRecord value flags (rs_next_cas s))))
    (rs_next_cas s + 1) (rs_foreign s).

(** One write of another client takes effect before each request. *)
Definition rs_foreign_step (s : ref_server) : ref_server :=
  match rs_foreign s with
  | [] => s
  | (k, v, f) :: q => mkRefServer (rs_store (rs_write k v f s)) (rs_next_cas s + 1) q
  end.

Definition rs_reply (op : Z) (status : Z) (extra value : bytes) (cas : Z) : list recv_result :=
  [R_data (encode_packet (mkPacket false op extra [] value status 0 cas))].

Definition rs_set (op : OpCode) (r : SetAddReplaceReq) (s : ref_server) :
    option (ref_server * list recv_result) :=
  let b := brq_base (sar_req r) in
  flags ← sar_flags r;
  if accepts op (bm_cas b) (rs_store s (bm_key b))
  then let s := rs_write (bm_key b) (sar_value r) flags s in
       Some (s, rs_reply (OpCode_value op) 0 [] [] (rs_next_cas s - 1))
  else Some (s, rs_reply (OpCode_value op) (ResultCode_value ResultCode.KEY_EXISTS) [] [] 0).

Definition rs_serve (s : ref_server) (m : message) : option (ref_server * list recv_result) :=
  match m with
  | M_GetReq r =>
      match rs_store s (bm_key (brq_base r)) with
      | Some rec => Some (s, rs_reply (OpCode_value OpCode.GET) 0 (be_bytes 4 (r_flags rec))
                               (r_value rec) (r_cas rec))
      | None => Some (s, rs_reply (OpCode_value OpCode.GET)
                           (ResultCode_value ResultCode.KEY_NOT_FOUND) [] (lit "Not found") 0)
      end
  | M_SetReq r => rs_set OpCode.SET r s
  | M_AddReq r => rs_set OpCode.ADD r s
  | M_ReplaceReq r => rs_set OpCode.REPLACE r s
  | M_DeleteReq r =>
      Some (mkRefServer (update (rs_store s) (bm_key (brq_base r)) None) (rs_next_cas s)
              (rs_foreign s), rs_reply (OpCode_value OpCode.DELETE) 0 [] [] 0)
  | _ => None
  end.

#[export] Instance ref_server_peer : Peer ref_server := fun s bin =>
  match from_wire bin with
  | Val (Some (m, [])) => rs_serve (rs_foreign_step s) m
  | _ => None
  end.

Section ref_laws.
(** The writes other clients may make. *)
Context (policy : bytes * bytes * Z -> Prop) (epoch : Z).

Definition foreign_ok (w : bytes * bytes * Z) : Prop :=
  value_ok w.1.2 /\ stamp_ok epoch w.2 /\ policy w.

(** Its stored CAS values are below the next one, with room for [n] requests
    and as many foreign writes. *)
Definition rs_ok (n : nat) (s : ref_server) : Prop :=
  (forall k r, rs_store s k = Some r -> record_ok epoch r /\ r_cas r < rs_next_cas s) /\
  0 < rs_next_cas s /\ rs_next_cas s + 2 * Z.of_nat n < 2 ^ 64 /\
  Forall foreign_ok (rs_foreign s).

Definition ref_memcached : LocalMemcached ref_server := {|
  lm_store := rs_store;
  lm_epoch := epoch;
  lm_foreign := rs_foreign_step;
  lm_ok := rs_ok
|}.

(** What the server sees of each request. *)
Lemma extra_words_set flags expiry :
  in_u32 flags -> in_u32 expiry ->
  extra_word (be_bytes 4 flags ++ be_bytes 4 expiry) 0 = Some flags /\
  extra_word (be_bytes 4 flags ++ be_bytes 4 expiry) 1 = Some expiry.
Proof.
  intros Hf He. split; [by apply extra_word_be|].
  rewrite extra_word_skip, <- (app_nil_r (be_bytes 4 expiry)). by apply extra_word_be.
Qed.

Lemma rs_receives s req :
  wf_packet req ->
  on_send s (encode_packet req) = rs_serve (rs_foreign_step s) (message_of_packet req).
Proof.
  intros Hwf. unfold on_send, ref_server_peer.
  pose proof (from_wire_packet req [] Hwf) as Hf. rewrite app_nil_r in Hf.
  rewrite Hf; [done|]. rewrite encode_packet_len. apply Hwf.
Qed.

Lemma rs_replies s req s' op status extra value cas :
  wf_packet req ->
  rs_serve (rs_foreign_step s) (message_of_packet req) = Some (s', rs_reply op status extra value cas) ->
  wf_packet (mkPacket false op extra [] value status 0 cas) ->
  replies s req s' (mkPacket false op extra [] value status 0 cas).
Proof.
  intros Hreq Hs Hwf. exists [encode_packet (mkPacket false op extra [] value status 0 cas)].
  rewrite rs_receives, Hs by done. split; [done|]. split; [repeat constructor; done|].
  split; [|done]. change (mjoin [?x]) with (x ++ []). apply app_nil_r.
Qed.

Lemma get_packet_wf key : key_ok key -> wf_packet (get_packet key).
Proof.
  unfold key_ok, wf_packet, get_packet, p_body, in_u8, in_u16, in_u32, in_u64, sizeof_MsgHdr. cbn.
  change (len []) with 0. lia.
Qed.
Lemma delete_packet_wf key : key_ok key -> wf_packet (delete_packet key).
Proof.
  unfold key_ok, wf_packet, delete_packet, p_body, in_u8, in_u16, in_u32, in_u64, sizeof_MsgHdr. cbn.
  change (len []) with 0. lia.
Qed.
Lemma set_packet_wf op key vb value cas flags expiry :
  is_store_op op = true -> key_ok key -> in_u16 vb -> value_ok value -> in_u64 cas ->
  wf_packet (set_packet op key vb value cas flags expiry).
Proof.
  unfold key_ok, value_ok, item_max, wf_packet, set_packet, p_body, in_u8, in_u16, in_u32, in_u64,
    sizeof_MsgHdr. intros Hop Hk Hvb Hv Hc. cbn [p_op p_key p_extra p_vbs p_opaque p_cas p_value].
  change (len (be_bytes 4 flags ++ be_bytes 4 expiry)) with 8. destruct op; cbn in *; try done; lia.
Qed.

Lemma rs_write_ok n key value flags s q :
  rs_ok (S n) s -> value_ok value -> stamp_ok epoch flags -> q `suffix_of` rs_foreign s ->
  let s' := mkRefServer (rs_store (rs_write key value flags s)) (rs_next_cas s + 1) q in
  (forall k r, rs_store s' k = Some r -> record_ok epoch r /\ r_cas r < rs_next_cas s') /\
  Forall foreign_ok q.
Proof.
  intros (Hr & H0 & Hn & Hf) Hv Hst [q0 Hq]. cbn. split.
  - intros k r. unfold update. case_decide.
    + intros [= <-]. split; [|cbn; lia]. split; [done|]. split; [done|]. cbn. lia.
    + intros Hk. apply Hr in Hk as [? ?]. split; [done|lia].
  - rewrite Hq in Hf. by apply Forall_app in Hf as [_ Hf].
Qed.

(** After the foreign step there is still room for one write. *)
Definition rs_ready (n : nat) (s : ref_server) : Prop :=
  (forall k r, rs_store s k = Some r -> record_ok epoch r /\ r_cas r < rs_next_cas s) /\
  0 < rs_next_cas s /\ rs_next_cas s + 1 + 2 * Z.of_nat n < 2 ^ 64 /\
  Forall foreign_ok (rs_foreign s).

Lemma rs_foreign_ready n s : rs_ok (S n) s -> rs_ready n (rs_foreign_step s).
Proof.
  intros Hok. pose proof Hok as (Hr & H0 & Hn & Hf). unfold rs_foreign_step, rs_ready.
  destruct (rs_foreign s) as [|[[k v] f] q] eqn:E.
  - rewrite E. repeat split; try done; try lia; by apply (Hr k).
  - apply Forall_cons in Hf as [(Hv & Hst & _) _].
    destruct (rs_write_ok n k v f s q Hok Hv Hst) as [Hr' Hf']; [rewrite E; by apply suffix_cons_r|].
    split; [done|]. cbn. repeat split; [lia|lia|done].
Qed.

Lemma rs_ready_ok n s : rs_ready n s -> rs_ok n s.
Proof. intros (Hr & H0 & Hn & Hf). split; [done|]. split; [done|]. split; [lia|done]. Qed.

Lemma reply_wf op status extra value cas :
  in_u8 op -> in_u16 status -> len extra <= 4 -> value_ok value -> in_u64 cas ->
  wf_packet (mkPacket false op extra [] value status 0 cas).
Proof.
  unfold wf_packet, value_ok, item_max, p_body, in_u8, in_u16, in_u32, in_u64, sizeof_MsgHdr. cbn.
  change (len []) with 0. lia.
Qed.

Lemma rs_get_law n s key :
  rs_ok (S n) s -> key_ok key ->
  exists s' p, replies s (get_packet key) s' p /\ rs_ok n s' /\
    (forall k, rs_store s' k = rs_store (rs_foreign_step s) k) /\
    get_answer (rs_store (rs_foreign_step s) key) p.
Proof.
  intros Hok Hk. pose proof (rs_foreign_ready n s Hok) as Hrdy.
  destruct (rs_store (rs_foreign_step s) key) as [r|] eqn:E.
  - destruct (proj1 Hrdy key r E) as [(Hv & Hf & Hc) _].
    exists (rs_foreign_step s), (mkPacket false (OpCode_value OpCode.GET) (be_bytes 4 (r_flags r)) []
      (r_value r) 0 0 (r_cas r)).
    split; [|split; [by apply rs_ready_ok|]; done].
    apply rs_replies; [by apply get_packet_wf | cbn; by rewrite E |].
    apply reply_wf; [done|done|done|done|]. unfold in_u64. lia.
  - exists (rs_foreign_step s), (mkPacket false (OpCode_value OpCode.GET) [] [] (lit "Not found")
      (ResultCode_value ResultCode.KEY_NOT_FOUND) 0 0).
    split; [|split; [by apply rs_ready_ok|]; done].
    apply rs_replies; [by apply get_packet_wf | cbn; by rewrite E |].
    by apply reply_wf.
Qed.

Lemma rs_serve_set s op key vb value cas flags expiry :
  is_store_op op = true -> in_u32 flags -> in_u32 expiry ->
  rs_serve s (message_of_packet (set_packet op key vb value cas flags expiry)) =
  rs_set op (mkSetAddReplaceReq
    (mkBaseReq (mkBaseMessage (OpCode_value op) key 0 cas) vb) value (Some flags) (Some expiry)) s.
Proof.
  intros Hop Hf He. destruct (extra_words_set flags expiry Hf He) as [E0 E1].
  unfold message_of_packet, packet_sar, set_packet. cbn [p_request p_op p_extra p_value].
  rewrite E0, E1. by destruct op.
Qed.

Lemma rs_set_law n s op key vb value cas flags expiry :
  rs_ok (S n) s -> key_ok key -> is_store_op op = true -> in_u16 vb -> value_ok value ->
  in_u64 cas -> stamp_ok epoch flags -> in_u32 expiry ->
  exists s' p c, replies s (set_packet op key vb value cas flags expiry) s' p /\ rs_ok n s' /\
    p_request p = false /\ p_op p = OpCode_value op /\
    forall k, rs_store s' k =
      if accepts op cas (rs_store (rs_foreign_step s) key)
      then update (rs_store (rs_foreign_step s)) key (Some (mkRecord value flags c)) k
      else rs_store (rs_foreign_step s) k.
Proof.
  intros Hok Hk Hop Hvb Hv Hc Hf He. pose proof (rs_foreign_ready n s Hok) as Hrdy.
  assert (Hreq : wf_packet (set_packet op key vb value cas flags expiry)) by (by apply set_packet_wf).
  assert (Hf32 : in_u32 flags) by apply Hf.
  assert (Hop8 : in_u8 (OpCode_value op)) by (by destruct op).
  pose proof (rs_serve_set (rs_foreign_step s) op key vb value cas flags expiry Hop Hf32 He) as Hs.
  unfold rs_set in Hs. cbn [sar_req brq_base sar_flags bm_key bm_cas sar_value mbind option_bind] in Hs.
  destruct (accepts op cas (rs_store (rs_foreign_step s) key)) eqn:Ha.
  - do 3 eexists. split; [apply rs_replies; [done|exact Hs|]; apply reply_wf; try done|].
    + destruct Hrdy as (_ & ? & ? & _). unfold in_u64. cbn. lia.
    + split; [|done]. destruct Hrdy as (Hr & H0 & Hn & Hq).
      split; [|cbn; repeat split; [lia|lia|done]].
      intros k r. cbn. unfold update. case_decide.
      * intros [= <-]. split; [|cbn; lia]. split; [done|]. split; [done|]. cbn. lia.
      * intros Hkr. apply Hr in Hkr as [? ?]. split; [done|lia].
  - do 2 eexists. exists 0. split; [apply rs_replies; [done|exact Hs|]; by apply reply_wf|].
    split; [by apply rs_ready_ok | done].
Qed.

Lemma rs_delete_law n s key :
  rs_ok (S n) s -> key_ok key ->
  exists s' p, replies s (delete_packet key) s' p /\ rs_ok n s' /\
    p_request p = false /\ p_op p = OpCode_value OpCode.DELETE /\
    forall k, rs_store s' k = update (rs_store (rs_foreign_step s)) key None k.
Proof.
  intros Hok Hk. pose proof (rs_foreign_ready n s Hok) as Hrdy. do 2 eexists.
  split; [apply rs_replies; [by apply delete_packet_wf | reflexivity | by apply reply_wf]|].
  split; [|done]. apply rs_ready_ok. destruct Hrdy as (Hr & H0 & Hn & Hq).
  split; [|done]. intros k r. cbn. unfold update. case_decide; [done|]. apply Hr.
Qed.

Lemma ref_memcached_laws : LocalMemcachedLaws ref_server (H0 := ref_memcached).
Proof.
  split; cbn.
  - intros n l (Hr & H0 & Hn & Hf). split; [done|]. split; [done|]. split; [lia|done].
  - intros n l k r (Hr & _) Hk. by apply (Hr k).
  - intros n l k r Hok Hk. by apply (proj1 (rs_foreign_ready n l Hok) k).
  - intros n l k r r' (Hr & _) Hk Hk' Hc. unfold rs_foreign_step in Hk'.
    destruct (rs_foreign l) as [|[[k0 v] f] q]; [congruence|]. cbn in Hk'. unfold update in Hk'.
    case_decide; [|congruence]. injection Hk' as <-. apply Hr in Hk as [_ ?]. cbn in Hc. lia.
  - apply rs_get_law.
  - apply rs_set_law.
  - apply rs_delete_law.
Qed.
End ref_laws.
