(* ===== verification/Statistics.v ===== *)
(** * Statistics

    Models include/astaire_statistics.hpp and src/astaire_statistics.cpp: the
    global statistics and the tree connection / vbucket of per-connection
    statistics, with the StatRecorder protocol (refresh, read, refreshed).
    Counters are std::atomic_uint_fast32_t, 64 bits wide here.  A clock reading
    and whether compare_exchange_weak then succeeds are inputs: a recorder
    carries the readings it will get.  report_change is logged.  A vbucket's
    record is a pointer in a std::map, so it can be NULL. *)

From Stdlib Require Import ZArith NArith Lia Strings.Byte Strings.String DecimalString DecimalPos DecimalZ.
From stdpp Require Import prelude.
From S2P Require Import Prelude StdMap.

Open Scope Z_scope.

(** std::to_string of an integer. *)
Definition to_string (z : Z) : bytes := lit (NilZero.string_of_int (Z.to_int z)).

(** ** The StatRecorder protocol *)

(** One call of get_timestamp_us, and whether the compare_exchange_weak that
    may follow it takes effect. *)
Record tick : Type := mkTick {
  tk_now : Z;
  tk_cas : bool
}.

Record StatRecorder : Type := mkStatRecorder {
  sr_timestamp_us : Z;
  sr_target_period_us : Z;
  sr_readings : list tick;           (* clock readings to come *)
  sr_reports : list (list bytes)     (* calls of report_change, oldest first *)
}.

Definition get_timestamp_us (r : StatRecorder) : tick * StatRecorder :=
  (default (mkTick 0 false) (head (sr_readings r)),
   mkStatRecorder (sr_timestamp_us r) (sr_target_period_us r) (tail (sr_readings r))
     (sr_reports r)).
Definition set_timestamp (t : Z) (r : StatRecorder) : StatRecorder :=
  mkStatRecorder t (sr_target_period_us r) (sr_readings r) (sr_reports r).
Definition report_change (values : list bytes) (r : StatRecorder) : StatRecorder :=
  mkStatRecorder (sr_timestamp_us r) (sr_target_period_us r) (sr_readings r)
    (sr_reports r ++ [values]).

(** Has the period that began at [ts] run out? *)
Definition period_over (ts period now : Z) : bool := u64 (ts + period) <=? now.

(** Unsigned division; the processor traps when the divisor is 0. *)
Definition udiv (a b : Z) : res Z := if b =? 0 then Fail Undefined else mret (a / b).

(** The two read functions: the value stored in [_bandwidth], given the raw one
    and the length of the period; and that value once it is known not to trap
    ([read_bandwidth_defined]). *)
Definition read_bandwidth (bandwidth_raw period_us : Z) : res Z :=
  period_s ← udiv period_us (1000 * 1000);
  if period_s =? 0 then mret 0 else q ← udiv bandwidth_raw period_s; mret (u32 q).
Definition collate (bandwidth_raw period_us : Z) : Z :=
  match read_bandwidth bandwidth_raw period_us with Val v => v | Fail _ => -1 end.

Definition fetch_add (x delta : Z) : Z := u64 (x + u32 delta).
Definition fetch_sub (x delta : Z) : Z := u64 (x - u32 delta).

(** ** AstaireGlobalStatistics *)

Record AstaireGlobalStatistics : Type := mkGlobalStats {
  gs_recorder : StatRecorder;
  gs_total_buckets : Z;
  gs_resynced_bucket_count : Z;
  gs_resynced_keys_count : Z;
  gs_resynced_bytes_count : Z;
  gs_bandwidth_raw : Z;
  gs_bandwidth : Z
}.

(** The statistics the GAUGE_STAT and COUNTER_STAT macros declare. *)
Inductive global_stat : Type :=
| Total_buckets | Resynced_bucket_count | Resynced_keys_count | Resynced_bytes_count.

#[export] Instance global_stat_eq_dec : EqDecision global_stat.
Proof. solve_decision. Defined.

Definition is_gauge (st : global_stat) : bool :=
  match st with Total_buckets => true | _ => false end.

Definition gs_get (st : global_stat) (g : AstaireGlobalStatistics) : Z :=
  match st with
  | Total_buckets => gs_total_buckets g
  | Resynced_bucket_count => gs_resynced_bucket_count g
  | Resynced_keys_count => gs_resynced_keys_count g
  | Resynced_bytes_count => gs_resynced_bytes_count g
  end.

Definition gs_put (st : global_stat) (v : Z) (g : AstaireGlobalStatistics) :
    AstaireGlobalStatistics :=
  let '(mkGlobalStats r tb bc kc yc raw bw) := g in
  match st with
  | Total_buckets => mkGlobalStats r v bc kc yc raw bw
  | Resynced_bucket_count => mkGlobalStats r tb v kc yc raw bw
  | Resynced_keys_count => mkGlobalStats r tb bc v yc raw bw
  | Resynced_bytes_count => mkGlobalStats r tb bc kc v raw bw
  end.

Definition gs_with_recorder (r : StatRecorder) (g : AstaireGlobalStatistics) :
    AstaireGlobalStatistics :=
  mkGlobalStats r (gs_total_buckets g) (gs_resynced_bucket_count g) (gs_resynced_keys_count g)
    (gs_resynced_bytes_count g) (gs_bandwidth_raw g) (gs_bandwidth g).

Definition gs_values (g : AstaireGlobalStatistics) : list bytes :=
  [to_string (gs_total_buckets g); to_string (gs_resynced_bucket_count g);
   to_string (gs_resynced_keys_count g); to_string (gs_resynced_bytes_count g);
   to_string (gs_bandwidth g)].

Definition gs_refreshed (g : AstaireGlobalStatistics) : AstaireGlobalStatistics :=
  gs_with_recorder (report_change (gs_values g) (gs_recorder g)) g.

Definition gs_read (period_us : Z) (g : AstaireGlobalStatistics) : AstaireGlobalStatistics :=
  mkGlobalStats (gs_recorder g) (gs_total_buckets g) (gs_resynced_bucket_count g)
    (gs_resynced_keys_count g) (gs_resynced_bytes_count g) 0
    (collate (gs_bandwidth_raw g) period_us).

Definition gs_refresh (force : bool) (g : AstaireGlobalStatistics) : AstaireGlobalStatistics :=
  let timestamp_us := sr_timestamp_us (gs_recorder g) in
  let '(t, r) := get_timestamp_us (gs_recorder g) in
  let timestamp_us_now := tk_now t in
  if period_over timestamp_us (sr_target_period_us r) timestamp_us_now && tk_cas t
  then gs_refreshed (gs_read (u64 (timestamp_us_now - timestamp_us))
         (gs_with_recorder (set_timestamp timestamp_us_now r) g))
  else if force then gs_refreshed (gs_with_recorder r g)
  else gs_with_recorder r g.

Definition gs_increment (st : global_stat) (delta : Z) (g : AstaireGlobalStatistics) :
    AstaireGlobalStatistics :=
  gs_refresh (is_gauge st) (gs_put st (fetch_add (gs_get st g) delta) g).
Definition gs_decrement_total_buckets (delta : Z) (g : AstaireGlobalStatistics) :
    AstaireGlobalStatistics :=
  gs_refresh true (gs_put Total_buckets (fetch_sub (gs_total_buckets g) delta) g).
Definition gs_set (st : global_stat) (val : Z) (g : AstaireGlobalStatistics) :
    AstaireGlobalStatistics :=
  gs_refresh (is_gauge st) (gs_put st (u32 val) g).
Definition gs_increment_bandwidth (delta : Z) (g : AstaireGlobalStatistics) :
    AstaireGlobalStatistics :=
  gs_refresh false
    (mkGlobalStats (gs_recorder g) (gs_total_buckets g) (gs_resynced_bucket_count g)
       (gs_resynced_keys_count g) (gs_resynced_bytes_count g)
       (fetch_add (gs_bandwidth_raw g) delta) (gs_bandwidth g)).

Definition gs_reset (g : AstaireGlobalStatistics) : AstaireGlobalStatistics :=
  let '(t, r) := get_timestamp_us (gs_recorder g) in
  gs_refresh true (mkGlobalStats (set_timestamp (tk_now t) r) 0 0 0 0 0 0).

(** The reporting thread: one forced refresh per wake-up, [wakeups] of them
    before it sees the terminated flag. *)
Fixpoint gs_thread_func (wakeups : nat) (g : AstaireGlobalStatistics) : AstaireGlobalStatistics :=
  match wakeups with
  | O => g
  | S wakeups => gs_thread_func wakeups (gs_refresh true g)
  end.

(** ** AstairePerConnectionStatistics *)

Record BucketRecord : Type := mkBucketRecord {
  br_bucket_id : Z;
  br_resynced_keys_count : Z;
  br_resynced_bytes_count : Z;
  br_bandwidth_raw : Z;
  br_bandwidth : Z
}.

Record ConnectionRecord : Type := mkConnectionRecord {
  cr_address : bytes;
  cr_port : Z;
  cr_total_buckets : Z;
  cr_resynced_bucket_count : Z;
  cr_bucket_map : stdmap Z (option BucketRecord)    (* None: a NULL pointer *)
}.

Record AstairePerConnectionStatistics : Type := mkPerConnStats {
  ps_recorder : StatRecorder;
  ps_connections : list ConnectionRecord
}.

Definition br_read (period_us : Z) (b : BucketRecord) : BucketRecord :=
  mkBucketRecord (br_bucket_id b) (br_resynced_keys_count b) (br_resynced_bytes_count b) 0
    (collate (br_bandwidth_raw b) period_us).
Definition br_reset (b : BucketRecord) : BucketRecord := mkBucketRecord (br_bucket_id b) 0 0 0 0.
Definition br_write_out (b : BucketRecord) : list bytes :=
  [to_string (br_bucket_id b); to_string (br_resynced_keys_count b);
   to_string (br_resynced_bytes_count b); to_string (br_bandwidth b)].

(** Iterate over the bucket map; a NULL pointer is dereferenced. *)
Fixpoint over_buckets {A} (f : BucketRecord -> A) (m : list (Z * option BucketRecord)) :
    res (list (Z * A)) :=
  match m with
  | [] => mret []
  | (vb, b) :: m =>
      b ← use b;
      m ← over_buckets f m;
      mret ((vb, f b) :: m)
  end.

Definition cr_with_buckets (m : stdmap Z (option BucketRecord)) (c : ConnectionRecord) :
    ConnectionRecord :=
  mkConnectionRecord (cr_address c) (cr_port c) (cr_total_buckets c) (cr_resynced_bucket_count c) m.

Definition cr_read (period_us : Z) (c : ConnectionRecord) : res ConnectionRecord :=
  m ← over_buckets (fun b => Some (br_read period_us b)) (cr_bucket_map c);
  mret (cr_with_buckets m c).

Definition cr_reset (c : ConnectionRecord) : res ConnectionRecord :=
  m ← over_buckets (fun b => Some (br_reset b)) (cr_bucket_map c);
  mret (mkConnectionRecord (cr_address c) (cr_port c) 0 0 m).

Definition cr_write_out (c : ConnectionRecord) : res (list bytes) :=
  m ← over_buckets br_write_out (cr_bucket_map c);
  mret ([cr_address c; to_string (cr_port c); to_string (cr_total_buckets c);
         to_string (cr_resynced_bucket_count c); to_string (Z.of_nat (length (cr_bucket_map c)))]
        ++ mjoin (map snd m)).

Fixpoint over_connections {A B} (f : A -> res B) (l : list A) : res (list B) :=
  match l with
  | [] => mret []
  | c :: l => c ← f c; l ← over_connections f l; mret (c :: l)
  end.

Definition ps_refreshed (p : AstairePerConnectionStatistics) : res AstairePerConnectionStatistics :=
  values ← over_connections cr_write_out (ps_connections p);
  mret (mkPerConnStats (report_change (mjoin values) (ps_recorder p)) (ps_connections p)).

Definition ps_read (period_us : Z) (p : AstairePerConnectionStatistics) :
    res AstairePerConnectionStatistics :=
  cs ← over_connections (cr_read period_us) (ps_connections p);
  mret (mkPerConnStats (ps_recorder p) cs).

Definition ps_refresh (force : bool) (p : AstairePerConnectionStatistics) :
    res AstairePerConnectionStatistics :=
  let timestamp_us := sr_timestamp_us (ps_recorder p) in
  let '(t, r) := get_timestamp_us (ps_recorder p) in
  let timestamp_us_now := tk_now t in
  if period_over timestamp_us (sr_target_period_us r) timestamp_us_now && tk_cas t
  then p ← ps_read (u64 (timestamp_us_now - timestamp_us))
             (mkPerConnStats (set_timestamp timestamp_us_now r) (ps_connections p));
       ps_refreshed p
  else if force then ps_refreshed (mkPerConnStats r (ps_connections p))
  else mret (mkPerConnStats r (ps_connections p)).

Definition ps_reset (p : AstairePerConnectionStatistics) : res AstairePerConnectionStatistics :=
  let '(t, r) := get_timestamp_us (ps_recorder p) in
  ps_refresh true (mkPerConnStats (set_timestamp (tk_now t) r) []).

(** The ConnectionRecord constructor, up to its set_total_buckets call: the
    buckets' records, all counts zero. *)
Definition ConnectionRecord_new (address : bytes) (port : Z) (buckets : list Z) :
    ConnectionRecord :=
  mkConnectionRecord address port 0 0
    (foldl (fun m vb => map_set vb (Some (mkBucketRecord vb 0 0 0 0)) m) [] buckets).

Section add_connection.
(** Utils::split_host_port: the host and port, if the string has that form. *)
Context (split_host_port : bytes -> option (bytes * Z)).

(** The constructor's set_total_buckets refreshes before the new record is
    pushed.  The record's address is its index, returned. *)
Definition add_connection (server : bytes) (buckets : list Z)
    (p : AstairePerConnectionStatistics) : res (nat * AstairePerConnectionStatistics) :=
  let '(address, port) := default (server, 0) (split_host_port server) in
  let c := ConnectionRecord_new address port buckets in
  p ← ps_refresh true p;
  let c := mkConnectionRecord (cr_address c) (cr_port c) (u32 (Z.of_nat (length buckets))) 0 (cr_bucket_map c) in
  mret (length (ps_connections p),
        mkPerConnStats (ps_recorder p) (ps_connections p ++ [c])).
End add_connection.

(** set_resynced_bucket_count of a connection. *)
Definition cr_set_resynced_bucket_count (conn : nat) (val : Z)
    (p : AstairePerConnectionStatistics) : res AstairePerConnectionStatistics :=
  c ← use (ps_connections p !! conn);
  let c := mkConnectionRecord (cr_address c) (cr_port c) (cr_total_buckets c) (u32 val)
             (cr_bucket_map c) in
  ps_refresh true (mkPerConnStats (ps_recorder p) (<[conn := c]> (ps_connections p))).

(** The three increments of a BucketRecord. *)
Inductive bucket_stat : Type := Bucket_keys | Bucket_bytes | Bucket_bandwidth.

Definition br_add (st : bucket_stat) (delta : Z) (b : BucketRecord) : BucketRecord :=
  let '(mkBucketRecord vb kc yc raw bw) := b in
  match st with
  | Bucket_keys => mkBucketRecord vb (fetch_add kc delta) yc raw bw
  | Bucket_bytes => mkBucketRecord vb kc (fetch_add yc delta) raw bw
  | Bucket_bandwidth => mkBucketRecord vb kc yc (fetch_add raw delta) bw
  end.

(** get_bucket_stats: operator[] of the bucket map, which inserts NULL for a
    vbucket it does not have; then an increment through the pointer. *)
Definition get_bucket_stats (vb : Z) (c : ConnectionRecord) :
    option BucketRecord * ConnectionRecord :=
  let '(b, m) := map_index None vb (cr_bucket_map c) in (b, cr_with_buckets m c).

Definition br_increment (conn : nat) (vb : Z) (st : bucket_stat) (delta : Z)
    (p : AstairePerConnectionStatistics) : res AstairePerConnectionStatistics :=
  c ← use (ps_connections p !! conn);
  let '(b, c) := get_bucket_stats vb c in
  b ← use b;
  let c := cr_with_buckets (map_set vb (Some (br_add st delta b)) (cr_bucket_map c)) c in
  ps_refresh false (mkPerConnStats (ps_recorder p) (<[conn := c]> (ps_connections p))).

(** ** The other operations of the macros *)

Definition gs_zero (st : global_stat) (g : AstaireGlobalStatistics) : AstaireGlobalStatistics :=
  gs_refresh (is_gauge st) (gs_put st 0 g).

(** The gauges of a ConnectionRecord, and what GAUGE_STAT does to one. *)
Inductive conn_stat : Type := Conn_total_buckets | Conn_resynced_bucket_count.

Definition cr_get (st : conn_stat) (c : ConnectionRecord) : Z :=
  match st with
  | Conn_total_buckets => cr_total_buckets c
  | Conn_resynced_bucket_count => cr_resynced_bucket_count c
  end.
Definition cr_put (st : conn_stat) (v : Z) (c : ConnectionRecord) : ConnectionRecord :=
  let '(mkConnectionRecord a p tb bc m) := c in
  match st with
  | Conn_total_buckets => mkConnectionRecord a p v bc m
  | Conn_resynced_bucket_count => mkConnectionRecord a p tb v m
  end.

Inductive gauge_op : Type :=
| Gauge_increment (delta : Z)
| Gauge_decrement (delta : Z)
| Gauge_zero
| Gauge_set (val : Z).

Definition gauge_value (op : gauge_op) (x : Z) : Z :=
  match op with
  | Gauge_increment delta => fetch_add x delta
  | Gauge_decrement delta => fetch_sub x delta
  | Gauge_zero => 0
  | Gauge_set val => u32 val
  end.

Definition cr_gauge (conn : nat) (st : conn_stat) (op : gauge_op)
    (p : AstairePerConnectionStatistics) : res AstairePerConnectionStatistics :=
  c ← use (ps_connections p !! conn);
  ps_refresh true (mkPerConnStats (ps_recorder p)
    (<[conn := cr_put st (gauge_value op (cr_get st c)) c]> (ps_connections p))).

(** The zero and set operations of a BucketRecord's counters. *)
Definition br_put (st : bucket_stat) (v : Z) (b : BucketRecord) : BucketRecord :=
  let '(mkBucketRecord vb kc yc raw bw) := b in
  match st with
  | Bucket_keys => mkBucketRecord vb v yc raw bw
  | Bucket_bytes => mkBucketRecord vb kc v raw bw
  | Bucket_bandwidth => b     (* a collated statistic has neither *)
  end.

Definition br_store (conn : nat) (vb : Z) (st : bucket_stat) (val : Z)
    (p : AstairePerConnectionStatistics) : res AstairePerConnectionStatistics :=
  c ← use (ps_connections p !! conn);
  let '(b, c) := get_bucket_stats vb c in
  b ← use b;
  let c := cr_with_buckets (map_set vb (Some (br_put st (u32 val) b)) (cr_bucket_map c)) c in
  ps_refresh false (mkPerConnStats (ps_recorder p) (<[conn := c]> (ps_connections p))).

(** ** Construction and destruction *)

(** The constructor, whose atomics are not initialised ([uninit]) before reset:
    the reporting thread it starts may already have run [early] times. *)
Definition AstaireGlobalStatistics_new (r : StatRecorder) (uninit : global_stat -> Z)
    (raw bandwidth : Z) (early : nat) : AstaireGlobalStatistics :=
  gs_reset (gs_thread_func early
    (mkGlobalStats r (uninit Total_buckets) (uninit Resynced_bucket_count)
       (uninit Resynced_keys_count) (uninit Resynced_bytes_count) raw bandwidth)).

(** The destructor: the reporting thread, if it is [waiting], wakes up for a
    last report before it is joined. *)
Definition AstaireGlobalStatistics_delete (waiting : bool) (g : AstaireGlobalStatistics) :
    AstaireGlobalStatistics :=
  gs_thread_func (if waiting then 1 else 0) g.

Definition AstairePerConnectionStatistics_new (r : StatRecorder) :
    res AstairePerConnectionStatistics :=
  ps_reset (mkPerConnStats r []).
Definition AstairePerConnectionStatistics_delete (p : AstairePerConnectionStatistics) :
    res AstairePerConnectionStatistics :=
  ps_reset p.

(** ** Lemmas on the global statistics *)

(** read never divides by zero. *)
Lemma read_bandwidth_defined raw period_us :
  read_bandwidth raw period_us = Val (collate raw period_us).
Proof.
  unfold collate, read_bandwidth. change (udiv period_us (1000 * 1000))
    with (Val (period_us / (1000 * 1000))). rewrite bind_Val. unfold udiv.
  by destruct (period_us / (1000 * 1000) =? 0).
Qed.

Lemma gs_refresh_counts force g st : gs_get st (gs_refresh force g) = gs_get st g.
Proof.
  unfold gs_refresh. destruct (get_timestamp_us (gs_recorder g)) as [t r].
  by destruct (period_over _ _ _ && tk_cas t), force, st.
Qed.

Lemma gs_get_put st st' v g :
  gs_get st (gs_put st' v g) = if decide (st = st') then v else gs_get st g.
Proof. destruct g, st, st'; reflexivity. Qed.

Lemma gs_put_recorder st v g :
  gs_recorder (gs_put st v g) = gs_recorder g /\ gs_bandwidth_raw (gs_put st v g) = gs_bandwidth_raw g.
Proof. destruct g, st; done. Qed.

(** What the threads of a resync do to the global statistics. *)
Inductive gs_op : Type :=
| Increment (st : global_stat) (delta : Z)
| Increment_bandwidth (delta : Z)
| Refresh (force : bool).

Definition gs_apply (g : AstaireGlobalStatistics) (o : gs_op) : AstaireGlobalStatistics :=
  match o with
  | Increment st delta => gs_increment st delta g
  | Increment_bandwidth delta => gs_increment_bandwidth delta g
  | Refresh force => gs_refresh force g
  end.

Definition op_delta (st : global_stat) (o : gs_op) : Z :=
  match o with Increment st' delta => if decide (st = st') then u32 delta else 0 | _ => 0 end.
Definition op_bytes (o : gs_op) : Z :=
  match o with Increment_bandwidth delta => u32 delta | _ => 0 end.
Definition total {A} (f : A -> Z) (l : list A) : Z := foldr (fun a s => f a + s) 0 l.

Lemma total_app {A} (f : A -> Z) l l' : total f (l ++ l') = total f l + total f l'.
Proof. unfold total. induction l as [|a l IH]; cbn; lia. Qed.

Lemma total_perm {A} (f : A -> Z) l l' : l ≡ₚ l' -> total f l = total f l'.
Proof. unfold total. induction 1; cbn; lia. Qed.

#[export] Instance total_proper {A} (f : A -> Z) : Proper ((≡ₚ) ==> (=)) (total f).
Proof. intros l l'. apply total_perm. Qed.

Definition gs_ok (g : AstaireGlobalStatistics) : Prop := forall st, in_u64 (gs_get st g).

Lemma gs_apply_count st g o :
  gs_ok g -> gs_get st (gs_apply g o) = u64 (gs_get st g + op_delta st o).
Proof.
  intros Hg. destruct o as [st' d|d|f]; cbn [gs_apply op_delta].
  - unfold gs_increment, fetch_add. rewrite gs_refresh_counts, gs_get_put.
    case_decide; [by subst|]. by rewrite Z.add_0_r, u64_small.
  - unfold gs_increment_bandwidth. rewrite gs_refresh_counts, Z.add_0_r, u64_small by done.
    by destruct st.
  - by rewrite gs_refresh_counts, Z.add_0_r, u64_small.
Qed.

Lemma gs_apply_ok g o : gs_ok g -> gs_ok (gs_apply g o).
Proof. intros Hg st. rewrite gs_apply_count by done. apply u64_range. Qed.

Lemma u64_add_l a b : u64 (u64 a + b) = u64 (a + b).
Proof. unfold u64. apply Z.add_mod_idemp_l. lia. Qed.

Lemma gs_run_count st ops : forall g,
  gs_ok g -> gs_get st (foldl gs_apply g ops) = u64 (gs_get st g + total (op_delta st) ops).
Proof.
  induction ops as [|o ops IH]; intros g Hg; cbn [foldl].
  - cbn. by rewrite Z.add_0_r, u64_small.
  - rewrite IH by (by apply gs_apply_ok). rewrite gs_apply_count, u64_add_l by done.
    f_equal. unfold total. cbn. lia.
Qed.

(** ** Decoding what is reported *)

Definition of_string (s : bytes) : option Z :=
  Z.of_int <$> NilZero.int_of_string (String.string_of_list_byte s).

Lemma of_to_string z : of_string (to_string z) = Some z.
Proof.
  unfold of_string, to_string, lit. rewrite String.string_of_list_byte_of_string, NilZero.isi.
  - cbn. by rewrite DecimalZ.of_to.
  - destruct z as [|p|p]; cbn; try done. intros [= E]. by apply (DecimalPos.Unsigned.to_uint_nonnil p).
  - destruct z as [|p|p]; cbn; try done. intros [= E]. by apply (DecimalPos.Unsigned.to_uint_nonnil p).
Qed.

(** What a report says of a vbucket and of a connection. *)
Definition bucket_view : Type := Z * Z * Z * Z.
Record conn_view : Type := mkConnView {
  cv_address : bytes;
  cv_port : Z;
  cv_total_buckets : Z;
  cv_resynced_bucket_count : Z;
  cv_buckets : list bucket_view
}.

Definition view_bucket (b : BucketRecord) : bucket_view :=
  (br_bucket_id b, br_resynced_keys_count b, br_resynced_bytes_count b, br_bandwidth b).
Definition view_connection (c : ConnectionRecord) : conn_view :=
  mkConnView (cr_address c) (cr_port c) (cr_total_buckets c) (cr_resynced_bucket_count c)
    (omap (fun it => view_bucket <$> it.2) (cr_bucket_map c)).

Fixpoint decode_buckets (n : nat) (v : list bytes) : option (list bucket_view * list bytes) :=
  match n, v with
  | O, _ => Some ([], v)
  | S n, a :: b :: c :: d :: v =>
      a ← of_string a; b ← of_string b; c ← of_string c; d ← of_string d;
      '(l, v) ← decode_buckets n v;
      Some ((a, b, c, d) :: l, v)
  | _, _ => None
  end.

Fixpoint decode_connections (fuel : nat) (v : list bytes) : option (list conn_view) :=
  match fuel, v with
  | _, [] => Some []
  | S fuel, addr :: port :: tot :: cnt :: n :: v =>
      port ← of_string port; tot ← of_string tot; cnt ← of_string cnt; n ← of_string n;
      '(bs, v) ← decode_buckets (Z.to_nat n) v;
      rest ← decode_connections fuel v;
      Some (mkConnView addr port tot cnt bs :: rest)
  | _, _ => None
  end.

Lemma decode_buckets_write m m' rest :
  over_buckets br_write_out m = Val m' ->
  decode_buckets (length m) (mjoin (map snd m') ++ rest) =
  Some (omap (fun it => view_bucket <$> it.2) m, rest).
Proof.
  revert m'. induction m as [|[vb [b|]] m IH]; intros m' Hm; [by injection Hm as <-| |done].
  cbn [over_buckets use] in Hm. rewrite bind_Val in Hm.
  apply bind_Val_inv in Hm as (m1 & Hm & [= <-]).
  change (mjoin (map snd ((vb, br_write_out b) :: m1)))
    with (br_write_out b ++ mjoin (map snd m1)).
  rewrite <- app_assoc. cbn [length decode_buckets app br_write_out].
  rewrite !of_to_string. cbn [mbind option_bind]. by rewrite (IH _ Hm).
Qed.

Lemma decode_connections_write cs vs fuel :
  over_connections cr_write_out cs = Val vs -> (length cs <= fuel)%nat ->
  decode_connections fuel (mjoin vs) = Some (map view_connection cs).
Proof.
  revert vs fuel. induction cs as [|c cs IH]; intros vs fuel Hv Hf.
  { injection Hv as <-. by destruct fuel. }
  cbn [over_connections] in Hv. apply bind_Val_inv in Hv as (v & Hc & Hv).
  apply bind_Val_inv in Hv as (vs1 & Hv & [= <-]).
  destruct fuel as [|fuel]; [cbn in Hf; lia|]. cbn in Hf.
  unfold cr_write_out in Hc. apply bind_Val_inv in Hc as (m & Hm & [= <-]).
  change (mjoin (?a :: vs1)) with (a ++ mjoin vs1).
  cbn [app decode_connections]. rewrite !of_to_string. cbn [mbind option_bind].
  rewrite Nat2Z.id, (decode_buckets_write _ _ _ Hm). cbn [mbind option_bind].
  rewrite (IH _ _ Hv) by lia. done.
Qed.

Lemma write_out_length cs vs :
  over_connections cr_write_out cs = Val vs -> (length cs <= length (mjoin vs))%nat.
Proof.
  revert vs. induction cs as [|c cs IH]; intros vs Hv; [cbn; lia|].
  cbn [over_connections] in Hv. apply bind_Val_inv in Hv as (v & Hc & Hv).
  apply bind_Val_inv in Hv as (vs1 & Hv & [= <-]). apply IH in Hv.
  unfold cr_write_out in Hc. apply bind_Val_inv in Hc as (m & Hm & [= <-]).
  change (mjoin (?a :: vs1)) with (a ++ mjoin vs1). rewrite !length_app. cbn. lia.
Qed.

(** ** Lemmas on the per-connection statistics *)

(** The representation invariant: bucket maps are std::maps with no NULL. *)
Definition with_ptrs (l : list (Z * BucketRecord)) : list (Z * option BucketRecord) :=
  map (fun it => (it.1, Some it.2)) l.
Definition cr_ok (c : ConnectionRecord) : Prop :=
  exists l, cr_bucket_map c = with_ptrs l /\ key_sorted l.
Definition ps_ok (p : AstairePerConnectionStatistics) : Prop := Forall cr_ok (ps_connections p).

(** The two counters of a vbucket on a connection. *)
Definition cr_counts (c : ConnectionRecord) (vb : Z) : option (Z * Z) :=
  b ← map_find vb (cr_bucket_map c);
  (fun b => (br_resynced_keys_count b, br_resynced_bytes_count b)) <$> b.
Definition bucket_counts (p : AstairePerConnectionStatistics) (conn : nat) (vb : Z) :
    option (Z * Z) :=
  c ← ps_connections p !! conn; cr_counts c vb.

Lemma over_buckets_ptrs {A} (f : BucketRecord -> A) l :
  over_buckets f (with_ptrs l) = Val (map (fun it => (it.1, f it.2)) l).
Proof.
  induction l as [|[vb b] l IH]; [done|].
  change (with_ptrs ((vb, b) :: l)) with ((vb, Some b) :: with_ptrs l).
  cbn [over_buckets use]. by rewrite bind_Val, IH.
Qed.

Lemma map_find_map {K V V'} `{KeyOrder K} (f : V -> V') k (m : list (K * V)) :
  map_find k (map (fun it => (it.1, f it.2)) m) = f <$> map_find k m.
Proof.
  induction m as [|[k0 v0] m IH]; [done|]. cbn.
  by destruct (key_lt k k0), (key_lt k0 k).
Qed.

Lemma key_sorted_map {K V V'} `{KeyOrder K} (f : V -> V') (m : list (K * V)) :
  key_sorted m -> key_sorted (map (fun it => (it.1, f it.2)) m).
Proof. unfold key_sorted, map_keys. by rewrite map_map. Qed.

Lemma cr_read_ok period_us c :
  cr_ok c -> exists c', cr_read period_us c = Val c' /\
    (cr_ok c' /\ forall vb, cr_counts c' vb = cr_counts c vb).
Proof.
  intros (l & El & Hs). unfold cr_read. rewrite El, over_buckets_ptrs. eexists. split; [done|].
  split.
  - exists (map (fun it => (it.1, br_read period_us it.2)) l). split; [|by apply key_sorted_map].
    cbn. unfold with_ptrs. by rewrite map_map.
  - intros vb. unfold cr_counts. cbn [cr_bucket_map cr_with_buckets]. rewrite El. unfold with_ptrs.
    rewrite (map_find_map (fun b => Some (br_read period_us b))), (map_find_map Some).
    destruct (map_find vb l); reflexivity.
Qed.

Lemma cr_write_out_ok c : cr_ok c -> exists v, cr_write_out c = Val v /\ True.
Proof.
  intros (l & El & _). unfold cr_write_out. rewrite El, over_buckets_ptrs. eexists. done.
Qed.

Lemma over_connections_ok {A B} (f : A -> res B) (P : A -> Prop) (R : A -> B -> Prop) l :
  (forall a, P a -> exists b, f a = Val b /\ R a b) -> Forall P l ->
  exists l', over_connections f l = Val l' /\ Forall2 R l l'.
Proof.
  intros Hf. induction 1 as [|a l Ha _ (l' & E & IH)]; [by exists []|].
  destruct (Hf a Ha) as (b & Eb & HR). exists (b :: l'). cbn. rewrite Eb. cbn. rewrite E. auto.
Qed.

(** A refresh cannot fail, and leaves every count as it was. *)
Lemma ps_refreshed_ok p :
  ps_ok p -> exists p', ps_refreshed p = Val p' /\ ps_connections p' = ps_connections p.
Proof.
  intros Hp. destruct (over_connections_ok cr_write_out cr_ok (fun _ _ => True) (ps_connections p)
    cr_write_out_ok Hp) as (vs & E & _).
  unfold ps_refreshed. rewrite E. by eexists.
Qed.

Lemma ps_refresh_ok force p :
  ps_ok p -> exists p', ps_refresh force p = Val p' /\ ps_ok p' /\
    length (ps_connections p') = length (ps_connections p) /\
    forall conn vb, bucket_counts p' conn vb = bucket_counts p conn vb.
Proof.
  intros Hp. unfold ps_refresh. destruct (get_timestamp_us (ps_recorder p)) as [t r].
  destruct (_ && _); [|destruct force].
  - set (period := u64 _). unfold ps_read. cbn [ps_connections].
    destruct (over_connections_ok (cr_read period) cr_ok
      (fun c c' => cr_ok c' /\ forall vb, cr_counts c' vb = cr_counts c vb) (ps_connections p)
      (cr_read_ok period) Hp) as (cs & E & HR).
    rewrite E, bind_Val. assert (Hcs : Forall cr_ok cs).
    { clear E Hp. induction HR as [|? ? ? ? [? _]]; constructor; auto. }
    destruct (ps_refreshed_ok (mkPerConnStats (set_timestamp (tk_now t) r) cs) Hcs) as (p' & E' & Ec).
    cbn [ps_recorder mbind res_bind mret res_ret]. rewrite E'. exists p'. split; [done|]. unfold ps_ok, bucket_counts. rewrite Ec. cbn.
    split; [done|]. split; [by apply Forall2_length in HR|]. intros conn vb.
    destruct (cs !! conn) as [c'|] eqn:L'; destruct (ps_connections p !! conn) as [c|] eqn:L; cbn.
    + by apply (Forall2_lookup_lr _ _ _ _ _ _ HR L L').
    + apply lookup_lt_Some in L'. apply lookup_ge_None in L. apply Forall2_length in HR. lia.
    + apply lookup_lt_Some in L. apply lookup_ge_None in L'. apply Forall2_length in HR. lia.
    + done.
  - destruct (ps_refreshed_ok (mkPerConnStats r (ps_connections p)) Hp) as (p' & E' & Ec).
    exists p'. unfold ps_ok, bucket_counts. rewrite Ec. done.
  - by eexists.
Qed.

(** The effect of one increment on a vbucket's counters. *)
Definition add_counts (st : bucket_stat) (delta : Z) (kc : Z * Z) : Z * Z :=
  match st with
  | Bucket_keys => (fetch_add kc.1 delta, kc.2)
  | Bucket_bytes => (kc.1, fetch_add kc.2 delta)
  | Bucket_bandwidth => kc
  end.

Lemma cr_ok_find c vb :
  cr_ok c -> is_Some (cr_counts c vb) -> exists b, map_find vb (cr_bucket_map c) = Some (Some b).
Proof.
  intros (l & El & _). unfold cr_counts. rewrite El. unfold with_ptrs.
  rewrite (map_find_map Some). destruct (map_find vb l) as [b|]; [by exists b|].
  by intros [? ?].
Qed.

Lemma with_ptrs_set vb b l : map_set vb (Some b) (with_ptrs l) = with_ptrs (map_set vb b l).
Proof.
  induction l as [|[vb0 b0] l IH]; [done|].
  change (with_ptrs ((vb0, b0) :: l)) with ((vb0, Some b0) :: with_ptrs l).
  cbn [map_set]. destruct (key_lt vb vb0), (key_lt vb0 vb); try done. by rewrite IH.
Qed.

Lemma br_increment_ok conn vb st delta p kc :
  ps_ok p -> bucket_counts p conn vb = Some kc ->
  exists p', br_increment conn vb st delta p = Val p' /\ ps_ok p' /\
    bucket_counts p' conn vb = Some (add_counts st delta kc) /\
    forall conn' vb', (conn', vb') <> (conn, vb) ->
      bucket_counts p' conn' vb' = bucket_counts p conn' vb'.
Proof.
  intros Hp Hk. unfold bucket_counts in Hk.
  destruct (ps_connections p !! conn) as [c|] eqn:L; [|done]. cbn in Hk.
  assert (Hc : cr_ok c) by (by apply (Forall_lookup_1 _ _ _ _ Hp L)).
  destruct (cr_ok_find c vb Hc) as (b & Hb); [by rewrite Hk|].
  unfold br_increment, get_bucket_stats, map_index. rewrite L. cbn [use]. rewrite bind_Val, Hb.
  cbn [use]. rewrite bind_Val. set (b' := br_add st delta b).
  set (c' := cr_with_buckets _ _). set (p1 := mkPerConnStats _ _).
  assert (Hcounts : forall vb', cr_counts c' vb' =
            if decide (vb' = vb) then Some (add_counts st delta kc) else cr_counts c vb').
  { intros vb'. unfold cr_counts, c'. cbn [cr_bucket_map cr_with_buckets].
    unfold cr_counts in Hk. rewrite Hb in Hk. cbn in Hk. injection Hk as <-. case_decide as E.
    - subst vb'. rewrite map_find_set_eq. cbn. unfold b'. by destruct b, st.
    - by rewrite map_find_set_ne. }
  assert (Hp1 : ps_ok p1).
  { apply Forall_insert; [done|]. destruct Hc as (l & El & Hs). exists (map_set vb b' l).
    unfold c'. cbn. rewrite El. split; [apply with_ptrs_set | by apply map_set_sorted]. }
  destruct (ps_refresh_ok false p1 Hp1) as (p' & E & Hok & _ & Hsame).
  assert (Hlt : (conn < length (ps_connections p))%nat) by (by apply lookup_lt_Some in L).
  exists p'. split; [done|]. split; [done|]. split.
  - rewrite Hsame. unfold bucket_counts, p1. cbn [ps_connections].
    rewrite list_lookup_insert_eq by done. cbn [mbind option_bind]. by rewrite Hcounts, decide_True.
  - intros conn' vb' Hne. rewrite Hsame. unfold bucket_counts, p1. cbn [ps_connections].
    destruct (decide (conn' = conn)) as [->|Hc'].
    + rewrite list_lookup_insert_eq, L by done.
      cbn [mbind option_bind]. rewrite Hcounts, decide_False; [done|congruence].
    + by rewrite list_lookup_insert_ne by congruence.
Qed.

Lemma new_buckets_fold buckets : forall l,
  key_sorted l ->
  exists l', foldl (fun m vb => map_set vb (Some (mkBucketRecord vb 0 0 0 0)) m) (with_ptrs l) buckets =
             with_ptrs l' /\ key_sorted l' /\
    forall vb, vb ∈ buckets \/ map_find vb l = Some (mkBucketRecord vb 0 0 0 0) ->
               map_find vb l' = Some (mkBucketRecord vb 0 0 0 0).
Proof.
  induction buckets as [|b buckets IH]; intros l Hs.
  { exists l. split; [done|]. split; [done|]. intros vb [Hv|Hv]; [by apply elem_of_nil in Hv|done]. }
  cbn [foldl]. rewrite with_ptrs_set.
  destruct (IH (map_set b (mkBucketRecord b 0 0 0 0) l)) as (l' & E & Hs' & Hf); [by apply map_set_sorted|].
  exists l'. split; [done|]. split; [done|]. intros vb Hv. apply Hf.
  destruct (decide (vb = b)) as [->|Hne]; [right; apply map_find_set_eq|].
  rewrite map_find_set_ne by done. rewrite elem_of_cons in Hv. tauto.
Qed.

Lemma add_connection_ok shp server buckets p :
  ps_ok p ->
  exists conn p', add_connection shp server buckets p = Val (conn, p') /\ ps_ok p' /\
    (forall vb, vb ∈ buckets -> bucket_counts p' conn vb = Some (0, 0)) /\
    forall conn' vb, (conn' < length (ps_connections p))%nat ->
      conn' <> conn /\ bucket_counts p' conn' vb = bucket_counts p conn' vb.
Proof.
  intros Hp. unfold add_connection, ConnectionRecord_new. destruct (default _ _) as [addr port].
  destruct (ps_refresh_ok true p Hp) as (p1 & -> & Hp1 & Hl & Hsame).
  rewrite bind_Val. cbn [cr_address cr_port cr_bucket_map].
  destruct (new_buckets_fold buckets [] ltac:(constructor)) as (l & El & Hs & Hf).
  change (with_ptrs []) with (@nil (Z * option BucketRecord)) in El.
  do 2 eexists. split; [done|]. split; [|split].
  - apply Forall_app. split; [done|]. constructor; [|constructor]. exists l. by rewrite El.
  - intros vb Hv. unfold bucket_counts. cbn [ps_connections]. rewrite list_lookup_middle by done.
    cbn [mbind option_bind]. unfold cr_counts. cbn [cr_bucket_map]. rewrite El. unfold with_ptrs.
    rewrite (map_find_map Some), Hf by auto. done.
  - intros conn' vb Hlt. rewrite Hl. split; [lia|]. rewrite <- Hsame. unfold bucket_counts.
    cbn [ps_connections]. by rewrite lookup_app_l by lia.
Qed.

(** Records present stay present, whatever is counted on them. *)
Definition stats_grow (p p' : AstairePerConnectionStatistics) : Prop :=
  (ps_ok p -> ps_ok p') /\
  forall conn vb, is_Some (bucket_counts p conn vb) -> is_Some (bucket_counts p' conn vb).

#[export] Instance stats_grow_preorder : PreOrder stats_grow.
Proof.
  split; [done|]. intros p1 p2 p3 [Ho1 Hs1] [Ho2 Hs2]. split; [auto|]. intros. auto.
Qed.

Lemma br_increment_grow conn vb st delta p :
  ps_ok p -> is_Some (bucket_counts p conn vb) ->
  exists p', br_increment conn vb st delta p = Val p' /\ stats_grow p p'.
Proof.
  intros Hp [kc Hk]. destruct (br_increment_ok conn vb st delta p kc Hp Hk) as (p' & E & Hp' & Hset & Hoth).
  exists p'. split; [done|]. split; [done|]. intros conn' vb' Hs.
  destruct (decide ((conn', vb') = (conn, vb))) as [[= -> ->]|Hne]; [by rewrite Hset|].
  by rewrite Hoth.
Qed.

Lemma bucket_counts_lt p conn vb :
  is_Some (bucket_counts p conn vb) -> (conn < length (ps_connections p))%nat.
Proof.
  unfold bucket_counts. intros [kc Hk]. destruct (ps_connections p !! conn) eqn:L; [|done].
  by apply lookup_lt_Some in L.
Qed.

Lemma add_connection_grow shp server buckets p :
  ps_ok p ->
  exists conn p', add_connection shp server buckets p = Val (conn, p') /\ stats_grow p p' /\
    forall vb, vb ∈ buckets -> is_Some (bucket_counts p' conn vb).
Proof.
  intros Hp. destruct (add_connection_ok shp server buckets p Hp) as (conn & p' & E & Hp' & Hnew & Hold).
  exists conn, p'. split; [done|]. split; [|intros vb Hvb; rewrite Hnew by done; by eexists].
  split; [done|]. intros conn' vb Hs. destruct (Hold conn' vb) as [_ ->]; [|done].
  by eapply bucket_counts_lt.
Qed.

Lemma set_resynced_bucket_count_grow conn val p vb :
  ps_ok p -> is_Some (bucket_counts p conn vb) ->
  exists p', cr_set_resynced_bucket_count conn val p = Val p' /\ stats_grow p p'.
Proof.
  intros Hp Hs. apply bucket_counts_lt in Hs as Hlt.
  destruct (lookup_lt_is_Some_2 _ _ Hlt) as [c L].
  unfold cr_set_resynced_bucket_count. rewrite L. cbn [use]. rewrite bind_Val.
  set (c' := mkConnectionRecord _ _ _ _ _). set (p1 := mkPerConnStats _ _).
  destruct (ps_refresh_ok true p1) as (p' & E & Hp' & _ & Hsame).
  { apply Forall_insert; [done|]. exact (Forall_lookup_1 _ _ _ _ Hp L). }
  exists p'. split; [done|]. split; [done|]. intros conn' vb' Hs'. rewrite Hsame.
  unfold bucket_counts, p1 in *. cbn [ps_connections].
  destruct (decide (conn' = conn)) as [->|Hne]; [|by rewrite list_lookup_insert_ne].
  rewrite list_lookup_insert_eq by done. by rewrite L in Hs'.
Qed.

(** A run of increments on one connection, as a tap thread makes them. *)
Fixpoint br_increments (conn : nat) (ops : list (Z * bucket_stat * Z))
    (p : AstairePerConnectionStatistics) : res AstairePerConnectionStatistics :=
  match ops with
  | [] => mret p
  | (vb, st, delta) :: ops =>
      p ← br_increment conn vb st delta p;
      br_increments conn ops p
  end.

Definition counts_after (vb : Z) (ops : list (Z * bucket_stat * Z)) (kc : Z * Z) : Z * Z :=
  foldl (fun kc o => let '(vb', st, delta) := o in
                     if decide (vb' = vb) then add_counts st delta kc else kc) kc ops.

Lemma br_increments_ok conn (buckets : list Z) ops : forall p kcs,
  ps_ok p -> (forall vb, vb ∈ buckets -> bucket_counts p conn vb = Some (kcs vb)) ->
  Forall (fun o => o.1.1 ∈ buckets) ops ->
  exists p', br_increments conn ops p = Val p' /\ ps_ok p' /\
    (forall vb, vb ∈ buckets -> bucket_counts p' conn vb = Some (counts_after vb ops (kcs vb))) /\
    forall conn' vb, conn' <> conn -> bucket_counts p' conn' vb = bucket_counts p conn' vb.
Proof.
  induction ops as [|[[vb st] delta] ops IH]; intros p kcs Hp Hk Ho; [by exists p|].
  apply Forall_cons in Ho as [Hvb Ho]. cbn in Hvb. cbn [br_increments].
  destruct (br_increment_ok conn vb st delta p _ Hp (Hk vb Hvb)) as (p1 & E1 & Hp1 & Hset & Hother).
  rewrite E1, bind_Val.
  destruct (IH p1 (fun vb' => if decide (vb = vb') then add_counts st delta (kcs vb') else kcs vb'))
    as (p' & E & Hp' & Hc & Hoth); [done| |done|].
  - intros vb' Hvb'. case_decide as Heq; [by subst|]. rewrite Hother by congruence. auto.
  - exists p'. split; [done|]. split; [done|]. split.
    + intros vb' Hvb'. by rewrite Hc.
    + intros conn' vb' Hne. rewrite Hoth, Hother; [done|congruence|done].
Qed.

(** ** Properties *)

Definition clock (now : Z) : tick := mkTick now true.
Definition example_recorder : StatRecorder :=
  mkStatRecorder 0 5000000 [clock 1000000; clock 6000000; clock 7000000] [].
Definition example_gs : AstaireGlobalStatistics := mkGlobalStats example_recorder 4 0 0 0 0 0.

(** C34: whatever order the threads' updates are interleaved in, and whenever
    refreshes happen, each global counter ends up advanced by the sum of the
    increments made to it (modulo its width). *)
Theorem global_counters_exact (g : AstaireGlobalStatistics) (ops ops' : list gs_op)
    (st : global_stat) (Hg : gs_ok g) (Hperm : ops ≡ₚ ops') :
  gs_get st (foldl gs_apply g ops) = u64 (gs_get st g + total (op_delta st) ops') /\
  gs_get st (foldl gs_apply g ops) = gs_get st (foldl gs_apply g ops').
Proof. rewrite !gs_run_count by done. by rewrite Hperm. Qed.

Lemma global_counters_exact_witness :
  gs_get Resynced_bytes_count
    (foldl gs_apply example_gs [Increment Resynced_bytes_count 7; Refresh true;
       Increment Resynced_keys_count 1; Increment Resynced_bytes_count 5]) = 12.
Proof.
  refine (eq_trans (proj1 (global_counters_exact example_gs _ 
    [Increment Resynced_bytes_count 7; Refresh true;
       Increment Resynced_keys_count 1; Increment Resynced_bytes_count 5] Resynced_bytes_count _ _)) _).
  - intros []; vm_compute; split; (discriminate || reflexivity).
  - reflexivity.
  - reflexivity.
Defined.

(** A refresh reports at most once: when forced, or when the period is over and
    its compare-exchange wins; then the bytes counted since the last read are
    collated to bytes per second over the elapsed whole seconds. *)
Lemma global_refresh_reports (force : bool) (g : AstaireGlobalStatistics) :
  let r := gs_recorder g in
  let t := (get_timestamp_us r).1 in
  let due := period_over (sr_timestamp_us r) (sr_target_period_us r) (tk_now t) && tk_cas t in
  let g' := gs_refresh force g in
  sr_reports (gs_recorder g') =
    sr_reports r ++ (if due || force then [gs_values g'] else []) /\
  (due = true -> gs_bandwidth_raw g' = 0 /\ sr_timestamp_us (gs_recorder g') = tk_now t /\
     read_bandwidth (gs_bandwidth_raw g) (u64 (tk_now t - sr_timestamp_us r)) = Val (gs_bandwidth g')) /\
  (due = false -> gs_bandwidth_raw g' = gs_bandwidth_raw g /\ gs_bandwidth g' = gs_bandwidth g).
Proof.
  intros r t due g'. subst g'. unfold gs_refresh. fold r.
  change (get_timestamp_us r) with (t, (get_timestamp_us r).2). cbv beta iota.
  change (sr_target_period_us (get_timestamp_us r).2) with (sr_target_period_us r). fold due.
  destruct due; [|destruct force]; cbn [orb]; rewrite ?app_nil_r; try done.
  split; [done|]. split; [|done]. intros _. split; [done|]. split; [done|].
  apply read_bandwidth_defined.
Qed.

Definition no_split (_ : bytes) : option (bytes * Z) := None.
Definition example_ps : AstairePerConnectionStatistics := mkPerConnStats example_recorder [].
Definition example_ps1 : AstairePerConnectionStatistics :=
  match add_connection no_split (lit "10.0.0.1:11211") [3; 5] example_ps with
  | Val (_, p) => p
  | Fail _ => example_ps
  end.

(** The four strings that open a connection's report. *)
Definition cr_gauges (c : ConnectionRecord) : bytes * Z * Z * Z :=
  (cr_address c, cr_port c, cr_total_buckets c, cr_resynced_bucket_count c).

Lemma cr_read_gauges period_us c c' : cr_read period_us c = Val c' -> cr_gauges c' = cr_gauges c.
Proof. unfold cr_read. intros (m & _ & [= <-])%bind_Val_inv. done. Qed.

Lemma over_connections_gauges period_us cs cs' :
  over_connections (cr_read period_us) cs = Val cs' -> map cr_gauges cs' = map cr_gauges cs.
Proof.
  revert cs'. induction cs as [|c cs IH]; intros cs'; cbn; [by intros [= <-]|].
  intros (c1 & Ec & (cs1 & Ecs & [= <-])%bind_Val_inv)%bind_Val_inv. cbn.
  by rewrite (cr_read_gauges _ _ _ Ec), (IH _ Ecs).
Qed.

Lemma ps_refreshed_reports p p' :
  ps_refreshed p = Val p' -> ps_connections p' = ps_connections p /\
  exists values, sr_reports (ps_recorder p') = sr_reports (ps_recorder p) ++ [values] /\
    decode_connections (length values) values = Some (map view_connection (ps_connections p)).
Proof.
  unfold ps_refreshed. intros (vs & E & [= <-])%bind_Val_inv. split; [done|].
  exists (mjoin vs). split; [done|]. apply decode_connections_write; [done|].
  by apply write_out_length.
Qed.

(** A forced refresh reports what it leaves, and does not touch the gauges. *)
Lemma ps_refresh_reports p p' :
  ps_refresh true p = Val p' -> map cr_gauges (ps_connections p') = map cr_gauges (ps_connections p) /\
  exists values, sr_reports (ps_recorder p') = sr_reports (ps_recorder p) ++ [values] /\
    decode_connections (length values) values = Some (map view_connection (ps_connections p')).
Proof.
  unfold ps_refresh. destruct (get_timestamp_us (ps_recorder p)) as [t r] eqn:Et.
  injection Et as _ Er. destruct (_ && _).
  - unfold ps_read. intros (p1 & (cs & Ecs & [= <-])%bind_Val_inv & Hr)%bind_Val_inv.
    apply ps_refreshed_reports in Hr as (Ec & values & Hv & Hd). cbn in *. subst r. rewrite Ec.
    split; [by eapply over_connections_gauges|]. by exists values.
  - intros (Ec & values & Hv & Hd)%ps_refreshed_reports. cbn in *. subst r. rewrite Ec.
    split; [done|]. by exists values.
Qed.

Lemma cr_put_ok st v c : cr_ok c -> cr_ok (cr_put st v c).
Proof. intros (l & Hl & Hs). exists l. by destruct c, st. Qed.

(** The operation that the tap threads use is one of the gauges'. *)
Lemma cr_set_resynced_gauge conn val p :
  cr_set_resynced_bucket_count conn val p = cr_gauge conn Conn_resynced_bucket_count (Gauge_set val) p.
Proof. unfold cr_set_resynced_bucket_count, cr_gauge. by destruct (ps_connections p !! conn) as [[]|]. Qed.

(** Whatever the atomics held, a new object's counts are zero. *)
Lemma new_global_zero r uninit raw bandwidth early st :
  gs_get st (AstaireGlobalStatistics_new r uninit raw bandwidth early) = 0.
Proof.
  unfold AstaireGlobalStatistics_new, gs_reset. destruct (get_timestamp_us _).
  rewrite gs_refresh_counts. by destruct st.
Qed.

(** C36: every change of a gauge of a registered connection (increment,
    decrement, zero or set) succeeds and is reported at once: the newest report
    decodes to the connections as they are after it, where that connection's
    gauge has its new value and nobody's other gauges have changed.  A new
    connection is not registered yet when its constructor sets total_buckets:
    the report this makes holds only the connections before it, and nothing is
    reported once it has been added. *)
Theorem gauge_change_reported (split_host_port : bytes -> option (bytes * Z)) (conn : nat)
    (st : conn_stat) (op : gauge_op) (server : bytes) (buckets : list Z)
    (p : AstairePerConnectionStatistics) (c : ConnectionRecord) (Hp : ps_ok p)
    (Hc : ps_connections p !! conn = Some c) :
  (exists p' values, cr_gauge conn st op p = Val p' /\ ps_ok p' /\
     sr_reports (ps_recorder p') = sr_reports (ps_recorder p) ++ [values] /\
     decode_connections (length values) values = Some (map view_connection (ps_connections p')) /\
     map cr_gauges (ps_connections p') =
       <[conn := cr_gauges (cr_put st (gauge_value op (cr_get st c)) c)]>
         (map cr_gauges (ps_connections p))) /\
  exists p' values old new,
    add_connection split_host_port server buckets p = Val (length (ps_connections p), p') /\
    ps_connections p' = old ++ [new] /\ map cr_gauges old = map cr_gauges (ps_connections p) /\
    cr_total_buckets new = u32 (Z.of_nat (length buckets)) /\ cr_resynced_bucket_count new = 0 /\
    sr_reports (ps_recorder p') = sr_reports (ps_recorder p) ++ [values] /\
    decode_connections (length values) values = Some (map view_connection old).
Proof.
  split.
  - unfold cr_gauge. rewrite Hc. cbn [use]. rewrite bind_Val. set (c' := cr_put _ _ c).
    set (p1 := mkPerConnStats _ _).
    assert (Hp1 : ps_ok p1).
    { apply Forall_insert; [done|]. apply cr_put_ok. by eapply Forall_lookup_1. }
    destruct (ps_refresh_ok true p1 Hp1) as (p' & E & Hp' & _).
    destruct (ps_refresh_reports p1 p' E) as (Hg & values & Hr & Hd).
    exists p', values. rewrite Hg. cbn [p1 ps_connections]. split_and!; try done.
    apply list_fmap_insert.
  - unfold add_connection. destruct (default _ _) as [address port].
    destruct (ps_refresh_ok true p Hp) as (p1 & E & _ & Hl & _).
    destruct (ps_refresh_reports p p1 E) as (Hg & values & Hr & Hd).
    rewrite E, bind_Val, Hl. do 4 eexists. split; [reflexivity|]. by split_and!.
Qed.

Lemma gauge_change_reported_witness :
  exists p', cr_gauge 0 Conn_total_buckets (Gauge_decrement 1) example_ps1 = Val p' /\
    map cr_gauges (ps_connections p') = [(lit "10.0.0.1:11211", 0, 1, 0)].
Proof.
  destruct (ps_connections example_ps1) as [|c l] eqn:E; [vm_compute in E; discriminate|].
  destruct (gauge_change_reported no_split 0 Conn_total_buckets (Gauge_decrement 1) [] [] example_ps1 c)
    as [(p' & values & Ep & _ & _ & _ & Hg) _].
  - apply Forall_singleton. exists [(3, mkBucketRecord 3 0 0 0 0); (5, mkBucketRecord 5 0 0 0 0)].
    split; [vm_compute; reflexivity|]. repeat constructor.
  - rewrite E. reflexivity.
  - exists p'. split; [exact Ep|]. rewrite Hg. vm_compute in E. injection E as <- <-. vm_compute. reflexivity.
Defined.

(** C33: once a connection is added for a list of vbuckets, get_bucket_stats
    finds a record for each of them: no sequence of increments for those
    vbuckets dereferences NULL, each vbucket's counts end up advanced by exactly
    its own increments, and no other connection's counts change. *)
Theorem tapped_bucket_stats_present (split_host_port : bytes -> option (bytes * Z))
    (server : bytes) (buckets : list Z) (p : AstairePerConnectionStatistics)
    (ops : list (Z * bucket_stat * Z)) (Hp : ps_ok p)
    (Hops : Forall (fun o => o.1.1 ∈ buckets) ops) :
  exists conn p1 p2,
    add_connection split_host_port server buckets p = Val (conn, p1) /\
    br_increments conn ops p1 = Val p2 /\ ps_ok p2 /\
    (forall vb, vb ∈ buckets -> bucket_counts p2 conn vb = Some (counts_after vb ops (0, 0))) /\
    (forall conn' vb, (conn' < length (ps_connections p))%nat ->
       bucket_counts p2 conn' vb = bucket_counts p conn' vb).
Proof.
  destruct (add_connection_ok split_host_port server buckets p Hp)
    as (conn & p1 & E1 & Hp1 & Hnew & Hold).
  destruct (br_increments_ok conn buckets ops p1 (fun _ => (0, 0)) Hp1 Hnew Hops)
    as (p2 & E2 & Hp2 & Hc & Hoth).
  exists conn, p1, p2. repeat split; try done. intros conn' vb Hlt.
  destruct (Hold conn' vb Hlt) as [Hne Hsame]. by rewrite Hoth.
Qed.

Lemma tapped_bucket_stats_present_witness :
  exists conn p1 p2,
    add_connection no_split (lit "10.0.0.1:11211") [3; 5] example_ps = Val (conn, p1) /\
    br_increments conn [(3, Bucket_keys, 1); (3, Bucket_bytes, 40)] p1 = Val p2 /\
    bucket_counts p2 conn 3 = Some (1, 40).
Proof.
  destruct (tapped_bucket_stats_present no_split (lit "10.0.0.1:11211") [3; 5] example_ps
    [(3, Bucket_keys, 1); (3, Bucket_bytes, 40)]) as (conn & p1 & p2 & E1 & E2 & _ & Hc & _).
  - constructor.
  - repeat constructor.
  - exists conn, p1, p2. split; [exact E1|]. split; [exact E2|]. apply (Hc 3). repeat constructor.
Defined.
