(* ===== verification/TapThread.v ===== *)
(** * The tap thread

    Models Astaire::tap_buckets_thread and vbucket_for_key (src/astaire.cpp):
    a thread with two client connections, to the tapped server and to the local
    memcached, which reads the TAP stream and writes each record of its
    vbuckets to the local memcached unless that holds a newer one.  Both peers
    are environments (class Peer of Connection.v); the functional theorems are
    proved against the LocalMemcached interface.  libmemcached's MD5 hash is a
    parameter. *)

From Stdlib Require Import ZArith Lia Strings.Byte.
From stdpp Require Import prelude.
From S2P Require Import Prelude WireUtils StdMap Messages WireSpec Connection LocalStore Statistics.

Open Scope Z_scope.

Definition ASTAIRE_KEY_PREFIX : bytes := lit "astaire\\".
Definition ASTAIRE_TAG_KEY : bytes := ASTAIRE_KEY_PREFIX ++ lit "tag".
Definition ASTAIRE_TAG_VALUE : bytes := lit "{}".

(** Subtraction of two int32_t values: overflow is undefined behaviour. *)
Definition i32_sub (a b : Z) : res Z :=
  if (- 2 ^ 31 <=? a - b) && (a - b <? 2 ^ 31) then Val (a - b) else Fail Undefined.

(** The TapBucketsThreadData, less the flag and the shared statistics. *)
Record TapBucketsThreadData : Type := mkTapData {
  td_tap_server : bytes;
  td_local_server : bytes;
  td_buckets : list Z;
  td_conn_stats : nat
}.

(** The state of the thread: its connections, the success flag of its thread
    data, and the statistics it shares. *)
Record tap_thread (L T : Type) : Type := mkTapThread {
  tt_local : Connection L;
  tt_tap : Connection T;
  tt_success : bool;
  tt_global : AstaireGlobalStatistics;
  tt_conns : AstairePerConnectionStatistics
}.
Arguments mkTapThread {L T}.
Arguments tt_local {L T}.
Arguments tt_tap {L T}.
Arguments tt_success {L T}.
Arguments tt_global {L T}.
Arguments tt_conns {L T}.

(** What to do with a record, given the local memcached's answer. *)
Inductive action : Type := Do_nothing | Do_add | Do_replace (cas : Z) | Bad_result.

Definition choose_action (get_rsp : GetRsp) (mutate : TapMutateReq) : res action :=
  if brs_status (gr_rsp get_rsp) =? ResultCode_value ResultCode.NO_ERROR then
    gf ← use (gr_flags get_rsp);
    mf ← use (tm_flags mutate);
    d ← i32_sub (i32 gf) (i32 mf);
    mret (if d <? 0 then Do_replace (bm_cas (brs_base (gr_rsp get_rsp))) else Do_nothing)
  else if brs_status (gr_rsp get_rsp) =? ResultCode_value ResultCode.KEY_NOT_FOUND
       then mret Do_add
  else mret Bad_result.

Section tap.
Context {L T : Type} `{Peer L} `{Peer T}.
(** memcached_generate_hash_value with MEMCACHED_HASH_MD5, as a uint32_t. *)
Context (memcached_generate_hash_value : bytes -> Z).

Implicit Types (st : tap_thread L T).

Definition vbucket_for_key (key : bytes) : Z :=
  let hash := i32 (memcached_generate_hash_value key) in
  u16 (Z.land hash (128 - 1)).

Definition with_local (c : Connection L) st : tap_thread L T :=
  mkTapThread c (tt_tap st) (tt_success st) (tt_global st) (tt_conns st).
Definition with_tap (c : Connection T) st : tap_thread L T :=
  mkTapThread (tt_local st) c (tt_success st) (tt_global st) (tt_conns st).
Definition with_success (b : bool) st : tap_thread L T :=
  mkTapThread (tt_local st) (tt_tap st) b (tt_global st) (tt_conns st).

(** Send a request to the local memcached and wait for a message: [None] when
    the connection is lost.  The result of send is ignored. *)
Definition local_request (req : message) st : res (tap_thread L T * option message) :=
  '(c, _) ← send (tt_local st) req;
  '(c, status, msg) ← recv c;
  let st := with_local c st in
  if decide (status = Status.OK) then m ← use msg; mret (st, Some m)
  else mret (st, None).

(** The statistics of one record that was handled. *)
Definition count_record (td : TapBucketsThreadData) (vbucket : Z) (mutate : TapMutateReq) st :
    res (tap_thread L T) :=
  w ← to_wire (M_TapMutateReq mutate);
  let n := u32 (len w) in
  let g := gs_increment Resynced_keys_count 1 (tt_global st) in
  let g := gs_increment Resynced_bytes_count n g in
  let g := gs_increment_bandwidth n g in
  p ← br_increment (td_conn_stats td) vbucket Bucket_keys 1 (tt_conns st);
  p ← br_increment (td_conn_stats td) vbucket Bucket_bytes n p;
  p ← br_increment (td_conn_stats td) vbucket Bucket_bandwidth n p;
  mret (mkTapThread (tt_local st) (tt_tap st) (tt_success st) g p).

(** Store the record as decided; [false] when the connection is lost. *)
Definition store_record (a : action) (vbucket : Z) (mutate : TapMutateReq) st :
    res (tap_thread L T * bool) :=
  let key := bm_key (brq_base (tm_req mutate)) in
  match a with
  | Do_add =>
      flags ← use (tm_flags mutate);
      expiry ← use (tm_expiry mutate);
      '(st, rsp) ← local_request (AddReq_new key vbucket (tm_value mutate) flags expiry) st;
      mret (st, match rsp with Some _ => true | None => false end)
  | Do_replace cas =>
      flags ← use (tm_flags mutate);
      expiry ← use (tm_expiry mutate);
      '(st, rsp) ← local_request
        (ReplaceReq_new key vbucket (tm_value mutate) cas flags expiry) st;
      mret (st, match rsp with Some _ => true | None => false end)
  | _ => mret (st, true)
  end.

(** The TAP_MUTATE branch of the loop. *)
Definition handle_mutate (td : TapBucketsThreadData) (mutate : TapMutateReq) st :
    res (tap_thread L T) :=
  let key := bm_key (brq_base (tm_req mutate)) in
  let vbucket := vbucket_for_key key in
  if bool_decide (vbucket ∉ td_buckets td) then mret st
  else if bool_decide (ASTAIRE_KEY_PREFIX `prefix_of` key) then mret st
  else
    '(st, base_msg) ← local_request (GetReq_new key 0) st;
    match base_msg with
    | None => mret (with_success false st)
    | Some base_msg =>
        if negb (is_response base_msg) ||
           negb (bm_op_code (base_of base_msg) =? OpCode_value OpCode.GET)
        then mret (with_success false st)
        else
          match base_msg with
          | M_GetRsp get_rsp =>
              a ← choose_action get_rsp mutate;
              match a with
              | Bad_result => mret (with_success false st)
              | _ =>
                  '(st, stored) ← store_record a vbucket mutate st;
                  if (stored : bool) then count_record td vbucket mutate st
                  else mret (with_success false st)
              end
          | _ => Fail Undefined
          end
    end.

(** The body of the do-while loop, and whether it set [finished]. *)
Definition tap_step (td : TapBucketsThreadData) st : res (tap_thread L T * bool) :=
  '(c, status, msg) ← recv (tt_tap st);
  let st := with_tap c st in
  match status with
  | Status.ERROR => mret (with_success false st, true)
  | Status.DISCONNECTED => mret (st, true)
  | Status.OK =>
      m ← use msg;
      if is_response m then mret (with_success false st, true)
      else if bm_op_code (base_of m) =? OpCode_value OpCode.TAP_MUTATE then
        match m with
        | M_TapMutateReq mutate => st ← handle_mutate td mutate st; mret (st, false)
        | _ => Fail Undefined
        end
      else mret (with_success false st, true)
  end.

Fixpoint tap_loop (fuel : nat) (td : TapBucketsThreadData) st : res (tap_thread L T) :=
  match fuel with
  | O => Fail Out_of_fuel
  | S fuel =>
      '(st, finished) ← tap_step td st;
      if (finished : bool) then mret st else tap_loop fuel td st
  end.

(** After the loop: the statistics of a successful tap, and both connections
    closed. *)
Definition tap_finish (td : TapBucketsThreadData) st : res (tap_thread L T) :=
  let n := Z.of_nat (length (td_buckets td)) in
  st ← (if tt_success st then
          p ← cr_set_resynced_bucket_count (td_conn_stats td) n (tt_conns st);
          mret (mkTapThread (tt_local st) (tt_tap st) true
                  (gs_increment Resynced_bucket_count n (tt_global st)) p)
        else mret st);
  mret (mkTapThread (disconnect (tt_local st)) (disconnect (tt_tap st)) (tt_success st)
          (tt_global st) (tt_conns st)).

(** The thread, from thread data whose success flag is false.  The loop's fuel
    is the amount of data the tapped server will send: each message takes at
    least a header of it. *)
Definition tap_buckets_thread (local_env tap_env : net_env) (td : TapBucketsThreadData)
    (local_conn : Connection L) (tap_conn : Connection T)
    (g : AstaireGlobalStatistics) (p : AstairePerConnectionStatistics) : res (tap_thread L T) :=
  let '(local_conn, rc) := connect local_env local_conn in
  if negb (rc =? 0) then mret (mkTapThread local_conn tap_conn false g p)
  else
    let '(tap_conn, rc) := connect tap_env tap_conn in
    if negb (rc =? 0) then mret (mkTapThread (disconnect local_conn) tap_conn false g p)
    else
      '(tap_conn, _) ← send tap_conn (TapConnectReq_new (td_buckets td));
      let st := mkTapThread local_conn tap_conn true g p in
      st ← tap_loop (S (pending tap_conn)) td st;
      tap_finish td st.
End tap.

(** ** The thread always finishes *)

(** How a thread can fail: a throwing parse, or undefined behaviour. *)
Definition crash (f : failure) : Prop := f = Out_of_range \/ f = Undefined.

Lemma crash_Undefined : crash Undefined.
Proof. by right. Qed.
#[export] Hint Resolve crash_Undefined : astaire.

(** Step through a monadic computation under [outcome]. *)
Ltac step_with H := eapply outcome_bind; [apply H | cbv beta].
Ltac step_use x := eapply outcome_bind; [apply (outcome_use _ _ crash_Undefined) | intros x ?].

Lemma to_wire_outcome m : outcome crash (fun _ => True) (to_wire m).
Proof.
  unfold to_wire. eapply outcome_bind; [|done].
  assert (outcome crash (fun _ => True) (generate_extra m)) as He; [|exact He].
  destruct m; cbn; unfold GetRsp_generate_extra, SetAddReplaceReq_generate_extra; try done.
  all: repeat match goal with
       | |- context [use ?o] => destruct o; cbn
       | |- context [if ?b then _ else _] => destruct b; cbn
       end; auto with astaire.
Qed.

Section finishes.
Context {L T : Type} `{Peer L} `{Peer T}.
Context (hash : bytes -> Z).
Implicit Types (st : tap_thread L T).

Lemma send_outcome {S} `{Peer S} (c : Connection S) m :
  outcome crash (fun r => c_rcvtimeo r.1 = c_rcvtimeo c) (send c m).
Proof using.
  unfold send. destruct (c_sock c <? 0); [done|]. step_with to_wire_outcome. intros w _.
  by destruct (on_send (c_peer c) w) as [[? ?]|].
Qed.

Lemma recv_outcome {S} (c : Connection S) :
  c_rcvtimeo c = true ->
  outcome crash (fun r => c_rcvtimeo r.1.1 = true /\
    (r.1.2 = Status.OK -> c_sock r.1.1 <> -1 /\
       exists m, r.2 = Some m /\ dispatched m = true /\ (pending r.1.1 + 24 <= pending c)%nat)) (recv c).
Proof using.
  intros Ht. destruct (recv c) as [[[c' status] msg]|f] eqn:E; cbn.
  - pose proof (recv_inv _ _ _ _ E) as Hinv. unfold recv in E.
    destruct (Z.eqb_spec (c_sock c) (-1)).
    + injection E as <- <- <-. done.
    + apply bind_Val_inv in E as ([[[st m] buf] inq] & _ & E). injection E as <- <- <-. cbn in *.
      split; [done|]. intros ->. destruct Hinv as [(_ & m' & -> & Hd & _ & Hp)|[? _]]; [|done].
      rewrite decide_True by done. split; [done|]. exists m'. split; [done|]. split; [done|]. lia.
  - unfold recv in E. destruct (c_sock c =? -1); [done|].
    apply bind_Fail_inv in E as [E|([[[? ?] ?] ?] & _ & E)]; [|done].
    apply recv_loop_fail in E as [->|[-> E]]; [by left | congruence].
Qed.

(** The read timeout is set on the local connection, and a thread that still
    counts as successful has not lost it. *)
Definition tap_inv st : Prop :=
  c_rcvtimeo (tt_local st) = true /\ (tt_success st = true -> c_sock (tt_local st) <> -1).

(** What a step on the local connection leaves alone. *)
Definition same_tap st st' : Prop :=
  tt_tap st' = tt_tap st /\ (tt_success st' = true -> tt_success st = true).

Lemma local_request_outcome st req :
  c_rcvtimeo (tt_local st) = true ->
  outcome crash (fun r => c_rcvtimeo (tt_local r.1) = true /\ tt_tap r.1 = tt_tap st /\
    tt_success r.1 = tt_success st /\
    forall m, r.2 = Some m -> c_sock (tt_local r.1) <> -1 /\ dispatched m = true)
    (local_request req st).
Proof.
  intros Ht. unfold local_request. step_with (send_outcome (tt_local st) req).
  intros [c b] Hc. cbn in Hc. step_with (recv_outcome c); [congruence|].
  intros [[c' status] msg] [Ht' Hr]. cbn in Ht', Hr. case_decide as E; [|done].
  step_use m. split; [done|]. split; [done|]. split; [done|]. intros m' [= <-].
  destruct (Hr E) as (? & m0 & Em & Hd & _). split; [done|]. congruence.
Qed.

Lemma choose_action_outcome r m : outcome crash (fun _ => True) (choose_action r m).
Proof using.
  unfold choose_action, i32_sub. destruct (_ =? _); [|by destruct (_ =? _)].
  step_use gf. step_use mf. by destruct (_ && _); cbn; auto with astaire.
Qed.

Lemma over_buckets_outcome {A} (f : BucketRecord -> A) m :
  outcome crash (fun _ => True) (over_buckets f m).
Proof using.
  induction m as [|[vb b] m IH]; [done|]. cbn [over_buckets]. step_use b'. step_with IH. done.
Qed.

Lemma over_connections_outcome {A B} (f : A -> res B) l :
  (forall a, outcome crash (fun _ => True) (f a)) ->
  outcome crash (fun _ => True) (over_connections f l).
Proof using.
  intros Hf. induction l as [|a l IH]; [done|]. cbn [over_connections].
  step_with (Hf a). intros b _. step_with IH. done.
Qed.

Lemma ps_refreshed_outcome p : outcome crash (fun _ => True) (ps_refreshed p).
Proof using.
  unfold ps_refreshed. eapply outcome_bind; [apply over_connections_outcome|done]. intros c.
  unfold cr_write_out. step_with (over_buckets_outcome br_write_out (cr_bucket_map c)). done.
Qed.

Lemma ps_read_outcome period p : outcome crash (fun _ => True) (ps_read period p).
Proof using.
  unfold ps_read. eapply outcome_bind; [apply over_connections_outcome|done]. intros c.
  unfold cr_read. eapply outcome_bind; [apply over_buckets_outcome|done].
Qed.

Lemma ps_refresh_outcome force p : outcome crash (fun _ => True) (ps_refresh force p).
Proof using.
  unfold ps_refresh. destruct (get_timestamp_us _) as [t r]. destruct (_ && _).
  - eapply outcome_bind; [apply ps_read_outcome|]. intros q _. apply ps_refreshed_outcome.
  - destruct force; [apply ps_refreshed_outcome | done].
Qed.

Lemma br_increment_outcome conn vb stt d p :
  outcome crash (fun _ => True) (br_increment conn vb stt d p).
Proof using.
  unfold br_increment. step_use c. destruct (get_bucket_stats vb c) as [b c']. step_use b'.
  apply ps_refresh_outcome.
Qed.

Lemma count_record_outcome td vb m st :
  outcome crash (fun st' => tt_local st' = tt_local st /\ tt_tap st' = tt_tap st /\
    tt_success st' = tt_success st) (count_record td vb m st).
Proof using.
  unfold count_record. step_with to_wire_outcome. intros w _.
  do 3 (step_with br_increment_outcome; intros ? _). done.
Qed.

Lemma store_record_outcome a vb m st :
  tap_inv st ->
  outcome crash (fun r => tt_tap r.1 = tt_tap st /\ tt_success r.1 = tt_success st /\
    c_rcvtimeo (tt_local r.1) = true /\ (r.2 = true -> tap_inv r.1)) (store_record a vb m st).
Proof.
  intros [Ht Hs]. destruct a; cbn [store_record]; try done; step_use f; step_use e;
    (step_with local_request_outcome; [done|]); intros [st' rsp] (Ht' & Htap & Hsu & Hm);
    cbn in *; repeat split; try done; destruct rsp as [r|]; try done; intros _;
    by apply (Hm r).
Qed.

Lemma handle_mutate_outcome td m st :
  tap_inv st ->
  outcome crash (fun st' => tap_inv st' /\ same_tap st st') (handle_mutate hash td m st).
Proof.
  intros [Ht Hs]. unfold handle_mutate. case_bool_decide; [done|]. case_bool_decide; [done|].
  step_with local_request_outcome; [done|].
  intros [st1 [msg|]] (Ht1 & Htap & Hsu & Hm); cbn [fst snd] in *; [|done].
  destruct (Hm msg eq_refl) as [Hsk Hd]. destruct (_ || _) eqn:Eop; [done|].
  apply orb_false_iff in Eop as [Er Eop]. apply negb_false_iff in Er, Eop. apply Z.eqb_eq in Eop.
  destruct (dispatched_GetRsp msg Hd Er Eop) as [g ->].
  step_with choose_action_outcome. intros a _.
  assert (Hinv1 : tap_inv st1) by (split; auto).
  assert (Hsave : outcome crash (fun st' => tap_inv st' /\ same_tap st st')
    ('(st2, stored) ← store_record a (vbucket_for_key hash (bm_key (brq_base (tm_req m)))) m st1;
     if (stored : bool)
     then count_record td (vbucket_for_key hash (bm_key (brq_base (tm_req m)))) m st2
     else mret (with_success false st2))).
  { step_with store_record_outcome; [done|]. intros [st2 [|]] (Htap2 & Hsu2 & Ht2 & Hi2);
      cbn [fst snd] in *.
    - specialize (Hi2 eq_refl). eapply outcome_mono; [apply count_record_outcome|].
      intros st3 (El & Et & Es). unfold tap_inv, same_tap. rewrite El, Et, Es.
      split; [exact Hi2|]. split; congruence.
    - split; [done|]. split; [cbn; congruence | done]. }
  destruct a; [exact Hsave | exact Hsave | exact Hsave | done].
Qed.

Lemma tap_step_outcome td st :
  tap_inv st -> c_rcvtimeo (tt_tap st) = true ->
  outcome crash (fun r => tap_inv r.1 /\ c_rcvtimeo (tt_tap r.1) = true /\
    (tt_success r.1 = true -> tt_success st = true) /\
    (r.2 = false -> (pending (tt_tap r.1) + 24 <= pending (tt_tap st))%nat)) (tap_step hash td st).
Proof.
  intros Hinv Ht. unfold tap_step. step_with (recv_outcome (tt_tap st)); [done|].
  intros [[c status] msg] [Ht' Hr]. cbn [fst snd] in Ht', Hr.
  assert (Hlost : forall b : bool, (b = true -> tt_success st = true) ->
    tap_inv (mkTapThread (tt_local st) c b (tt_global st) (tt_conns st)) /\
    c_rcvtimeo c = true /\ (b = true -> tt_success st = true) /\
    (true = false -> (pending c + 24 <= pending (tt_tap st))%nat)).
  { intros b Hb. destruct Hinv as [? ?]. split; [split; auto|]. done. }
  destruct status; [|apply (Hlost (tt_success st)); auto | by apply (Hlost false)].
  destruct (Hr eq_refl) as (_ & m & -> & Hd & Hp). cbn [use]. rewrite bind_Val.
  destruct (is_response m) eqn:Er; [by apply (Hlost false)|].
  destruct (Z.eqb_spec (bm_op_code (base_of m)) (OpCode_value OpCode.TAP_MUTATE)) as [Eop|];
    [|by apply (Hlost false)].
  apply negb_false_iff in Er. destruct (dispatched_TapMutateReq m Hd Er Eop) as [mu ->].
  eapply outcome_bind; [apply (handle_mutate_outcome td mu (with_tap c st) Hinv)|].
  intros st' (Hi & Htap & Hsu). cbn. rewrite Htap. done.
Qed.

(** More fuel than one turn per header of data makes no difference. *)
Lemma tap_loop_turns td : forall k k' st,
  tap_inv st -> c_rcvtimeo (tt_tap st) = true ->
  (pending (tt_tap st) < 24 * k)%nat -> (pending (tt_tap st) < 24 * k')%nat ->
  tap_loop hash k td st = tap_loop hash k' td st.
Proof.
  induction k as [|k IH]; intros [|k'] st Hinv Ht Hk Hk'; try lia. cbn [tap_loop].
  pose proof (tap_step_outcome td st Hinv Ht) as Ho.
  destruct (tap_step hash td st) as [[st1 fin]|f]; [|done]. cbn in Ho. rewrite !bind_Val.
  destruct Ho as (Hi & Ht1 & _ & Hp). destruct fin; [done|]. specialize (Hp eq_refl).
  apply IH; [done|done|lia|lia].
Qed.

Lemma tap_loop_outcome td fuel : forall st,
  tap_inv st -> c_rcvtimeo (tt_tap st) = true -> (pending (tt_tap st) < fuel)%nat ->
  outcome crash (fun st' => tap_inv st' /\ (tt_success st' = true -> tt_success st = true))
    (tap_loop hash fuel td st).
Proof.
  induction fuel as [|fuel IH]; intros st Hinv Ht Hf; [lia|]. cbn [tap_loop].
  eapply outcome_bind; [by apply tap_step_outcome|].
  intros [st1 fin] (Hi & Ht1 & Hs & Hp). cbn [fst snd] in *. destruct fin; [done|].
  specialize (Hp eq_refl). eapply outcome_mono; [apply IH; [done|done|lia]|].
  intros st' [? ?]. auto.
Qed.

Lemma tap_finish_outcome td st :
  outcome crash (fun st' => tt_success st' = tt_success st) (tap_finish td st).
Proof using.
  unfold tap_finish. destruct (tt_success st) eqn:E; cbn; [|done].
  eapply outcome_bind; [|intros st' Hst; exact Hst].
  eapply outcome_bind; [|intros p Hp; exact (eq_refl true)].
  unfold cr_set_resynced_bucket_count. step_use c. apply ps_refresh_outcome.
Qed.
End finishes.

(** ** The bucket counts of a tap *)

(** A successful tap adds its vbuckets to the bucket count, once, after its loop;
    nothing else a tap does changes that count or the total. *)
Section counts.
Context {L T : Type} `{Peer L} `{Peer T} (hash : bytes -> Z).
Implicit Types (st : tap_thread L T).

Definition same_bucket_counts (g g' : AstaireGlobalStatistics) : Prop :=
  gs_get Total_buckets g' = gs_get Total_buckets g /\
  gs_get Resynced_bucket_count g' = gs_get Resynced_bucket_count g.

Lemma local_request_global req st st' m :
  local_request req st = Val (st', m) -> tt_global st' = tt_global st.
Proof using.
  unfold local_request. intros ([c b] & _ & ([[c' status] msg] & _ & E)%bind_Val_inv)%bind_Val_inv.
  destruct (decide _); [|by injection E as <- _]. destruct msg; [|done]. by injection E as <- _.
Qed.

Lemma store_record_global a vb m st st' b :
  store_record a vb m st = Val (st', b) -> tt_global st' = tt_global st.
Proof using.
  destruct a; cbn [store_record]; try (by intros [= <- _]);
    intros (f & _ & (e & _ & ([st1 rsp] & E%local_request_global & [= <- _])%bind_Val_inv)%bind_Val_inv)%bind_Val_inv;
    exact E.
Qed.

Lemma count_record_counts td vb m st st' :
  count_record td vb m st = Val st' -> same_bucket_counts (tt_global st) (tt_global st').
Proof using.
  unfold count_record. intros (w & _ & E)%bind_Val_inv. cbv zeta in E.
  repeat apply bind_Val_inv in E as (? & _ & E). injection E as <-. cbn [tt_global].
  unfold same_bucket_counts, gs_increment_bandwidth. rewrite !gs_refresh_counts.
  change (gs_get Total_buckets (mkGlobalStats ?r ?a ?b ?c ?d ?e ?f)) with a.
  change (gs_get Resynced_bucket_count (mkGlobalStats ?r ?a ?b ?c ?d ?e ?f)) with b.
  change (gs_total_buckets ?g) with (gs_get Total_buckets g).
  change (gs_resynced_bucket_count ?g) with (gs_get Resynced_bucket_count g).
  unfold gs_increment. by rewrite !gs_refresh_counts, !gs_get_put, !gs_refresh_counts, !gs_get_put.
Qed.

Lemma handle_mutate_counts td m st st' :
  handle_mutate hash td m st = Val st' -> same_bucket_counts (tt_global st) (tt_global st').
Proof using.
  unfold handle_mutate. destruct (bool_decide _); [by intros [= <-]|].
  destruct (bool_decide _); [by intros [= <-]|].
  intros ([st1 [bm|]] & E1%local_request_global & E)%bind_Val_inv; [|by injection E as <-; cbn; rewrite E1].
  rewrite <- E1. destruct (_ || _); [by injection E as <-|]. destruct bm; try done.
  apply bind_Val_inv in E as (a & _ & E).
  assert (Hsave : forall r, ('(st2, stored) ← store_record a (vbucket_for_key hash (bm_key (brq_base (tm_req m)))) m st1;
     if (stored : bool) then count_record td (vbucket_for_key hash (bm_key (brq_base (tm_req m)))) m st2
     else mret (with_success false st2)) = Val r -> same_bucket_counts (tt_global st1) (tt_global r)).
  { intros st3 ([st2 stored] & E2%store_record_global & Er)%bind_Val_inv. rewrite <- E2.
    destruct stored; [by apply count_record_counts in Er|by injection Er as <-]. }
  destruct a; [by apply Hsave|by apply Hsave|by apply Hsave|by injection E as <-].
Qed.

Lemma tap_step_counts td st st' fin :
  tap_step hash td st = Val (st', fin) -> same_bucket_counts (tt_global st) (tt_global st').
Proof using.
  unfold tap_step. intros ([[c status] msg] & _ & E)%bind_Val_inv.
  destruct status; [|by injection E as <- _|by injection E as <- _].
  apply bind_Val_inv in E as (m & _ & E). destruct (is_response m); [by injection E as <- _|].
  destruct (_ =? _); [|by injection E as <- _]. destruct m; try done.
  apply bind_Val_inv in E as (st1 & E & [= <- _]). by apply handle_mutate_counts in E.
Qed.

Lemma tap_loop_counts td fuel : forall st st',
  tap_loop hash fuel td st = Val st' -> same_bucket_counts (tt_global st) (tt_global st').
Proof using.
  induction fuel as [|fuel IH]; intros st st'; [done|]. cbn [tap_loop].
  intros ([st1 fin] & [H1 H2]%tap_step_counts & E)%bind_Val_inv.
  destruct fin; [by injection E as <-|]. apply IH in E as [H3 H4].
  split; congruence.
Qed.

Lemma tap_thread_counts local_env tap_env td lc tc g p st' :
  tap_buckets_thread hash local_env tap_env td lc tc g p = Val st' ->
  gs_get Total_buckets (tt_global st') = gs_get Total_buckets g /\
  gs_get Resynced_bucket_count (tt_global st') =
    if tt_success st'
    then fetch_add (gs_get Resynced_bucket_count g) (Z.of_nat (length (td_buckets td)))
    else gs_get Resynced_bucket_count g.
Proof using.
  unfold tap_buckets_thread. destruct (connect local_env lc) as [lc' rc1].
  destruct (negb (rc1 =? 0)); [by intros [= <-]|]. destruct (connect tap_env tc) as [tc' rc2].
  destruct (negb (rc2 =? 0)); [by intros [= <-]|].
  intros ([tc2 b] & _ & (st & [H1 H2]%tap_loop_counts & E)%bind_Val_inv)%bind_Val_inv.
  cbn in H1, H2. unfold tap_finish in E. apply bind_Val_inv in E as (st1 & E & [= <-]).
  destruct (tt_success st) eqn:Es; cbn [tt_success tt_global].
  - apply bind_Val_inv in E as (q & _ & [= <-]). cbn [tt_success tt_global].
    unfold gs_increment. rewrite !gs_refresh_counts, !gs_get_put. cbn.
    rewrite decide_False, decide_True, H1, H2 by done. done.
  - injection E as <-. rewrite Es. done.
Qed.
End counts.

(** POSIX: a descriptor is at least -1, and a call that fails sets errno. *)
Definition env_ok (env : net_env) : Prop :=
  -1 <= fst (os_socket env) /\ snd (os_socket env) <> 0 /\
  snd (os_connect env) <> 0 /\ snd (os_setsockopt env) <> 0.

Lemma connect_zero {S} env (c c' : Connection S) :
  env_ok env -> connect env c = (c', 0) ->
  c_rcvtimeo c' = true /\ 0 <= c_sock c' /\ c_buffer c' = c_buffer c /\ c_in c' = c_in c /\
  c_peer c' = c_peer c.
Proof.
  intros (Hfd & He1 & He2 & He3). unfold connect.
  destruct (split_host_port env (c_address c)) as [[host port]|]; [|done].
  destruct (Z.ltb_spec (os_getaddrinfo env host port) 0); [intros [= _ E]; lia|].
  destruct (os_socket env) as [fd err1]. cbn in *. destruct (Z.ltb_spec fd 0); [congruence|].
  destruct (os_connect env) as [rc2 err2]. destruct (rc2 <? 0); [cbn in *; congruence|].
  destruct (os_setsockopt env) as [rc3 err3]. destruct (rc3 <? 0); [cbn in *; congruence|].
  intros [= <-]. done.
Qed.

(** C18: a tap thread finishes whenever the tapped server's stream is finite,
    whatever is in it and however it ends (closed, reset, or silence), and
    whatever the local server answers: the thread returns, or crashes by a
    throwing parse or on data with undefined behaviour, and never waits for
    ever, because both connections have a read timeout.  Its loop takes at most
    one turn for every 24 bytes (a header) it is sent, and one more; a server
    that goes on streaming keeps it running. *)
Theorem tap_thread_finishes {L T : Type} `{Peer L} `{Peer T} (hash : bytes -> Z)
    (local_env tap_env : net_env) (td : TapBucketsThreadData)
    (local_conn : Connection L) (tap_conn : Connection T)
    (g : AstaireGlobalStatistics) (p : AstairePerConnectionStatistics)
    (Hl : env_ok local_env) (Ht : env_ok tap_env) :
  match tap_buckets_thread hash local_env tap_env td local_conn tap_conn g p with
  | Val _ => True
  | Fail f => f = Out_of_range \/ f = Undefined
  end /\
  forall (st : tap_thread L T) turns, tap_inv st -> c_rcvtimeo (tt_tap st) = true ->
    (pending (tt_tap st) < 24 * turns)%nat ->
    tap_loop hash turns td st = tap_loop hash (S (pending (tt_tap st))) td st.
Proof.
  split; [|intros st turns Hi Hto Hk; apply tap_loop_turns; [done|done|done|lia]].
  unfold tap_buckets_thread. destruct (connect local_env local_conn) as [lc rc] eqn:El.
  destruct (Z.eqb_spec rc 0) as [->|]; cbn; [|done].
  destruct (connect tap_env tap_conn) as [tc rc] eqn:Et.
  destruct (Z.eqb_spec rc 0) as [->|]; cbn; [|done].
  apply connect_zero in El as (Hlt & Hls & _); [|done].
  apply connect_zero in Et as (Htt & _); [|done].
  change (outcome crash (fun _ => True) ('(tap_conn, _) ← send tc (TapConnectReq_new (td_buckets td));
    st ← tap_loop hash (S (pending tap_conn)) td (mkTapThread lc tap_conn true g p);
    tap_finish td st)).
  eapply outcome_bind; [apply send_outcome|]. intros [tc' b] Hc. cbn in Hc.
  eapply outcome_bind.
  - apply tap_loop_outcome; [split; [done|cbn; lia] | cbn; congruence | cbn; lia].
  - intros st _. eapply outcome_mono; [apply tap_finish_outcome|done].
Qed.

Lemma i32_u32 z : in_u32 z -> i32 z = if z <? 2 ^ 31 then z else z - 2 ^ 32.
Proof.
  unfold in_u32, i32. intros Hz. destruct (Z.ltb_spec z (2 ^ 31)).
  - rewrite Z.mod_small; lia.
  - rewrite <- (Z.mod_unique (z + 2 ^ 31) (2 ^ 32) 1 (z + 2 ^ 31 - 2 ^ 32)); lia.
Qed.

(** C19: when the local memcached has a record, the tap replaces it exactly when
    the streamed record's 32-bit millisecond timestamp is later in serial
    order (ahead by at most half the clock's range), using the CAS value of the
    GET; except that when the signed subtraction overflows - one timestamp below
    2^31 and the other above, even a millisecond apart - the behaviour is
    undefined. *)
Theorem choose_action_serial_order (get_rsp : GetRsp) (mutate : TapMutateReq) (gf mf : Z)
    (Hok : brs_status (gr_rsp get_rsp) = ResultCode_value ResultCode.NO_ERROR)
    (Hgf : gr_flags get_rsp = Some gf) (Hmf : tm_flags mutate = Some mf)
    (Hg : in_u32 gf) (Hm : in_u32 mf) :
  let ahead := (mf - gf) mod 2 ^ 32 in
  let overflow := (i32 gf - i32 mf <? - 2 ^ 31) || (2 ^ 31 <=? i32 gf - i32 mf) in
  choose_action get_rsp mutate =
    if overflow then Fail Undefined
    else Val (if (0 <? ahead) && (ahead <=? 2 ^ 31)
              then Do_replace (bm_cas (brs_base (gr_rsp get_rsp))) else Do_nothing).
Proof.
  intros ahead overflow. unfold choose_action. rewrite Hok, Z.eqb_refl, Hgf, Hmf. cbn [use].
  rewrite !bind_Val. unfold i32_sub, overflow.
  assert (Ha : ahead = mf - gf \/ ahead = mf - gf + 2 ^ 32 /\ mf < gf).
  { unfold ahead, in_u32 in *. destruct (Z.le_gt_cases gf mf).
    - left. apply Z.mod_small. lia.
    - right. split; [|lia]. rewrite <- (Z.mod_unique (mf - gf) (2 ^ 32) (-1) (mf - gf + 2 ^ 32)); lia. }
  assert (Hr : 0 <= ahead < 2 ^ 32) by (apply Z.mod_pos_bound; lia).
  rewrite !i32_u32 by done. unfold in_u32 in *.
  destruct (Z.ltb_spec gf (2 ^ 31)), (Z.ltb_spec mf (2 ^ 31));
  repeat match goal with
  | |- context [?a <=? ?b] => destruct (Z.leb_spec a b); cbn [andb orb mbind res_bind]
  | |- context [?a <? ?b] => destruct (Z.ltb_spec a b); cbn [andb orb mbind res_bind]
  end; try done; exfalso; lia.
Qed.

(** a tap counts as successful only if the local memcached was never lost:
    through the whole loop, a success flag once cleared stays cleared, and if it
    is set at the end the connection to the local memcached is still open. *)
Theorem tap_success_means_clean {L T : Type} `{Peer L} `{Peer T} (hash : bytes -> Z)
    (fuel : nat) (td : TapBucketsThreadData) (st st' : tap_thread L T)
    (Hinv : tap_inv st) (Htap : c_rcvtimeo (tt_tap st) = true)
    (Hfuel : (pending (tt_tap st) < fuel)%nat)
    (Hrun : tap_loop hash fuel td st = Val st') (Hsucc : tt_success st' = true) :
  tt_success st = true /\ c_sock (tt_local st') <> -1.
Proof.
  pose proof (tap_loop_outcome hash td fuel st Hinv Htap Hfuel) as Ho. rewrite Hrun in Ho.
  destruct Ho as [[_ Hsk] Hs]. auto.
Qed.

(** ** Witnesses *)

(** Two servers that accept every message and never answer: both reads time
    out. *)
Definition silent_td : TapBucketsThreadData :=
  mkTapData (lit "10.0.0.1:11211") (lit "10.0.0.2:11211") [3; 5] 0.
Definition silent_conn : Connection (list bytes) :=
  ClientConnection_new (lit "10.0.0.2:11211") [] [].

Lemma tap_thread_finishes_witness :
  exists st, tap_buckets_thread (fun k => len k) example_env example_env silent_td silent_conn
      silent_conn example_gs example_ps = Val st /\ tt_success st = false.
Proof.
  assert (He : env_ok example_env) by (split; [cbn; lia | repeat split; discriminate]).
  pose proof (tap_thread_finishes (fun k => len k) example_env example_env silent_td silent_conn
    silent_conn example_gs example_ps He He) as Hf.
  destruct (tap_buckets_thread _ _ _ _ _ _ _ _) as [st|f] eqn:E; [|vm_compute in E; discriminate].
  exists st. split; [reflexivity|]. vm_compute in E. by injection E as <-.
Defined.

Definition stamped_rsp (flags : Z) : GetRsp :=
  mkGetRsp (mkBaseRsp (mkBaseMessage (OpCode_value OpCode.GET) [] 0 77) 0) (lit "v") (Some flags).
Definition stamped_mutate (flags : Z) : TapMutateReq :=
  mkTapMutateReq (mkBaseReq (mkBaseMessage (OpCode_value OpCode.TAP_MUTATE) (lit "bob") 0 0) 0)
    (lit "v") (Some flags) (Some 0).

(** Later by one millisecond across the clock's wrap, and across 2^31. *)
Lemma choose_action_serial_order_witness :
  choose_action (stamped_rsp (2 ^ 32 - 1)) (stamped_mutate 0) = Val (Do_replace 77) /\
  choose_action (stamped_rsp (2 ^ 31 - 1)) (stamped_mutate (2 ^ 31)) = Fail Undefined.
Proof.
  split.
  - rewrite (choose_action_serial_order _ _ (2 ^ 32 - 1) 0); try reflexivity;
      unfold in_u32; lia.
  - rewrite (choose_action_serial_order _ _ (2 ^ 31 - 1) (2 ^ 31)); try reflexivity;
      unfold in_u32; lia.
Defined.

(** A tapped server that closes at once. *)
Lemma tap_success_means_clean_witness :
  exists st', tap_loop (fun k => len k) 1 silent_td
      (mkTapThread (mkConnection [] 5 [] true [] []) (mkConnection [] 6 [] true [R_data []] [])
         true example_gs example_ps : tap_thread (list bytes) (list bytes)) = Val st' /\
    c_sock (tt_local st') <> -1.
Proof.
  eexists. split; [vm_compute; reflexivity|].
  refine (proj2 (tap_success_means_clean (fun k => len k) 1 silent_td
    (mkTapThread (mkConnection [] 5 [] true [] []) (mkConnection [] 6 [] true [R_data []] [])
         true example_gs example_ps : tap_thread (list bytes) (list bytes)) _ _ _ _ _ _)).
  - split; [reflexivity | intros _; discriminate].
  - reflexivity.
  - vm_compute. repeat constructor.
  - vm_compute. reflexivity.
  - reflexivity.
Defined.
