(* ===== verification/TapSync.v ===== *)
(** * What a tap does to the local memcached

    Functional correctness of the tap thread, proved against the LocalMemcached
    interface: each record of the stream is a compare-and-swap on the local
    memcached, a whole stream merges into it newest-wins, and other clients
    writing at the same time never lose data to it. *)

From Stdlib Require Import ZArith Lia Strings.Byte.
From stdpp Require Import prelude.
From S2P Require Import Prelude WireUtils StdMap Messages WireSpec Connection LocalStore Statistics.
From S2P Require Import TapThread.

Open Scope Z_scope.

(** ** Specification *)

Definition mutate_key (m : TapMutateReq) : bytes := bm_key (brq_base (tm_req m)).
Definition mutate_flags (m : TapMutateReq) : Z := default 0 (tm_flags m).

(** A record as memcached's TAP stream carries it. *)
Definition mutate_ok (epoch : Z) (m : TapMutateReq) : Prop :=
  key_ok (mutate_key m) /\ value_ok (tm_value m) /\
  tm_flags m = Some (mutate_flags m) /\ stamp_ok epoch (mutate_flags m) /\
  exists e, tm_expiry m = Some e /\ in_u32 e.

(** Is the record one the tap is to stream? *)
Definition accepted (hash : bytes -> Z) (td : TapBucketsThreadData) (m : TapMutateReq) : bool :=
  bool_decide (vbucket_for_key hash (mutate_key m) ∈ td_buckets td) &&
  negb (bool_decide (ASTAIRE_KEY_PREFIX `prefix_of` mutate_key m)).

(** Is what the store holds for a key older than a record with these flags (or
    missing)?  Timestamps are ordered as int32_t. *)
Definition older (old : option record) (flags : Z) : bool :=
  match old with Some r => i32 (r_flags r) <? i32 flags | None => true end.

(** A store's contents, CAS values aside, and the newest-wins merge of one
    record into it. *)
Definition contents (s : bytes -> option record) (k : bytes) : option (bytes * Z) :=
  (fun r => (r_value r, r_flags r)) <$> s k.
Definition merge (hash : bytes -> Z) (td : TapBucketsThreadData)
    (s : bytes -> option (bytes * Z)) (m : TapMutateReq) : bytes -> option (bytes * Z) :=
  if accepted hash td m &&
     match s (mutate_key m) with Some (_, f) => i32 f <? i32 (mutate_flags m) | None => true end
  then fun k => if decide (k = mutate_key m) then Some (tm_value m, mutate_flags m) else s k
  else s.

(** No record lost or replaced by an older one. *)
Definition no_older (s s' : bytes -> option record) : Prop :=
  forall k r, s k = Some r -> exists r', s' k = Some r' /\ i32 (r_flags r) <= i32 (r_flags r').
Definition holds_since (s : bytes -> option record) (k : bytes) (flags : Z) : Prop :=
  exists r, s k = Some r /\ i32 flags <= i32 (r_flags r).

(** The statistics have a record for each vbucket of the tap. *)
Definition stats_ready (td : TapBucketsThreadData) (p : AstairePerConnectionStatistics) : Prop :=
  ps_ok p /\ forall vb, vb ∈ td_buckets td -> is_Some (bucket_counts p (td_conn_stats td) vb).

Lemma stats_ready_grow td p p' : stats_grow p p' -> stats_ready td p -> stats_ready td p'.
Proof. intros [Ho Hs] [Hp Hb]. split; auto. Qed.

(** ** One record *)

(** The decision taken on memcached's answer to the GET. *)
Lemma choose_action_answer epoch r p m :
  get_answer r p -> (forall x, r = Some x -> record_ok epoch x) -> mutate_ok epoch m ->
  exists g, message_of_packet p = M_GetRsp g /\
    choose_action g m = Val (if older r (mutate_flags m)
                             then match r with Some x => Do_replace (r_cas x) | None => Do_add end
                             else Do_nothing).
Proof.
  intros (Hreq & Hop & Hkey & Hr) Hrec (_ & _ & Hf & Hst & _).
  eexists. split; [unfold message_of_packet; rewrite Hreq, Hop; reflexivity|].
  unfold choose_action. cbn [gr_rsp packet_rsp brs_status gr_flags brs_base].
  destruct r as [x|]; cbn [older].
  - destruct Hr as (-> & -> & _ & Hcas). destruct (Hrec x eq_refl) as (_ & Hsx & _).
    rewrite <- (app_nil_r (be_bytes 4 _)), extra_word_be
      by apply Hsx.
    cbn [Z.eqb use]. rewrite Hf, !bind_Val. cbn [use]. rewrite !bind_Val.
    unfold i32_sub. unfold stamp_ok in *. 
    rewrite (proj2 (Z.leb_le _ _)), (proj2 (Z.ltb_lt _ _)) by lia. cbn [andb]. rewrite bind_Val.
    destruct (Z.ltb_spec (i32 (r_flags x) - i32 (mutate_flags m)) 0),
      (Z.ltb_spec (i32 (r_flags x)) (i32 (mutate_flags m)));
      try lia; unfold packet_base; cbn [bm_cas]; by rewrite ?Hcas.
  - by rewrite Hr.
Qed.

Section sync.
Context {L T : Type} `{LML : LocalMemcachedLaws L} `{PT : Peer T}.
Context (hash : bytes -> Z) (td : TapBucketsThreadData).
Implicit Types (st : tap_thread L T) (l : L).

Lemma local_request_reply st req pkt l' p :
  idle (tt_local st) -> to_wire req = Val (encode_packet pkt) ->
  replies (c_peer (tt_local st)) pkt l' p ->
  exists c, local_request req st = Val (with_local c st, Some (message_of_packet p)) /\
    idle c /\ c_peer c = l'.
Proof using.
  intros Hi Hw Hr. destruct (exchange _ _ _ _ _ Hi Hw Hr) as (c1 & c2 & Es & Er & Hi2 & Hp & _).
  exists c2. unfold local_request. rewrite Es, bind_Val, Er, bind_Val.
  rewrite decide_True by done. done.
Qed.

Lemma count_record_ok vb m st :
  stats_ready td (tt_conns st) -> vb ∈ td_buckets td ->
  exists st', count_record td vb m st = Val st' /\ tt_local st' = tt_local st /\
    tt_tap st' = tt_tap st /\ tt_success st' = tt_success st /\ stats_grow (tt_conns st) (tt_conns st') /\
    gs_get Resynced_keys_count (tt_global st') =
      fetch_add (gs_get Resynced_keys_count (tt_global st)) 1.
Proof using.
  intros Hready Hvb. unfold count_record.
  destruct (to_wire (M_TapMutateReq m)) as [w|f] eqn:Ew; [|rewrite to_wire_packet in Ew; done].
  rewrite bind_Val. cbv zeta. set (n := u32 (len w)).
  assert (Hinc : forall stt d q, stats_grow (tt_conns st) q -> exists q',
    br_increment (td_conn_stats td) vb stt d q = Val q' /\ stats_grow (tt_conns st) q').
  { intros stt d q Hq. destruct (stats_ready_grow td _ _ Hq Hready) as [Hok Hb].
    destruct (br_increment_grow (td_conn_stats td) vb stt d q Hok (Hb vb Hvb)) as (q' & E & Hg).
    exists q'. split; [done|]. by etrans. }
  destruct (Hinc Bucket_keys 1 (tt_conns st) (reflexivity _)) as (p1 & -> & H1). rewrite bind_Val.
  destruct (Hinc Bucket_bytes n p1 H1) as (p2 & -> & H2). rewrite bind_Val.
  destruct (Hinc Bucket_bandwidth n p2 H2) as (p3 & -> & H3). rewrite bind_Val.
  eexists. split; [done|]. repeat (split; [done|]). cbn [tt_global].
  unfold gs_increment_bandwidth. rewrite gs_refresh_counts. 
  change (gs_get Resynced_keys_count (mkGlobalStats ?r ?a ?b ?c ?d ?e ?f)) with c.
  change (gs_resynced_keys_count ?g) with (gs_get Resynced_keys_count g).
  unfold gs_increment. by rewrite !gs_refresh_counts, !gs_get_put, !gs_refresh_counts, gs_get_put.
Qed.

(** A streamed record is a compare-and-swap: nothing is written when the store
    holds a record at least as new; otherwise the record is written, provided
    the key still holds what the GET saw. *)
Definition sync_effect (n : nat) (m : TapMutateReq) l l' : Prop :=
  exists l1, lm_ok (S n) l1 /\ (forall k, lm_store l1 k = lm_store (lm_foreign l) k) /\
    if older (lm_store l1 (mutate_key m)) (mutate_flags m) then
      exists c, forall k, lm_store l' k =
        if decide (lm_store (lm_foreign l1) (mutate_key m) = lm_store l1 (mutate_key m))
        then update (lm_store (lm_foreign l1)) (mutate_key m)
               (Some (mkRecord (tm_value m) (mutate_flags m) c)) k
        else lm_store (lm_foreign l1) k
    else l' = l1.

(** The store request that follows the GET. *)
Lemma store_record_ok n vb m st l1 :
  idle (tt_local st) -> c_peer (tt_local st) = l1 -> lm_ok (S n) l1 -> mutate_ok lm_epoch m -> in_u16 vb ->
  let old := lm_store l1 (mutate_key m) in
  older old (mutate_flags m) = true ->
  exists c c0, store_record match old with Some x => Do_replace (r_cas x) | None => Do_add end
             vb m st = Val (with_local c st, true) /\
    idle c /\ lm_ok n (c_peer c) /\
    forall k, lm_store (c_peer c) k =
      if decide (lm_store (lm_foreign l1) (mutate_key m) = old)
      then update (lm_store (lm_foreign l1)) (mutate_key m)
             (Some (mkRecord (tm_value m) (mutate_flags m) c0)) k
      else lm_store (lm_foreign l1) k.
Proof using LML.
  intros Hi Hpeer Hok (Hk & Hv & Hf & Hst & e & He & He32) Hvb old Hold. unfold store_record.
  fold (mutate_key m).
  destruct old as [x|] eqn:Eold; rewrite Hf, He; cbn [use]; rewrite !bind_Val.
  - destruct (lm_record_ok _ _ _ _ Hok Eold) as (_ & _ & Hc).
    destruct (lm_set n l1 OpCode.REPLACE (mutate_key m) vb (tm_value m) (r_cas x) (mutate_flags m) e)
      as (l' & p & c0 & Hr & Hok' & _ & _ & Hs); try done; [unfold in_u64; lia|]. rewrite <- Hpeer in Hr.
    destruct (local_request_reply st _ _ l' p Hi (ReplaceReq_new_wire _ _ _ _ _ _) Hr)
      as (c & E & Hi' & Hp'). rewrite E, bind_Val. exists c, c0. rewrite Hp'. split; [done|].
    split; [done|]. split; [done|]. intros k. rewrite Hs. clear Hs. cbn [accepts].
    destruct (lm_store (lm_foreign l1) (mutate_key m)) as [y|] eqn:Ey.
    + rewrite (proj2 (Z.eqb_neq (r_cas x) 0)) by lia. cbn [orb].
      destruct (Z.eqb_spec (r_cas y) (r_cas x)) as [Ec|Ec].
      * rewrite decide_True; [done|]. f_equal. symmetry. by eapply (lm_foreign_cas n l1).
      * rewrite decide_False by congruence. done.
    + by rewrite decide_False.
  - destruct (lm_set n l1 OpCode.ADD (mutate_key m) vb (tm_value m) 0 (mutate_flags m) e)
      as (l' & p & c0 & Hr & Hok' & _ & _ & Hs); try done. rewrite <- Hpeer in Hr.
    destruct (local_request_reply st _ _ l' p Hi (AddReq_new_wire _ _ _ _ _) Hr)
      as (c & E & Hi' & Hp'). rewrite E, bind_Val. exists c, c0. rewrite Hp'. split; [done|].
    split; [done|]. split; [done|]. intros k. rewrite Hs. cbn [accepts].
    destruct (lm_store (lm_foreign l1) (mutate_key m)); [by rewrite decide_False | by rewrite decide_True].
Qed.

Lemma vbucket_range key : 0 <= vbucket_for_key hash key < 128.
Proof using.
  unfold vbucket_for_key. change (128 - 1) with (Z.ones 7). rewrite Z.land_ones by lia.
  pose proof (Z.mod_pos_bound (i32 (hash key)) (2 ^ 7) ltac:(lia)) as Hb.
  rewrite u16_small; [lia|]. unfold in_u16. lia.
Qed.

Lemma handle_mutate_ok n m st :
  idle (tt_local st) -> lm_ok (2 + n) (c_peer (tt_local st)) -> stats_ready td (tt_conns st) ->
  mutate_ok lm_epoch m ->
  exists st', handle_mutate hash td m st = Val st' /\ idle (tt_local st') /\
    lm_ok n (c_peer (tt_local st')) /\ tt_tap st' = tt_tap st /\ tt_success st' = tt_success st /\
    stats_grow (tt_conns st) (tt_conns st') /\
    gs_get Resynced_keys_count (tt_global st') =
      (if accepted hash td m then fetch_add (gs_get Resynced_keys_count (tt_global st)) 1
       else gs_get Resynced_keys_count (tt_global st)) /\
    if accepted hash td m
    then sync_effect n m (c_peer (tt_local st)) (c_peer (tt_local st'))
    else tt_local st' = tt_local st.
Proof using LML.
  intros Hi Hok Hstats Hm. unfold handle_mutate, accepted. fold (mutate_key m).
  set (vb := vbucket_for_key hash (mutate_key m)).
  assert (Hskip : lm_ok n (c_peer (tt_local st))) by (by do 2 apply lm_ok_weaken).
  destruct (decide (vb ∈ td_buckets td)) as [Hvb|Hvb];
    [rewrite (bool_decide_eq_false_2 (vb ∉ _)) by tauto; rewrite (bool_decide_eq_true_2 (vb ∈ _)) by done
    |rewrite (bool_decide_eq_true_2 (vb ∉ _)) by done; rewrite (bool_decide_eq_false_2 (vb ∈ _)) by done];
    [|by exists st].
  case_bool_decide as Hpre; cbn [andb negb]; [by exists st|].
  pose proof Hm as (Hk & _).
  destruct (lm_get (S n) _ _ Hok Hk) as (l1 & p & Hr & Hok1 & Hs1 & Ha).
  destruct (local_request_reply st _ _ l1 p Hi (GetReq_new_wire _) Hr) as (c1 & E1 & Hi1 & Hp1).
  rewrite E1, bind_Val. rewrite <- Hs1 in Ha.
  destruct (choose_action_answer lm_epoch _ p m Ha) as (g & Eg & Ec); [|done|].
  { intros x Hx. by apply (lm_record_ok _ _ _ _ Hok1 Hx). }
  assert (is_response (message_of_packet p) = true /\
          bm_op_code (base_of (message_of_packet p)) = OpCode_value OpCode.GET) as [-> ->].
  { unfold message_of_packet. destruct Ha as (Hq & Ho & _). rewrite Hq, Ho. split; [done|exact Ho]. }
  rewrite Eg. cbn [negb orb Z.eqb]. rewrite Z.eqb_refl. cbn [negb]. rewrite Ec, bind_Val.
  assert (Hvb16 : in_u16 vb).
  { unfold in_u16. pose proof (vbucket_range (mutate_key m)). fold vb in H. lia. }
  destruct (older (lm_store l1 (mutate_key m)) (mutate_flags m)) eqn:Eold.
  - destruct (store_record_ok n vb m (with_local c1 st) l1) as (c2 & c0 & E2 & Hi2 & Hok2 & Hs2);
      try done.
    destruct (count_record_ok vb m (with_local c2 (with_local c1 st)) Hstats Hvb)
      as (st' & E3 & El & Et & Esu & Hst' & Eg').
    exists st'. split; [by destruct (lm_store l1 (mutate_key m)); rewrite E2, bind_Val|].
    rewrite El, Et, Esu, Eg'. repeat (split; [done|]). exists l1. rewrite Eold. eauto.
  - destruct (count_record_ok vb m (with_local c1 st) Hstats Hvb) as (st' & E3 & El & Et & Esu & Hst' & Eg').
    exists st'. split; [done|]. rewrite El, Et, Esu, Eg'. cbn [tt_local with_local].
    split; [done|]. split; [rewrite Hp1; by apply lm_ok_weaken|]. repeat (split; [done|]).
    exists l1. rewrite Eold. done.
Qed.

(** ** A stream of records *)

Fixpoint stream_effect (n : nat) (ms : list TapMutateReq) l l' : Prop :=
  match ms with
  | [] => l' = l
  | m :: ms =>
      exists l1, lm_ok (2 * length ms + n) l1 /\
        (if accepted hash td m then sync_effect (2 * length ms + n) m l l1 else l1 = l) /\
        stream_effect n ms l1 l'
  end.

Definition count_accepted (ms : list TapMutateReq) : Z :=
  Z.of_nat (length (filter (fun m => accepted hash td m = true) ms)).

Lemma mutate_packet_op p m :
  message_of_packet p = M_TapMutateReq m ->
  bm_op_code (brq_base (tm_req m)) = OpCode_value OpCode.TAP_MUTATE.
Proof using.
  unfold message_of_packet. destruct (p_request p);
    repeat match goal with |- context [if ?b then _ else _] => destruct b eqn:? end;
    try discriminate. intros [= <-]. by apply Z.eqb_eq.
Qed.

(** The packets of a TAP stream and the records they carry. *)
Definition tap_packet (epoch : Z) (p : packet) (m : TapMutateReq) : Prop :=
  wf_packet p /\ message_of_packet p = M_TapMutateReq m /\ mutate_ok epoch m.

(** Only a stream that the server closed counts as complete. *)
Definition complete (fin : stream_end) : bool := bool_decide (fin = End_closed).

(** The loop on a stream that ends with [tail], the beginning of a packet, and
    then in [fin]. *)
Lemma tap_loop_stream n tail fin ps ms :
  partial_packet tail -> Forall2 (tap_packet lm_epoch) ps ms -> forall fuel st,
  idle (tt_local st) -> lm_ok (2 * length ms + n) (c_peer (tt_local st)) ->
  stats_ready td (tt_conns st) -> in_u64 (gs_get Resynced_keys_count (tt_global st)) ->
  c_sock (tt_tap st) <> -1 -> c_rcvtimeo (tt_tap st) = true ->
  holds_stream (tt_tap st) (mjoin (encode_packet <$> ps) ++ tail) (end_results fin) ->
  len (mjoin (encode_packet <$> ps) ++ tail) < 2 ^ 32 -> (length ps < fuel)%nat ->
  exists st', tap_loop hash fuel td st = Val st' /\ tt_success st' = tt_success st && complete fin /\
    stats_grow (tt_conns st) (tt_conns st') /\
    gs_get Resynced_keys_count (tt_global st') =
      u64 (gs_get Resynced_keys_count (tt_global st) + count_accepted ms) /\
    stream_effect n ms (c_peer (tt_local st)) (c_peer (tt_local st')).
Proof using LML.
  intros Htail. induction 1 as [|p m ps ms (Hwf & Hpm & Hm) _ IH];
    intros [|fuel] st Hi Hok Hst Hg Hsk Hto Hh Hl Hf; try (cbn in Hf; lia); cbn [tap_loop]; unfold tap_step.
  - destruct (recv_ends _ _ fin Hsk Hto Htail Hh) as (c' & -> & _). rewrite bind_Val.
    assert (Hk : u64 (gs_get Resynced_keys_count (tt_global st) + count_accepted []) =
      gs_get Resynced_keys_count (tt_global st))
      by (unfold count_accepted; cbn [filter length]; by rewrite Z.add_0_r, u64_small).
    rewrite Hk. destruct fin; (eexists; split; [done|]); cbn; by rewrite ?andb_true_r, ?andb_false_r.
  - change (mjoin (encode_packet <$> p :: ps))
      with (encode_packet p ++ mjoin (encode_packet <$> ps)) in Hh, Hl. rewrite <- app_assoc in Hh, Hl.
    destruct (recv_packet _ p _ _ Hsk Hwf Hh Hl) as (c' & -> & Hsk' & _ & Hto' & Hh').
    rewrite bind_Val, Hpm. cbn [use]. rewrite bind_Val. cbn [is_response is_request message_base negb].
    change (base_of (M_TapMutateReq m)) with (brq_base (tm_req m)).
    rewrite (mutate_packet_op p m Hpm), Z.eqb_refl.
    assert (Hok2 : lm_ok (2 + (2 * length ms + n)) (c_peer (tt_local (with_tap c' st)))).
    { replace (2 + (2 * length ms + n))%nat with (2 * length (m :: ms) + n)%nat; [done|cbn; lia]. }
    destruct (handle_mutate_ok (2 * length ms + n) m (with_tap c' st) Hi Hok2 Hst Hm)
      as (st1 & -> & Hi1 & Hok1 & Ht1 & Hs1 & Hst1 & Hg1 & Heff).
    rewrite !bind_Val. cbn [mbind res_bind mret res_ret].
    destruct (IH fuel st1) as (st' & -> & Hs' & Hst' & Hg' & Heff'); try done.
    + by apply (stats_ready_grow td (tt_conns st)).
    + rewrite Hg1. destruct (accepted hash td m); [apply u64_range | done].
    + rewrite Ht1. cbn. congruence.
    + rewrite Ht1. cbn. congruence.
    + by rewrite Ht1.
    + rewrite len_app in Hl. pose proof (len_nonneg (encode_packet p)). lia.
    + cbn in Hf. lia.
    + exists st'. split; [done|]. split; [by rewrite Hs', Hs1|].
      split; [by etrans|]. split.
      * rewrite Hg', Hg1. unfold count_accepted. rewrite filter_cons. cbn [tt_global with_tap].
        destruct (accepted hash td m); [rewrite decide_True by done | by rewrite decide_False].
        unfold fetch_add. rewrite u64_add_l. f_equal. change (u32 1) with 1. cbn [length]. lia.
      * exists (c_peer (tt_local st1)). split; [done|]. split; [|done].
        destruct (accepted hash td m); [done | by rewrite Heff].
Qed.

(** ** Consequences for the store *)

(** Other clients only write records stamped [now] or later, and no earlier
    than what they replace. *)
Definition foreign_fresh (now : Z) : Prop := forall n l k, lm_ok (S n) l ->
  lm_store (lm_foreign l) k = lm_store l k \/
  exists r, lm_store (lm_foreign l) k = Some r /\ now <= i32 (r_flags r) /\
    forall r0, lm_store l k = Some r0 -> i32 (r_flags r0) <= i32 (r_flags r).

(** No other client acts. *)
Definition foreign_quiet : Prop :=
  forall n l k, lm_ok (S n) l -> lm_store (lm_foreign l) k = lm_store l k.

Lemma foreign_no_older now n l :
  foreign_fresh now -> lm_ok (S n) l -> no_older (lm_store l) (lm_store (lm_foreign l)).
Proof using.
  intros Hf Hok k r Hk. destruct (Hf n l k Hok) as [E|(r' & E & _ & Hr)].
  - exists r. rewrite E. split; [done|lia].
  - exists r'. split; [done|]. by apply Hr.
Qed.

Lemma no_older_trans s1 s2 s3 : no_older s1 s2 -> no_older s2 s3 -> no_older s1 s3.
Proof using.
  intros H1 H2 k r Hk. destruct (H1 k r Hk) as (r2 & E2 & ?). destruct (H2 k r2 E2) as (r3 & E3 & ?).
  exists r3. split; [done|lia].
Qed.

Lemma no_older_ext s1 s1' s2 s2' :
  (forall k, s1 k = s1' k) -> (forall k, s2 k = s2' k) -> no_older s1' s2' -> no_older s1 s2.
Proof using. intros E1 E2 Hn k r. rewrite E1, E2. apply Hn. Qed.

Lemma sync_effect_fresh now n m l l' :
  foreign_fresh now -> lm_ok (2 + n) l -> i32 (mutate_flags m) <= now -> sync_effect n m l l' ->
  no_older (lm_store l) (lm_store l') /\ holds_since (lm_store l') (mutate_key m) (mutate_flags m).
Proof using.
  intros Hf Hok Hnow (l1 & Hok1 & Hs1 & Heff).
  assert (H01 : no_older (lm_store l) (lm_store l1)).
  { eapply (no_older_ext _ (lm_store l) _ (lm_store (lm_foreign l))); [done|done|].
    by eapply (foreign_no_older now (S n)). }
  destruct (older (lm_store l1 (mutate_key m)) (mutate_flags m)) eqn:Eold.
  - destruct Heff as [c Heff]. pose proof (foreign_no_older now n l1 Hf Hok1) as H12.
    assert (H23 : no_older (lm_store (lm_foreign l1)) (lm_store l')).
    { intros k r Hk. rewrite Heff. case_decide as Eq; [|exists r; split; [done|lia]].
      unfold update. case_decide; [subst k|exists r; split; [done|lia]].
      rewrite <- Eq, Hk in Eold. cbn in Eold. apply Z.ltb_lt in Eold.
      eexists. split; [done|]. cbn. lia. }
    split; [by eapply no_older_trans; [|eapply no_older_trans]|].
    unfold holds_since. rewrite Heff. case_decide as Eq.
    + unfold update. rewrite decide_True by done. eexists. split; [done|]. cbn. lia.
    + destruct (Hf n l1 (mutate_key m) Hok1) as [E|(r & E & Hr & _)]; [done|].
      exists r. split; [done|lia].
  - subst l'. split; [done|]. destruct (lm_store l1 (mutate_key m)) as [r|] eqn:E; [|done].
    exists r. split; [done|]. cbn in Eold. apply Z.ltb_ge in Eold. lia.
Qed.

Lemma holds_since_mono s s' k f : no_older s s' -> holds_since s k f -> holds_since s' k f.
Proof using.
  intros Hn (r & E & Hr). destruct (Hn k r E) as (r' & E' & ?). exists r'. split; [done|lia].
Qed.

Lemma stream_effect_fresh now n ms : forall l l',
  foreign_fresh now -> lm_ok (2 * length ms + n) l ->
  Forall (fun m => i32 (mutate_flags m) <= now) ms -> stream_effect n ms l l' ->
  no_older (lm_store l) (lm_store l') /\
  Forall (fun m => accepted hash td m = true ->
            holds_since (lm_store l') (mutate_key m) (mutate_flags m)) ms.
Proof using.
  induction ms as [|m ms IH]; intros l l' Hf Hok Hnow Heff.
  { cbn in Heff. subst l'. split; [|constructor]. intros k r Hk. exists r. split; [done|lia]. }
  apply Forall_cons in Hnow as [Hm Hnow]. destruct Heff as (l1 & Hok1 & H1 & H2).
  destruct (IH l1 l' Hf Hok1 Hnow H2) as [Hn2 Hh2].
  assert (Hok' : lm_ok (2 + (2 * length ms + n)) l).
  { by replace (2 + (2 * length ms + n))%nat with (2 * length (m :: ms) + n)%nat by (cbn; lia). }
  destruct (accepted hash td m) eqn:Ea.
  - destruct (sync_effect_fresh now _ m l l1 Hf Hok' Hm H1) as [Hn1 Hh1].
    split; [by eapply no_older_trans|]. constructor; [|done]. intros _. by eapply holds_since_mono.
  - subst l1. split; [done|]. constructor; [congruence|done].
Qed.

#[export] Instance merge_proper :
  Proper (pointwise_relation _ eq ==> eq ==> pointwise_relation _ eq) (merge hash td).
Proof using.
  intros s s' Hs m _ <- k. unfold merge. rewrite (Hs (mutate_key m)).
  destruct (_ && _); [|apply Hs]. case_decide; [done|apply Hs].
Qed.

Lemma merges_ext ms : forall s s', pointwise_relation _ eq s s' ->
  pointwise_relation _ eq (foldl (merge hash td) s ms) (foldl (merge hash td) s' ms).
Proof using.
  induction ms as [|m ms IH]; intros s s' Hs; [done|]. cbn. apply IH. by apply merge_proper.
Qed.

Lemma sync_effect_quiet n m l l' :
  foreign_quiet -> lm_ok (2 + n) l -> accepted hash td m = true -> sync_effect n m l l' ->
  pointwise_relation _ eq (contents (lm_store l')) (merge hash td (contents (lm_store l)) m).
Proof using.
  intros Hq Hok Ha (l1 & Hok1 & Hs1 & Heff).
  assert (E1 : forall k, lm_store l1 k = lm_store l k) by (intros k; by rewrite Hs1, (Hq (S n))).
  assert (Hold : match contents (lm_store l) (mutate_key m) with
                 | Some (_, f) => i32 f <? i32 (mutate_flags m) | None => true end =
                 older (lm_store l (mutate_key m)) (mutate_flags m)).
  { unfold contents. by destruct (lm_store l (mutate_key m)). }
  unfold merge. rewrite Ha, Hold. cbn [andb]. rewrite E1 in Heff.
  destruct (older (lm_store l (mutate_key m)) (mutate_flags m)); intros k.
  - destruct Heff as [c Heff]. unfold contents. rewrite Heff.
    rewrite !(Hq n l1) by done. rewrite decide_True by apply E1. unfold update.
    destruct (decide (k = mutate_key m)) as [->|Hne].
    + done.
    + by rewrite (Hq n l1), E1.
  - unfold contents. by rewrite Heff, E1.
Qed.

Lemma stream_effect_quiet n ms : forall l l',
  foreign_quiet -> lm_ok (2 * length ms + n) l -> stream_effect n ms l l' ->
  pointwise_relation _ eq (contents (lm_store l'))
    (foldl (merge hash td) (contents (lm_store l)) ms).
Proof using.
  induction ms as [|m ms IH]; intros l l' Hq Hok Heff; [cbn in Heff; by subst|].
  destruct Heff as (l1 & Hok1 & H1 & H2). specialize (IH l1 l' Hq Hok1 H2).
  assert (Hok' : lm_ok (2 + (2 * length ms + n)) l).
  { by replace (2 + (2 * length ms + n))%nat with (2 * length (m :: ms) + n)%nat by (cbn; lia). }
  etrans; [exact IH|]. cbn [foldl]. apply merges_ext.
  destruct (accepted hash td m) eqn:Ea.
  - by eapply sync_effect_quiet.
  - subst l1. unfold merge. rewrite Ea. done.
Qed.
End sync.

(** ** The whole thread *)

Section thread.
Context {L T : Type} `{LML : LocalMemcachedLaws L} `{PT : Peer T}.
Context (hash : bytes -> Z) (td : TapBucketsThreadData).

(** Both servers accept the connection; the tapped server answers TAP_CONNECT
    with the packets [ps] carrying the records [ms] and perhaps the beginning of
    one more ([tail]), cut into any chunks, and then the stream ends in [fin];
    the local memcached is good for two requests per record. *)
Record tap_scenario (local_env tap_env : net_env) (lc : Connection L) (tc : Connection T)
    (g : AstaireGlobalStatistics) (p : AstairePerConnectionStatistics) (n : nat)
    (ps : list packet) (ms : list TapMutateReq) (tail : bytes) (fin : stream_end) : Prop :=
  mkTapScenario {
  sc_env : env_ok local_env /\ env_ok tap_env;
  sc_connect : (connect local_env lc).2 = 0 /\ (connect tap_env tc).2 = 0;
  sc_empty : (c_buffer lc = [] /\ c_in lc = []) /\ (c_buffer tc = [] /\ c_in tc = []);
  sc_buckets : td_buckets td <> [];
  sc_stats : stats_ready td p /\ in_u64 (gs_get Resynced_keys_count g);
  sc_local : lm_ok (2 * length ms + n) (c_peer lc);
  sc_stream : exists w t' chunks,
    to_wire (TapConnectReq_new (td_buckets td)) = Val w /\
    on_send (c_peer tc) w = Some (t', map R_data chunks ++ end_results fin) /\
    Forall (fun bs => bs <> []) chunks /\ mjoin chunks = mjoin (encode_packet <$> ps) ++ tail;
  sc_records : Forall2 (tap_packet lm_epoch) ps ms;
  sc_tail : partial_packet tail;
  sc_size : len (mjoin (encode_packet <$> ps) ++ tail) < 2 ^ 32
}.

Lemma encoded_length ps : (length ps <= length (mjoin (encode_packet <$> ps)))%nat.
Proof using.
  induction ps as [|p ps IH]; [done|].
  change (mjoin (encode_packet <$> p :: ps)) with (encode_packet p ++ mjoin (encode_packet <$> ps)).
  rewrite length_app. unfold encode_packet at 1. rewrite length_app, packet_header_length.
  cbn [length]. lia.
Qed.

Lemma queued_chunks chunks more :
  queued (map R_data chunks ++ more) = (length (mjoin chunks) + queued more)%nat.
Proof using.
  induction chunks as [|b chunks IH]; [done|].
  change (mjoin (b :: chunks)) with (b ++ mjoin chunks). cbn [map app].
  rewrite queued_data, IH, length_app. lia.
Qed.

Lemma tap_finish_ok (st : tap_thread L T) :
  stats_ready td (tt_conns st) -> td_buckets td <> [] ->
  exists st', tap_finish td st = Val st' /\ tt_success st' = tt_success st /\
    c_peer (tt_local st') = c_peer (tt_local st) /\ stats_grow (tt_conns st) (tt_conns st') /\
    forall stt, gs_get stt (tt_global st') =
      if decide (tt_success st = true /\ stt = Resynced_bucket_count)
      then fetch_add (gs_get stt (tt_global st)) (Z.of_nat (length (td_buckets td)))
      else gs_get stt (tt_global st).
Proof using.
  intros [Hp Hb] Hne. unfold tap_finish.
  assert (Hdis : forall c : Connection L, c_peer (disconnect c) = c_peer c)
    by (intros c; unfold disconnect; by destruct (0 <? _)).
  destruct (tt_success st) eqn:Hs.
  - destruct (td_buckets td) as [|vb bs] eqn:E; [done|].
    destruct (set_resynced_bucket_count_grow (td_conn_stats td) (Z.of_nat (length (vb :: bs)))
      (tt_conns st) vb Hp (Hb vb ltac:(apply list_elem_of_here))) as (p' & -> & Hgrow).
    rewrite !bind_Val. eexists. split; [done|]. split; [done|]. split; [apply Hdis|]. split; [done|].
    intros stt. cbn [tt_global]. unfold gs_increment. rewrite gs_refresh_counts, gs_get_put.
    destruct (decide (stt = Resynced_bucket_count)) as [->|];
      [by rewrite decide_True|by rewrite decide_False by tauto].
  - rewrite !bind_Val. eexists. split; [done|]. split; [by cbn; rewrite Hs|]. split; [apply Hdis|]. split; [done|].
    intros stt. by rewrite decide_False by (by intros [? _]).
Qed.

Lemma tap_thread_run local_env tap_env lc tc g p n ps ms tail fin :
  tap_scenario local_env tap_env lc tc g p n ps ms tail fin ->
  exists st', tap_buckets_thread hash local_env tap_env td lc tc g p = Val st' /\
    tt_success st' = complete fin /\ stats_grow p (tt_conns st') /\
    gs_get Resynced_keys_count (tt_global st') =
      u64 (gs_get Resynced_keys_count g + count_accepted hash td ms) /\
    stream_effect hash td n ms (c_peer lc) (c_peer (tt_local st')).
Proof using LML.
  intros [[Hel Het] [Hcl Hct] [[Hlb Hli] [Htb Hti]] Hne [Hst Hg] Hok Hstream Hrec Htail Hsize].
  unfold tap_buckets_thread.
  destruct (connect local_env lc) as [lc' rc] eqn:El. cbn in Hcl. subst rc.
  apply connect_zero in El as (_ & Hls & Hlb' & Hli' & Hlp); [|done].
  destruct (connect tap_env tc) as [tc' rc] eqn:Et. cbn in Hct. subst rc.
  apply connect_zero in Et as (Hto & Hts & Htb' & Hti' & Htp); [|done].
  destruct Hstream as (w & t' & chunks & Hw & Hon & Hch & Hj). cbn [negb Z.eqb].
  unfold send. destruct (Z.ltb_spec (c_sock tc') 0); [lia|].
  rewrite Hw, bind_Val, Htp, Hon, bind_Val. cbv beta iota zeta.
  set (tc2 := mkConnection _ _ _ _ _ _).
  assert (Hpend : (length ps < S (pending tc2))%nat).
  { unfold pending, tc2. cbn [c_buffer c_in]. rewrite Hti', Hti. cbn [app].
    rewrite queued_chunks, Hj, length_app. pose proof (encoded_length ps). lia. }
  destruct (tap_loop_stream hash td n tail fin ps ms Htail Hrec (S (pending tc2)) (mkTapThread lc' tc2 true g p))
    as (st1 & -> & Hs1 & Hst1 & Hg1 & Heff); try done.
  - split; [done|]. cbn. by rewrite Hlb', Hli', Hlb, Hli.
  - cbn. by rewrite Hlp.
  - cbn. lia.
  - exists chunks. split; [done|]. cbn [tt_tap tc2 c_in c_buffer]. rewrite Hti', Hti, Htb', Htb.
    split; [done|]. by rewrite Hj.
  - cbn [mbind res_bind]. destruct (tap_finish_ok st1) as (st' & E & Hs' & Hp' & Hgr & Hg');
      [by eapply stats_ready_grow|done|].
    exists st'. split; [done|]. split; [by rewrite Hs', Hs1|]. split; [by etrans|]. split.
    + rewrite Hg', decide_False by (by intros [_ ?]). exact Hg1.
    + rewrite Hp'. cbn in Heff. by rewrite Hlp in Heff.
Qed.

(** A TAP_CONNECT that cannot be sent closes the connection, which the loop takes
    for the end of the stream: the tap counts as successful. *)
Lemma tap_thread_unsent local_env tap_env (lc : Connection L) (tc : Connection T) g p :
  env_ok local_env -> env_ok tap_env ->
  (connect local_env lc).2 = 0 -> (connect tap_env tc).2 = 0 ->
  stats_ready td p -> td_buckets td <> [] ->
  (exists w, to_wire (TapConnectReq_new (td_buckets td)) = Val w /\ on_send (c_peer tc) w = None) ->
  exists st', tap_buckets_thread hash local_env tap_env td lc tc g p = Val st' /\
    tt_success st' = true /\ stats_grow p (tt_conns st') /\
    gs_get Resynced_keys_count (tt_global st') = gs_get Resynced_keys_count g /\
    c_peer (tt_local st') = c_peer lc.
Proof using.
  intros Hel Het Hcl Hct Hst Hne (w & Hw & Hon). unfold tap_buckets_thread.
  destruct (connect local_env lc) as [lc' rc] eqn:El. cbn in Hcl. subst rc.
  apply connect_zero in El as (_ & _ & _ & _ & Hlp); [|done].
  destruct (connect tap_env tc) as [tc' rc] eqn:Et. cbn in Hct. subst rc.
  apply connect_zero in Et as (_ & Hts & _ & _ & Htp); [|done]. cbn [negb Z.eqb].
  unfold send. destruct (Z.ltb_spec (c_sock tc') 0); [lia|].
  rewrite Hw, bind_Val, Htp, Hon, bind_Val. cbn [tap_loop]. unfold tap_step, recv at 1.
  cbn [tt_tap set_sock c_sock Z.eqb Pos.eqb]. rewrite !bind_Val.
  destruct (tap_finish_ok (mkTapThread lc' (set_sock tc' (-1)) true g p))
    as (st' & E & Hs' & Hp' & Hgr & Hg'); [done|done|].
  exists st'. split; [exact E|]. split; [done|]. split; [done|].
  split; [by rewrite Hg', decide_False by (by intros [_ ?])|]. by rewrite Hp'.
Qed.
End thread.

(** ** Properties *)

(** C2: a tap streams its vbuckets into the local memcached newest-wins: when
    no other client interferes, the thread leaves exactly the merge of the
    stream into what was there - a record of one of the tap's vbuckets replaces
    a missing or older one, and every other record of the stream (wrong vbucket,
    Astaire's own tag, not newer) changes nothing.  That holds wherever the
    stream breaks off, also within a record; and the tap counts as successful
    exactly when the server closed the stream. *)
Theorem tap_thread_merges {L T : Type} `{LocalMemcachedLaws L} `{Peer T}
    (hash : bytes -> Z) (td : TapBucketsThreadData) (local_env tap_env : net_env)
    (lc : Connection L) (tc : Connection T) (g : AstaireGlobalStatistics)
    (p : AstairePerConnectionStatistics) (n : nat) (ps : list packet) (ms : list TapMutateReq)
    (tail : bytes) (fin : stream_end)
    (Hquiet : foreign_quiet (L := L))
    (Hsc : tap_scenario td local_env tap_env lc tc g p n ps ms tail fin) :
  exists st', tap_buckets_thread hash local_env tap_env td lc tc g p = Val st' /\
    tt_success st' = complete fin /\
    forall k, contents (lm_store (c_peer (tt_local st'))) k =
      foldl (merge hash td) (contents (lm_store (c_peer lc))) ms k.
Proof.
  destruct (tap_thread_run hash td _ _ _ _ _ _ _ _ _ _ _ Hsc) as (st' & E & Hs & _ & _ & Heff).
  exists st'. split; [done|]. split; [done|]. intros k.
  by apply (stream_effect_quiet hash td n ms _ _ Hquiet (sc_local _ _ _ _ _ _ _ _ _ _ _ _ Hsc)).
Qed.

(** C7: streaming never loses or ages data while other clients write.  If what
    they write is stamped no earlier than every streamed record, then after the
    tap every key still holds a record at least as new as before, and every
    record the tap accepted is held at least as new as it was streamed; and the
    keys count advances by the number of records accepted.  The stream may
    break off anywhere. *)
Theorem tap_thread_keeps_newest {L T : Type} `{LocalMemcachedLaws L} `{Peer T}
    (hash : bytes -> Z) (td : TapBucketsThreadData) (local_env tap_env : net_env)
    (lc : Connection L) (tc : Connection T) (g : AstaireGlobalStatistics)
    (p : AstairePerConnectionStatistics) (n : nat) (ps : list packet) (ms : list TapMutateReq)
    (tail : bytes) (fin : stream_end)
    (now : Z) (Hfresh : foreign_fresh (L := L) now)
    (Hnow : Forall (fun m => i32 (mutate_flags m) <= now) ms)
    (Hsc : tap_scenario td local_env tap_env lc tc g p n ps ms tail fin) :
  exists st', tap_buckets_thread hash local_env tap_env td lc tc g p = Val st' /\
    tt_success st' = complete fin /\
    no_older (lm_store (c_peer lc)) (lm_store (c_peer (tt_local st'))) /\
    Forall (fun m => accepted hash td m = true ->
              holds_since (lm_store (c_peer (tt_local st'))) (mutate_key m) (mutate_flags m)) ms /\
    gs_get Resynced_keys_count (tt_global st') =
      u64 (gs_get Resynced_keys_count g + count_accepted hash td ms).
Proof.
  destruct (tap_thread_run hash td _ _ _ _ _ _ _ _ _ _ _ Hsc) as (st' & E & Hs & _ & Hk & Heff).
  destruct (stream_effect_fresh hash td now n ms _ _ Hfresh (sc_local _ _ _ _ _ _ _ _ _ _ _ _ Hsc)
              Hnow Heff) as [Hn Hh].
  exists st'. done.
Qed.

(** vbucket_for_key gives the low seven bits of the hash, also when that is
    negative as an int. *)
Lemma vbucket_for_key_low_bits (hash : bytes -> Z) (key : bytes) :
  0 <= vbucket_for_key hash key < 128 /\ vbucket_for_key hash key = hash key mod 128.
Proof.
  split; [apply vbucket_range|]. unfold vbucket_for_key.
  change (128 - 1) with (Z.ones 7). rewrite Z.land_ones by lia. change (2 ^ 7) with 128.
  assert (i32 (hash key) mod 128 = hash key mod 128) as ->.
  { unfold i32. rewrite (Z.mod_eq _ (2 ^ 32)) by lia.
    set (q := (hash key + 2 ^ 31) / 2 ^ 32).
    replace (hash key + 2 ^ 31 - 2 ^ 32 * q - 2 ^ 31) with (hash key + (- 2 ^ 25 * q) * 128) by lia.
    apply Z.mod_add. lia. }
  apply u16_small. unfold in_u16. pose proof (Z.mod_pos_bound (hash key) 128). lia.
Qed.

(** ** Witnesses *)

(** A tapped server that answers TAP_CONNECT with a fixed stream. *)
Record tap_source : Type := mkTapSource { tsrc_stream : list recv_result }.
#[export] Instance tap_source_peer : Peer tap_source := fun s _ => Some (s, tsrc_stream s).

Definition mutate_packet (key value : bytes) (flags : Z) : packet :=
  mkPacket true (OpCode_value OpCode.TAP_MUTATE)
    (be_bytes 4 0 ++ be_bytes 4 0 ++ be_bytes 4 flags ++ be_bytes 4 0) key value 0 0 0.

(** Three records of the tap's vbuckets (one of them older than what the local
    memcached has), and one of another vbucket; the hash is the key's length. *)
Definition example_packets : list packet :=
  [mutate_packet (lit "bob") (lit "new") 200; mutate_packet (lit "alice") (lit "stale") 250;
   mutate_packet (lit "dan") (lit "added") 100; mutate_packet (lit "carolyn") (lit "other") 900].
Definition example_mutates : list TapMutateReq :=
  omap (fun p => match message_of_packet p with M_TapMutateReq m => Some m | _ => None end)
    example_packets.

Definition example_local : ref_server :=
  mkRefServer (update (update (fun _ => None) (lit "bob") (Some (mkRecord (lit "old") 100 1)))
                 (lit "alice") (Some (mkRecord (lit "kept") 300 2))) 3 [].
Definition example_td : TapBucketsThreadData :=
  mkTapData (lit "10.0.0.1:11211") (lit "10.0.0.2:11211") [3; 5] 0.
Definition example_stream_bytes : bytes := mjoin (encode_packet <$> example_packets).
Definition example_source : tap_source :=
  mkTapSource [R_data (take 31 example_stream_bytes); R_data (drop 31 example_stream_bytes); R_data []].
Definition example_stats : AstairePerConnectionStatistics :=
  match add_connection no_split (lit "10.0.0.1:11211") [3; 5] example_ps with
  | Val (_, p) => p
  | Fail _ => example_ps
  end.
Definition example_lc (s : ref_server) : Connection ref_server :=
  ClientConnection_new (lit "10.0.0.2:11211") s [].
Definition example_tc : Connection tap_source :=
  ClientConnection_new (lit "10.0.0.1:11211") example_source [].

(** Two worlds: nobody else writes, or others write records stamped at the end
    of time. *)
Definition nobody (_ : bytes * bytes * Z) : Prop := False.
Definition last_stamp : Z := 2 ^ 31 - 1.
Definition stamped_last (w : bytes * bytes * Z) : Prop := w.2 = last_stamp.

Lemma example_local_ok policy n q :
  Z.of_nat n < 2 ^ 32 -> Forall (foreign_ok policy 0) q ->
  rs_ok policy 0 n (mkRefServer (rs_store example_local) 3 q).
Proof.
  intros Hn Hq. split; [|split; [done|]; split; [cbn; lia|done]].
  intros k r. cbn. unfold update. repeat case_decide; intros [= <-];
    (split; [split; [vm_compute; discriminate|split; [vm_compute; split; done|vm_compute; split; done]]
            |vm_compute; reflexivity]).
Qed.

Lemma example_stats_ready : stats_ready example_td example_stats.
Proof.
  destruct (add_connection_ok no_split (lit "10.0.0.1:11211") [3; 5] example_ps)
    as (conn & p' & E & Hok & Hb & _); [constructor|].
  unfold example_stats. rewrite E. assert (conn = O) as -> by (vm_compute in E; by injection E).
  split; [done|]. intros vb Hvb. rewrite Hb by done. by eexists.
Qed.

Lemma example_records : Forall2 (tap_packet 0) example_packets example_mutates.
Proof.
  repeat (constructor; [split; [decide_wf|]; split; [reflexivity|]; split;
    [vm_compute; split; (reflexivity || discriminate)|]; split; [vm_compute; discriminate|];
    split; [reflexivity|]; split;
    [split; vm_compute; split; (reflexivity || discriminate)|]; exists 0; split; [reflexivity | vm_compute; split; (reflexivity || discriminate)] |]).
  constructor.
Qed.

Lemma example_env_ok : env_ok example_env.
Proof. split; [cbn; lia|]. repeat split; discriminate. Qed.

Lemma no_partial_packet : partial_packet [].
Proof.
  exists (mutate_packet [] [] 0), (encode_packet (mutate_packet [] [] 0)).
  split; [decide_wf|]. split; [done|]. vm_compute. discriminate.
Qed.

Lemma example_scenario policy q :
  Forall (foreign_ok policy 0) q ->
  tap_scenario (H0 := ref_memcached policy 0) example_td example_env example_env
    (example_lc (mkRefServer (rs_store example_local) 3 q)) example_tc example_gs example_stats
    0 example_packets example_mutates [] End_closed.
Proof.
  intros Hq. split.
  - split; exact example_env_ok.
  - split; reflexivity.
  - repeat split.
  - discriminate.
  - split; [exact example_stats_ready|]. vm_compute; split; (discriminate || reflexivity).
  - exact (example_local_ok policy 8 q eq_refl Hq).
  - eexists _, example_source, [take 31 example_stream_bytes; drop 31 example_stream_bytes].
    split; [reflexivity|]. split; [reflexivity|]. split; [|vm_compute; reflexivity].
    repeat constructor; vm_compute; discriminate.
  - exact example_records.
  - exact no_partial_packet.
  - vm_compute. reflexivity.
Qed.

Definition length_hash (key : bytes) : Z := len key.

Lemma nobody_quiet : foreign_quiet (H0 := ref_memcached nobody 0).
Proof.
  intros n l k (_ & _ & _ & Hf). cbn. unfold rs_foreign_step.
  destruct (rs_foreign l) as [|w q]; [done|]. by apply Forall_cons in Hf as [(_ & _ & []) _].
Qed.

Lemma stamped_last_fresh : foreign_fresh (H0 := ref_memcached stamped_last 0) last_stamp.
Proof.
  intros n l k (Hr & _ & _ & Hf). cbn. unfold rs_foreign_step.
  destruct (rs_foreign l) as [|[[k' v] f] q]; [by left|].
  apply Forall_cons in Hf as [(_ & _ & Hp) _]. change (f = last_stamp) in Hp. subst f. cbn. unfold update.
  case_decide; [right | by left]. eexists. split; [done|].
  change (i32 (r_flags _)) with last_stamp at 1 3. split; [lia|].
  intros r0 H0. apply Hr in H0 as [(_ & [_ Hst] & _) _]. unfold last_stamp in *. lia.
Qed.

Lemma tap_thread_merges_witness :
  exists st', tap_buckets_thread length_hash example_env example_env example_td
      (example_lc example_local) example_tc example_gs example_stats = Val st' /\
    contents (rs_store (c_peer (tt_local st'))) (lit "bob") = Some (lit "new", 200) /\
    contents (rs_store (c_peer (tt_local st'))) (lit "alice") = Some (lit "kept", 300) /\
    contents (rs_store (c_peer (tt_local st'))) (lit "carolyn") = None.
Proof.
  destruct (tap_thread_merges (H1 := ref_memcached_laws nobody 0)
    length_hash example_td example_env example_env (example_lc example_local) example_tc
    example_gs example_stats 0 example_packets example_mutates [] End_closed nobody_quiet
    (example_scenario nobody [] (Forall_nil_2 _))) as (st' & E & _ & Hc).
  cbn [lm_store ref_memcached] in Hc. exists st'. split; [exact E|].
  rewrite !Hc. vm_compute. auto.
Defined.

(** Meanwhile another client rewrites bob's record: the tap must not undo it. *)
Lemma tap_thread_keeps_newest_witness :
  exists st', tap_buckets_thread length_hash example_env example_env example_td
      (example_lc (mkRefServer (rs_store example_local) 3 [(lit "bob", lit "live", last_stamp)]))
      example_tc example_gs example_stats = Val st' /\
    no_older (rs_store example_local) (rs_store (c_peer (tt_local st'))).
Proof.
  destruct (tap_thread_keeps_newest (H1 := ref_memcached_laws stamped_last 0)
    length_hash example_td example_env example_env
    (example_lc (mkRefServer (rs_store example_local) 3 [(lit "bob", lit "live", last_stamp)]))
    example_tc example_gs example_stats 0 example_packets example_mutates [] End_closed last_stamp
    stamped_last_fresh) as (st' & E & _ & Hn & _).
  - repeat constructor; vm_compute; discriminate.
  - apply example_scenario. repeat constructor; vm_compute; (discriminate || reflexivity).
  - exists st'. split; [exact E | exact Hn].
Defined.
