(* ===== verification/TapInterleave.v ===== *)
(** * The tap threads of one round, interleaved

    Astaire::process_worklist runs the taps of a round as threads that share the
    local memcached and the statistics.  Here their loops (tap_buckets_thread,
    src/astaire.cpp) are interleaved request by request: between the GET and the
    ADD or REPLACE of a record of one tap, any number of requests of the others
    may happen.  The taps of a round stream different vbuckets, and the theorem
    is that every schedule ends, with the store that running the taps one after
    the other gives. *)

From Stdlib Require Import ZArith Lia Strings.Byte.
From stdpp Require Import prelude.
From S2P Require Import Prelude WireUtils StdMap Messages WireSpec Connection LocalStore Statistics.
From S2P Require Import TapThread TapSync.

Open Scope Z_scope.

(** ** The loop, cut at its requests *)

(** What is left to do for a record once the GET is answered. *)
Inductive decision : Type :=
| Dropped                  (* not one of the tap's, or the tag *)
| Lost                     (* no answer, or not a usable one *)
| Store (a : action).

(** What a thread does next. *)
Inductive next : Type :=
| Next_receive
| Next_store (m : TapMutateReq) (a : action)
| Next_finish.

Section halves.
Context {L T : Type} `{Peer L} `{Peer T} (hash : bytes -> Z).
Implicit Types (st : tap_thread L T).

(** The TAP_MUTATE branch up to the decision. *)
Definition fetch_record (td : TapBucketsThreadData) (mutate : TapMutateReq) st :
    res (tap_thread L T * decision) :=
  let key := bm_key (brq_base (tm_req mutate)) in
  if bool_decide (vbucket_for_key hash key ∉ td_buckets td) then mret (st, Dropped)
  else if bool_decide (ASTAIRE_KEY_PREFIX `prefix_of` key) then mret (st, Dropped)
  else
    '(st, base_msg) ← local_request (GetReq_new key 0) st;
    match base_msg with
    | None => mret (st, Lost)
    | Some base_msg =>
        if negb (is_response base_msg) ||
           negb (bm_op_code (base_of base_msg) =? OpCode_value OpCode.GET)
        then mret (st, Lost)
        else
          match base_msg with
          | M_GetRsp get_rsp =>
              a ← choose_action get_rsp mutate;
              match a with
              | Bad_result => mret (st, Lost)
              | _ => mret (st, Store a)
              end
          | _ => Fail Undefined
          end
    end.

(** The rest of it. *)
Definition put_record (td : TapBucketsThreadData) (mutate : TapMutateReq) (a : action) st :
    res (tap_thread L T) :=
  let vbucket := vbucket_for_key hash (bm_key (brq_base (tm_req mutate))) in
  '(st, stored) ← store_record a vbucket mutate st;
  if (stored : bool) then count_record td vbucket mutate st else mret (with_success false st).

Definition end_record (td : TapBucketsThreadData) (mutate : TapMutateReq) (d : decision) st :
    res (tap_thread L T) :=
  match d with
  | Dropped => mret st
  | Lost => mret (with_success false st)
  | Store a => put_record td mutate a st
  end.

Lemma handle_mutate_halves td m st :
  handle_mutate hash td m st = ('(st, d) ← fetch_record td m st; end_record td m d st).
Proof using.
  unfold handle_mutate, fetch_record. destruct (bool_decide _); [done|].
  destruct (bool_decide _); [done|].
  destruct (local_request _ st) as [[st1 [bm|]]|f]; [|done|done]. rewrite !bind_Val.
  destruct (_ || _); [done|]. destruct bm; try done.
  destruct (choose_action _ m) as [a|f]; [|done]. rewrite !bind_Val. by destruct a.
Qed.

(** One turn of the loop up to its store request. *)
Definition begin_turn (td : TapBucketsThreadData) st : res (tap_thread L T * next) :=
  '(c, status, msg) ← recv (tt_tap st);
  let st := with_tap c st in
  match status with
  | Status.ERROR => mret (with_success false st, Next_finish)
  | Status.DISCONNECTED => mret (st, Next_finish)
  | Status.OK =>
      m ← use msg;
      if is_response m then mret (with_success false st, Next_finish)
      else if bm_op_code (base_of m) =? OpCode_value OpCode.TAP_MUTATE then
        match m with
        | M_TapMutateReq mutate =>
            '(st, d) ← fetch_record td mutate st;
            match d with
            | Store a => mret (st, Next_store mutate a)
            | Dropped => mret (st, Next_receive)
            | Lost => mret (with_success false st, Next_receive)
            end
        | _ => Fail Undefined
        end
      else mret (with_success false st, Next_finish)
  end.

(** Uninterrupted, the two parts are a turn of the loop. *)
Lemma tap_step_halves td st :
  tap_step hash td st =
  '(st, nx) ← begin_turn td st;
  match nx with
  | Next_finish => mret (st, true)
  | Next_receive => mret (st, false)
  | Next_store m a => st ← put_record td m a st; mret (st, false)
  end.
Proof using.
  unfold tap_step, begin_turn. destruct (recv (tt_tap st)) as [[[c status] msg]|f]; [|done].
  rewrite !bind_Val. destruct status; [|done|done].
  destruct msg as [m|]; [|done]. cbn [use]. rewrite !bind_Val.
  destruct (is_response m); [done|]. destruct (_ =? _); [|done]. destruct m; try done.
  rewrite handle_mutate_halves. destruct (fetch_record td _ _) as [[st1 d]|f]; [|done].
  rewrite !bind_Val. by destruct d.
Qed.
End halves.

(** ** Threads and schedules *)

(** What the threads share; and a thread's own state. *)
Record shared (L : Type) : Type := mkShared {
  sh_local : L;
  sh_global : AstaireGlobalStatistics;
  sh_conns : AstairePerConnectionStatistics
}.
Arguments mkShared {L}.
Arguments sh_local {L}.
Arguments sh_global {L}.
Arguments sh_conns {L}.

Record worker (L T : Type) : Type := mkWorker {
  wk_td : TapBucketsThreadData;
  wk_local : Connection L;     (* the server's state in it is that of the last turn *)
  wk_tap : Connection T;
  wk_success : bool;
  wk_next : next
}.
Arguments mkWorker {L T}.
Arguments wk_td {L T}.
Arguments wk_local {L T}.
Arguments wk_tap {L T}.
Arguments wk_success {L T}.
Arguments wk_next {L T}.

Section schedule.
Context {L T : Type} `{Peer L} `{Peer T} (hash : bytes -> Z).

Definition set_peer (l : L) (c : Connection L) : Connection L :=
  mkConnection (c_address c) (c_sock c) (c_buffer c) (c_rcvtimeo c) (c_in c) l.

(** The thread's view of the shared state, and what it leaves. *)
Definition load (sh : shared L) (w : worker L T) : tap_thread L T :=
  mkTapThread (set_peer (sh_local sh) (wk_local w)) (wk_tap w) (wk_success w) (sh_global sh) (sh_conns sh).
Definition leave (st : tap_thread L T) : shared L :=
  mkShared (c_peer (tt_local st)) (tt_global st) (tt_conns st).
Definition save (st : tap_thread L T) (nx : next) (w : worker L T) : worker L T :=
  mkWorker (wk_td w) (tt_local st) (tt_tap st) (tt_success st) nx.

(** The next part of a thread's loop; [None] when the loop is over. *)
Definition run_part (sh : shared L) (w : worker L T) : option (res (tap_thread L T * next)) :=
  match wk_next w with
  | Next_receive => Some (begin_turn hash (wk_td w) (load sh w))
  | Next_store m a => Some (st ← put_record hash (wk_td w) m a (load sh w); mret (st, Next_receive))
  | Next_finish => None
  end.

(** A schedule lets one thread after another run its next part. *)
Inductive round_step : shared L * list (worker L T) -> shared L * list (worker L T) -> Prop :=
| part_step sh ws i w st nx :
    ws !! i = Some w -> run_part sh w = Some (Val (st, nx)) ->
    round_step (sh, ws) (leave st, <[i := save st nx w]> ws).
End schedule.

(** ** One part of a thread *)

(** The decision that the loop takes for a record, given the local one. *)
Definition decide_action (old : option record) (flags : Z) : action :=
  if older old flags
  then match old with Some x => Do_replace (r_cas x) | None => Do_add end
  else Do_nothing.

Section parts.
Context {L T : Type} `{LML : LocalMemcachedLaws L} `{PT : Peer T}.
Context (hash : bytes -> Z) (td : TapBucketsThreadData).
(** Nobody but the taps acts on the local memcached. *)
Context (Hquiet : foreign_quiet (L := L)).
Implicit Types (st : tap_thread L T).

Lemma fetch_record_ok n m st :
  idle (tt_local st) -> lm_ok (S n) (c_peer (tt_local st)) -> mutate_ok lm_epoch m ->
  exists c, fetch_record hash td m st =
      Val (with_local c st,
           if accepted hash td m
           then Store (decide_action (lm_store (c_peer (tt_local st)) (mutate_key m)) (mutate_flags m))
           else Dropped) /\
    idle c /\ lm_ok n (c_peer c) /\
    forall k, lm_store (c_peer c) k = lm_store (c_peer (tt_local st)) k.
Proof using LML Hquiet.
  intros Hi Hok Hm. unfold fetch_record, accepted. fold (mutate_key m).
  set (vb := vbucket_for_key hash (mutate_key m)).
  assert (Hskip : forall d : decision, exists c, @mret res _ _ (st, d) = Val (with_local c st, d) /\ idle c /\
    lm_ok n (c_peer c) /\ forall k, lm_store (c_peer c) k = lm_store (c_peer (tt_local st)) k).
  { intros d. exists (tt_local st). split; [by destruct st|]. split; [done|]. by split; [apply lm_ok_weaken|]. }
  destruct (decide (vb ∈ td_buckets td)) as [Hvb|Hvb];
    [rewrite (bool_decide_eq_false_2 (vb ∉ _)) by tauto; rewrite (bool_decide_eq_true_2 (vb ∈ _)) by done
    |rewrite (bool_decide_eq_true_2 (vb ∉ _)) by done; rewrite (bool_decide_eq_false_2 (vb ∈ _)) by done];
    [|apply Hskip].
  case_bool_decide as Hpre; cbn [andb negb]; [apply Hskip|].
  destruct (lm_get n _ _ Hok (proj1 Hm)) as (l1 & p & Hr & Hok1 & Hs1 & Ha).
  destruct (local_request_reply st _ _ l1 p Hi (GetReq_new_wire _) Hr) as (c1 & E1 & Hi1 & Hp1).
  rewrite E1, bind_Val. rewrite (Hquiet n _ _ Hok) in Ha.
  destruct (choose_action_answer lm_epoch _ p m Ha) as (g & Eg & Ec); [|done|].
  { intros x Hx. by apply (lm_record_ok _ _ _ _ Hok Hx). }
  assert (is_response (message_of_packet p) = true /\
          bm_op_code (base_of (message_of_packet p)) = OpCode_value OpCode.GET) as [-> ->].
  { unfold message_of_packet. destruct Ha as (Hq & Ho & _). rewrite Hq, Ho. split; [done|exact Ho]. }
  rewrite Eg. cbn [negb orb Z.eqb]. rewrite Z.eqb_refl. cbn [negb]. rewrite Ec, bind_Val.
  exists c1. rewrite Hp1. split; [|split; [done|]; split; [done|]; intros k; by rewrite Hs1, (Hquiet n _ k Hok)].
  unfold decide_action. destruct (older _ _); [|done]. by destruct (lm_store _ _).
Qed.

Lemma put_record_ok n m st :
  idle (tt_local st) -> lm_ok (S n) (c_peer (tt_local st)) -> mutate_ok lm_epoch m ->
  accepted hash td m = true -> stats_ready td (tt_conns st) ->
  let l := c_peer (tt_local st) in
  exists st', put_record hash td m (decide_action (lm_store l (mutate_key m)) (mutate_flags m)) st = Val st' /\
    idle (tt_local st') /\ lm_ok n (c_peer (tt_local st')) /\ tt_tap st' = tt_tap st /\
    tt_success st' = tt_success st /\ stats_grow (tt_conns st) (tt_conns st') /\
    (forall k, k <> mutate_key m -> lm_store (c_peer (tt_local st')) k = lm_store l k) /\
    contents (lm_store (c_peer (tt_local st'))) (mutate_key m) =
      merge hash td (contents (lm_store l)) m (mutate_key m).
Proof using LML Hquiet.
  intros Hi Hok Hm Ha Hst l. unfold put_record. fold (mutate_key m).
  set (vb := vbucket_for_key hash (mutate_key m)).
  assert (Hvb : vb ∈ td_buckets td).
  { unfold accepted in Ha. apply andb_true_iff in Ha as [Ha _]. by apply bool_decide_eq_true in Ha. }
  assert (Hvb16 : in_u16 vb) by (pose proof (vbucket_range hash (mutate_key m)); unfold in_u16, vb; lia).
  assert (Hmg : merge hash td (contents (lm_store l)) m (mutate_key m) =
    if older (lm_store l (mutate_key m)) (mutate_flags m) then Some (tm_value m, mutate_flags m)
    else contents (lm_store l) (mutate_key m)).
  { unfold merge, contents. rewrite Ha. destruct (lm_store l (mutate_key m)) as [r|] eqn:E; cbn;
      [destruct (_ <? _)|]; by rewrite ?decide_True, ?E. }
  rewrite Hmg. unfold decide_action. destruct (older _ _) eqn:Eold.
  - destruct (store_record_ok n vb m st l) as (c & c0 & E & Hi' & Hok' & Hs); try done.
    rewrite E, bind_Val. cbv beta iota.
    destruct (count_record_ok td vb m (with_local c st) Hst Hvb) as (st' & -> & El & Et & Esu & Hg & _).
    exists st'. rewrite El, Et, Esu. cbn [tt_local with_local tt_tap tt_success].
    repeat (split; [done|]). split; [intros k Hk|unfold contents]; rewrite Hs;
      rewrite !(Hquiet n l) by done; rewrite decide_True by done; unfold update;
      [by rewrite decide_False, (Hquiet n l)|by rewrite decide_True].
  - cbn [store_record]. rewrite bind_Val. cbv beta iota.
    destruct (count_record_ok td vb m st Hst Hvb) as (st' & -> & El & Et & Esu & Hg & _).
    exists st'. rewrite El, Et, Esu. split; [done|]. split; [done|]. by split; [apply lm_ok_weaken|].
Qed.
End parts.

(** ** The invariant of a round *)

(** A thread's task: the records of its stream, and how the stream ends. *)
Record job : Type := mkJob {
  jb_td : TapBucketsThreadData;
  jb_records : list TapMutateReq;
  jb_tail : bytes;
  jb_end : stream_end
}.

Section round.
Context {L T : Type} `{LML : LocalMemcachedLaws L} `{PT : Peer T} (hash : bytes -> Z).
Context (Hquiet : foreign_quiet (L := L)).
Implicit Types (sh : shared L) (w : worker L T) (j : job) (base : bytes -> option (bytes * Z)).

(** A bound on the requests a thread still makes, and on the parts it still has. *)
Definition cost w : nat :=
  match wk_next w with
  | Next_receive => 2 * pending (wk_tap w) + 1
  | Next_store _ _ => 2 * pending (wk_tap w) + 2
  | Next_finish => 0
  end.

(** The thread is receiving the records [todo] of its job. *)
Definition tapping j w (todo : list TapMutateReq) : Prop :=
  wk_success w = true /\ c_sock (wk_tap w) <> -1 /\ c_rcvtimeo (wk_tap w) = true /\
  exists ps, Forall2 (tap_packet lm_epoch) ps todo /\
    holds_stream (wk_tap w) (mjoin (encode_packet <$> ps) ++ jb_tail j) (end_results (jb_end j)) /\
    len (mjoin (encode_packet <$> ps) ++ jb_tail j) < 2 ^ 32.

(** Where a thread is: in the vbuckets of its tap the local memcached holds what
    the records handled so far merge to, and a decision taken is still right. *)
Definition worker_inv base sh j w : Prop := exists handled todo,
  jb_records j = handled ++ todo /\ wk_td w = jb_td j /\ idle (wk_local w) /\
  stats_ready (jb_td j) (sh_conns sh) /\ partial_packet (jb_tail j) /\
  (forall k, vbucket_for_key hash k ∈ td_buckets (jb_td j) ->
     contents (lm_store (sh_local sh)) k = foldl (merge hash (jb_td j)) base handled k) /\
  match wk_next w with
  | Next_receive => tapping j w todo
  | Next_store m a => exists todo', todo = m :: todo' /\ tapping j w todo' /\
      mutate_ok lm_epoch m /\ accepted hash (jb_td j) m = true /\
      a = decide_action (lm_store (sh_local sh) (mutate_key m)) (mutate_flags m)
  | Next_finish => todo = [] /\ wk_success w = complete (jb_end j)
  end.

(** What a part of a thread with these vbuckets may do to the shared state. *)
Definition frame (td : TapBucketsThreadData) sh sh' : Prop :=
  (forall k, vbucket_for_key hash k ∉ td_buckets td ->
     lm_store (sh_local sh') k = lm_store (sh_local sh) k) /\
  stats_grow (sh_conns sh) (sh_conns sh').

Lemma accepted_vbucket td m :
  accepted hash td m = true -> vbucket_for_key hash (mutate_key m) ∈ td_buckets td.
Proof using. unfold accepted. intros [Ha _]%andb_true_iff. by apply bool_decide_eq_true in Ha. Qed.

(** Threads with other vbuckets do not disturb a thread. *)
Lemma worker_inv_frame base sh sh' td j w :
  frame td sh sh' -> (forall vb, vb ∈ td_buckets (jb_td j) -> vb ∉ td_buckets td) ->
  worker_inv base sh j w -> worker_inv base sh' j w.
Proof using.
  intros [Hs Hg] Hd (handled & todo & E & Etd & Hi & Hst & Hp & Hc & Hn). exists handled, todo.
  repeat (split; [done|]). split; [by eapply stats_ready_grow|]. split; [done|]. split.
  - intros k Hk. rewrite <- Hc by done. unfold contents. by rewrite Hs by auto.
  - destruct (wk_next w); [done| |done]. destruct Hn as (todo' & -> & Ht & Hm & Ha & ->).
    exists todo'. repeat (split; [done|]). rewrite Hs; [done|]. apply Hd. by apply accepted_vbucket.
Qed.

Lemma merge_elsewhere td c m k :
  (accepted hash td m = true -> k <> mutate_key m) -> merge hash td c m k = c k.
Proof using.
  intros Hk. unfold merge. destruct (accepted hash td m); cbn [andb]; [|done].
  destruct (match c (mutate_key m) with Some _ => _ | None => _ end); [|done].
  by rewrite decide_False by auto.
Qed.

(** A merge at a key depends on what was there only. *)
Lemma merges_local td ms k : forall c c', c k = c' k ->
  foldl (merge hash td) c ms k = foldl (merge hash td) c' ms k.
Proof using.
  induction ms as [|m ms IH]; intros c c' E; [done|]. cbn [foldl]. apply IH.
  destruct (decide (accepted hash td m = true /\ k = mutate_key m)) as [[Ha ->]|Hk];
    [|by rewrite !merge_elsewhere by tauto].
  unfold merge. rewrite Ha, E. cbn [andb]. destruct (match c' _ with Some _ => _ | None => _ end); [|done].
  by rewrite !decide_True.
Qed.

Lemma merges_elsewhere td ms k c :
  vbucket_for_key hash k ∉ td_buckets td -> foldl (merge hash td) c ms k = c k.
Proof using.
  intros Hk. revert c. induction ms as [|m ms IH]; intros c; [done|]. cbn [foldl]. rewrite IH.
  apply merge_elsewhere. intros Ha ->. by apply Hk, accepted_vbucket.
Qed.

Lemma lm_ok_le m n (l : L) : (m <= n)%nat -> lm_ok n l -> lm_ok m l.
Proof using LML. induction 1 as [|n _ IH]; [done|]. intros Hok. by apply IH, lm_ok_weaken. Qed.

(** The end of the stream. *)
Lemma receive_end sh j w :
  partial_packet (jb_tail j) -> tapping j w [] ->
  exists t, begin_turn hash (wk_td w) (load sh w) =
    Val (mkTapThread (set_peer (sh_local sh) (wk_local w)) t (complete (jb_end j)) (sh_global sh)
           (sh_conns sh), Next_finish).
Proof using.
  intros Hp (Hsu & Hsk & Hto & ps & Hps & Hh & _).
  apply Forall2_nil_inv_r in Hps as ->. cbn [fmap list_fmap] in Hh.
  change (mjoin [] ++ jb_tail j) with (jb_tail j) in Hh.
  unfold begin_turn. destruct (recv_ends _ _ _ Hsk Hto Hp Hh) as (c & E & _).
  change (tt_tap (load sh w)) with (wk_tap w). rewrite E, bind_Val. exists c.
  unfold with_tap, with_success, load. cbn [tt_local tt_tap tt_success tt_global tt_conns].
  rewrite Hsu. by destruct (jb_end j).
Qed.

(** The next record. *)
Lemma receive_record sh j w m todo n :
  tapping j w (m :: todo) -> idle (wk_local w) -> wk_td w = jb_td j ->
  lm_ok (2 * pending (wk_tap w) + 1 + n) (sh_local sh) ->
  exists c t nx, begin_turn hash (wk_td w) (load sh w) =
      Val (mkTapThread c t true (sh_global sh) (sh_conns sh), nx) /\
    idle c /\ (forall k, lm_store (c_peer c) k = lm_store (sh_local sh) k) /\
    tapping j (mkWorker (wk_td w) c t true nx) todo /\
    (pending t < pending (wk_tap w))%nat /\ lm_ok (2 * pending t + 2 + n) (c_peer c) /\
    mutate_ok lm_epoch m /\
    nx = if accepted hash (jb_td j) m
         then Next_store m (decide_action (lm_store (sh_local sh) (mutate_key m)) (mutate_flags m))
         else Next_receive.
Proof using LML Hquiet.
  intros (Hsu & Hsk & Hto & ps & Hps & Hh & Hl) Hi Htd Hok.
  apply Forall2_cons_inv_r in Hps as (p & ps' & (Hwf & Hpm & Hm) & Hps & ->).
  change (mjoin (encode_packet <$> p :: ps')) with (encode_packet p ++ mjoin (encode_packet <$> ps')) in Hh, Hl.
  rewrite <- app_assoc in Hh, Hl.
  destruct (recv_packet _ p _ _ Hsk Hwf Hh Hl) as (t & E & Hsk' & _ & Hto' & Hh').
  assert (Hpend : (pending t + 24 <= pending (wk_tap w))%nat).
  { destruct (recv_inv _ _ _ _ E) as [(_ & ? & _ & _ & _ & ?)|[? _]]; [lia|done]. }
  unfold begin_turn. change (tt_tap (load sh w)) with (wk_tap w). rewrite E, bind_Val. cbn [use].
  rewrite bind_Val, Hpm. cbn [is_response is_request message_base negb].
  change (base_of (M_TapMutateReq m)) with (brq_base (tm_req m)).
  rewrite (mutate_packet_op p m Hpm), Z.eqb_refl, Htd.
  destruct (fetch_record_ok hash (jb_td j) Hquiet (2 * pending t + 2 + n) m (with_tap t (load sh w)))
    as (c & Ef & Hic & Hokc & Hsc); [done| |done|].
  { eapply lm_ok_le; [|exact Hok]. lia. }
  change (c_peer (tt_local (with_tap t (load sh w)))) with (sh_local sh) in Ef, Hsc.
  assert (Est : with_local c (with_tap t (load sh w)) = mkTapThread c t true (sh_global sh) (sh_conns sh))
    by (unfold with_local, with_tap, load; cbn; by rewrite Hsu).
  rewrite Ef, bind_Val, Est.
  assert (Ht : forall nx, tapping j (mkWorker (jb_td j) c t true nx) todo).
  { intros nx. split; [done|]. cbn. rewrite Hsk', Hto'. split; [done|]. split; [done|].
    exists ps'. split; [done|]. split; [done|]. rewrite len_app in Hl.
    pose proof (len_nonneg (encode_packet p)). lia. }
  destruct (accepted hash (jb_td j) m); (eexists c, t, _; split; [reflexivity|]);
    (split; [done|]); (split; [done|]); (split; [apply Ht|]); (split; [lia|]); done.
Qed.
Lemma frame_refl td sh sh' :
  (forall k, lm_store (sh_local sh') k = lm_store (sh_local sh) k) -> ps_ok (sh_conns sh) ->
  sh_conns sh' = sh_conns sh -> frame td sh sh'.
Proof using. intros Hs Hp E. split; [auto|]. by rewrite E. Qed.

(** Any part of a thread keeps the invariant, within the vbuckets of its tap,
    and brings the thread nearer to its end. *)
Definition part_ok base sh j w (n : nat) st nx : Prop :=
  run_part hash sh w = Some (Val (st, nx)) /\ worker_inv base (leave st) j (save st nx w) /\
  lm_ok (cost (save st nx w) + n) (sh_local (leave st)) /\ (cost (save st nx w) < cost w)%nat /\
  frame (jb_td j) sh (leave st).

Lemma part_receive base sh j w n :
  worker_inv base sh j w -> lm_ok (cost w + n) (sh_local sh) -> wk_next w = Next_receive ->
  exists st nx, part_ok base sh j w n st nx.
Proof using LML Hquiet.
  intros (handled & todo & E & Etd & Hi & Hst & Hp & Hc & Hn) Hok Hx. rewrite Hx in Hn.
  unfold part_ok, run_part. rewrite Hx. unfold cost in Hok at 1. rewrite Hx in Hok.
  destruct todo as [|m todo].
  - destruct (receive_end sh j w Hp Hn) as (t & Er). rewrite Er. eexists _, _. split; [done|].
    split; [|split; [|split]].
    + exists handled, []. cbn. done.
    + cbn. eapply lm_ok_le; [|exact Hok]. lia.
    + unfold cost. rewrite Hx. cbn. lia.
    + apply frame_refl; [done|apply Hst|done].
  - destruct (receive_record sh j w m todo n Hn Hi Etd Hok)
      as (c & t & nx & Er & Hic & Hs & Ht & Hpe & Hok' & Hm & Enx).
    rewrite Er. eexists _, _. split; [done|].
    assert (Hc' : forall k, contents (lm_store (c_peer c)) k = contents (lm_store (sh_local sh)) k)
      by (intros k; unfold contents; by rewrite Hs).
    split; [|split; [|split]].
    + destruct (accepted hash (jb_td j) m) eqn:Ha; subst nx.
      * exists handled, (m :: todo). cbn. repeat (split; [done|]).
        split; [intros k Hk; by rewrite Hc', Hc|]. exists todo. rewrite Hs. done.
      * exists (handled ++ [m]), todo. cbn. rewrite <- app_assoc. repeat (split; [done|]).
        split; [|done]. intros k Hk. rewrite Hc', Hc, foldl_app by done. cbn [foldl].
        by rewrite merge_elsewhere by congruence.
    + unfold cost, save. cbn. destruct (accepted hash (jb_td j) m); subst nx; [done|].
      eapply lm_ok_le; [|exact Hok']. lia.
    + unfold cost, save. rewrite Hx. cbn. destruct (accepted hash (jb_td j) m); subst nx; lia.
    + apply frame_refl; [done|apply Hst|done].
Qed.

Lemma part_store base sh j w n m a :
  worker_inv base sh j w -> lm_ok (cost w + n) (sh_local sh) -> wk_next w = Next_store m a ->
  exists st nx, part_ok base sh j w n st nx.
Proof using LML Hquiet.
  intros (handled & todo & E & Etd & Hi & Hst & Hp & Hc & Hn) Hok Hx. rewrite Hx in Hn.
  destruct Hn as (todo' & -> & Ht & Hm & Ha & ->).
  unfold part_ok, run_part. rewrite Hx, Etd. unfold cost in Hok at 1. rewrite Hx in Hok.
  destruct (put_record_ok hash (jb_td j) Hquiet (2 * pending (wk_tap w) + 1 + n) m (load sh w))
    as (st & Ep & Hi' & Hok' & Et & Esu & Hg & Hoth & Hkey); try done.
  { eapply lm_ok_le; [|exact Hok]. cbn. lia. }
  change (c_peer (tt_local (load sh w))) with (sh_local sh) in *. rewrite Ep, bind_Val.
  exists st, Next_receive. split; [done|]. cbn in Et, Esu, Hg.
  split; [|split; [|split]].
  - exists (handled ++ [m]), todo'. cbn. rewrite <- app_assoc. repeat (split; [done|]).
    split; [by eapply stats_ready_grow|]. split; [done|]. split.
    + intros k Hk. rewrite foldl_app. cbn [foldl].
      destruct (decide (k = mutate_key m)) as [->|Hne].
      * rewrite Hkey. apply (merges_local (jb_td j) [m]). by apply Hc.
      * rewrite merge_elsewhere by done. rewrite <- Hc by done. unfold contents. by rewrite Hoth.
    + destruct Ht as (Hsu & Hsk & Hto & Hps). unfold tapping. cbn. rewrite Et, Esu. done.
  - unfold cost. cbn. by rewrite Et.
  - unfold cost. rewrite Hx. cbn. rewrite Et. lia.
  - split; [|done]. intros k Hk. apply Hoth. intros ->. by apply Hk, accepted_vbucket.
Qed.

(** ** A whole round *)

(** No vbucket is streamed by two of the taps. *)
Definition taps_vbucket (vb : Z) j : Prop := vb ∈ td_buckets (jb_td j).
#[local] Instance taps_vbucket_dec vb j : Decision (taps_vbucket vb j).
Proof using. unfold taps_vbucket. apply _. Defined.

Definition disjoint_jobs (jobs : list job) : Prop :=
  forall vb, (length (filter (taps_vbucket vb) jobs) <= 1)%nat.

Lemma filter_lookup_pos vb jobs i j :
  jobs !! i = Some j -> taps_vbucket vb j -> (1 <= length (filter (taps_vbucket vb) jobs))%nat.
Proof using.
  intros Hi Hj. apply list_elem_of_lookup_2 in Hi.
  assert (j ∈ filter (taps_vbucket vb) jobs) as Hin by by apply list_elem_of_filter.
  destruct (filter _ jobs); [by apply elem_of_nil in Hin|cbn; lia].
Qed.

Lemma disjoint_jobs_lookup jobs i i' j j' vb :
  disjoint_jobs jobs -> jobs !! i = Some j -> jobs !! i' = Some j' -> i <> i' ->
  vb ∈ td_buckets (jb_td j) -> vb ∉ td_buckets (jb_td j').
Proof using.
  intros Hd. specialize (Hd vb). revert i i'. induction jobs as [|j0 jobs IH]; intros i i'; [done|].
  rewrite filter_cons in Hd. destruct i as [|i], i' as [|i']; cbn; intros Hi Hi' Hne Hv Hv'; simplify_eq.
  - rewrite decide_True in Hd by done. pose proof (filter_lookup_pos vb _ _ _ Hi' Hv'). cbn in Hd. lia.
  - rewrite decide_True in Hd by done. pose proof (filter_lookup_pos vb _ _ _ Hi Hv). cbn in Hd. lia.
  - apply (IH ltac:(destruct (decide _); cbn in Hd; lia) i i'); try done. lia.
Qed.

(** The taps one after the other. *)
Definition in_sequence (jobs : list job) base : bytes -> option (bytes * Z) :=
  foldl (fun c j => foldl (merge hash (jb_td j)) c (jb_records j)) base jobs.

Lemma in_sequence_local jobs k : forall c c', c k = c' k -> in_sequence jobs c k = in_sequence jobs c' k.
Proof using.
  induction jobs as [|j jobs IH]; intros c c' E; [done|]. cbn. apply IH. by apply merges_local.
Qed.

Lemma in_sequence_filter jobs base k :
  in_sequence jobs base k = in_sequence (filter (taps_vbucket (vbucket_for_key hash k)) jobs) base k.
Proof using.
  revert base. induction jobs as [|j jobs IH]; intros base; [done|].
  rewrite filter_cons. cbn [in_sequence foldl]. case_decide as Hj; [apply IH|].
  change (in_sequence jobs (foldl (merge hash (jb_td j)) base (jb_records j)) k =
          in_sequence (filter (taps_vbucket (vbucket_for_key hash k)) jobs) base k).
  rewrite <- IH. apply in_sequence_local. by apply merges_elsewhere.
Qed.

(** The order does not matter. *)
Lemma in_sequence_perm jobs jobs' base k :
  disjoint_jobs jobs -> jobs' ≡ₚ jobs -> in_sequence jobs' base k = in_sequence jobs base k.
Proof using.
  intros Hd Hp. rewrite (in_sequence_filter jobs'), (in_sequence_filter jobs).
  specialize (Hd (vbucket_for_key hash k)).
  assert (filter (taps_vbucket (vbucket_for_key hash k)) jobs' ≡ₚ
          filter (taps_vbucket (vbucket_for_key hash k)) jobs) as Hf by by rewrite Hp.
  destruct (filter _ jobs) as [|j [|]]; [|by apply Permutation_singleton_r in Hf as ->|cbn in Hd; lia].
  by apply Permutation_nil_r in Hf as ->.
Qed.

Definition total_cost (ws : list (worker L T)) : nat := sum_list_with cost ws.

Definition round_inv base (jobs : list job) (n : nat) (s : shared L * list (worker L T)) : Prop :=
  lm_ok (total_cost s.2 + n) (sh_local s.1) /\ Forall2 (worker_inv base s.1) jobs s.2 /\
  forall k, Forall (fun j => vbucket_for_key hash k ∉ td_buckets (jb_td j)) jobs ->
    contents (lm_store (sh_local s.1)) k = base k.

Lemma total_cost_insert ws i w w' :
  ws !! i = Some w -> (total_cost (<[i := w']> ws) + cost w = total_cost ws + cost w')%nat.
Proof using.
  unfold total_cost. revert i. induction ws as [|w0 ws IH]; intros [|i] Hi; [done|done| |].
  - injection Hi as ->. change (<[0%nat := w']> (w :: ws)) with (w' :: ws). cbn [sum_list_with]. lia.
  - change (<[S i := w']> (w0 :: ws)) with (w0 :: <[i := w']> ws). cbn [sum_list_with].
    specialize (IH i Hi). lia.
Qed.

(** A thread that is not finished can always run its next part. *)
Lemma round_part base jobs n sh ws i w :
  disjoint_jobs jobs -> round_inv base jobs n (sh, ws) -> ws !! i = Some w -> wk_next w <> Next_finish ->
  exists st nx, run_part hash sh w = Some (Val (st, nx)) /\
    round_inv base jobs n (leave st, <[i := save st nx w]> ws) /\
    (total_cost (<[i := save st nx w]> ws) < total_cost ws)%nat.
Proof using LML Hquiet.
  intros Hd (Hok & Hws & Huntouched) Hi Hn. cbn [fst snd] in *.
  destruct (Forall2_lookup_r _ _ _ _ _ Hws Hi) as (j & Hj & Hw).
  set (rest := (total_cost ws - cost w + n)%nat).
  pose proof (total_cost_insert ws i w) as Hins.
  assert (Hle : (cost w <= total_cost ws)%nat).
  { specialize (Hins (mkWorker (wk_td w) (wk_local w) (wk_tap w) true Next_finish) Hi).
    change (cost (mkWorker _ _ _ _ Next_finish)) with 0%nat in Hins. lia. }
  assert (Hok' : lm_ok (cost w + rest) (sh_local sh)) by (eapply lm_ok_le; [|exact Hok]; lia).
  assert (exists st nx, part_ok base sh j w rest st nx) as (st & nx & Hr & Hw' & Hok2 & Hc & Hf).
  { destruct (wk_next w) eqn:Hx; [by eapply part_receive|by eapply part_store|done]. }
  exists st, nx. split; [done|]. specialize (Hins (save st nx w) Hi).
  split; [|lia]. split; [|split].
  - cbn [fst snd]. eapply lm_ok_le; [|exact Hok2]. unfold rest. lia.
  - cbn [fst snd]. apply Forall2_same_length_lookup_2; [rewrite length_insert; by apply Forall2_length in Hws|].
    intros i' j' w' Hj' Hw2. destruct (decide (i' = i)) as [->|Hne].
    + rewrite list_lookup_insert_eq in Hw2 by (by apply lookup_lt_Some in Hi). by simplify_eq.
    + rewrite list_lookup_insert_ne in Hw2 by done. eapply worker_inv_frame; [exact Hf| |].
      * intros vb Hvb. by eapply (disjoint_jobs_lookup jobs i' i).
      * by eapply (Forall2_lookup_lr _ _ _ _ _ _ Hws).
  - cbn [fst snd]. intros k Hk. rewrite <- Huntouched by done. destruct Hf as [Hf _]. unfold contents.
    rewrite Hf; [done|]. rewrite Forall_forall in Hk. apply Hk. by eapply list_elem_of_lookup_2.
Qed.

Lemma round_step_inv base jobs n s s' :
  disjoint_jobs jobs -> round_inv base jobs n s -> round_step hash s s' ->
  round_inv base jobs n s' /\ (total_cost s'.2 < total_cost s.2)%nat.
Proof using LML Hquiet.
  intros Hd Hinv Hs. destruct Hs as [sh ws i w st nx Hi Hr].
  destruct (round_part base jobs n sh ws i w Hd Hinv Hi) as (st' & nx' & Hr' & Hinv' & Hc).
  - intros Hx. unfold run_part in Hr. by rewrite Hx in Hr.
  - rewrite Hr in Hr'. by simplify_eq.
Qed.

Lemma round_steps_inv base jobs n k s s' :
  disjoint_jobs jobs -> round_inv base jobs n s -> nsteps (round_step hash) k s s' ->
  round_inv base jobs n s' /\ (k + total_cost s'.2 <= total_cost s.2)%nat.
Proof using LML Hquiet.
  intros Hd Hinv. induction 1 as [s|k s1 s2 s3 H12 _ IH]; [split; [done|lia]|].
  destruct (round_step_inv base jobs n s1 s2 Hd Hinv H12) as [Hinv2 Hc].
  destruct (IH Hinv2) as [Hinv3 Hc3]. split; [done|lia].
Qed.

(** The threads of a round when they enter their loops. *)
Definition starts sh j w : Prop :=
  wk_next w = Next_receive /\ wk_td w = jb_td j /\ idle (wk_local w) /\
  stats_ready (jb_td j) (sh_conns sh) /\ partial_packet (jb_tail j) /\ tapping j w (jb_records j).

Lemma starts_inv jobs n sh ws :
  Forall2 (starts sh) jobs ws -> lm_ok (total_cost ws + n) (sh_local sh) ->
  round_inv (contents (lm_store (sh_local sh))) jobs n (sh, ws).
Proof using.
  intros Hs Hok. split; [done|]. split; [|done]. eapply Forall2_impl; [exact Hs|].
  intros j w (Hx & Htd & Hi & Hst & Hp & Ht). exists [], (jb_records j). rewrite Hx. done.
Qed.

Definition finished w : Prop := wk_next w = Next_finish.
Definition succeeds j w : Prop := wk_success w = complete (jb_end j).

Lemma round_end base jobs n sh ws :
  disjoint_jobs jobs -> round_inv base jobs n (sh, ws) -> Forall finished ws ->
  Forall2 succeeds jobs ws /\
  forall k, contents (lm_store (sh_local sh)) k = in_sequence jobs base k.
Proof using.
  intros Hd (_ & Hws & Huntouched) Hfin. cbn [fst snd] in *.
  assert (Hdone : Forall2 (fun j w => succeeds j w /\ forall k, taps_vbucket (vbucket_for_key hash k) j ->
    contents (lm_store (sh_local sh)) k = foldl (merge hash (jb_td j)) base (jb_records j) k) jobs ws).
  { apply Forall2_same_length_lookup_2; [by apply Forall2_length in Hws|]. intros i j w Hj Hw.
    destruct (Forall2_lookup_lr _ _ _ _ _ _ Hws Hj Hw) as (handled & todo & E & _ & _ & _ & _ & Hc & Hx).
    pose proof (Forall_lookup_1 _ _ _ _ Hfin Hw) as Hf. unfold finished in Hf. rewrite Hf in Hx.
    destruct Hx as [-> Hsu]. rewrite app_nil_r in E. split; [done|]. by rewrite E. }
  split; [eapply Forall2_impl; [exact Hdone|]; by intros j w [? _]|]. intros k.
  rewrite in_sequence_filter. specialize (Hd (vbucket_for_key hash k)).
  destruct (filter (taps_vbucket (vbucket_for_key hash k)) jobs) as [|j [|]] eqn:Ef; [| |cbn in Hd; lia].
  - cbn. apply Huntouched, Forall_forall. intros j Hj Hv. apply (not_elem_of_nil j). rewrite <- Ef.
    by apply list_elem_of_filter.
  - assert (j ∈ filter (taps_vbucket (vbucket_for_key hash k)) jobs) as Hin
      by (rewrite Ef; by apply list_elem_of_singleton).
    apply list_elem_of_filter in Hin as [Hv Hin]. apply list_elem_of_lookup_1 in Hin as [i Hi].
    destruct (Forall2_lookup_l _ _ _ _ _ Hdone Hi) as (w & _ & _ & Hc). by apply Hc.
Qed.
End round.

(** ** Properties *)

(** C3: the threads of a round may be scheduled in any way.  As long as no two
    of them stream the same vbucket and nobody else acts on the local memcached,
    every schedule of their requests (a GET and the store that follows it may
    be any number of other threads' requests apart) is finite, no thread is ever
    stuck, and when all are finished the local memcached holds exactly what
    running the taps one after the other gives, in whatever order; each tap
    has succeeded if and only if its server closed its stream. *)
Theorem taps_interleave {L T : Type} `{LocalMemcachedLaws L} `{Peer T} (hash : bytes -> Z)
    (jobs jobs' : list job) (n : nat) (sh : shared L) (ws : list (worker L T))
    (Hquiet : foreign_quiet (L := L)) (Hdisjoint : disjoint_jobs jobs) (Horder : jobs' ≡ₚ jobs)
    (Hstart : Forall2 (starts sh) jobs ws) (Hok : lm_ok (total_cost ws + n) (sh_local sh)) :
  (forall k s', nsteps (round_step hash) k (sh, ws) s' -> (k <= total_cost ws)%nat) /\
  (forall k sh' ws', nsteps (round_step hash) k (sh, ws) (sh', ws') ->
     (forall i w, ws' !! i = Some w -> finished w \/
        exists st nx, run_part hash sh' w = Some (Val (st, nx)) /\
          round_step hash (sh', ws') (leave st, <[i := save st nx w]> ws')) /\
     (Forall finished ws' ->
        Forall2 succeeds jobs ws' /\
        forall key, contents (lm_store (sh_local sh')) key =
          in_sequence hash jobs' (contents (lm_store (sh_local sh))) key)).
Proof.
  pose proof (starts_inv hash jobs n sh ws Hstart Hok) as Hinv. split.
  - intros k s' Hs. destruct (round_steps_inv hash Hquiet _ jobs n k _ s' Hdisjoint Hinv Hs) as [_ Hc].
    cbn [snd] in Hc. lia.
  - intros k sh' ws' Hs.
    destruct (round_steps_inv hash Hquiet _ jobs n k _ _ Hdisjoint Hinv Hs) as [Hinv' _]. split.
    + intros i w Hi. destruct (wk_next w) eqn:Hx; [right|right|by left].
      all: destruct (round_part hash Hquiet _ jobs n sh' ws' i w Hdisjoint Hinv' Hi)
             as (st & nx & Hr & _); [by rewrite Hx|].
      all: exists st, nx; split; [done|by apply (part_step hash)].
    + intros Hf. destruct (round_end hash _ jobs n sh' ws' Hdisjoint Hinv' Hf) as [Hsu Hc].
      split; [done|]. intros key. rewrite Hc. symmetry. by apply in_sequence_perm.
Qed.

(** ** Witness *)

(** Two taps, of vbuckets 3 and 5 and of vbucket 7, of servers that send the
    same stream; the second one breaks off. *)
Definition second_td : TapBucketsThreadData :=
  mkTapData (lit "10.0.0.3:11211") (lit "10.0.0.2:11211") [7] 1.
Definition two_jobs : list job :=
  [mkJob example_td example_mutates [] End_closed; mkJob second_td example_mutates [] End_reset].
Definition two_stats : AstairePerConnectionStatistics :=
  match add_connection no_split (lit "10.0.0.3:11211") [7] example_stats with
  | Val (_, p) => p
  | Fail _ => example_stats
  end.
Definition two_shared : shared ref_server := mkShared example_local example_gs two_stats.
Definition tap_worker (td : TapBucketsThreadData) (fin : stream_end) : worker ref_server tap_source :=
  mkWorker td (mkConnection (td_local_server td) 5 [] true [] example_local)
    (mkConnection (td_tap_server td) 6 [] true (R_data example_stream_bytes :: end_results fin)
       example_source) true Next_receive.
Definition two_workers : list (worker ref_server tap_source) :=
  [tap_worker example_td End_closed; tap_worker second_td End_reset].

Lemma two_stats_ready td :
  td = example_td \/ td = second_td -> stats_ready td two_stats.
Proof.
  assert (E : ps_connections two_stats =
    [mkConnectionRecord (lit "10.0.0.1:11211") 0 2 0
       (with_ptrs [(3, mkBucketRecord 3 0 0 0 0); (5, mkBucketRecord 5 0 0 0 0)]);
     mkConnectionRecord (lit "10.0.0.3:11211") 0 1 0 (with_ptrs [(7, mkBucketRecord 7 0 0 0 0)])])
    by (vm_compute; reflexivity).
  assert (Hok : ps_ok two_stats).
  { unfold ps_ok. rewrite E. repeat constructor; eexists; (split; [reflexivity|]); repeat constructor. }
  intros [-> | ->]; (split; [done|]); intros vb Hvb; unfold bucket_counts; rewrite E.
  - apply elem_of_cons in Hvb as [->|Hvb]; [by eexists|]. apply list_elem_of_singleton in Hvb as ->. by eexists.
  - apply list_elem_of_singleton in Hvb as ->. by eexists.
Qed.

Lemma tap_worker_starts td fin :
  td = example_td \/ td = second_td ->
  starts (H0 := ref_memcached nobody 0) two_shared (mkJob td example_mutates [] fin) (tap_worker td fin).
Proof.
  intros Htd. split; [done|]. split; [done|]. split; [done|]. split; [by apply two_stats_ready|].
  split; [exact no_partial_packet|]. split; [done|]. split; [done|]. split; [done|].
  exists example_packets. split; [exact example_records|]. rewrite app_nil_r. split; [|vm_compute; reflexivity].
  exists [example_stream_bytes]. split; [repeat constructor; vm_compute; discriminate|].
  split; [done|]. change (mjoin [?x]) with (x ++ []). by rewrite app_nil_r.
Qed.

Lemma two_jobs_disjoint : disjoint_jobs two_jobs.
Proof.
  intros vb. unfold two_jobs. rewrite !filter_cons, filter_nil. unfold taps_vbucket.
  case_decide as H1; case_decide as H2; cbn; try lia. exfalso.
  apply list_elem_of_singleton in H2 as ->. cbn in H1. set_solver.
Qed.

Lemma taps_interleave_witness :
  exists sh' ws',
    nsteps (round_step length_hash) 1 (two_shared, two_workers) (sh', ws') /\
    forall w, ws' !! 1%nat = Some w -> finished w \/ exists st nx, run_part length_hash sh' w = Some (Val (st, nx)).
Proof.
  destruct (taps_interleave (H1 := ref_memcached_laws nobody 0) length_hash two_jobs two_jobs 0
    two_shared two_workers nobody_quiet two_jobs_disjoint (reflexivity two_jobs)) as [_ Hall].
  - constructor; [|constructor; [|constructor]]; apply tap_worker_starts; auto.
  - apply (example_local_ok nobody (total_cost two_workers + 0) []); [vm_compute; reflexivity|constructor].
  - destruct (Hall 0%nat two_shared two_workers (nsteps_O _ _)) as [Hp _].
    destruct (Hp 0%nat (tap_worker example_td End_closed) eq_refl) as [Hf|(st & nx & Hr & Hs)];
      [discriminate Hf|].
    eexists _, _. split; [apply nsteps_once; exact Hs|]. intros w Hw.
    destruct (Hall 1%nat _ _ (nsteps_once _ _ Hs)) as [Hp1 _].
    destruct (Hp1 1%nat w Hw) as [Hf|(st' & nx' & Hr' & _)]; [left; exact Hf|right; eauto].
Defined.
