(* ===== verification/Resync.v ===== *)
(** * A resync, end to end

    Puts the work list (Worklist.v) and the tap threads (TapThread.v) together,
    as Astaire::process_worklist does: creating a tap is perform_single_tap
    (src/astaire.cpp), joining one runs tap_buckets_thread to its end against
    the local memcached and the shared statistics.  The taps of a round stream
    disjoint vbuckets (Worklist.v); here they run in the order they are joined,
    with other clients of the local memcached acting between any two requests;
    TapInterleave.v has the other orders.  Streams may end anywhere, and a request
    may fail to be sent; the code takes a closed stream for a complete one. *)

From Stdlib Require Import ZArith Lia Strings.Byte.
From stdpp Require Import prelude.
From S2P Require Import Prelude WireUtils StdMap Messages WireSpec Connection Worklist.
From S2P Require Import LocalStore Statistics TapThread TapSync.

Open Scope Z_scope.

(** One connection of a tap thread to come: the system calls behind its two
    connections, the server tapped, and what pthread_join returns for it. *)
Record tap_session (T : Type) : Type := mkSession {
  ss_local_env : net_env;
  ss_tap_env : net_env;
  ss_source : T;
  ss_join_rc : Z
}.
Arguments mkSession {T}.
Arguments ss_local_env {T}.
Arguments ss_tap_env {T}.
Arguments ss_source {T}.
Arguments ss_join_rc {T}.

(** What the threads of a resync share. *)
Record tap_world (L T : Type) : Type := mkTapWorld {
  tw_local : L;
  tw_global : AstaireGlobalStatistics;
  tw_conns : AstairePerConnectionStatistics;
  tw_threads : list TapBucketsThreadData;        (* created, latest first *)
  tw_creates : list Z;                           (* results of pthread_create to come *)
  tw_sessions : list (bytes * tap_session T)     (* sessions to come, with their server *)
}.
Arguments mkTapWorld {L T}.
Arguments tw_local {L T}.
Arguments tw_global {L T}.
Arguments tw_conns {L T}.
Arguments tw_threads {L T}.
Arguments tw_creates {L T}.
Arguments tw_sessions {L T}.

(** The next session with a server. *)
Fixpoint take_session {T} (srv : bytes) (l : list (bytes * tap_session T)) :
    option (tap_session T * list (bytes * tap_session T)) :=
  match l with
  | [] => None
  | (s, ss) :: l =>
      if decide (s = srv) then Some (ss, l)
      else '(found, rest) ← take_session srv l; Some (found, (s, ss) :: rest)
  end.

(** The thread data handed to the thread that taps [srv] for [buckets]. *)
Definition thread_data (srv : bytes) (buckets : list Z) (threads : list TapBucketsThreadData) :
    option TapBucketsThreadData :=
  head (filter (fun td => td_tap_server td = srv /\ td_buckets td = buckets) threads).

Section resync.
Context {L T : Type} `{Peer L} `{Peer T}.
Context (hash : bytes -> Z) (split_host_port : bytes -> option (bytes * Z)) (self : bytes).

(** Register the connection's statistics and build the thread data;
    [create_rc] is what pthread_create returns. *)
Definition perform_single_tap (server : bytes) (buckets : list Z) (create_rc : Z)
    (p : AstairePerConnectionStatistics) :
    res (AstairePerConnectionStatistics * option TapBucketsThreadData) :=
  '(conn_stat, p) ← add_connection split_host_port server buckets p;
  let thread_data := mkTapData server self buckets conn_stat in
  if negb (create_rc =? 0) then mret (p, None) else mret (p, Some thread_data).

(** perform_single_tap on the shared state; out of threads (EAGAIN) when no
    more results are given. *)
Definition tap_create (w : res (tap_world L T)) (srv : bytes) (buckets : list Z) :
    res (tap_world L T) * bool :=
  match w with
  | Fail f => (Fail f, false)
  | Val x =>
      match perform_single_tap srv buckets (default 11 (head (tw_creates x))) (tw_conns x) with
      | Fail f => (Fail f, false)
      | Val (p, td) =>
          (Val (mkTapWorld (tw_local x) (tw_global x) p (option_list td ++ tw_threads x)
                  (tail (tw_creates x)) (tw_sessions x)),
           match td with Some _ => true | None => false end)
      end
  end.

(** Run the thread to its end and join it.  A server with no more sessions
    refuses the connection. *)
Definition tap_join (w : res (tap_world L T)) (srv : bytes) (buckets : list Z) :
    res (tap_world L T) * join_result :=
  match w with
  | Fail f => (Fail f, Join_failed)
  | Val x =>
      match thread_data srv buckets (tw_threads x), take_session srv (tw_sessions x) with
      | Some td, Some (ss, sessions) =>
          match tap_buckets_thread hash (ss_local_env ss) (ss_tap_env ss) td
                  (ClientConnection_new (td_local_server td) (tw_local x) [])
                  (ClientConnection_new (td_tap_server td) (ss_source ss) [])
                  (tw_global x) (tw_conns x) with
          | Fail f => (Fail f, Join_failed)
          | Val st =>
              (Val (mkTapWorld (c_peer (tt_local st)) (tt_global st) (tt_conns st) (tw_threads x)
                      (tw_creates x) sessions),
               if ss_join_rc ss =? 0 then Joined (tt_success st) else Join_failed)
          end
      | Some _, None => (Val x, Joined false)
      | None, _ => (Val x, Join_failed)
      end
  end.

(** process_worklist with its threads. *)
Definition run_worklist (x : tap_world L T) (owl : OutstandingWorkList) :
    res (tap_world L T * list Z * list (list tap_event)) :=
  '(w, unstreamed, log) ← process_worklist tap_create tap_join (Val x) owl;
  x ← w;
  mret (x, unstreamed, log).
End resync.

(** ** Lemmas on the parts *)

Lemma connect_peer {S} env (c : Connection S) : c_peer (connect env c).1 = c_peer c.
Proof.
  unfold connect. destruct (split_host_port env (c_address c)) as [[host port]|]; [|done].
  destruct (_ <? 0); [done|]. destruct (os_socket env) as [fd err1].
  destruct (fd <? 0); [done|]. destruct (os_connect env) as [rc2 err2].
  destruct (rc2 <? 0); [done|]. destruct (os_setsockopt env) as [rc3 err3].
  by destruct (rc3 <? 0).
Qed.

(** Whether a connect succeeds does not depend on the peer. *)
Lemma connect_rc {S S'} env (c : Connection S) (c' : Connection S') :
  c_address c = c_address c' -> (connect env c).2 = (connect env c').2.
Proof.
  intros E. unfold connect. rewrite E.
  destruct (split_host_port env (c_address c')) as [[host port]|]; [|done].
  destruct (_ <? 0); [done|]. destruct (os_socket env) as [fd err1].
  destruct (fd <? 0); [done|]. destruct (os_connect env) as [rc2 err2].
  destruct (rc2 <? 0); [done|]. destruct (os_setsockopt env) as [rc3 err3].
  by destruct (rc3 <? 0).
Qed.

Lemma take_session_spec {T} srv (l : list (bytes * tap_session T)) ss rest :
  take_session srv l = Some (ss, rest) -> l ≡ₚ (srv, ss) :: rest.
Proof.
  revert rest. induction l as [|[s ss0] l IH]; intros rest; cbn; [done|].
  case_decide as Hs; [by intros [= <- <-]; subst|].
  destruct (take_session srv l) as [[ss1 rest1]|]; cbn; [|done].
  intros [= <- <-]. rewrite (IH rest1 eq_refl). apply Permutation_swap.
Qed.

Lemma take_session_none {T} srv (l : list (bytes * tap_session T)) :
  take_session srv l = None -> forall ss, (srv, ss) ∉ l.
Proof.
  induction l as [|[s ss0] l IH]; cbn; [intros _ ss Hin; by apply elem_of_nil in Hin|].
  case_decide as Hs; [done|]. destruct (take_session srv l) as [[? ?]|]; [done|].
  intros _ ss Hin. apply elem_of_cons in Hin as [[= -> ->]|Hin]; [done|]. by apply (IH eq_refl ss).
Qed.

Lemma thread_data_spec srv bs threads td :
  td ∈ threads -> td_tap_server td = srv -> td_buckets td = bs ->
  exists td', thread_data srv bs threads = Some td' /\ td' ∈ threads /\
    td_tap_server td' = srv /\ td_buckets td' = bs.
Proof.
  intros Hin Hs Hb. unfold thread_data.
  destruct (filter _ threads) as [|td' l] eqn:E.
  - exfalso. apply (not_elem_of_nil td). rewrite <- E. by apply list_elem_of_filter.
  - exists td'. split; [done|].
    assert (td' ∈ filter (fun td => td_tap_server td = srv /\ td_buckets td = bs) threads) as Hf
      by (rewrite E; apply list_elem_of_here).
    apply list_elem_of_filter in Hf as [[? ?] ?]. done.
Qed.

(** A thread that cannot connect changes nothing. *)
Lemma tap_thread_refused {L T} `{Peer L} `{Peer T} hash lenv tenv td (lc : Connection L)
    (tc : Connection T) g p :
  (connect lenv lc).2 <> 0 \/ (connect tenv tc).2 <> 0 ->
  exists st, tap_buckets_thread hash lenv tenv td lc tc g p = Val st /\ tt_success st = false /\
    c_peer (tt_local st) = c_peer lc /\ tt_global st = g /\ tt_conns st = p.
Proof.
  intros Hrc. unfold tap_buckets_thread. pose proof (connect_peer lenv lc) as Hp.
  destruct (connect lenv lc) as [lc' rc1]. cbn in Hrc, Hp.
  destruct (Z.eqb_spec rc1 0) as [->|]; cbn [negb]; [|by eexists].
  destruct (connect tenv tc) as [tc' rc2]. cbn in Hrc.
  destruct (Z.eqb_spec rc2 0) as [->|]; cbn [negb]; [by destruct Hrc|].
  eexists. split; [done|]. cbn. unfold disconnect. by destruct (0 <? _).
Qed.

Section stream.
Context {L : Type} `{LML : LocalMemcachedLaws L}.
Context (hash : bytes -> Z) (td : TapBucketsThreadData).

Lemma stream_effect_ok n ms : forall (l l' : L),
  lm_ok (2 * length ms + n) l -> stream_effect hash td n ms l l' -> lm_ok n l'.
Proof using.
  induction ms as [|m ms IH]; intros l l' Hok; cbn [stream_effect]; [by intros ->|].
  intros (l1 & Hok1 & _ & Heff). by apply (IH l1).
Qed.

(** Nobody but Astaire's control thread touches the tag. *)
Definition spares_tag : Prop := forall n (l : L), lm_ok (S n) l ->
  lm_store (lm_foreign l) ASTAIRE_TAG_KEY = lm_store l ASTAIRE_TAG_KEY.

Lemma accepted_not_tag m : accepted hash td m = true -> mutate_key m <> ASTAIRE_TAG_KEY.
Proof using.
  unfold accepted. intros Ha E. apply andb_true_iff in Ha as [_ Ha]. rewrite E in Ha.
  rewrite bool_decide_eq_true_2 in Ha; [done|]. by eexists.
Qed.

Lemma stream_effect_tag n ms : forall (l l' : L),
  spares_tag -> lm_ok (2 * length ms + n) l -> stream_effect hash td n ms l l' ->
  lm_store l' ASTAIRE_TAG_KEY = lm_store l ASTAIRE_TAG_KEY.
Proof using.
  induction ms as [|m ms IH]; intros l l' Hsp Hok; cbn [stream_effect]; [by intros ->|].
  intros (l1 & Hok1 & H1 & Heff). rewrite (IH l1 l' Hsp Hok1 Heff).
  destruct (accepted hash td m) eqn:Ha; [|by subst]. apply accepted_not_tag in Ha.
  destruct H1 as (l2 & Hok2 & Hs2 & H1).
  assert (lm_store l2 ASTAIRE_TAG_KEY = lm_store l ASTAIRE_TAG_KEY) as E2.
  { rewrite Hs2. apply (Hsp (S (2 * length ms + n))). 
    by replace (S (S (2 * length ms + n)))%nat with (2 * length (m :: ms) + n)%nat by (cbn; lia). }
  destruct (older _ _); [|by subst]. destruct H1 as [c H1]. rewrite H1, <- E2.
  rewrite <- (Hsp _ l2 Hok2). case_decide; [|done]. unfold update. by rewrite decide_False.
Qed.
End stream.

(** ** The invariant of a resync *)

Section resync_facts.
Context {L T : Type} `{LML : LocalMemcachedLaws L} `{PT : Peer T}.
Context (hash : bytes -> Z) (shp : bytes -> option (bytes * Z)) (self : bytes).
(** The records each server holds, none stamped later than [now]. *)
Context (data : bytes -> list TapMutateReq) (now : Z).

Implicit Types (x : tap_world L T) (w : res (tap_world L T)).

(** What becomes of a TAP_CONNECT for [bs] to this server: it cannot be sent
    ([None]); or packets carrying the records [ms] arrive, cut into any chunks,
    perhaps with the beginning of one more, and then the stream ends in [fin]. *)
Definition delivers (src : T) (bs : list Z) (ms : list TapMutateReq) (fin : option stream_end) : Prop :=
  exists req, to_wire (TapConnectReq_new bs) = Val req /\
    match fin with
    | None => ms = [] /\ on_send src req = None
    | Some fin => exists t' chunks ps tail,
        on_send src req = Some (t', map R_data chunks ++ end_results fin) /\
        Forall (fun bs => bs <> []) chunks /\ mjoin chunks = mjoin (encode_packet <$> ps) ++ tail /\
        Forall2 (tap_packet lm_epoch) ps ms /\ partial_packet tail /\
        len (mjoin (encode_packet <$> ps) ++ tail) < 2 ^ 32
    end.

(** The ends that the code takes for a completed tap: the server closed the
    stream, whatever it had still to send, or the request was never sent. *)
Definition taken_as_done (fin : option stream_end) : bool :=
  match fin with Some fin => complete fin | None => true end.

(** A server that streams records it holds, any of them, and may stop anywhere. *)
Definition streams (s : bytes) (src : T) : Prop :=
  forall bs, bs <> [] -> exists ms fin, delivers src bs ms fin /\
    (length ms <= length (data s))%nat /\ forall m, m ∈ ms -> m ∈ data s.

(** These records, as far as they are in these vbuckets and not Astaire's own,
    are held, as new as they are. *)
Definition held (bs : list Z) (ms : list TapMutateReq) (store : bytes -> option record) : Prop :=
  forall m, m ∈ ms -> vbucket_for_key hash (mutate_key m) ∈ bs ->
    ~ ASTAIRE_KEY_PREFIX `prefix_of` mutate_key m ->
    holds_since store (mutate_key m) (mutate_flags m).

(** Every record of [s] in these vbuckets is held, as new as [s] has it. *)
Definition collected (s : bytes) (bs : list Z) (store : bytes -> option record) : Prop :=
  held bs (data s) store.

(** A session with [s] was tapped for [bs]: what it delivered is held, and its
    stream ended in a way that the code takes for completion, or did not. *)
Definition tapped (sessions : list (bytes * tap_session T)) (store : bytes -> option record)
    (s : bytes) (bs : list Z) (done : bool) : Prop :=
  exists ss ms fin, (s, ss) ∈ sessions /\ delivers (ss_source ss) bs ms fin /\
    taken_as_done fin = done /\ held bs ms store.

(** A server that is sent every TAP_CONNECT, and closes no stream before it has
    sent all its records of the vbuckets asked for. *)
Definition sends_all (sessions : list (bytes * tap_session T)) (s : bytes) : Prop :=
  forall ss bs ms fin, (s, ss) ∈ sessions -> delivers (ss_source ss) bs ms fin ->
    taken_as_done fin = true ->
    forall m, m ∈ data s -> vbucket_for_key hash (mutate_key m) ∈ bs -> m ∈ ms.

(** [vb] was streamed from [s]: what arrived of it is held; and that is all
    there was if the server sends all. *)
Definition streamed_from (sessions : list (bytes * tap_session T)) (store : bytes -> option record)
    (vb : Z) (s : bytes) : Prop :=
  exists bs, vb ∈ bs /\ tapped sessions store s bs true /\
    (sends_all sessions s -> collected s [vb] store).

(** Both connections of the session can be made. *)
Definition connects (e : bytes * tap_session T) : Prop :=
  (connect (ss_local_env e.2) (ClientConnection_new self tt [])).2 = 0 /\
  (connect (ss_tap_env e.2) (ClientConnection_new e.1 tt [])).2 = 0.

(** A session either cannot be connected or is such a stream. *)
Definition session_ok (e : bytes * tap_session T) : Prop :=
  let '(s, ss) := e in
  env_ok (ss_local_env ss) /\ env_ok (ss_tap_env ss) /\
  (connects e -> streams s (ss_source ss)).

(** The requests to the local memcached the sessions can make. *)
Definition budget (l : list (bytes * tap_session T)) : nat :=
  sum_list_with (fun e => 2 * length (data e.1))%nat l.

Definition thread_ok (p : AstairePerConnectionStatistics) (td : TapBucketsThreadData) : Prop :=
  stats_ready td p /\ td_local_server td = self /\ td_buckets td <> [].

Record world_ok (n : nat) x : Prop := mkWorldOk {
  wo_local : lm_ok (budget (tw_sessions x) + n) (tw_local x);
  wo_keys : in_u64 (gs_get Resynced_keys_count (tw_global x));
  wo_conns : ps_ok (tw_conns x);
  wo_threads : Forall (thread_ok (tw_conns x)) (tw_threads x);
  wo_sessions : Forall session_ok (tw_sessions x)
}.

(** How the world moves: the local memcached loses nothing and ages nothing,
    the tag stays as it is, statistics and threads stay. *)
Record world_le x x' : Prop := mkWorldLe {
  wl_store : no_older (lm_store (tw_local x)) (lm_store (tw_local x'));
  wl_tag : lm_store (tw_local x') ASTAIRE_TAG_KEY = lm_store (tw_local x) ASTAIRE_TAG_KEY;
  wl_stats : stats_grow (tw_conns x) (tw_conns x');
  wl_threads : exists pre, tw_threads x' = pre ++ tw_threads x;
  wl_creates : forall rc, rc ∈ tw_creates x' -> rc ∈ tw_creates x;
  wl_sessions : forall e, e ∈ tw_sessions x' -> e ∈ tw_sessions x
}.

(** What a tap in a resync from [x] to [x'] came to: what it delivered is held,
    and its stream ended as the result says; or there is another reason for its
    failure (a thread that could not be created or joined, a session that could
    not be connected, or no more of either). *)
Definition accounted x x' (e : tap_event) : Prop :=
  let tap := tapped (tw_sessions x) (lm_store (tw_local x')) (te_server e) (te_buckets e) in
  match te_result e with
  | Tap_succeeded => tap true
  | Not_started => tw_creates x' = [] \/ exists rc, rc ∈ tw_creates x /\ rc <> 0
  | Join_lost => exists ss, (te_server e, ss) ∈ tw_sessions x /\ ss_join_rc ss <> 0
  | Tap_failed => (forall ss, (te_server e, ss) ∉ tw_sessions x') \/
      (exists ss, (te_server e, ss) ∈ tw_sessions x /\ ~ connects (te_server e, ss)) \/ tap false
  end.

(** The resync starts in [x0]. *)
Context (x0 : tap_world L T).
Definition res_ok (n : nat) w : Prop := exists x, w = Val x /\ world_ok n x /\ world_le x0 x.
Definition res_le w w' : Prop := forall x, w = Val x -> exists x', w' = Val x' /\ world_le x x'.
Definition res_accounted (e : tap_event) w : Prop := exists x, w = Val x /\ accounted x0 x e.

Definition started (s : bytes) (bs : list Z) w : Prop := exists x td, w = Val x /\
  td ∈ tw_threads x /\ td_tap_server td = s /\ td_buckets td = bs.

Lemma tapped_mono sessions store store' s bs done :
  no_older store store' -> tapped sessions store s bs done -> tapped sessions store' s bs done.
Proof using.
  intros Hno (ss & ms & fin & Hin & Hd & Hf & Hh). exists ss, ms, fin. split_and!; try done.
  intros m Hm Hv Hp. eapply holds_since_mono; [done|]. by apply Hh.
Qed.

Lemma tapped_streamed sessions store s bs vb :
  vb ∈ bs -> tapped sessions store s bs true -> streamed_from sessions store vb s.
Proof using.
  intros Hvb Ht. exists bs. split; [done|]. split; [done|]. intros Hall m Hm Hv Hp.
  destruct Ht as (ss & ms & fin & Hin & Hd & Hf & Hh). apply list_elem_of_singleton in Hv.
  assert (vbucket_for_key hash (mutate_key m) ∈ bs) as Hv' by (by rewrite Hv).
  apply Hh; [|done|done]. by apply (Hall ss bs ms fin).
Qed.

Lemma streamed_from_mono sessions store store' vb s :
  no_older store store' -> streamed_from sessions store vb s -> streamed_from sessions store' vb s.
Proof using.
  intros Hno (bs & Hvb & Ht & _). eapply tapped_streamed; [done|]. by eapply tapped_mono.
Qed.

Lemma no_older_refl s : no_older s s.
Proof using. intros k r Hk. exists r. split; [done|lia]. Qed.

Lemma world_le_same x x' :
  tw_local x' = tw_local x -> stats_grow (tw_conns x) (tw_conns x') ->
  (exists pre, tw_threads x' = pre ++ tw_threads x) ->
  (forall rc, rc ∈ tw_creates x' -> rc ∈ tw_creates x) ->
  (forall e, e ∈ tw_sessions x' -> e ∈ tw_sessions x) -> world_le x x'.
Proof using. intros El Hs Ht Hc Hss. split; rewrite ?El; auto using no_older_refl. Qed.

#[local] Instance world_le_preorder : PreOrder world_le.
Proof using.
  split.
  - intros x. apply world_le_same; auto; [done|by exists []].
  - intros x1 x2 x3 [Hs2 Ht2 Hg2 [pre2 Hp2] Hc2 He2] [Hs3 Ht3 Hg3 [pre3 Hp3] Hc3 He3].
    split; [by eapply no_older_trans|congruence|by etrans| |auto|auto].
    exists (pre3 ++ pre2). by rewrite Hp3, Hp2, app_assoc.
Qed.

#[local] Instance res_le_preorder : PreOrder res_le.
Proof using.
  split.
  - intros w x ->. by exists x.
  - intros w1 w2 w3 H1 H2 x E. destruct (H1 x E) as (x2 & E2 & Hle2).
    destruct (H2 x2 E2) as (x3 & E3 & Hle3). exists x3. split; [done|]. by etrans.
Qed.

Lemma started_mono s bs w w' : res_le w w' -> started s bs w -> started s bs w'.
Proof using.
  intros HR (x & td & E & Hin & Hs & Hb). destruct (HR x E) as (x' & E' & Hle).
  destruct (wl_threads _ _ Hle) as [pre Hp].
  exists x', td. split; [done|]. rewrite Hp, elem_of_app. auto.
Qed.

Lemma res_accounted_mono e w w' : res_le w w' -> res_accounted e w -> res_accounted e w'.
Proof using.
  intros HR (x & E & Ha). destruct (HR x E) as (x' & E' & [Hs _ _ _ Hc He]).
  exists x'. split; [done|]. unfold accounted in *. destruct (te_result e); [|done| |].
  - destruct Ha as [Hn|?]; [left|by right]. destruct (tw_creates x') as [|rc l] eqn:El; [done|].
    exfalso. apply (not_elem_of_nil rc). rewrite <- Hn. apply Hc, list_elem_of_here.
  - destruct Ha as [Hn|[?|Ht]]; [left|by right; left|right; right].
    + intros ss Hin. by apply (Hn ss), He.
    + by eapply tapped_mono.
  - by eapply tapped_mono.
Qed.

Lemma tap_create_ok n w s bs :
  res_ok n w -> bs <> [] ->
  let '(w', rc) := tap_create shp self w s bs in
  res_ok n w' /\ res_le w w' /\
  if rc then started s bs w' else res_accounted (mkTapEvent s bs Not_started) w'.
Proof using.
  intros (x & -> & [Hl Hk Hp Ht Hss] & H0x) Hbs. unfold tap_create, perform_single_tap.
  destruct (add_connection_grow shp s bs (tw_conns x) Hp) as (conn & p' & -> & Hg & Hnew).
  rewrite bind_Val. set (td := mkTapData s self bs conn). set (rc := default 11 _).
  assert (Htd : thread_ok p' td) by (split; [split; [by apply Hg|done]|done]).
  assert (Hold : Forall (thread_ok p') (tw_threads x)).
  { eapply Forall_impl; [exact Ht|]. intros td' (Hr & ? & ?). split; [|done].
    by eapply stats_ready_grow. }
  assert (Hle : forall ths pre, ths = pre ++ tw_threads x ->
    world_le x (mkTapWorld (tw_local x) (tw_global x) p' ths (tail (tw_creates x)) (tw_sessions x))).
  { intros ths pre ->. apply world_le_same; cbn; [done|done|by exists pre| |done].
    intros rc' Hin. destruct (tw_creates x); [done|]. by apply list_elem_of_further. }
  destruct (Z.eqb_spec rc 0) as [Hrc|Hrc]; cbn [negb mret res_ret option_list app].
  - assert (Hle1 := Hle (td :: tw_threads x) [td] eq_refl). split; [|split].
    + eexists. split; [done|]. split; [|by etrans]. split; cbn; try done; [by apply Hg|by constructor].
    + intros ? [= <-]. by eexists.
    + eexists _, td. split; [done|]. split; [apply list_elem_of_here|done].
  - assert (Hle1 := Hle (tw_threads x) [] eq_refl). split; [|split].
    + eexists. split; [done|]. split; [|by etrans]. split; cbn; try done. by apply Hg.
    + intros ? [= <-]. by eexists.
    + eexists. split; [done|]. cbn. unfold rc in Hrc. destruct (tw_creates x) as [|r l] eqn:El; [by left|].
      right. exists r. split; [|done]. apply (wl_creates _ _ H0x). rewrite El. apply list_elem_of_here.
Qed.

(** Other clients only write fresh records, and no server has a later one. *)
Context (Hfresh : foreign_fresh (L := L) now) (Hspare : spares_tag (L := L)).
Context (Hnow : forall s m, m ∈ data s -> i32 (mutate_flags m) <= now).

Lemma budget_take l s ss rest :
  l ≡ₚ (s, ss) :: rest -> budget l = (2 * length (data s) + budget rest)%nat.
Proof using. intros Hp. unfold budget. by rewrite Hp. Qed.

(** In terms of the thread's own connections. *)
Lemma connects_rc s ss td (l : L) :
  td_tap_server td = s -> td_local_server td = self ->
  connects (s, ss) <->
  (connect (ss_local_env ss) (ClientConnection_new (td_local_server td) l [])).2 = 0 /\
  (connect (ss_tap_env ss) (ClientConnection_new (td_tap_server td) (ss_source ss) [])).2 = 0.
Proof using.
  unfold connects. intros <- <-. cbn [fst snd].
  rewrite (connect_rc (ss_local_env ss) (ClientConnection_new (td_local_server td) tt [])
    (ClientConnection_new (td_local_server td) l [])) by done.
  by rewrite (connect_rc (ss_tap_env ss) (ClientConnection_new (td_tap_server td) tt [])
    (ClientConnection_new (td_tap_server td) (ss_source ss) [])) by done.
Qed.

(** A session that connects and is sent the request is a scenario of TapSync. *)
Lemma session_scenario n x s ss rest td ms fin :
  world_ok n x -> tw_sessions x ≡ₚ (s, ss) :: rest -> td ∈ tw_threads x -> td_tap_server td = s ->
  let lc := ClientConnection_new (td_local_server td) (tw_local x) [] in
  let tc := ClientConnection_new (td_tap_server td) (ss_source ss) [] in
  connects (s, ss) -> delivers (ss_source ss) (td_buckets td) ms (Some fin) ->
  (length ms <= length (data s))%nat ->
  exists ps tail,
    tap_scenario td (ss_local_env ss) (ss_tap_env ss) lc tc (tw_global x) (tw_conns x)
      (2 * (length (data s) - length ms) + (budget rest + n)) ps ms tail fin.
Proof using.
  intros [Hl Hk Hp Ht Hss] Hperm Htd Hs lc tc Hcon
    (req & Hw & t' & chunks & ps & tail & Hon & Hch & Hj & Hrec & Hpt & Hsz) Hlen.
  destruct (proj1 (Forall_forall _ _) Ht td Htd) as (Hready & Hself & Hne).
  assert (session_ok (s, ss)) as (He1 & He2 & _).
  { apply (proj1 (Forall_forall _ _) Hss). rewrite Hperm. apply list_elem_of_here. }
  exists ps, tail. split; try done.
  - by apply (connects_rc s ss td (tw_local x) Hs Hself).
  - cbn. replace (2 * length ms + _)%nat with (budget (tw_sessions x) + n)%nat; [done|].
    rewrite (budget_take _ _ _ _ Hperm). lia.
  - eauto 10.
Qed.

Lemma lm_ok_less k n (l : L) : lm_ok (k + n) l -> lm_ok n l.
Proof using LML. induction k as [|k IH]; [done|]. intros Hok. by apply IH, lm_ok_weaken. Qed.

(** What one thread that could connect does: the records delivered are merged in,
    and the thread succeeds exactly when the stream is taken as done. *)
Lemma tap_run_delivered n x s ss rest td ms fin :
  world_ok n x -> tw_sessions x ≡ₚ (s, ss) :: rest -> td ∈ tw_threads x -> td_tap_server td = s ->
  connects (s, ss) -> delivers (ss_source ss) (td_buckets td) ms fin ->
  (length ms <= length (data s))%nat -> (forall m, m ∈ ms -> m ∈ data s) ->
  exists st, tap_buckets_thread hash (ss_local_env ss) (ss_tap_env ss) td
      (ClientConnection_new (td_local_server td) (tw_local x) [])
      (ClientConnection_new (td_tap_server td) (ss_source ss) []) (tw_global x) (tw_conns x) = Val st /\
    tt_success st = taken_as_done fin /\ stats_grow (tw_conns x) (tt_conns st) /\
    in_u64 (gs_get Resynced_keys_count (tt_global st)) /\
    lm_ok (budget rest + n) (c_peer (tt_local st)) /\
    no_older (lm_store (tw_local x)) (lm_store (c_peer (tt_local st))) /\
    lm_store (c_peer (tt_local st)) ASTAIRE_TAG_KEY = lm_store (tw_local x) ASTAIRE_TAG_KEY /\
    held (td_buckets td) ms (lm_store (c_peer (tt_local st))).
Proof using All.
  intros Hx Hperm Htd Hs Hcon Hd Hlen Hin. destruct fin as [fin|].
  - destruct (session_scenario n x s ss rest td ms fin Hx Hperm Htd Hs Hcon Hd Hlen) as (ps & tail & Hsc).
    destruct (tap_thread_run hash td _ _ _ _ _ _ _ _ _ _ _ Hsc) as (st & E & Hsu & Hg & Hkeys & Heff).
    pose proof (sc_local _ _ _ _ _ _ _ _ _ _ _ _ Hsc) as Hok.
    assert (Hms : Forall (fun m => i32 (mutate_flags m) <= now) ms) by (apply Forall_forall; eauto).
    destruct (stream_effect_fresh hash td now _ ms _ _ Hfresh Hok Hms Heff) as [Hno Hh].
    exists st. split; [exact E|]. split_and!; try done.
    + rewrite Hkeys. apply u64_range.
    + eapply lm_ok_less, stream_effect_ok; [exact Hok|exact Heff].
    + exact (stream_effect_tag hash td _ ms _ _ Hspare Hok Heff).
    + intros m Hm Hv Hp. apply (proj1 (Forall_forall _ _) Hh); [done|].
      unfold accepted. by rewrite bool_decide_eq_true_2, bool_decide_eq_false_2.
  - destruct Hd as (req & Hw & -> & Hon). pose proof Hx as [Hl Hk Hp Ht Hss].
    destruct (proj1 (Forall_forall _ _) Ht td Htd) as (Hready & Hself & Hne).
    assert (session_ok (s, ss)) as (He1 & He2 & _).
    { apply (proj1 (Forall_forall _ _) Hss). rewrite Hperm. apply list_elem_of_here. }
    apply (connects_rc s ss td (tw_local x) Hs Hself) in Hcon as [Hc1 Hc2].
    destruct (tap_thread_unsent hash td (ss_local_env ss) (ss_tap_env ss) _ _ (tw_global x) (tw_conns x)
      He1 He2 Hc1 Hc2 Hready Hne) as (st & E & Hsu & Hg & Hkeys & Hpe); [by exists req|].
    exists st. split; [exact E|]. rewrite Hpe. cbn [ClientConnection_new c_peer]. split_and!; try done.
    + by rewrite Hkeys.
    + rewrite (budget_take _ _ _ _ Hperm), <- Nat.add_assoc in Hl. by apply lm_ok_less in Hl.
    + apply no_older_refl.
    + intros m Hm. by apply elem_of_nil in Hm.
Qed.

(** What running one thread does to the world. *)
Lemma tap_run_ok n x s ss rest td :
  world_ok n x -> tw_sessions x ≡ₚ (s, ss) :: rest -> td ∈ tw_threads x -> td_tap_server td = s ->
  exists st, tap_buckets_thread hash (ss_local_env ss) (ss_tap_env ss) td
      (ClientConnection_new (td_local_server td) (tw_local x) [])
      (ClientConnection_new (td_tap_server td) (ss_source ss) []) (tw_global x) (tw_conns x) = Val st /\
    let x' := mkTapWorld (c_peer (tt_local st)) (tt_global st) (tt_conns st) (tw_threads x)
                (tw_creates x) rest in
    world_ok n x' /\ world_le x x' /\
    (tt_success st = false /\ ~ connects (s, ss) \/
     exists ms fin, delivers (ss_source ss) (td_buckets td) ms fin /\
       taken_as_done fin = tt_success st /\ held (td_buckets td) ms (lm_store (tw_local x'))).
Proof using All.
  intros Hx Hperm Htd Hs. pose proof Hx as [Hl Hk Hp Ht Hss].
  set (lc := ClientConnection_new (td_local_server td) (tw_local x) []).
  set (tc := ClientConnection_new (td_tap_server td) (ss_source ss) []).
  rewrite Hperm in Hss. apply Forall_cons in Hss as [(_ & _ & Hstream) Hss].
  assert (Hkeep : forall p', stats_grow (tw_conns x) p' -> Forall (thread_ok p') (tw_threads x)).
  { intros p' Hg. eapply Forall_impl; [exact Ht|]. intros td' (Hr & ? & ?). split; [|done].
    by eapply stats_ready_grow. }
  assert (Hss' : forall e, e ∈ rest -> e ∈ tw_sessions x).
  { intros e He. rewrite Hperm. by apply list_elem_of_further. }
  destruct (proj1 (Forall_forall _ _) Ht td Htd) as (_ & Hself & Hne).
  pose proof (connects_rc s ss td (tw_local x) Hs Hself) as Hcon.
  destruct (decide ((connect (ss_local_env ss) lc).2 = 0 /\ (connect (ss_tap_env ss) tc).2 = 0))
    as [Hc|Hno].
  - apply Hcon in Hc. destruct (Hstream Hc (td_buckets td) Hne) as (ms & fin & Hd & Hlen & Hin).
    destruct (tap_run_delivered n x s ss rest td ms fin Hx Hperm Htd Hs Hc Hd Hlen Hin)
      as (st & E & Hsu & Hg & Hkeys & Hok & Hno & Htag & Hh).
    exists st. split; [exact E|]. cbn zeta. split; [|split].
    + split; cbn; [done|done|by apply Hg|by apply Hkeep|done].
    + split; cbn; [done|done|done|by exists []|done|done].
    + right. by exists ms, fin.
  - destruct (tap_thread_refused hash (ss_local_env ss) (ss_tap_env ss) td lc tc (tw_global x) (tw_conns x))
      as (st & E & Hf & Hpe & Hg & Hc); [by apply not_and_l|].
    exists st. split; [exact E|]. cbn zeta. rewrite Hpe, Hg, Hc, Hf. split; [|split; [|left; tauto]].
    + split; cbn; try done. rewrite (budget_take _ _ _ _ Hperm), <- Nat.add_assoc in Hl.
      by apply lm_ok_less in Hl.
    + apply world_le_same; cbn; try done. by exists [].
Qed.

Lemma tap_join_ok n w s bs :
  res_ok n w -> started s bs w ->
  let '(w', j) := tap_join hash w s bs in
  res_ok n w' /\ res_le w w' /\ res_accounted (mkTapEvent s bs (join_tap_result j)) w'.
Proof using All.
  intros (x & -> & Hx & H0x) (x1 & td0 & [= <-] & Hin & Hs & Hb). unfold tap_join.
  destruct (thread_data_spec s bs _ td0 Hin Hs Hb) as (td & -> & Htd & Hs' & Hb').
  destruct (take_session s (tw_sessions x)) as [[ss rest]|] eqn:E.
  - apply take_session_spec in E.
    destruct (tap_run_ok n x s ss rest td Hx E Htd Hs') as (st & -> & Hok & Hle & Hc).
    assert (Hss : (s, ss) ∈ tw_sessions x0).
    { apply (wl_sessions _ _ H0x). rewrite E. apply list_elem_of_here. }
    split; [eexists; split; [done|]; split; [done|by etrans]|]. split; [intros ? [= <-]; by eexists|].
    eexists. split; [done|]. unfold accounted. destruct (Z.eqb_spec (ss_join_rc ss) 0); [|by exists ss].
    cbn [te_result join_tap_result te_server te_buckets tw_local]. rewrite Hb' in Hc.
    destruct Hc as [[-> Hno]|(ms & fin & Hd & Hf & Hh)]; [right; left; by exists ss|].
    assert (tapped (tw_sessions x0) (lm_store (c_peer (tt_local st))) s bs (tt_success st)) as Ht
      by (by exists ss, ms, fin).
    destruct (tt_success st); [done|]. by right; right.
  - split; [by exists x|]. split; [reflexivity|]. exists x. split; [done|]. left.
    by apply take_session_none.
Qed.

(** The whole resync. *)
Lemma run_worklist_ok n owl :
  world_ok n x0 -> owl_ok owl ->
  exists x' un log, run_worklist hash shp self x0 owl = Val (x', un, log) /\
    world_ok n x' /\ world_le x0 x' /\ log_ok owl log /\
    unstreamed_shrinks (map_keys owl) un (mjoin log) /\ Forall (accounted x0 x') (mjoin log).
Proof using All.
  intros Hx Hok. unfold run_worklist, process_worklist.
  destruct (process_loop_spec (tap_create shp self) (tap_join hash) (owl_depth owl) (Val x0) owl
    (map_keys owl) Hok (le_n _)) as (w' & owl' & un & log & E & _ & Hu & Hlog).
  destruct (process_loop_inv (tap_create shp self) (tap_join hash) (res_ok n) res_le started res_accounted
    (tap_create_ok n) (tap_join_ok n) started_mono res_accounted_mono
    (owl_depth owl) (Val x0) owl (map_keys owl) w' owl' un log)
    as ((x' & -> & Hx' & Hle) & _ & Hl); [by exists x0|done|done|].
  rewrite E, !bind_Val. cbn [mret res_ret mbind res_bind]. do 3 eexists. split; [done|].
  split; [done|]. split; [done|]. split; [done|]. split; [done|].
  eapply Forall_impl; [exact Hl|]. by intros e (x2 & [= <-] & Ha).
Qed.
End resync_facts.

Lemma tapped_event vb s evs :
  s ∈ tapped_from vb evs <-> exists e, e ∈ evs /\ te_server e = s /\ vb ∈ te_buckets e.
Proof.
  unfold tapped_from. rewrite list_elem_of_In, in_map_iff. setoid_rewrite <- list_elem_of_In.
  setoid_rewrite list_elem_of_filter. naive_solver.
Qed.

#[export] Instance streamed_by_dec vb e : Decision (streamed_by vb e).
Proof. unfold streamed_by. apply _. Defined.

(** The replica of a vbucket was streamed, or a tap that concerns it failed. *)
Definition replica_fate {L T} `{LocalMemcached L} `{Peer T} hash self data (x x' : tap_world L T)
    (log : list tap_event) (vb : Z) (s : bytes) : Prop :=
  streamed_from hash data (tw_sessions x) (lm_store (tw_local x')) vb s \/
  exists e, e ∈ log /\ te_result e <> Tap_succeeded /\ accounted hash self x x' e /\
    (te_server e = s \/ blacklisted e = Some s).

Lemma run_worklist_collects {L T : Type} `{LocalMemcachedLaws L} `{Peer T}
    hash split_host_port self data now n (x : tap_world L T) owl
    (Hfresh : foreign_fresh (L := L) now) (Hspare : spares_tag (L := L))
    (Hnow : forall s m, m ∈ data s -> i32 (mutate_flags m) <= now)
    (Hx : world_ok self data n x) (Hok : owl_ok owl) :
  exists x' unstreamed log,
    run_worklist hash split_host_port self x owl = Val (x', unstreamed, log) /\
    world_ok self data n x' /\ world_le x x' /\
    (forall vb l s, (vb, l) ∈ owl -> s ∈ l -> replica_fate hash self data x x' (mjoin log) vb s) /\
    (forall vb l, (vb, l) ∈ owl -> vb ∉ unstreamed ->
       exists s, s ∈ l /\ streamed_from hash data (tw_sessions x) (lm_store (tw_local x')) vb s).
Proof.
  destruct (run_worklist_ok hash split_host_port self data now x Hfresh Hspare Hnow n owl Hx Hok)
    as (x' & un & log & E & Hx' & Hle & Hlog & Hun & Hc).
  exists x', un, log. split; [done|]. split; [done|]. split; [done|].
  assert (Hacc : forall e, e ∈ mjoin log -> accounted hash self x x' e)
    by (by apply Forall_forall).
  assert (Hone : forall e vb, e ∈ mjoin log -> streamed_by vb e ->
    streamed_from hash data (tw_sessions x) (lm_store (tw_local x')) vb (te_server e)).
  { intros e vb He [Hs Hvb]. specialize (Hacc e He). unfold accounted in Hacc. rewrite Hs in Hacc.
    by eapply tapped_streamed. }
  split.
  - intros vb l s Hin Hs. destruct (lo_cover _ _ Hlog vb l s Hin Hs) as [Ht|(e & He & Hb)].
    + apply tapped_event in Ht as (e & He & <- & Hvb).
      destruct (decide (te_result e = Tap_succeeded)) as [Hr|Hr]; [left; by apply Hone|].
      right. exists e. auto.
    + right. exists e. split; [done|]. split; [|auto]. intros Hr. unfold blacklisted in Hb.
      by rewrite Hr in Hb.
  - intros vb l Hin Hvb. destruct (decide (Exists (streamed_by vb) (mjoin log))) as [He|He].
    + apply Exists_exists in He as (e & He & Hs). exists (te_server e). split; [|by apply Hone].
      eapply elem_of_sublist; [|apply (lo_order _ _ Hlog vb l Hin)].
      apply tapped_event. exists e. destruct Hs. done.
    + exfalso. apply Hvb, Hun. split.
      * by apply (list_elem_of_fmap_2 fst _ (vb, l)).
      * intros (e & ? & ?). apply He, Exists_exists. eauto.
Qed.

(** ** Properties *)

(** C1: a resync brings into the local memcached what the replicas stream.
    Whatever connections fail, wherever streams end, and whatever other clients
    write meanwhile (stamped later), the resync runs to its end; no record the
    local memcached had is lost or becomes older; each replica in the work list
    of a vbucket was streamed, and every record that arrived from it is held at
    least as new, unless a tap of that replica failed, which happens only when
    its thread cannot be created or joined, its connections cannot be made, or
    its stream is reset or falls silent; and a vbucket that is not reported as
    unstreamed was streamed from one of its replicas.  The code takes a stream
    that the server closes, or a request that it could not send, for a completed
    tap: so streaming means having all the replica's records of the vbucket
    exactly when the replica sends them all before it closes ([sends_all]). *)
Theorem resync_collects_replicas {L T : Type} `{LocalMemcachedLaws L} `{Peer T}
    (hash : bytes -> Z) (split_host_port : bytes -> option (bytes * Z)) (self : bytes)
    (data : bytes -> list TapMutateReq) (now : Z) (n : nat) (x : tap_world L T)
    (owl : OutstandingWorkList)
    (Hfresh : foreign_fresh (L := L) now) (Hspare : spares_tag (L := L))
    (Hnow : forall s m, m ∈ data s -> i32 (mutate_flags m) <= now)
    (Hx : world_ok self data n x) (Hok : owl_ok owl) :
  exists x' unstreamed log,
    run_worklist hash split_host_port self x owl = Val (x', unstreamed, log) /\
    no_older (lm_store (tw_local x)) (lm_store (tw_local x')) /\
    (forall vb l s, (vb, l) ∈ owl -> s ∈ l -> replica_fate hash self data x x' (mjoin log) vb s) /\
    (forall vb l, (vb, l) ∈ owl -> vb ∉ unstreamed ->
       exists s, s ∈ l /\ streamed_from hash data (tw_sessions x) (lm_store (tw_local x')) vb s).
Proof.
  destruct (run_worklist_collects hash split_host_port self data now n x owl Hfresh Hspare Hnow Hx Hok)
    as (x' & un & log & E & _ & [Hno _ _ _ _ _] & Hcover & Hun).
  exists x', un, log. done.
Qed.

(** The tap threads advance the bucket count by what they stream. *)
Definition progress {L T} (w : res (tap_world L T)) (k : nat) (w' : res (tap_world L T)) : Prop :=
  forall x', w' = Val x' -> exists x, w = Val x /\
    gs_get Total_buckets (tw_global x') = gs_get Total_buckets (tw_global x) /\
    (in_u64 (gs_get Resynced_bucket_count (tw_global x)) ->
     in_u64 (gs_get Resynced_bucket_count (tw_global x')) /\
     gs_get Resynced_bucket_count (tw_global x') =
       u64 (gs_get Resynced_bucket_count (tw_global x) + Z.of_nat k)).

Lemma progress_refl {L T} (w : res (tap_world L T)) : progress w 0 w.
Proof.
  intros x ->. exists x. split; [done|]. split; [done|]. intros Hu. split; [done|].
  by rewrite Z.add_0_r, u64_small.
Qed.

Lemma progress_trans {L T} (w1 w2 w3 : res (tap_world L T)) k k' :
  progress w1 k w2 -> progress w2 k' w3 -> progress w1 (k + k') w3.
Proof.
  intros H1 H2 x3 E3. destruct (H2 x3 E3) as (x2 & E2 & Ht2 & Hc2).
  destruct (H1 x2 E2) as (x1 & E1 & Ht1 & Hc1). exists x1. split; [done|]. split; [congruence|].
  intros Hu. destruct (Hc1 Hu) as [Hu2 E]. destruct (Hc2 Hu2) as [Hu3 ->]. split; [apply u64_range|].
  rewrite E. unfold u64. rewrite Zplus_mod_idemp_l. f_equal. lia.
Qed.

Lemma tap_create_progress {L T} shp self (w : res (tap_world L T)) s bs :
  progress w 0 (tap_create shp self w s bs).1.
Proof.
  destruct w as [x|f]; [|done]. cbn [tap_create].
  destruct (perform_single_tap _ _ _ _ _ _) as [[p td]|f]; [|done]. intros x' [= <-].
  exists x. split_and!; try done. intros Hu. split; [done|]. by rewrite Z.add_0_r, u64_small.
Qed.

Lemma tap_join_progress {L T} `{Peer L} `{Peer T} hash (w : res (tap_world L T)) s bs :
  Z.of_nat (length bs) < 2 ^ 31 ->
  exists k, progress w k (tap_join hash w s bs).1 /\ (k <= length bs)%nat /\
    ((tap_join hash w s bs).2 = Joined true -> k = length bs).
Proof.
  intros Hs. destruct w as [x|f]; [|exists O; split; [by intros ? [=]|]; split; [lia|done]]. cbn [tap_join].
  assert (Hnone : exists k, progress (Val x) k (Val x) /\ (k <= length bs)%nat /\
    (forall j, j <> Joined true -> j = Joined true -> k = length bs))
    by (exists O; split; [apply progress_refl|]; split; [lia|done]).
  destruct (thread_data s bs (tw_threads x)) as [td|] eqn:Etd;
    [|destruct Hnone as (k & ? & ? & Hj); exists k; split_and!; auto; by apply Hj].
  assert (Hb : td_buckets td = bs).
  { unfold thread_data in Etd. destruct (filter _ _) as [|td' l] eqn:Ef; [done|]. injection Etd as ->.
    assert (td ∈ filter (fun td => td_tap_server td = s /\ td_buckets td = bs) (tw_threads x)) as Hin
      by (rewrite Ef; apply list_elem_of_here). by apply list_elem_of_filter in Hin as [[_ ?] _]. }
  destruct (take_session s (tw_sessions x)) as [[ss sessions]|];
    [|destruct Hnone as (k & ? & ? & Hj); exists k; split_and!; auto; by apply Hj].
  destruct (tap_buckets_thread _ _ _ _ _ _ _ _) as [st|f] eqn:E; [|exists O; split; [by intros ? [=]|]; split; [lia|done]].
  apply tap_thread_counts in E as [Ht Hc]. rewrite Hb in Hc. cbn [fst snd].
  exists (if tt_success st then length bs else O).
  split; [|destruct (tt_success st); split; try lia; by destruct (ss_join_rc ss =? 0)].
  intros x' [= <-]. exists x. cbn [tw_global]. split_and!; try done. intros Hu. rewrite Hc.
  destruct (tt_success st); [|by rewrite Z.add_0_r, u64_small].
  unfold fetch_add. split; [apply u64_range|]. by rewrite u32_small by (unfold in_u32; lia).
Qed.

(** C32: the progress a resync reports stays within the total it announced:
    whatever the threads, servers and joins do, the resynced bucket count, from
    zero, ends at no more than owl_total_buckets (each vbucket once per replica)
    and at no less than the vbuckets of the taps joined as successful; the total
    itself is not changed by the resync. *)
Theorem owl_total_bounds_progress {L T : Type} `{Peer L} `{Peer T} (hash : bytes -> Z)
    (split_host_port : bytes -> option (bytes * Z)) (self : bytes) (x x' : tap_world L T)
    (owl : OutstandingWorkList) (unstreamed : list Z) (log : list (list tap_event))
    (Hint : Z.of_nat (owl_entries owl) < 2 ^ 31)
    (Hzero : gs_get Resynced_bucket_count (tw_global x) = 0)
    (Hrun : run_worklist hash split_host_port self x owl = Val (x', unstreamed, log)) :
  owl_total_buckets owl = Z.of_nat (owl_entries owl) /\
  Z.of_nat (streamed_entries (mjoin log)) <= gs_get Resynced_bucket_count (tw_global x')
    <= owl_total_buckets owl /\
  gs_get Total_buckets (tw_global x') = gs_get Total_buckets (tw_global x).
Proof.
  unfold owl_total_buckets. rewrite owl_total_fold by lia. split; [done|].
  unfold run_worklist, process_worklist in Hrun.
  apply bind_Val_inv in Hrun as ([[w un1] log1] & Hp & Hrun).
  apply bind_Val_inv in Hp as ([[[w1 owl1] un2] log2] & E & [= <- <- <-]).
  apply bind_Val_inv in Hrun as (x2 & -> & [= <- <- <-]).
  destruct (process_loop_count (tap_create split_host_port self) (tap_join hash) progress progress_refl
    progress_trans (tap_create_progress split_host_port self) (tap_join_progress hash) _ _ _ _ _ _ _ _ Hint E)
    as (k & Hk & Hb).
  destruct (Hk x2 eq_refl) as (? & [= <-] & Ht & Hc). split; [|done].
  rewrite Hzero in Hc. destruct Hc as [_ ->]; [unfold in_u64; lia|].
  rewrite Z.add_0_l, u64_small by (unfold in_u64; lia). lia.
Qed.

(** perform_single_tap hands the tap thread statistics it can use: a record
    for every one of its vbuckets, at its own place, with the statistics of the
    connections before it unchanged; also when the thread cannot be created. *)
Theorem perform_single_tap_ready (split_host_port : bytes -> option (bytes * Z))
    (server self : bytes) (buckets : list Z) (create_rc : Z) (p : AstairePerConnectionStatistics)
    (Hp : ps_ok p) :
  exists p' td, perform_single_tap split_host_port self server buckets create_rc p =
      Val (p', if create_rc =? 0 then Some td else None) /\
    td_tap_server td = server /\ td_local_server td = self /\ td_buckets td = buckets /\
    stats_ready td p' /\
    forall conn vb, (conn < length (ps_connections p))%nat ->
      bucket_counts p' conn vb = bucket_counts p conn vb.
Proof.
  destruct (add_connection_ok split_host_port server buckets p Hp)
    as (conn & p' & E & Hp' & Hb & Hold).
  exists p', (mkTapData server self buckets conn). unfold perform_single_tap. rewrite E, bind_Val.
  split; [by destruct (create_rc =? 0)|]. repeat (split; [done|]). split.
  - split; [done|]. intros vb Hvb. rewrite Hb by done. by eexists.
  - intros c vb Hc. by apply Hold.
Qed.

(** ** Witnesses *)

Lemma perform_single_tap_ready_witness :
  exists p' td, perform_single_tap no_split srv_c srv_a [0; 7] 0 example_ps = Val (p', Some td) /\
    stats_ready td p'.
Proof.
  destruct (perform_single_tap_ready no_split srv_a srv_c [0; 7] 0 example_ps ltac:(constructor))
    as (p' & td & E & _ & _ & _ & Hr & _).
  exists p', td. split; [exact E | exact Hr].
Defined.

Lemma quiet_fresh {L} `{LocalMemcached L} now : foreign_quiet (L := L) -> foreign_fresh (L := L) now.
Proof. intros Hq n l k Hok. left. by apply (Hq n). Qed.

Lemma nobody_spares_tag : spares_tag (H0 := ref_memcached nobody 0).
Proof. intros n l Hok. by apply (nobody_quiet n). Qed.

(** One peer, holding the records of TapSync's example, and one session with it. *)
Definition example_data (s : bytes) : list TapMutateReq :=
  if decide (s = srv_a) then example_mutates else [].
Definition example_session : tap_session tap_source :=
  mkSession example_env example_env example_source 0.
Definition example_world : tap_world ref_server tap_source :=
  mkTapWorld example_local example_gs example_ps [] [0] [(srv_a, example_session)].
Definition one_peer_owl : OutstandingWorkList := [(3, [srv_a]); (5, [srv_a])].

Lemma example_delivers bs :
  delivers (H0 := ref_memcached nobody 0) example_source bs example_mutates (Some End_closed).
Proof.
  eexists. split; [reflexivity|].
  exists example_source, [take 31 example_stream_bytes; drop 31 example_stream_bytes], example_packets, [].
  split; [reflexivity|]. split; [repeat constructor; vm_compute; discriminate|].
  split; [vm_compute; reflexivity|]. split; [exact example_records|].
  split; [exact no_partial_packet|]. vm_compute. reflexivity.
Qed.

Lemma example_streams : streams (H0 := ref_memcached nobody 0) example_data srv_a example_source.
Proof.
  intros bs _. exists example_mutates, (Some End_closed). split; [apply example_delivers|].
  unfold example_data. rewrite decide_True by reflexivity. auto.
Qed.

Lemma example_world_ok : world_ok (H0 := ref_memcached nobody 0) srv_c example_data 0 example_world.
Proof.
  split.
  - exact (example_local_ok nobody 8 [] eq_refl (Forall_nil_2 _)).
  - vm_compute. split; (discriminate || reflexivity).
  - constructor.
  - constructor.
  - constructor; [|constructor]. split; [exact example_env_ok|]. split; [exact example_env_ok|].
    intros _. exact example_streams.
Qed.

Lemma example_data_old s m : m ∈ example_data s -> i32 (mutate_flags m) <= last_stamp.
Proof.
  unfold example_data. case_decide; intros Hm; [|by apply elem_of_nil in Hm].
  pose proof (i32_range (mutate_flags m)). unfold last_stamp, in_i32 in *. lia.
Qed.

Lemma resync_collects_replicas_witness :
  exists x' unstreamed log,
    run_worklist length_hash no_split srv_c example_world one_peer_owl = Val (x', unstreamed, log) /\
    streamed_from (H0 := ref_memcached nobody 0) length_hash example_data [(srv_a, example_session)]
      (rs_store (tw_local x')) 3 srv_a.
Proof.
  assert (Hok : owl_ok one_peer_owl) by decide_owl_ok.
  destruct (resync_collects_replicas (H1 := ref_memcached_laws nobody 0) length_hash no_split srv_c
    example_data last_stamp 0 example_world one_peer_owl (quiet_fresh last_stamp nobody_quiet)
    nobody_spares_tag example_data_old example_world_ok Hok) as (x' & un & log & E & _ & _ & Hs).
  exists x', un, log. split; [exact E|].
  destruct (Hs 3 [srv_a]) as (s & Hin & Hc); [apply list_elem_of_here| |].
  - vm_compute in E. injection E as _ <- _. intros Hin. by apply elem_of_nil in Hin.
  - apply list_elem_of_singleton in Hin. subst s. exact Hc.
Defined.

(** A server that closes its stream at once: both vbuckets are reported as
    streamed, with none of its records. *)
Definition closing_world : tap_world ref_server tap_source :=
  mkTapWorld example_local example_gs example_ps [] [0]
    [(srv_a, mkSession example_env example_env (mkTapSource [R_data []]) 0)].

Lemma early_close_counts_as_success :
  exists x' log, run_worklist length_hash no_split srv_c closing_world one_peer_owl = Val (x', [], log) /\
    gs_get Resynced_bucket_count (tw_global x') = 2 /\
    gs_get Resynced_keys_count (tw_global x') = 0.
Proof. do 2 eexists. split; [vm_compute; reflexivity|]. split; vm_compute; reflexivity. Qed.

Lemma owl_total_bounds_progress_witness :
  exists x' unstreamed log,
    run_worklist length_hash no_split srv_c example_world one_peer_owl = Val (x', unstreamed, log) /\
    gs_get Resynced_bucket_count (tw_global x') = 2 /\
    gs_get Resynced_bucket_count (tw_global x') <= owl_total_buckets one_peer_owl.
Proof.
  destruct (run_worklist length_hash no_split srv_c example_world one_peer_owl) as [[[x' un] log]|f] eqn:E;
    [|vm_compute in E; discriminate].
  exists x', un, log. split; [reflexivity|].
  pose proof (owl_total_bounds_progress length_hash no_split srv_c example_world x' one_peer_owl un log
    ltac:(vm_compute; reflexivity) ltac:(vm_compute; reflexivity) E) as (_ & Hb & _).
  split; [|exact (proj2 Hb)]. vm_compute in E. injection E as <- _ _. vm_compute. reflexivity.
Defined.
