(* ===== verification/Backend.v ===== *)
(** * The memcached backend

    Models class MemcachedBackend (include/memcached_backend.hpp and
    src/memcached_backend.cpp): the replica lists of the current view, the
    vbucket communication state with its alarm, and the read, write and delete
    operations over the replicas of a key.  libmemcached (with the connection
    pool) is a class of operations on an environment state [W] per replica
    address; MemcachedStoreView, split_host_port, parse_ip_target and the MD5
    hash are parameters.  Every attempt on a replica is logged; the theorems tie
    the log to the calls themselves, and say that there are no others. *)

From Stdlib Require Import ZArith Lia Strings.Byte.
From stdpp Require Import prelude.
From S2P Require Import Prelude WireUtils TapThread TapSync.

Open Scope Z_scope.

(** ** libmemcached *)

(** The return codes the code names; any other is [MEMCACHED_other]. *)
Inductive memcached_return_t : Type :=
| MEMCACHED_SUCCESS
| MEMCACHED_ERROR
| MEMCACHED_CONNECTION_FAILURE
| MEMCACHED_NOTFOUND
| MEMCACHED_NOTSTORED
| MEMCACHED_DATA_EXISTS
| MEMCACHED_other (code : Z).

#[export] Instance memcached_return_eq_dec : EqDecision memcached_return_t.
Proof. solve_decision. Defined.

(** memcached_add_vb, memcached_set_vb, memcached_replace_vb, memcached_cas_vb *)
Inductive store_kind : Type := K_add | K_set | K_replace | K_cas (cas : Z).

Record store_args : Type := mkStoreArgs {
  sa_key : bytes;
  sa_vbucket : Z;
  sa_data : bytes;
  sa_expiry : Z;
  sa_flags : Z
}.

Class Libmemcached (W Addr : Type) := {
  memcached_success : memcached_return_t -> bool;
  memcached_mget : W -> Addr -> bytes -> W * memcached_return_t;
  memcached_fetch_result : W -> Addr -> W * (memcached_return_t * bytes * Z);
  memcached_store : store_kind -> W -> Addr -> store_args -> W * memcached_return_t;
  memcached_set_noreply : W -> Addr -> store_args -> W;
  memcached_delete : W -> Addr -> bytes -> W * memcached_return_t
}.

Class LibmemcachedLaws (W Addr : Type) `{Libmemcached W Addr} : Prop := {
  success_yes : memcached_success MEMCACHED_SUCCESS = true;
  success_no rc : rc ∈ [MEMCACHED_ERROR; MEMCACHED_CONNECTION_FAILURE; MEMCACHED_NOTFOUND;
                        MEMCACHED_NOTSTORED; MEMCACHED_DATA_EXISTS] ->
    memcached_success rc = false
}.

(** ** State *)

Inductive CommState : Type := Comm_OK | Comm_FAILED.
#[export] Instance CommState_eq_dec : EqDecision CommState.
Proof. solve_decision. Defined.

Inductive replica_op : Type := Op_READ | Op_WRITE.

Record MemcachedBackend : Type := mkBackend {
  mb_servers : list bytes;
  mb_read_replicas : list (list bytes);
  mb_write_replicas : list (list bytes);
  mb_vbucket_comm_state : list CommState;
  mb_vbucket_comm_fail_count : Z;          (* unsigned int *)
  mb_next_vbucket_alarm_update : Z;        (* unsigned long *)
  mb_has_alarm : bool;                     (* _vbucket_alarm is not NULL *)
  mb_has_monitor : bool;                   (* _comm_monitor is not NULL *)
  mb_clock : list Z;                       (* current_time_ms readings to come *)
  mb_alarm_log : list bool;                (* true: set, false: clear *)
  mb_monitor_log : list bool               (* true: inform_success *)
}.

Definition vbuckets : Z := 128.
Definition update_period_ms : Z := 30 * 1000.

(** The constructor: empty replica lists, every vbucket OK. *)
Definition MemcachedBackend_new (has_alarm has_monitor : bool) (clock : list Z) :
    MemcachedBackend :=
  mkBackend [] (replicate (Z.to_nat vbuckets) []) (replicate (Z.to_nat vbuckets) [])
    (replicate (Z.to_nat vbuckets) Comm_OK) 0 0 has_alarm has_monitor clock [] [].

(** What new_view takes from a MemcachedStoreView. *)
Record store_view : Type := mkStoreView {
  sv_servers : list bytes;
  sv_read_replicas : Z -> list bytes;
  sv_write_replicas : Z -> list bytes
}.

Definition new_view (view : store_view) (b : MemcachedBackend) : MemcachedBackend :=
  let idx := map Z.of_nat (seq 0 (Z.to_nat vbuckets)) in
  mkBackend (sv_servers view) (map (sv_read_replicas view) idx) (map (sv_write_replicas view) idx)
    (mb_vbucket_comm_state b) (mb_vbucket_comm_fail_count b) (mb_next_vbucket_alarm_update b)
    (mb_has_alarm b) (mb_has_monitor b) (mb_clock b) (mb_alarm_log b) (mb_monitor_log b).

(** update_config: a config that cannot be read keeps the old settings. *)
Definition update_config (config : option store_view) (b : MemcachedBackend) : MemcachedBackend :=
  match config with Some view => new_view view b | None => b end.

(** ** Communication state *)

Definition mb_with_comm (st : list CommState) (count next : Z) (clock : list Z) (log : list bool)
    (b : MemcachedBackend) : MemcachedBackend :=
  mkBackend (mb_servers b) (mb_read_replicas b) (mb_write_replicas b) st count next
    (mb_has_alarm b) (mb_has_monitor b) clock log (mb_monitor_log b).

Definition current_time_ms (clock : list Z) : Z * list Z :=
  (default 0 (head clock), tail clock).

Definition update_vbucket_comm_state (vbucket : Z) (state : CommState) (b : MemcachedBackend) :
    res MemcachedBackend :=
  if mb_has_alarm b then
    old ← use (mb_vbucket_comm_state b !! Z.to_nat vbucket);
    let '(states, count) :=
      if decide (old = state) then (mb_vbucket_comm_state b, mb_vbucket_comm_fail_count b)
      else
        (<[Z.to_nat vbucket := state]> (mb_vbucket_comm_state b),
         match state with
         | Comm_OK => if 0 <? mb_vbucket_comm_fail_count b
                      then mb_vbucket_comm_fail_count b - 1 else mb_vbucket_comm_fail_count b
         | Comm_FAILED => u32 (mb_vbucket_comm_fail_count b + 1)
         end) in
    let '(now, clock) := current_time_ms (mb_clock b) in
    if mb_next_vbucket_alarm_update b <? now then
      let '(now, clock) := current_time_ms clock in
      mret (mb_with_comm states count (u64 (now + update_period_ms)) clock
              (mb_alarm_log b ++ [negb (count =? 0)]) b)
    else mret (mb_with_comm states count (mb_next_vbucket_alarm_update b) clock (mb_alarm_log b) b)
  else mret b.

Definition inform (success : bool) (b : MemcachedBackend) : MemcachedBackend :=
  if mb_has_monitor b then
    mkBackend (mb_servers b) (mb_read_replicas b) (mb_write_replicas b) (mb_vbucket_comm_state b)
      (mb_vbucket_comm_fail_count b) (mb_next_vbucket_alarm_update b) (mb_has_alarm b)
      (mb_has_monitor b) (mb_clock b) (mb_alarm_log b) (mb_monitor_log b ++ [success])
  else b.

Definition libmemcached_result_to_memcache_status (rc : memcached_return_t) : ResultCode :=
  match rc with
  | MEMCACHED_NOTFOUND => ResultCode.KEY_NOT_FOUND
  | MEMCACHED_DATA_EXISTS => ResultCode.KEY_EXISTS
  | MEMCACHED_NOTSTORED => ResultCode.ITEM_NOT_STORED
  | _ => ResultCode.TEMPORARY_FAILURE
  end.

(** NOT_FOUND, NOT_STORED or EXISTS. *)
Definition contention (rc : memcached_return_t) : bool :=
  bool_decide (rc = MEMCACHED_NOTFOUND \/ rc = MEMCACHED_NOTSTORED \/ rc = MEMCACHED_DATA_EXISTS).

(** The attempts a read or write makes: a sole replica is tried twice. *)
Definition attempts_for {A} (addrs : list A) : nat :=
  if Nat.eqb (length addrs) 1 then 2%nat else length addrs.
Definition second_try {A} (addrs : list A) (ii : nat) : bool :=
  Nat.eqb (length addrs) 1 && Nat.eqb ii 1.

Section backend.
Context {W IP : Type}.
Context (memcached_generate_hash_value : bytes -> Z).
Context (split_host_port : bytes -> option (bytes * Z)).
Context (parse_ip_target : bytes -> option IP).
Abbreviation AddrInfo := (IP * Z)%type.
Context `{Libmemcached W AddrInfo}.

Definition backend_vbucket_for_key (key : bytes) : Z :=
  Z.land (i32 (memcached_generate_hash_value key)) (vbuckets - 1).

Definition parse_replica (s : bytes) : option AddrInfo :=
  '(host, port) ← split_host_port s;
  ip ← parse_ip_target host;
  Some (ip, port).

Definition get_replica_addresses (vbucket : Z) (op : replica_op) (b : MemcachedBackend) :
    res (list AddrInfo) :=
  let replicas := match op with
                  | Op_READ => mb_read_replicas b
                  | Op_WRITE => mb_write_replicas b
                  end in
  replica_list ← use (replicas !! Z.to_nat vbucket);
  mret (omap (M := list) parse_replica replica_list).

(** ** read_data *)

(** [data] and [cas] are the caller's: [data] is assigned only on success. *)
Definition get_from_replica (w : W) (a : AddrInfo) (key : bytes) (data : bytes) :
    W * (memcached_return_t * bytes * Z) :=
  let cas := 0 in
  let '(w, rc) := memcached_mget w a key in
  if memcached_success rc then
    let '(w, (rc, value, result_cas)) := memcached_fetch_result w a in
    if memcached_success rc then (w, (rc, value, result_cas)) else (w, (rc, data, cas))
  else (w, (rc, data, cas)).

(** The variables of the loop, and the attempts made so far. *)
Record read_state : Type := mkReadState {
  rd_w : W;
  rd_rc : memcached_return_t;
  rd_data : bytes;
  rd_cas : Z;
  rd_active_not_found : bool;
  rd_failed_replicas : nat;
  rd_log : list (AddrInfo * memcached_return_t)
}.

Fixpoint read_loop (todo ii : nat) (addrs : list AddrInfo) (key : bytes) (s : read_state) :
    res read_state :=
  match todo with
  | O => mret s
  | S todo =>
      if second_try addrs ii && negb (bool_decide (rd_rc s = MEMCACHED_CONNECTION_FAILURE))
      then mret s
      else
        let replica_idx := if second_try addrs ii then O else ii in
        a ← use (addrs !! replica_idx);
        let '(w, (rc, data, cas)) := get_from_replica (rd_w s) a key (rd_data s) in
        let log := rd_log s ++ [(a, rc)] in
        if memcached_success rc then
          mret (mkReadState w rc data cas (rd_active_not_found s) (rd_failed_replicas s) log)
        else if bool_decide (rc = MEMCACHED_NOTFOUND) then
          read_loop todo (S ii) addrs key
            (mkReadState w rc data cas true (rd_failed_replicas s) log)
        else
          read_loop todo (S ii) addrs key
            (mkReadState w rc data cas (rd_active_not_found s) (S (rd_failed_replicas s)) log)
  end.

(** The result: the status, the caller's data and CAS, and the attempts made.
    With no replica at all the caller's CAS is never written ([None]). *)
Record read_result : Type := mkReadResult {
  rr_status : ResultCode;
  rr_data : bytes;
  rr_cas : option Z;
  rr_log : list (AddrInfo * memcached_return_t)
}.

Definition read_data (key : bytes) (w : W) (b : MemcachedBackend) :
    res (W * MemcachedBackend * read_result) :=
  let vbucket := backend_vbucket_for_key key in
  replica_addresses ← get_replica_addresses vbucket Op_READ b;
  s ← read_loop (attempts_for replica_addresses) 0 replica_addresses key
        (mkReadState w MEMCACHED_ERROR [] 0 false 0 []);
  let cas := match replica_addresses with [] => None | _ => Some (rd_cas s) end in
  if memcached_success (rd_rc s) then
    let cas := if rd_active_not_found s then Some 0 else cas in
    b ← update_vbucket_comm_state vbucket Comm_OK b;
    mret (rd_w s, inform true b, mkReadResult ResultCode.NO_ERROR (rd_data s) cas (rd_log s))
  else if Nat.ltb (rd_failed_replicas s) (length replica_addresses) then
    b ← update_vbucket_comm_state vbucket Comm_OK b;
    mret (rd_w s, inform true b, mkReadResult ResultCode.KEY_NOT_FOUND (rd_data s) cas (rd_log s))
  else
    b ← update_vbucket_comm_state vbucket Comm_FAILED b;
    mret (rd_w s, inform false b,
          mkReadResult ResultCode.TEMPORARY_FAILURE (rd_data s) cas (rd_log s)).

(** ** write_data *)

Definition store_kind_for (operation : OpCode) (cas : Z) : store_kind :=
  match operation with
  | OpCode.ADD => K_add
  | OpCode.SET => K_set
  | _ => if cas =? 0 then K_replace else K_cas cas
  end.

Record write_state : Type := mkWriteState {
  wr_w : W;
  wr_rc : memcached_return_t;
  wr_replica_idx : nat;
  wr_status : ResultCode;
  wr_log : list (AddrInfo * memcached_return_t)
}.

Fixpoint write_loop (todo ii : nat) (addrs : list AddrInfo) (kind : store_kind)
    (args : store_args) (s : write_state) : res write_state :=
  match todo with
  | O => mret s
  | S todo =>
      if second_try addrs ii && negb (bool_decide (wr_rc s = MEMCACHED_CONNECTION_FAILURE))
      then mret s
      else
        let replica_idx := if second_try addrs ii then O else ii in
        a ← use (addrs !! replica_idx);
        let '(w, rc) := memcached_store kind (wr_w s) a args in
        let log := wr_log s ++ [(a, rc)] in
        if memcached_success rc then mret (mkWriteState w rc replica_idx (wr_status s) log)
        else if contention rc then
          mret (mkWriteState w rc replica_idx (libmemcached_result_to_memcache_status rc) log)
        else write_loop todo (S ii) addrs kind args
               (mkWriteState w rc replica_idx (wr_status s) log)
  end.

(** The unconditional writes to the replicas after the first one written. *)
Definition write_others (addrs : list AddrInfo) (args : store_args) (w : W) : W :=
  foldl (fun w a => memcached_set_noreply w a args) w addrs.

Record write_result : Type := mkWriteResult {
  wrr_status : ResultCode;
  wrr_log : list (AddrInfo * memcached_return_t);   (* conditional writes *)
  wrr_copies : list AddrInfo                        (* unconditional writes *)
}.

(** [ts] is what clock_gettime gives for CLOCK_REALTIME. *)
Definition write_flags (ts : Z * Z) : Z := u32 (ts.1 * 1000 + ts.2 / 1000000).

Definition write_data (operation : OpCode) (key data : bytes) (cas expiry : Z) (ts : Z * Z)
    (w : W) (b : MemcachedBackend) : res (W * MemcachedBackend * write_result) :=
  if bool_decide (operation <> OpCode.ADD /\ operation <> OpCode.SET /\
                  operation <> OpCode.REPLACE)
  then mret (w, b, mkWriteResult ResultCode.NOT_SUPPORTED [] [])
  else
    let vbucket := backend_vbucket_for_key key in
    replica_addresses ← get_replica_addresses vbucket Op_WRITE b;
    let args := mkStoreArgs key vbucket data expiry (write_flags ts) in
    s ← write_loop (attempts_for replica_addresses) 0 replica_addresses
          (store_kind_for operation cas) args
          (mkWriteState w MEMCACHED_ERROR 0 ResultCode.NO_ERROR []);
    let copies :=
      if memcached_success (wr_rc s) && Nat.ltb (wr_replica_idx s) (length replica_addresses)
      then drop (S (wr_replica_idx s)) replica_addresses else [] in
    let w := write_others copies args (wr_w s) in
    if negb (memcached_success (wr_rc s)) && negb (contention (wr_rc s)) then
      b ← update_vbucket_comm_state vbucket Comm_FAILED b;
      mret (w, inform false b, mkWriteResult ResultCode.TEMPORARY_FAILURE (wr_log s) copies)
    else
      b ← update_vbucket_comm_state vbucket Comm_OK b;
      mret (w, inform true b, mkWriteResult (wr_status s) (wr_log s) copies).

(** ** delete_data *)

Fixpoint delete_loop (addrs : list AddrInfo) (key : bytes) (w : W) (best_status : ResultCode) :
    W * ResultCode * list (AddrInfo * memcached_return_t) :=
  match addrs with
  | [] => (w, best_status, [])
  | a :: addrs =>
      let '(w, rc) := memcached_delete w a key in
      let best_status :=
        if memcached_success rc then ResultCode.NO_ERROR
        else if bool_decide (best_status <> ResultCode.NO_ERROR)
             then libmemcached_result_to_memcache_status rc
        else best_status in
      let '(w, status, log) := delete_loop addrs key w best_status in
      (w, status, (a, rc) :: log)
  end.

Definition delete_data (key : bytes) (w : W) (b : MemcachedBackend) :
    res (W * ResultCode * list (AddrInfo * memcached_return_t)) :=
  replica_addresses ← get_replica_addresses (backend_vbucket_for_key key) Op_READ b;
  mret (delete_loop replica_addresses key w ResultCode.TEMPORARY_FAILURE).
End backend.

(** ** Lemmas: trying replicas in turn *)

Section tried.
Context {A : Type}.
Implicit Types (addrs : list A) (log : list (A * memcached_return_t)).

Definition last_rc log : memcached_return_t := default MEMCACHED_ERROR (snd <$> last log).

(** The attempts [log] went through the replicas in order, each once (a sole
    replica again after a connection failure), up to the first that stops the
    search, or through all of them. *)
Definition tried (stop : memcached_return_t -> bool) addrs log : Prop :=
  (map fst log = take (length log) addrs \/
   exists a rc, addrs = [a] /\ log = [(a, MEMCACHED_CONNECTION_FAILURE); (a, rc)]) /\
  Forall (fun e => stop e.2 = false) (removelast log) /\
  (stop (last_rc log) = true \/
   Forall (fun e => stop e.2 = false) log /\ (length addrs <= length log)%nat).

Definition count_rc (f : memcached_return_t -> bool) log : nat :=
  length (filter (fun e => f e.2 = true) log).

Lemma last_rc_snoc log a rc : last_rc (log ++ [(a, rc)]) = rc.
Proof. unfold last_rc. by rewrite last_snoc. Qed.

Lemma count_rc_snoc f log a rc :
  count_rc f (log ++ [(a, rc)]) = (count_rc f log + if f rc then 1 else 0)%nat.
Proof.
  unfold count_rc. rewrite filter_app, length_app. f_equal. rewrite filter_cons. cbn.
  by destruct (f rc).
Qed.

Lemma count_rc_cons f log a rc :
  count_rc f ((a, rc) :: log) = ((if f rc then 1 else 0) + count_rc f log)%nat.
Proof. unfold count_rc. rewrite filter_cons. cbn. by destruct (f rc). Qed.

(** One more attempt on the next replica. *)
Lemma visit_next addrs log a ii :
  map fst log = take ii addrs -> length log = ii -> addrs !! ii = Some a ->
  forall rc, map fst (log ++ [(a, rc)]) = take (S ii) addrs /\ length (log ++ [(a, rc)]) = S ii.
Proof.
  intros Hm Hl Ha rc. rewrite map_app, Hm, length_app, Hl. cbn.
  split; [by erewrite take_S_r | lia].
Qed.

Lemma tried_stop stop addrs log a rc ii :
  map fst (log ++ [(a, rc)]) = take (S ii) addrs -> length (log ++ [(a, rc)]) = S ii ->
  Forall (fun e => stop e.2 = false) log -> stop rc = true ->
  tried stop addrs (log ++ [(a, rc)]).
Proof.
  intros Hm Hl Hf Hs. split; [left; by rewrite Hl|]. rewrite removelast_last.
  split; [done|]. left. by rewrite last_rc_snoc.
Qed.

Lemma tried_all stop addrs log :
  map fst log = take (length log) addrs -> length log = length addrs ->
  Forall (fun e => stop e.2 = false) log -> tried stop addrs log.
Proof.
  intros Hm Hl Hf. split; [by left|]. split; [|right; split; [done|lia]].
  apply Forall_forall. intros e He. apply (proj1 (Forall_forall _ _) Hf).
  destruct log as [|x log] using rev_ind; [done|]. rewrite removelast_last in He.
  apply elem_of_app. by left.
Qed.
End tried.

Lemma attempts_other {A} (addrs : list A) :
  length addrs <> 1%nat -> attempts_for addrs = length addrs /\ forall ii, second_try addrs ii = false.
Proof.
  intros Hn. unfold attempts_for, second_try. rewrite (proj2 (Nat.eqb_neq _ _) Hn). done.
Qed.

(** ** Specification: the calls made *)

(** What an operation asks of the replicas, call by call, with each answer: the
    world goes from [w] to where the calls take it, and nothing else changes it. *)
Section calls.
Context {W IP : Type} `{Libmemcached W (IP * Z)}.

(** One GET: its return code, and the value and CAS when the record came. *)
Inductive asked (key : bytes) (w : W) (a : IP * Z) :
    W -> memcached_return_t -> option (bytes * Z) -> Prop :=
| asked_refused w1 rc :
    memcached_mget w a key = (w1, rc) -> memcached_success rc = false -> asked key w a w1 rc None
| asked_missed w1 rc0 w2 rc value cas :
    memcached_mget w a key = (w1, rc0) -> memcached_success rc0 = true ->
    memcached_fetch_result w1 a = (w2, (rc, value, cas)) -> memcached_success rc = false ->
    asked key w a w2 rc None
| asked_found w1 rc0 w2 rc value cas :
    memcached_mget w a key = (w1, rc0) -> memcached_success rc0 = true ->
    memcached_fetch_result w1 a = (w2, (rc, value, cas)) -> memcached_success rc = true ->
    asked key w a w2 rc (Some (value, cas)).

(** GETs one after the other, and the answer to the last. *)
Inductive asks (key : bytes) (w : W) :
    list (IP * Z * memcached_return_t) -> W -> option (bytes * Z) -> Prop :=
| asks_none : asks key w [] w None
| asks_next log w1 ans1 a w2 rc ans2 :
    asks key w log w1 ans1 -> asked key w1 a w2 rc ans2 -> asks key w (log ++ [(a, rc)]) w2 ans2.

(** Stores of one kind one after the other. *)
Inductive stores (kind : store_kind) (args : store_args) (w : W) :
    list (IP * Z * memcached_return_t) -> W -> Prop :=
| stores_none : stores kind args w [] w
| stores_next log w1 a w2 rc :
    stores kind args w log w1 -> memcached_store kind w1 a args = (w2, rc) ->
    stores kind args w (log ++ [(a, rc)]) w2.

(** Unconditional stores without a reply, one after the other. *)
Inductive copied (args : store_args) (w : W) : list (IP * Z) -> W -> Prop :=
| copied_none : copied args w [] w
| copied_next as_ w1 a :
    copied args w as_ w1 -> copied args w (as_ ++ [a]) (memcached_set_noreply w1 a args).

(** DELETEs one after the other. *)
Inductive deletes (key : bytes) : W -> list (IP * Z * memcached_return_t) -> W -> Prop :=
| deletes_none w : deletes key w [] w
| deletes_next w a w1 rc log w2 :
    memcached_delete w a key = (w1, rc) -> deletes key w1 log w2 ->
    deletes key w ((a, rc) :: log) w2.

(** The kind of store that an operation needs: a SET stores whatever is there, an
    ADD only where there is nothing, a REPLACE only where there is something, and
    with a CAS value only over the record that has it. *)
Inductive conditional : OpCode -> Z -> store_kind -> Prop :=
| conditional_set cas : conditional OpCode.SET cas K_set
| conditional_add cas : conditional OpCode.ADD cas K_add
| conditional_replace : conditional OpCode.REPLACE 0 K_replace
| conditional_cas cas : cas <> 0 -> conditional OpCode.REPLACE cas (K_cas cas).

Lemma get_from_replica_asked w a key data w' rc data' cas :
  get_from_replica w a key data = (w', (rc, data', cas)) ->
  exists ans, asked key w a w' rc ans /\ memcached_success rc = bool_decide (is_Some ans) /\
    data' = default data (fst <$> ans) /\ cas = default 0 (snd <$> ans).
Proof using.
  unfold get_from_replica. destruct (memcached_mget w a key) as [w1 rc1] eqn:E1.
  destruct (memcached_success rc1) eqn:E2.
  - destruct (memcached_fetch_result w1 a) as [w2 [[rc2 value] c]] eqn:E3.
    destruct (memcached_success rc2) eqn:E4; intros [= <- <- <- <-].
    + exists (Some (value, c)). split; [by eapply asked_found|]. by rewrite bool_decide_eq_true_2 by done.
    + exists None. split; [by eapply asked_missed|]. by rewrite bool_decide_eq_false_2 by (by intros [? ?]).
  - intros [= <- <- <- <-]. exists None. split; [by apply asked_refused|].
    by rewrite bool_decide_eq_false_2 by (by intros [? ?]).
Qed.

(** The reads made so far, and what [data] and [cas] hold of their answer. *)
Definition read_trace (key : bytes) (w : W) (s : read_state (W := W) (IP := IP)) : Prop :=
  exists ans, asks key w (rd_log s) (rd_w s) ans /\
    (rd_log s <> [] -> memcached_success (rd_rc s) = bool_decide (is_Some ans)) /\
    rd_data s = default [] (fst <$> ans) /\ rd_cas s = default 0 (snd <$> ans).

Lemma asks_log_nil key w log w' ans : asks key w log w' ans -> log = [] -> ans = None.
Proof using. intros [|? ? ? ? ? ? ? ? ?]; [done|]. by intros [_ [=]]%app_eq_nil. Qed.

Lemma read_loop_trace addrs key w0 : forall todo ii s s',
  read_loop todo ii addrs key s = Val s' -> asks key w0 (rd_log s) (rd_w s) None ->
  rd_data s = [] -> rd_cas s = 0 -> (rd_log s <> [] -> memcached_success (rd_rc s) = false) ->
  read_trace key w0 s'.
Proof using.
  induction todo as [|todo IH]; intros ii s s'; cbn [read_loop].
  { intros [= <-] Ha Hd Hc Hf. exists None. rewrite bool_decide_eq_false_2 by (by intros [? ?]). done. }
  destruct (_ && _).
  { intros [= <-] Ha Hd Hc Hf. exists None. rewrite bool_decide_eq_false_2 by (by intros [? ?]). done. }
  intros (a & _ & E)%bind_Val_inv Ha Hd Hc Hf.
  destruct (get_from_replica (rd_w s) a key (rd_data s)) as [w [[rc data] cas]] eqn:Eg.
  apply get_from_replica_asked in Eg as (ans & Hans & Hsu & -> & ->). rewrite Hd in *.
  pose proof (asks_next _ _ _ _ _ _ _ _ _ Ha Hans) as Ha'.
  destruct (memcached_success rc) eqn:Es.
  - injection E as <-. exists ans. cbn [rd_rc]. by rewrite Es.
  - symmetry in Hsu. apply bool_decide_eq_false in Hsu. destruct ans as [v|]; [by destruct Hsu; eexists|].
    destruct (bool_decide _); eapply IH; try done.
Qed.

Lemma write_loop_trace addrs kind args w0 : forall todo ii s s',
  write_loop todo ii addrs kind args s = Val s' -> stores kind args w0 (wr_log s) (wr_w s) ->
  stores kind args w0 (wr_log s') (wr_w s').
Proof using.
  induction todo as [|todo IH]; intros ii s s'; cbn [write_loop]; [by intros [= <-]|].
  destruct (_ && _); [by intros [= <-]|]. intros (a & _ & E)%bind_Val_inv Hs.
  destruct (memcached_store kind (wr_w s) a args) as [w rc] eqn:Em.
  pose proof (stores_next _ _ _ _ _ _ _ _ Hs Em) as Hs'.
  destruct (memcached_success rc); [by injection E as <-|].
  destruct (contention rc); [by injection E as <-|]. by eapply IH.
Qed.

Lemma write_others_copied (addrs : list (IP * Z)) args (w : W) : copied args w addrs (write_others addrs args w).
Proof using.
  unfold write_others. induction addrs as [|a addrs IH] using rev_ind; [constructor|].
  rewrite foldl_app. by apply copied_next.
Qed.

Lemma delete_loop_trace addrs key : forall w best,
  let '(w', _, log) := delete_loop addrs key w best in deletes key w log w'.
Proof using.
  induction addrs as [|a addrs IH]; intros w best; cbn [delete_loop]; [constructor|].
  destruct (memcached_delete w a key) as [w1 rc] eqn:E. set (best1 := if memcached_success rc then _ else _).
  specialize (IH w1 best1). destruct (delete_loop addrs key w1 best1) as [[w2 status] log].
  by eapply deletes_next.
Qed.

Lemma store_kind_conditional op cas :
  op ∈ [OpCode.ADD; OpCode.SET; OpCode.REPLACE] -> conditional op cas (store_kind_for op cas).
Proof using.
  rewrite !elem_of_cons. intros [->|[->|[->|?%elem_of_nil]]]; try done; [constructor|constructor|].
  cbn. destruct (Z.eqb_spec cas 0) as [->|]; by constructor.
Qed.
End calls.

Section facts.
Context {W IP : Type}.
Context (hash : bytes -> Z) (shp : bytes -> option (bytes * Z)) (pit : bytes -> option IP).
Context `{LL : LibmemcachedLaws W (IP * Z)}.

Definition read_error (rc : memcached_return_t) : bool :=
  negb (memcached_success rc) && negb (bool_decide (rc = MEMCACHED_NOTFOUND)).
Definition read_not_found (rc : memcached_return_t) : bool :=
  negb (memcached_success rc) && bool_decide (rc = MEMCACHED_NOTFOUND).

(** The loop variables as functions of the attempts. *)
Definition read_counts (s : read_state (W := W) (IP := IP)) : Prop :=
  rd_rc s = last_rc (rd_log s) /\
  rd_failed_replicas s = count_rc read_error (rd_log s) /\
  rd_active_not_found s = negb (Nat.eqb (count_rc read_not_found (rd_log s)) 0).

Lemma read_counts_next w data cas s a rc :
  read_counts s -> 
  read_counts (mkReadState w rc data cas
    (if memcached_success rc then rd_active_not_found s
     else if bool_decide (rc = MEMCACHED_NOTFOUND) then true else rd_active_not_found s)
    (if memcached_success rc then rd_failed_replicas s
     else if bool_decide (rc = MEMCACHED_NOTFOUND) then rd_failed_replicas s
     else S (rd_failed_replicas s)) (rd_log s ++ [(a, rc)])).
Proof.
  intros (_ & Hf & Hn). split; [cbn [rd_rc rd_log]; by rewrite last_rc_snoc|]. cbn [rd_failed_replicas rd_log rd_active_not_found].
  rewrite !count_rc_snoc, Hf, Hn. unfold read_error, read_not_found.
  destruct (memcached_success rc), (bool_decide _); cbn; rewrite ?Nat.add_0_r, ?Nat.add_1_r; done.
Qed.

Lemma read_loop_other addrs key : length addrs <> 1%nat -> forall todo ii s,
  (todo + ii = length addrs)%nat -> map fst (rd_log s) = take ii addrs -> length (rd_log s) = ii ->
  Forall (fun e => memcached_success e.2 = false) (rd_log s) -> read_counts s ->
  exists s', read_loop todo ii addrs key s = Val s' /\ read_counts s' /\
    tried memcached_success addrs (rd_log s').
Proof.
  intros Hn. destruct (attempts_other addrs Hn) as [_ Hst].
  induction todo as [|todo IH]; intros ii s Ht Hm Hl Hf Hc; cbn [read_loop].
  { exists s. split; [done|]. split; [done|]. apply tried_all; [by rewrite Hl|lia|done]. }
  rewrite Hst. cbn [andb]. destruct (addrs !! ii) as [a|] eqn:Ea;
    [|apply lookup_ge_None in Ea; lia]. cbn [use]. rewrite bind_Val.
  destruct (get_from_replica (rd_w s) a key (rd_data s)) as [w [[rc data] cas]].
  destruct (visit_next addrs _ a ii Hm Hl Ea rc) as [Hm' Hl'].
  pose proof (read_counts_next w data cas s a rc Hc) as Hc'.
  destruct (memcached_success rc) eqn:Es.
  - eexists. split; [done|]. split; [done|]. by eapply tried_stop.
  - assert (Hf' : Forall (fun e => memcached_success e.2 = false) (rd_log s ++ [(a, rc)]))
      by (apply Forall_app; auto).
    destruct (bool_decide _); apply IH; try done; lia.
Qed.

Lemma read_loop_sole a key s :
  rd_log s = [] -> read_counts s ->
  exists s', read_loop 2 0 [a] key s = Val s' /\ read_counts s' /\
    tried memcached_success [a] (rd_log s').
Proof using LL.
  intros Hlog Hc. cbn [read_loop]. change (second_try [a] 0) with false. cbn [andb lookup list_lookup use].
  rewrite bind_Val. destruct (get_from_replica (rd_w s) a key (rd_data s)) as [w [[rc data] cas]].
  pose proof (read_counts_next w data cas s a rc Hc) as Hc1. rewrite Hlog in *. cbn [app] in *.
  destruct (memcached_success rc) eqn:Es.
  { eexists. split; [done|]. split; [done|]. by apply (tried_stop _ [a] [] a rc 0). }
  assert (Hone : tried memcached_success [a] [(a, rc)]) by (apply tried_all; auto).
  change (second_try [a] 1) with true. cbn [andb].
  destruct (bool_decide (rc = MEMCACHED_NOTFOUND)) eqn:Enf; cbn [rd_rc].
  { apply bool_decide_eq_true in Enf. subst rc. rewrite bool_decide_eq_false_2 by done.
    eexists. done. }
  destruct (bool_decide (rc = MEMCACHED_CONNECTION_FAILURE)) eqn:Ecf; cbn [negb]; [|by eexists].
  apply bool_decide_eq_true in Ecf. subst rc. cbn [rd_w rd_data].
  change (use ([a] !! 0%nat)) with (Val a). rewrite bind_Val.
  destruct (get_from_replica w a key data) as [w2 [[rc2 data2] cas2]].
  pose proof (read_counts_next w2 data2 cas2 _ a rc2 Hc1) as Hc2. cbn [rd_log app] in *.
  assert (Htwo : tried memcached_success [a] [(a, MEMCACHED_CONNECTION_FAILURE); (a, rc2)]).
  { split; [right; eauto|]. split; [by repeat constructor|].
    destruct (memcached_success rc2) eqn:E2; [by left|right]. split; [|cbn; lia].
    repeat constructor; done. }
  destruct (memcached_success rc2); [|destruct (bool_decide (rc2 = MEMCACHED_NOTFOUND))];
    (eexists; split; [reflexivity|]; split; [exact Hc2 | exact Htwo]).
Qed.

Lemma read_loop_ok addrs key w :
  exists s', read_loop (attempts_for addrs) 0 addrs key (mkReadState w MEMCACHED_ERROR [] 0 false 0 [])
      = Val s' /\ read_counts s' /\ tried memcached_success addrs (rd_log s').
Proof using LL.
  assert (Hc : read_counts (mkReadState w MEMCACHED_ERROR [] 0 false 0 [])) by done.
  destruct (decide (length addrs = 1%nat)) as [E|E].
  - destruct addrs as [|a [|]]; try done. by apply read_loop_sole.
  - destruct (attempts_other addrs E) as [-> _]. by apply read_loop_other.
Qed.

(** A conditional write stops at the first replica that took or refused it. *)
Definition write_stop (rc : memcached_return_t) : bool := memcached_success rc || contention rc.

(** The loop's result as a function of the attempts. *)
Definition write_ends (addrs : list (IP * Z)) (s : write_state (W := W) (IP := IP)) : Prop :=
  tried write_stop addrs (wr_log s) /\ wr_rc s = last_rc (wr_log s) /\
  wr_status s = (if negb (memcached_success (wr_rc s)) && contention (wr_rc s)
                 then libmemcached_result_to_memcache_status (wr_rc s) else ResultCode.NO_ERROR) /\
  (memcached_success (wr_rc s) = true ->
     wr_replica_idx s = (pred (Nat.min (length (wr_log s)) (length addrs)))).

Lemma write_step_ends addrs log a rc ii w :
  map fst (log ++ [(a, rc)]) = take (S ii) addrs -> length (log ++ [(a, rc)]) = S ii ->
  (S ii <= length addrs)%nat ->
  Forall (fun e => write_stop e.2 = false) log -> write_stop rc = true ->
  write_ends addrs (mkWriteState w rc ii
    (if memcached_success rc then ResultCode.NO_ERROR
     else libmemcached_result_to_memcache_status rc) (log ++ [(a, rc)])).
Proof.
  intros Hm Hl Hle Hf Hs. split; [by eapply tried_stop|]. cbn [wr_rc wr_log wr_status wr_replica_idx].
  rewrite last_rc_snoc, Hl. split; [done|]. split.
  - unfold write_stop in Hs. by destruct (memcached_success rc); cbn in *; rewrite ?Hs.
  - intros _. rewrite Nat.min_l by lia. done.
Qed.

Lemma write_stop_false rc :
  write_stop rc = false -> memcached_success rc = false /\ contention rc = false.
Proof. unfold write_stop. apply orb_false_iff. Qed.

Lemma write_loop_other addrs kind args : length addrs <> 1%nat -> forall todo ii s,
  (todo + ii = length addrs)%nat -> map fst (wr_log s) = take ii addrs -> length (wr_log s) = ii ->
  Forall (fun e => write_stop e.2 = false) (wr_log s) -> wr_rc s = last_rc (wr_log s) ->
  write_stop (wr_rc s) = false -> wr_status s = ResultCode.NO_ERROR ->
  exists s', write_loop todo ii addrs kind args s = Val s' /\ write_ends addrs s'.
Proof.
  intros Hn. destruct (attempts_other addrs Hn) as [_ Hst].
  induction todo as [|todo IH]; intros ii s Ht Hm Hl Hf Hrc Hns Hs; cbn [write_loop].
  { exists s. split; [done|]. split; [apply tried_all; [by rewrite Hl|lia|done]|].
    apply write_stop_false in Hns as [E1 E2]. rewrite E1, E2, Hs. done. }
  rewrite Hst. cbn [andb]. destruct (addrs !! ii) as [a|] eqn:Ea;
    [|apply lookup_ge_None in Ea; lia]. cbn [use]. rewrite bind_Val.
  destruct (memcached_store kind (wr_w s) a args) as [w rc].
  destruct (visit_next addrs _ a ii Hm Hl Ea rc) as [Hm' Hl']. rewrite Hs.
  assert (Hle : (S ii <= length addrs)%nat) by (apply lookup_lt_Some in Ea; lia).
  pose proof (write_step_ends addrs (wr_log s) a rc ii w Hm' Hl' Hle Hf) as Hend.
  unfold write_stop in Hend at 1. destruct (memcached_success rc) eqn:Es; [by eexists; eauto|].
  destruct (contention rc) eqn:Ec; [by eexists; eauto|].
  assert (Hns' : write_stop rc = false) by (unfold write_stop; by rewrite Es, Ec).
  apply IH; cbn [wr_log wr_rc wr_status]; try done; [lia| |by rewrite last_rc_snoc].
  apply Forall_app; auto.
Qed.

Lemma write_loop_sole a kind args w :
  exists s', write_loop 2 0 [a] kind args (mkWriteState w MEMCACHED_ERROR 0 ResultCode.NO_ERROR [])
      = Val s' /\ write_ends [a] s'.
Proof using LL.
  cbn [write_loop]. change (second_try [a] 0) with false. cbn [andb].
  change (use ([a] !! 0%nat)) with (Val a). rewrite bind_Val. cbn [wr_w wr_log wr_status app].
  destruct (memcached_store kind w a args) as [w1 rc].
  pose proof (write_step_ends [a] [] a rc 0 w1 eq_refl eq_refl ltac:(cbn; lia) ltac:(constructor)) as Hend.
  cbn [app] in Hend. unfold write_stop in Hend at 1.
  destruct (memcached_success rc) eqn:Es; [by eexists; eauto|].
  destruct (contention rc) eqn:Ec; [by eexists; eauto|].
  change (second_try [a] 1) with true. cbn [andb wr_rc].
  assert (Hns : write_stop rc = false) by (unfold write_stop; by rewrite Es, Ec).
  destruct (bool_decide (rc = MEMCACHED_CONNECTION_FAILURE)) eqn:Ecf; cbn [negb].
  2: { eexists. split; [done|]. split; [apply tried_all; cbn; auto|]. cbn [wr_rc wr_log wr_status].
       rewrite Es, Ec. done. }
  apply bool_decide_eq_true in Ecf. subst rc. cbn [wr_w wr_log app].
  change (use ([a] !! 0%nat)) with (Val a). rewrite bind_Val.
  destruct (memcached_store kind w1 a args) as [w2 rc2].
  assert (Htried : tried write_stop [a] [(a, MEMCACHED_CONNECTION_FAILURE); (a, rc2)]).
  { split; [right; eauto|]. split; [by repeat constructor|].
    destruct (write_stop rc2) eqn:E2; [by left|right]. split; [|cbn; lia].
    repeat constructor; done. }
  destruct (memcached_success rc2) eqn:Es2; [|destruct (contention rc2) eqn:Ec2];
    (eexists; split; [reflexivity|]; split; [exact Htried|]; cbn [wr_rc wr_log wr_status];
     rewrite Es2, ?Ec2; done).
Qed.

Lemma write_loop_ok addrs kind args w :
  exists s', write_loop (attempts_for addrs) 0 addrs kind args
      (mkWriteState w MEMCACHED_ERROR 0 ResultCode.NO_ERROR []) = Val s' /\ write_ends addrs s'.
Proof using LL.
  destruct (decide (length addrs = 1%nat)) as [E|E].
  - destruct addrs as [|a [|]]; try done. apply write_loop_sole.
  - destruct (attempts_other addrs E) as [-> _]. apply write_loop_other; try done.
    unfold write_stop. cbn. rewrite success_no; [done|]. apply list_elem_of_here.
Qed.
End facts.

(** ** Lemmas on the communication state *)

Definition failed_vbuckets (l : list CommState) : nat :=
  length (filter (fun s => s = Comm_FAILED) l).

(** The representation invariant of the backend. *)
Record backend_ok (b : MemcachedBackend) : Prop := {
  bo_states : length (mb_vbucket_comm_state b) = Z.to_nat vbuckets;
  bo_read : length (mb_read_replicas b) = Z.to_nat vbuckets;
  bo_write : length (mb_write_replicas b) = Z.to_nat vbuckets;
  bo_count : mb_vbucket_comm_fail_count b = Z.of_nat (failed_vbuckets (mb_vbucket_comm_state b))
}.

Lemma failed_insert l i old new :
  l !! i = Some old ->
  (failed_vbuckets (<[i := new]> l) + (if decide (old = Comm_FAILED) then 1 else 0) =
   failed_vbuckets l + (if decide (new = Comm_FAILED) then 1 else 0))%nat.
Proof.
  revert i. induction l as [|x l IH]; intros [|i] Hl; try done; unfold failed_vbuckets in *.
  - injection Hl as ->. cbn [insert list_insert]. rewrite !filter_cons.
    destruct (decide (old = Comm_FAILED)), (decide (new = Comm_FAILED)); cbn [length]; lia.
  - cbn in Hl. specialize (IH i Hl). change (<[S i := new]> (x :: l)) with (x :: <[i := new]> l).
    rewrite !filter_cons. destruct (decide (x = Comm_FAILED)); cbn [length]; lia.
Qed.

Lemma failed_bound l : (failed_vbuckets l <= length l)%nat.
Proof. apply length_filter. Qed.

Lemma failed_some l : negb (Z.of_nat (failed_vbuckets l) =? 0) = bool_decide (Comm_FAILED ∈ l).
Proof.
  unfold failed_vbuckets. case_bool_decide as Hin.
  - apply negb_true_iff, Z.eqb_neq. intros E.
    assert (Comm_FAILED ∈ filter (fun s => s = Comm_FAILED) l) as Hf by (by apply list_elem_of_filter).
    destruct (filter _ l); [by apply elem_of_nil in Hf | done].
  - apply negb_false_iff, Z.eqb_eq. destruct (filter _ l) as [|x fs] eqn:E; [done|].
    exfalso. apply Hin. assert (x ∈ x :: fs) as Hx by apply list_elem_of_here. rewrite <- E in Hx.
    by apply list_elem_of_filter in Hx as [-> Hx].
Qed.

(** The state vector and count after reporting [st] for one vbucket. *)
Lemma comm_count l i old st count :
  l !! i = Some old -> count = Z.of_nat (failed_vbuckets l) -> (length l <= 128)%nat ->
  (if decide (old = st) then (l, count)
   else (<[i := st]> l,
         match st with
         | Comm_OK => if 0 <? count then count - 1 else count
         | Comm_FAILED => u32 (count + 1)
         end)) = (<[i := st]> l, Z.of_nat (failed_vbuckets (<[i := st]> l))).
Proof.
  intros El -> Hlen. pose proof (failed_insert _ _ _ st El) as Hins. pose proof (failed_bound l).
  destruct (decide (old = st)) as [->|Hne]; [by rewrite list_insert_id|]. f_equal.
  destruct old, st; try done;
    rewrite (decide_False (P := Comm_OK = _)), (decide_True (P := Comm_FAILED = _)) in Hins by done.
  - rewrite u32_small by (unfold in_u32; lia). lia.
  - destruct (Z.ltb_spec 0 (Z.of_nat (failed_vbuckets l))); lia.
Qed.

(** Whether an alarm action is due. *)
Definition alarm_due (b : MemcachedBackend) : bool :=
  mb_has_alarm b && (mb_next_vbucket_alarm_update b <? (current_time_ms (mb_clock b)).1).

(** What one report changes. *)
Record comm_update (vb : Z) (st : CommState) (b b' : MemcachedBackend) : Prop := {
  cu_ok : backend_ok b';
  cu_replicas : mb_read_replicas b' = mb_read_replicas b /\
                mb_write_replicas b' = mb_write_replicas b;
  cu_has_alarm : mb_has_alarm b' = mb_has_alarm b;
  cu_monitor : mb_has_monitor b' = mb_has_monitor b /\ mb_monitor_log b' = mb_monitor_log b;
  cu_state : mb_vbucket_comm_state b' =
    (if mb_has_alarm b then <[Z.to_nat vb := st]> (mb_vbucket_comm_state b)
     else mb_vbucket_comm_state b);
  cu_alarm : mb_alarm_log b' = mb_alarm_log b ++
    (if alarm_due b then [bool_decide (Comm_FAILED ∈ mb_vbucket_comm_state b')] else []);
  cu_next : mb_next_vbucket_alarm_update b' =
    (if alarm_due b
     then u64 ((current_time_ms (current_time_ms (mb_clock b)).2).1 + update_period_ms)
     else mb_next_vbucket_alarm_update b)
}.

Lemma update_comm_ok vb st b :
  backend_ok b -> 0 <= vb < vbuckets ->
  exists b', update_vbucket_comm_state vb st b = Val b' /\ comm_update vb st b b'.
Proof.
  intros Hok Hvb. pose proof Hok as [Hs Hr Hw Hc]. unfold update_vbucket_comm_state.
  destruct (mb_has_alarm b) eqn:Ha.
  2: { exists b. split; [done|]. split; unfold alarm_due; rewrite ?Ha; cbn [andb];
         rewrite ?app_nil_r; done. }
  destruct (mb_vbucket_comm_state b !! Z.to_nat vb) as [old|] eqn:El;
    [|apply lookup_ge_None in El; rewrite Hs in El; lia].
  cbn [use]. rewrite bind_Val, (comm_count _ _ _ _ _ El Hc) by (rewrite Hs; unfold vbuckets; lia).
  unfold current_time_ms at 1. rewrite failed_some.
  destruct (mb_next_vbucket_alarm_update b <? _) eqn:Ed; unfold current_time_ms;
    (eexists; split; [done|]; split; unfold alarm_due; rewrite ?Ha; try done; cbn [andb];
     unfold current_time_ms; cbn [fst snd]; rewrite ?Ed, ?app_nil_r; try done;
     split; cbn; rewrite ?length_insert; done).
Qed.

Lemma inform_same s b :
  backend_ok b -> backend_ok (inform s b) /\ mb_vbucket_comm_state (inform s b) = mb_vbucket_comm_state b /\
  mb_read_replicas (inform s b) = mb_read_replicas b.
Proof. unfold inform. destruct (mb_has_monitor b); [|done]. by intros [? ? ? ?]. Qed.

Lemma backend_vbucket_range hash key : 0 <= backend_vbucket_for_key hash key < vbuckets.
Proof.
  unfold backend_vbucket_for_key. change (vbuckets - 1) with (Z.ones 7).
  rewrite Z.land_ones by lia. by apply Z.mod_pos_bound.
Qed.

Lemma replica_addresses_ok {IP} hash shp (pit : bytes -> option IP) key op b :
  backend_ok b ->
  exists addrs, get_replica_addresses shp pit (backend_vbucket_for_key hash key) op b = Val addrs.
Proof.
  intros [Hs Hr Hw Hc]. pose proof (backend_vbucket_range hash key) as Hvb.
  unfold get_replica_addresses. destruct (_ !! Z.to_nat (backend_vbucket_for_key hash key)) eqn:E.
  - by eexists.
  - exfalso. apply lookup_ge_None in E. destruct op; lia.
Qed.

Lemma count_partition {W IP} `{Libmemcached W (IP * Z)} (log : list (IP * Z * memcached_return_t)) :
  Forall (fun e => memcached_success e.2 = false) log ->
  (count_rc read_error log + count_rc read_not_found log = length log)%nat.
Proof.
  induction 1 as [|[a rc] log He _ IH]; [done|]. cbn in He. rewrite !count_rc_cons.
  unfold read_error at 1, read_not_found at 1. rewrite He. cbn [negb andb length].
  case_bool_decide; cbn [negb]; lia.
Qed.

(** When no replica had the record all were tried; some replica did not fail
    exactly when one answered NOT_FOUND, unless a sole one was tried twice. *)
Lemma read_failed_count {W IP} `{Libmemcached W (IP * Z)} (addrs : list (IP * Z)) log :
  tried memcached_success addrs log -> memcached_success (last_rc log) = false ->
  Nat.ltb (count_rc read_error log) (length addrs) =
  negb (Nat.eqb (count_rc read_not_found log) 0) && negb (Nat.ltb (length addrs) (length log)).
Proof.
  intros Ht Hns. pose proof Ht as (Hm & _ & [E|[Hall Hlen]]); [congruence|].
  pose proof (count_partition _ Hall) as Hcp. destruct Hm as [Hm|(a & rc & -> & ->)].
  - assert (length log = length addrs) as Hll.
    { apply (f_equal length) in Hm. rewrite length_map, length_take in Hm. lia. }
    rewrite (proj2 (Nat.ltb_ge (length addrs) (length log))), andb_true_r by lia.
    destruct (Nat.ltb_spec (count_rc read_error log) (length addrs)),
      (Nat.eqb_spec (count_rc read_not_found log) 0); try done; lia.
  - rewrite andb_false_r. apply Nat.ltb_ge. apply Forall_cons in Hall as [Hf _]. cbn in Hf.
    rewrite count_rc_cons. unfold read_error at 1. rewrite Hf, bool_decide_eq_false_2 by done. cbn. lia.
Qed.

(** read_data's results as functions of the loop's final variables. *)
Definition read_status {W IP} `{Libmemcached W (IP * Z)} (addrs : list (IP * Z))
    (s : read_state (W := W) (IP := IP)) : ResultCode :=
  if memcached_success (rd_rc s) then ResultCode.NO_ERROR
  else if Nat.ltb (rd_failed_replicas s) (length addrs) then ResultCode.KEY_NOT_FOUND
  else ResultCode.TEMPORARY_FAILURE.
Definition read_cas {W IP} `{Libmemcached W (IP * Z)} (addrs : list (IP * Z))
    (s : read_state (W := W) (IP := IP)) : option Z :=
  if memcached_success (rd_rc s) && rd_active_not_found s then Some 0
  else match addrs with [] => None | _ => Some (rd_cas s) end.

(** The state of a vbucket after an operation whose status is [code]. *)
Definition comm_of (code : ResultCode) : CommState :=
  if bool_decide (code = ResultCode.TEMPORARY_FAILURE) then Comm_FAILED else Comm_OK.

Lemma report_comm hash key b code :
  backend_ok b -> let vb := backend_vbucket_for_key hash key in
  exists b1, update_vbucket_comm_state vb (comm_of code) b = Val b1 /\
    forall success, backend_ok (inform success b1) /\
      mb_read_replicas (inform success b1) = mb_read_replicas b /\
      (mb_has_alarm b = true ->
       mb_vbucket_comm_state (inform success b1) !! Z.to_nat vb = Some (comm_of code)) /\
      mb_monitor_log (inform success b1) =
        mb_monitor_log b ++ (if mb_has_monitor b then [success] else []).
Proof.
  intros Hok vb. pose proof (backend_vbucket_range hash key) as Hr.
  destruct (update_comm_ok vb (comm_of code) b Hok Hr) as (b1 & E & Hu).
  exists b1. split; [done|]. intros success.
  destruct (inform_same success b1 (cu_ok _ _ _ _ Hu)) as (Hi & His & Hir). split; [done|].
  split; [rewrite Hir; apply (cu_replicas _ _ _ _ Hu)|]. split.
  - intros Ha. rewrite His, (cu_state _ _ _ _ Hu), Ha. apply list_lookup_insert_eq.
    destruct Hok as [-> _ _ _]. unfold vb. lia.
  - destruct (cu_monitor _ _ _ _ Hu) as [<- <-]. unfold inform.
    destruct (mb_has_monitor b1); [done|by rewrite app_nil_r].
Qed.

Lemma read_data_run {W IP} hash shp (pit : bytes -> option IP) `{LibmemcachedLaws W (IP * Z)} key w b :
  backend_ok b -> let vb := backend_vbucket_for_key hash key in
  exists addrs s b', get_replica_addresses shp pit vb Op_READ b = Val addrs /\
    read_loop (attempts_for addrs) 0 addrs key (mkReadState w MEMCACHED_ERROR [] 0 false 0 []) = Val s /\
    read_counts s /\ tried memcached_success addrs (rd_log s) /\ read_trace key w s /\
    read_data hash shp pit key w b =
      Val (rd_w s, b', mkReadResult (read_status addrs s) (rd_data s) (read_cas addrs s) (rd_log s)) /\
    backend_ok b' /\ mb_read_replicas b' = mb_read_replicas b /\
    (mb_has_alarm b = true ->
     mb_vbucket_comm_state b' !! Z.to_nat vb = Some (comm_of (read_status addrs s))) /\
    mb_monitor_log b' = mb_monitor_log b ++
      (if mb_has_monitor b
       then [negb (bool_decide (read_status addrs s = ResultCode.TEMPORARY_FAILURE))] else []).
Proof.
  intros Hok vb. destruct (replica_addresses_ok hash shp pit key Op_READ b Hok) as (addrs & Ea).
  destruct (read_loop_ok addrs key w) as (s & Es & Hc & Ht).
  destruct (report_comm hash key b (read_status addrs s) Hok) as (b1 & Eu & Hb).
  exists addrs, s, (inform (negb (bool_decide (read_status addrs s = ResultCode.TEMPORARY_FAILURE))) b1).
  split; [done|]. split; [done|]. split; [done|]. split; [done|].
  split; [by apply (read_loop_trace _ _ _ _ _ _ _ Es); try constructor|].
  unfold read_data. rewrite Ea, bind_Val, Es, bind_Val. unfold read_status, read_cas in *.
  destruct (memcached_success (rd_rc s)); [|destruct (Nat.ltb _ _)];
    cbn [comm_of andb] in *; unfold comm_of in Eu at 1;
    rewrite ?bool_decide_eq_false_2, ?bool_decide_eq_true_2 in Eu by done;
    rewrite Eu, bind_Val; (split; [reflexivity|]); apply Hb.
Qed.

(** write_data's results as functions of the attempts. *)
Definition write_status {W IP} `{Libmemcached W (IP * Z)}
    (log : list (IP * Z * memcached_return_t)) : ResultCode :=
  if memcached_success (last_rc log) then ResultCode.NO_ERROR
  else libmemcached_result_to_memcache_status (last_rc log).
Definition write_copies {W IP} `{Libmemcached W (IP * Z)} (addrs : list (IP * Z))
    (log : list (IP * Z * memcached_return_t)) : list (IP * Z) :=
  if memcached_success (last_rc log) then drop (length log) addrs else [].

Lemma contention_status rc :
  (contention rc = true -> libmemcached_result_to_memcache_status rc <> ResultCode.TEMPORARY_FAILURE) /\
  (contention rc = false -> libmemcached_result_to_memcache_status rc = ResultCode.TEMPORARY_FAILURE).
Proof. unfold contention. case_bool_decide as Hc; destruct rc; naive_solver. Qed.

(** A successful attempt was made on a replica, so the copies are those after it. *)
Lemma write_copies_spec {W IP} `{LibmemcachedLaws W (IP * Z)} (addrs : list (IP * Z)) s :
  write_ends (W := W) addrs s ->
  (if memcached_success (wr_rc s) && Nat.ltb (wr_replica_idx s) (length addrs)
   then drop (S (wr_replica_idx s)) addrs else []) = write_copies addrs (wr_log s).
Proof.
  intros ((Hm & _) & Hrc & _ & Hidx). unfold write_copies. rewrite <- Hrc.
  destruct (memcached_success (wr_rc s)) eqn:Es; [|done]. cbn [andb]. rewrite Hidx by done.
  assert (Hlog : wr_log s <> []).
  { intros E. rewrite E in Hrc. cbn in Hrc. rewrite Hrc, success_no in Es; [done|].
    apply list_elem_of_here. }
  assert (0 < length (wr_log s))%nat by (destruct (wr_log s); [done|cbn; lia]).
  assert (0 < length addrs)%nat.
  { destruct addrs; [|cbn; lia]. destruct Hm as [Hm|(a & rc & ? & _)]; [|done].
    rewrite take_nil in Hm. by destruct (wr_log s). }
  rewrite (proj2 (Nat.ltb_lt _ _)) by lia. rewrite Nat.succ_pred by lia.
  destruct (Nat.min_spec (length (wr_log s)) (length addrs)) as [[_ ->]|[Hle ->]]; [done|].
  by rewrite !drop_ge by lia.
Qed.

Lemma write_data_run {W IP} hash shp (pit : bytes -> option IP) `{LibmemcachedLaws W (IP * Z)}
    op key data cas expiry ts w b :
  backend_ok b -> op ∈ [OpCode.ADD; OpCode.SET; OpCode.REPLACE] ->
  let vb := backend_vbucket_for_key hash key in
  let args := mkStoreArgs key vb data expiry (write_flags ts) in
  exists addrs s b', get_replica_addresses shp pit vb Op_WRITE b = Val addrs /\
    write_loop (attempts_for addrs) 0 addrs (store_kind_for op cas) args
      (mkWriteState w MEMCACHED_ERROR 0 ResultCode.NO_ERROR []) = Val s /\
    write_ends addrs s /\
    write_data hash shp pit op key data cas expiry ts w b =
      Val (write_others (write_copies addrs (wr_log s)) args (wr_w s), b',
           mkWriteResult (write_status (wr_log s)) (wr_log s) (write_copies addrs (wr_log s))) /\
    backend_ok b' /\ mb_read_replicas b' = mb_read_replicas b /\
    (mb_has_alarm b = true ->
     mb_vbucket_comm_state b' !! Z.to_nat vb = Some (comm_of (write_status (wr_log s)))) /\
    mb_monitor_log b' = mb_monitor_log b ++
      (if mb_has_monitor b
       then [negb (bool_decide (write_status (wr_log s) = ResultCode.TEMPORARY_FAILURE))] else []).
Proof.
  intros Hok Hop vb args.
  destruct (replica_addresses_ok hash shp pit key Op_WRITE b Hok) as (addrs & Ea).
  destruct (write_loop_ok addrs (store_kind_for op cas) args w) as (s & Es & Hend).
  destruct (report_comm hash key b (write_status (wr_log s)) Hok) as (b1 & Eu & Hb).
  pose proof (write_copies_spec addrs s Hend) as Hcp. pose proof Hend as (_ & Hrc & Hst & _).
  exists addrs, s, (inform (negb (bool_decide (write_status (wr_log s) = ResultCode.TEMPORARY_FAILURE))) b1).
  split; [done|]. split; [done|]. split; [done|]. split; [|apply Hb].
  unfold write_data. rewrite bool_decide_eq_false_2
    by (rewrite !elem_of_cons in Hop; intros (? & ? & ?); set_solver).
  fold vb in Ea. fold vb args. rewrite Ea, bind_Val. cbv zeta. rewrite Es, bind_Val. cbv zeta. rewrite Hcp.
  destruct (contention_status (wr_rc s)) as [Hct Hcf].
  unfold comm_of, write_status in *. rewrite <- Hrc in *. fold vb in Eu.
  destruct (memcached_success (wr_rc s)) eqn:Esu; cbn [negb andb] in *.
  - rewrite bool_decide_eq_false_2 in Eu by done. by rewrite Eu, Hst.
  - destruct (contention (wr_rc s)); cbn [negb andb] in *.
    + rewrite bool_decide_eq_false_2 in Eu by auto. rewrite Eu, Hst.
      by rewrite bool_decide_eq_false_2 by auto.
    + rewrite Hcf in * by done. rewrite bool_decide_eq_true_2 in Eu by done. by rewrite Eu.
Qed.

Lemma delete_loop_spec {W IP} `{Libmemcached W (IP * Z)} (addrs : list (IP * Z)) key : forall w best,
  let '(_, status, log) := delete_loop addrs key w best in
  map fst log = addrs /\
  status = (if bool_decide (Exists (fun e => memcached_success e.2 = true) log) then ResultCode.NO_ERROR
            else if bool_decide (best = ResultCode.NO_ERROR) then ResultCode.NO_ERROR
            else match last log with
                 | Some (_, rc) => libmemcached_result_to_memcache_status rc
                 | None => best
                 end).
Proof.
  induction addrs as [|a addrs IH]; intros w best; cbn [delete_loop].
  { split; [done|]. rewrite bool_decide_eq_false_2 by (by intros ?%Exists_nil).
    case_bool_decide; done. }
  destruct (memcached_delete w a key) as [w1 rc].
  set (best1 := if memcached_success rc then _ else _). specialize (IH w1 best1).
  destruct (delete_loop addrs key w1 best1) as [[w2 status] log]. destruct IH as [Hm Hs].
  split; [cbn; by rewrite Hm|]. rewrite Hs. clear Hs Hm.
  rewrite (bool_decide_ext (Exists _ ((a, rc) :: log)) (memcached_success rc = true \/
    Exists (fun e => memcached_success e.2 = true) log)) by (by rewrite Exists_cons).
  destruct (decide (Exists (fun e => memcached_success e.2 = true) log)) as [He|He].
  { rewrite !bool_decide_eq_true_2 by auto. done. }
  rewrite (bool_decide_eq_false_2 (Exists _ log)) by done. unfold best1.
  destruct (memcached_success rc) eqn:Es; [by rewrite !bool_decide_eq_true_2 by auto|].
  rewrite (bool_decide_eq_false_2 (_ \/ _)) by (intros [?|?]; [congruence|done]).
  destruct (decide (best = ResultCode.NO_ERROR)) as [->|Hb].
  - by rewrite (bool_decide_eq_false_2 (_ <> _)) by (intros ?; done).
  - rewrite (bool_decide_eq_true_2 (best <> _)), (bool_decide_eq_false_2 (best = _)) by done.
    assert (libmemcached_result_to_memcache_status rc <> ResultCode.NO_ERROR) as Hn by (by destruct rc).
    rewrite (bool_decide_eq_false_2 (_ = ResultCode.NO_ERROR)) by done.
    change ((a, rc) :: log) with ([(a, rc)] ++ log). rewrite last_app.
    by destruct (last log) as [[? ?]|].
Qed.

(** ** Properties *)

(** C38: Astaire and the proxy place keys alike: the backend's vbucket_for_key
    and Astaire's are the same function of the key, as the code requires: the low
    seven bits of its hash, also when that is negative as an int, and so always
    one of the 128 vbuckets. *)
Theorem vbucket_functions_agree (hash : bytes -> Z) (key : bytes) :
  backend_vbucket_for_key hash key = vbucket_for_key hash key /\
  vbucket_for_key hash key = hash key mod 128 /\
  0 <= vbucket_for_key hash key < vbuckets.
Proof.
  destruct (vbucket_for_key_low_bits hash key) as [Hr Hl]. split; [|done].
  unfold vbucket_for_key. change (128 - 1) with (vbuckets - 1).
  fold (backend_vbucket_for_key hash key). symmetry. apply u16_small.
  pose proof (backend_vbucket_range hash key). unfold in_u16, vbuckets in *. lia.
Qed.

(** C28: the failure count is always the number of vbuckets last reported
    FAILED; a report sets only its own vbucket's state; and an alarm action is
    taken only when the update time has passed, raises the alarm exactly when
    some vbucket is FAILED, and schedules the next one 30 seconds later. *)
Theorem comm_state_tracks_failures (vb : Z) (st : CommState) (b : MemcachedBackend)
    (Hok : backend_ok b) (Hvb : 0 <= vb < vbuckets) :
  exists b', update_vbucket_comm_state vb st b = Val b' /\ backend_ok b' /\
    mb_vbucket_comm_state b' =
      (if mb_has_alarm b then <[Z.to_nat vb := st]> (mb_vbucket_comm_state b)
       else mb_vbucket_comm_state b) /\
    mb_alarm_log b' = mb_alarm_log b ++
      (if alarm_due b then [bool_decide (Comm_FAILED ∈ mb_vbucket_comm_state b')] else []) /\
    mb_next_vbucket_alarm_update b' =
      (if alarm_due b
       then u64 ((current_time_ms (current_time_ms (mb_clock b)).2).1 + update_period_ms)
       else mb_next_vbucket_alarm_update b).
Proof.
  destruct (update_comm_ok vb st b Hok Hvb) as (b' & E & [? ? ? ? ? ?]). by exists b'.
Qed.

Section properties.
Context {W IP : Type}.
Context (hash : bytes -> Z) (shp : bytes -> option (bytes * Z)) (pit : bytes -> option IP).
Context `{LL : LibmemcachedLaws W (IP * Z)}.


(** C11: write_data stores the record conditionally - as the operation and its CAS
    require, with the key's vbucket, the data, the expiry and the time as flags
    - on the key's write replicas in order, each once (a sole replica again
    after a connection failure), until one takes it or refuses it.  When one
    takes it the status is NO_ERROR, and exactly the replicas after it then get
    an unconditional copy of the same record.  When one refuses it (not found,
    exists, not stored) that status is returned and no other replica is touched.
    Otherwise all were unreachable: TEMPORARY_FAILURE, no copies.  Nothing else
    is done to the servers; the vbucket's communication state and the monitor
    follow the status. *)
Theorem write_data_correct (op : OpCode) (key data : bytes) (cas expiry : Z) (ts : Z * Z)
    (w : W) (b : MemcachedBackend) (Hok : backend_ok b)
    (Hop : op ∈ [OpCode.ADD; OpCode.SET; OpCode.REPLACE]) :
  let vb := backend_vbucket_for_key hash key in
  let record := mkStoreArgs key vb data expiry (u32 (ts.1 * 1000 + ts.2 / 1000000)) in
  exists addrs kind w1 w' b' r,
    get_replica_addresses shp pit vb Op_WRITE b = Val addrs /\
    write_data hash shp pit op key data cas expiry ts w b = Val (w', b', r) /\ backend_ok b' /\
    conditional op cas kind /\ stores kind record w (wrr_log r) w1 /\
    tried write_stop addrs (wrr_log r) /\
    let rc := last_rc (wrr_log r) in
    copied record w1 (if memcached_success rc then drop (length (wrr_log r)) addrs else []) w' /\
    wrr_status r = (if memcached_success rc then ResultCode.NO_ERROR
                    else libmemcached_result_to_memcache_status rc) /\
    (memcached_success rc = false -> wrr_status r = ResultCode.TEMPORARY_FAILURE <->
       contention rc = false) /\
    let failed := bool_decide (wrr_status r = ResultCode.TEMPORARY_FAILURE) in
    (mb_has_alarm b = true ->
     mb_vbucket_comm_state b' !! Z.to_nat vb = Some (if failed then Comm_FAILED else Comm_OK)) /\
    mb_monitor_log b' = mb_monitor_log b ++ (if mb_has_monitor b then [negb failed] else []).
Proof using LL.
  destruct (write_data_run hash shp pit op key data cas expiry ts w b Hok Hop)
    as (addrs & s & b' & Ea & El & (Ht & _) & E & Hb' & _ & Hst & Hm).
  exists addrs, (store_kind_for op cas), (wr_w s). do 3 eexists. split; [done|]. split; [exact E|].
  split; [done|]. split; [by apply store_kind_conditional|].
  split; [apply (write_loop_trace _ _ _ _ _ _ _ _ El); constructor|]. split; [done|].
  cbn [wrr_log wrr_status wrr_copies]. split; [apply write_others_copied|]. split; [done|].
  split; [|split; [exact Hst|exact Hm]].
  unfold write_status. intros ->. destruct (contention_status (last_rc (wr_log s))) as [Hct Hcf].
  destruct (contention (last_rc (wr_log s))); [|tauto].
  split; [intros Hc; by apply Hct in Hc | done].
Qed.

(** C29: delete_data sends the delete to every read replica of the key, in
    order, and does nothing else to them; it reports NO_ERROR exactly when at
    least one replica deleted the record, otherwise what the last replica
    answered (TEMPORARY_FAILURE when there is no replica). *)
Theorem delete_data_correct (key : bytes) (w : W) (b : MemcachedBackend) (Hok : backend_ok b) :
  exists addrs w' status log,
    get_replica_addresses shp pit (backend_vbucket_for_key hash key) Op_READ b = Val addrs /\
    delete_data hash shp pit key w b = Val (w', status, log) /\
    map fst log = addrs /\ deletes key w log w' /\
    status = (if bool_decide (Exists (fun e => memcached_success e.2 = true) log)
              then ResultCode.NO_ERROR
              else libmemcached_result_to_memcache_status (last_rc log)) /\
    (status = ResultCode.NO_ERROR <-> Exists (fun e => memcached_success e.2 = true) log).
Proof using.
  destruct (replica_addresses_ok hash shp pit key Op_READ b Hok) as (addrs & Ea).
  pose proof (delete_loop_spec addrs key w ResultCode.TEMPORARY_FAILURE) as Hd.
  pose proof (delete_loop_trace addrs key w ResultCode.TEMPORARY_FAILURE) as Htr.
  destruct (delete_loop addrs key w ResultCode.TEMPORARY_FAILURE) as [[w' status] log] eqn:E.
  destruct Hd as [Hm Hs]. exists addrs, w', status, log. split; [done|].
  split; [unfold delete_data; by rewrite Ea, bind_Val, E|]. split; [done|]. split; [done|].
  rewrite (bool_decide_eq_false_2 (ResultCode.TEMPORARY_FAILURE = _)) in Hs by done.
  assert (status = (if bool_decide (Exists (fun e => memcached_success e.2 = true) log)
    then ResultCode.NO_ERROR else libmemcached_result_to_memcache_status (last_rc log))) as Hst.
  { rewrite Hs. unfold last_rc. by destruct (last log) as [[? ?]|]. }
  split; [done|]. rewrite Hst. case_bool_decide; [done|].
  split; [|done]. by destruct (last_rc log).
Qed.
End properties.
