(* ===== verification/Replication.v ===== *)
(** * Reading back what was written

    The end-to-end promise of the backend over its replicas: a record that
    write_data stored is what read_data returns, as long as each replica stays
    up or stays down.  The replicas are an interface (memcached servers behind
    libmemcached) that says which records a server accepts and keeps, since
    memcached limits keys and values and drops what has expired; a small
    reference cluster with such limits satisfies it. *)

From Stdlib Require Import ZArith Lia Strings.Byte.
From stdpp Require Import prelude.
From S2P Require Import Prelude WireUtils Backend.

Open Scope Z_scope.

(** ** The interface *)

(** Which replicas answer, what each holds (data and CAS), and which records a
    replica accepts and keeps for the time considered: a memcached refuses keys
    of more than 250 bytes and records above its size limit, and drops a record
    when it expires or, without evictions being disabled, for want of memory. *)
Class ReplicaCluster (W Addr : Type) `{Libmemcached W Addr} := {
  cl_up : W -> Addr -> bool;
  cl_held : W -> Addr -> bytes -> option (bytes * Z);
  cl_keeps : Addr -> store_args -> bool
}.

Definition same_up {W Addr} `{ReplicaCluster W Addr} (w w' : W) : Prop :=
  forall a, cl_up w' a = cl_up w a.
Definition same_cluster {W Addr} `{ReplicaCluster W Addr} (w w' : W) : Prop :=
  same_up w w' /\ forall a k, cl_held w' a k = cl_held w a k.

(** A replica that is down fails every request with an error that is not about
    the record; one that is up serves it. *)
Class ReplicaClusterLaws (W Addr : Type) `{ReplicaCluster W Addr} : Prop := {
  cl_get_up w a key : cl_up w a = true ->
    exists w1 rc w2, memcached_mget w a key = (w1, rc) /\ memcached_success rc = true /\
      same_cluster w w2 /\
      match cl_held w a key with
      | Some (v, c) => exists rc2, memcached_fetch_result w1 a = (w2, (rc2, v, c)) /\
                                   memcached_success rc2 = true
      | None => exists v c, memcached_fetch_result w1 a = (w2, (MEMCACHED_NOTFOUND, v, c))
      end;
  cl_get_down w a key : cl_up w a = false ->
    exists w1 rc, memcached_mget w a key = (w1, rc) /\ memcached_success rc = false /\
      rc <> MEMCACHED_NOTFOUND /\ same_cluster w w1;
  cl_set_up w a args : cl_up w a = true -> cl_keeps a args = true ->
    exists w1 rc c, memcached_store K_set w a args = (w1, rc) /\ memcached_success rc = true /\
      same_up w w1 /\ cl_held w1 a (sa_key args) = Some (sa_data args, c) /\
      forall a' k, a' <> a -> cl_held w1 a' k = cl_held w a' k;
  cl_set_down w a args : cl_up w a = false ->
    exists w1 rc, memcached_store K_set w a args = (w1, rc) /\ memcached_success rc = false /\
      contention rc = false /\ same_cluster w w1;
  cl_copy w a args :
    let w1 := memcached_set_noreply w a args in
    same_up w w1 /\ forall a' k, a' <> a -> cl_held w1 a' k = cl_held w a' k
}.

(** ** Lemmas *)

Section replication.
Context {W IP : Type} `{RL : ReplicaClusterLaws W (IP * Z)} `{LL : !LibmemcachedLaws W (IP * Z)}.
Implicit Types (addrs : list (IP * Z)) (w : W).

Lemma get_up w a key v c data :
  cl_up w a = true -> cl_held w a key = Some (v, c) ->
  exists w2 rc, get_from_replica w a key data = (w2, (rc, v, c)) /\ memcached_success rc = true /\
    same_cluster w w2.
Proof using RL.
  intros Hu Hh. destruct (cl_get_up w a key Hu) as (w1 & rc & w2 & E & Es & Hs & Hf).
  rewrite Hh in Hf. destruct Hf as (rc2 & Ef & Es2). exists w2, rc2.
  unfold get_from_replica. by rewrite E, Es, Ef, Es2.
Qed.

Lemma get_missing w a key data :
  cl_up w a = true -> cl_held w a key = None ->
  exists w2, get_from_replica w a key data = (w2, (MEMCACHED_NOTFOUND, data, 0)) /\ same_cluster w w2.
Proof using RL LL.
  intros Hu Hh. destruct (cl_get_up w a key Hu) as (w1 & rc & w2 & E & Es & Hs & Hf).
  rewrite Hh in Hf. destruct Hf as (v & c & Ef). exists w2.
  unfold get_from_replica. by rewrite E, Es, Ef, success_no by (rewrite !elem_of_cons; auto).
Qed.

Lemma get_down w a key data :
  cl_up w a = false ->
  exists w2 rc, get_from_replica w a key data = (w2, (rc, data, 0)) /\ memcached_success rc = false /\
    rc <> MEMCACHED_NOTFOUND /\ same_cluster w w2.
Proof using RL.
  intros Hu. destruct (cl_get_down w a key Hu) as (w1 & rc & E & Es & Hn & Hs).
  exists w1, rc. unfold get_from_replica. by rewrite E, Es.
Qed.

(** The replica at [i] is the first that is up. *)
Definition first_up w addrs (i : nat) (a : IP * Z) : Prop :=
  addrs !! i = Some a /\ cl_up w a = true /\
  forall j b, (j < i)%nat -> addrs !! j = Some b -> cl_up w b = false.

Lemma first_up_same w w' addrs i a : same_up w w' -> first_up w addrs i a -> first_up w' addrs i a.
Proof using.
  intros Hs (Ha & Hu & Hd). split; [done|]. split; [by rewrite Hs|].
  intros j b Hj Hb. rewrite Hs. by apply (Hd j).
Qed.

Lemma same_up_trans w1 w2 w3 : same_up w1 w2 -> same_up w2 w3 -> same_up w1 w3.
Proof using. intros H1 H2 a. by rewrite H2, H1. Qed.

(** Before the first replica that is up, a retry does not arise. *)
Lemma no_second_try addrs i (a : IP * Z) ii :
  addrs !! i = Some a -> (ii <= i)%nat -> second_try addrs ii = false.
Proof using.
  intros Ha Hi. apply lookup_lt_Some in Ha. unfold second_try.
  destruct (Nat.eqb_spec (length addrs) 1); [|done]. cbn. apply Nat.eqb_neq. lia.
Qed.

Lemma attempts_enough addrs i (a : IP * Z) :
  addrs !! i = Some a -> (i < attempts_for addrs)%nat.
Proof using.
  intros Ha. apply lookup_lt_Some in Ha. unfold attempts_for.
  destruct (Nat.eqb_spec (length addrs) 1); lia.
Qed.

(** The replica at [i] is up, and the ones before it are down or do not have the
    record. *)
Definition first_holder w addrs key (i : nat) (a : IP * Z) : Prop :=
  addrs !! i = Some a /\ cl_up w a = true /\
  forall j b, (j < i)%nat -> addrs !! j = Some b -> cl_up w b = false \/ cl_held w b key = None.

Lemma first_holder_same w w' addrs key i a :
  same_cluster w w' -> first_holder w addrs key i a -> first_holder w' addrs key i a.
Proof using.
  intros [Hs Hh] (Ha & Hu & Hd). split; [done|]. split; [by rewrite Hs|].
  intros j b Hj Hb. rewrite Hs, Hh. by apply (Hd j).
Qed.

Lemma read_loop_first addrs key i a v c : forall todo ii s,
  first_holder (rd_w s) addrs key i a -> cl_held (rd_w s) a key = Some (v, c) ->
  (ii <= i)%nat -> (i - ii < todo)%nat ->
  exists s', read_loop todo ii addrs key s = Val s' /\ memcached_success (rd_rc s') = true /\
    rd_data s' = v.
Proof using RL LL.
  induction todo as [|todo IH]; intros ii s Hfu Hh Hi Ht; [lia|]. cbn [read_loop].
  pose proof Hfu as (Ha & Hu & Hd). rewrite (no_second_try addrs i a ii Ha Hi). cbn [andb].
  destruct (decide (ii = i)) as [->|Hne].
  - rewrite Ha. cbn [use]. rewrite bind_Val.
    destruct (get_up (rd_w s) a key v c (rd_data s) Hu Hh) as (w2 & rc & E & Es & _).
    rewrite E, Es. by eexists.
  - destruct (addrs !! ii) as [b|] eqn:Eb; [|apply lookup_ge_None in Eb; apply lookup_lt_Some in Ha; lia].
    cbn [use]. rewrite bind_Val.
    assert (exists w2 rc, get_from_replica (rd_w s) b key (rd_data s) = (w2, (rc, rd_data s, 0)) /\
      memcached_success rc = false /\ same_cluster (rd_w s) w2) as (w2 & rc & E & Es & Hsame).
    { destruct (Hd ii b ltac:(lia) Eb) as [Hdown|Hnone].
      - destruct (get_down (rd_w s) b key (rd_data s) Hdown) as (w2 & rc & E & Es & _ & Hs). eauto.
      - destruct (cl_up (rd_w s) b) eqn:Eu.
        + destruct (get_missing (rd_w s) b key (rd_data s) Eu Hnone) as (w2 & E & Hs).
          eexists w2, _. split; [exact E|]. split; [|done]. apply success_no. rewrite !elem_of_cons. auto.
        + destruct (get_down (rd_w s) b key (rd_data s) Eu) as (w2 & rc & E & Es & _ & Hs). eauto. }
    rewrite E, Es.
    destruct (bool_decide _); (apply IH; cbn [rd_w]; [by eapply first_holder_same|by rewrite (proj2 Hsame)|lia|lia]).
Qed.

(** What the conditional SET of a write leaves behind. *)
Lemma write_loop_first addrs args w i a : forall todo ii s,
  same_up w (wr_w s) -> first_up w addrs i a -> cl_keeps a args = true ->
  (ii <= i)%nat -> (i - ii < todo)%nat ->
  exists s' c, write_loop todo ii addrs K_set args s = Val s' /\
    memcached_success (wr_rc s') = true /\ same_up w (wr_w s') /\
    cl_held (wr_w s') a (sa_key args) = Some (sa_data args, c) /\
    length (wr_log s') = (length (wr_log s) + S (i - ii))%nat /\
    forall b k, b ∉ addrs -> cl_held (wr_w s') b k = cl_held (wr_w s) b k.
Proof using RL.
  induction todo as [|todo IH]; intros ii s Hsame Hfu Hkeep Hi Ht; [lia|]. cbn [write_loop].
  pose proof Hfu as (Ha & Hu & Hd). rewrite (no_second_try addrs i a ii Ha Hi). cbn [andb].
  destruct (decide (ii = i)) as [->|Hne].
  - rewrite Ha. cbn [use]. rewrite bind_Val.
    destruct (cl_set_up (wr_w s) a args) as (w1 & rc & c & E & Es & Hs1 & Hh & Hfr); [by rewrite Hsame|done|].
    rewrite E, Es. do 2 eexists. split; [done|]. cbn [wr_rc wr_w wr_log]. split; [done|].
    split; [by eapply same_up_trans|]. split; [done|].
    rewrite length_app, Nat.sub_diag. split; [done|]. intros b k Hb. apply Hfr. intros ->.
    by apply Hb, (list_elem_of_lookup_2 _ i).
  - destruct (addrs !! ii) as [b|] eqn:Eb; [|apply lookup_ge_None in Eb; apply lookup_lt_Some in Ha; lia].
    cbn [use]. rewrite bind_Val.
    destruct (cl_set_down (wr_w s) b args) as (w1 & rc & E & Es & Hc & Hs1 & Hh1);
      [rewrite Hsame; apply (Hd ii); [lia|done]|].
    rewrite E, Es, Hc.
    destruct (IH (S ii) (mkWriteState w1 rc ii (wr_status s) (wr_log s ++ [(b, rc)])))
      as (s' & c & E' & Hsu & Hs' & Hh & Hl & Hfr); try done; [|lia|lia|].
    + by eapply same_up_trans.
    + exists s', c. split; [done|]. repeat (split; [done|]). split.
      * rewrite Hl. cbn [wr_log]. rewrite length_app. cbn. lia.
      * intros b' k Hb'. by rewrite Hfr, Hh1.
Qed.

Lemma write_others_ok copies args : forall w a k,
  a ∉ copies -> same_up w (write_others copies args w) /\
  cl_held (write_others copies args w) a k = cl_held w a k.
Proof using RL.
  unfold write_others. induction copies as [|b copies IH]; intros w a k Ha; [done|]. cbn [foldl].
  apply not_elem_of_cons in Ha as [Hab Ha].
  destruct (cl_copy w b args) as [Hs Hh]. destruct (IH (memcached_set_noreply w b args) a k Ha) as [Hs2 Hh2].
  split; [by eapply same_up_trans|]. by rewrite Hh2, Hh.
Qed.

(** The copies go to write replicas after the one that took the record. *)
Lemma write_copies_later addrs (log : list (IP * Z * memcached_return_t)) i a x :
  NoDup addrs -> addrs !! i = Some a -> length log = S i ->
  x ∈ write_copies (W := W) addrs log -> x <> a /\ x ∈ addrs.
Proof using.
  intros Hnd Ha Hlen. unfold write_copies. destruct (memcached_success _);
    [|by intros ?%elem_of_nil]. rewrite Hlen. intros Hin.
  apply list_elem_of_lookup in Hin as [k Hk]. rewrite lookup_drop in Hk. split.
  - intros ->. pose proof (NoDup_lookup _ _ _ _ Hnd Ha Hk). lia.
  - by eapply list_elem_of_lookup_2.
Qed.
End replication.

(** ** Properties *)

(** C8: read your writes.  The write replicas of the key's vbucket are distinct,
    [a] is the first of them that is up, and it accepts and keeps the record;
    [a] is also a read replica, and each read replica listed before it is down,
    or is no write replica and has no record of the key (so it is when both
    lists are the same, and when the read replicas are the write replicas and
    others that have nothing yet).  Then a SET through write_data succeeds, and a
    read_data that follows returns NO_ERROR with exactly the data written,
    whatever other replicas are down, as long as none comes up or goes down in
    between. *)
Theorem read_your_writes {W IP : Type} `{ReplicaClusterLaws W (IP * Z)}
    `{!LibmemcachedLaws W (IP * Z)} (hash : bytes -> Z) (shp : bytes -> option (bytes * Z))
    (pit : bytes -> option IP) (key data : bytes) (expiry : Z) (ts : Z * Z) (w : W)
    (b : MemcachedBackend) (readers writers : list (IP * Z)) (i j : nat) (a : IP * Z)
    (Hok : backend_ok b)
    (Hread : get_replica_addresses shp pit (backend_vbucket_for_key hash key) Op_READ b = Val readers)
    (Hwrite : get_replica_addresses shp pit (backend_vbucket_for_key hash key) Op_WRITE b = Val writers)
    (Hdistinct : NoDup writers) (Hup : first_up w writers i a)
    (Hkeeps : cl_keeps a (mkStoreArgs key (backend_vbucket_for_key hash key) data expiry
                (write_flags ts)) = true)
    (Hreader : readers !! j = Some a)
    (Hbefore : forall k c, (k < j)%nat -> readers !! k = Some c ->
       cl_up w c = false \/ ((c ∉ writers) /\ cl_held w c key = None)) :
  exists w1 b1 r1 w2 b2 r2,
    write_data hash shp pit OpCode.SET key data 0 expiry ts w b = Val (w1, b1, r1) /\
    wrr_status r1 = ResultCode.NO_ERROR /\
    read_data hash shp pit key w1 b1 = Val (w2, b2, r2) /\
    rr_status r2 = ResultCode.NO_ERROR /\ rr_data r2 = data.
Proof.
  destruct (write_data_run hash shp pit OpCode.SET key data 0 expiry ts w b Hok)
    as (addrs' & s & b1 & Ea & El & (Ht & Hrc & _ & _) & E & Hb1 & Hrr & _);
    [rewrite !elem_of_cons; auto|].
  rewrite Hwrite in Ea. injection Ea as <-. pose proof Hup as (Ha & _ & _).
  set (args := mkStoreArgs _ _ _ _ _) in *. pose proof (attempts_enough writers i a Ha) as Hatt.
  destruct (write_loop_first writers args w i a (attempts_for writers) 0
    (mkWriteState w MEMCACHED_ERROR 0 ResultCode.NO_ERROR []))
    as (s' & c & El' & Hsu & Hsame & Hh & Hlen & Hfr); [done|done|done|lia|lia|].
  change (store_kind_for OpCode.SET 0) with K_set in El. rewrite El in El'. injection El' as <-.
  cbn [wr_log length wr_w] in Hlen, Hfr. rewrite Nat.sub_0_r in Hlen. rewrite Hrc in Hsu.
  set (copies := write_copies writers (wr_log s)) in *.
  pose proof (fun x => write_copies_later writers (wr_log s) i a x Hdistinct Ha Hlen) as Hcopies.
  fold copies in Hcopies.
  destruct (write_others_ok copies args (wr_w s) a key) as [Hs2 Hh2]; [by intros [? _]%Hcopies|].
  assert (Hup1 : same_up w (write_others copies args (wr_w s))) by (by eapply same_up_trans).
  change (sa_key args) with key in Hh. change (sa_data args) with data in Hh. rewrite Hh in Hh2.
  set (w1 := write_others _ _ (wr_w s)) in *.
  destruct (read_data_run hash shp pit key w1 b1 Hb1) as (addrs2 & s2 & b2 & Ea2 & El2 & _ & _ & _ & E2 & _).
  assert (addrs2 = readers) as ->.
  { unfold get_replica_addresses in Hread, Ea2. rewrite Hrr in Ea2. rewrite Hread in Ea2. congruence. }
  pose proof (attempts_enough readers j a Hreader) as Hatt2.
  destruct (read_loop_first readers key j a data c (attempts_for readers) 0
    (mkReadState w1 MEMCACHED_ERROR [] 0 false 0 [])) as (s3 & E3 & Hs3 & Hd3); try done; [|lia|lia|].
  { cbn [rd_w]. split; [done|]. split; [rewrite Hup1; apply Hup|]. intros k x Hk Hx. rewrite Hup1.
    destruct (Hbefore k x Hk Hx) as [?|[Hx' Hnone]]; [by left|right].
    destruct (write_others_ok copies args (wr_w s) x key) as [_ Hx2]; [by intros [_ ?]%Hcopies|].
    fold w1 in Hx2. by rewrite Hx2, Hfr. }
  rewrite El2 in E3. injection E3 as <-.
  do 6 eexists. split; [exact E|]. cbn [wrr_status]. split; [unfold write_status; by rewrite Hsu|].
  split; [exact E2|]. cbn [rr_status rr_data]. split; [unfold read_status; by rewrite Hs3|done].
Qed.

(** ** A reference cluster, and witnesses *)

(** Servers by number; those listed are down.  The key of the last mget is
    remembered for fetch_result. *)
Record ref_cluster : Type := mkRefCluster {
  rc_down : list (Z * Z);
  rc_held : list (Z * Z * bytes * (bytes * Z));   (* newest first *)
  rc_asked : bytes
}.

Definition rc_find (w : ref_cluster) (a : Z * Z) (k : bytes) : option (bytes * Z) :=
  snd <$> head (filter (fun e => e.1 = (a, k)) (rc_held w)).
Definition rc_is_up (w : ref_cluster) (a : Z * Z) : bool := bool_decide (a ∉ rc_down w).
(** memcached's limits on keys and records; a record with a negative expiry is
    dropped at once. *)
Definition rc_fits (args : store_args) : bool :=
  (0 <? len (sa_key args)) && (len (sa_key args) <=? 250) && (len (sa_data args) <=? 2 ^ 20).
Definition rc_put (w : ref_cluster) (a : Z * Z) (args : store_args) : ref_cluster :=
  mkRefCluster (rc_down w)
    (if sa_expiry args <? 0 then filter (fun e => e.1 <> (a, sa_key args)) (rc_held w)
     else (a, sa_key args, (sa_data args, 1 + Z.of_nat (length (rc_held w)))) :: rc_held w)
    (rc_asked w).

#[export] Instance ref_cluster_lib : Libmemcached ref_cluster (Z * Z) := {
  memcached_success rc := bool_decide (rc = MEMCACHED_SUCCESS);
  memcached_mget w a key :=
    if rc_is_up w a then (mkRefCluster (rc_down w) (rc_held w) key, MEMCACHED_SUCCESS)
    else (w, MEMCACHED_CONNECTION_FAILURE);
  memcached_fetch_result w a :=
    match rc_find w a (rc_asked w) with
    | Some (v, c) => (w, (MEMCACHED_SUCCESS, v, c))
    | None => (w, (MEMCACHED_NOTFOUND, [], 0))
    end;
  memcached_store kind w a args :=
    if negb (rc_fits args) then (w, MEMCACHED_other 33)
    else if rc_is_up w a then
      match kind, rc_find w a (sa_key args) with
      | K_add, Some _ | K_replace, None | K_cas _, None => (w, MEMCACHED_NOTSTORED)
      | K_cas c, Some (_, c') =>
          if c =? c' then (rc_put w a args, MEMCACHED_SUCCESS) else (w, MEMCACHED_DATA_EXISTS)
      | _, _ => (rc_put w a args, MEMCACHED_SUCCESS)
      end
    else (w, MEMCACHED_CONNECTION_FAILURE);
  memcached_set_noreply w a args := if rc_fits args && rc_is_up w a then rc_put w a args else w;
  memcached_delete w a key :=
    if rc_is_up w a then
      (mkRefCluster (rc_down w) (filter (fun e => e.1 <> (a, key)) (rc_held w)) (rc_asked w),
       match rc_find w a key with Some _ => MEMCACHED_SUCCESS | None => MEMCACHED_NOTFOUND end)
    else (w, MEMCACHED_CONNECTION_FAILURE)
}.

#[export] Instance ref_cluster_lib_laws : LibmemcachedLaws ref_cluster (Z * Z).
Proof.
  split; [done|]. intros rc Hin. cbn. apply bool_decide_eq_false_2. intros ->.
  rewrite !elem_of_cons in Hin. by destruct Hin as [?|[?|[?|[?|[?|?%elem_of_nil]]]]].
Qed.

#[export] Instance ref_cluster_state : ReplicaCluster ref_cluster (Z * Z) := {
  cl_up := rc_is_up;
  cl_held := rc_find;
  cl_keeps a args := rc_fits args && (0 <=? sa_expiry args)
}.

Lemma rc_find_put w a args : 0 <= sa_expiry args ->
  rc_find (rc_put w a args) a (sa_key args) = Some (sa_data args, 1 + Z.of_nat (length (rc_held w))).
Proof.
  intros He. unfold rc_find, rc_put. cbn [rc_held]. rewrite (proj2 (Z.ltb_ge _ _)) by lia.
  by rewrite filter_cons_True.
Qed.

Lemma rc_find_put_ne w a a' args k : a' <> a -> rc_find (rc_put w a args) a' k = rc_find w a' k.
Proof.
  intros Hne. unfold rc_find, rc_put. cbn [rc_held]. destruct (_ <? 0).
  - rewrite list_filter_filter. do 2 f_equal. apply list_filter_iff. intros [x y]. cbn.
    split; [by intros [? _]|]. intros ->. split; [done|]. congruence.
  - rewrite filter_cons_False; [done|]. cbn. congruence.
Qed.

#[export] Instance ref_cluster_laws : ReplicaClusterLaws ref_cluster (Z * Z).
Proof.
  split; cbn.
  - intros w a key Hu. rewrite Hu. do 3 eexists. split; [done|]. split; [done|].
    split; [|destruct (rc_find w a key) as [[v c]|] eqn:E].
    2: { exists MEMCACHED_SUCCESS. unfold rc_find in *. cbn [rc_held rc_asked] in *. by rewrite E. }
    2: { exists [], 0. unfold rc_find in *. cbn [rc_held rc_asked] in *. by rewrite E. }
    done.
  - intros w a key Hu. rewrite Hu. do 2 eexists. split; [done|]. done.
  - intros w a args Hu [Hf He]%andb_true_iff. rewrite Hf, Hu. do 3 eexists. split; [done|].
    split; [done|]. split; [done|]. split; [apply rc_find_put; lia|].
    intros a' k Hne. by apply rc_find_put_ne.
  - intros w a args Hu. rewrite Hu. destruct (rc_fits args); cbn [negb];
      (do 2 eexists; split; [done|]; split; [done|]; split; [|done];
       by apply bool_decide_eq_false_2; intros [?|[?|?]]).
  - intros w a args. destruct (rc_fits args && rc_is_up w a); [|done]. split; [done|].
    intros a' k Hne. by apply rc_find_put_ne.
Qed.

(** A view that puts every vbucket on servers 1 and 2; addresses are one byte. *)
Definition two_servers : list bytes := [lit "1"; lit "2"].
Definition example_backend : MemcachedBackend :=
  new_view (mkStoreView two_servers (fun _ => two_servers) (fun _ => two_servers))
    (MemcachedBackend_new true true [31000; 31001; 40000; 70000; 70001]).
Definition byte_address (s : bytes) : option (bytes * Z) := Some (s, 11211).
Definition byte_ip (s : bytes) : option Z := Z_of_byte <$> head s.
Definition example_cluster : ref_cluster := mkRefCluster [(49, 11211)] [] [].

Lemma example_backend_ok : backend_ok example_backend.
Proof. split; reflexivity. Qed.

(** Server 1 is down; the data is written to and read from server 2. *)
Lemma read_your_writes_witness :
  exists w1 b1 r1 w2 b2 r2,
    write_data (fun k => len k) byte_address byte_ip OpCode.SET (lit "impi") (lit "{}") 0 300 (5, 0)
      example_cluster example_backend = Val (w1, b1, r1) /\
    wrr_status r1 = ResultCode.NO_ERROR /\
    read_data (fun k => len k) byte_address byte_ip (lit "impi") w1 b1 = Val (w2, b2, r2) /\
    rr_status r2 = ResultCode.NO_ERROR /\ rr_data r2 = lit "{}".
Proof.
  apply (read_your_writes (fun k => len k) byte_address byte_ip (lit "impi") (lit "{}") 300 (5, 0)
    example_cluster example_backend [(49, 11211); (50, 11211)] [(49, 11211); (50, 11211)] 1 1 (50, 11211)).
  - exact example_backend_ok.
  - vm_compute. reflexivity.
  - vm_compute. reflexivity.
  - apply (bool_decide_unpack _). vm_compute. exact I.
  - split; [reflexivity|]. split; [reflexivity|]. intros [|j] b Hj Hb; [|lia].
    injection Hb as <-. reflexivity.
  - vm_compute. reflexivity.
  - reflexivity.
  - intros [|k] c Hk Hc; [|lia]. injection Hc as <-. left. reflexivity.
Defined.

Lemma comm_state_tracks_failures_witness :
  exists b', update_vbucket_comm_state 7 Comm_FAILED example_backend = Val b' /\
    mb_vbucket_comm_fail_count b' = 1 /\ mb_alarm_log b' = [true].
Proof.
  destruct (comm_state_tracks_failures 7 Comm_FAILED example_backend example_backend_ok)
    as (b' & E & Hok & Hs & Ha & _); [unfold vbuckets; lia|].
  exists b'. split; [exact E|]. rewrite (bo_count _ Hok), Ha, Hs. split; vm_compute; reflexivity.
Defined.


(** A REPLACE of a missing record is refused by the first server that answers. *)
Lemma write_data_correct_witness :
  exists w' b' r,
    write_data (fun k => len k) byte_address byte_ip OpCode.REPLACE (lit "impi") (lit "{}") 0 300 (5, 0)
      example_cluster example_backend = Val (w', b', r) /\
    wrr_status r = ResultCode.ITEM_NOT_STORED /\ wrr_copies r = [].
Proof.
  destruct (write_data_correct (fun k => len k) byte_address byte_ip OpCode.REPLACE (lit "impi")
    (lit "{}") 0 300 (5, 0) example_cluster example_backend example_backend_ok)
    as (addrs & kind & w1 & w' & b' & r & Ea & E & _ & _ & _ & _ & _ & Hst & _); [repeat constructor|].
  exists w', b', r. split; [exact E|].
  assert (Hlog : wrr_log r = [((49, 11211), MEMCACHED_CONNECTION_FAILURE); ((50, 11211), MEMCACHED_NOTSTORED)] /\
    wrr_copies r = []).
  { vm_compute in E. injection E as _ _ <-. split; reflexivity. }
  destruct Hlog as [Hlog Hc]. rewrite Hlog in Hst. split; [exact Hst | exact Hc].
Defined.

Lemma delete_data_correct_witness :
  exists w' status log,
    delete_data (fun k => len k) byte_address byte_ip (lit "impi") example_cluster example_backend =
      Val (w', status, log) /\ map fst log = [(49, 11211); (50, 11211)] /\
    status = ResultCode.KEY_NOT_FOUND.
Proof.
  destruct (delete_data_correct (fun k => len k) byte_address byte_ip (lit "impi") example_cluster
    example_backend example_backend_ok) as (addrs & w' & status & log & Ea & E & Hm & _).
  exists w', status, log. split; [exact E|]. vm_compute in Ea. injection Ea as <-.
  split; [exact Hm|]. vm_compute in E. by injection E as _ <- _.
Defined.
