(* ===== verification/Proxy.v ===== *)
(** * The proxy server

    Models class ProxyServer (include/proxy_server.hpp, src/proxy_server.cpp):
    starting up, accepting connections, and the thread that serves one
    connection with its three handlers.  The memcached backend is used through
    an interface ([Backend]) which Backend.v's MemcachedBackend implements. *)

From Stdlib Require Import ZArith Lia Strings.Byte.
From stdpp Require Import prelude.
From S2P Require Import Prelude WireUtils Messages WireSpec Connection Backend Replication Statistics.

Open Scope Z_scope.

(** ** The interface to the backend *)

(** read_data: the CAS is [None] when the caller's variable was not written. *)
Class ProxyBackend (B : Type) := {
  be_read : bytes -> B -> res (B * (ResultCode * bytes * option Z));
  be_write : OpCode -> bytes -> bytes -> Z -> Z -> B -> res (B * ResultCode);
  be_delete : bytes -> B -> res (B * ResultCode)
}.

(** What the proxy relies on: every operation returns, and a read writes the
    CAS. *)
Class ProxyBackendLaws (B : Type) `{ProxyBackend B} := {
  be_ok : B -> Prop;
  be_read_ok key b : be_ok b -> exists b' st data cas,
    be_read key b = Val (b', (st, data, Some cas)) /\ be_ok b';
  be_write_ok op key data cas expiry b :
    be_ok b -> op ∈ [OpCode.ADD; OpCode.SET; OpCode.REPLACE] ->
    exists b' st, be_write op key data cas expiry b = Val (b', st) /\ be_ok b';
  be_delete_ok key b : be_ok b -> exists b' st, be_delete key b = Val (b', st) /\ be_ok b'
}.

(** ** Starting up *)

Definition proxy_port : Z := 11311.

(** What start sees of the system. *)
Record start_env : Type := mkStartEnv {
  se_inet_pton4 : Z;       (* result of inet_pton(AF_INET, ...) *)
  se_inet_pton6 : Z;
  se_socket : Z;
  se_setsockopt : Z;
  se_bind : Z;
  se_listen : Z;
  se_pthread_create : Z
}.

Inductive address_family : Type := AF_INET | AF_INET6.

(** The family bound to (if the address parses), and the returned flag. *)
Definition parse_bind_addr (env : start_env) (bind_addr : bytes) : option address_family :=
  if bool_decide (bind_addr = []) then Some AF_INET6
  else if se_inet_pton4 env =? 1 then Some AF_INET
  else if se_inet_pton6 env =? 1 then Some AF_INET6
  else None.

(** The listening socket (0 until created) and the result of start. *)
Definition start (env : start_env) (bind_addr : bytes) : Z * bool :=
  match parse_bind_addr env bind_addr with
  | None => (0, false)
  | Some _ =>
      let listen_sock := se_socket env in
      if listen_sock <? 0 then (listen_sock, false)
      else if se_setsockopt env <? 0 then (listen_sock, false)
      else if se_bind env <? 0 then (listen_sock, false)
      else if se_listen env <? 0 then (listen_sock, false)
      else if se_pthread_create env <? 0 then (listen_sock, false)
      else (listen_sock, true)
  end.

(** ** Accepting connections *)

(** One accept: its result, the client's address (inet_ntop) and port, and what
    pthread_create returns for its thread. *)
Record accepted_client : Type := mkAccepted {
  ac_sock : Z;
  ac_family : address_family;
  ac_host : bytes;
  ac_port : Z;
  ac_pthread_create : Z
}.

(** The address used for logging. *)
Definition addr_string (a : accepted_client) : bytes :=
  match ac_family a with
  | AF_INET => ac_host a ++ lit ":" ++ to_string (ac_port a)
  | AF_INET6 => lit "[" ++ ac_host a ++ lit "]" ++ lit ":" ++ to_string (ac_port a)
  end.

(** What became of an accepted connection: a positive error of pthread_create
    is not noticed, and leaves the connection open with nobody serving it. *)
Inductive conn_fate : Type := Serving | Closed | Abandoned.

Definition fate_of (create_rc : Z) : conn_fate :=
  if create_rc <? 0 then Closed else if create_rc =? 0 then Serving else Abandoned.

(** The loop, over the connections that arrive: what becomes of each.  It never
    returns: it waits for ever when no more arrive, or exits when accept fails. *)
Fixpoint listen_thread_fn (clients : list accepted_client) :
    list (Z * bytes * conn_fate) * failure :=
  match clients with
  | [] => ([], Blocked)
  | a :: clients =>
      if ac_sock a <? 0 then ([], Exited 1)
      else
        let '(handled, f) := listen_thread_fn clients in
        ((ac_sock a, addr_string a, fate_of (ac_pthread_create a)) :: handled, f)
  end.

(** ** Serving a connection *)

Section serve.
Context {B S : Type} `{ProxyBackend B} `{Peer S}.

(** The state the connection threads share. *)
Record ProxyServer : Type := mkProxy {
  px_backend : B;
  px_num_active_threads : Z     (* std::atomic<int32_t> *)
}.

Definition version_string : bytes := lit "1.6.0_beta1_106_g62c7e7a".

Definition handle_get (get_req : BaseReq) (c : Connection S) (b : B) : res (Connection S * B) :=
  let base := brq_base get_req in
  '(b, (status, value, cas)) ← be_read (bm_key base) b;
  let key := if response_needs_key get_req then bm_key base else [] in
  cas ← use cas;
  '(c, _) ← send c (GetRsp_new (ResultCode_value status) (bm_opaque base) cas value 0 key);
  mret (c, b).

(** [op] is the request's op code as an OpCode. *)
Definition handle_set_add_replace (op : OpCode) (req : SetAddReplaceReq) (c : Connection S)
    (b : B) : res (Connection S * B) :=
  let base := brq_base (sar_req req) in
  expiry ← use (sar_expiry req);
  '(b, status) ← be_write op (bm_key base) (sar_value req) (bm_cas base) (i32 expiry) b;
  '(c, _) ← send c (SetAddReplaceRsp_new (bm_op_code base) (ResultCode_value status)
                      (bm_opaque base) 0);
  mret (c, b).

Definition handle_delete (delete_req : BaseReq) (c : Connection S) (b : B) :
    res (Connection S * B) :=
  let base := brq_base delete_req in
  '(b, status) ← be_delete (bm_key base) b;
  '(c, _) ← send c (DeleteRsp_new (ResultCode_value status) (bm_opaque base));
  mret (c, b).

(** The switch on the op code: the dynamic_casts give NULL, which is then
    dereferenced, on a message of another class.  The flag is [keep_going]. *)
Definition handle_request (m : message) (c : Connection S) (b : B) :
    res (Connection S * B * bool) :=
  let op := bm_op_code (base_of m) in
  let keep (r : res (Connection S * B)) : res (Connection S * B * bool) :=
    '(c, b) ← r; mret (c, b, true) in
  let sar op :=
    match m with
    | M_SetReq r | M_AddReq r | M_ReplaceReq r => keep (handle_set_add_replace op r c b)
    | _ => Fail Undefined
    end in
  if (op =? OpCode_value OpCode.GET) || (op =? OpCode_value OpCode.GETK) then
    match m with M_GetReq r => keep (handle_get r c b) | _ => Fail Undefined end
  else if op =? OpCode_value OpCode.ADD then sar OpCode.ADD
  else if op =? OpCode_value OpCode.SET then sar OpCode.SET
  else if op =? OpCode_value OpCode.REPLACE then sar OpCode.REPLACE
  else if op =? OpCode_value OpCode.DELETE then
    match m with M_DeleteReq r => keep (handle_delete r c b) | _ => Fail Undefined end
  else if op =? OpCode_value OpCode.VERSION then
    '(c, _) ← send c (VersionRsp_new (ResultCode_value ResultCode.NO_ERROR)
                        (bm_opaque (base_of m)) version_string);
    mret (c, b, true)
  else mret (c, b, false).

(** One turn of the loop. *)
Definition connection_step (c : Connection S) (b : B) : res (Connection S * B * bool) :=
  '(c, status, msg) ← recv c;
  match status with
  | Status.OK =>
      m ← use msg;
      if is_request m then handle_request m c b else mret (c, b, false)
  | _ => mret (c, b, false)
  end.

Fixpoint connection_loop (fuel : nat) (c : Connection S) (b : B) : res (Connection S * B) :=
  match fuel with
  | O => Fail Out_of_fuel
  | Datatypes.S fuel =>
      '(c, b, keep_going) ← connection_step c b;
      if (keep_going : bool) then connection_loop fuel c b else mret (c, b)
  end.

Definition connection_thread_fn (fuel : nat) (c : Connection S) (px : ProxyServer) :
    res (Connection S * ProxyServer) :=
  let active := i32 (px_num_active_threads px + 1) in
  '(c, b) ← connection_loop fuel c (px_backend px);
  mret (disconnect c, mkProxy b (i32 (active - 1))).
End serve.
Arguments ProxyServer B : clear implicits.

(** ** Specification *)

(** A request the proxy serves, as it comes off the wire. *)
Definition supported (m : message) : Prop :=
  dispatched m = true /\
  match m with
  | M_GetReq r => bm_key (brq_base r) <> []
  | M_SetReq r | M_AddReq r | M_ReplaceReq r => is_Some (sar_expiry r)
  | M_DeleteReq _ | M_VersionReq _ => True
  | _ => False
  end.

(** A response to a request: its op code and opaque value, and its key when it
    is a GETK. *)
Definition answers (m rsp : message) : Prop :=
  is_response rsp = true /\
  bm_op_code (base_of rsp) = bm_op_code (base_of m) /\
  bm_opaque (base_of rsp) = bm_opaque (base_of m) /\
  bm_key (base_of rsp) =
    (if bm_op_code (base_of m) =? OpCode_value OpCode.GETK then bm_key (base_of m) else []).

Section spec.
Context {B : Type} `{ProxyBackend B}.

(** [rsp] carries what the backend answered to [m] in state [b]. *)
Definition served (m : message) (b b' : B) (rsp : message) : Prop :=
  match m with
  | M_GetReq r => exists st value cas,
      be_read (bm_key (brq_base r)) b = Val (b', (st, value, Some cas)) /\
      rsp = GetRsp_new (ResultCode_value st) (bm_opaque (brq_base r)) cas value 0
              (if response_needs_key r then bm_key (brq_base r) else [])
  | M_SetReq r | M_AddReq r | M_ReplaceReq r => exists op st expiry,
      OpCode_value op = bm_op_code (brq_base (sar_req r)) /\ sar_expiry r = Some expiry /\
      be_write op (bm_key (brq_base (sar_req r))) (sar_value r) (bm_cas (brq_base (sar_req r)))
        (i32 expiry) b = Val (b', st) /\
      rsp = SetAddReplaceRsp_new (bm_op_code (brq_base (sar_req r))) (ResultCode_value st)
              (bm_opaque (brq_base (sar_req r))) 0
  | M_DeleteReq r => exists st,
      be_delete (bm_key (brq_base r)) b = Val (b', st) /\
      rsp = DeleteRsp_new (ResultCode_value st) (bm_opaque (brq_base r))
  | M_VersionReq r => b' = b /\ rsp = VersionRsp_new 0 (bm_opaque (brq_base r)) version_string
  | _ => False
  end.

(** The requests served one after the other. *)
Fixpoint served_all (ms : list message) (b b' : B) (rsps : list message) : Prop :=
  match ms, rsps with
  | [], [] => b' = b
  | m :: ms, rsp :: rsps => exists b1, served m b b1 rsp /\ answers m rsp /\ served_all ms b1 b' rsps
  | _, _ => False
  end.
End spec.

(** ** Lemmas *)

Section serve_facts.
Context {B : Type} `{BL : ProxyBackendLaws B}.
Implicit Types (c : Connection (list bytes)) (b : B).

Definition sent (c : Connection (list bytes)) (w : bytes) : Connection (list bytes) :=
  mkConnection (c_address c) (c_sock c) (c_buffer c) (c_rcvtimeo c) (c_in c) (c_peer c ++ [w]).

Lemma send_recorder c m w : 0 <= c_sock c -> to_wire m = Val w -> send c m = Val (sent c w, true).
Proof using.
  intros Hs Hw. unfold send. destruct (Z.ltb_spec (c_sock c) 0); [lia|].
  rewrite Hw, bind_Val. cbn. unfold sent. by rewrite app_nil_r.
Qed.

Lemma to_wire_GetRsp st opaque cas value key :
  exists w, to_wire (GetRsp_new st opaque cas value 0 key) = Val w.
Proof using.
  unfold to_wire. cbn. unfold GetRsp_generate_extra. cbn. destruct (st =? _); by eexists.
Qed.

Lemma op_code_of m op : op_is m op = true -> bm_op_code (base_of m) = OpCode_value op.
Proof using. unfold op_is. by intros ?%Z.eqb_eq. Qed.

(** The outcome of serving one request. *)
Definition serves (m : message) c b (r : res (Connection (list bytes) * B * bool)) : Prop :=
  exists b' rsp w, r = Val (sent c w, b', true) /\ to_wire rsp = Val w /\ served m b b' rsp /\
    answers m rsp /\ be_ok b'.

Lemma handle_sar_ok op r c b :
  op ∈ [OpCode.ADD; OpCode.SET; OpCode.REPLACE] -> is_Some (sar_expiry r) ->
  bm_op_code (brq_base (sar_req r)) = OpCode_value op -> be_ok b -> 0 <= c_sock c ->
  exists b' st w expiry, handle_set_add_replace op r c b = Val (sent c w, b') /\
    sar_expiry r = Some expiry /\
    be_write op (bm_key (brq_base (sar_req r))) (sar_value r) (bm_cas (brq_base (sar_req r)))
      (i32 expiry) b = Val (b', st) /\
    to_wire (SetAddReplaceRsp_new (bm_op_code (brq_base (sar_req r))) (ResultCode_value st)
      (bm_opaque (brq_base (sar_req r))) 0) = Val w /\ be_ok b'.
Proof using.
  intros Hop [expiry He] Hoc Hb Hs. unfold handle_set_add_replace. rewrite He. cbn [use].
  rewrite bind_Val.
  destruct (be_write_ok op (bm_key (brq_base (sar_req r))) (sar_value r)
    (bm_cas (brq_base (sar_req r))) (i32 expiry) b Hb Hop) as (b' & st & E & Hb').
  rewrite E, bind_Val. eexists b', st, _, expiry.
  erewrite send_recorder by done. by rewrite bind_Val.
Qed.

Lemma handle_get_ok r c b :
  be_ok b -> 0 <= c_sock c ->
  exists b' st value cas w, handle_get r c b = Val (sent c w, b') /\
    be_read (bm_key (brq_base r)) b = Val (b', (st, value, Some cas)) /\
    to_wire (GetRsp_new (ResultCode_value st) (bm_opaque (brq_base r)) cas value 0
      (if response_needs_key r then bm_key (brq_base r) else [])) = Val w /\ be_ok b'.
Proof using.
  intros Hb Hs. unfold handle_get.
  destruct (be_read_ok (bm_key (brq_base r)) b Hb) as (b' & st & value & cas & E & Hb').
  rewrite E, bind_Val. cbn [use]. rewrite bind_Val.
  destruct (to_wire_GetRsp (ResultCode_value st) (bm_opaque (brq_base r)) cas value
    (if response_needs_key r then bm_key (brq_base r) else [])) as [w Hw].
  exists b', st, value, cas, w. rewrite (send_recorder _ _ w), bind_Val by done. done.
Qed.

Lemma sar_answers m r op st :
  message_base m = inl (sar_req r) -> op ∈ [OpCode.ADD; OpCode.SET; OpCode.REPLACE] ->
  bm_op_code (brq_base (sar_req r)) = OpCode_value op ->
  answers m (SetAddReplaceRsp_new (bm_op_code (brq_base (sar_req r))) st
    (bm_opaque (brq_base (sar_req r))) 0).
Proof using.
  intros Hm Hop Hoc. unfold answers, base_of. rewrite Hm. cbn. rewrite Hoc.
  split; [done|]. split; [done|]. split; [done|].
  rewrite !elem_of_cons in Hop. by destruct Hop as [->|[->|[->|?%elem_of_nil]]].
Qed.

Lemma get_answers r st value cas :
  bm_key (brq_base r) <> [] -> dispatched (M_GetReq r) = true ->
  answers (M_GetReq r) (GetRsp_new st (bm_opaque (brq_base r)) cas value 0
    (if response_needs_key r then bm_key (brq_base r) else [])).
Proof using.
  intros Hk Hd. cbn [dispatched] in Hd. apply orb_true_iff in Hd as [Hd|Hd]; apply op_code_of in Hd;
    unfold answers, response_needs_key; rewrite Hd;
    change (base_of (M_GetReq r)) with (brq_base r) in *; rewrite Hd; cbn [Z.eqb OpCode.OpCode_value Pos.eqb].
  - done.
  - destruct (bm_key (brq_base r)) eqn:E; [done|]. done.
Qed.

Lemma handle_request_ok m c b :
  supported m -> be_ok b -> 0 <= c_sock c -> serves m c b (handle_request m c b).
Proof using.
  intros [Hd Hm] Hb Hs. unfold handle_request, serves.
  assert (Hsar : forall op r, op ∈ [OpCode.ADD; OpCode.SET; OpCode.REPLACE] ->
    message_base m = inl (sar_req r) -> is_Some (sar_expiry r) ->
    bm_op_code (brq_base (sar_req r)) = OpCode_value op ->
    (forall b' st e, sar_expiry r = Some e ->
       be_write op (bm_key (brq_base (sar_req r))) (sar_value r) (bm_cas (brq_base (sar_req r)))
         (i32 e) b = Val (b', st) ->
       served m b b' (SetAddReplaceRsp_new (bm_op_code (brq_base (sar_req r))) (ResultCode_value st)
         (bm_opaque (brq_base (sar_req r))) 0)) ->
    serves m c b ('(c, b) ← handle_set_add_replace op r c b; mret (c, b, true))).
  { intros op r Hop Hmb He Hoc Hserved.
    destruct (handle_sar_ok op r c b Hop He Hoc Hb Hs) as (b' & st & w & e & E & Ee & Ew & Hw & Hb').
    rewrite E, bind_Val. exists b'. do 2 eexists. split; [done|]. split; [exact Hw|].
    split; [by eapply Hserved|]. split; [by eapply sar_answers | done]. }
  destruct m as [r|r|r|r|r|r|r|r|r|r|r|r|r|r|r]; cbn [dispatched] in Hm, Hd; try done.
  - unfold op_is in Hd. rewrite Hd.
    destruct (handle_get_ok r c b Hb Hs) as (b' & st & value & cas & w & E & Er & Hw & Hb').
    rewrite E, bind_Val. exists b'. do 2 eexists. split; [done|]. split; [exact Hw|].
    split; [by do 3 eexists|]. split; [|done]. by apply get_answers.
  - rewrite (op_code_of _ _ Hd). cbn [Z.eqb orb OpCode.OpCode_value Pos.eqb].
    destruct (be_delete_ok (bm_key (brq_base r)) b Hb) as (b' & st & E & Hb').
    unfold handle_delete. rewrite E, bind_Val. erewrite send_recorder by done.
    exists b', (DeleteRsp_new (ResultCode_value st) (bm_opaque (brq_base r))). eexists.
    split; [reflexivity|]. split; [reflexivity|]. split; [by eexists|].
    split; [|done]. apply op_code_of in Hd. unfold answers. rewrite Hd. done.
  - rewrite (op_code_of _ _ Hd). cbn [Z.eqb orb OpCode.OpCode_value Pos.eqb].
    erewrite send_recorder by done.
    exists b, (VersionRsp_new 0 (bm_opaque (brq_base r)) version_string). eexists.
    split; [reflexivity|]. split; [reflexivity|].
    split; [done|]. split; [|done]. apply op_code_of in Hd. unfold answers. rewrite Hd. done.
  - rewrite (op_code_of _ _ Hd). cbn [Z.eqb orb OpCode.OpCode_value Pos.eqb].
    apply (Hsar OpCode.SET r); try done; [set_solver|by apply op_code_of in Hd|].
    intros b' st e He Hw. exists OpCode.SET, st, e. apply op_code_of in Hd. done.
  - rewrite (op_code_of _ _ Hd). cbn [Z.eqb orb OpCode.OpCode_value Pos.eqb].
    apply (Hsar OpCode.ADD r); try done; [set_solver|by apply op_code_of in Hd|].
    intros b' st e He Hw. exists OpCode.ADD, st, e. apply op_code_of in Hd. done.
  - rewrite (op_code_of _ _ Hd). cbn [Z.eqb orb OpCode.OpCode_value Pos.eqb].
    apply (Hsar OpCode.REPLACE r); try done; [set_solver|by apply op_code_of in Hd|].
    intros b' st e He Hw. exists OpCode.REPLACE, st, e. apply op_code_of in Hd. done.
Qed.

Lemma supported_request m : supported m -> is_request m = true.
Proof using. intros [_ Hm]. by destruct m. Qed.

Lemma connection_loop_serves ps : forall fuel c b,
  Forall (fun p => wf_packet p /\ supported (message_of_packet p)) ps ->
  0 <= c_sock c -> be_ok b -> holds_stream c (mjoin (encode_packet <$> ps)) [R_data []] ->
  len (mjoin (encode_packet <$> ps)) < 2 ^ 32 -> (length ps < fuel)%nat ->
  exists c' b' rsps ws, connection_loop fuel c b = Val (c', b') /\
    served_all (map message_of_packet ps) b b' rsps /\
    Forall2 (fun rsp w => to_wire rsp = Val w) rsps ws /\
    c_peer c' = c_peer c ++ ws /\ c_sock c' = -1 /\ be_ok b'.
Proof using.
  induction ps as [|p ps IH]; intros [|fuel] c b Hps Hs Hb Hh Hl Hf; try (cbn in Hf; lia);
    cbn [connection_loop]; unfold connection_step.
  - destruct (recv_closed c ltac:(lia) Hh) as (c' & -> & Hs' & Hp'). rewrite !bind_Val.
    exists c', b, [], []. rewrite app_nil_r. repeat split; try done.
  - apply Forall_cons in Hps as [[Hwf Hsup] Hps].
    change (mjoin (encode_packet <$> p :: ps))
      with (encode_packet p ++ mjoin (encode_packet <$> ps)) in Hh, Hl.
    destruct (recv_packet c p _ _ ltac:(lia) Hwf Hh Hl) as (c1 & -> & Hs1 & Hp1 & _ & Hh1).
    rewrite bind_Val. cbn [use]. rewrite bind_Val, supported_request by done.
    destruct (handle_request_ok (message_of_packet p) c1 b Hsup Hb ltac:(lia))
      as (b1 & rsp & w & -> & Hw & Hsv & Han & Hb1).
    rewrite bind_Val. cbv beta iota.
    destruct (IH fuel (sent c1 w) b1 Hps) as (c' & b' & rsps & ws & E & Hall & Hws & Hp' & Hs' & Hb');
      try done.
    + cbn. lia.
    + rewrite len_app in Hl. pose proof (len_nonneg (encode_packet p)). lia.
    + cbn in Hf. lia.
    + exists c', b', (rsp :: rsps), (w :: ws). split; [done|]. split; [exists b1; done|].
      split; [by constructor|]. split; [|done]. rewrite Hp'. cbn [sent c_peer].
      by rewrite Hp1, <- app_assoc.
Qed.
End serve_facts.

(** The counter is decremented as often as it is incremented, also at its
    limit. *)
Lemma thread_count_balanced n : in_i32 n -> i32 (i32 (n + 1) - 1) = n.
Proof.
  unfold in_i32, i32. intros Hn. replace ((n + 1 + 2 ^ 31) mod 2 ^ 32 - 2 ^ 31 - 1 + 2 ^ 31)
    with ((n + 1 + 2 ^ 31) mod 2 ^ 32 - 1) by lia.
  rewrite Zminus_mod_idemp_l, Z.mod_small; lia.
Qed.

(** ** The memcached backend implements the interface *)

Section implementation.
Context {W IP : Type}.
Context (hash : bytes -> Z) (shp : bytes -> option (bytes * Z)) (pit : bytes -> option IP).
Context `{LL : LibmemcachedLaws W (IP * Z)}.

(** The backend, the servers behind it, and the CLOCK_REALTIME readings that
    the writes will get. *)
Record backend_state : Type := mkBackendState {
  bs_world : W;
  bs_backend : MemcachedBackend;
  bs_realtime : list (Z * Z)
}.

#[export] Instance memcached_backend : ProxyBackend backend_state := {
  be_read key s :=
    '(w, b, r) ← read_data hash shp pit key (bs_world s) (bs_backend s);
    mret (mkBackendState w b (bs_realtime s), (rr_status r, rr_data r, rr_cas r));
  be_write op key data cas expiry s :=
    '(w, b, r) ← write_data hash shp pit op key data cas expiry
                   (default (0, 0) (head (bs_realtime s))) (bs_world s) (bs_backend s);
    mret (mkBackendState w b (tail (bs_realtime s)), wrr_status r);
  be_delete key s :=
    '(w, st, _) ← delete_data hash shp pit key (bs_world s) (bs_backend s);
    mret (mkBackendState w (bs_backend s) (bs_realtime s), st)
}.

(** Every vbucket has a usable read replica. *)
Definition replicas_present (b : MemcachedBackend) : Prop :=
  forall vb addrs, get_replica_addresses shp pit vb Op_READ b = Val addrs -> addrs <> [].
Definition backend_state_ok (s : backend_state) : Prop :=
  backend_ok (bs_backend s) /\ replicas_present (bs_backend s).

Lemma replicas_present_same b b' :
  mb_read_replicas b' = mb_read_replicas b -> replicas_present b -> replicas_present b'.
Proof using. unfold replicas_present, get_replica_addresses. by intros ->. Qed.

(** The backend's operations always return; a read leaves the caller's CAS
    unset exactly when the key has no usable read replica. *)
Lemma backend_read_total key s : backend_ok (bs_backend s) ->
  exists addrs s' st value cas, be_read key s = Val (s', (st, value, cas)) /\
    get_replica_addresses shp pit (backend_vbucket_for_key hash key) Op_READ (bs_backend s) = Val addrs /\
    (cas = None <-> addrs = []) /\ backend_ok (bs_backend s') /\
    mb_read_replicas (bs_backend s') = mb_read_replicas (bs_backend s).
Proof using LL.
  destruct s as [w b ts]. cbn [be_read memcached_backend bs_world bs_backend bs_realtime]. intros Hok.
  destruct (read_data_run hash shp pit key w b Hok)
    as (addrs & s & b' & Ea & _ & (Hrc & _) & (Hl & _) & _ & E & Hb' & Hrr & _).
  rewrite E, bind_Val. eexists addrs, _, _, _, _. split; [done|]. split; [done|]. split; [|done].
  cbn [rr_cas]. unfold read_cas. destruct addrs as [|a addrs].
  - split; [done|]. intros _. destruct Hl as [Hl|(? & ? & ? & _)]; [|done]. rewrite take_nil in Hl.
    destruct (rd_log s) as [|? ?] eqn:El; [|done]. rewrite Hrc. cbn [last_rc last fmap option_fmap option_map default].
    rewrite success_no by apply list_elem_of_here. done.
  - by destruct (_ && _).
Qed.

Lemma backend_write_total op key data cas expiry s :
  backend_ok (bs_backend s) -> op ∈ [OpCode.ADD; OpCode.SET; OpCode.REPLACE] ->
  exists s' st, be_write op key data cas expiry s = Val (s', st) /\ backend_ok (bs_backend s') /\
    mb_read_replicas (bs_backend s') = mb_read_replicas (bs_backend s).
Proof using LL.
  destruct s as [w b ts]. cbn [be_write memcached_backend bs_world bs_backend bs_realtime]. intros Hok Hop.
  destruct (write_data_run hash shp pit op key data cas expiry (default (0, 0) (head ts)) w b Hok Hop)
    as (addrs & s & b' & _ & _ & _ & E & Hb' & Hrr & _).
  rewrite E, bind_Val. do 2 eexists. done.
Qed.

Lemma backend_delete_total key s : backend_ok (bs_backend s) ->
  exists s' st, be_delete key s = Val (s', st) /\ bs_backend s' = bs_backend s.
Proof using.
  destruct s as [w b ts]. cbn [be_delete memcached_backend bs_world bs_backend bs_realtime]. intros Hok.
  destruct (replica_addresses_ok hash shp pit key Op_READ b Hok) as (addrs & Ea).
  unfold delete_data. rewrite Ea, bind_Val.
  destruct (delete_loop addrs key w ResultCode.TEMPORARY_FAILURE) as [[w' st] log]. by do 2 eexists.
Qed.

#[export] Instance memcached_backend_laws : ProxyBackendLaws backend_state.
Proof using LL.
  refine {| be_ok := backend_state_ok |}.
  - intros key s [Hok Hrep].
    destruct (backend_read_total key s Hok) as (addrs & s' & st & value & cas & E & Ea & Hc & Hok' & Hrr).
    destruct cas as [cas|]; [|by destruct (Hrep _ _ Ea); apply Hc]. do 4 eexists. split; [exact E|].
    split; [done|]. by apply (replicas_present_same (bs_backend s)).
  - intros op key data cas expiry s [Hok Hrep] Hop.
    destruct (backend_write_total op key data cas expiry s Hok Hop) as (s' & st & E & Hok' & Hrr).
    do 2 eexists. split; [exact E|]. split; [done|]. by apply (replicas_present_same (bs_backend s)).
  - intros key s [Hok Hrep]. destruct (backend_delete_total key s Hok) as (s' & st & E & Hs).
    do 2 eexists. split; [exact E|]. split; by rewrite Hs.
Defined.
End implementation.

(** ** Properties *)

(** C5: the proxy answers every request of a connection, in order: when a client
    sends any sequence of supported requests, cut into any chunks, and closes,
    the connection thread returns, the client got exactly one response per
    request, in the order of the requests, each with the request's op code,
    opaque value (and key for GETK) and the backend's result for it, the
    backend's operations having been carried out in that order; and the count
    of active threads is what it was. *)
Theorem proxy_answers_in_order {B : Type} `{ProxyBackendLaws B} (fuel : nat)
    (c : Connection (list bytes)) (px : ProxyServer B) (ps : list packet)
    (Hreqs : Forall (fun p => wf_packet p /\ supported (message_of_packet p)) ps)
    (Hopen : 0 <= c_sock c) (Hback : be_ok (px_backend px))
    (Hstream : holds_stream c (mjoin (encode_packet <$> ps)) [R_data []])
    (Hsize : len (mjoin (encode_packet <$> ps)) < 2 ^ 32) (Hfuel : (length ps < fuel)%nat)
    (Hactive : in_i32 (px_num_active_threads px)) :
  exists c' px' rsps ws,
    connection_thread_fn fuel c px = Val (c', px') /\
    served_all (map message_of_packet ps) (px_backend px) (px_backend px') rsps /\
    Forall2 (fun rsp w => to_wire rsp = Val w) rsps ws /\
    c_peer c' = c_peer c ++ ws /\
    px_num_active_threads px' = px_num_active_threads px.
Proof.
  destruct (connection_loop_serves ps fuel c (px_backend px) Hreqs Hopen Hback Hstream Hsize Hfuel)
    as (c' & b' & rsps & ws & E & Hall & Hws & Hp & _ & _).
  unfold connection_thread_fn. rewrite E, bind_Val. do 2 eexists. exists rsps, ws.
  split; [done|]. split; [done|]. split; [done|]. split.
  - unfold disconnect. by destruct (0 <? c_sock c').
  - cbn [px_num_active_threads]. apply thread_count_balanced. done.
Qed.

Lemma send_Val {S} `{Peer S} (c : Connection S) m w :
  to_wire m = Val w -> exists c' ok, send c m = Val (c', ok).
Proof.
  intros Hw. unfold send. destruct (c_sock c <? 0); [by do 2 eexists|]. rewrite Hw, bind_Val.
  destruct (on_send (c_peer c) w) as [[? ?]|]; by do 2 eexists.
Qed.

(** The requests whose service is undefined: stores without an expiry, and reads
    of a key that has no usable replica. *)
Definition undefined_request {IP} hash shp (pit : bytes -> option IP) (b : MemcachedBackend)
    (m : message) : Prop :=
  match m with
  | M_SetReq r | M_AddReq r | M_ReplaceReq r => sar_expiry r = None
  | M_GetReq r =>
      get_replica_addresses shp pit (backend_vbucket_for_key hash (bm_key (brq_base r))) Op_READ b = Val []
  | _ => False
  end.

Section undefined.
Context {W IP S : Type} `{Peer S}.
Context (hash : bytes -> Z) (shp : bytes -> option (bytes * Z)) (pit : bytes -> option IP).
Context `{LL : LibmemcachedLaws W (IP * Z)}.
#[local] Existing Instance memcached_backend.
Implicit Types (c : Connection S) (s : backend_state (W := W)).

Lemma handle_sar_undefined op r c s :
  backend_ok (bs_backend s) -> op ∈ [OpCode.ADD; OpCode.SET; OpCode.REPLACE] ->
  ('(c, b) ← handle_set_add_replace (H := memcached_backend hash shp pit) op r c s; mret (c, b, true)) =
    Fail Undefined <-> sar_expiry r = None.
Proof using LL.
  intros Hok Hop. unfold handle_set_add_replace. destruct (sar_expiry r) as [e|]; [|done].
  cbn [use]. rewrite bind_Val.
  destruct (backend_write_total hash shp pit op (bm_key (brq_base (sar_req r))) (sar_value r)
    (bm_cas (brq_base (sar_req r))) (i32 e) s Hok Hop) as (s' & st & E & _). rewrite E, bind_Val.
  by destruct (send_Val c (SetAddReplaceRsp_new (bm_op_code (brq_base (sar_req r))) (ResultCode_value st)
    (bm_opaque (brq_base (sar_req r))) 0) _ eq_refl) as (c' & ok & ->).
Qed.

Lemma handle_get_undefined r c s :
  backend_ok (bs_backend s) ->
  ('(c, b) ← handle_get (H := memcached_backend hash shp pit) r c s; mret (c, b, true)) = Fail Undefined <->
  undefined_request hash shp pit (bs_backend s) (M_GetReq r).
Proof using LL.
  intros Hok. unfold handle_get, undefined_request.
  destruct (backend_read_total hash shp pit (bm_key (brq_base r)) s Hok)
    as (addrs & s' & st & value & cas & E & Ea & Hc & _). rewrite E, bind_Val, Ea.
  destruct cas as [cas|]; cbn [use].
  - rewrite bind_Val. destruct (to_wire_GetRsp (ResultCode_value st) (bm_opaque (brq_base r)) cas value
      (if response_needs_key r then bm_key (brq_base r) else [])) as [w Hw].
    destruct (send_Val c _ _ Hw) as (c' & ok & ->). split; [done|]. intros [= ->].
    by destruct Hc as [_ Hc]; specialize (Hc eq_refl).
  - split; [|done]. intros _. by rewrite (proj1 Hc eq_refl).
Qed.

Lemma handle_request_undefined m c s :
  dispatched m = true -> is_request m = true -> backend_ok (bs_backend s) ->
  handle_request (H := memcached_backend hash shp pit) m c s = Fail Undefined <->
  undefined_request hash shp pit (bs_backend s) m.
Proof using LL.
  intros Hd Hreq Hok. unfold handle_request.
  destruct m as [r|r|r|r|r|r|r|r|r|r|r|r|r|r|r]; cbn [dispatched] in Hd; try done;
    try (apply op_code_of in Hd; rewrite Hd; cbn [Z.eqb orb OpCode.OpCode_value Pos.eqb]).
  - apply negb_true_iff in Hd. rewrite !orb_false_iff in Hd.
    destruct Hd as (((((((_ & N1) & N2) & N3) & N4) & N5) & N6) & N7). unfold op_is in *.
    by rewrite N1, N2, N3, N4, N5, N6, N7.
  - unfold op_is in Hd. rewrite Hd. by apply handle_get_undefined.
  - unfold handle_delete. destruct (backend_delete_total hash shp pit (bm_key (brq_base r)) s Hok)
      as (s' & st & E & _). rewrite E, bind_Val.
    by destruct (send_Val c (DeleteRsp_new (ResultCode_value st) (bm_opaque (brq_base r))) _ eq_refl)
      as (c' & ok & ->).
  - by destruct (send_Val c (VersionRsp_new (ResultCode_value ResultCode.NO_ERROR)
      (bm_opaque (base_of (M_VersionReq r))) version_string) _ eq_refl) as (c' & ok & ->).
  - apply handle_sar_undefined; [done|set_solver].
  - apply handle_sar_undefined; [done|set_solver].
  - apply handle_sar_undefined; [done|set_solver].
  - done.
Qed.
End undefined.

(** C30: exactly when a turn of the connection loop has undefined behaviour,
    whatever a client sends and whatever state the backend is in: when the
    client sends a SET, ADD or REPLACE whose extras are too short to hold an
    expiry, or a GET of a key whose vbucket has no usable read replica (the CAS
    in the response was then never set).  In particular the casts are safe. *)
Theorem proxy_casts_safe {W IP S : Type} `{Peer S} (hash : bytes -> Z)
    (shp : bytes -> option (bytes * Z)) (pit : bytes -> option IP) `{LL : LibmemcachedLaws W (IP * Z)}
    (c : Connection S) (s : backend_state (W := W)) (Hok : backend_ok (bs_backend s)) :
  connection_step (H := memcached_backend hash shp pit) c s = Fail Undefined <->
  exists c1 m, recv c = Val (c1, Status.OK, Some m) /\ is_request m = true /\
    undefined_request hash shp pit (bs_backend s) m.
Proof.
  unfold connection_step. destruct (recv c) as [[[c1 status] msg]|f] eqn:E.
  - rewrite bind_Val. pose proof (recv_inv _ _ _ _ E) as [(-> & m & -> & Hd & _)|(Hst & -> & _)].
    + cbn [use]. rewrite bind_Val. destruct (is_request m) eqn:Er.
      * rewrite handle_request_undefined by done. split; [by intros ?; exists c1, m|].
        by intros (c2 & m2 & [= <- <-] & _ & ?).
      * split; [done|]. intros (c2 & m2 & [= <- <-] & Hr & _). congruence.
    + split; [by destruct status|]. by intros (c2 & m2 & [=] & _).
  - split; [|by intros (c2 & m2 & [=] & _)]. intros [= ->]. unfold recv in E.
    destruct (c_sock c =? -1); [done|].
    apply bind_Fail_inv in E as [E|([[[? ?] ?] ?] & _ & E)]; [|done].
    apply recv_loop_fail in E as [?|[? _]]; done.
Qed.

(** QUIT, an unrecognised op code, or a response ends the connection: the
    thread leaves its loop without sending anything or touching the backend. *)
Theorem proxy_closes_on_other {B S : Type} `{ProxyBackend B} `{Peer S} (c c1 : Connection S) (b : B)
    (m : message) (Hrecv : recv c = Val (c1, Status.OK, Some m))
    (Hother : is_response m = true \/
       bm_op_code (base_of m) ∉ OpCode_value <$> [OpCode.GET; OpCode.GETK; OpCode.ADD; OpCode.SET;
         OpCode.REPLACE; OpCode.DELETE; OpCode.VERSION]) :
  connection_step c b = Val (c1, b, false).
Proof.
  unfold connection_step. rewrite Hrecv, bind_Val. cbn [use]. rewrite bind_Val.
  destruct (is_request m) eqn:Er; [|done].
  destruct Hother as [Hr|Ho]; [unfold is_response in Hr; by rewrite Er in Hr|].
  unfold handle_request. cbn [fmap list_fmap] in Ho. rewrite !not_elem_of_cons in Ho.
  destruct Ho as (N1 & N2 & N3 & N4 & N5 & N6 & N7 & _).
  by rewrite !(proj2 (Z.eqb_neq _ _)) by done.
Qed.

(** start succeeds exactly when the bind address is empty or parses as an IPv4
    or IPv6 address and no system call returns a negative value. *)
Lemma start_succeeds_iff (env : start_env) (bind_addr : bytes) :
  (start env bind_addr).2 = true <->
  (bind_addr = [] \/ se_inet_pton4 env = 1 \/ se_inet_pton6 env = 1) /\
  0 <= se_socket env /\ 0 <= se_setsockopt env /\ 0 <= se_bind env /\ 0 <= se_listen env /\
  0 <= se_pthread_create env.
Proof.
  unfold start, parse_bind_addr. case_bool_decide as Hb;
    [|destruct (Z.eqb_spec (se_inet_pton4 env) 1); [|destruct (Z.eqb_spec (se_inet_pton6 env) 1)]];
    repeat match goal with |- context [?a <? 0] => destruct (Z.ltb_spec a 0); cbn [snd] end;
    split; intros; repeat split; try done; try lia; intuition (lia || done).
Qed.

(** ** Witnesses *)

Definition request_packet (op : OpCode) (opaque : Z) : packet :=
  mkPacket true (OpCode_value op)
    (if bool_decide (op = OpCode.SET) then be_bytes 4 0 ++ be_bytes 4 300 else [])
    (if bool_decide (op = OpCode.VERSION) then [] else lit "impi")
    (if bool_decide (op = OpCode.SET) then lit "{}" else []) 0 opaque 0.
Definition example_requests : list packet :=
  [request_packet OpCode.SET 11; request_packet OpCode.GETK 12; request_packet OpCode.VERSION 13].

(** Requests over a cluster whose first server is down. *)
Definition example_px : ProxyServer (backend_state (W := ref_cluster)) :=
  mkProxy (mkBackendState example_cluster example_backend [(5, 0)]) 4.
Definition example_client : Connection (list bytes) :=
  ServerConnection_new 9 (lit "10.0.0.9:4000") []
    [R_data (mjoin (encode_packet <$> example_requests)); R_data []].

Lemma example_replicas : replicas_present byte_address byte_ip example_backend.
Proof.
  intros vb addrs. unfold get_replica_addresses.
  destruct (mb_read_replicas example_backend !! Z.to_nat vb) as [l|] eqn:E; [|done].
  assert (l = two_servers) as ->.
  { cbn [example_backend new_view mb_read_replicas sv_read_replicas] in E.
    apply list_lookup_fmap_Some in E as (? & -> & _). done. }
  cbn [use]. rewrite bind_Val. intros [= <-]. done.
Qed.

Lemma example_requests_ok :
  Forall (fun p => wf_packet p /\ supported (message_of_packet p)) example_requests.
Proof.
  repeat (constructor; [split; [decide_wf|]; split; [vm_compute; reflexivity|]|]); [| | |constructor].
  - vm_compute. eexists. reflexivity.
  - vm_compute. discriminate.
  - exact I.
Qed.

Lemma proxy_answers_in_order_witness :
  exists c' px' rsps ws,
    connection_thread_fn (H := memcached_backend (fun k => len k) byte_address byte_ip) 4
      example_client example_px = Val (c', px') /\
    Forall2 (fun rsp w => to_wire rsp = Val w) rsps ws /\ c_peer c' = ws /\
    px_num_active_threads px' = 4.
Proof.
  destruct (proxy_answers_in_order (H0 := memcached_backend_laws (fun k => len k) byte_address byte_ip)
    4 example_client example_px example_requests) as (c' & px' & rsps & ws & E & _ & Hws & Hp & Ha).
  - exact example_requests_ok.
  - discriminate.
  - split; [exact example_backend_ok | exact example_replicas].
  - exists [mjoin (encode_packet <$> example_requests)]. split; [repeat constructor; vm_compute; discriminate|].
    split; [reflexivity|]. vm_compute. reflexivity.
  - vm_compute. reflexivity.
  - repeat constructor.
  - unfold in_i32. cbn. lia.
  - exists c', px', rsps, ws. split; [exact E|]. split; [exact Hws|]. split; [exact Hp | exact Ha].
Defined.

(** A SET whose extras hold only flags. *)
Definition short_set : packet :=
  mkPacket true (OpCode_value OpCode.SET) (be_bytes 4 0) (lit "impi") (lit "{}") 0 11 0.
Definition short_client : Connection (list bytes) :=
  ServerConnection_new 9 [] [] [R_data (encode_packet short_set)].

Lemma proxy_casts_safe_witness :
  exists c1 m, recv short_client = Val (c1, Status.OK, Some m) /\ is_request m = true /\
    undefined_request (fun k => len k) byte_address byte_ip example_backend m.
Proof.
  refine (proj1 (proxy_casts_safe (fun k => len k) byte_address byte_ip short_client
    (px_backend example_px) example_backend_ok) _).
  vm_compute. reflexivity.
Defined.

Definition quit_client : Connection (list bytes) :=
  ServerConnection_new 9 [] [] [R_data (encode_packet (request_packet OpCode.QUIT 11))].

Lemma proxy_closes_on_other_witness :
  exists c1, connection_step (H := memcached_backend (fun k => len k) byte_address byte_ip)
    quit_client (px_backend example_px) = Val (c1, px_backend example_px, false).
Proof.
  eexists. refine (proxy_closes_on_other (H := memcached_backend (fun k => len k) byte_address byte_ip)
    quit_client _ (px_backend example_px) (message_of_packet (request_packet OpCode.QUIT 11)) _ _).
  - vm_compute. reflexivity.
  - right. apply (bool_decide_unpack _). vm_compute. exact I.
Defined.
