(* ===== verification/Control.v ===== *)
(** * The control thread

    Models the rest of class Astaire (src/astaire.cpp): the control thread's
    loop, do_resync, polling and tagging the local memcached, updating the
    view, and the two signal handlers.  All of them hold the object's lock, and
    the control thread only releases it to wait at the end of an iteration, so
    the system is a sequence of whole steps.  The local memcached is a [Peer];
    a resync runs its taps as in Resync.v; reading the configuration gives the
    new view or fails. *)

From Stdlib Require Import ZArith Lia Strings.Byte.
From stdpp Require Import prelude.
From S2P Require Import Prelude WireUtils StdMap Messages WireSpec Connection Worklist.
From S2P Require Import LocalStore Statistics TapThread TapSync Resync.

Open Scope Z_scope.

Inductive PollResult : Type := UP_TO_DATE | OUT_OF_DATE | Poll_ERROR.

(** The members of Astaire the control thread works with, and what it reports:
    alarm actions (true: set) and the resyncs done (true: full). *)
Record Astaire : Type := mkAstaire {
  as_terminated : bool;
  as_view_updated : bool;
  as_full_resync_requested : bool;
  as_view : view;
  as_has_alarm : bool;          (* _alarm is not NULL *)
  as_self : bytes;
  as_global_stats : AstaireGlobalStatistics;
  as_per_conn_stats : AstairePerConnectionStatistics;
  as_alarm_log : list bool;
  as_resync_log : list bool;
  as_failed_log : list bool     (* per resync: did it leave vbuckets unstreamed? *)
}.

(** What the resyncs to come meet: the results of pthread_create, and the tap
    sessions. *)
Record tap_net (T : Type) : Type := mkTapNet {
  tn_creates : list Z;
  tn_sessions : list (bytes * tap_session T)
}.
Arguments mkTapNet {T}.
Arguments tn_creates {T}.
Arguments tn_sessions {T}.

Section control.
Context {L T : Type} `{Peer L} `{Peer T}.
Context (memcached_generate_hash_value : bytes -> Z).
Context (split_host_port : bytes -> option (bytes * Z)).
(** The system calls of a connection to the local memcached. *)
Context (local_env : net_env).

(** ** Talking to the local memcached *)

(** One request and response on a connection of its own; [None] when there was
    no sensible response. *)
Definition local_req_rsp (self : bytes) (req : message) (l : L) : res (L * option message) :=
  let '(c, rc) := connect local_env (ClientConnection_new self l []) in
  if negb (rc =? 0) then mret (l, None)
  else
    '(c, _) ← send c req;
    '(c, status, base_msg) ← recv c;
    if decide (status = Status.OK) then
      m ← use base_msg;
      if negb (is_response m) || negb (bm_op_code (base_of m) =? bm_op_code (base_of req))
      then mret (c_peer c, None)
      else mret (c_peer c, Some m)
    else mret (c_peer c, None).

Definition poll_local_memcached (self : bytes) (l : L) : res (L * PollResult) :=
  '(l, rsp) ← local_req_rsp self (GetReq_new ASTAIRE_TAG_KEY 0) l;
  match rsp with
  | None => mret (l, Poll_ERROR)
  | Some (M_GetRsp get_rsp) =>
      let code := brs_status (gr_rsp get_rsp) in
      if code =? ResultCode_value ResultCode.NO_ERROR then mret (l, UP_TO_DATE)
      else if code =? ResultCode_value ResultCode.KEY_NOT_FOUND then mret (l, OUT_OF_DATE)
      else mret (l, Poll_ERROR)
  | Some _ => Fail Undefined
  end.

Definition tag_local_memcached (self : bytes) (l : L) : res (L * bool) :=
  '(l, rsp) ← local_req_rsp self
    (SetReq_new ASTAIRE_TAG_KEY (vbucket_for_key memcached_generate_hash_value ASTAIRE_TAG_KEY)
       ASTAIRE_TAG_VALUE 0 0) l;
  mret (l, match rsp with Some _ => true | None => false end).

Definition untag_local_memcached (self : bytes) (l : L) : res (L * bool) :=
  '(l, rsp) ← local_req_rsp self (DeleteReq_new ASTAIRE_TAG_KEY 0) l;
  mret (l, match rsp with Some _ => true | None => false end).

(** ** Resyncing *)

Definition as_log_alarm (set : bool) (a : Astaire) : Astaire :=
  mkAstaire (as_terminated a) (as_view_updated a) (as_full_resync_requested a) (as_view a)
    (as_has_alarm a) (as_self a) (as_global_stats a) (as_per_conn_stats a)
    (as_alarm_log a ++ [set]) (as_resync_log a) (as_failed_log a).
Definition as_with_stats (g : AstaireGlobalStatistics) (p : AstairePerConnectionStatistics)
    (a : Astaire) : Astaire :=
  mkAstaire (as_terminated a) (as_view_updated a) (as_full_resync_requested a) (as_view a)
    (as_has_alarm a) (as_self a) g p (as_alarm_log a) (as_resync_log a) (as_failed_log a).
Definition as_with_flags (view_updated full_resync_requested : bool) (a : Astaire) : Astaire :=
  mkAstaire (as_terminated a) view_updated full_resync_requested (as_view a)
    (as_has_alarm a) (as_self a) (as_global_stats a) (as_per_conn_stats a)
    (as_alarm_log a) (as_resync_log a) (as_failed_log a).
Definition as_log_resync (full failed : bool) (a : Astaire) : Astaire :=
  mkAstaire (as_terminated a) (as_view_updated a) (as_full_resync_requested a) (as_view a)
    (as_has_alarm a) (as_self a) (as_global_stats a) (as_per_conn_stats a)
    (as_alarm_log a) (as_resync_log a ++ [full]) (as_failed_log a ++ [failed]).

Definition do_resync (full_resync : bool) (net : tap_net T) (l : L) (a : Astaire) :
    res (tap_net T * L * Astaire) :=
  let owl := calculate_worklist (as_view a) (as_self a) full_resync in
  match owl with
  | [] => mret (net, l, as_log_resync full_resync false a)
  | _ =>
      let g := gs_set Total_buckets (owl_total_buckets owl) (as_global_stats a) in
      let x := mkTapWorld l g (as_per_conn_stats a) [] (tn_creates net) (tn_sessions net) in
      let a := if as_has_alarm a then as_log_alarm true a else a in
      '(x, unstreamed, _) ← run_worklist memcached_generate_hash_value split_host_port (as_self a) x owl;
      let a := if as_has_alarm a then as_log_alarm false a else a in
      p ← ps_reset (tw_conns x);
      let a := as_with_stats (gs_reset (tw_global x)) p a in
      mret (mkTapNet (tw_creates x) (tw_sessions x), tw_local x,
            as_log_resync full_resync (bool_decide (unstreamed <> [])) a)
  end.

(** The first part of an iteration: which resync is needed.  A requested full
    resync first untags the local memcached. *)
Definition control_check (l : L) (a : Astaire) : res (L * Astaire * (bool * bool)) :=
  let resync := as_view_updated a in
  let '(resync, full_resync) :=
    if as_full_resync_requested a then (true, true) else (resync, false) in
  l ← (if as_full_resync_requested a then
         '(l, _) ← untag_local_memcached (as_self a) l; mret l
       else mret l);
  let a := as_with_flags false false a in
  '(l, r) ← poll_local_memcached (as_self a) l;
  mret (l, a, match r with OUT_OF_DATE => (true, true) | _ => (resync, full_resync) end).

(** One turn of the loop in control_thread; when nothing needs doing it waits,
    up to 10 seconds, for a signal. *)
Definition control_iteration (net : tap_net T) (l : L) (a : Astaire) :
    res (tap_net T * L * Astaire) :=
  '(l, a, (resync, full_resync)) ← control_check l a;
  if (resync : bool) then
    '(net, l, a) ← do_resync full_resync net l a;
    '(l, _) ← tag_local_memcached (as_self a) l;
    mret (net, l, a)
  else if as_has_alarm a then mret (net, l, as_log_alarm false a)
  else Fail Undefined.

(** ** The other threads *)

(** update_view: [None] when the configuration cannot be read. *)
Definition update_view (conf : option view) (a : Astaire) : Astaire * bool :=
  match conf with
  | None => (a, false)
  | Some v =>
      (mkAstaire (as_terminated a) true (as_full_resync_requested a) v (as_has_alarm a)
         (as_self a) (as_global_stats a) (as_per_conn_stats a) (as_alarm_log a)
         (as_resync_log a) (as_failed_log a), true)
  end.

Definition reload_config (conf : option view) (a : Astaire) : Astaire := (update_view conf a).1.

Definition trigger_full_resync (conf : option view) (a : Astaire) : Astaire :=
  let a := (update_view conf a).1 in as_with_flags (as_view_updated a) true a.

(** The constructor.  Its updater for SIGHUP then runs reload_config once; the
    one for SIGUSR1 does not run until the signal comes. *)
Definition Astaire_new (v : view) (has_alarm : bool) (g : AstaireGlobalStatistics)
    (p : AstairePerConnectionStatistics) (self : bytes) : Astaire :=
  mkAstaire false false false v has_alarm self g p [] [] [].

(** What the destructor does under the lock; it then waits for the control thread
    to leave its loop. *)
Definition terminate (a : Astaire) : Astaire :=
  mkAstaire true (as_view_updated a) (as_full_resync_requested a) (as_view a) (as_has_alarm a)
    (as_self a) (as_global_stats a) (as_per_conn_stats a) (as_alarm_log a) (as_resync_log a)
    (as_failed_log a).

(** The steps of the system under the lock. *)
Inductive control_event : Type :=
| E_control                          (* an iteration of the control thread *)
| E_reload (conf : option view)      (* SIGHUP *)
| E_trigger (conf : option view)     (* SIGUSR1 *)
| E_terminate.

Inductive control_step : tap_net T * L * Astaire -> control_event -> tap_net T * L * Astaire -> Prop :=
| step_control w l a w' l' a' :
    as_terminated a = false -> control_iteration w l a = Val (w', l', a') ->
    control_step (w, l, a) E_control (w', l', a')
| step_reload w l a conf : control_step (w, l, a) (E_reload conf) (w, l, reload_config conf a)
| step_trigger w l a conf : control_step (w, l, a) (E_trigger conf) (w, l, trigger_full_resync conf a)
| step_terminate w l a : control_step (w, l, a) E_terminate (w, l, terminate a).

Inductive control_steps :
    tap_net T * L * Astaire -> list control_event -> tap_net T * L * Astaire -> Prop :=
| steps_nil s : control_steps s [] s
| steps_cons s1 e s2 es s3 :
    control_step s1 e s2 -> control_steps s2 es s3 -> control_steps s1 (e :: es) s3.
End control.

(** ** Lemmas *)

Lemma message_of_packet_base p :
  base_of (message_of_packet p) = packet_base p /\ is_request (message_of_packet p) = p_request p.
Proof.
  unfold message_of_packet. destruct (p_request p);
    repeat match goal with |- context [if ?b then _ else _] => destruct b end; done.
Qed.

Section local_facts.
Context {L : Type} `{LML : LocalMemcachedLaws L}.
Context (hash : bytes -> Z) (local_env : net_env) (self : bytes).
Implicit Types (l : L).

(** The local memcached accepts connections, and others leave the tag alone. *)
Context (Henv : env_ok local_env).
Context (Hconn : forall l, (connect local_env (ClientConnection_new self l [])).2 = 0).
Context (Hspare : spares_tag (L := L)).
Context (Hstamp : stamp_ok lm_epoch 0).

Lemma local_req_rsp_reply req pkt l l' p :
  to_wire req = Val (encode_packet pkt) -> replies l pkt l' p -> p_request p = false ->
  p_op p = bm_op_code (base_of req) ->
  local_req_rsp local_env self req l = Val (l', Some (message_of_packet p)).
Proof using Henv Hconn.
  intros Hw Hr Hreq Hop. unfold local_req_rsp. specialize (Hconn l).
  destruct (connect local_env (ClientConnection_new self l [])) as [c rc] eqn:E. cbn in Hconn. subst rc.
  apply connect_zero in E as (_ & Hs & Hb & Hi & Hp); [|done]. cbn in Hb, Hi, Hp. cbn [negb Z.eqb].
  rewrite <- Hp in Hr.
  destruct (exchange c req pkt l' p ltac:(done) Hw Hr) as (c1 & c2 & Es & Er & _ & Hp2 & _).
  rewrite Es, bind_Val, Er, bind_Val, decide_True by done. cbn [use]. rewrite bind_Val.
  destruct (message_of_packet_base p) as [Eb Eq]. unfold is_response. rewrite Eb, Eq, Hreq.
  cbn [packet_base bm_op_code negb orb]. rewrite Hop, Z.eqb_refl. cbn. by rewrite Hp2.
Qed.

Lemma tag_key_ok : key_ok ASTAIRE_TAG_KEY.
Proof using. vm_compute. split; [done|discriminate]. Qed.

Lemma poll_ok n l :
  lm_ok (S n) l ->
  exists l', poll_local_memcached local_env self l =
      Val (l', match lm_store l ASTAIRE_TAG_KEY with Some _ => UP_TO_DATE | None => OUT_OF_DATE end) /\
    lm_ok n l' /\ lm_store l' ASTAIRE_TAG_KEY = lm_store l ASTAIRE_TAG_KEY /\
    forall k, k <> ASTAIRE_TAG_KEY -> lm_store l' k = lm_store (lm_foreign l) k.
Proof using Henv Hconn Hspare LML.
  intros Hok. destruct (lm_get n l ASTAIRE_TAG_KEY Hok tag_key_ok) as (l' & p & Hr & Hok' & Hs & Ha).
  exists l'. split; [|split; [done|]; split; [rewrite Hs; by apply (Hspare n)|by intros; apply Hs]].
  unfold poll_local_memcached.
  pose proof Ha as (Hq & Hop & _ & Hcode).
  rewrite (local_req_rsp_reply _ _ l l' p (GetReq_new_wire _) Hr Hq Hop), bind_Val.
  unfold message_of_packet. rewrite Hq, Hop. cbn [Z.eqb OpCode.OpCode_value].
  cbn [gr_rsp packet_rsp brs_status]. rewrite (Hspare n l Hok) in Hcode.
  destruct (lm_store l ASTAIRE_TAG_KEY) as [r|].
  - destruct Hcode as (-> & _). done.
  - by rewrite Hcode.
Qed.

Lemma untag_ok n l :
  lm_ok (S n) l ->
  exists l', untag_local_memcached local_env self l = Val (l', true) /\ lm_ok n l' /\
    lm_store l' ASTAIRE_TAG_KEY = None /\
    forall k, k <> ASTAIRE_TAG_KEY -> lm_store l' k = lm_store (lm_foreign l) k.
Proof using Henv Hconn LML.
  intros Hok.
  destruct (lm_delete n l ASTAIRE_TAG_KEY Hok tag_key_ok) as (l' & p & Hr & Hok' & Hq & Hop & Hs).
  exists l'. split; [|split; [done|]].
  - unfold untag_local_memcached.
    by rewrite (local_req_rsp_reply _ _ l l' p (DeleteReq_new_wire _) Hr Hq Hop), bind_Val.
  - split; [|intros k Hk]; rewrite Hs; unfold update;
      [by rewrite decide_True | by rewrite decide_False].
Qed.

Lemma tag_ok n l :
  lm_ok (S n) l ->
  exists l', tag_local_memcached hash local_env self l = Val (l', true) /\ lm_ok n l' /\
    is_Some (lm_store l' ASTAIRE_TAG_KEY) /\
    forall k, k <> ASTAIRE_TAG_KEY -> lm_store l' k = lm_store (lm_foreign l) k.
Proof using Henv Hconn Hstamp LML.
  intros Hok. set (vb := vbucket_for_key hash ASTAIRE_TAG_KEY).
  assert (Hvb : in_u16 vb) by (pose proof (vbucket_range hash ASTAIRE_TAG_KEY); unfold in_u16, vb; lia).
  destruct (lm_set n l OpCode.SET ASTAIRE_TAG_KEY vb ASTAIRE_TAG_VALUE 0 0 0) as
    (l' & p & c & Hr & Hok' & Hq & Hop & Hs); try done; try apply tag_key_ok.
  exists l'. split; [|split; [done|]].
  - unfold tag_local_memcached. fold vb.
    by rewrite (local_req_rsp_reply _ _ l l' p (SetReq_new_wire _ _ _ _ _) Hr Hq Hop), bind_Val.
  - assert (forall k, lm_store l' k = update (lm_store (lm_foreign l)) ASTAIRE_TAG_KEY
      (Some (mkRecord ASTAIRE_TAG_VALUE 0 c)) k) as Hs'.
    { intros k. rewrite Hs. cbn [accepts]. by destruct (lm_store (lm_foreign l) ASTAIRE_TAG_KEY). }
    split; [|intros k Hk]; rewrite Hs'; unfold update;
      [rewrite decide_True by done; by eexists | by rewrite decide_False].
Qed.
End local_facts.

Lemma ps_reset_ok p : exists p', ps_reset p = Val p' /\ ps_ok p'.
Proof.
  unfold ps_reset. destruct (get_timestamp_us (ps_recorder p)) as [t r].
  destruct (ps_refresh_ok true (mkPerConnStats (set_timestamp (tk_now t) r) [])) as (p' & E & Hok & _);
    [constructor|]. by exists p'.
Qed.

(** Records other than the tag are neither lost nor replaced by older ones. *)
Definition kept {L} `{LocalMemcached L} (l l' : L) : Prop := forall k r, k <> ASTAIRE_TAG_KEY ->
  lm_store l k = Some r -> exists r', lm_store l' k = Some r' /\ i32 (r_flags r) <= i32 (r_flags r').

Section kept_facts.
Context {L : Type} `{LML : LocalMemcachedLaws L}.

#[export] Instance kept_preorder : PreOrder (kept (L := L)).
Proof using.
  split.
  - intros l k r _ Hr. exists r. split; [done|lia].
  - intros l1 l2 l3 H1 H2 k r Hk Hr. destruct (H1 k r Hk Hr) as (r2 & E2 & ?).
    destruct (H2 k r2 Hk E2) as (r3 & E3 & ?). exists r3. split; [done|lia].
Qed.

Lemma kept_foreign now n (l l' : L) :
  foreign_fresh (L := L) now -> lm_ok (S n) l ->
  (forall k, k <> ASTAIRE_TAG_KEY -> lm_store l' k = lm_store (lm_foreign l) k) -> kept l l'.
Proof using.
  intros Hf Hok Hs k r Hk Hr. rewrite Hs by done. by apply (foreign_no_older now n l).
Qed.

Lemma kept_held hash bs ms (l l' : L) :
  kept l l' -> held hash bs ms (lm_store l) -> held hash bs ms (lm_store l').
Proof using.
  intros Hk Hc m Hm Hv Hp. destruct (Hc m Hm Hv Hp) as (r & Hr & Hle).
  destruct (Hk (mutate_key m) r) as (r' & Hr' & ?); [|done|exists r'; split; [done|lia]].
  intros E. apply Hp. rewrite E. by eexists.
Qed.

Lemma kept_streamed {T} `{Peer T} hash data (sessions : list (bytes * tap_session T)) vb s (l l' : L) :
  kept l l' -> streamed_from hash data sessions (lm_store l) vb s ->
  streamed_from hash data sessions (lm_store l') vb s.
Proof using.
  intros Hk (bs & Hvb & (ss & ms & fin & Hin & Hd & Hf & Hh) & Hall). exists bs. split; [done|].
  split; [exists ss, ms, fin; split_and!; try done; by eapply kept_held|].
  intros Hs. eapply kept_held; [done|]. by apply Hall.
Qed.
End kept_facts.

(** Everything [do_resync] leaves alone. *)
Definition same_control (a a' : Astaire) : Prop :=
  as_view_updated a' = as_view_updated a /\
  as_full_resync_requested a' = as_full_resync_requested a /\
  as_view a' = as_view a /\ as_self a' = as_self a /\ as_has_alarm a' = as_has_alarm a /\
  as_terminated a' = as_terminated a.

(** The alarm actions of a resync with a work list. *)
Definition resync_alarms (owl : OutstandingWorkList) (has_alarm : bool) : list bool :=
  match owl with [] => [] | _ => if has_alarm then [true; false] else [] end.

(** Statistics fit for a resync. *)
Definition stats_ok (a : Astaire) : Prop :=
  ps_ok (as_per_conn_stats a) /\ in_u64 (gs_get Resynced_keys_count (as_global_stats a)).

Lemma gs_reset_keys g : gs_get Resynced_keys_count (gs_reset g) = 0.
Proof. unfold gs_reset. destruct (get_timestamp_us (gs_recorder g)). by rewrite gs_refresh_counts. Qed.

Lemma gs_set_total_keys v g :
  gs_get Resynced_keys_count (gs_set Total_buckets v g) = gs_get Resynced_keys_count g.
Proof. unfold gs_set. by rewrite gs_refresh_counts, gs_get_put, decide_False. Qed.

Section do_resync_facts.
Context {L T : Type} `{LML : LocalMemcachedLaws L} `{PT : Peer T}.
Context (hash : bytes -> Z) (shp : bytes -> option (bytes * Z)).
Context (data : bytes -> list TapMutateReq) (now : Z).

Lemma do_resync_log full net (l : L) a net' l' a' :
  do_resync hash shp full net l a = Val (net', l', a') ->
  as_resync_log a' = as_resync_log a ++ [full] /\ same_control a a' /\
  as_alarm_log a' = as_alarm_log a ++
    resync_alarms (calculate_worklist (as_view a) (as_self a) full) (as_has_alarm a).
Proof using.
  unfold do_resync. destruct (calculate_worklist (as_view a) (as_self a) full) as [|it owl].
  { intros [= <- <- <-]. cbn. by rewrite app_nil_r. }
  destruct a as [tm vu fr v ha sf g p al rl fl]. intros Hr.
  apply bind_Val_inv in Hr as ([[x un] log] & _ & Hr). apply bind_Val_inv in Hr as (p' & _ & Hr).
  injection Hr as <- <- <-. destruct ha; cbn; rewrite ?app_nil_r, <- ?app_assoc; done.
Qed.

Context (Hfresh : foreign_fresh (L := L) now) (Hspare : spares_tag (L := L)).
Context (Hnow : forall s m, m ∈ data s -> i32 (mutate_flags m) <= now).

Lemma do_resync_ok n full net (l : L) a :
  view_ok (as_view a) -> stats_ok a -> Forall (session_ok (as_self a) data) (tn_sessions net) ->
  lm_ok (budget data (tn_sessions net) + n) l ->
  exists net' l' a' failed, do_resync hash shp full net l a = Val (net', l', a') /\
    stats_ok a' /\ lm_ok n l' /\ kept l l' /\
    lm_store l' ASTAIRE_TAG_KEY = lm_store l ASTAIRE_TAG_KEY /\
    as_failed_log a' = as_failed_log a ++ [failed] /\
    (failed = false -> forall vb lst, (vb, lst) ∈ calculate_worklist (as_view a) (as_self a) full ->
       exists s, s ∈ lst /\ streamed_from hash data (tn_sessions net) (lm_store l') vb s).
Proof using All.
  intros Hv [Hp Hk] Hss Hok. unfold do_resync.
  destruct (calculate_worklist_find (as_view a) (as_self a) full Hv) as [Howl _].
  destruct (calculate_worklist (as_view a) (as_self a) full) as [|it owl] eqn:Eo.
  { eexists net, l, _, false. split; [done|]. split; [done|]. split; [by eapply lm_ok_less|].
    split; [reflexivity|]. split; [done|]. split; [done|]. intros _ vb lst Hin. by apply elem_of_nil in Hin. }
  set (owl' := it :: owl) in *. set (g := gs_set _ _ _). set (x := mkTapWorld _ _ _ _ _ _).
  destruct (run_worklist_collects hash shp (as_self a) data now n x owl' Hfresh Hspare Hnow)
    as (x' & un & log & E & [Hok' _ Hp' _ _] & [Hno Htag _ _ _ _] & _ & Hun); [|done|].
  { split; try done. unfold x, g. cbn [tw_global]. by rewrite gs_set_total_keys. }
  assert (as_self (if as_has_alarm a then as_log_alarm true a else a) = as_self a) as ->
    by (by destruct (as_has_alarm a)).
  rewrite E, bind_Val. cbv beta iota zeta. destruct (ps_reset_ok (tw_conns x')) as (p' & Er & Hr).
  rewrite Er, bind_Val. do 3 eexists. exists (bool_decide (un <> [])). split; [done|].
  split; [split; [done|cbn -[gs_reset gs_get]; by rewrite gs_reset_keys]|].
  split; [by eapply lm_ok_less|]. split; [intros k r _ Hr'; by apply (Hno k r)|]. split; [done|].
  split; [destruct a as [tm vu fr v ha sf g0 p al rl fl]; by destruct ha|].
  intros Hf vb lst Hin. apply bool_decide_eq_false in Hf. apply (Hun vb lst Hin).
  destruct un; [apply not_elem_of_nil | by destruct Hf].
Qed.
End do_resync_facts.

(** ** Properties *)

(** C27: the tag protocol.  After a successful tag the local memcached polls as
    up to date, after an untag (or a restart, which loses the tag) as out of
    date, and polling changes neither. *)
Theorem tag_poll_roundtrip {L : Type} `{LocalMemcachedLaws L} (hash : bytes -> Z)
    (local_env : net_env) (self : bytes) (n : nat) (l : L)
    (Henv : env_ok local_env)
    (Hconn : forall l : L, (connect local_env (ClientConnection_new self l [])).2 = 0)
    (Hspare : spares_tag (L := L))
    (Hstamp : stamp_ok lm_epoch 0) (Hok : lm_ok (2 + n) l) :
  (exists l1 l2, tag_local_memcached hash local_env self l = Val (l1, true) /\
     poll_local_memcached local_env self l1 = Val (l2, UP_TO_DATE)) /\
  (exists l1 l2, untag_local_memcached local_env self l = Val (l1, true) /\
     poll_local_memcached local_env self l1 = Val (l2, OUT_OF_DATE)).
Proof.
  split.
  - destruct (tag_ok hash local_env self Henv Hconn Hstamp (S n) l Hok) as (l1 & E1 & Hok1 & [r Hr] & _).
    destruct (poll_ok local_env self Henv Hconn Hspare n l1 Hok1) as (l2 & E2 & _).
    rewrite Hr in E2. eauto.
  - destruct (untag_ok local_env self Henv Hconn (S n) l Hok) as (l1 & E1 & Hok1 & Hr & _).
    destruct (poll_ok local_env self Henv Hconn Hspare n l1 Hok1) as (l2 & E2 & _).
    rewrite Hr in E2. eauto.
Qed.

Definition needs_full {L} `{LocalMemcached L} (l : L) (a : Astaire) : bool :=
  as_full_resync_requested a || match lm_store l ASTAIRE_TAG_KEY with Some _ => false | None => true end.

Lemma control_check_ok {L} `{LocalMemcachedLaws L} local_env n (l : L) a
    (Henv : env_ok local_env)
    (Hconn : forall l : L, (connect local_env (ClientConnection_new (as_self a) l [])).2 = 0)
    (Hspare : spares_tag (L := L)) :
  lm_ok (2 + n) l ->
  exists l', control_check local_env l a =
      Val (l', as_with_flags false false a,
           (as_view_updated a || needs_full l a, needs_full l a)) /\
    lm_ok n l' /\
    (needs_full l a = true -> lm_store l' ASTAIRE_TAG_KEY = None) /\
    (needs_full l a = false -> is_Some (lm_store l' ASTAIRE_TAG_KEY)) /\
    forall now, foreign_fresh (L := L) now -> kept l l'.
Proof.
  intros Hok. unfold control_check, needs_full.
  destruct (as_full_resync_requested a); cbn [orb].
  - destruct (untag_ok local_env (as_self a) Henv Hconn (S n) l Hok) as (l1 & E1 & Hok1 & Hr & Hs1).
    destruct (poll_ok local_env (as_self a) Henv Hconn Hspare n l1 Hok1) as (l2 & E2 & Hok2 & Hs2 & Ho2).
    rewrite E1, !bind_Val. cbn [as_self as_with_flags]. cbn [mbind res_bind mret res_ret].
    rewrite E2, Hr, bind_Val. exists l2. rewrite orb_true_r, Hs2. do 4 (split; [done|]).
    intros now Hf. etrans; eapply kept_foreign; eauto.
  - rewrite bind_Val. cbn [as_self as_with_flags].
    destruct (poll_ok local_env (as_self a) Henv Hconn Hspare (S n) l Hok) as (l2 & E2 & Hok2 & Hs2 & Ho2).
    rewrite E2, bind_Val. exists l2.
    assert (forall now, foreign_fresh (L := L) now -> kept l l2) as Hk
      by (intros now Hf; eapply kept_foreign; eauto).
    destruct (lm_store l ASTAIRE_TAG_KEY) as [r|]; rewrite Hs2, ?orb_false_r, ?orb_true_r;
      (split; [done|]; split; [by apply lm_ok_weaken|]); by split.
Qed.

(** C10: one iteration of the control thread resyncs exactly when the view was
    updated, a full resync was requested or the local memcached is out of date,
    and fully in the last two cases; while a full resync runs the local
    memcached has no tag, so that a crash makes the next poll ask for it again;
    afterwards the triggers are cleared and the tag is there.  No record is lost
    or becomes older, and unless the resync is reported as failed every vbucket
    of its work list was streamed from one of its replicas: what arrived of it
    is held at least as new, and that is all the replica's records of the
    vbucket if it sends them all before it closes its stream ([sends_all]; the
    code takes a stream closed early for complete).  When nothing is needed the
    alarm is cleared. *)
Theorem control_iteration_resyncs {L T : Type} `{LocalMemcachedLaws L} `{Peer T} (hash : bytes -> Z)
    (split_host_port : bytes -> option (bytes * Z)) (local_env : net_env)
    (data : bytes -> list TapMutateReq) (now : Z) (n : nat) (net : tap_net T) (l : L) (a : Astaire)
    (Henv : env_ok local_env)
    (Hconn : forall l : L, (connect local_env (ClientConnection_new (as_self a) l [])).2 = 0)
    (Hspare : spares_tag (L := L)) (Hfresh : foreign_fresh (L := L) now)
    (Hnow : forall s m, m ∈ data s -> i32 (mutate_flags m) <= now)
    (Hstamp : stamp_ok lm_epoch 0)
    (Hsessions : Forall (session_ok (as_self a) data) (tn_sessions net))
    (Hok : lm_ok (2 + (budget data (tn_sessions net) + S n)) l)
    (Hview : view_ok (as_view a)) (Hstats : stats_ok a) (Halarm : as_has_alarm a = true) :
  let full := needs_full l a in
  let resync := as_view_updated a || full in
  exists l1 net' l' a',
    control_check local_env l a = Val (l1, as_with_flags false false a, (resync, full)) /\
    (full = true -> lm_store l1 ASTAIRE_TAG_KEY = None) /\
    control_iteration hash split_host_port local_env net l a = Val (net', l', a') /\
    as_view_updated a' = false /\ as_full_resync_requested a' = false /\
    is_Some (lm_store l' ASTAIRE_TAG_KEY) /\ kept l l' /\
    if resync then
      as_resync_log a' = as_resync_log a ++ [full] /\
      exists failed, as_failed_log a' = as_failed_log a ++ [failed] /\
        (failed = false -> forall vb lst,
           (vb, lst) ∈ calculate_worklist (as_view a) (as_self a) full ->
           exists s, s ∈ lst /\ streamed_from hash data (tn_sessions net) (lm_store l') vb s)
    else as_resync_log a' = as_resync_log a /\ as_alarm_log a' = as_alarm_log a ++ [false].
Proof.
  intros full resync.
  destruct (control_check_ok local_env _ l a Henv Hconn Hspare Hok)
    as (l1 & E1 & Hok1 & Hnone & Hsome & Hk1).
  exists l1. unfold control_iteration. fold full resync in E1. rewrite E1, bind_Val.
  destruct resync eqn:Er.
  - destruct (do_resync_ok hash split_host_port data now Hfresh Hspare Hnow (S n) full net l1
      (as_with_flags false false a) Hview Hstats Hsessions Hok1)
      as (net' & l2 & a' & failed & E2 & _ & Hok2 & Hk2 & _ & Hf & Hcol).
    pose proof (do_resync_log hash split_host_port _ _ _ _ _ _ _ E2) as (Hlog & (Hvu & Hfr & _ & Hself & _) & _).
    rewrite E2, bind_Val. cbn in Hself.
    destruct (tag_ok hash local_env (as_self a) Henv Hconn Hstamp n l2 Hok2) as (l3 & E3 & _ & Htag & Hs3).
    rewrite Hself, E3, bind_Val. exists net', l3, a'.
    assert (Hk3 : kept l2 l3) by (by eapply kept_foreign).
    repeat (split; [done|]). split; [etrans; [by eapply Hk1|by etrans]|]. split; [done|].
    exists failed. split; [done|]. intros Hfail vb lst Hin. destruct (Hcol Hfail vb lst Hin) as (s & Hs & Hc).
    exists s. split; [done|]. by eapply kept_streamed.
  - cbn [as_has_alarm as_with_flags]. rewrite Halarm. do 3 eexists. split; [done|]. split; [done|].
    split; [done|]. cbn. repeat (split; [done|]). split; [|split; [by eapply Hk1|done]].
    apply Hsome. by apply orb_false_iff in Er as [_ ?].
Qed.

(** A pending trigger is acted on by the next iteration. *)
Lemma control_iteration_log {L T} `{Peer L} `{Peer T} hash shp env (w : tap_net T) (l : L) a w' l' a' :
  control_iteration hash shp env w l a = Val (w', l', a') ->
  as_full_resync_requested a || as_view_updated a = true ->
  exists full, as_resync_log a' = as_resync_log a ++ [full] /\
    (as_full_resync_requested a = true -> full = true) /\
    as_view_updated a' = false /\ as_full_resync_requested a' = false.
Proof.
  intros Hc Hp. unfold control_iteration, control_check in Hc.
  apply bind_Val_inv in Hc as ([[l1 a1] [resync full]] & Hchk & Hc).
  assert (a1 = as_with_flags false false a /\ resync = true /\
          (as_full_resync_requested a = true -> full = true)) as (-> & -> & Hfull).
  { destruct (as_full_resync_requested a);
      apply bind_Val_inv in Hchk as (l2 & _ & Hchk); apply bind_Val_inv in Hchk as ([l3 r] & _ & Hchk);
      injection Hchk as _ <- Hr; destruct r; injection Hr as <- <-; cbn in *; auto. }
  apply bind_Val_inv in Hc as ([[w2 l2] a2] & Hd & Hc). apply bind_Val_inv in Hc as ([l4 ok] & _ & Hc).
  injection Hc as <- <- <-. apply do_resync_log in Hd as (Hlog & (Hvu & Hfr & _) & _). exists full. done.
Qed.

Lemma control_steps_app {L T} `{Peer L} `{Peer T} hash shp env es es' (s1 s3 : tap_net T * L * Astaire) :
  control_steps hash shp env s1 (es ++ es') s3 ->
  exists s2, control_steps hash shp env s1 es s2 /\ control_steps hash shp env s2 es' s3.
Proof.
  revert s1. induction es as [|e es IH]; intros s1 Hrun; [exists s1; split; [constructor|done]|].
  inversion Hrun as [|? ? s2 ? ? Hstep Hrest]; subst. destruct (IH s2 Hrest) as (s & H1 & H2).
  exists s. split; [by econstructor | done].
Qed.

(** Other events keep what is pending. *)
Lemma events_keep_pending {L T} `{Peer L} `{Peer T} hash shp env es :
  E_control ∉ es -> forall (s s' : tap_net T * L * Astaire),
  control_steps hash shp env s es s' ->
  as_resync_log s'.2 = as_resync_log s.2 /\
  (as_full_resync_requested s.2 = true -> as_full_resync_requested s'.2 = true) /\
  (as_view_updated s.2 = true -> as_view_updated s'.2 = true).
Proof.
  intros Hes s s' Hrun. induction Hrun as [s|s1 e s2 es s3 Hstep Hrun IH]; [done|].
  apply not_elem_of_cons in Hes as [He Hes]. destruct (IH Hes) as (Hl & Hf & Hv).
  rewrite Hl. destruct Hstep as [| | |]; [done| | |]; cbn in *;
    unfold reload_config, trigger_full_resync in *; try (destruct conf; cbn in *); auto.
Qed.

(** C15: no trigger is lost.  After a SIGUSR1, whatever other signals arrive in
    between, the next iteration of the control thread does a full resync; after
    a SIGHUP whose configuration was read, the next iteration does a resync. *)
Theorem triggers_not_lost {L T : Type} `{Peer L} `{Peer T} (hash : bytes -> Z)
    (split_host_port : bytes -> option (bytes * Z)) (local_env : net_env)
    (e : control_event) (es : list control_event) (w1 w3 : tap_net T) (l1 l3 : L) (a1 a3 : Astaire)
    (Htrigger : (exists conf, e = E_trigger conf) \/ (exists v, e = E_reload (Some v)))
    (Hes : E_control ∉ es)
    (Hrun : control_steps hash split_host_port local_env
              (w1, l1, a1) (e :: es ++ [E_control]) (w3, l3, a3)) :
  exists full, as_resync_log a3 = as_resync_log a1 ++ [full] /\
    ((exists conf, e = E_trigger conf) -> full = true) /\
    as_view_updated a3 = false /\ as_full_resync_requested a3 = false.
Proof.
  inversion Hrun as [|s1 ev s2 evs s3 Hstep Hrest]; subst.
  assert (Hp : as_full_resync_requested s2.2 || as_view_updated s2.2 = true /\
    as_resync_log s2.2 = as_resync_log a1 /\
    ((exists conf, e = E_trigger conf) -> as_full_resync_requested s2.2 = true)).
  { destruct Htrigger as [[conf ->]|[v ->]]; inversion Hstep; subst; cbn;
      [unfold trigger_full_resync; destruct conf|]; cbn; rewrite ?orb_true_r; repeat split; try done;
      by intros [? ?]. }
  destruct Hp as (Hpend & Hlog & Hfull).
  apply control_steps_app in Hrest as ([[w2 l2] a2] & Hmid & Hlast).
  destruct (events_keep_pending hash split_host_port local_env es Hes _ _ Hmid) as (Hl & Hf & Hv). cbn in Hl, Hf, Hv.
  inversion Hlast as [|? ? s4 ? ? Hctl Hnil]; subst. inversion Hnil; subst.
  inversion Hctl as [? ? ? ? ? ? _ Hit| | |]; subst.
  destruct (control_iteration_log _ _ _ _ _ _ _ _ _ Hit) as (full & Hlog3 & Hf3 & Hclr).
  { apply orb_true_iff in Hpend as [Hx|Hx]; [by rewrite Hf | by rewrite Hv, orb_true_r]. }
  exists full. rewrite Hlog3, Hl, Hlog. split; [done|]. split; [|done]. auto.
Qed.

(** C40: the control thread dereferences a NULL alarm: without an alarm object,
    which do_resync allows for, the first iteration that finds nothing to do has
    undefined behaviour. *)
Theorem idle_iteration_needs_alarm {L T : Type} `{LocalMemcachedLaws L} `{Peer T} (hash : bytes -> Z)
    (split_host_port : bytes -> option (bytes * Z)) (local_env : net_env)
    (n : nat) (net : tap_net T) (l : L) (a : Astaire)
    (Henv : env_ok local_env)
    (Hconn : forall l : L, (connect local_env (ClientConnection_new (as_self a) l [])).2 = 0)
    (Hspare : spares_tag (L := L))
    (Hok : lm_ok (2 + n) l) (Hnone : as_has_alarm a = false)
    (Hidle : as_view_updated a = false /\ needs_full l a = false) :
  control_iteration hash split_host_port local_env net l a = Fail Undefined.
Proof.
  destruct (control_check_ok local_env n l a Henv Hconn Hspare Hok) as (l1 & E & _).
  destruct Hidle as [Hv Hf]. unfold control_iteration. rewrite E, bind_Val, Hv, Hf. cbn.
  by rewrite Hnone.
Qed.


(** ** Witnesses *)

Definition example_astaire (vu fr alarm : bool) : Astaire :=
  mkAstaire false vu fr example_view alarm srv_c example_gs example_ps [] [] [].
Definition tagged_store : bytes -> option record :=
  update (fun _ => None) ASTAIRE_TAG_KEY (Some (mkRecord ASTAIRE_TAG_VALUE 0 1)).
Definition tagged_server : ref_server := mkRefServer tagged_store 2 [].
Definition untagged_server : ref_server := mkRefServer (fun _ => None) 1 [].

Lemma example_connects (l : ref_server) :
  (connect example_env (ClientConnection_new srv_c l [])).2 = 0.
Proof. reflexivity. Qed.

Lemma tagged_server_ok n : Z.of_nat n < 2 ^ 32 -> rs_ok nobody 0 n tagged_server.
Proof.
  intros Hn. split; [|split; [done|]; split; [cbn; lia|constructor]].
  intros k r. cbn. unfold tagged_store, update. case_decide; [|done]. intros [= <-].
  split; [|done]. split; [vm_compute; discriminate|]. split; [|vm_compute; done].
  split; vm_compute; (split; [discriminate|reflexivity]).
Qed.

Lemma untagged_server_ok n : Z.of_nat n < 2 ^ 32 -> rs_ok nobody 0 n untagged_server.
Proof. intros Hn. split; [done|]. split; [done|]. split; [cbn; lia|constructor]. Qed.

Lemma stamp_zero : stamp_ok 0 0.
Proof. split; vm_compute; (split; [discriminate|reflexivity]). Qed.

Lemma tag_poll_roundtrip_witness :
  exists l1 l2,
    tag_local_memcached (fun k => len k) example_env srv_c untagged_server = Val (l1, true) /\
    poll_local_memcached example_env srv_c l1 = Val (l2, UP_TO_DATE).
Proof.
  exact (proj1 (tag_poll_roundtrip (H1 := ref_memcached_laws nobody 0) (fun k => len k) example_env
    srv_c 0 untagged_server example_env_ok example_connects nobody_spares_tag stamp_zero
    (untagged_server_ok 2 ltac:(reflexivity)))).
Defined.

(** memcached restarted: no tag, so a full resync, of vbucket 3 from srv_a. *)
Definition restarted : Astaire :=
  mkAstaire false false false (mkView [(3, [srv_a; srv_c])] []) true srv_c example_gs example_ps [] [] [].
Definition one_session : tap_net tap_source := mkTapNet [0] [(srv_a, example_session)].
Definition no_sessions : tap_net tap_source := mkTapNet [] [].

Lemma restarted_view_ok : view_ok (as_view restarted).
Proof. split; decide_owl_ok. Qed.
Lemma restarted_stats_ok : stats_ok restarted.
Proof. split; [constructor|]. vm_compute. split; (discriminate || reflexivity). Qed.

Lemma control_iteration_resyncs_witness :
  exists net' l' a',
    control_iteration length_hash no_split example_env one_session example_local restarted =
      Val (net', l', a') /\
    as_resync_log a' = [true] /\
    exists failed, as_failed_log a' = [failed] /\ (failed = false ->
      exists s, s ∈ [srv_a] /\ streamed_from (H0 := ref_memcached nobody 0) length_hash example_data
        [(srv_a, example_session)] (rs_store l') 3 s).
Proof.
  destruct (control_iteration_resyncs (H1 := ref_memcached_laws nobody 0) length_hash no_split example_env
    example_data last_stamp 0 one_session example_local restarted example_env_ok example_connects
    nobody_spares_tag (quiet_fresh last_stamp nobody_quiet) example_data_old stamp_zero
    (wo_sessions _ _ _ _ example_world_ok) (example_local_ok nobody 11 [] eq_refl (Forall_nil_2 _))
    restarted_view_ok restarted_stats_ok eq_refl)
    as (l1 & net' & l' & a' & _ & _ & E & _ & _ & _ & _ & Hlog & failed & Hf & Hc).
  exists net', l', a'. split; [exact E|]. split; [exact Hlog|]. exists failed. split; [exact Hf|].
  intros Hfail. apply (Hc Hfail 3 [srv_a]). apply list_elem_of_here.
Defined.

Lemma triggers_not_lost_witness :
  exists w3 l3 a3,
    control_steps (fun k => len k) no_split example_env
      (no_sessions, tagged_server, example_astaire false false true)
      [E_trigger None; E_reload (Some example_view); E_control] (w3, l3, a3) /\
    as_resync_log a3 = [true].
Proof.
  assert (Hrun : exists s3, control_steps (fun k => len k) no_split example_env
      (no_sessions, tagged_server, example_astaire false false true)
      [E_trigger None; E_reload (Some example_view); E_control] s3).
  { eexists. eapply steps_cons; [apply step_trigger|]. eapply steps_cons; [apply step_reload|].
    eapply steps_cons; [apply step_control; [reflexivity|vm_compute; reflexivity]|]. apply steps_nil. }
  destruct Hrun as [[[w3 l3] a3] Hrun]. exists w3, l3, a3. split; [exact Hrun|].
  destruct (triggers_not_lost (fun k => len k) no_split example_env (E_trigger None)
    [E_reload (Some example_view)] no_sessions w3 tagged_server l3 (example_astaire false false true) a3)
    as (full & Hl & Hf & _).
  - left. exists None. reflexivity.
  - intros Hin. apply elem_of_cons in Hin as [Hin|Hin]; [discriminate | by apply elem_of_nil in Hin].
  - exact Hrun.
  - rewrite Hl, Hf; [reflexivity | exists None; reflexivity].
Defined.

Lemma idle_iteration_needs_alarm_witness :
  control_iteration (fun k => len k) no_split example_env no_sessions tagged_server
    (example_astaire false false false) = Fail Undefined.
Proof.
  apply (idle_iteration_needs_alarm (H1 := ref_memcached_laws nobody 0) (fun k => len k) no_split example_env
    0 no_sessions tagged_server (example_astaire false false false) example_env_ok
    example_connects nobody_spares_tag (tagged_server_ok 2 ltac:(reflexivity)) eq_refl).
  split; reflexivity.
Defined.

