(* ===== verification/Process.v ===== *)
(** * Processes: effects, problem determination logs, signals

    What the two main programs (src/proxy_main.cpp, src/resync_main.cpp) have in
    common.  A main program is a computation that leaves a trace of its effects
    on the world and ends with a value, by exit, or by waiting for ever: the
    monad [eff].  The logs of include/astaire_pd_definitions.hpp and
    include/rogers_pd_definitions.hpp are values; writing one is an effect,
    and so is the one trace whose format is not a literal.  The crash handler is a function on the process's signal dispositions. *)

From Stdlib Require Import ZArith Lia Strings.Byte.
From stdpp Require Import prelude.
From S2P Require Import Prelude.

Open Scope Z_scope.

(** ** Computations with a trace of effects *)

Record eff (E A : Type) : Type := mkEff {
  eff_trace : list E;
  eff_result : res A
}.
Arguments mkEff {E A}.
Arguments eff_trace {E A}.
Arguments eff_result {E A}.

#[export] Instance eff_ret {E} : MRet (eff E) := fun A a => mkEff [] (Val a).
#[export] Instance eff_bind {E} : MBind (eff E) := fun A B k m =>
  match eff_result m with
  | Val a => mkEff (eff_trace m ++ eff_trace (k a)) (eff_result (k a))
  | Fail f => mkEff (eff_trace m) (Fail f)
  end.

(** An effect; the end of the computation; a computation without effects. *)
Definition emit {E} (e : E) : eff E unit := mkEff [e] (Val tt).
Definition stop {E A} (f : failure) : eff E A := mkEff [] (Fail f).
Definition lift {E A} (r : res A) : eff E A := mkEff [] r.

Section eff_laws.
Context {E A B C : Type}.
Implicit Types (m : eff E A) (k : A -> eff E B) (h : B -> eff E C).

Lemma eff_ret_l a k : (mret a ≫= k) = k a.
Proof using. unfold mbind, eff_bind; cbn. by destruct (k a). Qed.

Lemma eff_bind_assoc m k h : ((m ≫= k) ≫= h) = (m ≫= fun a => k a ≫= h).
Proof using.
  unfold mbind, eff_bind. destruct m as [t [a|f]]; cbn; [|done].
  destruct (k a) as [t' [b|f]]; cbn; [|done]. by rewrite app_assoc.
Qed.

Lemma eff_bind_ext m k k' : (forall a, k a = k' a) -> (m ≫= k) = (m ≫= k').
Proof using. intros Hk. unfold mbind, eff_bind. destruct (eff_result m); [by rewrite Hk | done]. Qed.

Lemma eff_stop_l f k : (stop f ≫= k) = stop f.
Proof using. done. Qed.

Lemma eff_lift_Val a k : (lift (Val a) ≫= k) = k a.
Proof using. apply eff_ret_l. Qed.

Lemma eff_trace_bind m k a :
  eff_result m = Val a -> eff_trace (m ≫= k) = eff_trace m ++ eff_trace (k a).
Proof using. intros Hm. unfold mbind, eff_bind. by rewrite Hm. Qed.

Lemma eff_result_bind m k a : eff_result m = Val a -> eff_result (m ≫= k) = eff_result (k a).
Proof using. intros Hm. unfold mbind, eff_bind. by rewrite Hm. Qed.
End eff_laws.

(** ** Problem determination logs *)

Inductive application : Type := App_ASTAIRE | App_ROGERS.

(** The severities in use, of syslog. *)
Inductive severity : Type := LOG_ERR | LOG_INFO.

(** A log definition; its identity is an offset from the application's first
    one (PDLogBase::CL_ASTAIRE_ID and PDLogBase::CL_ROGERS_ID). *)
Record PDLog : Type := mkPDLog {
  pl_app : application;
  pl_offset : Z;
  pl_severity : severity;
  pl_message : bytes;
  pl_cause : bytes;
  pl_effect : bytes;
  pl_action : bytes
}.

#[export] Instance application_eq_dec : EqDecision application.
Proof. solve_decision. Defined.
#[export] Instance severity_eq_dec : EqDecision severity.
Proof. solve_decision. Defined.
#[export] Instance PDLog_eq_dec : EqDecision PDLog.
Proof. solve_decision. Defined.

Definition CL_ASTAIRE_INVALID_OPTION : PDLog := mkPDLog App_ASTAIRE 1 LOG_ERR
  (lit "Fatal - An invalid command line option, %s, was passed to Astaire. The " ++
   lit "application will exit and restart until the problem is fixed. Run with --help " ++
   lit "for options.")
  (lit "There was an invalid command line option in the configuration files.")
  (lit "The application will exit and restart until the problem is fixed.")
  (lit "Check that the configuration files in /etc/clearwater and " ++
   lit "/etc/clearwater/cluster_settings are correct.").

Definition CL_ASTAIRE_STARTED : PDLog := mkPDLog App_ASTAIRE 2 LOG_INFO
  (lit "Astaire started.")
  (lit "The Astaire application is starting.")
  (lit "Normal.")
  (lit "None.").

Definition CL_ASTAIRE_ENDED : PDLog := mkPDLog App_ASTAIRE 3 LOG_ERR
  (lit "Astaire ended - Termination signal received - terminating.")
  (lit "Astaire has been terminated by Monit or has exited.")
  (lit "The Astaire service is not longer available.")
  (lit "(1). This occurs normally when Astaire is stopped. (2). If Astaire fails to " ++
   lit "respond to monit queries in a timely manner, monit restarts the application.").

Definition CL_ASTAIRE_TERMINATED : PDLog := mkPDLog App_ASTAIRE 4 LOG_ERR
  (lit "Fatal - Astaire has exited or been terminated with signal %s.")
  (lit "Astaire has encountered a fatal software error or has been terminated")
  (lit "The application will exit and restart until the problem is fixed.")
  (lit "Ensure that Astaire has been installed correctly and that it has valid " ++
   lit "configuration.").

Definition CL_ASTAIRE_RESYNC_FAILED : PDLog := mkPDLog App_ASTAIRE 5 LOG_ERR
  (lit "Astaire has failed to synchronise some data.")
  (lit "Astaire was unable to reach all the previous replicas for some data.")
  (lit "Not all data has been resynchronised. Completing a resize operation now may " ++
   lit "result in loss of data or loss of redundancy")
  (lit "Check the status of the memcached cluster and ensure network connectivity is " ++
   lit "possible between all nodes.").

Definition CL_ASTAIRE_START_RESYNC : PDLog := mkPDLog App_ASTAIRE 6 LOG_INFO
  (lit "Astaire has started a resync operation")
  (lit "Astaire is proactively resynchronising data between cluster members.This " ++
   lit "could be because:(1). Astaire has detected that the cluster is being " ++
   lit "resized.(2). Astaire has detected the local Memcached process has been " ++
   lit "restarted.(3). An operator has manually triggered a resync.")
  (lit "Data is being resynced across the Memcached cluster.")
  (lit "Wait until the current resync operation has completed before continuing with " ++
   lit "any cluster resize.").

Definition CL_ASTAIRE_COMPLETE_RESYNC : PDLog := mkPDLog App_ASTAIRE 7 LOG_INFO
  (lit "Astaire has completed a resync operation")
  (lit "Astaire has synchronised all available data to the local node.")
  (lit "If the cluster is being resized, this operation can be completed once all " ++
   lit "other Astaire instances have completed their resync operations.")
  (lit "If the cluster is being resized, you may continue the resize operation once " ++
   lit "all other Astaire instances have completed their resync operations.").

Definition CL_ROGERS_INVALID_OPTION : PDLog := mkPDLog App_ROGERS 1 LOG_ERR
  (lit "Fatal - An invalid command line option, %s, was passed to Rogers. The " ++
   lit "application will exit and restart until the problem is fixed. Run with --help " ++
   lit "for options.")
  (lit "There was an invalid command line option in the configuration files.")
  (lit "The application will exit and restart until the problem is fixed.")
  (lit "Check that the configuration files in /etc/clearwater and " ++
   lit "/etc/clearwater/cluster_settings are correct.").

Definition CL_ROGERS_STARTED : PDLog := mkPDLog App_ROGERS 2 LOG_INFO
  (lit "Rogers started.")
  (lit "The Rogers application is starting.")
  (lit "Normal.")
  (lit "None.").

Definition CL_ROGERS_ENDED : PDLog := mkPDLog App_ROGERS 3 LOG_ERR
  (lit "Rogers ended - Termination signal received - terminating.")
  (lit "Rogers has been terminated by Monit or has exited.")
  (lit "The Rogers service is not longer available.")
  (lit "(1). This occurs normally when Rogers is stopped. (2). If Rogers fails to " ++
   lit "respond to monit queries in a timely manner, monit restarts the application.").

Definition CL_ROGERS_TERMINATED : PDLog := mkPDLog App_ROGERS 4 LOG_ERR
  (lit "Fatal - Rogers has exited or been terminated with signal %s.")
  (lit "Rogers has encountered a fatal software error or has been terminated")
  (lit "The application will exit and restart until the problem is fixed.")
  (lit "Ensure that Rogers has been installed correctly and that it has valid " ++
   lit "configuration.").

Definition astaire_logs : list PDLog :=
  [CL_ASTAIRE_INVALID_OPTION; CL_ASTAIRE_STARTED; CL_ASTAIRE_ENDED; CL_ASTAIRE_TERMINATED;
   CL_ASTAIRE_RESYNC_FAILED; CL_ASTAIRE_START_RESYNC; CL_ASTAIRE_COMPLETE_RESYNC].
Definition rogers_logs : list PDLog :=
  [CL_ROGERS_INVALID_OPTION; CL_ROGERS_STARTED; CL_ROGERS_ENDED; CL_ROGERS_TERMINATED].

(** A log's parameters: one for each %s of its message. *)
Fixpoint parameters (message : bytes) : nat :=
  match message with
  | x25 :: rest => match rest with x73 :: _ => S (parameters rest) | _ => parameters rest end
  | _ :: rest => parameters rest
  | [] => O
  end.

(** ** Signals *)

Inductive signal : Type := SIGABRT | SIGSEGV | SIGTERM.
#[export] Instance signal_eq_dec : EqDecision signal.
Proof. solve_decision. Defined.

Inductive handler : Type := SIG_DFL | On_crash | On_terminate.   (* signal_handler, terminate_handler *)
#[export] Instance handler_eq_dec : EqDecision handler.
Proof. solve_decision. Defined.

(** ** Effects of a main program

    [Obj] names the objects that it creates. *)
Inductive effect (Obj : Type) : Type :=
| Eff_signal (sig : signal) (h : handler)
| Eff_sem_init (value : Z)
| Eff_sem_post
| Eff_sem_wait
| Eff_sem_destroy
| Eff_daemon_log_setup (daemon : bool) (directory : bytes) (level : Z) (to_file : bool)
| Eff_pdlog (l : PDLog) (args : list bytes)
| Eff_trace (text : bytes)                  (* the trace log *)
| Eff_puts (text : bytes)
| Eff_lock_pidfile (path : bytes)
| Eff_start_signal_handlers
| Eff_new (o : Obj)
| Eff_join (o : Obj)                        (* wait for the thread that an object runs *)
| Eff_delete (o : Obj)
| Eff_listen (sock : Z).                    (* clients can connect from here on *)
Arguments Eff_signal {Obj}.
Arguments Eff_sem_init {Obj}.
Arguments Eff_sem_post {Obj}.
Arguments Eff_sem_wait {Obj}.
Arguments Eff_sem_destroy {Obj}.
Arguments Eff_daemon_log_setup {Obj}.
Arguments Eff_pdlog {Obj}.
Arguments Eff_trace {Obj}.
Arguments Eff_puts {Obj}.
Arguments Eff_lock_pidfile {Obj}.
Arguments Eff_start_signal_handlers {Obj}.
Arguments Eff_new {Obj}.
Arguments Eff_join {Obj}.
Arguments Eff_delete {Obj}.
Arguments Eff_listen {Obj}.

(** ** The trace log

    What printf makes of a format without arguments: [None] for a conversion,
    since all but the one for a percent sign take an argument or are not
    conversions of ISO C, and the behaviour is undefined. *)
Fixpoint format_text (fmt : bytes) : option bytes :=
  match fmt with
  | [] => Some []
  | x25 :: rest =>
      match rest with
      | x25 :: rest => cons x25 <$> format_text rest
      | _ => None
      end
  | c :: rest => cons c <$> format_text rest
  end.

(** A text without percent signs is printed as it is. *)
Lemma format_text_plain fmt : x25 ∉ fmt -> format_text fmt = Some fmt.
Proof.
  induction fmt as [|c fmt IH]; intros H; [done|].
  apply not_elem_of_cons in H as [Hc H]. cbn [format_text].
  destruct c; try (by rewrite IH); done.
Qed.

(** What TRC_INFO shows for a format and no arguments: nothing when the trace
    log leaves out this level, and [None] when it formats the undefined. *)
Definition info_shown (enabled : bool) (fmt : bytes) : option (option bytes) :=
  if enabled then Some <$> format_text fmt else Some None.

Definition TRC_INFO {Obj} (enabled : bool) (fmt : bytes) : eff (effect Obj) unit :=
  if enabled then
    match format_text fmt with
    | Some text => emit (Eff_trace text)
    | None => stop Undefined
    end
  else mret tt.

Definition trace_of {Obj} (text : option bytes) : list (effect Obj) :=
  match text with Some text => [Eff_trace text] | None => [] end.

Lemma TRC_INFO_spec {Obj} enabled fmt :
  TRC_INFO (Obj := Obj) enabled fmt =
  match info_shown enabled fmt with
  | Some text => mkEff (trace_of text) (Val tt)
  | None => stop Undefined
  end.
Proof. unfold TRC_INFO, info_shown. destruct enabled; [|done]. by destruct (format_text fmt). Qed.

(** The texts of a trace. *)
Fixpoint traces {Obj} (t : list (effect Obj)) : list bytes :=
  match t with
  | [] => []
  | Eff_trace text :: t => text :: traces t
  | _ :: t => traces t
  end.

(** The problem determination logs of a trace. *)
Fixpoint pdlogs {Obj} (t : list (effect Obj)) : list (PDLog * list bytes) :=
  match t with
  | [] => []
  | Eff_pdlog l args :: t => (l, args) :: pdlogs t
  | _ :: t => pdlogs t
  end.

Lemma pdlogs_app {Obj} (t u : list (effect Obj)) : pdlogs (t ++ u) = pdlogs t ++ pdlogs u.
Proof. induction t as [|e t IH]; [done|]. destruct e; cbn; by rewrite IH. Qed.

(** The objects alive after a trace that starts with [live]; [None] when one is
    deleted that is not alive, or created twice. *)
Fixpoint lifetimes {Obj} `{EqDecision Obj} (t : list (effect Obj)) (live : list Obj) : option (list Obj) :=
  match t with
  | [] => Some live
  | Eff_new o :: t => if decide (o ∈ live) then None else lifetimes t (o :: live)
  | Eff_delete o :: t =>
      if decide (o ∈ live) then lifetimes t (List.filter (fun o' => negb (bool_decide (o' = o))) live)
      else None
  | _ :: t => lifetimes t live
  end.

(** Is an object created?  Which objects are deleted before it is? *)
Definition creates {Obj} `{EqDecision Obj} (o : Obj) (t : list (effect Obj)) : bool :=
  existsb (fun e => match e with Eff_new o' => bool_decide (o' = o) | _ => false end) t.
Fixpoint deleted_before {Obj} `{EqDecision Obj} (o : Obj) (t : list (effect Obj)) : list Obj :=
  match t with
  | [] => []
  | Eff_delete o' :: t => if decide (o' = o) then [] else o' :: deleted_before o t
  | _ :: t => deleted_before o t
  end.

(** Do clients get to connect? *)
Definition listens {Obj} (t : list (effect Obj)) : bool :=
  existsb (fun e => match e with Eff_listen _ => true | _ => false end) t.

(** ** The crash handler

    Where the handler itself crashes, if it does: while writing the first
    backtrace, or after the log. *)
Inductive fault : Type := No_fault | Fault_before_log | Fault_after_log.

Section signals.
Context {Obj : Type}.
(** The application's log for a fatal signal, and strsignal. *)
Context (terminated : PDLog) (strsignal : signal -> bytes).

Definition dispositions : Type := signal -> handler.
Definition set_disposition (d : dispositions) (sig : signal) (h : handler) : dispositions :=
  fun s => if decide (s = sig) then h else d s.

(** How the delivery of a signal ends. *)
Inductive delivery : Type :=
| Killed (sig : signal)
| Continues (d : dispositions) (posts : nat).

(** Deliver [sig], while the signals in [blocked] are being handled: a crash
    that is blocked kills the process.  The handler's own crashes are given by
    [faults], one for each time it runs. *)
Fixpoint deliver (faults : list fault) (d : dispositions) (blocked : list signal) (sig : signal) :
    list (effect Obj) * delivery :=
  if decide (sig ∈ blocked) then ([], Killed sig)
  else
    match d sig with
    | SIG_DFL => ([], Killed sig)
    | On_terminate => ([Eff_sem_post], Continues d 1)
    | On_crash =>
        let d := set_disposition (set_disposition d SIGABRT SIG_DFL) SIGSEGV On_crash in
        let reset := [Eff_signal SIGABRT SIG_DFL; Eff_signal SIGSEGV On_crash] in
        let log := Eff_pdlog terminated [strsignal sig] in
        match faults with
        | Fault_before_log :: faults =>
            let '(t, r) := deliver faults d (sig :: blocked) SIGSEGV in (reset ++ t, r)
        | Fault_after_log :: faults =>
            let '(t, r) := deliver faults d (sig :: blocked) SIGSEGV in (reset ++ log :: t, r)
        | _ => (reset ++ [log], Killed SIGABRT)   (* abort *)
        end
    end.

(** The dispositions that main sets up. *)
Definition main_dispositions : dispositions :=
  fun sig => match sig with SIGTERM => On_terminate | _ => On_crash end.

Definition handler_runs (t : list (effect Obj)) : nat :=
  length (List.filter (fun e => match e with Eff_signal SIGSEGV On_crash => true | _ => false end) t).

(** A crash within the crash handler: it runs at most once more. *)
Lemma deliver_segv_blocked faults d blocked : SIGSEGV ∈ blocked ->
  deliver faults d blocked SIGSEGV = ([], Killed SIGSEGV).
Proof using. intros H. by destruct faults; cbn; rewrite decide_True. Qed.

Lemma deliver_nested faults d :
  d SIGSEGV = On_crash -> d SIGABRT = SIG_DFL ->
  exists t s, deliver faults d [SIGABRT] SIGSEGV = (t, Killed s) /\ handler_runs t = 1%nat /\
    (length (pdlogs t) <= 1)%nat /\ Forall (fun l => l.1 = terminated) (pdlogs t).
Proof using.
  intros Hs Ha. destruct faults as [|[| |] faults]; cbn;
    rewrite decide_False by (apply not_elem_of_cons; split; [done|apply not_elem_of_nil]); rewrite Hs;
    rewrite ?deliver_segv_blocked by left; eexists _, _; split_and!; try done; cbn; try lia;
    repeat constructor.
Qed.
End signals.

(** ** Properties *)

(** C26: a crash always kills the process.  However often the crash handler
    itself crashes, it runs at most twice and writes at most two TERMINATED
    logs; unless it crashes before its log, the log names the signal; and
    without any crash of its own it writes that one log, with both signals'
    dispositions reset, and the process dies of SIGABRT (with a core). *)
Theorem crash_handler_kills {Obj : Type} (terminated : PDLog) (strsignal : signal -> bytes)
    (faults : list fault) (sig : signal) (Hsig : sig <> SIGTERM) :
  exists (t : list (effect Obj)) s,
    deliver terminated strsignal faults main_dispositions [] sig = (t, Killed s) /\
    (1 <= handler_runs t <= 2)%nat /\ (length (pdlogs t) <= 2)%nat /\
    Forall (fun l => l.1 = terminated) (pdlogs t) /\
    (head faults <> Some Fault_before_log -> head (pdlogs t) = Some (terminated, [strsignal sig])) /\
    (faults = [] -> s = SIGABRT /\
       t = [Eff_signal SIGABRT SIG_DFL; Eff_signal SIGSEGV On_crash;
            Eff_pdlog terminated [strsignal sig]]).
Proof.
  set (d := set_disposition (set_disposition main_dispositions SIGABRT SIG_DFL) SIGSEGV On_crash).
  destruct sig; [| |done]; destruct faults as [|[| |] faults]; cbn.
  all: try (eexists _, _; split; [reflexivity|]; cbn; split_and!; try done; try lia; by repeat constructor).
  1,2: destruct (deliver_nested (Obj := Obj) terminated strsignal faults d eq_refl eq_refl)
         as (t & s & E & Hr & Hl & Ht); unfold d in E; rewrite E;
       eexists _, _; split; [reflexivity|]; unfold handler_runs in *; cbn;
       split_and!; try done; try lia; by repeat constructor.
  1,2: rewrite deliver_segv_blocked by left; eexists _, _; split; [reflexivity|]; cbn;
       split_and!; try done; try lia; by repeat constructor.
Qed.

Lemma crash_handler_kills_witness :
  exists (t : list (effect unit)) s,
    deliver CL_ROGERS_TERMINATED (fun _ => lit "Aborted") [Fault_after_log] main_dispositions [] SIGABRT
      = (t, Killed s) /\ (1 <= handler_runs t <= 2)%nat.
Proof.
  destruct (crash_handler_kills (Obj := unit) CL_ROGERS_TERMINATED (fun _ => lit "Aborted")
    [Fault_after_log] SIGABRT) as (t & s & E & Hr & _); [discriminate|].
  exists t, s. split; [exact E|exact Hr].
Defined.

(** Each application's logs have different identities, and the ones that take
    a parameter are those for an option and for a signal. *)
Lemma log_offsets_distinct :
  NoDup (map pl_offset astaire_logs) /\ NoDup (map pl_offset rogers_logs) /\
  map (fun l => parameters (pl_message l)) astaire_logs = [1; 0; 0; 1; 0; 0; 0]%nat /\
  map (fun l => parameters (pl_message l)) rogers_logs = [1; 0; 0; 1]%nat.
Proof. split_and!; try reflexivity; refine (bool_decide_unpack _ _); vm_compute; exact I. Qed.
