(* ===== verification/GetOpt.v ===== *)
(** * Command line scanning

    The two main programs read their command lines with getopt_long and atoi of
    the C library.  This file models what they use of them: getopt_long with an
    empty string of short options and a table of long options, and the base-10
    conversion of atoi.  The scan is the state machine that its manual page
    describes: elements that are not options are skipped and moved behind the
    options, an element of two dashes ends the options, a long option may be
    abbreviated as long as that is unambiguous, and its argument follows an
    equals sign or is the next element.  POSIXLY_CORRECT is not set; what
    getopt_long prints to the standard error stream is left out.

    The theorems of the main programs rest on [loop_runs], which replaces a
    while loop over getopt_long by a fold over the options that a recursive
    reference parser finds, and on [parse_permuted], by which a second scan of
    the rearranged command line finds the same options. *)

From Stdlib Require Import ZArith Lia Strings.Byte Decimal DecimalString DecimalZ.
From stdpp Require Import prelude.
From S2P Require Import Prelude Process.

Open Scope Z_scope.

(** ** The table of long options *)

Inductive has_arg : Type := no_argument | required_argument.

#[export] Instance has_arg_eq_dec : EqDecision has_arg.
Proof. solve_decision. Defined.

(** struct option; the [flag] member is NULL throughout. *)
Record long_option : Type := mkOption {
  lo_name : bytes;
  lo_has_arg : has_arg;
  lo_val : Z
}.

(** What getopt_long returns for an option it cannot handle. *)
Definition question_mark : Z := 63.

(** ** The scan *)

(** The state of a scan.  [argv] is
    [go_front ++ go_nonopts ++ go_recent ++ go_rest], and [optind] the index of
    the first element of [go_rest]. *)
Record getopt_state : Type := mkGetopt {
  go_front : list bytes;     (* the program's name and the options moved to the front *)
  go_nonopts : list bytes;   (* elements that are not options, skipped so far *)
  go_recent : list bytes;    (* options seen since, not yet moved *)
  go_rest : list bytes;
  go_nextchar : bytes        (* what is left of a group of short options *)
}.

Definition go_argv (s : getopt_state) : list bytes :=
  go_front s ++ go_nonopts s ++ go_recent s ++ go_rest s.

(** [optind = 0] starts a new scan. *)
Definition getopt_init (argv : list bytes) : getopt_state :=
  match argv with
  | [] => mkGetopt [] [] [] [] []
  | name :: args => mkGetopt [name] [] [] args []
  end.

(** argv[optind - 1] *)
Definition go_previous (s : getopt_state) : option bytes :=
  last (go_front s ++ go_nonopts s ++ go_recent s).

Definition is_nonopt (a : bytes) : bool :=
  match a with
  | x2d :: _ :: _ => false
  | _ => true
  end.

Definition end_of_options : bytes := [x2d; x2d].

(** The longest prefix of elements that are not options, and what follows. *)
Fixpoint span_nonopts (args : list bytes) : list bytes * list bytes :=
  match args with
  | [] => ([], [])
  | a :: rest =>
      if is_nonopt a then let '(skipped, rest) := span_nonopts rest in (a :: skipped, rest)
      else ([], args)
  end.

(** Split a long option at its first equals sign. *)
Fixpoint split_equals (s : bytes) : bytes * option bytes :=
  match s with
  | [] => ([], None)
  | c :: s =>
      if decide (c = x3d) then ([], Some s)
      else let '(name, value) := split_equals s in (c :: name, value)
  end.

Fixpoint is_prefix (p s : bytes) : bool :=
  match p, s with
  | [], _ => true
  | c :: p, d :: s => bool_decide (c = d) && is_prefix p s
  | _ :: _, [] => false
  end.

(** An exact match, or else an abbreviation that leaves no doubt. *)
Definition find_long (tbl : list long_option) (name : bytes) : option long_option :=
  match List.find (fun o => bool_decide (lo_name o = name)) tbl with
  | Some o => Some o
  | None =>
      match List.filter (fun o => is_prefix name (lo_name o)) tbl with
      | [] => None
      | o :: os =>
          if forallb (fun o' => bool_decide (lo_has_arg o' = lo_has_arg o) && (lo_val o' =? lo_val o)) os
          then Some o else None
      end
  end.

(** A long option with the elements after it: the result, the argument, and
    whether the argument is the next element. *)
Definition long_result (tbl : list long_option) (text : bytes) (next : option bytes) :
    Z * option bytes * bool :=
  let '(name, value) := split_equals text in
  match find_long tbl name with
  | None => (question_mark, None, false)
  | Some o =>
      match lo_has_arg o, value with
      | required_argument, Some v => (lo_val o, Some v, false)
      | no_argument, Some _ => (question_mark, None, false)
      | no_argument, None => (lo_val o, None, false)
      | required_argument, None =>
          match next with
          | Some v => (lo_val o, Some v, true)
          | None => (question_mark, None, false)
          end
      end
  end.

(** One character of a group of short options: none is known. *)
Definition short_option (s : getopt_state) (a : bytes) (rest : list bytes) (more : bytes) :
    getopt_state * option (Z * option bytes) :=
  match more with
  | [] => (mkGetopt (go_front s) (go_nonopts s) (go_recent s ++ [a]) rest [],
           Some (question_mark, None))
  | _ => (mkGetopt (go_front s) (go_nonopts s) (go_recent s) (a :: rest) more,
          Some (question_mark, None))
  end.

(** Move the options seen since to the front, then skip what is not an option. *)
Definition advance (s : getopt_state) : getopt_state :=
  let '(skipped, rest) := span_nonopts (go_rest s) in
  mkGetopt (go_front s ++ go_recent s) (go_nonopts s ++ skipped) [] rest [].

(** A call: the option and [optarg], or [None] for -1. *)
Definition getopt_long (tbl : list long_option) (s : getopt_state) :
    getopt_state * option (Z * option bytes) :=
  match go_nextchar s, go_rest s with
  | _ :: more, a :: rest => short_option s a rest more
  | _, _ =>
      let s := advance s in
      match go_rest s with
      | [] => (s, None)
      | a :: rest =>
          if decide (a = end_of_options)
          then (mkGetopt (go_front s ++ [a]) (go_nonopts s) [] rest [], None)
          else
            match a with
            | x2d :: x2d :: text =>
                let '(opt, arg, takes_next) := long_result tbl text (head rest) in
                if (takes_next : bool)
                then (mkGetopt (go_front s) (go_nonopts s) (a :: take 1 rest) (drop 1 rest) [],
                      Some (opt, arg))
                else (mkGetopt (go_front s) (go_nonopts s) [a] rest [], Some (opt, arg))
            | _ => short_option s a rest (drop 2 a)
            end
      end
  end.

(** [while ((opt = getopt_long(...)) != -1) { body }]: the body sees the option,
    [optarg] and argv[optind - 1]. *)
Fixpoint getopt_loop {E S} (tbl : list long_option)
    (body : Z -> option bytes -> option bytes -> S -> eff E S)
    (fuel : nat) (g : getopt_state) (s : S) : eff E (getopt_state * S) :=
  match fuel with
  | O => stop Out_of_fuel
  | Datatypes.S fuel =>
      match getopt_long tbl g with
      | (g, None) => mret (g, s)
      | (g, Some (opt, optarg)) =>
          s ← body opt optarg (go_previous g) s;
          getopt_loop tbl body fuel g s
      end
  end.

(** Every call that returns an option uses up a character. *)
Definition args_size (args : list bytes) : nat := foldr (fun a n => (length a + n)%nat) 0%nat args.
Definition go_size (s : getopt_state) : nat :=
  match go_nextchar s, go_rest s with
  | _ :: _, _ :: rest => (length (go_nextchar s) + args_size rest)%nat
  | _, _ => args_size (go_rest s)
  end.

(** ** atoi *)

Definition is_space (b : byte) : bool :=
  let z := Z_of_byte b in (z =? 32) || ((9 <=? z) && (z <=? 13)).

Definition digit_of (b : byte) : option Z :=
  let z := Z_of_byte b in if (48 <=? z) && (z <=? 57) then Some (z - 48) else None.

Fixpoint skip_spaces (s : bytes) : bytes :=
  match s with
  | b :: s' => if is_space b then skip_spaces s' else s
  | [] => []
  end.

Fixpoint read_digits (s : bytes) (acc : Z) : Z :=
  match s with
  | b :: s => match digit_of b with Some d => read_digits s (10 * acc + d) | None => acc end
  | [] => acc
  end.

(** The value that the text denotes; anything after the digits is ignored. *)
Definition atoi_value (s : bytes) : Z :=
  match skip_spaces s with
  | x2d :: s => - read_digits s 0
  | x2b :: s => read_digits s 0
  | s => read_digits s 0
  end.

(** A value that an int cannot hold is undefined behaviour. *)
Definition fits_int (v : Z) : bool := (- 2 ^ 31 <=? v) && (v <? 2 ^ 31).
Definition atoi (s : bytes) : res Z :=
  let v := atoi_value s in if fits_int v then Val v else Fail Undefined.

(** ** The reference parser *)

(** An option found: the result of getopt_long, [optarg], argv[optind - 1]. *)
Definition event : Type := Z * option bytes * option bytes.

Record parsed : Type := mkParsed {
  pa_events : list event;
  pa_opts : list bytes;      (* the elements that make up the options *)
  pa_nonopts : list bytes;   (* the others, which end up behind them *)
  pa_missing : bool          (* the last option lacks its argument *)
}.

Definition pa_add (es : list event) (opts nonopts : list bytes) (missing : bool) (p : parsed) : parsed :=
  mkParsed (es ++ pa_events p) (opts ++ pa_opts p) (nonopts ++ pa_nonopts p)
    (missing || pa_missing p).

(** A group of short options: argv[optind - 1] is the element before it until
    its last character. *)
Definition group_events (before : option bytes) (a : bytes) : list event :=
  replicate (length (drop 2 a)) (question_mark, None, before) ++ [(question_mark, None, Some a)].

(** Does a long option need an argument that is not there? *)
Definition lacks_argument (tbl : list long_option) (text : bytes) : bool :=
  let '(name, value) := split_equals text in
  match find_long tbl name, value with
  | Some o, None => bool_decide (lo_has_arg o = required_argument)
  | _, _ => false
  end.

(** [p] and [q] are the last option element and the last other element before
    [args]. *)
Fixpoint parse_args (tbl : list long_option) (p q : option bytes) (args : list bytes) : parsed :=
  match args with
  | [] => mkParsed [] [] [] false
  | a :: rest =>
      if is_nonopt a then pa_add [] [] [a] false (parse_args tbl p (Some a) rest)
      else if decide (a = end_of_options) then mkParsed [] [a] rest false
      else
        match a with
        | x2d :: x2d :: text =>
            match rest with
            | v :: rest' =>
                let '(opt, arg, takes_next) := long_result tbl text (Some v) in
                if (takes_next : bool)
                then pa_add [(opt, arg, Some v)] [a; v] [] false (parse_args tbl (Some v) q rest')
                else pa_add [(opt, arg, Some a)] [a] [] false (parse_args tbl (Some a) q rest)
            | [] =>
                let '(opt, arg, _) := long_result tbl text None in
                mkParsed [(opt, arg, Some a)] [a] [] (lacks_argument tbl text)
            end
        | _ =>
            pa_add (group_events (match q with Some _ => q | None => p end) a) [a] [] false
              (parse_args tbl (Some a) q rest)
        end
  end.

(** The options of a whole command line, and the command line after the scan. *)
Definition parse_argv (tbl : list long_option) (argv : list bytes) : parsed :=
  match argv with
  | [] => mkParsed [] [] [] false
  | name :: args => parse_args tbl (Some name) None args
  end.

Definition permuted (tbl : list long_option) (argv : list bytes) : list bytes :=
  take 1 argv ++ pa_opts (parse_argv tbl argv) ++ pa_nonopts (parse_argv tbl argv).

Fixpoint run_events {E S} (body : Z -> option bytes -> option bytes -> S -> eff E S)
    (es : list event) (s : S) : eff E S :=
  match es with
  | [] => mret s
  | (opt, arg, prev) :: es => s ← body opt arg prev s; run_events body es s
  end.

(** ** Lemmas on the scan *)

Section scan.
Context {Ef S : Type} (tbl : list long_option).
Context (body : Z -> option bytes -> option bytes -> S -> eff Ef S).
Implicit Types (F N R args : list bytes) (s : S) (fuel : nat).

Lemma run_events_app es1 es2 s :
  run_events body (es1 ++ es2) s = (s' ← run_events body es1 s; run_events body es2 s').
Proof using.
  revert s. induction es1 as [|[[o a] p] es1 IH]; intros s; [symmetry; exact (eff_ret_l s _)|].
  cbn [app run_events]. rewrite eff_bind_assoc. by apply eff_bind_ext.
Qed.

Lemma not_nonopt a : is_nonopt a = false -> exists c more, a = x2d :: c :: more.
Proof using. destruct a as [|b [|c a]]; [done|by destruct b|]. destruct b; try done. eauto. Qed.

Lemma advance_skips a F N R args :
  is_nonopt a = true ->
  advance (mkGetopt F N R (a :: args) []) = advance (mkGetopt (F ++ R) (N ++ [a]) [] args []).
Proof using.
  intros Ha. unfold advance. cbn [go_rest go_front go_recent go_nonopts span_nonopts]. rewrite Ha.
  destruct (span_nonopts args). by rewrite app_nil_r, <- (assoc_L app N).
Qed.

Lemma loop_skips a F N R args fuel s :
  is_nonopt a = true ->
  getopt_loop tbl body fuel (mkGetopt F N R (a :: args) []) s =
  getopt_loop tbl body fuel (mkGetopt (F ++ R) (N ++ [a]) [] args []) s.
Proof using.
  intros Ha. destruct fuel; [done|]. cbn [getopt_loop].
  unfold getopt_long. cbn [go_nextchar]. by rewrite advance_skips.
Qed.

Lemma advance_stays a F N R args :
  is_nonopt a = false -> advance (mkGetopt F N R (a :: args) []) = mkGetopt (F ++ R) N [] (a :: args) [].
Proof using.
  intros Ha. unfold advance. cbn [go_rest go_front go_recent go_nonopts span_nonopts]. rewrite Ha.
  by rewrite app_nil_r.
Qed.

(** The rest of a group of short options. *)
Lemma loop_group more a F N R args fuel s c :
  getopt_loop tbl body (length more + 1 + fuel) (mkGetopt F N R (a :: args) (c :: more)) s =
  (s' ← run_events body
     (replicate (length more) (question_mark, None, last (F ++ N ++ R)) ++ [(question_mark, None, Some a)]) s;
   getopt_loop tbl body fuel (mkGetopt F N (R ++ [a]) args []) s').
Proof using.
  revert s c. induction more as [|d more IH]; intros s c.
  - cbn [length replicate app run_events Nat.add getopt_loop getopt_long go_nextchar go_rest short_option].
    unfold go_previous; cbn [go_front go_nonopts go_recent]. rewrite !app_assoc, last_snoc.
    rewrite eff_bind_assoc. apply eff_bind_ext. intros s'. by rewrite eff_ret_l.
  - cbn [length replicate app run_events Nat.add getopt_loop getopt_long go_nextchar go_rest short_option].
    unfold go_previous; cbn [go_front go_nonopts go_recent].
    rewrite eff_bind_assoc. by apply eff_bind_ext.
Qed.

Lemma last_app_snoc {A} (l k : list A) x : last (l ++ k ++ [x]) = Some x.
Proof using. by rewrite app_assoc, last_snoc. Qed.

Lemma last_or {A} (l k : list A) :
  last (l ++ k) = match last k with Some _ => last k | None => last l end.
Proof using.
  destruct k as [|x k _] using rev_ind; [by rewrite app_nil_r|].
  by rewrite last_app_snoc, last_snoc.
Qed.

Lemma last_app_cons {A} (l k : list A) x : last (l ++ x :: k) = last (x :: k).
Proof using.
  rewrite last_or. destruct (last (x :: k)) eqn:E; [done|]. by apply last_None in E.
Qed.

(** What a loop that starts with [args] before it does. *)
Definition runs (fuel : nat) F N R args (p : parsed) : Prop :=
  exists g, go_argv g = F ++ R ++ pa_opts p ++ N ++ pa_nonopts p /\ forall s,
    getopt_loop tbl body fuel (mkGetopt F N R args []) s =
    (s' ← run_events body (pa_events p) s; mret (g, s')).

Lemma runs_nil fuel F N R : runs (1 + fuel) F N R [] (mkParsed [] [] [] false).
Proof using.
  eexists. split; [|intros s; cbn [run_events pa_events]; rewrite eff_ret_l; reflexivity].
  unfold go_argv; cbn. by rewrite !app_nil_r, <- app_assoc.
Qed.

Lemma runs_end fuel F N R args :
  runs (1 + fuel) F N R (end_of_options :: args) (mkParsed [] [end_of_options] args false).
Proof using.
  eexists. split; [|intros s; cbn [run_events pa_events]; rewrite eff_ret_l; reflexivity].
  unfold go_argv; cbn. by rewrite app_nil_r, <- !app_assoc.
Qed.

(** Prefixing what comes out of a state by what was done to get there. *)
Lemma runs_after fuel fuel' F N R args es opts p F' R' args' :
  F' ++ R' = F ++ R ++ opts ->
  (forall s, getopt_loop tbl body fuel (mkGetopt F N R args []) s =
    (s' ← run_events body es s; getopt_loop tbl body fuel' (mkGetopt F' N R' args' []) s')) ->
  runs fuel' F' N R' args' p -> runs fuel F N R args (pa_add es opts [] false p).
Proof using.
  intros HF HE (g & Hg & Hr). exists g. cbn [pa_add pa_opts pa_nonopts pa_events].
  split; [rewrite Hg, (app_assoc F'), HF, <- !app_assoc; done|]. intros s.
  rewrite HE, run_events_app, eff_bind_assoc. by apply eff_bind_ext.
Qed.

Lemma runs_skip a fuel F N R args p :
  is_nonopt a = true -> runs fuel (F ++ R) (N ++ [a]) [] args p ->
  runs fuel F N R (a :: args) (pa_add [] [] [a] false p).
Proof using.
  intros Ha (g & Hg & E). exists g.
  split; [|intros s; by rewrite loop_skips]. rewrite Hg. cbn. by rewrite <- !app_assoc.
Qed.

(** One call that finds a long option, with its argument when that is the next
    element. *)
Lemma loop_long text F N R args fuel s :
  let a := x2d :: x2d :: text in
  a <> end_of_options ->
  let '(opt, arg, takes_next) := long_result tbl text (head args) in
  let n := if takes_next : bool then 1%nat else 0%nat in
  getopt_loop tbl body (1 + fuel) (mkGetopt F N R (a :: args) []) s =
  (s' ← run_events body [(opt, arg, last (a :: take n args))] s;
   getopt_loop tbl body fuel (mkGetopt (F ++ R) N (a :: take n args) (drop n args) []) s').
Proof using.
  intros a Ha. destruct (long_result tbl text (head args)) as [[opt arg] takes_next] eqn:E.
  cbn [Nat.add getopt_loop]. unfold getopt_long. cbn [go_nextchar]. rewrite advance_stays by done.
  cbn [go_rest go_front go_nonopts]. rewrite decide_False by done. subst a. cbv beta iota. rewrite E.
  destruct takes_next; cbn [take drop]; unfold go_previous; cbn [go_front go_nonopts go_recent run_events];
    rewrite !last_or; [destruct args as [|v args]|]; cbn [app last take];
    rewrite eff_bind_assoc; apply eff_bind_ext; intros s'; by rewrite eff_ret_l.
Qed.

Lemma loop_short c more F N R args fuel s :
  let a := x2d :: c :: more in
  is_nonopt a = false -> c <> x2d ->
  getopt_loop tbl body (length more + 1 + fuel) (mkGetopt F N R (a :: args) []) s =
  (s' ← run_events body (group_events (last ((F ++ R) ++ N)) a) s;
   getopt_loop tbl body fuel (mkGetopt (F ++ R) N [a] args []) s').
Proof using.
  intros a Ha Hc.
  pose proof (loop_group more a (F ++ R) N [] args fuel s x00) as Hg.
  rewrite app_nil_r in Hg. unfold group_events. subst a.
  change (drop 2 (x2d :: c :: more)) with more. cbn [app] in Hg. rewrite <- Hg. clear Hg.
  replace (length more + 1 + fuel)%nat with (1 + (length more + fuel))%nat by lia.
  cbn [Nat.add getopt_loop]. unfold getopt_long at 1. cbn [go_nextchar]. rewrite advance_stays by done.
  cbn [go_rest]. rewrite decide_False by (intros E; unfold end_of_options in E; simplify_eq).
  by destruct c.
Qed.
Lemma parse_ind (P : list bytes -> Prop) :
  P [] ->
  (forall a args, is_nonopt a = true -> P args -> P (a :: args)) ->
  (forall args, P (end_of_options :: args)) ->
  (forall text args, x2d :: x2d :: text <> end_of_options ->
     (forall n, P (drop n args)) -> P ((x2d :: x2d :: text) :: args)) ->
  (forall c more args, c <> x2d -> P args -> P ((x2d :: c :: more) :: args)) ->
  forall args, P args.
Proof using.
  intros Hnil Hnon Hend Hlong Hshort args.
  enough (forall n, P (drop n args)) as H by apply (H 0%nat).
  induction args as [|a args IH]; intros n; [by rewrite drop_nil|].
  destruct n as [|n]; [cbn [drop]|apply IH]. pose proof (IH 0%nat) as IH0. cbn [drop] in IH0.
  destruct (is_nonopt a) eqn:Ha; [auto|].
  destruct (decide (a = end_of_options)) as [->|Hne]; [apply Hend|].
  apply not_nonopt in Ha as (c & more & ->).
  destruct (decide (c = x2d)) as [->|Hc]; auto.
Qed.

(** A long option in the reference parser. *)
Lemma parse_long text p q args :
  x2d :: x2d :: text <> end_of_options ->
  let '(opt, arg, takes_next) := long_result tbl text (head args) in
  let n := if takes_next : bool then 1%nat else 0%nat in
  let a := x2d :: x2d :: text in
  parse_args tbl p q (a :: args) =
  pa_add [(opt, arg, last (a :: take n args))] (a :: take n args) []
    (bool_decide (args = []) && lacks_argument tbl text)
    (parse_args tbl (last (a :: take n args)) q (drop n args)).
Proof using.
  intros Hne. destruct args as [|v args].
  - cbn [head]. destruct (long_result tbl text None) as [[opt arg] tn] eqn:E.
    assert (tn = false) as ->.
    { unfold long_result in E. destruct (split_equals text) as [nm [v|]], (find_long tbl nm) as [o|];
        try destruct (lo_has_arg o); by simplify_eq. }
    cbn [parse_args is_nonopt]. rewrite decide_False by done. rewrite E. cbn.
    unfold pa_add; cbn. by destruct (lacks_argument tbl text).
  - cbn [head]. destruct (long_result tbl text (Some v)) as [[opt arg] tn] eqn:E.
    cbn [parse_args is_nonopt]. rewrite decide_False by done. rewrite E. by destruct tn.
Qed.

Lemma parse_short c more p q args :
  c <> x2d ->
  parse_args tbl p q ((x2d :: c :: more) :: args) =
  pa_add (group_events (match q with Some _ => q | None => p end) (x2d :: c :: more))
    [x2d :: c :: more] [] false (parse_args tbl (Some (x2d :: c :: more)) q args).
Proof using.
  intros Hc. cbn [parse_args is_nonopt].
  rewrite decide_False by (intros E; unfold end_of_options in E; simplify_eq). by destruct c.
Qed.

Lemma drop_size n args : (args_size (drop n args) <= args_size args)%nat.
Proof using.
  revert args. induction n as [|n IH]; intros [|a args]; cbn; [lia|lia|lia|].
  specialize (IH args). unfold args_size in *. cbn. lia.
Qed.

Lemma runs_missing fuel F N R args es opts non m m' ps :
  runs fuel F N R args (pa_add es opts non m ps) -> runs fuel F N R args (pa_add es opts non m' ps).
Proof using. done. Qed.

(** Given fuel for each of its characters, a loop over getopt_long runs its
    body on what the reference parser finds, and rearranges the elements. *)
Lemma loop_runs args : forall F N R fuel,
  (args_size args < fuel)%nat ->
  runs fuel F N R args (parse_args tbl (last (F ++ R)) (last N) args).
Proof using.
  induction args as [|a args Ha IH|args|text args Hne IH|c more args Hc IH] using parse_ind;
    intros F N R fuel Hf.
  - destruct fuel; [lia|]. apply runs_nil.
  - cbn [parse_args]. rewrite Ha. apply runs_skip; [done|].
    replace (Some a) with (last (N ++ [a])) by apply last_snoc.
    rewrite <- (app_nil_r (F ++ R)) at 2. apply IH. cbn in Hf. unfold args_size in *. lia.
  - destruct fuel; [lia|]. apply runs_end.
  - destruct fuel as [|fuel]; [lia|].
    pose proof (parse_long text (last (F ++ R)) (last N) args Hne) as Hp.
    pose proof (fun s => loop_long text F N R args fuel s Hne) as Hl.
    destruct (long_result tbl text (head args)) as [[opt arg] tn]. cbn zeta in Hp, Hl. rewrite Hp.
    eapply runs_missing, runs_after; [|exact Hl|]; [by rewrite <- app_assoc|].
    set (a := x2d :: x2d :: text) in *. set (n := if tn then 1%nat else 0%nat).
    replace (last (a :: take n args)) with (last ((F ++ R) ++ a :: take n args))
      by apply last_app_cons.
    apply IH. pose proof (drop_size n args). cbn in Hf. unfold args_size in *. lia.
  - rewrite parse_short by done. cbn in Hf.
    replace fuel with (length more + 1 + (fuel - (length more + 1)))%nat by lia.
    eapply runs_after; [|intros s; rewrite loop_short by done; rewrite last_or; reflexivity|];
      [by rewrite <- app_assoc|].
    replace (Some (x2d :: c :: more)) with (last ((F ++ R) ++ [x2d :: c :: more])) by apply last_snoc.
    apply IH. unfold args_size in *. lia.
Qed.
End scan.

Section permuted.
Context (tbl : list long_option).
Implicit Types (X args : list bytes).

Lemma long_result_next text next next' :
  lacks_argument tbl text = false -> long_result tbl text next = long_result tbl text next'.
Proof using.
  unfold lacks_argument, long_result. destruct (split_equals text) as [name value].
  destruct (find_long tbl name) as [o|]; [|done]. destruct value; [done|].
  by destruct (lo_has_arg o).
Qed.

Lemma long_result_takes text v :
  (long_result tbl text (Some v)).2 = lacks_argument tbl text.
Proof using.
  unfold lacks_argument, long_result. destruct (split_equals text) as [name value].
  destruct (find_long tbl name) as [o|]; [|by destruct value].
  by destruct (lo_has_arg o), value.
Qed.

Lemma long_result_none text opt arg : long_result tbl text None <> (opt, arg, true).
Proof using.
  unfold long_result. destruct (split_equals text) as [name [v|]], (find_long tbl name) as [o|];
    try destruct (lo_has_arg o); congruence.
Qed.

(** A long option has the same result among the rearranged elements [L]. *)
Lemma long_permuted text args L opt arg (tn : bool) :
  long_result tbl text (head args) = (opt, arg, tn) ->
  (bool_decide (args = []) && lacks_argument tbl text = false \/ L = []) ->
  long_result tbl text (head (take (if tn then 1 else 0) args ++ L)) = (opt, arg, tn).
Proof using.
  intros E Hm. destruct args as [|v args].
  - rewrite take_nil. cbn in *. destruct Hm as [Hm| ->]; [|done].
    by rewrite (long_result_next text _ None).
  - destruct tn; [done|]. rewrite (long_result_next text _ (Some v)); [done|].
    cbn in E. by rewrite <- (long_result_takes text v), E.
Qed.

Lemma parse_nonopts X p q :
  Forall (fun a => is_nonopt a = true) X -> parse_args tbl p q X = mkParsed [] [] X false.
Proof using.
  intros HX. revert p q. induction HX as [|a X Ha HX IH]; intros p q; [done|].
  cbn [parse_args]. by rewrite Ha, IH.
Qed.

(** [r'] describes the rearranged elements of [r], behind [X]. *)
Definition same_options X (r r' : parsed) : Prop :=
  (fst <$> pa_events r') = (fst <$> pa_events r) /\ pa_opts r' = pa_opts r /\
  pa_nonopts r' = X ++ pa_nonopts r.

Lemma same_options_add X es es' opts m m' r r' :
  (fst <$> es') = (fst <$> es) -> same_options X r r' ->
  same_options X (pa_add es opts [] m r) (pa_add es' opts [] m' r').
Proof using.
  intros He (H1 & H2 & H3). unfold same_options. cbn. rewrite !fmap_app, He, H1, H2, H3. done.
Qed.

(** Scanning the rearranged elements finds the same options; the exception is a
    last option that lacks its argument, which now takes the first of the
    elements that were moved behind it. *)
Lemma parse_permuted args : forall X p q p' q',
  Forall (fun a => is_nonopt a = true) X ->
  let r := parse_args tbl p q args in
  pa_missing r = false \/ X ++ pa_nonopts r = [] ->
  same_options X r (parse_args tbl p' q' (pa_opts r ++ X ++ pa_nonopts r)).
Proof using.
  induction args as [|a args Ha IH|args|text args Hne IH|c more args Hc IH] using parse_ind;
    intros X p q p' q' HX r Hm.
  - cbn. rewrite app_nil_r, parse_nonopts by done. unfold same_options; cbn. by rewrite app_nil_r.
  - subst r. cbn [parse_args] in *. rewrite Ha in *. cbn in Hm |- *.
    destruct (IH (X ++ [a]) p (Some a) p' q') as (H1 & H2 & H3);
      [by apply Forall_app; auto|by rewrite <- app_assoc|].
    rewrite <- app_assoc in H1, H2, H3. split_and!; [exact H1|exact H2|exact H3].
  - done.
  - subst r. pose proof (parse_long tbl text p q args Hne) as Hp.
    destruct (long_result tbl text (head args)) as [[opt arg] tn] eqn:El. cbn zeta in Hp.
    rewrite Hp in *. clear Hp. cbn [pa_add pa_opts pa_nonopts pa_missing app] in *.
    set (r := parse_args tbl _ q _) in *. set (L := pa_opts r ++ X ++ pa_nonopts r).
    assert (Hr : pa_missing r = false \/ X ++ pa_nonopts r = [])
      by (destruct Hm as [[_ ?]%orb_false_iff|?]; auto).
    set (L' := take (if tn then 1 else 0) args ++ L).
    replace ((take (if tn then 1%nat else 0%nat) args ++ pa_opts r) ++ X ++ pa_nonopts r) with L'
      by (unfold L', L; by rewrite <- app_assoc).
    assert (E : long_result tbl text (head L') = (opt, arg, tn)).
    { apply long_permuted; [done|]. destruct args as [|v args]; [|by left].
      destruct Hm as [[? _]%orb_false_iff|HX']; [by left|right].
      unfold L. rewrite HX'. by destruct tn. }
    pose proof (parse_long tbl text p' q' L' Hne) as Hp. rewrite E in Hp. cbn zeta in Hp.
    rewrite Hp.
    assert (take (if tn then 1 else 0) L' = take (if tn then 1 else 0) args /\
      drop (if tn then 1 else 0) L' = L) as [-> ->].
    { subst L'. destruct tn; [|done]. by destruct args; [apply long_result_none in El|]. }
    apply (same_options_add X _ _ (_ :: _)); [done|]. by apply IH.
  - subst r. rewrite parse_short in * by done. cbn [pa_add pa_opts pa_nonopts pa_missing app orb] in *.
    rewrite parse_short by done. apply (same_options_add X _ _ [_]); [|by apply IH].
    unfold group_events. by rewrite !fmap_app, !fmap_replicate.
Qed.
End permuted.

(** ** Whole command lines *)

Lemma argv_loop {Ef S} tbl (body : Z -> option bytes -> option bytes -> S -> eff Ef S) argv fuel s :
  (args_size argv < fuel)%nat ->
  exists g, go_argv g = permuted tbl argv /\
    getopt_loop tbl body fuel (getopt_init argv) s =
    (s' ← run_events body (pa_events (parse_argv tbl argv)) s; mret (g, s')).
Proof.
  intros Hf. destruct argv as [|name args].
  - destruct (loop_runs tbl body [] [] [] [] fuel Hf) as (g & Hg & E). exists g. by split.
  - destruct (loop_runs tbl body args [name] [] [] fuel) as (g & Hg & E);
      [cbn in Hf; unfold args_size in *; lia|]. exists g. split; [|done]. by rewrite Hg.
Qed.

(** The second scan of a command line: see [parse_permuted]. *)
Definition unambiguous (tbl : list long_option) (argv : list bytes) : Prop :=
  pa_missing (parse_argv tbl argv) = false \/ pa_nonopts (parse_argv tbl argv) = [].

#[export] Instance unambiguous_dec tbl argv : Decision (unambiguous tbl argv).
Proof. unfold unambiguous. apply _. Defined.

Lemma argv_permuted tbl argv :
  unambiguous tbl argv ->
  (fst <$> pa_events (parse_argv tbl (permuted tbl argv))) = (fst <$> pa_events (parse_argv tbl argv)) /\
  permuted tbl (permuted tbl argv) = permuted tbl argv.
Proof.
  destruct argv as [|name args]; [done|]. intros Hu. unfold permuted. cbn [take parse_argv app].
  destruct (parse_permuted tbl args [] (Some name) None (Some name) None) as (H1 & H2 & H3);
    [constructor|exact Hu|]. cbn [app] in *. split; [exact H1|]. exact (f_equal2 (fun a b => name :: a ++ b) H2 H3).
Qed.

(** The events of a scan depend on what a body looks at. *)
Lemma run_events_fst {Ef S} (body : Z -> option bytes -> option bytes -> S -> eff Ef S) es es' s :
  (forall o a p p' s, body o a p s = body o a p' s) -> (fst <$> es) = (fst <$> es') ->
  run_events body es s = run_events body es' s.
Proof.
  intros Hb. revert es' s. induction es as [|[[o a] p] es IH]; intros [|[[o' a'] p'] es'] s; cbn;
    intros E; simplify_eq; [done|]. rewrite (Hb o' a' p p' s).
  apply eff_bind_ext. auto.
Qed.

(** ** Printing options and numbers *)

Definition long_arg (name value : bytes) : bytes := [x2d; x2d] ++ name ++ [x3d] ++ value.

Lemma split_equals_app name value :
  x3d ∉ name -> split_equals (name ++ [x3d] ++ value) = (name, Some value).
Proof.
  induction name as [|c name IH]; intros Hn; [done|]. apply not_elem_of_cons in Hn as [Hc Hn].
  specialize (IH Hn). cbn [split_equals app] in *. rewrite decide_False by done. by rewrite IH.
Qed.

Definition decimal (z : Z) : bytes := lit (NilZero.string_of_int (Z.to_int z)).

Lemma read_digits_acc u acc :
  read_digits (lit (NilEmpty.string_of_uint u)) (Zpos acc) = Zpos (Pos.of_uint_acc u acc).
Proof.
  revert acc. induction u as [|u IH|u IH|u IH|u IH|u IH|u IH|u IH|u IH|u IH|u IH]; intros acc;
    [done|..]; cbn [NilEmpty.string_of_uint lit String.list_byte_of_string read_digits];
    (etransitivity; [|apply IH]); cbn; f_equal; lia.
Qed.

Lemma read_digits_uint u : read_digits (lit (NilEmpty.string_of_uint u)) 0 = Z.of_uint u.
Proof.
  induction u as [|u IH|u IH|u IH|u IH|u IH|u IH|u IH|u IH|u IH|u IH]; [done|exact IH|..];
    cbn [NilEmpty.string_of_uint lit String.list_byte_of_string read_digits];
    apply read_digits_acc.
Qed.

Lemma read_digits_zero u : read_digits (lit (NilZero.string_of_uint u)) 0 = Z.of_uint u.
Proof. destruct u; [done|..]; exact (read_digits_uint _). Qed.

Lemma atoi_value_uint u : atoi_value (lit (NilZero.string_of_uint u)) = Z.of_uint u.
Proof. rewrite <- read_digits_zero. by destruct u. Qed.

Lemma atoi_decimal z : in_i32 z -> atoi (decimal z) = Val z.
Proof.
  intros Hz. unfold atoi.
  assert (atoi_value (decimal z) = z) as ->.
  { rewrite <- (DecimalZ.of_to z) at 2. unfold decimal. destruct (Z.to_int z) as [u|u].
    - apply atoi_value_uint.
    - exact (f_equal Z.opp (read_digits_zero u)). }
  unfold in_i32 in Hz. unfold fits_int. destruct (_ && _) eqn:E; [done|]. apply andb_false_iff in E. lia.
Qed.

Lemma atoi_defined z : in_i32 z -> atoi_value (decimal z) = z /\ fits_int z = true.
Proof.
  intros Hz. pose proof (atoi_decimal z Hz) as E. unfold atoi in E.
  destruct (fits_int (atoi_value (decimal z))) eqn:Ef; [|done]. injection E as E. by rewrite E in Ef.
Qed.

(** ** What a scan finds *)

(** A result for an entry of the table comes with its argument. *)
Definition event_ok (tbl : list long_option) (e : event) : Prop :=
  is_Some e.2 /\
  (e.1 = (question_mark, None) \/
   exists o, o ∈ tbl /\ e.1.1 = lo_val o /\
     (lo_has_arg o = required_argument -> is_Some e.1.2)).

Lemma find_long_in tbl name o : find_long tbl name = Some o -> o ∈ tbl.
Proof.
  unfold find_long. intros E. apply list_elem_of_In.
  destruct (List.find _ tbl) as [o'|] eqn:Ef.
  - injection E as <-. by apply List.find_some in Ef as [??].
  - destruct (List.filter _ tbl) as [|o' os] eqn:Eg; [done|]. destruct (forallb _ os); simplify_eq.
    assert (In o (o :: os)) as Hin by by left. rewrite <- Eg in Hin. by apply List.filter_In in Hin as [? _].
Qed.

Lemma long_result_ok tbl text next opt arg tn prev :
  long_result tbl text next = (opt, arg, tn) -> is_Some prev -> event_ok tbl (opt, arg, prev).
Proof.
  unfold long_result, event_ok. cbn. intros E Hp. split; [done|].
  destruct (split_equals text) as [name value].
  destruct (find_long tbl name) as [o|] eqn:Ef; [|left; by simplify_eq].
  apply find_long_in in Ef.
  assert (forall a : option bytes, (lo_has_arg o = required_argument -> is_Some a) ->
    exists o', o' ∈ tbl /\ lo_val o = lo_val o' /\ (lo_has_arg o' = required_argument -> is_Some a)) as Hr
    by (intros a Ha; by exists o).
  destruct (lo_has_arg o) eqn:Eo, value as [v|]; [| | |destruct next]; simplify_eq;
    try (by left); right; apply Hr; intros; by eauto.
Qed.

Lemma parse_args_ok tbl args : forall p q,
  is_Some p -> Forall (event_ok tbl) (pa_events (parse_args tbl p q args)).
Proof.
  induction args as [|a args Ha IH|args|text args Hne IH|c more args Hc IH] using parse_ind; intros p q Hp.
  - constructor.
  - cbn [parse_args]. rewrite Ha. by apply IH.
  - constructor.
  - pose proof (parse_long tbl text p q args Hne) as E.
    destruct (long_result tbl text (head args)) as [[opt arg] tn] eqn:El. cbn zeta in E. rewrite E.
    assert (Hs : forall n, is_Some (last ((x2d :: x2d :: text) :: take n args))).
    { intros n. by apply last_is_Some. }
    cbn [pa_add pa_events]. constructor; [by eapply long_result_ok|]. by apply IH.
  - rewrite parse_short by done. cbn [pa_add pa_events]. apply Forall_app. split; [|by apply IH].
    unfold group_events. apply Forall_app. split.
    + apply Forall_replicate. split; [by destruct q|by left].
    + constructor; [|constructor]. split; [by eexists|by left].
Qed.

Lemma parse_argv_ok tbl argv : Forall (event_ok tbl) (pa_events (parse_argv tbl argv)).
Proof. destruct argv; [constructor|]. apply parse_args_ok. by eexists. Qed.

(** The last argument given for an option; was it given? *)
Definition given (opt : Z) (es : list (Z * option bytes)) : bool := existsb (fun e => e.1 =? opt) es.
Definition last_arg (opt : Z) (es : list (Z * option bytes)) : option bytes :=
  last (omap (fun e => if e.1 =? opt then e.2 else None) es).
Definition chosen (opt : Z) (es : list (Z * option bytes)) (d : bytes) : bytes :=
  default d (last_arg opt es).

Lemma last_cons_default {A} (x : A) l : last (x :: l) = Some (default x (last l)).
Proof.
  revert x. induction l as [|y l IH]; intros x; [done|].
  change (last (y :: l) = Some (default x (last (y :: l)))). by rewrite IH.
Qed.

Lemma last_arg_cons opt e es :
  last_arg opt (e :: es) = match last_arg opt es with
                           | Some v => Some v
                           | None => if e.1 =? opt then e.2 else None
                           end.
Proof.
  unfold last_arg. cbn [omap list_omap].
  destruct (if e.1 =? opt then e.2 else None) as [v|]; [|by destruct (last _)].
  rewrite last_cons_default. by destruct (last _).
Qed.

Lemma chosen_cons opt e es d :
  chosen opt (e :: es) d = chosen opt es (default d (if e.1 =? opt then e.2 else None)).
Proof. unfold chosen. rewrite last_arg_cons. by destruct (last_arg opt es). Qed.

(** An option with its argument, in one element or in two. *)
Definition opt_args (joined : bool) (name value : bytes) : list bytes :=
  if joined then [long_arg name value] else [[x2d; x2d] ++ name; value].

Lemma split_equals_none name : x3d ∉ name -> split_equals name = (name, None).
Proof.
  induction name as [|c name IH]; intros Hn; [done|]. apply not_elem_of_cons in Hn as [Hc Hn].
  cbn [split_equals]. rewrite decide_False by done. by rewrite IH.
Qed.

Section printed.
Context (tbl : list long_option).

Lemma parse_opt_args joined o value p q rest :
  find_long tbl (lo_name o) = Some o -> lo_has_arg o = required_argument ->
  x3d ∉ lo_name o -> lo_name o <> [] ->
  exists p', parse_args tbl p q (opt_args joined (lo_name o) value ++ rest) =
    pa_add [(lo_val o, Some value, p')] (opt_args joined (lo_name o) value) [] false
      (parse_args tbl p' q rest).
Proof using.
  intros Hf Hr Hn Hne. destruct joined; cbn [opt_args app].
  - assert (long_result tbl (lo_name o ++ [x3d] ++ value) (head rest) = (lo_val o, Some value, false)) as E.
    { unfold long_result. by rewrite split_equals_app, Hf, Hr. }
    assert (lacks_argument tbl (lo_name o ++ [x3d] ++ value) = false) as El.
    { unfold lacks_argument. by rewrite split_equals_app, Hf. }
    pose proof (parse_long tbl (lo_name o ++ [x3d] ++ value) p q rest) as Hp. rewrite E, El in Hp.
    rewrite andb_false_r in Hp. eexists. apply Hp. unfold end_of_options. destruct (lo_name o); [done|].
    by intros.
  - assert (long_result tbl (lo_name o) (Some value) = (lo_val o, Some value, true)) as E.
    { unfold long_result. by rewrite split_equals_none, Hf, Hr. }
    pose proof (parse_long tbl (lo_name o) p q (value :: rest)) as Hp. cbn [head] in Hp. rewrite E in Hp.
    eexists. apply Hp. unfold end_of_options. by destruct (lo_name o).
Qed.

Lemma parse_flag o p q rest :
  find_long tbl (lo_name o) = Some o -> lo_has_arg o = no_argument ->
  x3d ∉ lo_name o -> lo_name o <> [] ->
  exists p', parse_args tbl p q (([x2d; x2d] ++ lo_name o) :: rest) =
    pa_add [(lo_val o, None, p')] [[x2d; x2d] ++ lo_name o] [] false (parse_args tbl p' q rest).
Proof using.
  intros Hf Hr Hn Hne.
  assert (long_result tbl (lo_name o) (head rest) = (lo_val o, None, false)) as E.
  { unfold long_result. by rewrite split_equals_none, Hf, Hr. }
  assert (lacks_argument tbl (lo_name o) = false) as El.
  { unfold lacks_argument. by rewrite split_equals_none, Hf, Hr. }
  pose proof (parse_long tbl (lo_name o) p q rest) as Hp. rewrite E, El in Hp.
  rewrite andb_false_r in Hp. eexists. apply Hp. unfold end_of_options. by destruct (lo_name o).
Qed.

(** [args] give the options [vs], whatever surrounds them. *)
Definition prints (args : list bytes) (vs : list (Z * option bytes)) : Prop := forall p q rest,
  exists es p', (fst <$> es) = vs /\
    parse_args tbl p q (args ++ rest) = pa_add es args [] false (parse_args tbl p' q rest).

Lemma prints_nil : prints [] [].
Proof using. intros p q rest. exists [], p. split; [done|]. cbn. by destruct (parse_args tbl p q rest). Qed.

Lemma prints_app args args' vs vs' :
  prints args vs -> prints args' vs' -> prints (args ++ args') (vs ++ vs').
Proof using.
  intros H1 H2 p q rest. rewrite <- app_assoc.
  destruct (H1 p q (args' ++ rest)) as (es & p1 & <- & ->).
  destruct (H2 p1 q rest) as (es' & p2 & <- & ->). exists (es ++ es'), p2.
  rewrite fmap_app. split; [done|]. unfold pa_add. cbn. by rewrite !app_assoc.
Qed.

Lemma prints_arg joined o value :
  find_long tbl (lo_name o) = Some o -> lo_has_arg o = required_argument ->
  x3d ∉ lo_name o -> lo_name o <> [] ->
  prints (opt_args joined (lo_name o) value) [(lo_val o, Some value)].
Proof using.
  intros H1 H2 H3 H4 p q rest. destruct (parse_opt_args joined o value p q rest) as (p' & ->); try done.
  by exists [(lo_val o, Some value, p')], p'.
Qed.

Lemma prints_flag o :
  find_long tbl (lo_name o) = Some o -> lo_has_arg o = no_argument ->
  x3d ∉ lo_name o -> lo_name o <> [] ->
  prints [[x2d; x2d] ++ lo_name o] [(lo_val o, None)].
Proof using.
  intros H1 H2 H3 H4 p q rest. destruct (parse_flag o p q rest) as (p' & E); try done.
  exists [(lo_val o, None, p')], p'. by split.
Qed.

Lemma prints_argv name args vs extras :
  prints args vs -> Forall (fun a => is_nonopt a = true) extras ->
  unambiguous tbl (name :: args ++ extras) /\
  (fst <$> pa_events (parse_argv tbl (name :: args ++ extras))) = vs.
Proof using.
  intros Hp Hx. unfold unambiguous. cbn [parse_argv].
  destruct (Hp (Some name) None extras) as (es & p' & <- & ->). rewrite parse_nonopts by done.
  cbn. rewrite app_nil_r. by auto.
Qed.
End printed.

(** The conditions of [prints_arg] and [prints_flag] on an entry of a table. *)
Ltac table_entry :=
  first [reflexivity | refine (bool_decide_unpack _ _); vm_compute; exact I | discriminate].

(** ** Passes

    A pass over a command line is one loop; the programs make two of them, of
    which the second sees the elements as the first has rearranged them. *)

(** optind = 0; while (...) { body }; return 0;  The loop has fuel for every
    character, and argv is returned as it is after the scan. *)
Definition scan_pass {E S} (tbl : list long_option)
    (body : Z -> option bytes -> option bytes -> S -> eff E S) (argv : list bytes) (s : S) :
    eff E (list bytes * S * Z) :=
  '(g, s) ← getopt_loop tbl body (Datatypes.S (args_size argv)) (getopt_init argv) s;
  mret (go_argv g, s, 0).

Section passes.
Context {Ef S : Type} (tbl : list long_option).

(** [body] ends the program at the events in [halts], and otherwise changes the
    options by [step]. *)
Definition follows (body : Z -> option bytes -> option bytes -> S -> eff Ef S)
    (halts : event -> bool) (ended : event -> list Ef * failure)
    (step : Z * option bytes -> S -> S) : Prop :=
  forall e s, event_ok tbl e ->
    body e.1.1 e.1.2 e.2 s =
    if halts e then mkEff (ended e).1 (Fail (ended e).2) else mret (step e.1 s).

(** It is enough to look at the table. *)
Lemma follows_table (body : Z -> option bytes -> option bytes -> S -> eff Ef S)
    (halts : event -> bool) (ended : event -> list Ef * failure)
    (step : Z * option bytes -> S -> S) :
  (forall p s, let e := (question_mark, None, Some p) in
    body question_mark None (Some p) s =
    if halts e then mkEff (ended e).1 (Fail (ended e).2) else mret (step e.1 s)) ->
  Forall (fun o => forall arg p s, (lo_has_arg o = required_argument -> is_Some arg) ->
    body (lo_val o) arg (Some p) s =
    if halts (lo_val o, arg, Some p)
    then mkEff (ended (lo_val o, arg, Some p)).1 (Fail (ended (lo_val o, arg, Some p)).2)
    else mret (step (lo_val o, arg) s)) tbl ->
  follows body halts ended step.
Proof using.
  intros Hq Ht [[opt arg] prev] s [[p Hp] He]. cbn in Hp, He |- *. subst prev.
  destruct He as [E|(o & Ho & -> & Hr)].
  - injection E as -> ->. exact (Hq p s).
  - rewrite Forall_forall in Ht. exact (Ht o Ho arg p s Hr).
Qed.

Definition apply_all (step : Z * option bytes -> S -> S) (vs : list (Z * option bytes)) (s : S) : S :=
  foldl (fun s v => step v s) s vs.

Lemma run_follows body halts ended step es s :
  follows body halts ended step -> Forall (event_ok tbl) es ->
  run_events body es s =
  match List.find halts es with
  | Some e => mkEff (ended e).1 (Fail (ended e).2)
  | None => mret (apply_all step (fst <$> es) s)
  end.
Proof using.
  intros Hb Hes. revert s. induction Hes as [|[[o a] p] es He Hes IH]; intros s; [done|].
  cbn [run_events List.find fmap list_fmap fst apply_all foldl].
  pose proof (Hb _ s He) as E. cbn [fst snd] in E. rewrite E. destruct (halts _); [done|].
  by rewrite eff_ret_l, IH.
Qed.

Lemma scan_pass_ok (body : Z -> option bytes -> option bytes -> S -> eff Ef S) argv s :
  scan_pass tbl body argv s =
  (s ← run_events body (pa_events (parse_argv tbl argv)) s; mret (permuted tbl argv, s, 0)).
Proof using.
  unfold scan_pass.
  destruct (argv_loop tbl body argv (Datatypes.S (args_size argv)) s) as (g & Hg & E); [lia|].
  rewrite E, eff_bind_assoc. apply eff_bind_ext. intros s'. by rewrite eff_ret_l, Hg.
Qed.

(** The events of a command line at the second pass. *)
Definition second_events (argv : list bytes) : list event :=
  pa_events (parse_argv tbl (permuted tbl argv)).

Lemma find_existsb {A} (f : A -> bool) l : List.find f l = None <-> existsb f l = false.
Proof using.
  induction l as [|a l IH]; [done|]. cbn. destruct (f a); [done|exact IH].
Qed.

Lemma existsb_fst (f : Z * option bytes -> bool) (es : list event) :
  existsb (fun e => f e.1) es = existsb f (fst <$> es).
Proof using. induction es as [|e es IH]; [done|]. cbn. by rewrite IH. Qed.

(** The first pass, in terms of the events of the second. *)
Lemma first_scan body bad step argv s :
  unambiguous tbl argv -> (forall o a p p' s, body o a p s = body o a p' s) ->
  follows body (fun e => bad e.1) (fun _ => ([], Undefined)) step ->
  scan_pass tbl body argv s =
  if existsb bad (fst <$> second_events argv) then stop Undefined
  else mret (permuted tbl argv, apply_all step (fst <$> second_events argv) s, 0).
Proof using.
  intros Hu Hp Hf. rewrite scan_pass_ok.
  rewrite (run_events_fst _ _ (second_events argv)) by (done || symmetry; by apply argv_permuted).
  rewrite (run_follows _ _ _ _ _ _ Hf) by apply parse_argv_ok.
  destruct (List.find _ _) as [e|] eqn:E.
  - destruct (existsb bad _) eqn:E'; [done|].
    rewrite <- existsb_fst in E'. apply find_existsb in E'. discriminate (eq_trans (eq_sym E) E').
  - apply find_existsb in E. rewrite existsb_fst in E. by rewrite E, eff_ret_l.
Qed.

Lemma second_scan body halts ended step argv s :
  unambiguous tbl argv -> follows body halts ended step ->
  scan_pass tbl body (permuted tbl argv) s =
  match List.find halts (second_events argv) with
  | Some e => mkEff (ended e).1 (Fail (ended e).2)
  | None => mret (permuted tbl argv, apply_all step (fst <$> second_events argv) s, 0)
  end.
Proof using.
  intros Hu Hf. rewrite scan_pass_ok. fold (second_events argv).
  rewrite (run_follows _ _ _ _ _ _ Hf) by apply parse_argv_ok.
  destruct (argv_permuted tbl argv Hu) as [_ ->].
  destruct (List.find _ _) as [e|]; [done|by rewrite eff_ret_l].
Qed.

(** ** The fields that the passes compute *)

Lemma field_last {A} (f : S -> A) (g : bytes -> A) opt step vs s :
  (forall v s, f (step v s) = default (f s) (g <$> (if v.1 =? opt then v.2 else None))) ->
  f (apply_all step vs s) = default (f s) (g <$> last_arg opt vs).
Proof using.
  intros Hf. revert s. induction vs as [|v vs IH]; intros s; [done|].
  change (apply_all step (v :: vs) s) with (apply_all step vs (step v s)). rewrite IH, Hf, last_arg_cons. by destruct (last_arg opt vs).
Qed.

Lemma field_chosen (f : S -> bytes) opt step vs s :
  (forall v s, f (step v s) = default (f s) (if v.1 =? opt then v.2 else None)) ->
  f (apply_all step vs s) = chosen opt vs (f s).
Proof using.
  intros Hf. rewrite (field_last f (fun x => x) opt).
  - unfold chosen. by destruct (last_arg opt vs).
  - intros v s'. rewrite Hf. by destruct (if v.1 =? opt then v.2 else None).
Qed.

Lemma field_flag (f : S -> bool) opt step vs s :
  (forall v s, f (step v s) = f s || (v.1 =? opt)) -> f (apply_all step vs s) = f s || given opt vs.
Proof using.
  intros Hf. revert s. induction vs as [|v vs IH]; intros s; [by cbn; rewrite orb_false_r|].
  change (apply_all step (v :: vs) s) with (apply_all step vs (step v s)). cbn [given existsb].
  rewrite IH, Hf. by rewrite <- orb_assoc.
Qed.

Lemma field_same {A} (f : S -> A) step vs s :
  (forall v s, f (step v s) = f s) -> f (apply_all step vs s) = f s.
Proof using.
  intros Hf. revert s. induction vs as [|v vs IH]; intros s; [done|].
  change (apply_all step (v :: vs) s) with (apply_all step vs (step v s)). by rewrite IH, Hf.
Qed.
End passes.

(** An equation about one step, by cases on the option. *)
Ltac by_option step :=
  intros [opt arg] s; unfold step; cbn [fst snd];
  repeat match goal with
         | |- context [?a =? ?b] => destruct (Z.eqb_spec a b) as [Heq|]; [try subst opt|]; cbn [default];
             try discriminate Heq
         end; rewrite ?orb_true_r, ?orb_false_r; try done; by destruct arg.

(** [follows] for the entries of a table. *)
Ltac by_table :=
  apply follows_table; [|repeat constructor];
  intros; repeat match goal with H : _ -> is_Some _ |- _ => destruct (H eq_refl) as [? ->]; clear H end;
  try done.
