(* ===== verification/RogersMain.v ===== *)
(** * Rogers: the main program

    Models src/proxy_main.cpp: the options, the two passes over the command
    line, the signal handlers, and main, which sets up the objects of the proxy
    (the backend of Backend.v, the server of Proxy.v), waits for SIGTERM and
    takes them down.  The trace of effects is in the order of the code.  The
    pidfile, the configuration reader and the system calls of the server are
    inputs, and so are whether the trace log is on and whether the server's threads,
    which nothing joins, use the backend once it is deleted.  Of the trace log
    only the command line is kept, which is its own format; the alarm of the
    communication monitor is part of the monitor. *)

From Stdlib Require Import ZArith Lia Strings.Byte.
From stdpp Require Import prelude.
From S2P Require Import Prelude Process GetOpt Backend Proxy.

Open Scope Z_scope.

(** ** Options *)

Record options : Type := mkOptions {
  cluster_settings_file : bytes;
  bind_addr : bytes;
  log_to_file : bool;
  log_directory : bytes;
  log_level : Z;
  pidfile : bytes;
  daemon : bool
}.

(** enum Options *)
Definition CLUSTER_SETTINGS_FILE : Z := 256 + 1.
Definition BIND_ADDR : Z := CLUSTER_SETTINGS_FILE + 1.
Definition LOG_FILE : Z := BIND_ADDR + 1.
Definition LOG_LEVEL : Z := LOG_FILE + 1.
Definition PIDFILE : Z := LOG_LEVEL + 1.
Definition DAEMON : Z := PIDFILE + 1.
Definition HELP : Z := DAEMON + 1.

Definition long_opt : list long_option :=
  [ mkOption (lit "cluster-settings-file") required_argument CLUSTER_SETTINGS_FILE;
    mkOption (lit "bind-addr") required_argument BIND_ADDR;
    mkOption (lit "log-file") required_argument LOG_FILE;
    mkOption (lit "log-level") required_argument LOG_LEVEL;
    mkOption (lit "pidfile") required_argument PIDFILE;
    mkOption (lit "daemon") no_argument DAEMON;
    mkOption (lit "help") no_argument HELP ].

Definition usage_text : bytes := lit "Options:

 --cluster-settings-file=<filename>
                            The filename of the cluster settings file
 --bind-addr=<IP>           The IP address to bind to (default: all)
 --log-file=<directory>     Log to file in specified directory
 --log-level=N              Set log level to N (default: 4)
 --pidfile=<filename>       Write pidfile
 --daemon                   Run as daemon
 --help                     Show this help screen
".

(** The objects that main creates. *)
Inductive object : Type :=
| O_alarm_manager
| O_view_cfg
| O_comm_monitor
| O_vbucket_alarm
| O_backend
| O_proxy_server.

#[export] Instance object_eq_dec : EqDecision object.
Proof. solve_decision. Defined.

Abbreviation prog := (eff (effect object)).

Definition usage : prog unit := emit (Eff_puts usage_text).

Definition set_log_file (v : bytes) (o : options) : options :=
  mkOptions (cluster_settings_file o) (bind_addr o) true v (log_level o) (pidfile o) (daemon o).
Definition set_log_level (v : Z) (o : options) : options :=
  mkOptions (cluster_settings_file o) (bind_addr o) (log_to_file o) (log_directory o) v (pidfile o) (daemon o).
Definition set_daemon (o : options) : options :=
  mkOptions (cluster_settings_file o) (bind_addr o) (log_to_file o) (log_directory o) (log_level o) (pidfile o) true.
Definition set_cluster_settings_file (v : bytes) (o : options) : options :=
  mkOptions v (bind_addr o) (log_to_file o) (log_directory o) (log_level o) (pidfile o) (daemon o).
Definition set_bind_addr (v : bytes) (o : options) : options :=
  mkOptions (cluster_settings_file o) v (log_to_file o) (log_directory o) (log_level o) (pidfile o) (daemon o).
Definition set_pidfile (v : bytes) (o : options) : options :=
  mkOptions (cluster_settings_file o) (bind_addr o) (log_to_file o) (log_directory o) (log_level o) v (daemon o).

(** The switch of the first pass: other options are ignored. *)
Definition logging_option (opt : Z) (optarg prev : option bytes) (o : options) : prog options :=
  if opt =? LOG_FILE then v ← lift (use optarg); mret (set_log_file v o)
  else if opt =? LOG_LEVEL then
    v ← lift (use optarg); level ← lift (atoi v); mret (set_log_level level o)
  else if opt =? DAEMON then mret (set_daemon o)
  else mret o.

Definition init_logging_options (argv : list bytes) (o : options) : prog (list bytes * options * Z) :=
  scan_pass long_opt logging_option argv o.

(** The switch of the second pass. *)
Definition other_option (opt : Z) (optarg prev : option bytes) (o : options) : prog options :=
  if opt =? CLUSTER_SETTINGS_FILE then
    v ← lift (use optarg); mret (set_cluster_settings_file v o)
  else if opt =? BIND_ADDR then v ← lift (use optarg); mret (set_bind_addr v o)
  else if opt =? PIDFILE then v ← lift (use optarg); mret (set_pidfile v o)
  else if opt =? HELP then
    _ ← usage; _ ← emit (Eff_pdlog CL_ROGERS_ENDED []); stop (Exited 0)
  else if (opt =? DAEMON) || (opt =? LOG_LEVEL) || (opt =? LOG_FILE) then mret o
  else
    name ← lift (use prev);
    _ ← emit (Eff_pdlog CL_ROGERS_INVALID_OPTION [name]);
    stop (Exited 2).

Definition init_options (argv : list bytes) (o : options) : prog (list bytes * options * Z) :=
  scan_pass long_opt other_option argv o.

(** The values main starts from. *)
Definition default_options : options := mkOptions [] [] false [] 0 [] false.

(** ** Signals *)

Definition terminate_handler : prog unit := emit Eff_sem_post.

(** signal_handler, as the reaction to a signal that main set it up for. *)
Definition signal_handler (strsignal : signal -> bytes) (faults : list fault) (sig : signal) :
    list (effect object) * delivery :=
  deliver CL_ROGERS_TERMINATED strsignal faults main_dispositions [] sig.

(** ** main *)

(** What main meets. *)
Record env : Type := mkEnv {
  re_info_enabled : Z -> bool;          (* is TRC_INFO written at a log level? *)
  re_lock_pidfile : bytes -> Z;         (* Utils::lock_and_write_pidfile *)
  re_config_valid : bool;               (* the configuration can be read at the check *)
  re_config : option store_view;        (* what the backend's updater reads then *)
  re_clock : list Z;
  re_start : start_env;
  re_sigterms : nat;                    (* how often SIGTERM arrives *)
  re_in_use : bool                      (* do its threads use the server or the backend after their deletion? *)
}.

(** The backend as its constructor leaves it, its updater run once. *)
Definition new_backend (e : env) : MemcachedBackend :=
  update_config (re_config e) (MemcachedBackend_new true true (re_clock e)).

(** The command line, which main passes to the trace log as its format. *)
Definition command_line (argv : list bytes) : bytes :=
  lit "Command-line options were: " ++ concat (map (fun a => a ++ lit " ") argv).

(** Up to the reading of the options. *)
Definition read_options (e : env) (argv : list bytes) : prog (options * Z) :=
  _ ← emit (Eff_signal SIGABRT On_crash);
  _ ← emit (Eff_signal SIGSEGV On_crash);
  _ ← emit (Eff_sem_init 0);
  _ ← emit (Eff_signal SIGTERM On_terminate);
  '(argv, options, rc) ← init_logging_options argv default_options;
  if negb (rc =? 0) then mret (options, 1)
  else
    _ ← emit (Eff_daemon_log_setup (daemon options) (log_directory options) (log_level options)
                (log_to_file options));
    _ ← emit (Eff_pdlog CL_ROGERS_STARTED []);
    _ ← TRC_INFO (re_info_enabled e (log_level options)) (command_line argv);
    '(_, options, rc) ← init_options argv options;
    if negb (rc =? 0) then mret (options, 1) else mret (options, 0).

(** From sem_wait on. *)
Definition wait_and_shut_down (e : env) : prog Z :=
  _ ← emit Eff_sem_wait;
  match re_sigterms e with
  | O => stop Blocked
  | S _ =>
      _ ← emit (Eff_pdlog CL_ROGERS_ENDED []);
      _ ← emit (Eff_delete O_proxy_server);
      _ ← emit (Eff_delete O_comm_monitor);
      _ ← emit (Eff_delete O_vbucket_alarm);
      _ ← emit (Eff_delete O_backend);
      _ ← (if re_in_use e then stop Undefined else mret tt);
      _ ← emit (Eff_delete O_alarm_manager);
      _ ← emit (Eff_delete O_view_cfg);
      _ ← emit (Eff_signal SIGTERM SIG_DFL);
      _ ← emit Eff_sem_destroy;
      mret 0
  end.

(** From the check of the options to the start of the server. *)
Definition set_up (e : env) (options : options) : prog Z :=
  _ ← emit Eff_start_signal_handlers;
  _ ← emit (Eff_new O_alarm_manager);
  _ ← emit (Eff_new O_view_cfg);
  if negb (re_config_valid e) then mret 3
  else
    _ ← emit (Eff_new O_comm_monitor);
    _ ← emit (Eff_new O_vbucket_alarm);
    _ ← emit (Eff_new O_backend);
    _ ← emit (Eff_new O_proxy_server);
    let '(listen_sock, started) := start (re_start e) (bind_addr options) in
    if negb started then mret 4
    else _ ← emit (Eff_listen listen_sock); wait_and_shut_down e.

(** The whole of it: what main returns. *)
Definition main (e : env) (argv : list bytes) : prog Z :=
  '(options, rc) ← read_options e argv;
  if negb (rc =? 0) then mret rc
  else if decide (cluster_settings_file options = []) then mret 2
  else if decide (pidfile options = []) then set_up e options
  else
    _ ← emit (Eff_lock_pidfile (pidfile options));
    if re_lock_pidfile e (pidfile options) =? -1 then mret 2
    else set_up e options.

(** ** What the options should be *)

(** The options that a command line asks for, read off what it gives: the last
    value of each. *)
Definition expected_options (vs : list (Z * option bytes)) : options :=
  mkOptions (chosen CLUSTER_SETTINGS_FILE vs []) (chosen BIND_ADDR vs [])
    (given LOG_FILE vs) (chosen LOG_FILE vs [])
    (match last_arg LOG_LEVEL vs with Some s => atoi_value s | None => 0 end)
    (chosen PIDFILE vs []) (given DAEMON vs).

(** A log level that atoi cannot convert. *)
Definition overflows (v : Z * option bytes) : bool :=
  (v.1 =? LOG_LEVEL) && match v.2 with Some s => negb (fits_int (atoi_value s)) | None => false end.

(** The options that end the program, and how. *)
Definition is_stop (e : event) : bool := (e.1.1 =? HELP) || (e.1.1 =? question_mark).
Definition ended_by (e : event) : list (effect object) * failure :=
  if e.1.1 =? HELP
  then ([Eff_puts usage_text; Eff_pdlog CL_ROGERS_ENDED []], Exited 0)
  else ([Eff_pdlog CL_ROGERS_INVALID_OPTION [default [] e.2]], Exited 2).

(** The events of a command line at the second pass. *)
Definition events_of (argv : list bytes) : list event := second_events long_opt argv.

(** Both passes, one after the other as in main. *)
Definition both_passes (argv : list bytes) : prog options :=
  '(argv, o, _) ← init_logging_options argv default_options;
  '(_, o, _) ← init_options argv o;
  mret o.

(** ** Lemmas *)

(** What the passes do to the options, one event at a time. *)
Definition logging_step (v : Z * option bytes) (o : options) : options :=
  if v.1 =? LOG_FILE then set_log_file (default (log_directory o) v.2) o
  else if v.1 =? LOG_LEVEL then set_log_level (default (log_level o) (atoi_value <$> v.2)) o
  else if v.1 =? DAEMON then set_daemon o
  else o.

Definition other_step (v : Z * option bytes) (o : options) : options :=
  if v.1 =? CLUSTER_SETTINGS_FILE then set_cluster_settings_file (default (cluster_settings_file o) v.2) o
  else if v.1 =? BIND_ADDR then set_bind_addr (default (bind_addr o) v.2) o
  else if v.1 =? PIDFILE then set_pidfile (default (pidfile o) v.2) o
  else o.

Lemma rogers_logging_follows :
  follows long_opt logging_option (fun e => overflows e.1) (fun _ => ([], Undefined)) logging_step.
Proof.
  by_table. unfold logging_option, atoi, overflows. cbn -[fits_int atoi_value]. by destruct (fits_int _).
Qed.

Lemma rogers_other_follows : follows long_opt other_option is_stop ended_by other_step.
Proof. by_table. Qed.

Lemma rogers_options_ext o o' :
  cluster_settings_file o = cluster_settings_file o' -> bind_addr o = bind_addr o' ->
  log_to_file o = log_to_file o' -> log_directory o = log_directory o' -> log_level o = log_level o' ->
  pidfile o = pidfile o' -> daemon o = daemon o' -> o = o'.
Proof. destruct o, o'; cbn; congruence. Qed.

(** Field by field, the passes give what the command line asks for. *)
Lemma rogers_passes_expected vs :
  apply_all other_step vs (apply_all logging_step vs default_options) = expected_options vs.
Proof.
  apply rogers_options_ext; cbn [expected_options cluster_settings_file bind_addr log_to_file log_directory log_level pidfile daemon].
  - rewrite (field_chosen _ CLUSTER_SETTINGS_FILE other_step) by by_option other_step.
    by rewrite (field_same _ logging_step) by by_option logging_step.
  - rewrite (field_chosen _ BIND_ADDR other_step) by by_option other_step.
    by rewrite (field_same _ logging_step) by by_option logging_step.
  - rewrite (field_same _ other_step) by by_option other_step.
    by rewrite (field_flag _ LOG_FILE logging_step) by by_option logging_step.
  - rewrite (field_same _ other_step) by by_option other_step.
    by rewrite (field_chosen _ LOG_FILE logging_step) by by_option logging_step.
  - rewrite (field_same _ other_step) by by_option other_step.
    rewrite (field_last _ atoi_value LOG_LEVEL logging_step) by by_option logging_step.
    by destruct (last_arg LOG_LEVEL vs).
  - rewrite (field_chosen _ PIDFILE other_step) by by_option other_step.
    by rewrite (field_same _ logging_step) by by_option logging_step.
  - rewrite (field_same _ other_step) by by_option other_step.
    by rewrite (field_flag _ DAEMON logging_step) by by_option logging_step.
Qed.

Lemma rogers_first_pass argv :
  unambiguous long_opt argv ->
  init_logging_options argv default_options =
  if existsb overflows (fst <$> events_of argv) then stop Undefined
  else mret (permuted long_opt argv, apply_all logging_step (fst <$> events_of argv) default_options, 0).
Proof. intros Hu. by apply first_scan, rogers_logging_follows. Qed.

Lemma rogers_second_pass argv o :
  unambiguous long_opt argv ->
  init_options (permuted long_opt argv) o =
  match List.find is_stop (events_of argv) with
  | Some e => mkEff (ended_by e).1 (Fail (ended_by e).2)
  | None => mret (permuted long_opt argv, apply_all other_step (fst <$> events_of argv) o, 0)
  end.
Proof. intros Hu. by apply second_scan, rogers_other_follows. Qed.

Lemma rogers_both_passes argv :
  unambiguous long_opt argv ->
  both_passes argv =
  if existsb overflows (fst <$> events_of argv) then stop Undefined
  else match List.find is_stop (events_of argv) with
       | Some e => mkEff (ended_by e).1 (Fail (ended_by e).2)
       | None => mret (expected_options (fst <$> events_of argv))
       end.
Proof.
  intros Hu. unfold both_passes. rewrite rogers_first_pass by done.
  destruct (existsb overflows _); [done|]. rewrite eff_ret_l, rogers_second_pass by done.
  destruct (List.find is_stop _) as [e|]; [done|].
  by rewrite eff_ret_l, rogers_passes_expected.
Qed.

(** ** How a run ends *)

Inductive run_end : Type :=
| Bad_level                   (* atoi cannot convert a log level *)
| Bad_format                  (* the command line is printed and has a conversion *)
| Stopped_by (e : event)      (* --help, or an option that is not one *)
| No_settings
| No_pidfile
| Bad_config
| No_server
| Serving_still               (* waiting for SIGTERM *)
| In_use                      (* a request was being served when the backend was deleted *)
| Finished.

(** What the trace log shows of the command line, if that is defined. *)
Definition shown (e : env) (argv : list bytes) : option (option bytes) :=
  info_shown (re_info_enabled e (log_level (expected_options (fst <$> events_of argv))))
    (command_line (permuted long_opt argv)).

Definition expected_end (e : env) (argv : list bytes) : run_end :=
  if existsb overflows (fst <$> events_of argv) then Bad_level
  else if bool_decide (shown e argv = None) then Bad_format
  else match List.find is_stop (events_of argv) with
  | Some ev => Stopped_by ev
  | None =>
      let o := expected_options (fst <$> events_of argv) in
      if bool_decide (cluster_settings_file o = []) then No_settings
      else if bool_decide (pidfile o <> []) && (re_lock_pidfile e (pidfile o) =? -1) then No_pidfile
      else if negb (re_config_valid e) then Bad_config
      else if negb (start (re_start e) (bind_addr o)).2 then No_server
      else match re_sigterms e with
           | O => Serving_still
           | S _ => if re_in_use e then In_use else Finished
           end
  end.

(** The result of main, the logs, and whether clients are served. *)
Definition end_result (r : run_end) : res Z :=
  match r with
  | Bad_level | Bad_format => Fail Undefined
  | Stopped_by ev => Fail (Exited (if ev.1.1 =? HELP then 0 else 2))
  | No_settings | No_pidfile => Val 2
  | Bad_config => Val 3
  | No_server => Val 4
  | Serving_still => Fail Blocked
  | In_use => Fail Undefined
  | Finished => Val 0
  end.
Definition end_logs (r : run_end) : list (PDLog * list bytes) :=
  match r with
  | Bad_level => []
  | Stopped_by ev =>
      [(CL_ROGERS_STARTED, []);
       if ev.1.1 =? HELP then (CL_ROGERS_ENDED, [])
       else (CL_ROGERS_INVALID_OPTION, [default [] ev.2])]
  | In_use | Finished => [(CL_ROGERS_STARTED, []); (CL_ROGERS_ENDED, [])]
  | _ => [(CL_ROGERS_STARTED, [])]
  end.
Definition end_traces (e : env) (argv : list bytes) (r : run_end) : list bytes :=
  match r with
  | Bad_level | Bad_format => []
  | _ => match shown e argv with Some (Some text) => [text] | _ => [] end
  end.
Definition end_serves (r : run_end) : bool :=
  match r with Serving_still | In_use | Finished => true | _ => false end.

(** What a trace shows at the end of a run. *)
Definition run_shows (e : env) (argv : list bytes) (r : run_end) (m : prog Z) : Prop :=
  eff_result m = end_result r /\ pdlogs (eff_trace m) = end_logs r /\
  traces (eff_trace m) = end_traces e argv r /\
  listens (eff_trace m) = end_serves r /\
  (r = Finished -> lifetimes (eff_trace m) [] = Some []).

(** What main does before it reads any option. *)
Definition opening : list (effect object) :=
  [Eff_signal SIGABRT On_crash; Eff_signal SIGSEGV On_crash; Eff_sem_init 0;
   Eff_signal SIGTERM On_terminate].
Definition log_set_up (o : options) : list (effect object) :=
  [Eff_daemon_log_setup (daemon o) (log_directory o) (log_level o) (log_to_file o);
   Eff_pdlog CL_ROGERS_STARTED []].

Lemma rogers_read_options_spec e argv :
  unambiguous long_opt argv ->
  read_options e argv =
  let o := expected_options (fst <$> events_of argv) in
  if existsb overflows (fst <$> events_of argv) then mkEff opening (Fail Undefined)
  else match shown e argv with
       | None => mkEff (opening ++ log_set_up o) (Fail Undefined)
       | Some text =>
           mkEff (opening ++ log_set_up o ++ trace_of text ++
                  match List.find is_stop (events_of argv) with
                  | Some ev => (ended_by ev).1
                  | None => []
                  end)
                 match List.find is_stop (events_of argv) with
                 | Some ev => Fail (ended_by ev).2
                 | None => Val (o, 0)
                 end
       end.
Proof.
  intros Hu. unfold read_options. rewrite rogers_first_pass by done. cbn zeta.
  destruct (existsb overflows _); [done|]. rewrite eff_ret_l. cbn [Z.eqb negb].
  rewrite rogers_second_pass, TRC_INFO_spec by done.
  unfold shown, log_set_up. rewrite <- rogers_passes_expected.
  rewrite (field_same daemon other_step), (field_same log_directory other_step),
    (field_same log_level other_step), (field_same log_to_file other_step) by by_option other_step.
  destruct (info_shown _ _) as [text|]; [|done].
  destruct (List.find is_stop _) as [ev|]; [|rewrite eff_ret_l]; by destruct text.
Qed.

Ltac show_run :=
  unfold run_shows, end_result, end_logs, end_traces; cbn -[shown];
  repeat match goal with H : (_ =? _) = _ |- _ => rewrite H end;
  repeat match goal with H : shown _ _ = _ |- _ => rewrite H; clear H end;
  try match goal with text : option bytes |- _ => destruct text end; by split_and!.

Lemma rogers_main_spec (e : env) (argv : list bytes) :
  unambiguous long_opt argv -> run_shows e argv (expected_end e argv) (main e argv).
Proof.
  intros Hu. unfold main. rewrite rogers_read_options_spec by done. unfold expected_end.
  cbn zeta. destruct (existsb overflows _); [show_run|].
  destruct (shown e argv) as [text|] eqn:Eshown;
    [rewrite bool_decide_eq_false_2 by done|rewrite bool_decide_eq_true_2 by done; show_run].
  destruct (List.find is_stop (events_of argv)) as [ev|].
  { unfold ended_by. destruct (ev.1.1 =? HELP) eqn:E; show_run. }
  set (o := expected_options _). cbn zeta.
  rewrite <- decide_bool_decide.
  unfold mbind at 1, eff_bind at 1. cbn [eff_result eff_trace Z.eqb negb].
  destruct (decide (cluster_settings_file o = [])); [show_run|].
  unfold set_up, wait_and_shut_down. destruct (start (re_start e) (bind_addr o)) as [sock started].
  destruct (decide (pidfile o = [])) as [Hp|Hp];
    [rewrite bool_decide_eq_false_2 by tauto|rewrite bool_decide_eq_true_2 by done];
    cbn [andb]; [|destruct (re_lock_pidfile e (pidfile o) =? -1); [show_run|]];
    (destruct (re_config_valid e); [|show_run]); (destruct started; [|show_run]);
    (destruct (re_sigterms e); [show_run|]); destruct (re_in_use e); show_run.
Qed.

(** ** Properties *)

(** C23: the two passes over the command line, the second of which scans an argv
    that the first has rearranged, amount to one: each option has its last
    value, a flag is set when it is given, and --help or an invalid option ends
    the program in the order of the command line, after its log, with 0 or 2.
    The exceptions are a log level that an int cannot hold, where atoi has no
    defined behaviour, and (the hypothesis) a last option that lacks its
    argument on a command line that also has elements that are not options. *)
Theorem rogers_options_correct (argv : list bytes) (Hu : unambiguous long_opt argv) :
  both_passes argv =
  if existsb overflows (fst <$> events_of argv) then stop Undefined
  else match List.find is_stop (events_of argv) with
       | Some e => mkEff (ended_by e).1 (Fail (ended_by e).2)
       | None => mret (expected_options (fst <$> events_of argv))
       end.
Proof. by apply rogers_both_passes. Qed.

Definition example_argv : list bytes :=
  [lit "rogers"; lit "extra"; lit "--log-l"; lit "2"; lit "--daemon"; lit "--log-level=-7x";
   lit "--cluster-settings-file"; lit "/etc/c"; lit "--"; lit "--help"].

Lemma rogers_options_correct_witness :
  unambiguous long_opt example_argv /\
  both_passes example_argv = mret (mkOptions (lit "/etc/c") [] false [] (-7) [] true).
Proof.
  assert (Hu : unambiguous long_opt example_argv) by (refine (bool_decide_unpack _ _); vm_compute; exact I).
  split; [exact Hu|]. rewrite (rogers_options_correct example_argv Hu). vm_compute. reflexivity.
Defined.

(** The excepted command lines: what is not an option in the first pass is the
    argument of the last option in the second. *)
Lemma missing_argument_found :
  both_passes [lit "rogers"; lit "stray"; lit "--cluster-settings-file"] =
  mret (mkOptions (lit "stray") [] false [] 0 [] false).
Proof. vm_compute. reflexivity. Qed.

(** C24: how a run of rogers ends, as a function of the command line and of what
    it meets: the value main returns or exits with, the logs it leaves (STARTED
    once the options for logging are read, then ENDED exactly when it stops on
    --help or SIGTERM, INVALID_OPTION only for an invalid option), the command
    line in the trace log if that is on, that clients are served only if all
    checks passed, and that a run that ends normally deletes every object it
    created, once.  The ends without defined behaviour are among them: a log
    level that an int cannot hold, a command line with a printf conversion when
    it is traced, which uses it as the format, and a request that is being served
    when the backend is deleted. *)
Theorem rogers_main_outcome (e : env) (argv : list bytes) (Hu : unambiguous long_opt argv) :
  let r := expected_end e argv in
  let t := eff_trace (main e argv) in
  eff_result (main e argv) = end_result r /\ pdlogs t = end_logs r /\
  traces t = end_traces e argv r /\ listens t = end_serves r /\
  (r = Finished -> lifetimes t [] = Some []).
Proof. by apply rogers_main_spec. Qed.

Definition example_env : env :=
  mkEnv (fun level => level <=? 4) (fun _ => 0) true None [] (mkStartEnv 1 0 5 0 0 0 0) 1 false.

Lemma rogers_main_outcome_witness :
  eff_result (main example_env example_argv) = Val 0 /\
  pdlogs (eff_trace (main example_env example_argv)) = [(CL_ROGERS_STARTED, []); (CL_ROGERS_ENDED, [])] /\
  traces (eff_trace (main example_env example_argv)) =
    [lit "Command-line options were: rogers --log-l 2 --daemon --log-level=-7x --cluster-settings-file /etc/c -- extra --help "] /\
  listens (eff_trace (main example_env example_argv)) = true.
Proof.
  assert (Hu : unambiguous long_opt example_argv) by (refine (bool_decide_unpack _ _); vm_compute; exact I).
  destruct (rogers_main_outcome example_env example_argv Hu) as (-> & -> & -> & -> & _).
  vm_compute. auto.
Defined.

(** A conversion in any argument is the undefined behaviour of the trace log,
    and an escaped percent sign is not. *)
Lemma traced_conversion_undefined :
  eff_result (main example_env [lit "rogers"; lit "--pidfile=/run/%s"]) = Fail Undefined /\
  eff_result (main example_env [lit "rogers"; lit "--pidfile=/run/%%s"]) = Val 2.
Proof. split; vm_compute; reflexivity. Qed.
