(* ===== verification/AstaireMain.v ===== *)
(** * Astaire: the main program

    Models src/resync_main.cpp: the options, the two passes over the command
    line, the signal handlers, and main, which sets up the statistics of
    Statistics.v and the Astaire object of Control.v, waits for SIGTERM and
    takes them down.  The functions have the same text as those of rogers
    (RogersMain.v) but for their options, and so have the definitions.  The
    pidfile, the configuration reader, the clocks, whether the trace log is on and
    what the control thread does at the shutdown are inputs.  Of the trace log only
    the command line is kept, which is its own format.  The thread that refreshes
    the global statistics is taken to end when it is told to. *)

From Stdlib Require Import ZArith Lia Strings.Byte.
From stdpp Require Import prelude.
From S2P Require Import Prelude Process GetOpt StdMap Worklist Statistics Control.

Open Scope Z_scope.

(** ** Options *)

Record options : Type := mkOptions {
  local_memcached_server : bytes;
  cluster_settings_file : bytes;
  log_to_file : bool;
  log_directory : bytes;
  log_level : Z;
  pidfile : bytes;
  daemon : bool
}.

(** enum Options *)
Definition LOCAL_NAME : Z := 256 + 1.
Definition CLUSTER_SETTINGS_FILE : Z := LOCAL_NAME + 1.
Definition BIND_ADDR : Z := CLUSTER_SETTINGS_FILE + 1.   (* not used *)
Definition LOG_FILE : Z := BIND_ADDR + 1.
Definition LOG_LEVEL : Z := LOG_FILE + 1.
Definition PIDFILE : Z := LOG_LEVEL + 1.
Definition DAEMON : Z := PIDFILE + 1.
Definition HELP : Z := DAEMON + 1.

Definition long_opt : list long_option :=
  [ mkOption (lit "local-name") required_argument LOCAL_NAME;
    mkOption (lit "cluster-settings-file") required_argument CLUSTER_SETTINGS_FILE;
    mkOption (lit "log-file") required_argument LOG_FILE;
    mkOption (lit "log-level") required_argument LOG_LEVEL;
    mkOption (lit "pidfile") required_argument PIDFILE;
    mkOption (lit "daemon") no_argument DAEMON;
    mkOption (lit "help") no_argument HELP ].

Definition usage_text : bytes := lit "Options:

 --local-name <hostname>    Specify the name of the local memcached server
 --cluster-settings-file=<filename>
                            The filename of the cluster settings file
 --log-file=<directory>     Log to file in specified directory
 --log-level=N              Set log level to N (default: 4)
 --pidfile=<filename>       Write pidfile
 --daemon                   Run as daemon
 --help                     Show this help screen
".

(** The objects that main creates. *)
Inductive object : Type :=
| O_alarm_manager
| O_resync_alarm
| O_view
| O_view_cfg
| O_lvc
| O_global_stats
| O_per_conn_stats
| O_astaire.

#[export] Instance object_eq_dec : EqDecision object.
Proof. solve_decision. Defined.

Abbreviation prog := (eff (effect object)).

Definition usage : prog unit := emit (Eff_puts usage_text).

Definition set_log_file (v : bytes) (o : options) : options :=
  mkOptions (local_memcached_server o) (cluster_settings_file o) true v (log_level o) (pidfile o) (daemon o).
Definition set_log_level (v : Z) (o : options) : options :=
  mkOptions (local_memcached_server o) (cluster_settings_file o) (log_to_file o) (log_directory o) v (pidfile o) (daemon o).
Definition set_daemon (o : options) : options :=
  mkOptions (local_memcached_server o) (cluster_settings_file o) (log_to_file o) (log_directory o) (log_level o) (pidfile o) true.
Definition set_cluster_settings_file (v : bytes) (o : options) : options :=
  mkOptions (local_memcached_server o) v (log_to_file o) (log_directory o) (log_level o) (pidfile o) (daemon o).
Definition set_local_memcached_server (v : bytes) (o : options) : options :=
  mkOptions v (cluster_settings_file o) (log_to_file o) (log_directory o) (log_level o) (pidfile o) (daemon o).
Definition set_pidfile (v : bytes) (o : options) : options :=
  mkOptions (local_memcached_server o) (cluster_settings_file o) (log_to_file o) (log_directory o) (log_level o) v (daemon o).

(** The switch of the first pass: other options are ignored. *)
Definition logging_option (opt : Z) (optarg prev : option bytes) (o : options) : prog options :=
  if opt =? LOG_FILE then v ← lift (use optarg); mret (set_log_file v o)
  else if opt =? LOG_LEVEL then
    v ← lift (use optarg); level ← lift (atoi v); mret (set_log_level level o)
  else if opt =? DAEMON then mret (set_daemon o)
  else mret o.

Definition init_logging_options (argv : list bytes) (o : options) : prog (list bytes * options * Z) :=
  scan_pass long_opt logging_option argv o.

(** The switch of the second pass. *)
Definition other_option (opt : Z) (optarg prev : option bytes) (o : options) : prog options :=
  if opt =? CLUSTER_SETTINGS_FILE then
    v ← lift (use optarg); mret (set_cluster_settings_file v o)
  else if opt =? LOCAL_NAME then v ← lift (use optarg); mret (set_local_memcached_server v o)
  else if opt =? PIDFILE then v ← lift (use optarg); mret (set_pidfile v o)
  else if opt =? HELP then
    _ ← usage; _ ← emit (Eff_pdlog CL_ASTAIRE_ENDED []); stop (Exited 0)
  else if (opt =? DAEMON) || (opt =? LOG_LEVEL) || (opt =? LOG_FILE) then mret o
  else
    name ← lift (use prev);
    _ ← emit (Eff_pdlog CL_ASTAIRE_INVALID_OPTION [name]);
    stop (Exited 2).

Definition init_options (argv : list bytes) (o : options) : prog (list bytes * options * Z) :=
  scan_pass long_opt other_option argv o.

(** The values main starts from. *)
Definition default_options : options := mkOptions [] [] false [] 0 [] false.

(** ** Signals *)

Definition terminate_handler : prog unit := emit Eff_sem_post.

(** signal_handler, as the reaction to a signal that main set it up for. *)
Definition signal_handler (strsignal : signal -> bytes) (faults : list fault) (sig : signal) :
    list (effect object) * delivery :=
  deliver CL_ASTAIRE_TERMINATED strsignal faults main_dispositions [] sig.

(** ** main *)

(** What becomes of the control thread at the shutdown, which deletes the
    statistics and then joins it: it leaves its loop, it stays in a resync (a tap
    that does not end), or it goes on to use the statistics. *)
Inductive control_end : Type := Leaves | Stays | Uses_statistics.

(** What main meets. *)
Record env : Type := mkEnv {
  re_info_enabled : Z -> bool;          (* is TRC_INFO written at a log level? *)
  re_lock_pidfile : bytes -> Z;         (* Utils::lock_and_write_pidfile *)
  re_config_valid : bool;               (* the configuration can be read at the check *)
  re_view : view;                       (* a new MemcachedStoreView(128, 2) *)
  re_config : option view;              (* what Astaire's updater reads then *)
  re_global_recorder : StatRecorder;    (* the clocks of the statistics *)
  re_conn_recorder : StatRecorder;
  re_uninit : global_stat -> Z;         (* what uninitialised counters hold *)
  re_sigterms : nat;                    (* how often SIGTERM arrives *)
  re_control_end : control_end
}.

(** The Astaire object once its constructor has run, and with it the updater
    for SIGHUP. *)
Definition new_astaire (e : env) (self : bytes) : res Astaire :=
  let global_stats := AstaireGlobalStatistics_new (re_global_recorder e) (re_uninit e) 0 0 0 in
  per_conn_stats ← AstairePerConnectionStatistics_new (re_conn_recorder e);
  mret (reload_config (re_config e)
          (Astaire_new (re_view e) true global_stats per_conn_stats self)).

(** The command line, which main passes to the trace log as its format. *)
Definition command_line (argv : list bytes) : bytes :=
  lit "Command-line options were: " ++ concat (map (fun a => a ++ lit " ") argv).

(** Up to the reading of the options. *)
Definition read_options (e : env) (argv : list bytes) : prog (options * Z) :=
  _ ← emit (Eff_signal SIGABRT On_crash);
  _ ← emit (Eff_signal SIGSEGV On_crash);
  _ ← emit (Eff_sem_init 0);
  _ ← emit (Eff_signal SIGTERM On_terminate);
  '(argv, options, rc) ← init_logging_options argv default_options;
  if negb (rc =? 0) then mret (options, 1)
  else
    _ ← emit (Eff_daemon_log_setup (daemon options) (log_directory options) (log_level options)
                (log_to_file options));
    _ ← emit (Eff_pdlog CL_ASTAIRE_STARTED []);
    _ ← TRC_INFO (re_info_enabled e (log_level options)) (command_line argv);
    '(_, options, rc) ← init_options argv options;
    if negb (rc =? 0) then mret (options, 1) else mret (options, 0).

(** Astaire::~Astaire, once it has told the control thread to terminate. *)
Definition delete_astaire (e : env) : prog unit :=
  _ ← emit (Eff_join O_astaire);
  match re_control_end e with
  | Leaves => emit (Eff_delete O_astaire)
  | Stays => stop Blocked
  | Uses_statistics => stop Undefined
  end.

(** From sem_wait on. *)
Definition wait_and_shut_down (e : env) : prog Z :=
  _ ← emit Eff_sem_wait;
  match re_sigterms e with
  | O => stop Blocked
  | S _ =>
      _ ← emit (Eff_pdlog CL_ASTAIRE_ENDED []);
      _ ← emit (Eff_delete O_per_conn_stats);
      _ ← emit (Eff_delete O_global_stats);
      _ ← emit (Eff_delete O_lvc);
      _ ← delete_astaire e;
      _ ← emit (Eff_delete O_alarm_manager);
      _ ← emit (Eff_delete O_view_cfg);
      _ ← emit (Eff_delete O_view);
      _ ← emit (Eff_signal SIGTERM SIG_DFL);
      _ ← emit Eff_sem_destroy;
      mret 0
  end.

(** From the check of the options on. *)
Definition set_up (e : env) (options : options) : prog Z :=
  _ ← emit Eff_start_signal_handlers;
  _ ← emit (Eff_new O_alarm_manager);
  _ ← emit (Eff_new O_resync_alarm);
  _ ← emit (Eff_new O_view);
  _ ← emit (Eff_new O_view_cfg);
  if negb (re_config_valid e) then mret 3
  else
    _ ← emit (Eff_new O_lvc);
    _ ← emit (Eff_new O_global_stats);
    _ ← emit (Eff_new O_per_conn_stats);
    astaire ← lift (new_astaire e (local_memcached_server options));
    _ ← emit (Eff_new O_astaire);
    wait_and_shut_down e.

(** The whole of it: what main returns. *)
Definition main (e : env) (argv : list bytes) : prog Z :=
  '(options, rc) ← read_options e argv;
  if negb (rc =? 0) then mret rc
  else if decide (local_memcached_server options = []) then mret 2
  else if decide (cluster_settings_file options = []) then mret 2
  else if decide (pidfile options = []) then set_up e options
  else
    _ ← emit (Eff_lock_pidfile (pidfile options));
    if re_lock_pidfile e (pidfile options) =? -1 then mret 2
    else set_up e options.

(** ** What the options should be *)

(** The options that a command line asks for, read off what it gives: the last
    value of each. *)
Definition expected_options (vs : list (Z * option bytes)) : options :=
  mkOptions (chosen LOCAL_NAME vs []) (chosen CLUSTER_SETTINGS_FILE vs [])
    (given LOG_FILE vs) (chosen LOG_FILE vs [])
    (match last_arg LOG_LEVEL vs with Some s => atoi_value s | None => 0 end)
    (chosen PIDFILE vs []) (given DAEMON vs).

(** A log level that atoi cannot convert. *)
Definition overflows (v : Z * option bytes) : bool :=
  (v.1 =? LOG_LEVEL) && match v.2 with Some s => negb (fits_int (atoi_value s)) | None => false end.

(** The options that end the program, and how. *)
Definition is_stop (e : event) : bool := (e.1.1 =? HELP) || (e.1.1 =? question_mark).
Definition ended_by (e : event) : list (effect object) * failure :=
  if e.1.1 =? HELP
  then ([Eff_puts usage_text; Eff_pdlog CL_ASTAIRE_ENDED []], Exited 0)
  else ([Eff_pdlog CL_ASTAIRE_INVALID_OPTION [default [] e.2]], Exited 2).

(** The events of a command line at the second pass. *)
Definition events_of (argv : list bytes) : list event := second_events long_opt argv.

(** Both passes, one after the other as in main. *)
Definition both_passes (argv : list bytes) : prog options :=
  '(argv, o, _) ← init_logging_options argv default_options;
  '(_, o, _) ← init_options argv o;
  mret o.

(** ** Lemmas *)

(** What the passes do to the options, one event at a time. *)
Definition logging_step (v : Z * option bytes) (o : options) : options :=
  if v.1 =? LOG_FILE then set_log_file (default (log_directory o) v.2) o
  else if v.1 =? LOG_LEVEL then set_log_level (default (log_level o) (atoi_value <$> v.2)) o
  else if v.1 =? DAEMON then set_daemon o
  else o.

Definition other_step (v : Z * option bytes) (o : options) : options :=
  if v.1 =? LOCAL_NAME then set_local_memcached_server (default (local_memcached_server o) v.2) o
  else if v.1 =? CLUSTER_SETTINGS_FILE then set_cluster_settings_file (default (cluster_settings_file o) v.2) o
  else if v.1 =? PIDFILE then set_pidfile (default (pidfile o) v.2) o
  else o.

Lemma astaire_logging_follows :
  follows long_opt logging_option (fun e => overflows e.1) (fun _ => ([], Undefined)) logging_step.
Proof.
  by_table. unfold logging_option, atoi, overflows. cbn -[fits_int atoi_value]. by destruct (fits_int _).
Qed.

Lemma astaire_other_follows : follows long_opt other_option is_stop ended_by other_step.
Proof. by_table. Qed.

Lemma astaire_options_ext o o' :
  local_memcached_server o = local_memcached_server o' -> cluster_settings_file o = cluster_settings_file o' ->
  log_to_file o = log_to_file o' -> log_directory o = log_directory o' -> log_level o = log_level o' ->
  pidfile o = pidfile o' -> daemon o = daemon o' -> o = o'.
Proof. destruct o, o'; cbn; congruence. Qed.

(** Field by field, the passes give what the command line asks for. *)
Lemma astaire_passes_expected vs :
  apply_all other_step vs (apply_all logging_step vs default_options) = expected_options vs.
Proof.
  apply astaire_options_ext; cbn [expected_options local_memcached_server cluster_settings_file log_to_file log_directory log_level pidfile daemon].
  - rewrite (field_chosen _ LOCAL_NAME other_step) by by_option other_step.
    by rewrite (field_same _ logging_step) by by_option logging_step.
  - rewrite (field_chosen _ CLUSTER_SETTINGS_FILE other_step) by by_option other_step.
    by rewrite (field_same _ logging_step) by by_option logging_step.
  - rewrite (field_same _ other_step) by by_option other_step.
    by rewrite (field_flag _ LOG_FILE logging_step) by by_option logging_step.
  - rewrite (field_same _ other_step) by by_option other_step.
    by rewrite (field_chosen _ LOG_FILE logging_step) by by_option logging_step.
  - rewrite (field_same _ other_step) by by_option other_step.
    rewrite (field_last _ atoi_value LOG_LEVEL logging_step) by by_option logging_step.
    by destruct (last_arg LOG_LEVEL vs).
  - rewrite (field_chosen _ PIDFILE other_step) by by_option other_step.
    by rewrite (field_same _ logging_step) by by_option logging_step.
  - rewrite (field_same _ other_step) by by_option other_step.
    by rewrite (field_flag _ DAEMON logging_step) by by_option logging_step.
Qed.

Lemma astaire_first_pass argv :
  unambiguous long_opt argv ->
  init_logging_options argv default_options =
  if existsb overflows (fst <$> events_of argv) then stop Undefined
  else mret (permuted long_opt argv, apply_all logging_step (fst <$> events_of argv) default_options, 0).
Proof. intros Hu. by apply first_scan, astaire_logging_follows. Qed.

Lemma astaire_second_pass argv o :
  unambiguous long_opt argv ->
  init_options (permuted long_opt argv) o =
  match List.find is_stop (events_of argv) with
  | Some e => mkEff (ended_by e).1 (Fail (ended_by e).2)
  | None => mret (permuted long_opt argv, apply_all other_step (fst <$> events_of argv) o, 0)
  end.
Proof. intros Hu. by apply second_scan, astaire_other_follows. Qed.

Lemma astaire_both_passes argv :
  unambiguous long_opt argv ->
  both_passes argv =
  if existsb overflows (fst <$> events_of argv) then stop Undefined
  else match List.find is_stop (events_of argv) with
       | Some e => mkEff (ended_by e).1 (Fail (ended_by e).2)
       | None => mret (expected_options (fst <$> events_of argv))
       end.
Proof.
  intros Hu. unfold both_passes. rewrite astaire_first_pass by done.
  destruct (existsb overflows _); [done|]. rewrite eff_ret_l, astaire_second_pass by done.
  destruct (List.find is_stop _) as [e|]; [done|].
  by rewrite eff_ret_l, astaire_passes_expected.
Qed.

(** ** Printing options *)

Lemma astaire_no_stop es :
  existsb (fun v => (v.1 =? HELP) || (v.1 =? question_mark)) (fst <$> es) = false ->
  List.find is_stop es = None.
Proof. intros H. apply find_existsb. by rewrite <- existsb_fst in H. Qed.


(** The command line arguments for some options. *)
Definition render (joined : bool) (o : options) : list bytes :=
  opt_args joined (lit "local-name") (local_memcached_server o) ++
  opt_args joined (lit "cluster-settings-file") (cluster_settings_file o) ++
  (if log_to_file o then opt_args joined (lit "log-file") (log_directory o) else []) ++
  opt_args joined (lit "log-level") (decimal (log_level o)) ++
  opt_args joined (lit "pidfile") (pidfile o) ++
  (if daemon o then [lit "--daemon"] else []).

Definition rendered (o : options) : list (Z * option bytes) :=
  [(LOCAL_NAME, Some (local_memcached_server o)); (CLUSTER_SETTINGS_FILE, Some (cluster_settings_file o))] ++
  (if log_to_file o then [(LOG_FILE, Some (log_directory o))] else []) ++
  [(LOG_LEVEL, Some (decimal (log_level o))); (PIDFILE, Some (pidfile o))] ++
  (if daemon o then [(DAEMON, None)] else []).

Lemma astaire_prints_render joined o : prints long_opt (render joined o) (rendered o).
Proof.
  unfold render, rendered.
  apply (prints_app long_opt _ _ [_] (_ :: _));
    [apply (prints_arg long_opt joined (mkOption (lit "local-name") required_argument LOCAL_NAME)); table_entry|].
  apply (prints_app long_opt _ _ [_]);
    [apply (prints_arg long_opt joined (mkOption (lit "cluster-settings-file") required_argument CLUSTER_SETTINGS_FILE)); table_entry|].
  apply prints_app.
  { destruct (log_to_file o); [|apply prints_nil].
    apply (prints_arg long_opt joined (mkOption (lit "log-file") required_argument LOG_FILE)); table_entry. }
  apply (prints_app long_opt _ _ [_] (_ :: _));
    [apply (prints_arg long_opt joined (mkOption (lit "log-level") required_argument LOG_LEVEL)); table_entry|].
  apply (prints_app long_opt _ _ [_]);
    [apply (prints_arg long_opt joined (mkOption (lit "pidfile") required_argument PIDFILE)); table_entry|].
  destruct (daemon o); [|apply prints_nil].
  apply (prints_flag long_opt (mkOption (lit "daemon") no_argument DAEMON)); table_entry.
Qed.

Lemma astaire_rendered_clean o :
  in_i32 (log_level o) ->
  existsb overflows (rendered o) = false /\
  existsb (fun v => (v.1 =? HELP) || (v.1 =? question_mark)) (rendered o) = false.
Proof.
  intros [E1 E2]%atoi_defined. unfold rendered, overflows.
  destruct (log_to_file o), (daemon o); cbn -[fits_int atoi_value decimal]; by rewrite E1, E2.
Qed.

Lemma astaire_rendered_expected o :
  in_i32 (log_level o) -> (log_to_file o = false -> log_directory o = []) ->
  expected_options (rendered o) = o.
Proof.
  intros [E1 _]%atoi_defined Hd. destruct o as [csf ba ltf ld ll pf dm].
  cbn [log_level log_to_file log_directory] in E1, Hd.
  destruct ltf, dm; cbv -[atoi_value decimal]; rewrite E1, ?Hd by done; done.
Qed.

(** ** How a run ends *)

Inductive run_end : Type :=
| Bad_level                   (* atoi cannot convert a log level *)
| Bad_format                  (* the command line is printed and has a conversion *)
| Stopped_by (e : event)      (* --help, or an option that is not one *)
| No_local_name
| No_settings
| No_pidfile
| Bad_config
| Running                     (* waiting for SIGTERM *)
| Stuck                       (* waiting for the control thread *)
| In_use                      (* the control thread used the statistics once deleted *)
| Finished.

(** What the trace log shows of the command line, if that is defined. *)
Definition shown (e : env) (argv : list bytes) : option (option bytes) :=
  info_shown (re_info_enabled e (log_level (expected_options (fst <$> events_of argv))))
    (command_line (permuted long_opt argv)).

Definition expected_end (e : env) (argv : list bytes) : run_end :=
  if existsb overflows (fst <$> events_of argv) then Bad_level
  else if bool_decide (shown e argv = None) then Bad_format
  else match List.find is_stop (events_of argv) with
  | Some ev => Stopped_by ev
  | None =>
      let o := expected_options (fst <$> events_of argv) in
      if bool_decide (local_memcached_server o = []) then No_local_name
      else if bool_decide (cluster_settings_file o = []) then No_settings
      else if bool_decide (pidfile o <> []) && (re_lock_pidfile e (pidfile o) =? -1) then No_pidfile
      else if negb (re_config_valid e) then Bad_config
      else match re_sigterms e, re_control_end e with
           | O, _ => Running
           | S _, Leaves => Finished
           | S _, Stays => Stuck
           | S _, Uses_statistics => In_use
           end
  end.

(** The result of main, the logs, and whether Astaire gets to run. *)
Definition end_result (r : run_end) : res Z :=
  match r with
  | Bad_level | Bad_format => Fail Undefined
  | Stopped_by ev => Fail (Exited (if ev.1.1 =? HELP then 0 else 2))
  | No_local_name | No_settings | No_pidfile => Val 2
  | Bad_config => Val 3
  | Running | Stuck => Fail Blocked
  | In_use => Fail Undefined
  | Finished => Val 0
  end.
Definition end_logs (r : run_end) : list (PDLog * list bytes) :=
  match r with
  | Bad_level => []
  | Stopped_by ev =>
      [(CL_ASTAIRE_STARTED, []);
       if ev.1.1 =? HELP then (CL_ASTAIRE_ENDED, [])
       else (CL_ASTAIRE_INVALID_OPTION, [default [] ev.2])]
  | Stuck | In_use | Finished => [(CL_ASTAIRE_STARTED, []); (CL_ASTAIRE_ENDED, [])]
  | _ => [(CL_ASTAIRE_STARTED, [])]
  end.
Definition end_traces (e : env) (argv : list bytes) (r : run_end) : list bytes :=
  match r with
  | Bad_level | Bad_format => []
  | _ => match shown e argv with Some (Some text) => [text] | _ => [] end
  end.
Definition end_runs (r : run_end) : bool :=
  match r with Running | Stuck | In_use | Finished => true | _ => false end.

(** What a trace shows at the end of a run. *)
Definition run_shows (e : env) (argv : list bytes) (r : run_end) (m : prog Z) : Prop :=
  eff_result m = end_result r /\ pdlogs (eff_trace m) = end_logs r /\
  traces (eff_trace m) = end_traces e argv r /\
  creates O_astaire (eff_trace m) = end_runs r /\
  (r = Finished -> lifetimes (eff_trace m) [] = Some [O_resync_alarm]) /\
  (end_runs r = true -> r <> Running -> deleted_before O_astaire (eff_trace m) = [O_per_conn_stats; O_global_stats; O_lvc]).

(** What main does before it reads any option. *)
Definition opening : list (effect object) :=
  [Eff_signal SIGABRT On_crash; Eff_signal SIGSEGV On_crash; Eff_sem_init 0;
   Eff_signal SIGTERM On_terminate].
Definition log_set_up (o : options) : list (effect object) :=
  [Eff_daemon_log_setup (daemon o) (log_directory o) (log_level o) (log_to_file o);
   Eff_pdlog CL_ASTAIRE_STARTED []].

Lemma astaire_read_options_spec e argv :
  unambiguous long_opt argv ->
  read_options e argv =
  let o := expected_options (fst <$> events_of argv) in
  if existsb overflows (fst <$> events_of argv) then mkEff opening (Fail Undefined)
  else match shown e argv with
       | None => mkEff (opening ++ log_set_up o) (Fail Undefined)
       | Some text =>
           mkEff (opening ++ log_set_up o ++ trace_of text ++
                  match List.find is_stop (events_of argv) with
                  | Some ev => (ended_by ev).1
                  | None => []
                  end)
                 match List.find is_stop (events_of argv) with
                 | Some ev => Fail (ended_by ev).2
                 | None => Val (o, 0)
                 end
       end.
Proof.
  intros Hu. unfold read_options. rewrite astaire_first_pass by done. cbn zeta.
  destruct (existsb overflows _); [done|]. rewrite eff_ret_l. cbn [Z.eqb negb].
  rewrite astaire_second_pass, TRC_INFO_spec by done.
  unfold shown, log_set_up. rewrite <- astaire_passes_expected.
  rewrite (field_same daemon other_step), (field_same log_directory other_step),
    (field_same log_level other_step), (field_same log_to_file other_step) by by_option other_step.
  destruct (info_shown _ _) as [text|]; [|done].
  destruct (List.find is_stop _) as [ev|]; [|rewrite eff_ret_l]; by destruct text.
Qed.

(** The object that main creates meets the conditions of the control thread. *)
Lemma new_astaire_ok e self :
  exists a, new_astaire e self = Val a /\ stats_ok a /\ as_has_alarm a = true /\ as_self a = self /\
    as_terminated a = false /\ as_full_resync_requested a = false /\
    as_view_updated a = bool_decide (is_Some (re_config e)) /\
    as_view a = default (re_view e) (re_config e).
Proof.
  unfold new_astaire, AstairePerConnectionStatistics_new.
  destruct (ps_reset_ok (mkPerConnStats (re_conn_recorder e) [])) as (p & -> & Hp).
  rewrite bind_Val. eexists. split; [done|]. unfold reload_config, update_view, stats_ok.
  destruct (re_config e); cbn [fst as_global_stats as_per_conn_stats Astaire_new];
    rewrite new_global_zero; by split_and!.
Qed.

Ltac show_run :=
  unfold run_shows, end_result, end_logs, end_traces; cbn -[shown];
  repeat match goal with H : (_ =? _) = _ |- _ => rewrite H end;
  repeat match goal with H : shown _ _ = _ |- _ => rewrite H; clear H end;
  try match goal with text : option bytes |- _ => destruct text end; by split_and!.

Lemma astaire_main_spec (e : env) (argv : list bytes) :
  unambiguous long_opt argv -> run_shows e argv (expected_end e argv) (main e argv).
Proof.
  intros Hu. unfold main. rewrite astaire_read_options_spec by done. unfold expected_end.
  cbn zeta. destruct (existsb overflows _); [show_run|].
  destruct (shown e argv) as [text|] eqn:Eshown;
    [rewrite bool_decide_eq_false_2 by done|rewrite bool_decide_eq_true_2 by done; show_run].
  destruct (List.find is_stop (events_of argv)) as [ev|].
  { unfold ended_by. destruct (ev.1.1 =? HELP) eqn:E; show_run. }
  set (o := expected_options _). cbn zeta. rewrite <- !decide_bool_decide.
  unfold mbind at 1, eff_bind at 1. cbn [eff_result eff_trace Z.eqb negb].
  destruct (decide (local_memcached_server o = [])); [show_run|].
  destruct (decide (cluster_settings_file o = [])); [show_run|].
  unfold set_up, wait_and_shut_down, delete_astaire. destruct (new_astaire_ok e (local_memcached_server o)) as (a & -> & _).
  destruct (decide (pidfile o = [])) as [Hp|Hp];
    [rewrite bool_decide_eq_false_2 by tauto|rewrite bool_decide_eq_true_2 by done];
    cbn [andb]; [|destruct (re_lock_pidfile e (pidfile o) =? -1); [show_run|]];
    (destruct (re_config_valid e); [|show_run]);
    (destruct (re_sigterms e); [show_run|]); destruct (re_control_end e); show_run.
Qed.

(** ** Properties *)

Definition example_argv : list bytes :=
  [lit "astaire"; lit "extra"; lit "--log-l"; lit "2"; lit "--daemon"; lit "--log-level=-7x";
   lit "--local-name=10.0.0.1"; lit "--cluster-settings-file"; lit "/etc/c"; lit "--"; lit "--help"].

(** C25: printing astaire's options as command line arguments, with or without an
    equals sign and followed by anything that is not an option, and reading them
    back in the two passes gives the options. *)
Theorem astaire_options_roundtrip (joined : bool) (name : bytes) (o : options) (extras : list bytes)
    (Hlevel : in_i32 (log_level o)) (Hdir : log_to_file o = false -> log_directory o = [])
    (Hextras : Forall (fun a => is_nonopt a = true) extras) :
  both_passes (name :: render joined o ++ extras) = mret o.
Proof.
  destruct (prints_argv long_opt name _ _ extras (astaire_prints_render joined o) Hextras) as [Hu E].
  rewrite astaire_both_passes by done.
  destruct (argv_permuted long_opt _ Hu) as [Ep _]. rewrite E in Ep.
  change (pa_events _) with (events_of (name :: render joined o ++ extras)) in Ep.
  destruct (astaire_rendered_clean o Hlevel) as [E1 E2].
  rewrite astaire_no_stop by by rewrite Ep. rewrite Ep, E1. by rewrite astaire_rendered_expected.
Qed.

Lemma astaire_options_roundtrip_witness :
  both_passes ([lit "astaire"] ++
     render false (mkOptions (lit "h") (lit "/etc/c") true (lit "--help") (-3) [] true) ++ [lit "x"]) =
  mret (mkOptions (lit "h") (lit "/etc/c") true (lit "--help") (-3) [] true).
Proof.
  apply (astaire_options_roundtrip false (lit "astaire")
    (mkOptions (lit "h") (lit "/etc/c") true (lit "--help") (-3) [] true) [lit "x"]);
    [cbv; split; [intros H; discriminate H|reflexivity] | intros H; discriminate H | repeat constructor].
Defined.

(** C9: how a run of astaire ends, as a function of the command line and of what
    it meets: the value main returns or exits with, the logs it leaves (STARTED
    once the options for logging are read, then ENDED exactly when it stops on
    --help or SIGTERM, INVALID_OPTION only for an invalid option), and the
    command line in the trace log if that is on.  An Astaire object is created
    only if all checks passed; it then has the local name of the command line, an
    alarm, sound statistics, and a first resync due when its configuration could
    be read.  Whatever SIGTERM meets, the statistics are deleted before the object
    whose control thread uses them; main returns only if that thread leaves its
    loop, waits for ever if it does not, and has no defined behaviour if the
    thread uses them.  A run that ends normally deletes nothing twice and leaks
    only the resync alarm.  A log level that an int cannot hold and a traced
    command line with a printf conversion are without defined behaviour too. *)
Theorem astaire_main_outcome (e : env) (argv : list bytes) (Hu : unambiguous long_opt argv) :
  let r := expected_end e argv in
  let t := eff_trace (main e argv) in
  let o := expected_options (fst <$> events_of argv) in
  eff_result (main e argv) = end_result r /\ pdlogs t = end_logs r /\
  traces t = end_traces e argv r /\ creates O_astaire t = end_runs r /\
  (exists a, new_astaire e (local_memcached_server o) = Val a /\ stats_ok a /\
     as_has_alarm a = true /\ as_self a = local_memcached_server o /\
     as_terminated a = false /\ as_full_resync_requested a = false /\
     as_view_updated a = bool_decide (is_Some (re_config e)) /\
     as_view a = default (re_view e) (re_config e)) /\
  (r = Finished -> lifetimes t [] = Some [O_resync_alarm]) /\
  (end_runs r = true -> r <> Running ->
     deleted_before O_astaire t = [O_per_conn_stats; O_global_stats; O_lvc]).
Proof.
  intros r t o. destruct (astaire_main_spec e argv Hu) as (H1 & H2 & H3 & H4 & H5 & H6).
  split_and!; try done. apply new_astaire_ok.
Qed.

Definition example_env (c : control_end) : env :=
  mkEnv (fun level => level <=? 4) (fun _ => 0) true (mkView [] [])
    (Some (mkView [(1, [lit "10.0.0.1"])] [])) example_recorder example_recorder (fun _ => 7) 1 c.

Lemma astaire_main_outcome_witness :
  eff_result (main (example_env Leaves) example_argv) = Val 0 /\
  pdlogs (eff_trace (main (example_env Leaves) example_argv)) =
    [(CL_ASTAIRE_STARTED, []); (CL_ASTAIRE_ENDED, [])] /\
  lifetimes (eff_trace (main (example_env Leaves) example_argv)) [] = Some [O_resync_alarm] /\
  eff_result (main (example_env Stays) example_argv) = Fail Blocked.
Proof.
  assert (Hu : unambiguous long_opt example_argv) by (refine (bool_decide_unpack _ _); vm_compute; exact I).
  destruct (astaire_main_outcome (example_env Leaves) example_argv Hu) as (-> & -> & _ & _ & _ & Hl & _).
  destruct (astaire_main_outcome (example_env Stays) example_argv Hu) as (-> & _).
  split; [vm_compute; reflexivity|]. split; [vm_compute; reflexivity|].
  split; [apply Hl; vm_compute; reflexivity|vm_compute; reflexivity].
Defined.
